(* ===== verification/_CoqProject ===== *)
-Q . S2P
Prelude.v
GoLib.v
FloatLib.v
NetLib.v
GossipState.v
GossipReplica.v
GossipMembership.v
FailureDetector.v
GossipMetrics.v
Protocol.v
GossipNode.v
GossipExchange.v
GossipNet.v
GossipRun.v
Cluster.v
Syncer.v
Advertise.v
SyncerGossip.v
Upstream.v
PikoNet.v
PikoSync.v
PikoRouting.v
HttpLib.v
Auth.v
Utf8.v
UpstreamServer.v
Proxy.v
PikoProxy.v
Transport.v
Client.v
Admin.v
ConfigLib.v
Logging.v
ServerConfig.v
AgentConfig.v
Middleware.v
Metrics.v
Commands.v
Bench.v
ServerNode.v
TestCluster.v
NodeRun.v
Tunnel.v
Status.v
AdminRoutes.v
AgentCommands.v
Sessions.v
