(* ===== verification/Prelude.v ===== *)
(** * Verification of the Piko reverse proxy

    Piko is a reverse proxy that reaches services behind a firewall: an
    upstream service opens a connection to any node of a Piko cluster and
    listens on an endpoint; a request for the endpoint may arrive at any node,
    which proxies it to an upstream of its own or forwards it to a node that
    has one.  The nodes tell each other of their endpoints by gossip.  This
    library models the Go code under src/ and proves what makes it correct.

    ** The parts and how they interact

    - [GossipState] (pkg/gossip/state.go): the versioned key-value state each
      node holds of every node.  [clusterState] is the struct of the code
      without its mutex, metrics, watcher and detector; every method is a
      function that returns the new state and, as [effect]s, the calls it makes
      on those, in order.  Its theorems are in [GossipReplica] (one owner and
      its replicas) and [GossipMembership] (the nodes known, their expiry,
      tombstones and liveness).
    - [FailureDetector] (pkg/gossip/failuredetector.go): the accrual detector,
      in IEEE binary64 arithmetic.
    - [GossipMetrics] (pkg/gossip/state.go): the gauge of entries, added up from
      the effects of the state's operations.
    - [Protocol] (pkg/gossip/protocol.go): the packets.  msgpack is the class
      [Codec] with the laws [CodecLaws]; the example codecs show the laws can
      hold.
    - [GossipNode] (pkg/gossip/gossip.go, listener.go, config.go): the handlers
      of packets and streams and the exchanges a node starts; the network is
      the class [Env].  [GossipExchange] proves whole exchanges.
    - [GossipNet]: any number of nodes over an unreliable network, as the
      transition system [net_step].
    - [GossipRun] (pkg/gossip/gossip.go, listener.go): the goroutines of the
      gossip of a node, with any number of calls of [Close], as the step
      relation [gossip_run_step].
    - [Cluster] (server/cluster/node.go, state.go): the nodes of the cluster
      with their endpoints, the lookup of an endpoint and the average of
      connections.
    - [Syncer] (server/gossip/syncer.go): as the gossip watcher it builds the
      remote nodes of the cluster; as a subscriber of the cluster it gossips the
      local endpoints.  [Advertise] puts that second direction together with the
      cluster and the gossip state, with the interleaving of callbacks as the
      step relation [world_step].  [SyncerGossip] proves that a syncer follows
      the gossip state it watches when every node publishes what a Piko node
      does.
    - [PikoNet], [PikoSync], [PikoRouting]: the composition.  A node ([piko_node]) is its
      gossip state, syncer, cluster state and upstream manager; any number of
      them over the network of [GossipNet] are the transition system
      [piko_step], with the connections of upstreams, the callbacks under the
      manager's mutex and every gossip step.  Its projection [proj] is a
      network of gossip nodes.  [piko_step] lets any node send its digest or its
      delta to any other, more than the program does (a node joins the addresses
      it is configured with and gossips with nodes it knows), so what holds in
      every reachable network holds of the program's; what a network can come to
      is proved in [PikoSync] over the steps [known_step] only, in which a digest
      goes to a node its sender knows and a delta answers a digest ([sent]), from
      networks whose nodes have met ([linked]) and have heard of those that left
      ([heard_leaving]).
    - [Upstream] (server/upstream/manager.go, upstream.go): the load balancers
      and the manager that counts the connected upstreams in the cluster.
    - [Utf8], [FloatLib], [UpstreamServer] (server/upstream/server.go): the
      handler of an upstream connection, rebalancing, and the server as the step
      relation [server_step]: a handler adds its session ([enter]), registers its
      upstream with the manager ([register]), and at its end undoes both, last
      first ([unregister], [cleanup]), with the steps of others in between.
    - [HttpLib], [Auth] (pkg/auth, pkg/middleware/auth.go): tokens, verifiers,
      key configuration and the middleware.  golang-jwt is the class [JWT] with
      the documented laws [JWTLaws]; loading keys is the class [KeyLoader].
    - [Proxy] (server/proxy): the routes and the two proxies over the manager;
      dialing and the exchange with an upstream are the class [ProxyEnv].  A
      response whose body breaks off ([BrokenOff]) makes the reverse proxy panic
      ([Aborted]), which the recovery middleware ends.
      [PikoProxy] composes it with the network of [PikoRouting]: the environment
      [node_env] of a node's proxy is the proxies of the other nodes; the network
      between them is the class [Fabric].
    - [Transport] (pkg/yamuxconn, pkg/websocket): coalescing yamux frames, the
      stream over a WebSocket, dialing.  gorilla's connection is the class
      [WebSocket] with the laws [WebSocketLaws].
    - [Client] (client, pkg/backoff): waiting between attempts in binary64,
      connecting with retries, the URLs, and the listener as the step relation
      [listener_step], in which a dial may succeed after the listener was
      closed.
    - [Admin] (server/admin): password sessions, the gate in front of the admin
      routes, and forwarding a request to another node.
    - [ConfigLib] (pkg/config): pointers to fields ([ptr]), the calls that
      register flags ([flag]), environment variables, and the TLS files
      ([TLSEnv]).  [ServerConfig] (server/config, and the flags of pkg/auth and
      pkg/gossip) and [AgentConfig] (agent/config, forward/config) are the
      configurations; [Commands] (cli/agent, cli/forward, agent/reverseproxy,
      agent/tcpproxy) is what the commands do before they run.
    - [Logging] (pkg/log, pkg/middleware/logger.go): the filtering logger and
      the access log.  [Middleware] (pkg/middleware/metrics.go, the metrics of
      agent/reverseproxy): the request metrics, and the chains of middleware the
      servers put around their routes.  [Metrics] (the metrics.go of pkg/gossip,
      server/cluster, server/upstream, pkg/middleware and agent/reverseproxy): the
      metrics of a node and an agent, their registration, and the calls that the
      effects of the other parts stand for; Prometheus is the class [Prometheus]
      with the laws [PrometheusLaws].
    - [ServerNode] (server/server.go, server/gossip/gossip.go): a node built
      from its configuration out of the parts above, its start-up, joining and
      shutdown.  [NodeRun] (and cli/server/command.go) runs those with the
      goroutines of the servers, which may fail at any time, as the step relation
      [node_step]: the fatal channel, the shutdown flag and the wait group.
    - [TestCluster] (pikotest/cluster, cli/test/cluster), [Bench] (bench,
      cli/bench): the local cluster of the test command with the manager of its
      nodes, and the benchmark.
    - [Tunnel] (agent/tcpproxy, client/forwarder.go, forward/forwarder.go and the
      tunnel of server/proxy/tcpproxy.go): the pair of goroutines that carries a
      connection, as the state [tunnel] with the steps [tunnel_act]; each of the
      two connections closes as a whole or, as a stream of yamux, only halfway,
      what it received being readable still; what starts and tracks tunnels, the agent's TCP server as the step relation
      [tcp_step]; errgroup is the class [Errgroup].
    - [Status] (server/*/status.go, server/status, cli/server/status): the status
      routes of a node, the client that reads them, and [admin_handle], admin
      servers that forward to each other; gin's router is the class [Gin], JSON
      the class [JSON].
    - [AdminRoutes] (server/admin/server.go, web.go, reverseproxy.go, and
      agent/server): the gin engine the admin server builds, with the middleware
      each route was registered behind; registering a route may panic, which
      gin's tree of patterns decides, the class [GinTree] with [GinTreeLaws].
    - [AgentCommands] (cli/agent, cli/forward): the flags of the agent's commands
      and the rest of their preparation.
    - [Sessions] (pkg/websocket, server/upstream, client): the options of the
      dialer, deadlines, and the yamux sessions of both ends; yamux is the class
      [Yamux] with the laws [YamuxLaws].
    - [GoLib], [NetLib]: the parts of Go and its standard library the code uses
      (machine integers, time, strconv, strings, map iteration, sorting,
      addresses).

    ** How the code is modelled

    A method is a function from the state to the new state and its effects.
    [None] as the outer result is a run-time panic (a nil dereference, a map
    entry the code assumes, an index out of range, a division by zero), so a
    theorem that gives [Some] says that the code does not panic.  Errors are
    values of a sum.  A [uint64] is an [N] below 2^64 and an [int] a [Z], with
    the wrap-around written where the code computes ([u64_succ], [i64]); a
    theorem that needs room below the bound says so.  [time.Now()] is an
    argument.  A Go map is a [gmap] and its iteration order an instance of
    [MapIter], so a theorem holds for every order; [rand.Shuffle] is an
    arbitrary function where only membership matters.  A mutex held for a whole
    method makes the method one step; where the code unlocks before it calls
    back, the callback is a step of its own.

    Fuel: the decoders take the length of the packet, since every successful
    decoding consumes a byte ([CodecLaws]), and [decoders_total_and_strict]
    proves it is enough; the claim path loop takes the length of the path, and
    [claim_path_reference] proves it equal to the structural definition; the
    IPv6 parser takes the eight groups an address has; [admin_handle] takes the
    number of forwards, of which [status_query_answers] needs one, and
    [stale_forward_loops] shows the requests no number is enough for; a request
    through the proxies takes the hops it may make, and [requests_answered]
    proves one to be enough; the benchmark's loops end at an exact count, and
    take one step more than it.

    ** What the theorems show

    - Replication: a replica that applies its owner's delta becomes equal to the
      owner ([replica_converges]); any truncated or relayed delta keeps it a
      replica ([replica_relay]); the owner's operations keep its replicas
      replicas ([owner_operation_preserves_replicas]), a compaction keeps what
      is visible ([compaction_preserves_view]), and the watcher's calls replay
      to what is visible ([watcher_mirrors_replica]).
    - Exchanges: over encoded packets and streams, a gossip round and a join
      leave each node with the other's state ([push_pull_round],
      [join_synchronizes]); packets respect their size and decode to what was
      encoded or a truncation of it ([delta_packet_roundtrip],
      [digest_packet_roundtrip]), and decoding any bytes returns
      ([decoders_total_and_strict]).
    - Networks: in every reachable network of nodes each copy is a replica of
      its owner's state ([network_replicates]) and the nodes can get in sync
      ([network_can_sync]).  Expiry is not a step of the network:
      [late_delta_after_expiry] shows that it can lose entries.
    - Whole nodes: the gossip of Piko nodes is such a network
      ([piko_refines_gossip]), a node advertises what it has
      ([endpoints_advertised]), a request is forwarded to a node that has an
      upstream for it unless the copy of its state is out of date
      ([forwards_to_upstream]), and from every reachable network whose nodes
      have met they can come, by gossip with nodes they know, to route every
      endpoint ([endpoints_discovered]).
    - Requests through the network, of clients that do not list the proxies'
      headers in [Connection]: a node answers every request after at most one
      hop ([requests_answered]), a request reaches at most one upstream, of its
      own endpoint, past nodes that admit it ([requests_isolated]), and nodes
      that have met can come to hand a request to any of them for any endpoint
      to a connected upstream ([requests_reach_upstreams]).  A response that
      breaks off at the second node can look whole at the first
      ([broken_response_passes]).
    - Membership: the invariant and the watcher over any sequence of operations
      ([watcher_tracks_peers]), expiry, tombstones and liveness
      ([expiry_exact], [tombstone_blocks_rediscovery], [liveness_exact]), over
      a detector whose queue and phi are proved ([interval_buffer_is_queue],
      [suspicion_is_phi], [phi_panics_without_progress]).  The gauge of entries
      is exact ([entries_gauge_exact]) but for an empty key
      ([empty_key_miscounted]).
    - The cluster: its invariant ([cluster_invariant]), lookup, counting and the
      average ([lookup_endpoint_exact], [local_listeners_counted],
      [avg_conns_exact]); it mirrors the gossip ([cluster_mirrors_gossip],
      [routing_follows_gossip]) and the local endpoints are advertised when
      callbacks do not interleave ([local_endpoints_advertised]), which the
      manager's mutex ensures; interleaved ones could leave a stale
      advertisement ([stale_advertisement_reachable]).
    - Upstreams: the manager counts what is connected
      ([manager_counts_connected], [double_remove_desynchronizes] for the
      exception), selection ([select_prefers_local], [round_robin]), and in
      every reachable state of the server nothing is advertised that is not
      there ([no_phantom_endpoints]) and, while no dial finds an upstream gone,
      nothing leaks ([server_tracks_connections]); rebalancing ([rebalance_only_overloaded],
      [rebalance_average_zero]) and names ([sanitized_name_safe]).
    - Authentication and proxying: accepted tokens are authentic and their scope
      is exact ([verified_token_authentic], [verified_token_scope],
      [claim_path_reference], [middleware_gate]); the proxy enforces the scope
      and panics only where the reverse proxy does ([proxy_enforces_scope]), a forwarded request makes one
      hop ([forwarded_request_served_locally], [forward_mark_strippable] for
      the exception), and a claim that names a hostname names the endpoint its
      requests reach ([hostname_claim_names_endpoint]).

    - The edges: a WebSocket read is a stream ([websocket_reads_stream]) and the
      coalescing keeps the bytes and makes one write of a frame
      ([yamux_stream_preserved], [yamux_frame_single_write]); a client retries
      what may be retried and waits as long as it should ([connect_retries],
      [backoff_bounded], [backoff_attempts_exact]), its requests are read by the
      servers as it meant them ([client_requests_routed]), and its listener
      leaks nothing but in one race ([listener_sessions],
      [shutdown_race_leaks]).
    - The admin server: sessions are authentic and last their time
      ([session_authentic], [login_session_lifetime]) and nothing is reached
      without a credential ([admin_requires_credential]), which its router keeps
      whatever status handlers are added ([admin_router_gated_serving]).
    - Configuration: flags are distinct and store into fields of their own
      ([command_flags_ok]), variables are expanded as documented
      ([expandEnv_exact]), a validated agent starts ([validated_agent_starts])
      while command line arguments are not validated
      ([agent_arguments_unchecked]), addresses ([listener_addr_exact]) and
      logs ([log_records_exact], [access_log_exact],
      [access_log_boot_panic]); a chain answers every request and measures those
      that reach its route and do not panic ([proxy_chain_measures]), and no metric
      panics ([metrics_never_panic]).
    - The node: a validated configuration authenticates its tenants
      ([node_authenticates_tenants], on top of the verifiers' theorems), its
      advertised addresses can be dialed ([advertise_addr_dialable]), joining
      ends ([join_on_startup_bounded]) and the servers start and stop in a safe
      order ([lifecycle_order]).  Whatever its goroutines do, it does not hang
      ([node_stops]) and its process ends for a reason ([exit_reason]); the
      goroutines of its gossip are told once to end and can
      ([gossip_closed_once], [gossip_loops_end]), with an interval they can run
      at ([jitter_bounds], [validated_may_panic] for the others).
    - The tools: the manager of a test cluster keeps the number of nodes it is
      told to ([manager_keeps_nodes]), its load balancer can be closed
      ([balancer_close_ends]) and a benchmark sends what it was asked to
      ([benchmark_sends_requests]).
    - Running: the flags of the agent's commands are well formed
      ([listener_flags_ok]), and the sessions of an accepted configuration open
      ([sessions_open]).
    - Tunnels: bytes are carried as they are and a tunnel ends as a whole
      ([tunnel_faithful], [tunnel_ends]), at the price of the answer to a peer
      that only stops sending ([half_close_loses_answer]); what closing the
      agent's TCP server leaves ([tcp_close_exact], [tcp_close_races]); the
      forwarder never reports why it ended ([forwarder_wait_hides_errors]).
    - Status: a query is answered by the node it names
      ([status_query_answers]), over the routes a started node has
      ([started_router_status]), except where forwarding loops or meets TLS
      ([stale_forward_loops], [tls_forward_refused]).

    ** What is not modelled

    Libraries: sockets, TLS handshakes, HTTP serving, yamux and the WebSocket
    protocol, gin's matching, its tree of patterns and its redirects of a path
    with one slash too many or too few, oklog/run (the group that runs the
    servers of an agent or a forwarder and interrupts them), cobra and pflag, the YAML and JSON codecs, zap's encoding, and
    what /metrics and the profiles print.  Where the program relies on them they
    are parameters with their documented behaviour: the listener of the agent's
    TCP server accepts nothing once it is closed, the [Serve] of an HTTP server
    returns once [Shutdown] was called.

    In the program: help texts and log messages; the byte counters of gossip
    streams; a write that blocks because its peer does not read (in [Tunnel] a
    write ends); the bytes of the admin page; the throughput a benchmark prints;
    the certificates of the tests (pkg/testutil/tls.go), which have no logic of
    their own.  Expiry and restarts are not steps of the networks of
    [GossipNet] and [PikoNet]: after an expiry a late delta can leave a copy
    that is no replica ([late_delta_after_expiry]), so the invariant of these
    networks does not hold with them; what expiry does to one node is in
    [GossipMembership]. *)

From stdpp Require Export base tactics option list sorting numbers strings gmap fin_maps sets.
From Stdlib Require Export Lia.

(** ** Tactics shared by the development *)

(** Case analysis on every [match]/[if] of the goal and hypotheses, with the
    equations simplified. *)
Ltac crush_match :=
  repeat (case_match || case_decide || case_bool_decide); simplify_eq/=.

(** Split conjunctions and close arithmetic and trivial goals. *)
Ltac split_lia := split_and?; try done; try lia.

(** Close a goal by stdpp's first-order search with arithmetic at the leaves. *)
Ltac solve_arith := naive_solver lia.

(** ** Hint database of the development *)
Create HintDb piko discriminated.

(** ** Lists *)

(** [prefix_upto] of a sorted list: strictly sorted lists by a measure. *)
Definition sorted_by {A} (f : A → N) (l : list A) : Prop :=
  StronglySorted (λ x y, (f x < f y)%N) l.

(** The measure of the last element, or the default for an empty list. *)
Definition last_by {A} (f : A → N) (d : N) (l : list A) : N :=
  match last l with Some x => f x | None => d end.

(** [foldl] that threads an output list: the shape of the loops of the program
    that change a state and emit effects. *)
Fixpoint fold_emit {S A W} (f : S → A → S * list W) (s : S) (l : list A) : S * list W :=
  match l with
  | [] => (s, [])
  | x :: l' =>
      let '(s1, w1) := f s x in
      let '(s2, w2) := fold_emit f s1 l' in
      (s2, w1 ++ w2)
  end.

Lemma fold_emit_fst {S A W} (f : S → A → S * list W) (s : S) l :
  (fold_emit f s l).1 = foldl (λ s x, (f s x).1) s l.
Proof.
  revert s. induction l as [|x l IH]; intros s; simpl; [done|].
  destruct (f s x) as [s1 w1] eqn:E; simpl. rewrite <-IH.
  by destruct (fold_emit f s1 l).
Qed.

Lemma fold_emit_app {S A W} (f : S → A → S * list W) (s : S) l1 l2 :
  fold_emit f s (l1 ++ l2) =
    let '(s1, w1) := fold_emit f s l1 in
    let '(s2, w2) := fold_emit f s1 l2 in (s2, w1 ++ w2).
Proof.
  revert s. induction l1 as [|x l1 IH]; intros s; simpl.
  { by destruct (fold_emit f s l2). }
  destruct (f s x) as [s1 w1]; rewrite IH.
  destruct (fold_emit f s1 l1) as [s2 w2], (fold_emit f s2 l2) as [s3 w3].
  by rewrite (assoc_L (++)).
Qed.

(** An invariant of every iteration is an invariant of the loop. *)
Lemma fold_emit_ind {S A W} (P : S → Prop) (f : S → A → S * list W) (s : S) l :
  P s → (∀ s x, x ∈ l → P s → P (f s x).1) → P (fold_emit f s l).1.
Proof.
  intros Hs Hstep. rewrite fold_emit_fst. revert s Hs.
  induction l as [|x l IH]; intros s Hs; simpl; [done|].
  apply IH; [|by apply Hstep; [left|]]. intros. apply Hstep; [by right|done].
Qed.

(** A reflexive and transitive relation that holds of every iteration holds of
    the loop. *)
Lemma fold_emit_rel {S A W} (R : S → S → list W → Prop) (f : S → A → S * list W) (s : S) l :
  (∀ s, R s s []) →
  (∀ s1 s2 s3 w1 w2, R s1 s2 w1 → R s2 s3 w2 → R s1 s3 (w1 ++ w2)) →
  (∀ s x, x ∈ l → R s (f s x).1 (f s x).2) →
  R s (fold_emit f s l).1 (fold_emit f s l).2.
Proof.
  intros Hrefl Htrans. revert s. induction l as [|x l IH]; intros s Hf; simpl; [done|].
  pose proof (Hf s x ltac:(left)) as Hx. destruct (f s x) as [s1 w1]. simpl in Hx.
  specialize (IH s1 ltac:(intros; apply Hf; by right)).
  destruct (fold_emit f s1 l) as [s2 w2]. by eapply Htrans.
Qed.

Lemma foldl_ind {S A} (P : S → Prop) (f : S → A → S) (s : S) l :
  P s → (∀ s x, x ∈ l → P s → P (f s x)) → P (foldl f s l).
Proof.
  revert s. induction l as [|x l IH]; intros s Hs Hstep; simpl; [done|].
  apply IH; [by apply Hstep; [left|]|]. intros. by apply Hstep; [right|].
Qed.

(** *** Options *)

(** A guarded lookup that succeeds. *)
Lemma bind_Some_guard {A B} (o : option A) (P : A → Prop) `{∀ x, Decision (P x)} (f : A → option B) y :
  (x ← o; guard (P x);; f x) = Some y → ∃ x, o = Some x ∧ P x ∧ f x = Some y.
Proof. destruct o as [x|]; simpl; [|done]. case_guard; simpl; [eauto|done]. Qed.

(** *** Sorted lists *)

Lemma sorted_by_app {A} (f : A → N) l1 l2 :
  sorted_by f (l1 ++ l2) ↔
  sorted_by f l1 ∧ sorted_by f l2 ∧ ∀ x y, x ∈ l1 → y ∈ l2 → (f x < f y)%N.
Proof.
  unfold sorted_by. rewrite StronglySorted_app. split; [intros (?&?&?)|intros (?&?&?)]; auto.
Qed.

Lemma sorted_by_snoc {A} (f : A → N) l x :
  sorted_by f (l ++ [x]) ↔ sorted_by f l ∧ ∀ y, y ∈ l → (f y < f x)%N.
Proof.
  rewrite sorted_by_app. split; [intros (Hl&_&Hx)|intros [Hl Hx]].
  - split; [done|]. intros y Hy. apply Hx; [done|]. by apply list_elem_of_singleton.
  - split_and!; [done|repeat constructor|].
    intros y z Hy ->%list_elem_of_singleton. by apply Hx.
Qed.

Lemma last_by_snoc {A} (f : A → N) d l x : last_by f d (l ++ [x]) = f x.
Proof. unfold last_by. by rewrite last_snoc. Qed.

Lemma last_by_bound {A} (f : A → N) d l x :
  sorted_by f l → x ∈ l → (f x ≤ last_by f d l)%N.
Proof.
  destruct l as [|y l _] using rev_ind; [set_solver|].
  rewrite sorted_by_snoc, last_by_snoc. intros [_ Hl] Hx.
  apply elem_of_app in Hx as [Hx|Hx]; [apply Hl in Hx; lia|].
  apply list_elem_of_singleton in Hx as ->. lia.
Qed.

(** Two strictly sorted lists with the same elements are equal. *)
Lemma sorted_by_unique {A} (f : A → N) l1 l2 :
  sorted_by f l1 → sorted_by f l2 → l1 ≡ₚ l2 → l1 = l2.
Proof.
  intros H1 H2 Hp. eapply StronglySorted_unique_strong; [|exact H1|exact H2|exact Hp].
  intros x1 x2 _ _ Hlt1 Hlt2. simpl in *. lia.
Qed.
