(* ===== verification/GoLib.v ===== *)
(** * The parts of Go and its standard library that the program uses

    Machine integers at their width, [strconv], [strings], [time], the
    iteration order of maps and [sort.Slice].  Every definition is executable;
    the iteration order of a Go map, which the language leaves open, is the
    class [MapIter]: a function that lists a map in some order. *)

From Stdlib Require Export Ascii.
From Stdlib Require Import DecimalString DecimalN.
From Stdlib Require Export SpecFloat.
From S2P Require Import Prelude.

(** ** Machine integers *)

(** A [uint64] is an [N]; arithmetic on it wraps. *)
Definition u64 (n : N) : N := (n `mod` 2 ^ 64)%N.

(** [x++] on a [uint64]. *)
Definition u64_succ (n : N) : N := u64 (n + 1).

(** An [int64] (and [int] on 64-bit platforms) is a [Z]; arithmetic wraps in
    two's complement. *)
Definition i64 (z : Z) : Z := ((z + 2 ^ 63) `mod` 2 ^ 64 - 2 ^ 63)%Z.

Definition is_i64 (z : Z) : Prop := (- 2 ^ 63 ≤ z < 2 ^ 63)%Z.

#[global] Instance is_i64_dec z : Decision (is_i64 z).
Proof. unfold is_i64. apply _. Defined.

(** ** float64 *)

(** A [float64] is an IEEE binary64 number of the executable specification in
    [SpecFloat], rounding to nearest even. *)
Definition float64 : Set := spec_float.

Definition float64_of_int (z : Z) : float64 := binary_normalize 53 1024 z 0 false.
Definition fadd : float64 → float64 → float64 := SFadd 53 1024.
Definition fmul : float64 → float64 → float64 := SFmul 53 1024.
Definition fdiv : float64 → float64 → float64 := SFdiv 53 1024.

(** [x < y] and [x == y] on [float64]: false when either is NaN. *)
Definition flt (x y : float64) : bool := SFltb x y.
Definition feq (x y : float64) : bool := SFeqb x y.

(** ** time *)

(** A [time.Time] is a number of nanoseconds since the zero [time.Time]; a
    [time.Duration] is a number of nanoseconds. *)
Abbreviation time := Z.

Definition zero_time : time := 0%Z.
Definition time_IsZero (t : time) : bool := bool_decide (t = zero_time).
Definition time_After (t u : time) : bool := bool_decide (u < t)%Z.

Definition Millisecond : Z := 1000000.
Definition Second : Z := (1000 * Millisecond)%Z.
Definition Minute : Z := (60 * Second)%Z.
Definition Hour : Z := (60 * Minute)%Z.

(** [t.Sub(u)] saturates at the bounds of an [int64]. *)
Definition time_Sub (t u : time) : Z :=
  Z.max (- 2 ^ 63) (Z.min (2 ^ 63 - 1) (t - u)).

(** ** strconv *)

(** [strconv.FormatUint(n, 10)] *)
Definition FormatUint (n : N) : string := NilZero.string_of_uint (N.to_uint n).

(** The value of a non-empty string of decimal digits. *)
Definition parse_digits (s : string) : option N :=
  N.of_uint <$> NilZero.uint_of_string s.

(** [strconv.ParseUint(s, 10, 64)], [None] for an error. *)
Definition ParseUint (s : string) : option N :=
  n ← parse_digits s; guard (n < 2 ^ 64)%N;; Some n.

(** [strconv.Itoa] *)
Definition Itoa (z : Z) : string :=
  if decide (z < 0)%Z then String "-"%char (FormatUint (Z.to_N (- z)))
  else FormatUint (Z.to_N z).

(** [strconv.Atoi] (and [strconv.ParseInt(s, 10, 64)]), [None] for an error. *)
Definition Atoi (s : string) : option Z :=
  match s with
  | String "-"%char s' =>
      n ← parse_digits s'; guard (n ≤ 2 ^ 63)%N;; Some (- Z.of_N n)%Z
  | String "+"%char s' =>
      n ← parse_digits s'; guard (n < 2 ^ 63)%N;; Some (Z.of_N n)
  | _ =>
      n ← parse_digits s; guard (n < 2 ^ 63)%N;; Some (Z.of_N n)
  end.

(** ** strings *)

(** [strings.HasPrefix(s, p)] *)
Definition HasPrefix (s p : string) : bool := String.prefix p s.

(** The first value of [strings.CutPrefix(s, p)]. *)
Fixpoint CutPrefix (s p : string) : string :=
  match p, s with
  | EmptyString, _ => s
  | String a p', String b s' =>
      if decide (a = b) then
        (if String.prefix p' s' then CutPrefix s' p' else s)
      else s
  | String _ _, EmptyString => s
  end.

(** [strings.Cut(s, sep)] for a one-byte separator: the parts before and after
    its first occurrence, [None] when it does not occur. *)
Fixpoint Cut (s : string) (sep : Ascii.ascii) : option (string * string) :=
  match s with
  | EmptyString => None
  | String c s' =>
      if decide (c = sep) then Some (EmptyString, s')
      else '(a, b) ← Cut s' sep; Some (String c a, b)
  end.

(** [strings.Contains(s, sep)] for a one-byte [sep]. *)
Fixpoint Contains (s : string) (sep : Ascii.ascii) : bool :=
  match s with
  | EmptyString => false
  | String c s' => bool_decide (c = sep) || Contains s' sep
  end.

(** ** Iteration over maps *)

(** [for k, v := range m] visits every key once, in an order the language does
    not specify: an instance is one choice of that order. *)
Class MapIter := {
  map_range {V} : gmap string V → list (string * V);
  map_range_perm {V} (m : gmap string V) : map_range m ≡ₚ map_to_list m;
}.

(** The order of stdpp's [map_to_list], and its reverse. *)
Definition canonical_iter : MapIter := {|
  map_range V m := map_to_list m;
  map_range_perm V m := reflexivity _;
|}.

Definition reversed_iter : MapIter := {|
  map_range V m := reverse (map_to_list m);
  map_range_perm V m := reverse_Permutation (map_to_list m);
|}.

(** ** sort.Slice *)

(** [sort.Slice] by a [uint64] field.  The sort is not stable; for distinct
    fields, as here, the result does not depend on the algorithm
    ([sort_by_unique]). *)
Definition le_by {A} (f : A → N) : relation A := λ x y, (f x ≤ f y)%N.

#[global] Instance le_by_dec {A} (f : A → N) x y : Decision (le_by f x y).
Proof. unfold le_by. apply _. Defined.

Definition sort_by {A} (f : A → N) : list A → list A := merge_sort (le_by f).

(** ** Lemmas *)

Lemma u64_small n : (n < 2 ^ 64)%N → u64 n = n.
Proof. apply N.mod_small. Qed.

Lemma u64_succ_small n : (n + 1 < 2 ^ 64)%N → u64_succ n = (n + 1)%N.
Proof. apply u64_small. Qed.

Lemma i64_small z : is_i64 z → i64 z = z.
Proof. unfold is_i64, i64. intros ?. rewrite Z.mod_small; lia. Qed.

Lemma i64_range z : is_i64 (i64 z).
Proof. unfold is_i64, i64. pose proof (Z.mod_pos_bound (z + 2 ^ 63) (2 ^ 64)). lia. Qed.

Lemma parse_digits_FormatUint n : parse_digits (FormatUint n) = Some n.
Proof.
  unfold parse_digits, FormatUint. rewrite NilZero.usu.
  - simpl. by rewrite Unsigned.of_to.
  - intros H. destruct n; [done|]. apply (f_equal N.of_uint) in H.
    rewrite Unsigned.of_to in H. done.
Qed.

Lemma ParseUint_FormatUint n : (n < 2 ^ 64)%N → ParseUint (FormatUint n) = Some n.
Proof.
  intros ?. unfold ParseUint. rewrite parse_digits_FormatUint. simpl.
  by rewrite option_guard_True.
Qed.

Lemma ParseUint_bound s n : ParseUint s = Some n → (n < 2 ^ 64)%N.
Proof. unfold ParseUint. intros. by simplify_option_eq. Qed.

(** A digit string never starts with a sign. *)
Lemma parse_digits_sign c s : c = "-"%char ∨ c = "+"%char → parse_digits (String c s) = None.
Proof.
  unfold parse_digits, NilZero.uint_of_string. simpl.
  intros [-> | ->]; by destruct (NilEmpty.uint_of_string s).
Qed.

Lemma Atoi_unsigned s n :
  parse_digits s = Some n → Atoi s = (guard (n < 2 ^ 63)%N;; Some (Z.of_N n)).
Proof.
  intros Hp. assert (∀ c s', s = String c s' → c ≠ "-"%char ∧ c ≠ "+"%char) as Hs.
  { intros c s' ->. split; intros ->; rewrite parse_digits_sign in Hp; naive_solver. }
  unfold Atoi. destruct s as [|c s']; [by rewrite Hp|].
  destruct (Hs c s' eq_refl) as [Hm Hq].
  destruct c as [[] [] [] [] [] [] [] []]; try by rewrite Hp.
  all: congruence.
Qed.

Lemma Atoi_Itoa z : is_i64 z → Atoi (Itoa z) = Some z.
Proof.
  unfold is_i64, Itoa. intros ?. case_decide.
  - simpl. rewrite parse_digits_FormatUint. simpl.
    rewrite option_guard_True by lia. f_equal. lia.
  - rewrite (Atoi_unsigned _ (Z.to_N z)) by apply parse_digits_FormatUint.
    rewrite option_guard_True by lia. f_equal. lia.
Qed.

Lemma Itoa_inj z1 z2 : is_i64 z1 → is_i64 z2 → Itoa z1 = Itoa z2 → z1 = z2.
Proof. intros ?? H%(f_equal Atoi). rewrite !Atoi_Itoa in H by done. congruence. Qed.

Lemma Itoa_nonempty z : is_i64 z → Itoa z ≠ "".
Proof. intros ? H%(f_equal Atoi). rewrite Atoi_Itoa in H by done. done. Qed.

Lemma string_app_assoc a b c : (a +:+ b) +:+ c = a +:+ b +:+ c.
Proof. induction a as [|x a IH]; [done|]. exact (f_equal (String x) IH). Qed.

Lemma HasPrefix_app p s : HasPrefix (p +:+ s) p = true.
Proof. unfold HasPrefix. induction p as [|a p IH]; simpl; [by destruct s|]. by destruct (ascii_dec a a). Qed.

Lemma CutPrefix_app p s : CutPrefix (p +:+ s) p = s.
Proof.
  induction p as [|a p IH]; simpl; [by destruct s|]. rewrite decide_True by done.
  pose proof (HasPrefix_app p s) as Hp. unfold HasPrefix in Hp. by rewrite Hp.
Qed.

Lemma HasPrefix_CutPrefix s p : HasPrefix s p = true → s = p +:+ CutPrefix s p.
Proof.
  unfold HasPrefix. revert s. induction p as [|a p IH]; intros s H; [by destruct s|].
  destruct s as [|b s]; [done|]. simpl in *.
  destruct (ascii_dec a b) as [->|]; [|done].
  rewrite decide_True, H by done.
  transitivity (String b (p +:+ CutPrefix s p)); [by rewrite <-(IH s H)|done].
Qed.

Lemma Cut_Some s sep a b : Cut s sep = Some (a, b) → s = a +:+ String sep b.
Proof.
  revert a b. induction s as [|c s IH]; intros a b H; simpl in *; [done|].
  case_decide; simplify_eq; [done|].
  destruct (Cut s sep) as [[a' b']|]; [|done]. simplify_eq/=. by rewrite (IH a' b eq_refl).
Qed.

Lemma Contains_Cut s sep : Contains s sep = true ↔ is_Some (Cut s sep).
Proof.
  induction s as [|c s IH]; simpl; [by split; [|intros [? [=]]]|].
  case_bool_decide; case_decide; simplify_eq; simpl; [by eauto|].
  rewrite IH. destruct (Cut s sep) as [[a b]|]; simpl; split; intros [x Hx]; simplify_eq; eauto.
Qed.

Lemma Cut_no_sep s sep : Cut s sep = None → ∀ t, Cut (s +:+ String sep t) sep = Some (s, t).
Proof.
  induction s as [|c s IH]; intros H t; simpl in *; [by rewrite decide_True|].
  case_decide; [done|]. destruct (Cut s sep) as [[]|]; [done|]. by rewrite IH.
Qed.

(** The part before the first separator does not contain it. *)
Lemma Cut_before s sep a b : Cut s sep = Some (a, b) → Contains a sep = false.
Proof.
  revert a b. induction s as [|c s IH]; intros a b H; simpl in *; [done|].
  case_decide as Hc; simplify_eq; [done|].
  destruct (Cut s sep) as [[a' b']|]; [|done]. simplify_eq/=.
  rewrite bool_decide_false by done. by apply (IH a' b).
Qed.

Lemma Atoi_range s z : Atoi s = Some z → is_i64 z.
Proof.
  assert (∀ s n, (guard (n < 2 ^ 63)%N;; Some (Z.of_N n)) = Some s → is_i64 s) as Hpos.
  { intros s' n. case_guard; simpl; [|done]. intros [= <-]. unfold is_i64. lia. }
  assert (∀ t, (n ← parse_digits t; guard (n < 2 ^ 63)%N;; Some (Z.of_N n)) = Some z → is_i64 z) as Hdig.
  { intros t. destruct (parse_digits t) as [n|]; simpl; [apply Hpos|done]. }
  unfold Atoi. destruct s as [|c s]; [apply Hdig|].
  destruct c as [[] [] [] [] [] [] [] []]; try apply Hdig.
  destruct (parse_digits s) as [n|]; simpl; [|done]. case_guard; simpl; [|done].
  intros [= <-]. unfold is_i64. lia.
Qed.

Definition digits : list Ascii.ascii := ["0"; "1"; "2"; "3"; "4"; "5"; "6"; "7"; "8"; "9"]%char.

(** A string of digits has no other character. *)
Lemma uint_of_string_digits s d c : c ∉ digits → NilEmpty.uint_of_string s = Some d → Contains s c = false.
Proof.
  intros Hc. revert d. induction s as [|x s IH]; intros d H; simpl in *; [done|].
  destruct (NilEmpty.uint_of_string s) as [d'|]; [|by destruct x as [[] [] [] [] [] [] [] []]].
  rewrite (IH d' eq_refl), orb_false_r. apply bool_decide_eq_false. intros ->. apply Hc.
  apply (bool_decide_eq_true_1 _). by destruct c as [[] [] [] [] [] [] [] []].
Qed.

Lemma parse_digits_only s n c : c ∉ digits → parse_digits s = Some n → Contains s c = false.
Proof.
  unfold parse_digits. intros Hc. destruct s as [|x s]; [done|]. unfold NilZero.uint_of_string.
  destruct (NilEmpty.uint_of_string (String x s)) as [d|] eqn:Hd; [|done]. intros _.
  by eapply uint_of_string_digits.
Qed.

(** A number has no character but digits and a sign. *)
Lemma Atoi_only s z c : c ∉ digits → c ≠ "-"%char → c ≠ "+"%char → Atoi s = Some z → Contains s c = false.
Proof.
  intros Hc Hm Hp. assert (∀ t f, (parse_digits t ≫= f) = Some z → Contains t c = false) as Hdig.
  { intros t f. destruct (parse_digits t) as [n|] eqn:Ht; [|done]. intros _. by eapply parse_digits_only. }
  unfold Atoi. destruct s as [|x s]; [by intros|].
  destruct x as [[] [] [] [] [] [] [] []]; try exact (Hdig _ _).
  all: intros Hs%Hdig; cbn [Contains]; rewrite Hs, bool_decide_false; [done|by intros <-].
Qed.

(** A number is printed without a dot. *)
Lemma uint_of_string_no_dot s d : NilEmpty.uint_of_string s = Some d → Contains s "." = false.
Proof. apply uint_of_string_digits. by apply (bool_decide_eq_false_1 _). Qed.

Lemma FormatUint_no_dot n : Contains (FormatUint n) "." = false.
Proof.
  unfold FormatUint. destruct (N.to_uint n) as [|u|u|u|u|u|u|u|u|u|u] eqn:Hn; [done|..].
  all: unfold NilZero.string_of_uint; eapply uint_of_string_no_dot, NilEmpty.usu.
Qed.

Lemma Itoa_no_dot z : Contains (Itoa z) "." = false.
Proof. unfold Itoa. case_decide; simpl; apply FormatUint_no_dot. Qed.

(** *** Map iteration *)

Section map_iter.
Context `{MapIter}.

Lemma elem_of_map_range {V} (m : gmap string V) k v : (k, v) ∈ map_range m ↔ m !! k = Some v.
Proof. rewrite map_range_perm. apply elem_of_map_to_list. Qed.

Lemma NoDup_map_range_fst {V} (m : gmap string V) : NoDup (map_range m).*1.
Proof. rewrite map_range_perm. apply NoDup_fst_map_to_list. Qed.

Lemma elem_of_map_range_snd {V} (m : gmap string V) v :
  v ∈ (map_range m).*2 ↔ ∃ k, m !! k = Some v.
Proof.
  rewrite list_elem_of_fmap. split.
  - intros ([k x] & -> & ?%elem_of_map_range). by exists k.
  - intros [k Hk]. exists (k, v). split; [done|]. by apply elem_of_map_range.
Qed.

Lemma elem_of_map_range_fst {V} (m : gmap string V) k :
  k ∈ (map_range m).*1 ↔ is_Some (m !! k).
Proof.
  rewrite list_elem_of_fmap. split.
  - intros ([? x] & -> & ?%elem_of_map_range). by exists x.
  - intros [x Hk]. exists (k, x). split; [done|]. by apply elem_of_map_range.
Qed.

Lemma length_map_range {V} (m : gmap string V) : length (map_range m) = size m.
Proof. by rewrite map_range_perm, length_map_to_list. Qed.

End map_iter.

(** *** Sorting *)

Section sort_by.
Context {A : Type} (f : A → N).

#[local] Instance sort_by_total : Total (le_by f).
Proof. intros x y. unfold le_by. lia. Qed.

#[local] Instance sort_by_trans : Transitive (le_by f).
Proof. intros x y z. unfold le_by. lia. Qed.

Lemma sort_by_perm l : sort_by f l ≡ₚ l.
Proof. apply merge_sort_Permutation. Qed.

Lemma elem_of_sort_by l x : x ∈ sort_by f l ↔ x ∈ l.
Proof. by rewrite sort_by_perm. Qed.

(** When the field is injective on a duplicate-free list, sorting it is
    strictly increasing. *)
Lemma sort_by_sorted l :
  NoDup l → (∀ x y, x ∈ l → y ∈ l → f x = f y → x = y) → sorted_by f (sort_by f l).
Proof.
  intros Hnd Hinj.
  assert (StronglySorted (le_by f) (sort_by f l)) as Hs
    by apply (StronglySorted_merge_sort _).
  rewrite <-(sort_by_perm l) in Hnd.
  assert (∀ x y, x ∈ sort_by f l → y ∈ sort_by f l → f x = f y → x = y) as Hinj'.
  { intros x y. rewrite !elem_of_sort_by. apply Hinj. }
  clear Hinj. revert Hs Hnd Hinj'. generalize (sort_by f l) as k. clear l.
  induction k as [|x k IH]; intros Hs Hnd Hinj; [constructor|].
  apply StronglySorted_inv in Hs as [Hs Hx]. apply NoDup_cons in Hnd as [Hn Hnd].
  constructor; [apply IH; set_solver|]. rewrite Forall_forall in Hx |- *.
  intros y Hy. specialize (Hx y Hy). unfold le_by in Hx.
  destruct (decide (f x = f y)) as [E|]; [|lia].
  apply Hinj in E; [subst; done|set_solver..].
Qed.

End sort_by.
