(* ===== verification/FloatLib.v ===== *)
(** * float64: conversions and the signs of results

    The conversions between integers and [float64] the program uses, on the
    executable specification of IEEE binary64 numbers, and what the proofs need
    of rounding: it keeps the sign and does not lose a positive integer. *)

From S2P Require Import Prelude GoLib.

Local Open Scope Z_scope.

(** The integer part of a finite [float64]. *)
Definition float_trunc (f : float64) : option Z :=
  match f with
  | S754_zero _ => Some 0
  | S754_finite s m e =>
      let a := if decide (0 ≤ e) then Zpos m * 2 ^ e else Zpos m / 2 ^ (- e) in
      Some (if s then - a else a)
  | _ => None
  end.

(** [int(f)]: when the integer part is not an [int] the result depends on the
    implementation, [oob]. *)
Definition int_of_float (oob : float64 → Z) (f : float64) : Z :=
  match float_trunc f with
  | Some z => if decide (is_i64 z) then z else oob f
  | None => oob f
  end.

(** [math.Ceil] *)
Definition Ceil (f : float64) : float64 :=
  match f with
  | S754_finite s m e =>
      if decide (0 ≤ e) then f
      else
        let d := 2 ^ (- e) in
        let q := Zpos m / d in
        let z := if s then - q else if decide (Zpos m `mod` d = 0) then q else q + 1 in
        if decide (z = 0) then S754_zero s else float64_of_int z
  | _ => f
  end.

Definition sign_of (s : bool) (f : float64) : Prop :=
  match f with
  | S754_zero s' | S754_infinity s' | S754_finite s' _ _ => s' = s
  | S754_nan => False
  end.

Definition positive (f : float64) : Prop :=
  match f with S754_finite false _ _ | S754_infinity false => True | _ => False end.

Definition nonpositive (f : float64) : Prop :=
  match f with S754_zero _ | S754_finite true _ _ | S754_infinity true => True | _ => False end.

Definition infinite (f : float64) : Prop := match f with S754_infinity _ => True | _ => False end.

Lemma flt_nonpositive x y : nonpositive x → positive y → flt x y = true.
Proof. by destruct x as [|[]| |[]], y as [|[]| |[]]. Qed.

Lemma sign_nonpositive f : sign_of true f → nonpositive f.
Proof. by destruct f as [|[]| |[]]. Qed.

(** ** Shifting *)

Lemma digits_bound m : 0 < m → 2 ^ (Zdigits2 m - 1) ≤ m < 2 ^ Zdigits2 m ∧ 1 ≤ Zdigits2 m.
Proof.
  intros Hm. destruct m as [|p|]; try lia. clear Hm. cbn [Zdigits2].
  induction p as [p IH|p IH|]; cbn [digits2_pos]; [..|simpl; lia].
  all: rewrite Pos2Z.inj_succ; replace (Z.succ (Zpos (digits2_pos p)) - 1) with (Z.succ (Zpos (digits2_pos p) - 1)) by lia.
  all: rewrite !Z.pow_succ_r by lia; lia.
Qed.

Lemma shr_1_m r : 0 ≤ shr_m r → shr_m (shr_1 r) = shr_m r / 2.
Proof.
  destruct r as [m r s]; simpl. intros Hm. destruct m as [|[p|p|]|]; simpl; try lia; try done.
  - rewrite (Z.div_unique_pos (Zpos p~1) 2 (Zpos p) 1); lia.
  - rewrite (Z.div_unique_pos (Zpos p~0) 2 (Zpos p) 0); lia.
Qed.

Lemma shr_iter_m p r : 0 ≤ shr_m r → shr_m (iter_pos shr_1 p r) = shr_m r / 2 ^ Zpos p.
Proof.
  revert r. induction p as [p IH|p IH|]; intros r Hr; cbn [iter_pos].
  - pose proof (shr_1_m r Hr) as H1. assert (0 ≤ shr_m (shr_1 r)) by (rewrite H1; apply Z.div_pos; lia).
    rewrite IH by (rewrite IH by done; apply Z.div_pos; lia). rewrite IH, H1, !Z.div_div by lia.
    f_equal. replace (Zpos p~1) with (1 + Zpos p + Zpos p) by lia. rewrite !Z.pow_add_r by lia. lia.
  - rewrite IH by (rewrite IH by done; apply Z.div_pos; lia). rewrite IH, Z.div_div by lia.
    f_equal. replace (Zpos p~0) with (Zpos p + Zpos p) by lia. rewrite !Z.pow_add_r by lia. lia.
  - by rewrite shr_1_m.
Qed.

(** The number of bits rounding drops. *)
Definition dropped (m e : Z) : Z := Z.max 0 (fexp 53 1024 (Zdigits2 m + e) - e).

Lemma dropped_nonneg m e : 0 ≤ dropped m e.
Proof. unfold dropped. lia. Qed.

(** What is left of a mantissa is not negative. *)
Lemma dropped_div m m' e : 0 ≤ m → 0 ≤ m / 2 ^ dropped m' e.
Proof. intros Hm. apply Z.div_pos; [done|]. apply Z.pow_pos_nonneg; [lia|apply dropped_nonneg]. Qed.

Lemma shr_fexp_m m e l :
  0 ≤ m →
  shr_m (shr_fexp 53 1024 m e l).1 = m / 2 ^ dropped m e ∧ (shr_fexp 53 1024 m e l).2 = e + dropped m e.
Proof.
  intros Hm. unfold shr_fexp, dropped.
  assert (shr_m (shr_record_of_loc m l) = m) as Hr by (by destruct l as [|[]]).
  destruct (fexp 53 1024 (Zdigits2 m + e) - e) as [|p|p] eqn:Hn; unfold shr.
  - simpl. rewrite Hr, Z.div_1_r. split; [done|lia].
  - rewrite Z.max_r by lia. cbn [fst snd]. rewrite shr_iter_m by (rewrite Hr; done). by rewrite Hr.
  - simpl. rewrite Hr, Z.div_1_r. split; [done|lia].
Qed.

Lemma round_even_bound m l : m ≤ round_nearest_even m l ≤ m + 1.
Proof. destruct l as [|[]]; simpl; [lia| |lia..]. destruct (Z.even m); lia. Qed.

(** The mantissa and exponent of a rounded number, both passes together. *)
Lemma binary_round_aux_cases s m e l :
  0 ≤ m →
  ∃ m1, m / 2 ^ dropped m e ≤ m1 ≤ m / 2 ^ dropped m e + 1 ∧
    let e1 := e + dropped m e in
    let m2 := m1 / 2 ^ dropped m1 e1 in
    let e2 := e1 + dropped m1 e1 in
    binary_round_aux 53 1024 s m e l =
      match m2 with
      | Z0 => S754_zero s
      | Zpos p => if Z.leb e2 971 then S754_finite s p e2 else S754_infinity s
      | Zneg _ => S754_nan
      end.
Proof.
  intros Hm. unfold binary_round_aux.
  destruct (shr_fexp_m m e l Hm) as [H1 H2]. destruct (shr_fexp 53 1024 m e l) as [r1 e1]. simpl in H1, H2.
  pose proof (round_even_bound (shr_m r1) (loc_of_shr_record r1)) as Hb.
  set (m1 := round_nearest_even (shr_m r1) (loc_of_shr_record r1)) in *.
  exists m1. rewrite <-H1. split; [done|].
  assert (0 ≤ shr_m r1) as Hp by (rewrite H1; by apply dropped_div).
  destruct (shr_fexp_m m1 e1 loc_Exact) as [H3 H4]; [lia|].
  destruct (shr_fexp 53 1024 m1 e1 loc_Exact) as [r2 e2]. simpl in H3, H4. subst e1. cbv zeta. rewrite <-H3, <-H4.
  change (1024 - 53) with 971. by destruct (shr_m r2).
Qed.

(** ** Rounding keeps the sign *)

Lemma binary_round_aux_sign s m e l : 0 ≤ m → sign_of s (binary_round_aux 53 1024 s m e l).
Proof.
  intros Hm. destruct (binary_round_aux_cases s m e l Hm) as (m1&Hm1&->). cbv zeta.
  pose proof (dropped_div m m e Hm).
  assert (0 ≤ m1 / 2 ^ dropped m1 (e + dropped m e)) as H2 by (apply dropped_div; lia).
  destruct (m1 / _) as [|p|p]; [done|by destruct (Z.leb _ _)|lia].
Qed.

Lemma binary_round_sign s m e : sign_of s (binary_round 53 1024 s m e).
Proof. unfold binary_round. destruct (shl_align _ _ _). by apply binary_round_aux_sign. Qed.

Lemma div_core_mantissa m1 e1 m2 e2 : 0 ≤ (SFdiv_core_binary 53 1024 (Zpos m1) e1 (Zpos m2) e2).1.1.
Proof.
  unfold SFdiv_core_binary. set (s := e1 - e2 - _).
  set (m' := match s with Z0 => Zpos m1 | Zpos _ => Z.shiftl (Zpos m1) s | Zneg _ => 0 end).
  assert (0 ≤ m') as Hm by (unfold m'; destruct s; [done|by apply Z.shiftl_nonneg|done]).
  pose proof (Z_div_mod m' (Zpos m2) ltac:(lia)) as Hq.
  destruct (Z.div_eucl m' (Zpos m2)) as [q r]. simpl. destruct Hq. nia.
Qed.

Lemma fdiv_nonpositive x y :
  nonpositive x → ¬ infinite x → positive y → nonpositive (fdiv x y).
Proof.
  unfold fdiv. destruct x as [|[]| |[] m1 e1], y as [|[]| |[] m2 e2]; try done.
  intros _ _ _. unfold SFdiv. pose proof (div_core_mantissa m1 e1 m2 e2) as Hm.
  destruct (SFdiv_core_binary _ _ _ _ _ _) as [[q e'] l]. simpl in Hm.
  apply sign_nonpositive. by apply (binary_round_aux_sign true).
Qed.

(** ** Converting an integer *)

Lemma digits_le m k : 0 < m → m < 2 ^ k → Zdigits2 m ≤ k.
Proof.
  intros Hm Hk. destruct (digits_bound m Hm) as [[Hlo _] Hd].
  assert (0 ≤ k) by (destruct (decide (0 ≤ k)); [done|rewrite Z.pow_neg_r in Hk by lia; lia]).
  destruct (decide (Zdigits2 m ≤ k)); [done|].
  pose proof (Z.pow_le_mono_r 2 k (Zdigits2 m - 1)). lia.
Qed.

Lemma digits_ge m k : 0 ≤ k → 2 ^ k ≤ m → k < Zdigits2 m.
Proof.
  intros Hk Hm. assert (0 < m) by (pose proof (Z.pow_pos_nonneg 2 k); lia).
  destruct (digits_bound m) as [[_ Hhi] Hd]; [done|]. destruct (decide (k < Zdigits2 m)); [done|].
  pose proof (Z.pow_le_mono_r 2 (Zdigits2 m) k). lia.
Qed.

Lemma digits_shift m k : 0 < m → 0 ≤ k → Zdigits2 (m * 2 ^ k) = Zdigits2 m + k.
Proof.
  intros Hm Hk. destruct (digits_bound m Hm) as [[Hlo Hhi] Hd]. pose proof (Z.pow_pos_nonneg 2 k).
  apply Z.le_antisymm.
  - apply digits_le; [lia|]. rewrite Z.pow_add_r by lia. nia.
  - pose proof (digits_ge (m * 2 ^ k) (Zdigits2 m - 1 + k)) as Hge.
    rewrite Z.pow_add_r in Hge by lia. specialize (Hge ltac:(lia) ltac:(nia)). lia.
Qed.

Lemma kept_positive m e :
  0 < m → -1073 ≤ Zdigits2 m + e →
  1 ≤ m / 2 ^ dropped m e ∧ ∀ m1, m / 2 ^ dropped m e ≤ m1 → Zdigits2 m + e ≤ Zdigits2 m1 + (e + dropped m e).
Proof.
  intros Hm He. destruct (digits_bound m Hm) as [[Hlo _] Hd]. pose proof (dropped_nonneg m e) as Hn0.
  assert (dropped m e ≤ Zdigits2 m - 1) as Hn by (unfold dropped, fexp, emin; lia).
  assert (2 ^ (Zdigits2 m - 1 - dropped m e) ≤ m / 2 ^ dropped m e) as Hk.
  { apply Z.div_le_lower_bound; [apply Z.pow_pos_nonneg; lia|]. rewrite <-Z.pow_add_r by lia.
    replace (dropped m e + (Zdigits2 m - 1 - dropped m e)) with (Zdigits2 m - 1) by lia. done. }
  pose proof (Z.pow_pos_nonneg 2 (Zdigits2 m - 1 - dropped m e)). split; [lia|].
  intros m1 Hm1. pose proof (digits_ge m1 (Zdigits2 m - 1 - dropped m e)). lia.
Qed.

Lemma binary_round_aux_positive m e l :
  0 < m → -1073 ≤ Zdigits2 m + e → positive (binary_round_aux 53 1024 false m e l).
Proof.
  intros Hm He. destruct (binary_round_aux_cases false m e l) as (m1&Hm1&->); [lia|]. cbv zeta.
  destruct (kept_positive m e Hm He) as [H1 Hd].
  destruct (kept_positive m1 (e + dropped m e)) as [H2 _]; [lia|specialize (Hd m1); lia|].
  destruct (m1 / _) as [|p|p]; [lia|by destruct (Z.leb _ _)|lia].
Qed.

Lemma binary_round_aux_finite s m e l :
  0 < m → Zdigits2 m + e ≤ 900 → e ≤ 900 → ¬ infinite (binary_round_aux 53 1024 s m e l).
Proof.
  intros Hm He He0. destruct (binary_round_aux_cases s m e l) as (m1&Hm1&->); [lia|]. cbv zeta.
  destruct (digits_bound m Hm) as [[_ Hhi] Hd]. pose proof (dropped_nonneg m e) as Hn0.
  pose proof (dropped_div m m e ltac:(lia)) as Hnn.
  assert (Zdigits2 m1 ≤ Z.max 1 (Zdigits2 m - dropped m e + 1)) as Hd1.
  { destruct (decide (m1 ≤ 1)) as [Hle|Hgt].
    - destruct (decide (m1 = 0)) as [->|]; [simpl; lia|]. replace m1 with 1 by lia. simpl. lia.
    - transitivity (Zdigits2 m - dropped m e + 1); [|lia].
      destruct (decide (dropped m e ≤ Zdigits2 m)) as [Hle|].
      + apply digits_le; [lia|]. rewrite Z.pow_add_r by lia.
        assert (m / 2 ^ dropped m e < 2 ^ (Zdigits2 m - dropped m e)); [|lia].
        apply Z.div_lt_upper_bound; [apply Z.pow_pos_nonneg; lia|]. rewrite <-Z.pow_add_r by lia.
        by replace (dropped m e + (Zdigits2 m - dropped m e)) with (Zdigits2 m) by lia.
      + pose proof (Z.pow_lt_mono_r 2 (Zdigits2 m) (dropped m e)).
        rewrite Z.div_small in Hm1 by lia. lia. }
  destruct (m1 / _) as [|p|p]; [by intros []| |by intros []].
  destruct (Z.leb_spec (e + dropped m e + dropped m1 (e + dropped m e)) 971) as [|Hbig]; [by intros []|].
  exfalso. revert Hbig Hd1. unfold dropped, fexp, emin. lia.
Qed.

Lemma shl_align_spec m e e' :
  let r := shl_align m e e' in
  ∃ k, 0 ≤ k ∧ Zpos r.1 = Zpos m * 2 ^ k ∧ r.2 = e - k.
Proof.
  unfold shl_align. simpl. destruct (e' - e) as [|p|p] eqn:Hd; simpl; [exists 0; lia..|].
  exists (Zpos p). split_and!; [lia| |lia]. clear Hd. induction p as [|p IH] using Pos.peano_ind; [simpl; lia|].
  rewrite Pos.iter_succ, Pos2Z.inj_succ, Z.pow_succ_r, Pos2Z.inj_xO, IH by lia. lia.
Qed.

Lemma float64_of_int_positive z : 0 < z → positive (float64_of_int z).
Proof.
  intros Hz. destruct z as [|p|]; try lia. unfold float64_of_int, binary_normalize, binary_round.
  destruct (shl_align_spec p 0 (fexp 53 1024 (Zpos (digits2_pos p) + 0))) as (k&Hk&Hm&He). cbv zeta in *.
  destruct (shl_align p 0 _) as [mz ez]. simpl in Hm, He. rewrite Hm, He.
  destruct (digits_bound (Zpos p)) as [_ Hd]; [lia|]. pose proof (digits_shift (Zpos p) k) as Hs.
  apply binary_round_aux_positive; [|rewrite Hs by lia; lia]. pose proof (Z.pow_pos_nonneg 2 k). nia.
Qed.

Lemma float64_of_int_nonpositive z :
  - 2 ^ 64 < z ≤ 0 → nonpositive (float64_of_int z) ∧ ¬ infinite (float64_of_int z).
Proof.
  intros Hz. destruct z as [|p|p]; [simpl; by split; [|intros []]|lia|].
  unfold float64_of_int, binary_normalize, binary_round.
  destruct (shl_align_spec p 0 (fexp 53 1024 (Zpos (digits2_pos p) + 0))) as (k&Hk&Hm&He). cbv zeta in *.
  destruct (shl_align p 0 _) as [mz ez]. simpl in Hm, He. rewrite Hm, He.
  pose proof (Z.pow_pos_nonneg 2 k). assert (0 < Zpos p * 2 ^ k) by nia.
  split; [apply sign_nonpositive, binary_round_aux_sign; lia|].
  apply binary_round_aux_finite; [done|rewrite digits_shift by lia; pose proof (digits_le (Zpos p) 64); lia|lia].
Qed.

(** ** Rounding is exact up to one unit of the last place *)

Lemma fexp_spec x : fexp 53 1024 x = Z.max (x - 53) (-1074).
Proof. unfold fexp, emin. lia. Qed.

Lemma dropped_spec m e : e + dropped m e = Z.max e (Z.max (Zdigits2 m + e - 53) (-1074)).
Proof. unfold dropped. rewrite fexp_spec. lia. Qed.

(** The second pass of rounding only drops the zeros of a carry. *)
Lemma second_pass_exact m e m1 :
  0 < m → m / 2 ^ dropped m e ≤ m1 ≤ m / 2 ^ dropped m e + 1 →
  let e1 := e + dropped m e in dropped m1 e1 ≤ 1 ∧ m1 / 2 ^ dropped m1 e1 * 2 ^ dropped m1 e1 = m1.
Proof.
  intros Hm Hm1 e1. pose proof (dropped_spec m e) as He1. fold e1 in He1.
  pose proof (dropped_nonneg m e) as Hd0. pose proof (dropped_div m m e ltac:(lia)) as Hq0.
  destruct (digits_bound m Hm) as [[_ Hhi] Hdig].
  assert (dropped m1 e1 = Z.max 0 (Zdigits2 m1 - 53)) as Hd1.
  { pose proof (dropped_spec m1 e1). unfold e1 in *. unfold dropped at 1. rewrite fexp_spec.
    assert (0 ≤ Zdigits2 m1) by (destruct m1; simpl; lia). lia. }
  assert (Zdigits2 m - dropped m e ≤ 53) as Hq by lia.
  assert (m / 2 ^ dropped m e < 2 ^ 53) as Hlt.
  { apply Z.div_lt_upper_bound; [apply Z.pow_pos_nonneg; lia|]. rewrite <-Z.pow_add_r by lia.
    eapply Z.lt_le_trans; [exact Hhi|]. apply Z.pow_le_mono_r; lia. }
  destruct (decide (m1 < 2 ^ 53)) as [Hsmall|Hbig].
  - assert (dropped m1 e1 = 0) as ->; [|rewrite Z.pow_0_r, Z.div_1_r; lia].
    rewrite Hd1. destruct (decide (m1 = 0)) as [->|]; [done|].
    pose proof (digits_le m1 53 ltac:(lia) Hsmall). lia.
  - assert (m1 = 2 ^ 53) as -> by lia. rewrite Hd1. by vm_compute.
Qed.

(** Rounding a positive number gives a neighbour on the grid of its binade. *)
Lemma binary_round_aux_grid m e l :
  0 < m → e + dropped m e ≤ 900 →
  ∃ m1, m / 2 ^ dropped m e ≤ m1 ≤ m / 2 ^ dropped m e + 1 ∧
    match binary_round_aux 53 1024 false m e l with
    | S754_zero false => m1 = 0
    | S754_finite false p e2 => e + dropped m e ≤ e2 ≤ e + dropped m e + 1 ∧
        Zpos p * 2 ^ (e2 - (e + dropped m e)) = m1
    | _ => False
    end.
Proof.
  intros Hm He. destruct (binary_round_aux_cases false m e l) as (m1&Hm1&->); [lia|]. cbv zeta.
  exists m1. split; [done|]. pose proof (dropped_div m m e ltac:(lia)) as Hq0.
  destruct (second_pass_exact m e m1 Hm Hm1) as [Hd1 Hexact]. cbv zeta in *.
  set (e1 := e + dropped m e) in *. pose proof (dropped_nonneg m1 e1).
  pose proof (dropped_div m1 m1 e1 ltac:(lia)) as Hq1.
  destruct (m1 / 2 ^ dropped m1 e1) as [|p|p] eqn:Hq; [lia| |lia].
  destruct (Z.leb_spec (e1 + dropped m1 e1) 971); [|exfalso; lia]. split; [lia|].
  by replace (e1 + dropped m1 e1 - e1) with (dropped m1 e1) by lia.
Qed.

(** A number that fits the format is not changed. *)
Lemma binary_round_aux_fits p e :
  fexp 53 1024 (Zdigits2 (Zpos p) + e) ≤ e → e ≤ 971 →
  binary_round_aux 53 1024 false (Zpos p) e loc_Exact = S754_finite false p e.
Proof.
  intros Hf He. unfold binary_round_aux.
  assert (∀ q, q = Zpos p → shr_fexp 53 1024 q e loc_Exact = (Build_shr_record q false false, e)) as Hs.
  { intros q ->. unfold shr_fexp, shr. destruct (fexp 53 1024 (Zdigits2 (Zpos p) + e) - e) as [|k|k] eqn:Hk; [done|lia|done]. }
  rewrite (Hs _ eq_refl). simpl shr_m. cbn [loc_of_shr_record round_nearest_even].
  rewrite (Hs _ eq_refl). cbn [shr_m]. change (1024 - 53) with 971. by destruct (Z.leb_spec e 971); [|exfalso; lia].
Qed.

(** An integer below 2^53 is converted exactly. *)
Lemma float64_of_int_exact p :
  Zpos p < 2 ^ 53 → ∃ q k, 0 ≤ k ≤ 52 ∧ float64_of_int (Zpos p) = S754_finite false q (- k) ∧
    Zpos q = Zpos p * 2 ^ k ∧ Zdigits2 (Zpos q) = 53.
Proof.
  intros Hp. unfold float64_of_int, binary_normalize, binary_round.
  destruct (digits_bound (Zpos p) ltac:(lia)) as [_ Hd1]. pose proof (digits_le (Zpos p) 53 ltac:(lia) Hp) as Hd.
  rewrite Z.add_0_r, fexp_spec. change (Zpos (digits2_pos p)) with (Zdigits2 (Zpos p)). set (k := 53 - Zdigits2 (Zpos p)).
  assert (shl_align p 0 (Z.max (Zdigits2 (Zpos p) - 53) (-1074)) = (shift_pos (Z.to_pos k) p, - k) ∨ k = 0 ∧
    shl_align p 0 (Z.max (Zdigits2 (Zpos p) - 53) (-1074)) = (p, 0)) as Hal.
  { unfold shl_align. rewrite Z.max_l, Z.sub_0_r by lia. replace (Zdigits2 (Zpos p) - 53) with (- k) by lia.
    destruct k as [|k0|k0] eqn:Hk; simpl; [by right|by left|lia]. }
  destruct (shl_align_spec p 0 (Z.max (Zdigits2 (Zpos p) - 53) (-1074))) as (k'&Hk'&Hm&He). cbv zeta in *.
  assert (k' = k) as ->.
  { destruct Hal as [Hal|[Hk Hal]]; rewrite Hal in He; simpl in He; lia. }
  destruct (shl_align p 0 _) as [q e]. simpl in Hm, He. assert (e = - k) as -> by lia.
  assert (Zdigits2 (Zpos q) = 53) as Hq by (rewrite Hm, digits_shift by lia; lia).
  exists q, k. split_and!; [lia|lia| |done|done].
  apply binary_round_aux_fits; [rewrite Hq, fexp_spec; lia|lia].
Qed.

(** The integer part of a number on the grid of exponent [g]. *)
Lemma grid_trunc p e g : g ≤ 0 → g ≤ e →
  float_trunc (S754_finite false p e) = Some (Zpos p * 2 ^ (e - g) / 2 ^ (- g)).
Proof.
  intros Hg He. unfold float_trunc. f_equal. case_decide.
  - replace (e - g) with (e + - g) by lia. rewrite Z.pow_add_r, Z.mul_assoc, Z.div_mul; lia.
  - replace (- g) with (- e + (e - g)) by lia. rewrite Z.pow_add_r by lia.
    rewrite Z.div_mul_cancel_r; [done|apply Z.pow_nonzero; lia..].
Qed.
