(* ===== verification/NetLib.v ===== *)
(** * The parts of Go's net and net/netip packages the program uses *)

From S2P Require Import Prelude GoLib.

Local Open Scope string_scope.

(** Split at the last occurrence of a byte. *)
Fixpoint CutLast (s : string) (sep : Ascii.ascii) : option (string * string) :=
  match s with
  | EmptyString => None
  | String c s' =>
      match CutLast s' sep with
      | Some (a, b) => Some (String c a, b)
      | None => if decide (c = sep) then Some (EmptyString, s') else None
      end
  end.

(** [net.SplitHostPort]: [None] is an error. *)
Definition SplitHostPort (hostport : string) : option (string * string) :=
  '(before, port) ← CutLast hostport ":";
  match hostport with
  | String "["%char inner =>
      (* the first ']' must come right before the last ':' *)
      '(host, after) ← Cut inner "]";
      guard (after = ":" +:+ port);;
      guard (Contains inner "[" = false);;
      guard (Contains after "]" = false);;
      Some (host, port)
  | _ =>
      guard (Contains before ":" = false);;
      guard (Contains hostport "[" = false);;
      guard (Contains hostport "]" = false);;
      Some (before, port)
  end.

Fixpoint Split (s : string) (sep : Ascii.ascii) : list string :=
  match s with
  | EmptyString => [EmptyString]
  | String c s' =>
      if decide (c = sep) then EmptyString :: Split s' sep
      else match Split s' sep with
           | [] => [String c EmptyString]
           | x :: l => String c x :: l
           end
  end.

(** *** Addresses: [netip.ParseAddr] *)

Definition is_digit (c : Ascii.ascii) : bool :=
  let n := Ascii.nat_of_ascii c in (48 <=? n)%nat && (n <=? 57)%nat.

Definition is_hex (c : Ascii.ascii) : bool :=
  let n := Ascii.nat_of_ascii c in
  is_digit c || ((97 <=? n)%nat && (n <=? 102)%nat) || ((65 <=? n)%nat && (n <=? 70)%nat).

Fixpoint all_chars (f : Ascii.ascii → bool) (s : string) : bool :=
  match s with EmptyString => true | String c s' => f c && all_chars f s' end.

(** An octet: digits, no leading zero, at most 255. *)
Definition ipv4_field (s : string) : bool :=
  all_chars is_digit s &&
  match s with
  | EmptyString => false
  | String c EmptyString => true
  | String c _ => bool_decide (c ≠ "0"%char) &&
                  match parse_digits s with Some n => bool_decide (n ≤ 255)%N | None => false end
  end.

Definition parseIPv4 (s : string) : bool :=
  match Split s "." with
  | [a; b; c; d] => ipv4_field a && ipv4_field b && ipv4_field c && ipv4_field d
  | _ => false
  end.

(** The hex digits at the start of [s], and the rest. *)
Fixpoint span_hex (s : string) : nat * string :=
  match s with
  | String c s' => if is_hex c then let '(n, r) := span_hex s' in (S n, r) else (0, s)
  | EmptyString => (0, s)
  end.

(** The loop of [parseIPv6]: [i] bytes are written, [ellipsis] tells whether a
    [::] was seen; every iteration writes two bytes, so 8 rounds are enough. *)
Fixpoint parseIPv6_loop (fuel : nat) (i : nat) (ellipsis : bool) (s : string) : bool :=
  let finish i ellipsis (s : string) :=
    match s with
    | EmptyString => if decide (i < 16) then ellipsis else negb ellipsis
    | _ => false
    end in
  match fuel with
  | 0 => finish i ellipsis s
  | S fuel' =>
      if decide (¬ i < 16) then finish i ellipsis s
      else
        let '(off, rest) := span_hex s in
        if decide (4 < off ∨ off = 0) then false
        else
          match rest with
          | EmptyString => finish (i + 2) ellipsis ""
          | String "."%char _ =>
              if decide (ellipsis = false ∧ i ≠ 12) then false
              else if decide (16 < i + 4) then false
              else parseIPv4 s && finish (i + 4) ellipsis ""
          | String ":"%char EmptyString => false
          | String ":"%char (String ":"%char rest') =>
              if ellipsis then false
              else match rest' with
                   | EmptyString => finish (i + 2) true ""
                   | _ => parseIPv6_loop fuel' (i + 2) true rest'
                   end
          | String ":"%char rest' => parseIPv6_loop fuel' (i + 2) ellipsis rest'
          | _ => false
          end
  end.

Definition parseIPv6 (s : string) : bool :=
  match s with
  | String ":"%char (String ":"%char EmptyString) => true
  | String ":"%char (String ":"%char s') => parseIPv6_loop 9 0 true s'
  | _ => parseIPv6_loop 9 0 false s
  end.

(** [net.ParseIP(s) != nil]: an address with a zone is not an IP. *)
Definition ParseIP (s : string) : bool :=
  if Contains s "%" then false
  else
    match Cut s ".", Cut s ":" with
    | None, None => false
    | Some _, None => parseIPv4 s
    | None, Some _ => parseIPv6 s
    | Some (a, _), Some (b, _) =>
        if decide (String.length a < String.length b) then parseIPv4 s else parseIPv6 s
    end.

(** ** Facts *)

Lemma CutLast_None s sep : CutLast s sep = None ↔ Contains s sep = false.
Proof.
  induction s as [|c s IH]; simpl; [done|].
  destruct (CutLast s sep) as [[a b]|].
  - split; [done|]. rewrite orb_false_iff. intros [_ Hs]. by apply IH in Hs.
  - rewrite orb_false_iff, bool_decide_eq_false. case_decide; naive_solver.
Qed.

Lemma CutLast_app a b sep : Contains b sep = false → CutLast (a +:+ String sep b) sep = Some (a, b).
Proof.
  intros Hb. induction a as [|c a IH]; simpl; [|by rewrite IH].
  apply CutLast_None in Hb as ->. by rewrite decide_True.
Qed.

Lemma CutLast_Some s sep a b : CutLast s sep = Some (a, b) → s = a +:+ String sep b ∧ Contains b sep = false.
Proof.
  revert a b. induction s as [|c s IH]; simpl; [done|]. intros a b.
  destruct (CutLast s sep) as [[a' b']|] eqn:Hc.
  - intros [= <- <-]. destruct (IH a' b' eq_refl) as [-> ?]. done.
  - case_decide; [|done]. intros [= <- <-]. subst. split; [done|]. by apply CutLast_None.
Qed.

Lemma Contains_app s1 s2 c : Contains (s1 +:+ s2) c = Contains s1 c || Contains s2 c.
Proof. induction s1 as [|x s1 IH]; simpl; [done|]. by rewrite IH, orb_assoc. Qed.

(** [host:port] splits back when neither part has a colon or a bracket. *)
Lemma SplitHostPort_join host port :
  (∀ c, c = ":"%char ∨ c = "["%char ∨ c = "]"%char → Contains host c = false ∧ Contains port c = false) →
  SplitHostPort (host +:+ ":" +:+ port) = Some (host, port).
Proof.
  intros Hc. destruct (Hc ":"%char) as [Hh1 Hp1]; [by left|]. destruct (Hc "["%char) as [Hh2 Hp2]; [by right; left|].
  destruct (Hc "]"%char) as [Hh3 Hp3]; [by right; right|].
  unfold SplitHostPort.
  change (host +:+ ":" +:+ port) with (host +:+ String ":" port).
  rewrite CutLast_app by done. simpl.
  assert (Contains (host +:+ String ":" port) "[" = false) as H1.
  { rewrite Contains_app. simpl. by rewrite Hh2, Hp2. }
  assert (Contains (host +:+ String ":" port) "]" = false) as H2.
  { rewrite Contains_app. simpl. by rewrite Hh3, Hp3. }
  destruct (host +:+ String ":" port) as [|c s] eqn:E; [by destruct host|].
  assert (c ≠ "["%char) as Hne.
  { intros ->. by simpl in H1. }
  rewrite Hh1, H1, H2. simpl.
  destruct c as [[] [] [] [] [] [] [] []]; done.
Qed.

(** A host with a port has a colon. *)
Lemma SplitHostPort_colon s h p : SplitHostPort s = Some (h, p) → Contains s ":" = true.
Proof.
  unfold SplitHostPort. destruct (CutLast s ":") as [[a b]|] eqn:Hc; [|done].
  intros _. apply not_false_is_true. rewrite <-CutLast_None. congruence.
Qed.
