(* ===== verification/GossipState.v ===== *)
(** * pkg/gossip/state.go: the versioned key-value state of the cluster

    [clusterState] holds, for every known node, a map from keys to versioned
    entries.  The local node's entries are written by [UpsertLocal],
    [DeleteLocal], [LeaveLocal] and [CompactLocal]; the entries of the other
    nodes are written by [ApplyDelta].

    Every operation returns the new state and the calls it makes on its
    collaborators, in order, as a list of [effect]s: the gauge of the
    Prometheus client, the [Watcher] and the failure detector.  [None] is a Go
    run-time panic.  [time.Now()] is the argument [now]. *)

From S2P Require Import Prelude GoLib.

(** ** Data *)

Definition leftKey : string := "_internal:left".
Definition compactKey : string := "_internal:compact".
Definition nodeExpiry : Z := Minute.
Definition nodeTombstoneExpiry : Z := nodeExpiry * 2.

Record Entry := mkEntry {
  e_Key : string;
  e_Value : string;
  e_Version : N;
  e_Internal : bool;
  e_Deleted : bool;
}.

Record NodeMetadata := mkMetadata {
  n_ID : string;
  n_Addr : string;
  n_Version : N;
  n_Left : bool;
  n_Unreachable : bool;
  n_Expiry : time;
}.

Record NodeState := mkNodeState {
  NodeState_Metadata : NodeMetadata;
  NodeState_Entries : list Entry;
}.

Record digestEntry := mkDigestEntry {
  dg_ID : string;
  dg_Addr : string;
  dg_Version : N;
  dg_Left : bool;
}.

Definition digest := list digestEntry.

Record deltaEntry := mkDeltaEntry {
  dl_ID : string;
  dl_Addr : string;
  dl_Entries : list Entry;
}.

Definition delta := list deltaEntry.

Record nodeState := mkNode {
  ns_meta : NodeMetadata;
  ns_Entries : gmap string Entry;
}.

Record clusterState := mkState {
  localID : string;
  nodes : gmap string nodeState;
  tombstones : gmap string time;
}.

(** The calls of the [Watcher] interface. *)
Inductive watcher_call :=
  | OnJoin (nodeID : string)
  | OnLeave (nodeID : string)
  | OnReachable (nodeID : string)
  | OnUnreachable (nodeID : string)
  | OnUpsertKey (nodeID key value : string)
  | OnDeleteKey (nodeID key : string)
  | OnExpired (nodeID : string).

(** Everything an operation calls outside of the state: the entries gauge, the
    watcher and the failure detector. *)
Inductive effect :=
  | EntriesInc (node : string) (internal deleted : bool)
  | EntriesDec (node : string) (internal deleted : bool)
  | EntriesDeletePartialMatch (node : string)
  | Watch (call : watcher_call)
  | DetectorRemove (node : string).

#[global] Instance Entry_eq_dec : EqDecision Entry.
Proof. solve_decision. Defined.
#[global] Instance NodeMetadata_eq_dec : EqDecision NodeMetadata.
Proof. solve_decision. Defined.
#[global] Instance digestEntry_eq_dec : EqDecision digestEntry.
Proof. solve_decision. Defined.
#[global] Instance deltaEntry_eq_dec : EqDecision deltaEntry.
Proof. solve_decision. Defined.
#[global] Instance nodeState_eq_dec : EqDecision nodeState.
Proof. solve_decision. Defined.
#[global] Instance watcher_call_eq_dec : EqDecision watcher_call.
Proof. solve_decision. Defined.
#[global] Instance effect_eq_dec : EqDecision effect.
Proof. solve_decision. Defined.

(** The failure detector, as [clusterState] and the packet listener use it:
    [failureDetector] in failuredetector.go.  [None] is a panic. *)
Class FailureDetector (D : Type) := {
  Report : D → string → time → option D;
  SuspicionLevel : D → string → time → option (float64 * D);
  Remove : D → string → D;
}.

(** *** Field updates *)

Definition set_Version (v : N) (st : nodeState) : nodeState :=
  mkNode (mkMetadata (n_ID (ns_meta st)) (n_Addr (ns_meta st)) v (n_Left (ns_meta st))
            (n_Unreachable (ns_meta st)) (n_Expiry (ns_meta st))) (ns_Entries st).

Definition set_Entries (es : gmap string Entry) (st : nodeState) : nodeState :=
  mkNode (ns_meta st) es.

Definition set_Left (st : nodeState) : nodeState :=
  mkNode (mkMetadata (n_ID (ns_meta st)) (n_Addr (ns_meta st)) (n_Version (ns_meta st)) true
            (n_Unreachable (ns_meta st)) (n_Expiry (ns_meta st))) (ns_Entries st).

Definition set_Expiry (t : time) (st : nodeState) : nodeState :=
  mkNode (mkMetadata (n_ID (ns_meta st)) (n_Addr (ns_meta st)) (n_Version (ns_meta st))
            (n_Left (ns_meta st)) (n_Unreachable (ns_meta st)) t) (ns_Entries st).

Definition set_Unreachable (b : bool) (st : nodeState) : nodeState :=
  mkNode (mkMetadata (n_ID (ns_meta st)) (n_Addr (ns_meta st)) (n_Version (ns_meta st))
            (n_Left (ns_meta st)) b (n_Expiry (ns_meta st))) (ns_Entries st).

Definition set_node (id : string) (st : nodeState) (s : clusterState) : clusterState :=
  mkState (localID s) (<[id := st]> (nodes s)) (tombstones s).

(** The zero value of [Entry], read from a map at an absent key. *)
Definition zero_entry : Entry := mkEntry "" "" 0 false false.

(** ** Metrics *)

Definition metricsAddEntry (nodeID : string) (newEntry : Entry) : list effect :=
  [EntriesInc nodeID (e_Internal newEntry) (e_Deleted newEntry)].

Definition metricsDeleteEntry (nodeID : string) (existingEntry : Entry) : list effect :=
  [EntriesDec nodeID (e_Internal existingEntry) (e_Deleted existingEntry)].

Definition metricsUpsertEntry (nodeID : string) (newEntry existingEntry : Entry) : list effect :=
  (if decide (e_Key existingEntry ≠ "") then metricsDeleteEntry nodeID existingEntry else [])
  ++ metricsAddEntry nodeID newEntry.

(** ** Construction and reads *)

Definition newNode (id addr : string) : nodeState :=
  mkNode (mkMetadata id addr 0 false false zero_time) ∅.

Definition newClusterState (localID localAddr : string) : clusterState :=
  mkState localID {[ localID := newNode localID localAddr ]} ∅.

Definition EntriesTotal (d : delta) : nat :=
  foldl (λ total e, total + length (dl_Entries e)) 0 d.

Section reads.
Context `{MapIter}.

Definition ToNodeState (s : nodeState) : NodeState :=
  mkNodeState (ns_meta s) (sort_by e_Version (map_range (ns_Entries s)).*2).

Definition Node (s : clusterState) (id : string) : option NodeState :=
  ToNodeState <$> nodes s !! id.

Definition LocalNodeMetadata (s : clusterState) : option NodeMetadata :=
  ns_meta <$> nodes s !! localID s.

Definition LocalNode (s : clusterState) : option NodeState :=
  ToNodeState <$> nodes s !! localID s.

Definition Nodes (s : clusterState) : list NodeMetadata :=
  ns_meta <$> (map_range (nodes s)).*2.

Definition LiveNodes (s : clusterState) : list NodeMetadata :=
  filter (λ m, n_ID m ≠ localID s ∧ ¬ (n_Unreachable m = true ∨ n_Left m = true))
    (ns_meta <$> (map_range (nodes s)).*2).

Definition UnreachableNodes (s : clusterState) : list NodeMetadata :=
  filter (λ m, n_ID m ≠ localID s ∧ n_Unreachable m = true)
    (ns_meta <$> (map_range (nodes s)).*2).

Definition Digest (s : clusterState) : digest :=
  (λ st, mkDigestEntry (n_ID (ns_meta st)) (n_Addr (ns_meta st)) (n_Version (ns_meta st))
           (n_Left (ns_meta st))) <$> (map_range (nodes s)).*2.

(** [clusterState.deltaEntry]; the callers have looked [nodeID] up. *)
Definition deltaEntry_from (st : nodeState) (fromVersion : N) : deltaEntry :=
  mkDeltaEntry (n_ID (ns_meta st)) (n_Addr (ns_meta st))
    (sort_by e_Version
       (filter (λ e, ¬ (e_Version e ≤ fromVersion)%N) (map_range (ns_Entries st)).*2)).

Definition Delta (s : clusterState) (d : digest) (fullDigest : bool) : delta :=
  omap (λ entry,
    st ← nodes s !! dg_ID entry;
    let de := deltaEntry_from st (dg_Version entry) in
    guard (0 < length (dl_Entries de));; Some de) d
  ++ (if fullDigest then
        (λ p, deltaEntry_from p.2 0) <$>
          filter (λ p, p.1 ∉ dg_ID <$> d) (map_range (nodes s))
      else []).

Definition LocalDelta (s : clusterState) : option delta :=
  (λ st, [deltaEntry_from st 0]) <$> nodes s !! localID s.

End reads.

(** ** Local updates

    The local operations change the node the state holds under [localID]; a
    missing local node is a nil dereference, hence a panic. *)

Definition with_local (s : clusterState) (f : nodeState → option (nodeState * list effect)) :
    option (clusterState * list effect) :=
  state ← nodes s !! localID s;
  '(state', effs) ← f state;
  Some (set_node (localID s) state' s, effs).

(** Store an entry under its key at its version: the write shared by the
    operations. *)
Definition put_entry (e : Entry) (st : nodeState) : nodeState :=
  set_Entries (<[e_Key e := e]> (ns_Entries st)) (set_Version (e_Version e) st).

Definition next_version (st : nodeState) : N := u64_succ (n_Version (ns_meta st)).

Definition upsertNode (key value : string) (state : nodeState) : option (nodeState * list effect) :=
  let existing := ns_Entries state !! key in
  if decide (e_Value <$> existing = Some value) then Some (state, [])
  else
    let e := mkEntry key value (next_version state) false false in
    Some (put_entry e state,
          metricsUpsertEntry (n_ID (ns_meta state)) e (default zero_entry existing)).

Definition UpsertLocal (s : clusterState) (key value : string) : option (clusterState * list effect) :=
  with_local s (upsertNode key value).

Definition deleteNode (key : string) (state : nodeState) : option (nodeState * list effect) :=
  match ns_Entries state !! key with
  | None => Some (state, [])
  | Some existing =>
      if e_Deleted existing then Some (state, [])
      else
        let e := mkEntry (e_Key existing) "" (next_version state) (e_Internal existing) true in
        Some (set_Entries (<[key := e]> (ns_Entries state)) (set_Version (e_Version e) state),
              metricsUpsertEntry (n_ID (ns_meta state)) e existing)
  end.

Definition DeleteLocal (s : clusterState) (key : string) : option (clusterState * list effect) :=
  with_local s (deleteNode key).

Definition leaveNode (state : nodeState) : option (nodeState * list effect) :=
  if n_Left (ns_meta state) then Some (state, [])
  else
    let e := mkEntry leftKey "" (next_version state) true false in
    Some (put_entry e (set_Left state), metricsAddEntry (n_ID (ns_meta state)) e).

Definition LeaveLocal (s : clusterState) : option (clusterState * list effect) :=
  with_local s leaveNode.

(** The body of the loop of [CompactLocal] over the sorted entries. *)
Definition reversionEntry (state : nodeState) (entry : Entry) : nodeState * list effect :=
  if e_Deleted entry then (state, [])
  else if decide (e_Internal entry = true ∧ e_Key entry = compactKey) then (state, [])
  else
    let entry' := mkEntry (e_Key entry) (e_Value entry) (next_version state)
                    (e_Internal entry) (e_Deleted entry) in
    (put_entry entry' state, metricsAddEntry (n_ID (ns_meta state)) entry').

Section operations.
Context `{MapIter}.

Definition compactNode (threshold : Z) (state : nodeState) : option (nodeState * list effect) :=
  let deleted := length (filter (λ e, e_Deleted e = true) (map_range (ns_Entries state)).*2) in
  if decide (Z.of_nat deleted < threshold)%Z then Some (state, [])
  else
    let entries := sort_by e_Version (map_range (ns_Entries state)).*2 in
    lastEntry ← last entries;
    let compactVersion := e_Version lastEntry in
    let '(state1, effs) := fold_emit reversionEntry (set_Entries ∅ state) entries in
    let c := mkEntry compactKey (FormatUint compactVersion) (next_version state1) true false in
    Some (put_entry c state1,
          [EntriesDeletePartialMatch (n_ID (ns_meta state))] ++ effs
          ++ metricsAddEntry (n_ID (ns_meta state)) c).

Definition CompactLocal (s : clusterState) (threshold : Z) : option (clusterState * list effect) :=
  with_local s (compactNode threshold).

(** ** Remote updates *)

(** The node itself discards its own tombstone. *)
Definition tombstoned (tombs : gmap string time) (nodeID senderID : string) :
    bool * gmap string time :=
  match tombs !! nodeID with
  | None => (false, tombs)
  | Some _ =>
      if decide (nodeID = senderID) then (false, delete nodeID tombs) else (true, tombs)
  end.

Definition applyDigestEntry (senderID : string) (s : clusterState) (entry : digestEntry) :
    clusterState * list effect :=
  match nodes s !! dg_ID entry with
  | Some _ => (s, [])
  | None =>
      if dg_Left entry then (s, [])
      else
        let '(dead, tombs) := tombstoned (tombstones s) (dg_ID entry) senderID in
        if dead then (mkState (localID s) (nodes s) tombs, [])
        else
          (mkState (localID s) (<[dg_ID entry := newNode (dg_ID entry) (dg_Addr entry)]> (nodes s)) tombs,
           [Watch (OnJoin (dg_ID entry))])
  end.

Definition ApplyDigest (s : clusterState) (senderID : string) (d : digest) :
    clusterState * list effect :=
  fold_emit (applyDigestEntry senderID) s d.

(** One iteration of the compaction loop of [applyDeltaEntry]: the key is
    looked up again, since iterating over a Go map skips a key deleted before
    it is reached. *)
Definition discardEntry (metricID nodeID : string) (compactVersion : N)
    (entries : gmap string Entry) (key : string) : gmap string Entry * list effect :=
  match entries !! key with
  | None => (entries, [])
  | Some e =>
      if decide (e_Version e ≤ compactVersion)%N then
        (delete (e_Key e) entries,
         metricsDeleteEntry metricID e ++
         (if e_Deleted e then [] else [Watch (OnDeleteKey nodeID (e_Key e))]))
      else (entries, [])
  end.

Definition discardCompacted (metricID nodeID : string) (compactVersion : N)
    (entries : gmap string Entry) : gmap string Entry * list effect :=
  fold_emit (discardEntry metricID nodeID compactVersion) entries (map_range entries).*1.

(** The loop of [applyDeltaEntry] over the entries; an invalid compaction
    version returns from the whole function. *)
Fixpoint applyEntries (now : time) (nodeID : string) (state : nodeState) (es : list Entry) :
    nodeState * list effect :=
  match es with
  | [] => (state, [])
  | e :: es' =>
      if decide (e_Version e ≤ n_Version (ns_meta state))%N then applyEntries now nodeID state es'
      else
        let existing := default zero_entry (ns_Entries state !! e_Key e) in
        let state1 := put_entry e state in
        let effs1 := metricsUpsertEntry (n_ID (ns_meta state)) e existing in
        if e_Internal e then
          if decide (e_Key e = leftKey) then
            let '(state2, effs2) :=
              applyEntries now nodeID (set_Expiry (now + nodeExpiry) (set_Left state1)) es' in
            (state2, effs1 ++ [Watch (OnLeave nodeID)] ++ effs2)
          else if decide (e_Key e = compactKey) then
            match ParseUint (e_Value e) with
            | None => (state1, effs1)
            | Some compactVersion =>
                let '(entries, effsc) :=
                  discardCompacted (n_ID (ns_meta state)) nodeID compactVersion (ns_Entries state1) in
                let '(state2, effs2) := applyEntries now nodeID (set_Entries entries state1) es' in
                (state2, effs1 ++ effsc ++ effs2)
            end
          else
            let '(state2, effs2) := applyEntries now nodeID state1 es' in (state2, effs1 ++ effs2)
        else
          let call := if e_Deleted e then OnDeleteKey nodeID (e_Key e)
                      else OnUpsertKey nodeID (e_Key e) (e_Value e) in
          let '(state2, effs2) := applyEntries now nodeID state1 es' in
          (state2, effs1 ++ [Watch call] ++ effs2)
  end.

Definition applyDeltaEntry (now : time) (senderID : string) (s : clusterState) (entry : deltaEntry) :
    clusterState * list effect :=
  if decide (dl_ID entry = localID s) then (s, [])
  else
    match nodes s !! dl_ID entry with
    | Some state =>
        let '(state', effs) := applyEntries now (dl_ID entry) state (dl_Entries entry) in
        (set_node (dl_ID entry) state' s, effs)
    | None =>
        let '(dead, tombs) := tombstoned (tombstones s) (dl_ID entry) senderID in
        if dead then (mkState (localID s) (nodes s) tombs, [])
        else
          let '(state', effs) :=
            applyEntries now (dl_ID entry) (newNode (dl_ID entry) (dl_Addr entry)) (dl_Entries entry) in
          (mkState (localID s) (<[dl_ID entry := state']> (nodes s)) tombs,
           Watch (OnJoin (dl_ID entry)) :: effs)
    end.

Definition ApplyDelta (now : time) (s : clusterState) (senderID : string) (d : delta) :
    clusterState * list effect :=
  fold_emit (applyDeltaEntry now senderID) s d.

(** ** Expiry and liveness *)

Definition expired_at (t : time) (state : nodeState) : Prop :=
  time_IsZero (n_Expiry (ns_meta state)) = false ∧ time_After t (n_Expiry (ns_meta state)) = true.

#[global] Instance expired_at_dec t state : Decision (expired_at t state).
Proof. unfold expired_at. apply _. Defined.

Definition removeNode (t : time) (s : clusterState) (id : string) : clusterState * list effect :=
  (mkState (localID s) (delete id (nodes s)) (<[id := t]> (tombstones s)),
   [EntriesDeletePartialMatch id; Watch (OnExpired id); DetectorRemove id]).

Definition RemoveExpiredAt (s : clusterState) (t : time) : clusterState * list effect :=
  let tombs := filter (λ p, time_After t (p.2 + nodeTombstoneExpiry) = false) (tombstones s) in
  let nodeIDs := (λ st, n_ID (ns_meta st)) <$> filter (expired_at t) (map_range (nodes s)).*2 in
  fold_emit (removeNode t) (mkState (localID s) (nodes s) tombs) nodeIDs.

Definition RemoveExpired (now : time) (s : clusterState) : clusterState * list effect :=
  RemoveExpiredAt s now.

Context `{FailureDetector D}.

(** The body of the loop of [UpdateLiveness] for the node stored at [key]. *)
Definition updateNodeLiveness (now : time) (suspicionThreshold : float64)
    (s : clusterState) (d : D) (key : string) (node : nodeState) :
    option (clusterState * D * list effect) :=
  let id := n_ID (ns_meta node) in
  if decide (id = localID s ∨ n_Left (ns_meta node) = true) then Some (s, d, [])
  else
    '(suspicionLevel, d') ← SuspicionLevel d id now;
    if flt suspicionThreshold suspicionLevel then
      if n_Unreachable (ns_meta node) then Some (s, d', [])
      else Some (set_node key (set_Expiry (now + nodeExpiry) (set_Unreachable true node)) s, d',
                 [Watch (OnUnreachable id)])
    else
      if n_Unreachable (ns_meta node) then
        Some (set_node key (set_Expiry zero_time (set_Unreachable false node)) s, d',
              [Watch (OnReachable id)])
      else Some (s, d', []).

Fixpoint updateLiveness_loop (now : time) (suspicionThreshold : float64)
    (s : clusterState) (d : D) (l : list (string * nodeState)) :
    option (clusterState * D * list effect) :=
  match l with
  | [] => Some (s, d, [])
  | (key, node) :: l' =>
      '(s1, d1, effs1) ← updateNodeLiveness now suspicionThreshold s d key node;
      '(s2, d2, effs2) ← updateLiveness_loop now suspicionThreshold s1 d1 l';
      Some (s2, d2, effs1 ++ effs2)
  end.

Definition UpdateLiveness (now : time) (s : clusterState) (d : D) (suspicionThreshold : float64) :
    option (clusterState * D * list effect) :=
  updateLiveness_loop now suspicionThreshold s d (map_range (nodes s)).

End operations.
