(* ===== verification/GossipReplica.v ===== *)
(** * Replication of one node's entries

    The owner of a node state writes it; every other node holds a replica that
    lags behind.  This file states when a replica is consistent with its owner
    ([replica_of]), when the entries of a delta message are ([good_delta]), and
    shows that both survive every operation of the owner (compaction included)
    and every application of a delta, from the owner or relayed by a third
    node, truncated, reordered or duplicated. *)

From S2P Require Import Prelude GoLib GossipState.

(** ** Definitions *)

Definition version (st : nodeState) : N := n_Version (ns_meta st).

Definition internal_key (k : string) : Prop := k = leftKey ∨ k = compactKey.

#[global] Instance internal_key_dec k : Decision (internal_key k).
Proof. unfold internal_key. apply _. Defined.

(** The [Internal] flag of an entry agrees with its key, and internal entries
    are never deleted. *)
Definition entry_ok (e : Entry) : Prop :=
  (e_Internal e = true ↔ internal_key (e_Key e)) ∧ (e_Internal e = true → e_Deleted e = false).

(** The version the last compaction discards up to. *)
Definition floor (es : gmap string Entry) : N :=
  match es !! compactKey with
  | Some c => default 0%N (ParseUint (e_Value c))
  | None => 0%N
  end.

(** Well-formedness of any stored node state. *)
Record node_wf (st : nodeState) : Prop := {
  wf_key : ∀ k e, ns_Entries st !! k = Some e → e_Key e = k;
  wf_version : ∀ k e, ns_Entries st !! k = Some e → (0 < e_Version e ≤ version st)%N;
  wf_ok : ∀ k e, ns_Entries st !! k = Some e → entry_ok e;
  wf_distinct : ∀ k1 k2 e1 e2, ns_Entries st !! k1 = Some e1 → ns_Entries st !! k2 = Some e2 →
    e_Version e1 = e_Version e2 → k1 = k2;
}.

(** Well-formedness of the state a node keeps about itself. *)
Record owner_wf (st : nodeState) : Prop := {
  own_node : node_wf st;
  own_top : (0 < version st)%N →
    ∃ k e, ns_Entries st !! k = Some e ∧ e_Version e = version st;
  own_compact : ∀ c, ns_Entries st !! compactKey = Some c →
    ∃ cv, ParseUint (e_Value c) = Some cv ∧
      ∀ k e, ns_Entries st !! k = Some e → (cv < e_Version e)%N;
  own_left : n_Left (ns_meta st) = true ↔ is_Some (ns_Entries st !! leftKey);
}.

(** How an entry known at version [l] relates to the owner: it is current, a
    newer write of its key is still to come, or a compaction that discards it
    is still to come. *)
Definition entry_status (O : nodeState) (l : N) (e : Entry) : Prop :=
  ns_Entries O !! e_Key e = Some e ∨
  (∃ e', ns_Entries O !! e_Key e = Some e' ∧ l < e_Version e')%N ∨
  (e_Version e ≤ floor (ns_Entries O) ∧
   ∃ c, ns_Entries O !! compactKey = Some c ∧ l < e_Version c)%N.

(** A compaction entry that is not ahead of the owner's. *)
Definition compact_ok (O : nodeState) (e : Entry) : Prop :=
  e_Key e = compactKey →
  ∃ cv, ParseUint (e_Value e) = Some cv ∧ (cv ≤ floor (ns_Entries O) ∧ cv < e_Version e)%N.

(** [R] is a replica of the state of the owner [O]. *)
Record replica_of (O R : nodeState) : Prop := {
  rep_node : node_wf R;
  rep_version : (version R ≤ version O)%N;
  rep_complete : ∀ k e, ns_Entries O !! k = Some e → (e_Version e ≤ version R)%N →
    ns_Entries R !! k = Some e;
  rep_sound : ∀ k e, ns_Entries R !! k = Some e → entry_status O (version R) e;
  rep_compact : ∀ e, ns_Entries R !! compactKey = Some e → compact_ok O e;
  rep_left : is_Some (ns_Entries R !! leftKey) → n_Left (ns_meta R) = true;
  rep_left_owner : n_Left (ns_meta R) = true → n_Left (ns_meta O) = true;
}.

(** [es] are entries of the owner's state with versions in [(f, last]], in
    order: what a delta computed for version [f] carries. *)
Record good_delta (O : nodeState) (f : N) (es : list Entry) : Prop := {
  gd_sorted : sorted_by e_Version es;
  gd_range : ∀ e, e ∈ es → (f < e_Version e ≤ version O)%N;
  gd_ok : ∀ e, e ∈ es → entry_ok e;
  gd_complete : ∀ k e, ns_Entries O !! k = Some e →
    (f < e_Version e ≤ last_by e_Version f es)%N → e ∈ es;
  gd_sound : ∀ e, e ∈ es → entry_status O (last_by e_Version f es) e;
  gd_compact : ∀ e, e ∈ es → compact_ok O e;
  gd_left : ∀ e, e ∈ es → e_Key e = leftKey → n_Left (ns_meta O) = true;
}.

(** What an operation of the owner may do to its state. *)
Record owner_step (O O' : nodeState) : Prop := {
  os_version : (version O ≤ version O')%N;
  os_floor : (floor (ns_Entries O) ≤ floor (ns_Entries O'))%N;
  os_new : ∀ k e, ns_Entries O' !! k = Some e →
    ns_Entries O !! k = Some e ∨ (version O < e_Version e)%N;
  os_status : ∀ l e, (l ≤ version O)%N → (e_Version e ≤ l)%N →
    entry_status O l e → entry_status O' l e;
  os_left : n_Left (ns_meta O) = true → n_Left (ns_meta O') = true;
}.

(** The keys and values a watcher may know of: neither internal nor deleted. *)
Definition visible (e : Entry) : option string :=
  if e_Internal e || e_Deleted e then None else Some (e_Value e).

Definition view (es : gmap string Entry) : gmap string string := omap visible es.

(** Replay the calls about the keys of node [id] on such a view. *)
Definition replay_call (id : string) (v : gmap string string) (c : watcher_call) : gmap string string :=
  match c with
  | OnUpsertKey id' k x => if decide (id' = id) then <[k := x]> v else v
  | OnDeleteKey id' k => if decide (id' = id) then delete k v else v
  | _ => v
  end.

Definition calls (effs : list effect) : list watcher_call :=
  omap (λ e, match e with Watch c => Some c | _ => None end) effs.

Definition replay (id : string) (v : gmap string string) (effs : list effect) : gmap string string :=
  foldl (replay_call id) v (calls effs).

(** ** Generic facts *)

Lemma entry_status_mono O l l' e : (l' ≤ l)%N → entry_status O l e → entry_status O l' e.
Proof.
  intros ? [?|[(e'&?&?)|(?&c&?&?)]]; [by left|right; left|right; right].
  - exists e'. split; [done|lia].
  - split; [done|]. exists c. split; [done|lia].
Qed.

Lemma floor_compact O c cv :
  ns_Entries O !! compactKey = Some c → ParseUint (e_Value c) = Some cv → floor (ns_Entries O) = cv.
Proof. intros Hc Hv. unfold floor. by rewrite Hc, Hv. Qed.

(** Every entry of the owner is above the floor. *)
Lemma owner_above_floor O k e :
  owner_wf O → ns_Entries O !! k = Some e → (floor (ns_Entries O) < e_Version e)%N.
Proof.
  intros Hw He. destruct (ns_Entries O !! compactKey) as [c|] eqn:Hc.
  - destruct (own_compact _ Hw _ Hc) as (cv & Hcv & Habove).
    rewrite (floor_compact _ _ _ Hc Hcv). by eapply Habove.
  - unfold floor. rewrite Hc. apply (wf_version _ (own_node _ Hw)) in He. lia.
Qed.

Lemma owner_floor_bound O : owner_wf O → (floor (ns_Entries O) ≤ version O)%N.
Proof.
  intros Hw. destruct (ns_Entries O !! compactKey) as [c|] eqn:Hc.
  - pose proof (owner_above_floor _ _ _ Hw Hc). apply (wf_version _ (own_node _ Hw)) in Hc. lia.
  - unfold floor. rewrite Hc. lia.
Qed.

Lemma owner_compact_ok O c :
  owner_wf O → ns_Entries O !! compactKey = Some c → compact_ok O c.
Proof.
  intros Hw Hc _. destruct (own_compact _ Hw _ Hc) as (cv & Hcv & Habove).
  exists cv. split; [done|]. rewrite (floor_compact _ _ _ Hc Hcv). split; [lia|by eapply Habove].
Qed.

(** The owner is a replica of itself. *)
Lemma replica_of_refl O : owner_wf O → replica_of O O.
Proof.
  intros Hw. split; try done.
  - apply Hw.
  - intros k e He. left. by rewrite (wf_key _ (own_node _ Hw) _ _ He).
  - intros e He. by apply owner_compact_ok.
  - apply (own_left _ Hw).
Qed.

(** A node just heard of is a replica. *)
Lemma replica_of_new O id addr : owner_wf O → replica_of O (newNode id addr).
Proof.
  intros Hw. split; simpl; unfold version; simpl.
  - split; simpl; intros; simplify_map_eq.
  - lia.
  - intros k e He. apply (wf_version _ (own_node _ Hw)) in He. lia.
  - intros k e He. simplify_map_eq.
  - intros e He. simplify_map_eq.
  - intros [? ?]; simplify_map_eq.
  - done.
Qed.

(** A replica at the owner's version has the owner's entries. *)
Lemma replica_caught_up O R :
  owner_wf O → replica_of O R → version R = version O → ns_Entries R = ns_Entries O.
Proof.
  intros Hw Hr Hv. apply map_eq. intros k.
  destruct (ns_Entries O !! k) as [e|] eqn:HO.
  { apply (rep_complete _ _ Hr _ _ HO). pose proof (wf_version _ (own_node _ Hw) _ _ HO). lia. }
  destruct (ns_Entries R !! k) as [e|] eqn:HR; [|done].
  pose proof (wf_key _ (rep_node _ _ Hr) _ _ HR) as <-.
  destruct (rep_sound _ _ Hr _ _ HR) as [?|[(e'&?&?)|(_&c&Hc&?)]]; [congruence..|].
  apply (wf_version _ (own_node _ Hw)) in Hc. lia.
Qed.

Lemma replica_caught_up_left O R :
  owner_wf O → replica_of O R → version R = version O → n_Left (ns_meta R) = n_Left (ns_meta O).
Proof.
  intros Hw Hr Hv. apply eq_true_iff_eq. split; [apply (rep_left_owner _ _ Hr)|].
  rewrite (own_left _ Hw), <-(replica_caught_up _ _ Hw Hr Hv). apply (rep_left _ _ Hr).
Qed.

(** ** Discarding compacted entries *)

Definition keys_ok (es : gmap string Entry) : Prop := ∀ k e, es !! k = Some e → e_Key e = k.

Section discard.
Context (metricID nodeID : string) (cv : N).

Lemma discardEntry_lookup es key k :
  keys_ok es →
  (discardEntry metricID nodeID cv es key).1 !! k =
    (e ← es !! k; guard (¬ (k = key ∧ e_Version e ≤ cv)%N);; Some e).
Proof.
  intros Hk. unfold discardEntry. destruct (es !! key) as [e|] eqn:He; simpl.
  - pose proof (Hk _ _ He) as <-. case_decide as Hle; simpl.
    + destruct (decide (k = e_Key e)) as [->|Hne].
      * rewrite lookup_delete_eq, He. simpl. by rewrite option_guard_False by tauto.
      * rewrite lookup_delete_ne by done. destruct (es !! k); simpl; [|done].
        by rewrite option_guard_True by tauto.
    + destruct (es !! k) eqn:Hk2; simpl; [|done]. rewrite option_guard_True; [done|].
      intros [-> ?]. by simplify_eq.
  - destruct (es !! k) eqn:Hk2; simpl; [|done]. rewrite option_guard_True; [done|].
    intros [-> ?]. simplify_eq.
Qed.

Lemma discardEntry_keys_ok es key : keys_ok es → keys_ok (discardEntry metricID nodeID cv es key).1.
Proof.
  intros Hk k e. rewrite discardEntry_lookup by done.
  intros (e' & He & _ & [= <-])%bind_Some_guard. by apply Hk.
Qed.

Lemma discard_loop_lookup l es k :
  keys_ok es →
  (fold_emit (discardEntry metricID nodeID cv) es l).1 !! k =
    (e ← es !! k; guard (¬ (k ∈ l ∧ e_Version e ≤ cv)%N);; Some e).
Proof.
  revert es. induction l as [|key l IH]; intros es Hk; rewrite fold_emit_fst; simpl.
  { by destruct (es !! k). }
  rewrite <-fold_emit_fst, IH by (by apply discardEntry_keys_ok).
  rewrite discardEntry_lookup by done. destruct (es !! k) as [e|]; simpl; [|done].
  destruct (decide (k = key ∧ e_Version e ≤ cv)%N) as [[-> Hle]|Hn].
  - rewrite option_guard_False by tauto. simpl. rewrite option_guard_False; [done|].
    intros Hc. apply Hc. split; [left|done].
  - rewrite option_guard_True by tauto. simpl. apply option_guard_iff.
    rewrite elem_of_cons. tauto.
Qed.

Lemma discardCompacted_entries `{MapIter} es :
  keys_ok es →
  (discardCompacted metricID nodeID cv es).1 = filter (λ p, ¬ (e_Version p.2 ≤ cv)%N) es.
Proof.
  intros Hk. apply map_eq. intros k. unfold discardCompacted.
  rewrite discard_loop_lookup by done. rewrite map_lookup_filter.
  destruct (es !! k) as [e|] eqn:He; simpl; [|done]. apply option_guard_iff.
  rewrite elem_of_map_range_fst, He. split; [|tauto]. intros Hn ?. apply Hn. by eauto.
Qed.

(** The watcher learns of exactly the visible keys that were discarded. *)
Lemma discardEntry_view es key :
  keys_ok es → (∀ k e, es !! k = Some e → entry_ok e) →
  replay nodeID (view es) (discardEntry metricID nodeID cv es key).2 =
  view (discardEntry metricID nodeID cv es key).1.
Proof.
  intros Hk Hok. unfold discardEntry. destruct (es !! key) as [e|] eqn:He; [|done].
  case_decide; [|done]. rewrite (Hk _ _ He). unfold replay. simpl.
  destruct (e_Deleted e) eqn:Hd; simpl.
  - apply map_eq. intros k. unfold view. rewrite !lookup_omap.
    destruct (decide (k = key)) as [->|]; [|by rewrite lookup_delete_ne].
    rewrite lookup_delete_eq, He. simpl. unfold visible. by rewrite Hd, orb_true_r.
  - rewrite decide_True by done. unfold view. by rewrite omap_delete.
Qed.

Lemma discard_loop_view l es :
  keys_ok es → (∀ k e, es !! k = Some e → entry_ok e) →
  replay nodeID (view es) (fold_emit (discardEntry metricID nodeID cv) es l).2 =
  view (fold_emit (discardEntry metricID nodeID cv) es l).1.
Proof.
  revert es. induction l as [|key l IH]; intros es Hk Hok; simpl; [done|].
  pose proof (discardEntry_view es key Hk Hok) as Hv.
  pose proof (discardEntry_keys_ok es key Hk) as Hk'.
  assert (∀ k e, (discardEntry metricID nodeID cv es key).1 !! k = Some e → entry_ok e) as Hok'.
  { intros k e. rewrite discardEntry_lookup by done.
    intros (e' & He & _ & [= <-])%bind_Some_guard. by eapply Hok. }
  destruct (discardEntry metricID nodeID cv es key) as [es1 w1]; simpl in *.
  specialize (IH es1 Hk' Hok'). destruct (fold_emit _ es1 l) as [es2 w2]; simpl in *.
  unfold replay, calls in *. by rewrite omap_app, foldl_app, Hv, IH.
Qed.

End discard.

(** ** Applying entries *)

(** The state after one accepted entry. *)
Definition accepted (now : time) (e : Entry) (st : nodeState) : nodeState :=
  let st1 := put_entry e st in
  if e_Internal e then
    if decide (e_Key e = leftKey) then set_Expiry (now + nodeExpiry) (set_Left st1)
    else if decide (e_Key e = compactKey) then
      match ParseUint (e_Value e) with
      | None => st1
      | Some cv => set_Entries (filter (λ p, ¬ (e_Version p.2 ≤ cv)%N) (ns_Entries st1)) st1
      end
    else st1
  else st1.

Lemma put_entry_keys_ok e st : keys_ok (ns_Entries st) → keys_ok (ns_Entries (put_entry e st)).
Proof. intros Hk k e'. simpl. rewrite lookup_insert. case_decide; naive_solver. Qed.

Lemma leftKey_ne_compactKey : leftKey ≠ compactKey.
Proof. done. Qed.

Section apply.
Context `{MapIter}.
Context (now : time) (nodeID : string).

Lemma applyEntries_skip st e es :
  (e_Version e ≤ version st)%N → applyEntries now nodeID st (e :: es) = applyEntries now nodeID st es.
Proof. intros ?. simpl. unfold version in *. by rewrite decide_True. Qed.

(** A newer entry is accepted and the rest is applied to the result, unless it
    is a compaction entry that does not parse. *)
Lemma applyEntries_accept st e es :
  keys_ok (ns_Entries st) → (version st < e_Version e)%N →
  (e_Internal e = true → e_Key e = compactKey → is_Some (ParseUint (e_Value e))) →
  (applyEntries now nodeID st (e :: es)).1 = (applyEntries now nodeID (accepted now e st) es).1.
Proof.
  intros Hk Hv Hp. simpl. unfold version in *. rewrite decide_False by lia. unfold accepted.
  destruct (e_Internal e); [|by destruct (applyEntries now nodeID (put_entry e st) es)].
  case_decide; [by destruct (applyEntries _ _ _ es)|].
  case_decide; [|by destruct (applyEntries _ _ _ es)].
  destruct Hp as [cv Hcv]; [done..|]. rewrite Hcv.
  rewrite <-(discardCompacted_entries (n_ID (ns_meta st)) nodeID cv) by by apply put_entry_keys_ok.
  destruct (discardCompacted _ _ _ _) as [es' w]. by destruct (applyEntries _ _ _ es).
Qed.

Lemma accepted_version e st : version (accepted now e st) = e_Version e.
Proof. unfold accepted. by crush_match. Qed.

Lemma accepted_lookup_sub e st k x :
  ns_Entries (accepted now e st) !! k = Some x →
  k = e_Key e ∧ x = e ∨ k ≠ e_Key e ∧ ns_Entries st !! k = Some x.
Proof.
  assert (ns_Entries (put_entry e st) !! k = Some x →
    k = e_Key e ∧ x = e ∨ k ≠ e_Key e ∧ ns_Entries st !! k = Some x).
  { simpl. rewrite lookup_insert. case_decide; naive_solver. }
  unfold accepted. destruct (e_Internal e); [|done]. case_decide; [done|].
  case_decide; [|done]. destruct (ParseUint (e_Value e)); [|done].
  simpl in *. rewrite map_lookup_filter_Some. naive_solver.
Qed.

Lemma accepted_left e st :
  entry_ok e →
  n_Left (ns_meta (accepted now e st)) = bool_decide (e_Key e = leftKey) || n_Left (ns_meta st).
Proof.
  intros [Hi _]. unfold accepted. destruct (e_Internal e) eqn:He; simpl.
  - repeat case_match; case_bool_decide; done.
  - rewrite bool_decide_false; [done|]. intros Hl.
    assert (false = true) by (apply Hi; by left). done.
Qed.

(** Well-formedness is preserved by any entry newer than the state. *)
Lemma accepted_wf e st :
  node_wf st → entry_ok e → (version st < e_Version e)%N → node_wf (accepted now e st).
Proof.
  intros Hw Hok Hv. split.
  - intros k x [[-> ->]|[_ Hx]]%accepted_lookup_sub; [done|]. by apply (wf_key _ Hw).
  - intros k x. rewrite accepted_version.
    intros [[-> ->]|[_ Hx]]%accepted_lookup_sub; [lia|]. apply (wf_version _ Hw) in Hx. lia.
  - intros k x [[-> ->]|[_ Hx]]%accepted_lookup_sub; [done|]. by eapply (wf_ok _ Hw).
  - intros k1 k2 x1 x2 H1%accepted_lookup_sub H2%accepted_lookup_sub Heq.
    destruct H1 as [[-> ->]|[_ H1]], H2 as [[-> ->]|[_ H2]]; try done.
    + apply (wf_version _ Hw) in H2. lia.
    + apply (wf_version _ Hw) in H1. lia.
    + by eapply (wf_distinct _ Hw).
Qed.

(** What is left of the other entries after accepting [e]. *)
Lemma accepted_lookup_keep e st k x :
  entry_ok e → k ≠ e_Key e → ns_Entries st !! k = Some x →
  ns_Entries (accepted now e st) !! k = Some x ∨
  e_Key e = compactKey ∧ ∃ cv, ParseUint (e_Value e) = Some cv ∧ (e_Version x ≤ cv)%N.
Proof.
  intros [Hi _] Hne Hx.
  assert (ns_Entries (put_entry e st) !! k = Some x) as Hput by (simpl; by simplify_map_eq).
  unfold accepted. destruct (e_Internal e); [|by left]. case_decide; [by left|].
  case_decide; [|by left]. destruct (ParseUint (e_Value e)) as [cv|] eqn:Hcv; [|by left].
  simpl. destruct (decide (e_Version x ≤ cv)%N); [right; eauto|left].
  by apply map_lookup_filter_Some.
Qed.

Lemma accepted_lookup_self e st :
  (∀ cv, e_Key e = compactKey → ParseUint (e_Value e) = Some cv → (cv < e_Version e)%N) →
  ns_Entries (accepted now e st) !! e_Key e = Some e.
Proof.
  intros Hc.
  assert (ns_Entries (put_entry e st) !! e_Key e = Some e) as Hput by (simpl; by simplify_map_eq).
  unfold accepted. destruct (e_Internal e); [|done]. case_decide; [done|].
  case_decide; [|done]. destruct (ParseUint (e_Value e)) as [cv|] eqn:Hcv; [|done].
  apply map_lookup_filter_Some. split; [done|]. simpl.
  assert (cv < e_Version e)%N by eauto. lia.
Qed.

(** After a compaction entry, nothing below its floor is left. *)
Lemma accepted_above_compact e st cv k x :
  entry_ok e → e_Key e = compactKey → ParseUint (e_Value e) = Some cv →
  ns_Entries (accepted now e st) !! k = Some x → (cv < e_Version x)%N.
Proof.
  intros [Hi _] Hk Hcv. unfold accepted.
  rewrite (proj2 Hi) by (right; done).
  rewrite decide_False by (rewrite Hk; apply not_eq_sym, leftKey_ne_compactKey).
  rewrite decide_True, Hcv by done. simpl.
  intros [_ Hx]%map_lookup_filter_Some. simpl in Hx. lia.
Qed.

End apply.

(** ** Replicas are preserved by applying deltas *)

Section replica.
Context `{MapIter}.
Context (now : time) (nodeID : string) (O : nodeState) (Hown : owner_wf O).

(** Accepting the next entry of the owner's history. *)
Section accept.
Context (R : nodeState) (e : Entry).
Context (Hrep : replica_of O R) (Hok : entry_ok e).
Context (Hver : (version R < e_Version e ≤ version O)%N).
Context (Hnext : ∀ k x, ns_Entries O !! k = Some x →
  (version R < e_Version x ≤ e_Version e)%N → x = e).
Context (Hstatus : entry_status O (e_Version e) e).
Context (Hcompact : compact_ok O e).

Lemma accept_complete k x :
  ns_Entries O !! k = Some x → (e_Version x ≤ e_Version e)%N →
  ns_Entries (accepted now e R) !! k = Some x.
Proof.
  intros Hx Hle. destruct (decide (x = e)) as [->|Hne].
  { rewrite <-(wf_key _ (own_node _ Hown) _ _ Hx). apply accepted_lookup_self.
    intros cv Hk Hcv. destruct (Hcompact Hk) as (?&?&?); simplify_eq; lia. }
  assert (e_Version x ≤ version R)%N as HxR.
  { destruct (decide (version R < e_Version x)%N); [|lia]. naive_solver lia. }
  assert (k ≠ e_Key e) as Hk.
  { intros ->. pose proof (owner_above_floor _ _ _ Hown Hx).
    destruct Hstatus as [?|[(e'&?&?)|(?&_)]]; simplify_eq; lia. }
  destruct (accepted_lookup_keep now e R k x) as [?|(Hck&cv&Hcv&?)];
    [done..|by apply (rep_complete _ _ Hrep)|done|].
  destruct (Hcompact Hck) as (cv'&?&?&_). simplify_eq.
  pose proof (owner_above_floor _ _ _ Hown Hx). lia.
Qed.

Lemma accept_sound k x :
  ns_Entries (accepted now e R) !! k = Some x → entry_status O (e_Version e) x.
Proof.
  intros Hx. destruct (accepted_lookup_sub _ _ _ _ _ Hx) as [[-> ->]|[Hne HxR]]; [done|].
  pose proof (wf_key _ (rep_node _ _ Hrep) _ _ HxR) as <-.
  destruct (rep_sound _ _ Hrep _ _ HxR) as [?|[(e'&He'&?)|(Hfl&c&Hc&?)]]; [by left|right; left|].
  - exists e'. split; [done|]. destruct (decide (e_Version e < e_Version e')%N); [done|].
    rewrite (Hnext _ _ He') in He' by lia.
    apply (wf_key _ (own_node _ Hown)) in He'. done.
  - right; right. split; [done|]. exists c. split; [done|].
    destruct (decide (e_Version e < e_Version c)%N); [done|].
    pose proof (Hnext _ _ Hc ltac:(lia)) as ->.
    pose proof (wf_key _ (own_node _ Hown) _ _ Hc) as Hck.
    destruct (own_compact _ Hown _ Hc) as (cv&Hcv&_).
    rewrite (floor_compact _ _ _ Hc Hcv) in Hfl.
    pose proof (accepted_above_compact now e R cv _ _ Hok Hck Hcv Hx). lia.
Qed.

Lemma accepted_replica :
  (e_Key e = leftKey → n_Left (ns_meta O) = true) → replica_of O (accepted now e R).
Proof.
  intros Hleft. split.
  - apply accepted_wf; [apply Hrep|done|lia].
  - rewrite accepted_version. lia.
  - rewrite accepted_version. apply accept_complete.
  - rewrite accepted_version. apply accept_sound.
  - intros c [[_ ->]|[_ Hc]]%accepted_lookup_sub; [done|by apply (rep_compact _ _ Hrep)].
  - rewrite accepted_left by done. intros [x Hx]. apply orb_true_intro.
    destruct (accepted_lookup_sub _ _ _ _ _ Hx) as [[? ->]|[_ ?]]; [left|right].
    + by apply bool_decide_true.
    + apply (rep_left _ _ Hrep). by exists x.
  - rewrite accepted_left by done. intros [?%bool_decide_eq_true|Hl]%orb_prop; [by apply Hleft|].
    by apply (rep_left_owner _ _ Hrep).
Qed.
End accept.

Lemma last_by_cons_default {A} (f : A → N) d x l : last_by f d (x :: l) = last_by f (f x) l.
Proof. unfold last_by. rewrite last_cons. by destruct (last l). Qed.

(** The tail of a good delta is a good delta from the head's version. *)
Lemma good_delta_tail f e es : good_delta O f (e :: es) → good_delta O (e_Version e) es.
Proof.
  intros Hg. pose proof (gd_sorted _ _ _ Hg) as [Hs He]%StronglySorted_inv.
  rewrite Forall_forall in He.
  split; [done|..]; try (intros; by eapply Hg; [right|..]).
  - intros x Hx. split; [by apply He|]. apply (gd_range _ _ _ Hg). by right.
  - intros k x Hx [Hlt Hle]. rewrite <-(last_by_cons_default _ f) in Hle.
    pose proof (gd_range _ _ _ Hg e ltac:(left)).
    apply (gd_complete _ _ _ Hg) in Hx; [|lia]. apply elem_of_cons in Hx as [->|?]; [lia|done].
  - intros x Hx. rewrite <-(last_by_cons_default _ f). apply (gd_sound _ _ _ Hg). by right.
Qed.

(** A truncated good delta is good. *)
Lemma good_delta_prefix f es1 es2 : good_delta O f (es1 ++ es2) → good_delta O f es1.
Proof.
  intros Hg. pose proof (gd_sorted _ _ _ Hg) as (Hs1&Hs2&H12)%sorted_by_app.
  assert (last_by e_Version f es1 ≤ last_by e_Version f (es1 ++ es2))%N as Hlast.
  { destruct es1 as [|x es1' _] using rev_ind.
    - unfold last_by at 1. simpl. destruct (last es2) as [y|] eqn:Hy; unfold last_by; rewrite Hy; [|done].
      apply last_Some_elem_of in Hy. pose proof (gd_range _ _ _ Hg y ltac:(set_solver)). lia.
    - rewrite last_by_snoc. apply last_by_bound; [apply Hg|set_solver]. }
  split; [done|..]; try (intros; eapply Hg; [set_solver|..]; done).
  - intros k e He [Hlo Hhi].
    assert (e ∈ es1 ++ es2) as [?|He2]%elem_of_app; [|done|].
    { eapply (gd_complete _ _ _ Hg); [done|lia]. }
    exfalso. destruct es1 as [|x es1' _] using rev_ind; [unfold last_by in Hhi; simpl in *; lia|].
    rewrite last_by_snoc in Hhi. assert (e_Version x < e_Version e)%N; [|lia].
    apply H12; [set_solver|done].
  - intros e He. eapply entry_status_mono; [done|]. apply (gd_sound _ _ _ Hg). set_solver.
  - intros e He. apply (gd_left _ _ _ Hg). set_solver.
Qed.

(** Applying a delta computed for a version the replica has already reached. *)
Lemma applyEntries_replica es f R :
  replica_of O R → (f ≤ version R)%N → good_delta O f es →
  replica_of O (applyEntries now nodeID R es).1 ∧
  version (applyEntries now nodeID R es).1 = N.max (version R) (last_by e_Version f es).
Proof.
  revert f R. induction es as [|e es IH]; intros f R Hrep Hf Hg.
  { split; [done|]. unfold last_by; simpl. lia. }
  pose proof (good_delta_tail _ _ _ Hg) as Ht.
  assert (e_Version e ≤ last_by e_Version f (e :: es))%N as Hlast.
  { apply last_by_bound; [apply Hg|left]. }
  rewrite last_by_cons_default in *.
  destruct (decide (e_Version e ≤ version R)%N) as [Hle|Hgt].
  { rewrite applyEntries_skip by done. by apply IH. }
  pose proof (gd_compact _ _ _ Hg e ltac:(left)) as Hcompact.
  rewrite applyEntries_accept; [|exact (wf_key _ (rep_node _ _ Hrep))|lia|].
  2:{ intros _ Hk. destruct (Hcompact Hk) as (cv&?&_). by exists cv. }
  assert (replica_of O (accepted now e R)) as Hrep'.
  { apply accepted_replica; [done|apply (gd_ok _ _ _ Hg); left| |..|done|].
    - pose proof (gd_range _ _ _ Hg e ltac:(left)). lia.
    - intros k x Hx [? ?]. apply (gd_complete _ _ _ Hg) in Hx.
      + apply elem_of_cons in Hx as [->|Hx]; [done|].
        apply (gd_range _ _ _ Ht) in Hx. lia.
      + rewrite last_by_cons_default. lia.
    - eapply entry_status_mono; [done|].
      rewrite <-(last_by_cons_default _ f). apply (gd_sound _ _ _ Hg). left.
    - apply (gd_left _ _ _ Hg). left. }
  destruct (IH (e_Version e) (accepted now e R)) as [HR Hv];
    [done|by rewrite accepted_version|done|].
  split; [done|]. rewrite Hv, accepted_version. lia.
Qed.

(** What a replica sends is a good delta, whichever version it is asked for. *)
Lemma deltaEntry_from_good S f : replica_of O S → good_delta O f (dl_Entries (deltaEntry_from S f)).
Proof.
  intros Hrep. simpl. set (raw := filter _ _). set (es := sort_by _ raw).
  assert (∀ e, e ∈ raw ↔ ns_Entries S !! e_Key e = Some e ∧ (f < e_Version e)%N) as Hraw.
  { intros e. unfold raw. rewrite list_elem_of_filter, elem_of_map_range_snd.
    split.
    - intros [? [k Hk]]. pose proof (wf_key _ (rep_node _ _ Hrep) _ _ Hk) as ->. split; [done|lia].
    - intros [? ?]. split; [lia|eauto]. }
  assert (∀ e, e ∈ es ↔ ns_Entries S !! e_Key e = Some e ∧ (f < e_Version e)%N) as Hes.
  { intros e. unfold es. by rewrite elem_of_sort_by. }
  assert (sorted_by e_Version es) as Hsorted.
  { apply sort_by_sorted.
    - apply NoDup_filter. apply (NoDup_fmap_1 e_Key). rewrite <-list_fmap_compose.
      erewrite list_fmap_ext; [apply NoDup_map_range_fst|].
      intros i [k x] Hi%list_elem_of_lookup_2%elem_of_map_range. simpl.
      by apply (wf_key _ (rep_node _ _ Hrep)).
    - intros x y [Hx _]%Hraw [Hy _]%Hraw Hv. pose proof (wf_distinct _ (rep_node _ _ Hrep) _ _ _ _ Hx Hy Hv). congruence. }
  assert (last_by e_Version f es ≤ N.max f (version S))%N as Hlast.
  { unfold last_by. destruct (last es) as [x|] eqn:Hx; [|lia].
    apply last_Some_elem_of, Hes in Hx as [Hx _]. apply (wf_version _ (rep_node _ _ Hrep)) in Hx. lia. }
  pose proof (rep_version _ _ Hrep).
  split; [done|..].
  - intros e [He ?]%Hes. apply (wf_version _ (rep_node _ _ Hrep)) in He. lia.
  - intros e [He _]%Hes. by apply (wf_ok _ (rep_node _ _ Hrep) _ _ He).
  - intros k e He [? ?]. apply Hes. split; [|done].
    pose proof (wf_key _ (own_node _ Hown) _ _ He) as ->. apply (rep_complete _ _ Hrep); [done|lia].
  - intros e [He ?]%Hes. apply (entry_status_mono _ (version S)); [|by eapply (rep_sound _ _ Hrep)].
    apply (wf_version _ (rep_node _ _ Hrep)) in He. lia.
  - intros e [He _]%Hes Hk. rewrite Hk in He. by apply (rep_compact _ _ Hrep).
  - intros e [He _]%Hes Hk. rewrite Hk in He. apply (rep_left_owner _ _ Hrep), (rep_left _ _ Hrep). by exists e.
Qed.

End replica.

(** ** Operations of the owner *)

(** The steps of the owner preserve its replicas and the deltas in flight. *)
Section owner_step.
Context (O O' : nodeState) (Hstep : owner_step O O').

Lemma compact_ok_step e : compact_ok O e → compact_ok O' e.
Proof.
  intros Hc Hk. destruct (Hc Hk) as (cv&?&?&?). exists cv. split; [done|].
  pose proof (os_floor _ _ Hstep). lia.
Qed.

Lemma replica_of_step R : replica_of O R → replica_of O' R.
Proof.
  intros Hr. split.
  - apply Hr.
  - pose proof (rep_version _ _ Hr). pose proof (os_version _ _ Hstep). lia.
  - intros k e He Hv. destruct (os_new _ _ Hstep _ _ He) as [?|?]; [by apply (rep_complete _ _ Hr)|].
    pose proof (rep_version _ _ Hr). lia.
  - intros k e He. apply (os_status _ _ Hstep); [apply Hr| |by eapply (rep_sound _ _ Hr)].
    apply (wf_version _ (rep_node _ _ Hr)) in He. lia.
  - intros e He. by apply compact_ok_step, (rep_compact _ _ Hr).
  - apply Hr.
  - intros Hl. by apply (os_left _ _ Hstep), (rep_left_owner _ _ Hr).
Qed.

Lemma good_delta_step f es : (f ≤ version O)%N → good_delta O f es → good_delta O' f es.
Proof.
  intros Hf Hg.
  assert (last_by e_Version f es ≤ version O)%N as Hl.
  { unfold last_by. destruct (last es) as [x|] eqn:Hx; [|done].
    apply last_Some_elem_of, (gd_range _ _ _ Hg) in Hx. lia. }
  split.
  - apply Hg.
  - intros e He%(gd_range _ _ _ Hg). pose proof (os_version _ _ Hstep). lia.
  - apply Hg.
  - intros k e He ?. destruct (os_new _ _ Hstep _ _ He) as [?|?]; [by eapply (gd_complete _ _ _ Hg)|lia].
  - intros e He. apply (os_status _ _ Hstep); [done| |by apply (gd_sound _ _ _ Hg)].
    apply last_by_bound; [apply Hg|done].
  - intros e He. by apply compact_ok_step, (gd_compact _ _ _ Hg).
  - intros e He Hk. by eapply (os_left _ _ Hstep), (gd_left _ _ _ Hg).
Qed.
End owner_step.

Lemma owner_step_refl O : owner_step O O.
Proof. split; try done. by left. Qed.

(** *** A write of one key *)

(** The state a leaving node writes its [leftKey] entry to. *)
Definition mark_left (e : Entry) (O : nodeState) : nodeState :=
  if decide (e_Key e = leftKey) then set_Left O else O.

Section put.
Context (O : nodeState) (e : Entry).
Context (Hown : owner_wf O) (Hok : entry_ok e).
Context (Hver : e_Version e = (version O + 1)%N) (Hkey : e_Key e ≠ compactKey).

Let O' := put_entry e (mark_left e O).

Lemma put_lookup k :
  ns_Entries O' !! k = if decide (k = e_Key e) then Some e else ns_Entries O !! k.
Proof.
  unfold O', mark_left. case_decide; simpl; rewrite lookup_insert; repeat case_decide; congruence.
Qed.

Lemma put_version : version O' = (version O + 1)%N.
Proof. done. Qed.

Lemma put_floor : floor (ns_Entries O') = floor (ns_Entries O).
Proof. unfold floor. rewrite put_lookup. by rewrite decide_False. Qed.

Lemma put_node_wf : node_wf O'.
Proof.
  pose proof (own_node _ Hown) as Hw.
  split; intros k1 *; rewrite put_lookup.
  - case_decide; [naive_solver|]. by apply (wf_key _ Hw).
  - rewrite put_version. case_decide; [intros [= <-]; lia|].
    intros He%(wf_version _ Hw). lia.
  - case_decide; [naive_solver|]. by apply (wf_ok _ Hw).
  - rewrite put_lookup. repeat case_decide; [congruence|..].
    + intros [= <-] Hx%(wf_version _ Hw) Heq. lia.
    + intros Hx%(wf_version _ Hw) [= <-] Heq. lia.
    + apply (wf_distinct _ Hw).
Qed.

Lemma put_left : n_Left (ns_meta O') = true ↔ n_Left (ns_meta O) = true ∨ e_Key e = leftKey.
Proof. unfold O', mark_left. case_decide; simpl; naive_solver. Qed.

Lemma put_owner_wf : owner_wf O'.
Proof.
  split.
  - apply put_node_wf.
  - intros _. exists (e_Key e), e. rewrite put_lookup, decide_True by done. by rewrite put_version.
  - intros c. rewrite put_lookup, decide_False by done. intros Hc.
    destruct (own_compact _ Hown _ Hc) as (cv&Hcv&Habove). exists cv. split; [done|].
    intros k x. rewrite put_lookup. case_decide; [|by apply Habove]. intros [= <-].
    pose proof (Habove _ _ Hc). apply (wf_version _ (own_node _ Hown)) in Hc. lia.
  - rewrite put_left, put_lookup, (own_left _ Hown). case_decide; (split; [intros [?|?]|intros ?]); by eauto.
Qed.

Lemma put_owner_step : owner_step O O'.
Proof.
  split.
  - rewrite put_version. lia.
  - by rewrite put_floor.
  - intros k x. rewrite put_lookup. case_decide; [intros [= <-]; right; lia|by left].
  - intros l x Hl Hx [Hc|[(x'&Hc&?)|(?&c&Hc&?)]]; unfold entry_status;
      rewrite !put_lookup, put_floor; [case_decide..|].
    + right; left. exists e. split; [done|lia].
    + by left.
    + right; left. exists e. split; [done|lia].
    + right; left. by exists x'.
    + right; right. split; [done|]. rewrite decide_False by done. by exists c.
  - rewrite put_left. by left.
Qed.
End put.

(** A key the user of the gossip layer may write. *)
Definition user_key (k : string) : Prop := k ≠ leftKey ∧ k ≠ compactKey.

Lemma user_entry_ok k v n d : user_key k → entry_ok (mkEntry k v n false d).
Proof. intros [? ?]. split; [|done]. simpl. unfold internal_key. split; [done|tauto]. Qed.

Lemma next_version_small O : (version O + 1 < 2 ^ 64)%N → next_version O = (version O + 1)%N.
Proof. apply u64_succ_small. Qed.

(** A user's write leaves the left flag alone. *)
Lemma put_user_entry O e :
  owner_wf O → entry_ok e → user_key (e_Key e) → e_Version e = (version O + 1)%N →
  owner_wf (put_entry e O) ∧ owner_step O (put_entry e O).
Proof.
  intros Hw Hok [Hl Hc] Hv. assert (mark_left e O = O) as HO.
  { unfold mark_left. by rewrite decide_False. }
  pose proof (put_owner_wf O e Hw Hok Hv Hc) as H1. pose proof (put_owner_step O e Hv Hc) as H2.
  by rewrite HO in H1, H2.
Qed.

Lemma upsertNode_step O O' key value effs :
  owner_wf O → user_key key → (version O + 1 < 2 ^ 64)%N →
  upsertNode key value O = Some (O', effs) → owner_wf O' ∧ owner_step O O'.
Proof.
  intros Hw Hk Hv. unfold upsertNode. case_decide; intros [= <- <-]; [eauto using owner_step_refl|].
  rewrite next_version_small by done. by apply put_user_entry; [|apply user_entry_ok|..].
Qed.

Lemma deleteNode_step O O' key effs :
  owner_wf O → user_key key → (version O + 1 < 2 ^ 64)%N →
  deleteNode key O = Some (O', effs) → owner_wf O' ∧ owner_step O O'.
Proof.
  intros Hw Hk Hv. unfold deleteNode.
  destruct (ns_Entries O !! key) as [x|] eqn:Hx; [|intros [= <- <-]; eauto using owner_step_refl].
  destruct (e_Deleted x); intros [= <- <-]; [eauto using owner_step_refl|].
  rewrite next_version_small by done. rewrite (wf_key _ (own_node _ Hw) _ _ Hx).
  assert (e_Internal x = false) as ->.
  { destruct (e_Internal x) eqn:Hi; [|done].
    pose proof (proj1 (proj1 (wf_ok _ (own_node _ Hw) _ _ Hx)) Hi) as [Hik|Hik];
      rewrite (wf_key _ (own_node _ Hw) _ _ Hx) in Hik; by destruct Hk. }
  set (e := mkEntry _ _ _ _ _). change (set_Entries _ _) with (put_entry e O).
  by apply put_user_entry; [|apply user_entry_ok|..].
Qed.

Lemma leaveNode_step O O' effs :
  owner_wf O → (version O + 1 < 2 ^ 64)%N →
  leaveNode O = Some (O', effs) → owner_wf O' ∧ owner_step O O'.
Proof.
  intros Hw Hv. unfold leaveNode.
  destruct (n_Left (ns_meta O)); intros [= <- <-]; [eauto using owner_step_refl|].
  rewrite next_version_small by done. set (e := mkEntry _ _ _ _ _).
  change (set_Left O) with (mark_left e O).
  assert (entry_ok e) by (split; [split; [by left|done]|done]).
  split; [apply put_owner_wf|apply put_owner_step]; done.
Qed.

(** *** Compaction *)

Definition with_version (v : N) (e : Entry) : Entry :=
  mkEntry (e_Key e) (e_Value e) v (e_Internal e) (e_Deleted e).

(** The entries a compaction keeps. *)
Definition kept (e : Entry) : Prop :=
  e_Deleted e = false ∧ ¬ (e_Internal e = true ∧ e_Key e = compactKey).

#[global] Instance kept_dec e : Decision (kept e).
Proof. unfold kept. apply _. Defined.

Lemma reversionEntry_kept st e :
  kept e → (reversionEntry st e).1 = put_entry (with_version (next_version st) e) st.
Proof. intros [Hd Hc]. unfold reversionEntry. rewrite Hd, decide_False by done. unfold with_version. by rewrite Hd. Qed.

Lemma reversionEntry_drop st e : ¬ kept e → (reversionEntry st e).1 = st.
Proof.
  intros Hk. unfold reversionEntry, kept in *. destruct (e_Deleted e); [done|].
  case_decide; [done|]. exfalso. by apply Hk.
Qed.

(** What the compaction loop has built after a list of entries with distinct
    keys, started at a state that holds none of them. *)
Record reversioned (st : nodeState) (l : list Entry) (st' : nodeState) : Prop := {
  rv_version : (version st ≤ version st' ≤ version st + N.of_nat (length l))%N;
  rv_left : n_Left (ns_meta st') = n_Left (ns_meta st);
  rv_old : ∀ k x, ns_Entries st' !! k = Some x →
    ns_Entries st !! k = Some x ∨
    ∃ e, e ∈ l ∧ kept e ∧ e_Key e = k ∧ x = with_version (e_Version x) e ∧
      (version st < e_Version x ≤ version st')%N;
  rv_keep : ∀ k x, ns_Entries st !! k = Some x → ns_Entries st' !! k = Some x;
  rv_new : ∀ e, e ∈ l → kept e →
    ∃ v, ns_Entries st' !! e_Key e = Some (with_version v e);
  rv_wf : node_wf st → (∀ e, e ∈ l → entry_ok e) → node_wf st';
}.

Lemma put_fresh_wf st e :
  node_wf st → entry_ok e → (version st < e_Version e)%N → ns_Entries st !! e_Key e = None →
  node_wf (put_entry e st).
Proof.
  intros Hw Hok Hv Hn. split; intros k1 *; simpl; rewrite !lookup_insert.
  - case_decide; [intros [= <-]; done|]. apply (wf_key _ Hw).
  - case_decide; [intros [= <-]; unfold version; simpl; lia|].
    intros He%(wf_version _ Hw). unfold version in *. simpl. lia.
  - case_decide; [intros [= <-]; done|]. apply (wf_ok _ Hw).
  - repeat case_decide; [congruence|..].
    + intros [= <-] Hx%(wf_version _ Hw) Heq. lia.
    + intros Hx%(wf_version _ Hw) [= <-] Heq. lia.
    + apply (wf_distinct _ Hw).
Qed.

Lemma reversion_loop l st :
  NoDup (e_Key <$> l) → (∀ e, e ∈ l → ns_Entries st !! e_Key e = None) →
  (version st + N.of_nat (length l) < 2 ^ 64)%N →
  reversioned st l (fold_emit reversionEntry st l).1.
Proof.
  rewrite fold_emit_fst. revert st. induction l as [|e l IH]; intros st Hnd Hfresh Hroom; simpl.
  { split; try done; [simpl; lia|by left|set_solver]. }
  apply NoDup_cons in Hnd as [Hni Hnd]. simpl in Hroom.
  destruct (decide (kept e)) as [Hk|Hk].
  2:{ rewrite reversionEntry_drop by done.
      destruct (IH st) as [? ? Hold ? Hnew ?]; [done|set_solver|lia|].
      split; try done; [simpl; lia|set_solver|set_solver|]. intros. set_solver. }
  rewrite reversionEntry_kept by done. unfold next_version.
  rewrite u64_succ_small by (unfold version in *; lia). fold (version st).
  set (e' := with_version _ e).
  assert (ns_Entries st !! e_Key e = None) as Hnone by (apply Hfresh; left).
  destruct (IH (put_entry e' st)) as [Hv Hl Hold Hkeep Hnew Hwf]; [done|..].
  { intros x Hx. simpl. rewrite lookup_insert_ne; [apply Hfresh; by right|].
    intros Heq. apply Hni, list_elem_of_fmap. by exists x. }
  { unfold version in *. simpl. lia. }
  assert (version (put_entry e' st) = version st + 1)%N as Hv1 by done.
  rewrite Hv1 in *. split.
  - simpl. lia.
  - done.
  - intros k x Hx. destruct (Hold _ _ Hx) as [Hput|(y&Hy&?&?&?&?)].
    + simpl in Hput. rewrite lookup_insert in Hput. case_decide; [|by left].
      simplify_eq. right. exists e. split_and!; try done; [left|simpl; lia|simpl; lia].
    + right. exists y. split_and!; try done; [by right|lia|lia].
  - intros k x Hx. apply Hkeep. simpl. rewrite lookup_insert_ne; [done|].
    intros <-. simpl in *. congruence.
  - intros x [->|Hx]%elem_of_cons Hkx; [|by apply Hnew].
    exists (version st + 1)%N. apply Hkeep. simpl. by rewrite lookup_insert_eq.
  - intros Hw Hok. apply Hwf; [|set_solver]. apply put_fresh_wf; try done.
    { change (entry_ok e). apply Hok. left. }
    unfold e', version. simpl. lia.
Qed.

Section compact.
Context `{MapIter}.
Context (O : nodeState) (Hown : owner_wf O).

Let entries := sort_by e_Version (map_range (ns_Entries O)).*2.

Lemma elem_of_entries e : e ∈ entries ↔ ns_Entries O !! e_Key e = Some e.
Proof.
  unfold entries. rewrite elem_of_sort_by, elem_of_map_range_snd. split; [|by eauto].
  intros [k Hk]. by rewrite (wf_key _ (own_node _ Hown) _ _ Hk).
Qed.

Lemma length_entries : length entries = size (ns_Entries O).
Proof. unfold entries. by rewrite (sort_by_perm _ _), length_fmap, length_map_range. Qed.

Lemma NoDup_entries_keys : NoDup (e_Key <$> entries).
Proof.
  unfold entries. rewrite (sort_by_perm _ _), <-list_fmap_compose.
  erewrite list_fmap_ext; [apply NoDup_map_range_fst|].
  intros i [k x] Hi%list_elem_of_lookup_2%elem_of_map_range. simpl.
  by apply (wf_key _ (own_node _ Hown)).
Qed.

Lemma entries_sorted : sorted_by e_Version entries.
Proof.
  apply sort_by_sorted.
  - pose proof NoDup_entries_keys as Hnd%NoDup_fmap_1. unfold entries in Hnd.
    by rewrite (sort_by_perm _ _) in Hnd.
  - intros x y. rewrite !elem_of_map_range_snd. intros [k1 H1] [k2 H2] Hv.
    pose proof (wf_distinct _ (own_node _ Hown) _ _ _ _ H1 H2 Hv). congruence.
Qed.

(** The compaction version is the version of the node. *)
Lemma last_entries_version e : last entries = Some e → e_Version e = version O.
Proof.
  intros Hl. pose proof (last_Some_elem_of _ _ Hl) as He%elem_of_entries.
  pose proof (wf_version _ (own_node _ Hown) _ _ He).
  destruct (own_top _ Hown) as (k&x&Hx&Hv); [lia|].
  assert (x ∈ entries) as Hin by (apply elem_of_entries; by rewrite (wf_key _ (own_node _ Hown) _ _ Hx)).
  pose proof (last_by_bound e_Version 0 _ _ entries_sorted Hin) as Hb.
  unfold last_by in Hb. rewrite Hl in Hb. lia.
Qed.

Context (Hroom : (version O + N.of_nat (size (ns_Entries O)) + 1 < 2 ^ 64)%N).

Let st1 := (fold_emit reversionEntry (set_Entries ∅ O) entries).1.

Lemma compact_reversioned : reversioned (set_Entries ∅ O) entries st1.
Proof.
  apply reversion_loop; [apply NoDup_entries_keys|done|].
  rewrite length_entries. unfold version in *. simpl in *. lia.
Qed.

Lemma st1_wf : node_wf st1.
Proof.
  apply (rv_wf _ _ _ compact_reversioned).
  - split; simpl; intros; simplify_map_eq.
  - intros e He%elem_of_entries. by eapply (wf_ok _ (own_node _ Hown)).
Qed.

Lemma st1_entry k x :
  ns_Entries st1 !! k = Some x ↔
  ∃ e, ns_Entries O !! k = Some e ∧ kept e ∧ x = with_version (e_Version x) e ∧ ns_Entries st1 !! k = Some x.
Proof.
  split; [|naive_solver]. intros Hx. pose proof (rv_old _ _ _ compact_reversioned _ _ Hx) as Ho.
  destruct Ho as [Ho|(e&He%elem_of_entries&Hk&Hkey&Heq&_)]; [simpl in Ho; simplify_map_eq|].
  exists e. by rewrite <-Hkey in *.
Qed.

Lemma st1_new_version k x : ns_Entries st1 !! k = Some x → (version O < e_Version x ≤ version st1)%N.
Proof.
  intros Hx. destruct (rv_old _ _ _ compact_reversioned _ _ Hx) as [Ho|(e&_&_&_&_&?)];
    [simpl in Ho; simplify_map_eq|done].
Qed.

Lemma st1_no_compact : ns_Entries st1 !! compactKey = None.
Proof.
  apply eq_None_not_Some. intros [x (e&He&[_ Hk]&_)%st1_entry]. apply Hk.
  pose proof (wf_key _ (own_node _ Hown) _ _ He) as Hkey. split; [|done].
  apply (wf_ok _ (own_node _ Hown) _ _ He). right. done.
Qed.

Lemma st1_left : is_Some (ns_Entries st1 !! leftKey) ↔ is_Some (ns_Entries O !! leftKey).
Proof.
  split; [intros [x (e&He&_)%st1_entry]; by eauto|intros [e He]].
  pose proof (wf_key _ (own_node _ Hown) _ _ He) as Hkey.
  pose proof (wf_ok _ (own_node _ Hown) _ _ He) as [Hi Hd].
  destruct (rv_new _ _ _ compact_reversioned e) as [v Hv].
  - by apply elem_of_entries; rewrite Hkey.
  - split; [apply Hd, Hi; by left|]. rewrite Hkey. by intros [_ ?].
  - rewrite Hkey in Hv. by eauto.
Qed.

Definition compact_entry (v : N) (st : nodeState) : Entry :=
  mkEntry compactKey (FormatUint v) (next_version st) true false.

Let O' := put_entry (compact_entry (version O) st1) st1.

Lemma st1_version : (version O ≤ version st1 ∧ version st1 + 1 < 2 ^ 64)%N.
Proof.
  pose proof (rv_version _ _ _ compact_reversioned) as Hv.
  rewrite length_entries in Hv. change (version (set_Entries ∅ O)) with (version O) in Hv. lia.
Qed.

Lemma compacted_version : version O' = (version st1 + 1)%N.
Proof. pose proof st1_version. unfold O', version; simpl. apply next_version_small. lia. Qed.

Lemma compacted_lookup k x :
  ns_Entries O' !! k = Some x ↔
  k = compactKey ∧ x = compact_entry (version O) st1 ∨ ns_Entries st1 !! k = Some x.
Proof.
  simpl. rewrite lookup_insert. case_decide as Hk; [|naive_solver].
  subst k. rewrite st1_no_compact. naive_solver.
Qed.

Lemma compacted_floor : floor (ns_Entries O') = version O.
Proof.
  unfold floor. simpl. rewrite lookup_insert_eq. simpl.
  rewrite ParseUint_FormatUint; [done|]. pose proof st1_version. lia.
Qed.

Lemma compacted_above k x : ns_Entries O' !! k = Some x → (version O < e_Version x ≤ version O')%N.
Proof.
  rewrite compacted_version, compacted_lookup. pose proof st1_version.
  intros [[_ ->]|Hx%st1_new_version]; [|lia].
  simpl. rewrite next_version_small by lia. lia.
Qed.

Lemma compacted_owner_wf : owner_wf O'.
Proof.
  pose proof st1_version. split.
  - apply put_fresh_wf; [apply st1_wf|split; [split; [by right|done]|done]| |apply st1_no_compact].
    simpl. rewrite next_version_small by lia. lia.
  - intros _. exists compactKey, (compact_entry (version O) st1).
    split; [by apply compacted_lookup; left|done].
  - intros c Hc. exists (version O). split.
    + apply compacted_lookup in Hc as [[_ ->]|Hc]; [|by rewrite st1_no_compact in Hc].
      simpl. rewrite ParseUint_FormatUint; [done|lia].
    + intros k x Hx%compacted_above. lia.
  - transitivity (n_Left (ns_meta O) = true).
    { unfold O'. simpl. by rewrite (rv_left _ _ _ compact_reversioned). }
    rewrite (own_left _ Hown), <-st1_left. simpl. by rewrite lookup_insert_ne.
Qed.

Lemma compacted_step : owner_step O O'.
Proof.
  pose proof (owner_floor_bound _ Hown). split.
  - rewrite compacted_version. pose proof st1_version. lia.
  - by rewrite compacted_floor.
  - intros k x Hx%compacted_above. right. lia.
  - intros l x Hl Hx _. right; right. rewrite compacted_floor. split; [lia|].
    exists (compact_entry (version O) st1). split; [by apply compacted_lookup; left|].
    simpl. pose proof st1_version. rewrite next_version_small by lia. lia.
  - unfold O'. simpl. by rewrite (rv_left _ _ _ compact_reversioned).
Qed.

(** Compaction keeps the visible keys and their values. *)
Lemma compacted_view : view (ns_Entries O') = view (ns_Entries O).
Proof.
  apply map_eq. intros k. unfold view. rewrite !lookup_omap.
  destruct (ns_Entries O' !! k) as [x|] eqn:Hx; simpl.
  - apply compacted_lookup in Hx as [[-> ->]|(e&He&[Hd _]&Heq&_)%st1_entry]; simpl.
    + destruct (ns_Entries O !! compactKey) as [c|] eqn:Hc; [|done]. simpl. unfold visible.
      rewrite (proj2 (proj1 (wf_ok _ (own_node _ Hown) _ _ Hc))); [done|].
      rewrite (wf_key _ (own_node _ Hown) _ _ Hc). by right.
    + rewrite He, Heq. done.
  - destruct (ns_Entries O !! k) as [e|] eqn:He; [|done]. simpl. unfold visible.
    destruct (e_Internal e) eqn:Hi, (e_Deleted e) eqn:Hd; try done. exfalso.
    pose proof (wf_key _ (own_node _ Hown) _ _ He) as Hkey.
    destruct (rv_new _ _ _ compact_reversioned e) as [v Hv].
    + apply elem_of_entries. by rewrite Hkey.
    + split; [done|]. by intros [? _]; congruence.
    + rewrite Hkey in Hv. assert (ns_Entries O' !! k = Some (with_version v e)); [|congruence].
      apply compacted_lookup. by right.
Qed.

Lemma compactNode_result threshold O1 effs :
  compactNode threshold O = Some (O1, effs) → O1 = O ∨ O1 = O'.
Proof.
  unfold compactNode. case_decide; [intros [= <- _]; by left|].
  fold entries. destruct (last entries) as [e|] eqn:Hl; [|done]. simpl.
  rewrite (last_entries_version _ Hl). unfold O', st1.
  destruct (fold_emit reversionEntry (set_Entries ∅ O) entries) as [s w]. simpl.
  intros [= <- _]. by right.
Qed.
End compact.

Lemma compactNode_step `{MapIter} O O' threshold effs :
  owner_wf O → (version O + N.of_nat (size (ns_Entries O)) + 1 < 2 ^ 64)%N →
  compactNode threshold O = Some (O', effs) → owner_wf O' ∧ owner_step O O'.
Proof.
  intros Hw Hroom [-> | ->]%compactNode_result; [eauto using owner_step_refl| |done..].
  split; [by apply compacted_owner_wf|by apply compacted_step].
Qed.

(** ** The watcher mirrors the visible keys *)

Lemma calls_app effs1 effs2 : calls (effs1 ++ effs2) = calls effs1 ++ calls effs2.
Proof. apply omap_app. Qed.

Lemma replay_app id v effs1 effs2 : replay id v (effs1 ++ effs2) = replay id (replay id v effs1) effs2.
Proof. unfold replay. by rewrite calls_app, foldl_app. Qed.

Lemma calls_metricsUpsertEntry id e existing : calls (metricsUpsertEntry id e existing) = [].
Proof. unfold metricsUpsertEntry. by case_decide. Qed.

Lemma replay_metrics id v effs1 effs2 :
  calls effs1 = [] → replay id v (effs1 ++ effs2) = replay id v effs2.
Proof. intros Hc. rewrite replay_app. unfold replay. by rewrite Hc. Qed.

Definition entries_ok (es : gmap string Entry) : Prop := ∀ k e, es !! k = Some e → entry_ok e.

(** An internal key is never visible. *)
Lemma view_internal es k :
  keys_ok es → entries_ok es → internal_key k → view es !! k = None.
Proof.
  intros Hk Hok Hi. unfold view. rewrite lookup_omap. destruct (es !! k) as [e|] eqn:He; [|done].
  simpl. unfold visible. rewrite (proj2 (proj1 (Hok _ _ He))); [done|]. by rewrite (Hk _ _ He).
Qed.

Lemma view_insert es e :
  keys_ok es → entries_ok es → entry_ok e →
  view (<[e_Key e := e]> es) =
    if e_Internal e then view es
    else if e_Deleted e then delete (e_Key e) (view es)
    else <[e_Key e := e_Value e]> (view es).
Proof.
  intros Hk Hok [Hi Hd]. unfold view.
  destruct (e_Internal e) eqn:HI.
  - rewrite omap_insert_None by (unfold visible; by rewrite HI).
    apply delete_id. apply (view_internal _ _ Hk Hok). tauto.
  - destruct (e_Deleted e) eqn:HD.
    + by apply omap_insert_None; unfold visible; rewrite HI, HD.
    + by apply omap_insert_Some; unfold visible; rewrite HI, HD.
Qed.

Lemma put_entries_ok e st : entries_ok (ns_Entries st) → entry_ok e → entries_ok (ns_Entries (put_entry e st)).
Proof. intros Hst He k x. simpl. rewrite lookup_insert. case_decide; [by intros [= <-]|apply Hst]. Qed.

Lemma applyEntries_view `{MapIter} now id st es :
  keys_ok (ns_Entries st) → entries_ok (ns_Entries st) → (∀ e, e ∈ es → entry_ok e) →
  replay id (view (ns_Entries st)) (applyEntries now id st es).2 =
  view (ns_Entries (applyEntries now id st es).1).
Proof.
  revert st. induction es as [|e es IH]; intros st Hk Hok Hes; [done|].
  cbn [applyEntries]. cbv zeta.
  assert (∀ x, x ∈ es → entry_ok x) as Hes' by set_solver.
  assert (entry_ok e) as He by (apply Hes; left).
  case_decide as Hle; [by apply IH|].
  pose proof (put_entry_keys_ok e st Hk) as Hk1. pose proof (put_entries_ok e st Hok He) as Hok1.
  pose proof (view_insert _ _ Hk Hok He) as Hv. set (st1 := put_entry e st) in *.
  change (<[e_Key e := e]> (ns_Entries st)) with (ns_Entries st1) in Hv. clearbody st1.
  set (mid := n_ID (ns_meta st)). set (old := default zero_entry _).
  pose proof (calls_metricsUpsertEntry mid e old) as Hm.
  destruct (e_Internal e) eqn:HI.
  - case_decide.
    { specialize (IH (set_Expiry (now + nodeExpiry) (set_Left st1)) Hk1 Hok1 Hes').
      destruct (applyEntries _ _ _ es) as [st2 w]. simpl in *. rewrite (replay_metrics _ _ _ _ Hm).
      by rewrite <-Hv. }
    case_decide.
    2:{ specialize (IH st1 Hk1 Hok1 Hes'). destruct (applyEntries _ _ _ es) as [st2 w].
        simpl in *. rewrite (replay_metrics _ _ _ _ Hm). by rewrite <-Hv. }
    destruct (ParseUint (e_Value e)) as [cv|]; simpl; [|rewrite <-Hv; unfold replay; by rewrite Hm].
    pose proof (discard_loop_view mid id cv (map_range (ns_Entries st1)).*1 _ Hk1 Hok1) as Hd.
    pose proof (discardCompacted_entries mid id cv _ Hk1) as Hf. unfold discardCompacted in *.
    destruct (fold_emit _ (ns_Entries st1) _) as [es1 wc]. simpl in *.
    specialize (IH (set_Entries es1 st1)). destruct (applyEntries _ _ _ es) as [st2 w]. simpl in *.
    rewrite (replay_metrics _ _ _ _ Hm), replay_app, <-Hv, Hd. apply IH; [| |done].
    + intros k x. rewrite Hf. intros [Hx _]%map_lookup_filter_Some. by apply Hk1.
    + intros k x. rewrite Hf. intros [Hx _]%map_lookup_filter_Some. by eapply Hok1.
  - specialize (IH st1 Hk1 Hok1 Hes'). destruct (applyEntries _ _ _ es) as [st2 w]. simpl in *.
    rewrite (replay_metrics _ _ _ _ Hm). rewrite <-IH, Hv. unfold replay. simpl.
    destruct (e_Deleted e); simpl; by rewrite decide_True.
Qed.

(** *** The operations of the owner together *)

Inductive owner_op :=
  | OpUpsert (key value : string)
  | OpDelete (key : string)
  | OpLeave
  | OpCompact (threshold : Z).

Definition run_op `{MapIter} (op : owner_op) (O : nodeState) : option (nodeState * list effect) :=
  match op with
  | OpUpsert key value => upsertNode key value O
  | OpDelete key => deleteNode key O
  | OpLeave => leaveNode O
  | OpCompact threshold => compactNode threshold O
  end.

(** The keys of the gossip layer are not for its users, and a compaction needs
    at least one deleted entry to look for. *)
Definition op_ok (op : owner_op) : Prop :=
  match op with
  | OpUpsert key _ | OpDelete key => user_key key
  | OpLeave => True
  | OpCompact threshold => (0 < threshold)%Z
  end.

(** Room for the versions an operation may use. *)
Definition room (O : nodeState) : Prop :=
  (version O + N.of_nat (size (ns_Entries O)) + 1 < 2 ^ 64)%N.

#[global] Instance room_dec O : Decision (room O).
Proof. unfold room. apply _. Defined.

Lemma run_op_step `{MapIter} op O O' effs :
  owner_wf O → op_ok op → room O → run_op op O = Some (O', effs) →
  owner_wf O' ∧ owner_step O O'.
Proof.
  unfold room. intros Hw Hok Hroom. destruct op; simpl in *.
  - apply upsertNode_step; [done..|lia].
  - apply deleteNode_step; [done..|lia].
  - apply leaveNode_step; [done|lia].
  - by apply compactNode_step.
Qed.

(** No operation panics. *)
Lemma run_op_total `{MapIter} op O : op_ok op → is_Some (run_op op O).
Proof.
  destruct op; simpl; intros Hok.
  - unfold upsertNode. case_decide; by eauto.
  - unfold deleteNode. repeat case_match; by eauto.
  - unfold leaveNode. case_match; by eauto.
  - unfold compactNode. case_decide as Hd; [by eauto|].
    destruct (last _) as [e|] eqn:Hl; simpl; [case_match; by eauto|].
    apply last_None in Hl. exfalso. apply Hd.
    assert ((map_range (ns_Entries O)).*2 = []) as ->; [|done].
    apply Permutation_nil. by rewrite <-Hl, (sort_by_perm _ _).
Qed.

Lemma owner_wf_new id addr : owner_wf (newNode id addr).
Proof.
  split; unfold version; simpl; [|lia|by intros; simplify_map_eq|].
  - split; unfold version; simpl; intros; simplify_map_eq.
  - rewrite lookup_empty. split; [done|by intros [? ?]].
Qed.

(** The delta of the owner itself brings a replica to the owner's version. *)
Lemma owner_delta_version `{MapIter} now id O R f :
  owner_wf O → replica_of O R → (f ≤ version R)%N →
  let R' := (applyEntries now id R (dl_Entries (deltaEntry_from O f))).1 in
  replica_of O R' ∧ version R' = version O.
Proof.
  intros Hown Hrep Hf R'.
  pose proof (deltaEntry_from_good O Hown O f (replica_of_refl _ Hown)) as Hg.
  destruct (applyEntries_replica now id O Hown _ _ R Hrep Hf Hg) as [Hrep' Hv].
  fold R' in Hrep', Hv. split; [done|]. pose proof (rep_version _ _ Hrep) as Hle.
  pose proof (rep_version _ _ Hrep') as Hle'.
  destruct (decide (version R = version O)) as [?|Hne]; [lia|].
  destruct (own_top _ Hown) as (k&e&He&Hev); [lia|].
  assert (e ∈ dl_Entries (deltaEntry_from O f)) as Hin.
  { simpl. rewrite elem_of_sort_by, list_elem_of_filter, elem_of_map_range_snd. split; [lia|eauto]. }
  pose proof (last_by_bound e_Version f _ _ (gd_sorted _ _ _ Hg) Hin). lia.
Qed.

(** ** Properties *)

(** C1. Anti-entropy converges: when a replica applies the delta its owner
    computes for the version the replica is at, it ends with exactly the
    owner's entries, version and left flag, whatever compactions happened in
    between. *)
Theorem replica_converges `{MapIter} now id O R :
  owner_wf O → replica_of O R →
  let R' := (applyEntries now id R (dl_Entries (deltaEntry_from O (version R)))).1 in
  ns_Entries R' = ns_Entries O ∧ version R' = version O ∧
  n_Left (ns_meta R') = n_Left (ns_meta O).
Proof.
  intros Hown Hrep R'.
  destruct (owner_delta_version now id O R (version R) Hown Hrep ltac:(done)) as [Hrep' Hv].
  eauto using replica_caught_up, replica_caught_up_left.
Qed.

(** Replication is safe: a replica that applies any truncation of a delta
    computed by any other replica (the owner or a relay), for any version the
    receiver had already reached, stays a replica of the owner and never goes
    back in version. *)
Theorem replica_relay `{MapIter} now id O S R f es rest :
  owner_wf O → replica_of O S → replica_of O R → (f ≤ version R)%N →
  dl_Entries (deltaEntry_from S f) = es ++ rest →
  let R' := (applyEntries now id R es).1 in replica_of O R' ∧ (version R ≤ version R')%N.
Proof.
  intros Hown HS HR Hf Hes R'.
  pose proof (deltaEntry_from_good O Hown S f HS) as Hg. rewrite Hes in Hg.
  apply good_delta_prefix in Hg; [|done].
  destruct (applyEntries_replica now id O Hown _ _ R HR Hf Hg) as [HR' Hv]. split; [done|].
  unfold R'. rewrite Hv. lia.
Qed.

(** Every local operation of the owner (upsert, delete, leave and
    compaction) returns without a panic, keeps the owner's state well formed
    and its replicas replicas, and never lowers its version, as long as the
    64-bit version does not wrap. *)
Theorem owner_operation_preserves_replicas `{MapIter} op O R :
  owner_wf O → replica_of O R → op_ok op → room O →
  ∃ O' effs, run_op op O = Some (O', effs) ∧
    owner_wf O' ∧ replica_of O' R ∧ (version O ≤ version O')%N.
Proof.
  intros Hown HR Hok Hroom. destruct (run_op_total op O Hok) as [[O' effs] Hrun].
  destruct (run_op_step op O O' effs) as [Hown' Hstep]; [done..|].
  exists O', effs. split_and!; [done..|by eapply replica_of_step|apply Hstep].
Qed.

(** The watcher mirrors a replica: replaying the [OnUpsertKey] and
    [OnDeleteKey] calls of a delta over the keys the watcher already knew gives
    the visible keys of the new state, including across a compaction. *)
Theorem watcher_mirrors_replica `{MapIter} now id st es :
  node_wf st → (∀ e, e ∈ es → entry_ok e) →
  replay id (view (ns_Entries st)) (applyEntries now id st es).2 =
  view (ns_Entries (applyEntries now id st es).1).
Proof.
  intros Hw Hes. apply applyEntries_view; [exact (wf_key _ Hw)|exact (wf_ok _ Hw)|done].
Qed.

(** A compaction that runs does not change what the node publishes: the
    visible keys keep their values, no deleted entry is left, every entry that
    is left is newer than every entry before, and the compaction entry carries
    the version before the compaction. *)
Theorem compaction_preserves_view `{MapIter} O O' threshold effs :
  owner_wf O → (version O + N.of_nat (size (ns_Entries O)) + 1 < 2 ^ 64)%N →
  compactNode threshold O = Some (O', effs) → O' ≠ O →
  view (ns_Entries O') = view (ns_Entries O) ∧
  (∀ k e, ns_Entries O' !! k = Some e → e_Deleted e = false ∧ (version O < e_Version e)%N) ∧
  floor (ns_Entries O') = version O.
Proof.
  intros Hown Hroom [?|HO']%compactNode_result Hne; [done| |done..]. rewrite HO'.
  split_and!; [by apply compacted_view| |by apply compacted_floor].
  intros k e He. split; [|by eapply compacted_above].
  apply compacted_lookup in He as [[_ ->]|(x&_&[? _]&->&_)%st1_entry]; done.
Qed.

(** ** Witnesses *)

#[local] Existing Instance canonical_iter.

(** A node that published two keys, deleted one and compacted. *)
Definition ex_run (ops : list owner_op) (O : nodeState) : nodeState :=
  foldl (λ O op, match run_op op O with Some (O', _) => O' | None => O end) O ops.

Definition ex_old : nodeState :=
  ex_run [OpUpsert "proxy_addr" "10.0.0.1:8000"; OpUpsert "endpoint:a" "1"] (newNode "n1" "10.0.0.1:8003").
Definition ex_new : nodeState :=
  ex_run [OpUpsert "endpoint:b" "2"; OpDelete "endpoint:a"; OpCompact 1; OpLeave] ex_old.

Lemma ex_run_step ops O :
  owner_wf O →
  Forall op_ok ops →
  (∀ ops1 op ops2, ops = ops1 ++ op :: ops2 → room (ex_run ops1 O)) →
  owner_wf (ex_run ops O) ∧ ∀ R, replica_of O R → replica_of (ex_run ops O) R.
Proof.
  revert O. induction ops as [|op ops IH]; intros O Hw Hok Hroom; [done|].
  apply Forall_cons in Hok as [Hop Hok]. simpl.
  destruct (run_op op O) as [[O' effs]|] eqn:Hrun.
  - destruct (run_op_step op O O' effs) as [Hw' Hstep]; [done|done|by apply (Hroom [] op ops)|done|].
    destruct (IH O') as [? HR]; [done|done| |].
    + intros ops1 op' ops2 ->. specialize (Hroom (op :: ops1) op' ops2 eq_refl). simpl in Hroom.
      by rewrite Hrun in Hroom.
    + split; [done|]. intros R HRO. by apply HR, (replica_of_step _ _ Hstep).
  - destruct (run_op_total op O Hop) as [? ?]. congruence.
Qed.

Lemma ex_room_prefix ops O :
  forallb (λ n, bool_decide (room (ex_run (take n ops) O))) (seq 0 (length ops)) = true →
  ∀ ops1 op ops2, ops = ops1 ++ op :: ops2 → room (ex_run ops1 O).
Proof.
  rewrite forallb_forall. intros Hall ops1 op ops2 ->.
  specialize (Hall (length ops1)). rewrite take_app_length in Hall.
  eapply bool_decide_eq_true, Hall. apply in_seq. rewrite length_app. simpl. lia.
Qed.

Lemma ex_old_wf : owner_wf ex_old.
Proof.
  apply ex_run_step; [apply owner_wf_new|by repeat constructor|].
  apply ex_room_prefix. by vm_compute.
Qed.

Lemma ex_new_wf : owner_wf ex_new ∧ replica_of ex_new ex_old.
Proof.
  destruct (ex_run_step [OpUpsert "endpoint:b" "2"; OpDelete "endpoint:a"; OpCompact 1; OpLeave] ex_old)
    as [? HR]; [apply ex_old_wf|by repeat constructor|apply ex_room_prefix; by vm_compute|].
  split; [done|]. apply HR, replica_of_refl, ex_old_wf.
Qed.

Lemma replica_converges_witness :
  owner_wf ex_new ∧ replica_of ex_new ex_old ∧
  version (applyEntries 5 "n1" ex_old
    (dl_Entries (deltaEntry_from ex_new (version ex_old)))).1 = version ex_new.
Proof.
  split; [apply ex_new_wf|split; [apply ex_new_wf|]].
  apply (replica_converges 5 "n1" ex_new ex_old); apply ex_new_wf.
Defined.

Lemma replica_relay_witness :
  replica_of ex_new (applyEntries 5 "n1" (newNode "n1" "10.0.0.1:8003")
    (take 1 (dl_Entries (deltaEntry_from ex_old 0)))).1.
Proof.
  apply (replica_relay 5 "n1" ex_new ex_old (newNode "n1" "10.0.0.1:8003") 0 _
    (drop 1 (dl_Entries (deltaEntry_from ex_old 0)))).
  - apply ex_new_wf.
  - apply ex_new_wf.
  - apply replica_of_new, ex_new_wf.
  - by vm_compute.
  - by rewrite take_drop.
Defined.

Lemma owner_operation_preserves_replicas_witness :
  ∃ O' effs, run_op (OpCompact 1) ex_new = Some (O', effs) ∧
    owner_wf O' ∧ replica_of O' ex_old ∧ (version ex_new ≤ version O')%N.
Proof.
  apply (owner_operation_preserves_replicas (OpCompact 1) ex_new ex_old).
  - apply ex_new_wf.
  - apply ex_new_wf.
  - done.
  - by apply (bool_decide_unpack _); vm_compute.
Defined.

Lemma watcher_mirrors_replica_witness :
  replay "n1" (view (ns_Entries ex_old))
    (applyEntries 5 "n1" ex_old
      (dl_Entries (deltaEntry_from ex_new (version ex_old)))).2 =
  view (ns_Entries (applyEntries 5 "n1" ex_old
      (dl_Entries (deltaEntry_from ex_new (version ex_old)))).1).
Proof.
  apply (watcher_mirrors_replica 5 "n1").
  - apply ex_old_wf.
  - apply (gd_ok ex_new (version ex_old)), deltaEntry_from_good, replica_of_refl; apply ex_new_wf.
Defined.

Definition ex_uncompacted : nodeState :=
  ex_run [OpUpsert "endpoint:b" "2"; OpDelete "endpoint:a"] ex_old.

Lemma ex_uncompacted_wf : owner_wf ex_uncompacted.
Proof.
  apply ex_run_step; [apply ex_old_wf|by repeat constructor|apply ex_room_prefix; by vm_compute].
Qed.

Lemma compaction_preserves_view_witness :
  ∃ O' effs, compactNode 1 ex_uncompacted = Some (O', effs) ∧
    view (ns_Entries O') = view (ns_Entries ex_uncompacted).
Proof.
  eexists _, _. split; [by vm_compute|].
  eapply (compaction_preserves_view ex_uncompacted _ 1).
  - apply ex_uncompacted_wf.
  - by vm_compute.
  - by vm_compute.
  - intros Heq%(f_equal version). by vm_compute in Heq.
Defined.
