(* ===== verification/GossipMembership.v ===== *)
(** * Membership: what a node knows of the others, and what it tells the watcher

    The invariant of [clusterState] ([state_wf]) and its preservation by every
    operation; the exact effect of expiry and of tombstones; and the contract
    with the [Watcher] interface: the calls an operation makes are a complete
    account of what changed about the remote nodes ([watch_call], [peers]). *)

From S2P Require Import Prelude GoLib GossipState GossipReplica.

(** ** Definitions *)

(** The operations of [clusterState] that change it. *)
Inductive state_op :=
  | SLocal (op : owner_op)
  | SApplyDigest (senderID : string) (d : digest)
  | SApplyDelta (now : time) (senderID : string) (d : delta)
  | SRemoveExpired (t : time)
  | SUpdateLiveness (now : time) (suspicionThreshold : float64).

Definition run_local `{MapIter} (op : owner_op) (s : clusterState) : option (clusterState * list effect) :=
  match op with
  | OpUpsert key value => UpsertLocal s key value
  | OpDelete key => DeleteLocal s key
  | OpLeave => LeaveLocal s
  | OpCompact threshold => CompactLocal s threshold
  end.

Definition run_state `{MapIter, FailureDetector D} (op : state_op) (s : clusterState) (d : D) :
    option (clusterState * D * list effect) :=
  match op with
  | SLocal op => '(s', effs) ← run_local op s; Some (s', d, effs)
  | SApplyDigest sender dg => let '(s', effs) := ApplyDigest s sender dg in Some (s', d, effs)
  | SApplyDelta now sender dl => let '(s', effs) := ApplyDelta now s sender dl in Some (s', d, effs)
  | SRemoveExpired t => let '(s', effs) := RemoveExpiredAt s t in Some (s', d, effs)
  | SUpdateLiveness now thr => UpdateLiveness now s d thr
  end.

(** The invariant: nodes are stored under their identifier, the local node is
    present and never expires, a remote node has an expiry exactly when it left
    or is unreachable, and a tombstoned node is not known. *)
Record state_wf (s : clusterState) : Prop := {
  swf_ids : ∀ id st, nodes s !! id = Some st → n_ID (ns_meta st) = id;
  swf_nodes : ∀ id st, nodes s !! id = Some st → node_wf st;
  swf_local : ∃ st, nodes s !! localID s = Some st ∧ owner_wf st ∧
    n_Expiry (ns_meta st) = zero_time ∧ n_Unreachable (ns_meta st) = false;
  swf_expiry : ∀ id st, nodes s !! id = Some st → id ≠ localID s →
    (n_Expiry (ns_meta st) = zero_time ↔
     n_Left (ns_meta st) = false ∧ n_Unreachable (ns_meta st) = false);
  swf_tombstones : ∀ id, is_Some (tombstones s !! id) → nodes s !! id = None;
}.

(** What an operation needs of its arguments: user keys, room for the next
    versions, clocks after the zero time, and deltas whose internal flags agree
    with their keys. *)
Definition state_op_ok (s : clusterState) (op : state_op) : Prop :=
  match op with
  | SLocal op => op_ok op ∧ ∀ st, nodes s !! localID s = Some st → room st
  | SApplyDigest _ _ => True
  | SApplyDelta now _ d => (0 ≤ now)%Z ∧ ∀ de e, de ∈ d → e ∈ dl_Entries de → entry_ok e
  | SRemoveExpired t => (0 ≤ t)%Z
  | SUpdateLiveness now _ => (0 ≤ now)%Z
  end.

(** What a watcher can know of a remote node. *)
Record peer := mkPeer {
  p_view : gmap string string;
  p_left : bool;
  p_unreachable : bool;
}.

Definition peer_of (st : nodeState) : peer :=
  mkPeer (view (ns_Entries st)) (n_Left (ns_meta st)) (n_Unreachable (ns_meta st)).

Definition peers (s : clusterState) : gmap string peer := peer_of <$> delete (localID s) (nodes s).

Definition watch_call (m : gmap string peer) (c : watcher_call) : gmap string peer :=
  match c with
  | OnJoin id => <[id := mkPeer ∅ false false]> m
  | OnLeave id => alter (λ p, mkPeer (p_view p) true (p_unreachable p)) id m
  | OnReachable id => alter (λ p, mkPeer (p_view p) (p_left p) false) id m
  | OnUnreachable id => alter (λ p, mkPeer (p_view p) (p_left p) true) id m
  | OnUpsertKey id k v => alter (λ p, mkPeer (<[k := v]> (p_view p)) (p_left p) (p_unreachable p)) id m
  | OnDeleteKey id k => alter (λ p, mkPeer (delete k (p_view p)) (p_left p) (p_unreachable p)) id m
  | OnExpired id => delete id m
  end.

Definition watch (m : gmap string peer) (effs : list effect) : gmap string peer :=
  foldl watch_call m (calls effs).

(** The calls one delta entry of node [id] may cause. *)
Definition entry_call (id : string) (c : watcher_call) : Prop :=
  match c with
  | OnLeave id' | OnUpsertKey id' _ _ | OnDeleteKey id' _ => id' = id
  | _ => False
  end.

(** ** Lemmas on [applyEntries] *)

Lemma watch_app m effs1 effs2 : watch m (effs1 ++ effs2) = watch (watch m effs1) effs2.
Proof. unfold watch. by rewrite calls_app, foldl_app. Qed.

Lemma discard_calls mid id cv es l :
  Forall (λ c, ∃ k, c = OnDeleteKey id k) (calls (fold_emit (discardEntry mid id cv) es l).2).
Proof.
  revert es. induction l as [|k l IH]; intros es; simpl; [constructor|].
  assert (Forall (λ c, ∃ k, c = OnDeleteKey id k) (calls (discardEntry mid id cv es k).2)) as Hd.
  { unfold discardEntry. destruct (es !! k) as [e|]; [|constructor]. case_decide; [|constructor].
    simpl. destruct (e_Deleted e); simpl; repeat constructor. by eexists. }
  destruct (discardEntry mid id cv es k) as [es1 w1]. specialize (IH es1).
  destruct (fold_emit _ es1 l) as [es2 w2]. simpl in *. rewrite calls_app. by apply Forall_app.
Qed.

(** An induction principle for [applyEntries]: one case for each way an entry
    is handled. *)
Section applyEntries_ind.
Context `{MapIter} (now : time) (id : string) (P : nodeState → list Entry → nodeState → list effect → Prop).
Context (Pnil : ∀ st, P st [] st []).
Context (Pskip : ∀ st e es st' w, (e_Version e ≤ version st)%N → P st es st' w → P st (e :: es) st' w).
Context (Pleft : ∀ st e es st' w w1, calls w1 = [] → e_Internal e = true → e_Key e = leftKey →
  P (set_Expiry (now + nodeExpiry) (set_Left (put_entry e st))) es st' w →
  P st (e :: es) st' (w1 ++ [Watch (OnLeave id)] ++ w)).
Context (Pstop : ∀ st e es w1, calls w1 = [] → e_Internal e = true →
  P st (e :: es) (put_entry e st) w1).
Context (Pcompact : ∀ st e es es1 st' w w1 w2, calls w1 = [] → e_Internal e = true →
  Forall (λ c, ∃ k, c = OnDeleteKey id k) (calls w2) →
  P (set_Entries es1 (put_entry e st)) es st' w → P st (e :: es) st' (w1 ++ w2 ++ w)).
Context (Pother : ∀ st e es st' w w1, calls w1 = [] → e_Internal e = true →
  P (put_entry e st) es st' w → P st (e :: es) st' (w1 ++ w)).
Context (Pkey : ∀ st e es st' w w1 c, calls w1 = [] → e_Internal e = false →
  (c = OnDeleteKey id (e_Key e) ∨ e_Deleted e = false ∧ c = OnUpsertKey id (e_Key e) (e_Value e)) →
  P (put_entry e st) es st' w → P st (e :: es) st' (w1 ++ [Watch c] ++ w)).

Lemma applyEntries_case st es :
  P st es (applyEntries now id st es).1 (applyEntries now id st es).2.
Proof.
  revert st. induction es as [|e es IH]; intros st; [apply Pnil|]. cbn [applyEntries]. cbv zeta.
  case_decide; [by apply Pskip|].
  pose proof (calls_metricsUpsertEntry (n_ID (ns_meta st)) e
    (default zero_entry (ns_Entries st !! e_Key e))) as Hm.
  destruct (e_Internal e) eqn:HI.
  - case_decide.
    { specialize (IH (set_Expiry (now + nodeExpiry) (set_Left (put_entry e st)))).
      destruct (applyEntries _ _ _ es) as [st' w]. by apply Pleft. }
    case_decide.
    2:{ specialize (IH (put_entry e st)). destruct (applyEntries _ _ _ es) as [st' w]. by apply Pother. }
    destruct (ParseUint (e_Value e)) as [cv|]; [|by apply Pstop].
    pose proof (discard_calls (n_ID (ns_meta st)) id cv (ns_Entries (put_entry e st))
      (map_range (ns_Entries (put_entry e st))).*1) as Hd.
    fold (discardCompacted (n_ID (ns_meta st)) id cv (ns_Entries (put_entry e st))) in Hd.
    destruct (discardCompacted _ _ _ _) as [es1 w2]. specialize (IH (set_Entries es1 (put_entry e st))).
    destruct (applyEntries _ _ _ es) as [st' w]. by apply (Pcompact _ _ _ es1).
  - specialize (IH (put_entry e st)). destruct (applyEntries _ _ _ es) as [st' w].
    apply Pkey; try done. destruct (e_Deleted e) eqn:?; [by left|by right].
Qed.
End applyEntries_ind.

(** The calls are about the node of the delta entry only. *)
Lemma applyEntries_calls `{MapIter} now id st es :
  Forall (entry_call id) (calls (applyEntries now id st es).2).
Proof.
  apply (applyEntries_case now id (λ _ _ _ w, Forall (entry_call id) (calls w))).
  - constructor.
  - done.
  - intros ?? es0 ? w w1 Hm _ _ Hw. rewrite calls_app, Hm. by constructor.
  - intros ?? es0 w1 -> _. constructor.
  - intros ?? es0 ?? w w1 w2 Hm _ Hd Hw. rewrite !calls_app, Hm. simpl. apply Forall_app. split; [|done].
    eapply Forall_impl; [done|]. by intros ? [k ->].
  - intros ?? es0 ? w w1 Hm _ Hw. by rewrite calls_app, Hm.
  - intros ?? es0 ? w w1 c Hm _ Hc Hw. rewrite calls_app, Hm. constructor; [|done]. by destruct Hc as [-> | [_ ->]].
Qed.

(** The metadata after applying entries: only the version, the left flag and
    the expiry may change, and a node that leaves expires later. *)
Definition has_left (id : string) (effs : list effect) : bool :=
  bool_decide (OnLeave id ∈ calls effs).

Lemma has_left_app id effs1 effs2 : has_left id (effs1 ++ effs2) = has_left id effs1 || has_left id effs2.
Proof.
  unfold has_left. rewrite calls_app. rewrite <-bool_decide_or.
  apply bool_decide_ext. apply elem_of_app.
Qed.

Record meta_after (now : time) (id : string) (st st' : nodeState) (w : list effect) : Prop := {
  ma_id : n_ID (ns_meta st') = n_ID (ns_meta st);
  ma_addr : n_Addr (ns_meta st') = n_Addr (ns_meta st);
  ma_unreachable : n_Unreachable (ns_meta st') = n_Unreachable (ns_meta st);
  ma_left : n_Left (ns_meta st') = n_Left (ns_meta st) || has_left id w;
  ma_expiry : n_Expiry (ns_meta st') =
    if has_left id w then (now + nodeExpiry)%Z else n_Expiry (ns_meta st);
}.

Lemma meta_after_quiet now id st st0 st' w1 w :
  n_ID (ns_meta st0) = n_ID (ns_meta st) → n_Addr (ns_meta st0) = n_Addr (ns_meta st) →
  n_Unreachable (ns_meta st0) = n_Unreachable (ns_meta st) →
  n_Left (ns_meta st0) = n_Left (ns_meta st) → n_Expiry (ns_meta st0) = n_Expiry (ns_meta st) →
  has_left id w1 = false → meta_after now id st0 st' w → meta_after now id st st' (w1 ++ w).
Proof.
  intros E1 E2 E3 E4 E5 Hw1 [? ? ? Hl He].
  split; rewrite ?has_left_app, ?Hw1; simpl; rewrite <-?E4, <-?E5; congruence.
Qed.

Lemma has_left_nil id w : calls w = [] → has_left id w = false.
Proof. unfold has_left. intros ->. apply bool_decide_eq_false. set_solver. Qed.

Lemma applyEntries_meta `{MapIter} now id st es :
  meta_after now id st (applyEntries now id st es).1 (applyEntries now id st es).2.
Proof.
  apply (applyEntries_case now id (λ st _ st' w, meta_after now id st st' w)).
  - intros ?. split; try done. by rewrite orb_false_r.
  - done.
  - intros ?? es0 ? w w1 Hm _ _ [? ? ? Hl He]. apply has_left_nil with (id := id) in Hm.
    assert (has_left id (w1 ++ [Watch (OnLeave id)] ++ w) = true) as Hh.
    { unfold has_left. apply bool_decide_eq_true. rewrite !calls_app. set_solver. }
    split; try done; rewrite Hh.
    + rewrite Hl. simpl. by rewrite orb_true_r.
    + rewrite He. simpl. by case_match.
  - intros ?? es0 w1 Hm _. split; try done; rewrite has_left_nil by done; [by rewrite orb_false_r|done].
  - intros ?? es0 ?? w w1 w2 Hm _ Hd Hs. rewrite app_assoc. eapply meta_after_quiet, Hs; try done.
    unfold has_left. rewrite calls_app, Hm. apply bool_decide_eq_false.
    intros Hin. rewrite Forall_forall in Hd. by apply Hd in Hin as [? ?].
  - intros ?? es0 ? w w1 Hm _ Hs. eapply meta_after_quiet, Hs; try done. by apply has_left_nil.
  - intros ?? es0 ? w w1 c Hm _ Hc Hs. rewrite app_assoc. eapply meta_after_quiet, Hs; try done.
    unfold has_left. rewrite calls_app, Hm. apply bool_decide_eq_false.
    destruct Hc as [-> | [_ ->]]; set_solver.
Qed.

Lemma applyEntries_wf `{MapIter} now id st es :
  node_wf st → (∀ e, e ∈ es → entry_ok e) → node_wf (applyEntries now id st es).1.
Proof.
  revert st. induction es as [|e es IH]; intros st Hw Hes; [done|].
  assert (entry_ok e) as He by (apply Hes; left).
  assert (∀ x, x ∈ es → entry_ok x) as Hes' by set_solver.
  destruct (decide (e_Version e ≤ version st)%N) as [Hle|Hlt].
  { rewrite applyEntries_skip by done. by apply IH. }
  assert (node_wf (accepted now e st)) as Hacc by (apply accepted_wf; [done..|lia]).
  destruct (decide (e_Internal e = true ∧ e_Key e = compactKey ∧ ParseUint (e_Value e) = None))
    as [(HI&Hk&Hp)|Hn].
  - unfold accepted in Hacc. simpl. unfold version in *. rewrite decide_False by done.
    rewrite HI, Hk, Hp in *. simpl in *. done.
  - rewrite applyEntries_accept; [by apply IH|exact (wf_key _ Hw)|lia|].
    intros HI Hk. destruct (ParseUint (e_Value e)) eqn:Hp; [by eauto|]. tauto.
Qed.

(** ** The effect of the calls on the watcher *)

Lemma watch_entry_calls id w m p :
  Forall (entry_call id) (calls w) → m !! id = Some p →
  watch m w = <[id := mkPeer (replay id (p_view p) w) (p_left p || has_left id w) (p_unreachable p)]> m.
Proof.
  unfold watch, replay, has_left. generalize (calls w). clear w.
  intros cs. revert m p. induction cs as [|c cs IH]; intros m p Hc Hp.
  { rewrite bool_decide_false by set_solver. rewrite orb_false_r.
    destruct p. by rewrite insert_id. }
  apply Forall_cons in Hc as [Hc Hcs]. simpl.
  assert (∃ p1, watch_call m c = <[id := p1]> m ∧
    p_view p1 = replay_call id (p_view p) c ∧ p_left p1 = p_left p || bool_decide (c = OnLeave id) ∧
    p_unreachable p1 = p_unreachable p) as (p1 & -> & Hv & Hl & Hu).
  { destruct c; try done; simpl in Hc; subst; simpl; rewrite ?(decide_True _ _ eq_refl);
      (eexists; split; [apply map_eq; intros k; destruct (decide (k = id)) as [->|];
        [rewrite lookup_alter_eq, Hp, lookup_insert_eq; done
        |by rewrite lookup_alter_ne, lookup_insert_ne]|]); simpl; split_and!; try done.
    - by rewrite bool_decide_true, orb_true_r.
    - by rewrite orb_false_r.
    - by rewrite orb_false_r. }
  rewrite (IH _ p1) by (done || apply lookup_insert_eq). rewrite insert_insert_eq, Hv, Hl, Hu.
  f_equal. f_equal. rewrite <-orb_assoc, <-bool_decide_or. f_equal. apply bool_decide_ext.
  rewrite elem_of_cons. naive_solver.
Qed.

(** What an operation guarantees: from a well-formed state it leads to one, and
    its calls tell a watcher everything about the remote nodes. *)
Definition tracked (s s' : clusterState) (effs : list effect) : Prop :=
  state_wf s → localID s' = localID s ∧ state_wf s' ∧ watch (peers s) effs = peers s'.

Lemma tracked_refl s : tracked s s [].
Proof. by intros Hs. Qed.

Lemma tracked_trans s1 s2 s3 w1 w2 : tracked s1 s2 w1 → tracked s2 s3 w2 → tracked s1 s3 (w1 ++ w2).
Proof.
  intros H1 H2 Hs. destruct (H1 Hs) as (E1&Hs2&W1), (H2 Hs2) as (E2&Hs3&W2).
  split_and!; [congruence|done|]. by rewrite watch_app, W1.
Qed.

Lemma swf_local_ID s : state_wf s → is_Some (nodes s !! localID s).
Proof. intros Hs. destruct (swf_local _ Hs) as (st&?&_). by exists st. Qed.

(** Replacing or adding a remote node, possibly with fewer tombstones. *)
Lemma put_remote_wf s id st tombs :
  state_wf s → id ≠ localID s → n_ID (ns_meta st) = id → node_wf st →
  (n_Expiry (ns_meta st) = zero_time ↔
     n_Left (ns_meta st) = false ∧ n_Unreachable (ns_meta st) = false) →
  tombs ⊆ tombstones s → tombs !! id = None →
  state_wf (mkState (localID s) (<[id := st]> (nodes s)) tombs).
Proof.
  intros Hs Hne Hid Hw Hexp Hsub Htomb. split; simpl.
  - intros k x. rewrite lookup_insert. case_decide; [naive_solver|]. by apply swf_ids.
  - intros k x. rewrite lookup_insert. case_decide; [naive_solver|]. by apply swf_nodes.
  - rewrite lookup_insert_ne by done. apply (swf_local _ Hs).
  - intros k x. rewrite lookup_insert. case_decide; [naive_solver|]. by apply swf_expiry.
  - intros k [t Ht]. rewrite lookup_insert_ne by congruence.
    apply (swf_tombstones _ Hs). exists t. by eapply lookup_weaken.
Qed.

Lemma peers_put_remote s id st tombs :
  id ≠ localID s →
  peers (mkState (localID s) (<[id := st]> (nodes s)) tombs) = <[id := peer_of st]> (peers s).
Proof. intros Hne. unfold peers. simpl. by rewrite delete_insert_ne, fmap_insert. Qed.

Lemma lookup_peers s id : id ≠ localID s → peers s !! id = peer_of <$> nodes s !! id.
Proof. intros Hne. unfold peers. by rewrite lookup_fmap, lookup_delete_ne. Qed.

(** Storing a node whose entries were applied. *)
Lemma put_applied s id st tombs w0 now es `{MapIter} :
  (0 ≤ now)%Z → (∀ e, e ∈ es → entry_ok e) → state_wf s → id ≠ localID s →
  tombs ⊆ tombstones s → tombs !! id = None →
  n_ID (ns_meta st) = id → node_wf st →
  (n_Expiry (ns_meta st) = zero_time ↔ n_Left (ns_meta st) = false ∧ n_Unreachable (ns_meta st) = false) →
  watch (peers s) w0 = <[id := peer_of st]> (peers s) →
  let '(st', w) := applyEntries now id st es in
  let s' := mkState (localID s) (<[id := st']> (nodes s)) tombs in
  state_wf s' ∧ watch (peers s) (w0 ++ w) = peers s'.
Proof.
  intros Hnow Hes Hs Hne Hsub Htomb Hid Hw Hexp Hw0.
  pose proof (applyEntries_wf now id st es Hw Hes) as Hw'.
  pose proof (applyEntries_meta now id st es) as [Hmid _ Hmu Hml Hme].
  pose proof (applyEntries_view now id st es (wf_key _ Hw) (wf_ok _ Hw) Hes) as Hv.
  pose proof (applyEntries_calls now id st es) as Hc.
  destruct (applyEntries now id st es) as [st' w]. simpl in *. split.
  - apply put_remote_wf; [done|done|congruence|done| |done|done].
    rewrite Hme, Hml, Hmu. destruct (has_left id w).
    + rewrite orb_true_r. split; [|by intros [? ?]]. intros Hz. exfalso.
      assert (0 < nodeExpiry)%Z by done. unfold zero_time in Hz. lia.
    + by rewrite orb_false_r.
  - rewrite watch_app, Hw0, peers_put_remote by done.
    rewrite (watch_entry_calls id w _ (peer_of st)) by (done || apply lookup_insert_eq).
    rewrite insert_insert_eq. f_equal. unfold peer_of. simpl. congruence.
Qed.

Lemma tombstoned_spec tombs id sender :
  let '(dead, tombs') := tombstoned tombs id sender in
  tombs' ⊆ tombs ∧ (dead = true → tombs' = tombs) ∧ (dead = false → tombs' !! id = None).
Proof.
  unfold tombstoned. destruct (tombs !! id) eqn:Ht; [case_decide|]; split_and!; try done.
  - apply delete_subseteq.
  - intros _. apply lookup_delete_eq.
Qed.

Lemma newNode_wf id addr : node_wf (newNode id addr).
Proof. split; unfold version; simpl; intros; simplify_map_eq. Qed.

(** A node with the same identity and fewer tombstones. *)
Lemma drop_tombstones_wf s tombs :
  state_wf s → tombs ⊆ tombstones s → state_wf (mkState (localID s) (nodes s) tombs).
Proof.
  intros Hs Hsub. split; try apply Hs. simpl. intros id [t Ht]. apply (swf_tombstones _ Hs).
  exists t. by eapply lookup_weaken.
Qed.

Lemma lookup_ne_local s id : state_wf s → nodes s !! id = None → id ≠ localID s.
Proof. intros Hs Hn ->. destruct (swf_local_ID _ Hs) as [? ?]. congruence. Qed.

Lemma watch_join s id addr :
  watch (peers s) [Watch (OnJoin id)] = <[id := peer_of (newNode id addr)]> (peers s).
Proof. done. Qed.

(** ** Every operation is tracked *)

Lemma applyDigestEntry_tracked sender s entry :
  tracked s (applyDigestEntry sender s entry).1 (applyDigestEntry sender s entry).2.
Proof.
  intros Hs. unfold applyDigestEntry.
  destruct (nodes s !! dg_ID entry) eqn:Hn; [done|]. destruct (dg_Left entry); [done|].
  pose proof (tombstoned_spec (tombstones s) (dg_ID entry) sender) as Ht.
  destruct (tombstoned _ _ _) as [dead tombs]. destruct Ht as (Hsub&Hdead&Hlive).
  destruct dead; simpl.
  { rewrite Hdead by done. split_and!; [done| |done]. by destruct s. }
  split_and!; [done| |by rewrite peers_put_remote by by apply lookup_ne_local].
  apply put_remote_wf; try done; [by apply lookup_ne_local|by apply Hlive].
Qed.

Lemma applyDeltaEntry_tracked `{MapIter} now sender s entry :
  (0 ≤ now)%Z → (∀ e, e ∈ dl_Entries entry → entry_ok e) →
  tracked s (applyDeltaEntry now sender s entry).1 (applyDeltaEntry now sender s entry).2.
Proof.
  intros Hnow Hes Hs. unfold applyDeltaEntry. case_decide as Hne; [done|].
  destruct (nodes s !! dl_ID entry) as [st|] eqn:Hn.
  - assert (tombstones s !! dl_ID entry = None) as Ht.
    { apply eq_None_not_Some. intros ?%(swf_tombstones _ Hs). congruence. }
    pose proof (put_applied s (dl_ID entry) st (tombstones s) [] now _ Hnow Hes Hs Hne
      ltac:(done) Ht (swf_ids _ Hs _ _ Hn) (swf_nodes _ Hs _ _ Hn) (swf_expiry _ Hs _ _ Hn Hne)) as Hp.
    rewrite insert_id in Hp by by rewrite lookup_peers, Hn. specialize (Hp eq_refl).
    destruct (applyEntries _ _ st _) as [st' w]. simpl in *. by destruct Hp.
  - pose proof (tombstoned_spec (tombstones s) (dl_ID entry) sender) as Ht.
    destruct (tombstoned _ _ _) as [dead tombs]. destruct Ht as (Hsub&Hdead&Hlive).
    destruct dead; simpl.
    { rewrite Hdead by done. split_and!; [done| |done]. by destruct s. }
    pose proof (put_applied s (dl_ID entry) (newNode (dl_ID entry) (dl_Addr entry)) tombs
      [Watch (OnJoin (dl_ID entry))] now _ Hnow Hes Hs Hne Hsub (Hlive eq_refl) eq_refl
      (newNode_wf _ _) ltac:(done) ltac:(done)) as Hp.
    destruct (applyEntries _ _ (newNode _ _) _) as [st' w]. simpl in *. by destruct Hp.
Qed.

Lemma removeNode_tracked t s id :
  id ≠ localID s → tracked s (removeNode t s id).1 (removeNode t s id).2.
Proof.
  intros Hne Hs. simpl. split_and!; [done| |].
  - split; simpl.
    + intros k x [_ ?]%lookup_delete_Some. by eapply swf_ids.
    + intros k x [_ ?]%lookup_delete_Some. by eapply swf_nodes.
    + rewrite lookup_delete_ne by done. apply (swf_local _ Hs).
    + intros k x [_ ?]%lookup_delete_Some. by apply (swf_expiry _ Hs).
    + intros k Hk. destruct (decide (k = id)) as [->|Hkid]; [apply lookup_delete_eq|].
      rewrite lookup_delete_ne by done. rewrite lookup_insert_ne in Hk by done.
      by apply (swf_tombstones _ Hs).
  - unfold watch, peers. simpl. by rewrite <-fmap_delete, delete_delete.
Qed.

(** Expiry never removes the local node. *)
Lemma expired_not_local s t id `{MapIter} :
  state_wf s →
  id ∈ (λ st, n_ID (ns_meta st)) <$> filter (expired_at t) (map_range (nodes s)).*2 →
  id ≠ localID s ∧ ∃ st, nodes s !! id = Some st ∧ expired_at t st.
Proof.
  intros Hs (st & -> & [Hexp [k Hk]%elem_of_map_range_snd]%list_elem_of_filter)%list_elem_of_fmap.
  pose proof (swf_ids _ Hs _ _ Hk) as Hid. split; [|rewrite Hid; eauto]. rewrite Hid. intros ->.
  destruct (swf_local _ Hs) as (st0&Hst0&_&Hz&_). destruct Hexp as [Hexp _].
  simplify_eq. by rewrite Hz in Hexp.
Qed.

Lemma fold_removeNode_tracked t s ids :
  (∀ id, id ∈ ids → id ≠ localID s) →
  tracked s (fold_emit (removeNode t) s ids).1 (fold_emit (removeNode t) s ids).2.
Proof.
  revert s. induction ids as [|id ids IH]; intros s Hids; [apply tracked_refl|].
  pose proof (removeNode_tracked t s id (Hids id ltac:(left))) as H1.
  specialize (IH (removeNode t s id).1). simpl in *.
  assert (∀ i, i ∈ ids → i ≠ localID s) as Hids' by (intros; apply Hids; by right).
  specialize (IH Hids'). destruct (fold_emit _ _ ids) as [s2 w2]. simpl in *.
  exact (tracked_trans _ _ _ _ _ H1 IH).
Qed.

Lemma RemoveExpiredAt_tracked `{MapIter} s t :
  tracked s (RemoveExpiredAt s t).1 (RemoveExpiredAt s t).2.
Proof.
  intros Hs. unfold RemoveExpiredAt.
  set (tombs := filter _ (tombstones s)).
  apply (tracked_trans s (mkState (localID s) (nodes s) tombs) _ []); [|apply fold_removeNode_tracked|done].
  - intros _. split_and!; [done| |done]. apply drop_tombstones_wf; [done|apply map_filter_subseteq].
  - intros id [Hid _]%expired_not_local; done.
Qed.

(** *** Liveness *)

Section liveness.
Context `{FailureDetector D} (now : time) (thr : float64) (Hnow : (0 ≤ now)%Z).

Lemma updateNodeLiveness_tracked s d key node s' d' effs :
  nodes s !! key = Some node → updateNodeLiveness now thr s d key node = Some (s', d', effs) →
  tracked s s' effs ∧ ∀ k, k ≠ key → nodes s' !! k = nodes s !! k.
Proof.
  intros Hk Hu. unfold updateNodeLiveness in Hu. case_decide as Hskip.
  { simplify_eq. split; [apply tracked_refl|done]. }
  apply Decidable.not_or in Hskip as [Hlocal Hleft%not_true_is_false].
  destruct (SuspicionLevel _ _ _) as [[lvl d1]|]; [|done]. simpl in Hu.
  assert (∀ b t, (t = zero_time ↔ b = false) →
    tracked s (set_node key (set_Expiry t (set_Unreachable b node)) s)
      [Watch (if b then OnUnreachable (n_ID (ns_meta node)) else OnReachable (n_ID (ns_meta node)))])
    as Hset.
  { intros b t Hbt Hs. pose proof (swf_ids _ Hs _ _ Hk) as Hid. rewrite Hid in *.
    split_and!; [done| |].
    - apply put_remote_wf; try done; simpl.
      + pose proof (swf_nodes _ Hs _ _ Hk) as [? ? ? ?]. by split.
      + rewrite Hleft, Hbt. tauto.
      + apply eq_None_not_Some. intros ?%(swf_tombstones _ Hs). congruence.
    - unfold set_node. rewrite peers_put_remote by done. unfold watch. simpl.
      apply map_eq. intros k. destruct (decide (k = key)) as [->|Hne].
      + rewrite lookup_insert_eq. destruct b; simpl; rewrite lookup_alter_eq, lookup_peers, Hk by done; done.
      + rewrite lookup_insert_ne by done. by destruct b; simpl; rewrite lookup_alter_ne. }
  assert (0 < nodeExpiry)%Z by done.
  destruct (flt thr lvl), (n_Unreachable (ns_meta node)); simplify_eq;
    (split; [first [apply tracked_refl|eapply (Hset true)|eapply (Hset false)]
            |try done; intros k Hne; simpl; by rewrite lookup_insert_ne]); try done.
  unfold zero_time. split; [|done]. lia.
Qed.

Lemma updateLiveness_loop_tracked l s d s' d' effs :
  NoDup l.*1 → Forall (λ p, nodes s !! p.1 = Some p.2) l →
  updateLiveness_loop now thr s d l = Some (s', d', effs) → tracked s s' effs.
Proof.
  revert s d s' d' effs. induction l as [|[key node] l IH]; intros s d s' d' effs Hnd Hl Hu; simpl in Hu.
  { simplify_eq. apply tracked_refl. }
  apply NoDup_cons in Hnd as [Hnin Hnd]. apply Forall_cons in Hl as [Hk Hl].
  destruct (updateNodeLiveness _ _ _ _ _ _) as [[[s1 d1] e1]|] eqn:H1; [|done]. simpl in Hu.
  destruct (updateLiveness_loop _ _ _ _ _) as [[[s2 d2] e2]|] eqn:H2; [|done]. simplify_eq/=.
  apply updateNodeLiveness_tracked in H1 as [H1 Hother]; [|done].
  eapply tracked_trans; [done|]. eapply IH; [done| |done].
  rewrite Forall_forall in Hl |- *. intros p Hp. rewrite Hother; [by apply Hl|].
  intros <-. apply Hnin. by apply list_elem_of_fmap_2.
Qed.
End liveness.

Lemma UpdateLiveness_tracked `{MapIter, FailureDetector D} now s d thr s' d' effs :
  (0 ≤ now)%Z → UpdateLiveness now s d thr = Some (s', d', effs) → tracked s s' effs.
Proof.
  intros Hnow. apply updateLiveness_loop_tracked; [done|apply NoDup_map_range_fst|].
  rewrite Forall_forall. intros [k st]. by rewrite elem_of_map_range.
Qed.

(** *** Local operations *)

(** The local operations call no watcher and keep the identity, the expiry and
    the reachability of the node. *)
Definition quiet (st st' : nodeState) (w : list effect) : Prop :=
  calls w = [] ∧ n_ID (ns_meta st') = n_ID (ns_meta st) ∧
  n_Expiry (ns_meta st') = n_Expiry (ns_meta st) ∧
  n_Unreachable (ns_meta st') = n_Unreachable (ns_meta st).

Lemma reversionEntry_quiet st e : quiet st (reversionEntry st e).1 (reversionEntry st e).2.
Proof. unfold reversionEntry. repeat (case_match || case_decide); done. Qed.

Lemma fold_reversion_quiet es st :
  quiet st (fold_emit reversionEntry st es).1 (fold_emit reversionEntry st es).2.
Proof.
  apply (fold_emit_rel quiet); [done| |intros; apply reversionEntry_quiet].
  intros s1 s2 s3 w1 w2 (C1&?&?&?) (C2&?&?&?). unfold quiet. rewrite calls_app, C1, C2.
  split_and!; [done|congruence..].
Qed.

Lemma run_op_quiet `{MapIter} op O O' effs : run_op op O = Some (O', effs) → quiet O O' effs.
Proof.
  destruct op; simpl.
  - unfold upsertNode. case_decide; intros [= <- <-]; [done|].
    split; [apply calls_metricsUpsertEntry|done].
  - unfold deleteNode. destruct (ns_Entries O !! key) as [e|]; [|by intros [= <- <-]].
    destruct (e_Deleted e); intros [= <- <-]; [done|]. split; [apply calls_metricsUpsertEntry|done].
  - unfold leaveNode. destruct (n_Left (ns_meta O)); by intros [= <- <-].
  - unfold compactNode. case_decide; [by intros [= <- <-]|].
    destruct (last _) as [e|]; [|done]. simpl.
    pose proof (fold_reversion_quiet (sort_by e_Version (map_range (ns_Entries O)).*2) (set_Entries ∅ O)) as Hq.
    destruct (fold_emit _ _ _) as [st1 w1]. destruct Hq as (C&Q). intros [= <- <-].
    split; [|done]. simpl in C |- *. by rewrite calls_app, C.
Qed.

Lemma run_local_with `{MapIter} op s : run_local op s = with_local s (run_op op).
Proof. by destruct op. Qed.

Lemma run_local_tracked `{MapIter} op s s' effs :
  state_op_ok s (SLocal op) → run_local op s = Some (s', effs) → tracked s s' effs.
Proof.
  intros [Hop Hroom] Hrun Hs. destruct (swf_local _ Hs) as (st & Hst & Hown & Hexp & Hunr).
  rewrite run_local_with in Hrun. unfold with_local in Hrun. rewrite Hst in Hrun. simpl in Hrun.
  destruct (run_op op st) as [[st' w]|] eqn:Hop'; [|done]. simplify_eq/=.
  destruct (run_op_quiet _ _ _ _ Hop') as (Hc&Hid&He&Hu).
  destruct (run_op_step op st st' effs) as [Hown' _]; [done|done|by apply Hroom|done|].
  split_and!; [done| |].
  - split; simpl.
    + intros k x. rewrite lookup_insert. case_decide; [|by apply swf_ids].
      intros [= <-]. rewrite Hid. subst. by apply (swf_ids _ Hs).
    + intros k x. rewrite lookup_insert. case_decide; [|by apply (swf_nodes _ Hs)].
      intros [= <-]. apply Hown'.
    + exists st'. rewrite lookup_insert_eq. split_and!; [done|done|congruence..].
    + intros k x. rewrite lookup_insert. case_decide; [done|]. by apply (swf_expiry _ Hs).
    + intros k Hk. pose proof (swf_tombstones _ Hs _ Hk).
      rewrite lookup_insert_ne; [done|]. intros <-. congruence.
  - unfold watch, peers. rewrite Hc. simpl. by rewrite delete_insert_eq.
Qed.

Lemma run_state_tracked `{MapIter, FailureDetector D} op s (d : D) s' d' effs :
  state_op_ok s op → run_state op s d = Some (s', d', effs) → tracked s s' effs.
Proof.
  destruct op; simpl.
  - intros Hok. destruct (run_local op s) as [[s1 w1]|] eqn:Hrun; [|done]. intros [= -> _ ->].
    by eapply run_local_tracked.
  - intros _. destruct (ApplyDigest s senderID d0) as [s1 w1] eqn:Hrun. intros [= -> _ ->].
    replace s' with (ApplyDigest s senderID d0).1 by by rewrite Hrun.
    replace effs with (ApplyDigest s senderID d0).2 by by rewrite Hrun.
    apply (fold_emit_rel tracked); [apply tracked_refl|apply tracked_trans|].
    intros. apply applyDigestEntry_tracked.
  - intros [Hnow Hes]. destruct (ApplyDelta now s senderID d0) as [s1 w1] eqn:Hrun. intros [= -> _ ->].
    replace s' with (ApplyDelta now s senderID d0).1 by by rewrite Hrun.
    replace effs with (ApplyDelta now s senderID d0).2 by by rewrite Hrun.
    apply (fold_emit_rel tracked); [apply tracked_refl|apply tracked_trans|].
    intros s0 de Hde. apply applyDeltaEntry_tracked; [done|]. intros e. by apply Hes.
  - intros _. destruct (RemoveExpiredAt s t) as [s1 w1] eqn:Hrun. intros [= -> _ ->].
    replace s' with (RemoveExpiredAt s t).1 by by rewrite Hrun.
    replace effs with (RemoveExpiredAt s t).2 by by rewrite Hrun.
    apply RemoveExpiredAt_tracked.
  - intros Hnow. by apply UpdateLiveness_tracked.
Qed.

Lemma state_wf_new id addr : state_wf (newClusterState id addr).
Proof.
  split; simpl.
  - intros k x [<- <-]%lookup_singleton_Some. done.
  - intros k x [<- <-]%lookup_singleton_Some. apply newNode_wf.
  - exists (newNode id addr). rewrite lookup_singleton_eq. split_and!; [done|apply owner_wf_new|done..].
  - intros k x [<- <-]%lookup_singleton_Some. done.
  - intros k [? ?]. simplify_map_eq.
Qed.

(** A run of the state: operations one after the other, with the detector and
    the effects threaded through; [None] when an operation panics. *)
Fixpoint run_states `{MapIter, FailureDetector D} (ops : list state_op) (s : clusterState) (d : D) :
    option (clusterState * D * list effect) :=
  match ops with
  | [] => Some (s, d, [])
  | op :: ops' =>
      '(s1, d1, w1) ← run_state op s d;
      '(s2, d2, w2) ← run_states ops' s1 d1;
      Some (s2, d2, w1 ++ w2)
  end.

(** Every operation of the run was called with good arguments. *)
Fixpoint ops_ok `{MapIter, FailureDetector D} (ops : list state_op) (s : clusterState) (d : D) : Prop :=
  match ops with
  | [] => True
  | op :: ops' => state_op_ok s op ∧
      ∀ s' d' w, run_state op s d = Some (s', d', w) → ops_ok ops' s' d'
  end.

Lemma run_states_tracked `{MapIter, FailureDetector D} ops s (d : D) s' d' effs :
  ops_ok ops s d → run_states ops s d = Some (s', d', effs) → tracked s s' effs.
Proof.
  revert s d effs. induction ops as [|op ops IH]; intros s d effs; simpl.
  { intros _ [= <- <- <-]. apply tracked_refl. }
  intros [Hop Hops]. destruct (run_state op s d) as [[[s1 d1] w1]|] eqn:H1; [|done]. simpl.
  destruct (run_states ops s1 d1) as [[[s2 d2] w2]|] eqn:H2; [|done]. intros [= -> -> <-].
  eapply tracked_trans; [by eapply run_state_tracked|]. eapply IH; [|done]. by eapply Hops.
Qed.

(** ** Expiry *)

Lemma fold_removeNode_nodes t ids s id :
  nodes (fold_emit (removeNode t) s ids).1 !! id =
    if decide (id ∈ ids) then None else nodes s !! id.
Proof.
  rewrite fold_emit_fst. revert s. induction ids as [|i ids IH]; intros s; simpl; [done|].
  rewrite IH. simpl. destruct (decide (id ∈ ids)) as [Hin|Hin].
  - by rewrite decide_True by (by right).
  - destruct (decide (id = i)) as [->|Hne].
    + rewrite decide_True by left. apply lookup_delete_eq.
    + rewrite decide_False by set_solver. by rewrite lookup_delete_ne.
Qed.

Lemma fold_removeNode_tombstones t ids s id :
  tombstones (fold_emit (removeNode t) s ids).1 !! id =
    if decide (id ∈ ids) then Some t else tombstones s !! id.
Proof.
  rewrite fold_emit_fst. revert s. induction ids as [|i ids IH]; intros s; simpl; [done|].
  rewrite IH. simpl. destruct (decide (id ∈ ids)) as [Hin|Hin].
  - by rewrite decide_True by (by right).
  - destruct (decide (id = i)) as [->|Hne].
    + rewrite decide_True by left. apply lookup_insert_eq.
    + rewrite decide_False by set_solver. by rewrite lookup_insert_ne.
Qed.

Lemma fold_removeNode_effs t ids s :
  (fold_emit (removeNode t) s ids).2 =
    ids ≫= λ id, [EntriesDeletePartialMatch id; Watch (OnExpired id); DetectorRemove id].
Proof.
  revert s. induction ids as [|i ids IH]; intros s; simpl; [done|].
  specialize (IH (removeNode t s i).1). simpl in IH. by destruct (fold_emit _ _ ids); simpl in *; subst.
Qed.

Lemma elem_of_expired `{MapIter} s t id :
  state_wf s →
  id ∈ (λ st, n_ID (ns_meta st)) <$> filter (expired_at t) (map_range (nodes s)).*2 ↔
  ∃ st, nodes s !! id = Some st ∧ expired_at t st.
Proof.
  intros Hs. split; [intros [_ Hin]%expired_not_local; done|].
  intros (st&Hst&He). rewrite <-(swf_ids _ Hs _ _ Hst).
  apply (list_elem_of_fmap_2 (λ st, n_ID (ns_meta st))), list_elem_of_filter.
  split; [done|]. apply elem_of_map_range_snd. by exists id.
Qed.

(** ** Tombstones *)

(** A tombstoned node stays unknown. *)
Definition buried (id : string) (t : time) (s : clusterState) : Prop :=
  nodes s !! id = None ∧ tombstones s !! id = Some t ∧ id ≠ localID s.

Lemma applyDigestEntry_buried sender id t s entry :
  sender ≠ id → buried id t s → buried id t (applyDigestEntry sender s entry).1.
Proof.
  intros Hne (Hn&Ht&Hl). unfold applyDigestEntry, tombstoned.
  destruct (decide (dg_ID entry = id)) as [Hid|Hid].
  - rewrite Hid, Hn, Ht. rewrite decide_False by done. by case_match.
  - repeat (case_match || case_decide); simplify_eq; unfold buried; simpl; simplify_map_eq; done.
Qed.

Lemma applyDeltaEntry_buried `{MapIter} now sender id t s entry :
  sender ≠ id → buried id t s → buried id t (applyDeltaEntry now sender s entry).1.
Proof.
  intros Hne (Hn&Ht&Hl). unfold applyDeltaEntry, tombstoned.
  destruct (decide (dl_ID entry = id)) as [Hid|Hid].
  - rewrite Hid, Hn, Ht. by rewrite !decide_False by done.
  - repeat (case_match || case_decide); simplify_eq; unfold buried; simpl; simplify_map_eq; done.
Qed.

(** ** Liveness *)

(** A failure detector whose levels for one node do not depend on the queries
    about the others. *)
Class DetectorLaws D `{FailureDetector D} := {
  SuspicionLevel_other : ∀ d i j t lvl d', i ≠ j → SuspicionLevel d i t = Some (lvl, d') →
    fst <$> SuspicionLevel d' j t = fst <$> SuspicionLevel d j t;
}.

(** The state of a node after [UpdateLiveness], from its suspicion level. *)
Definition relive (now : time) (unreachable : bool) (node : nodeState) : nodeState :=
  if decide (unreachable = n_Unreachable (ns_meta node)) then node
  else set_Expiry (if unreachable then now + nodeExpiry else zero_time)%Z (set_Unreachable unreachable node).

Section liveness_exact.
Context `{DetectorLaws D} (now : time) (thr : float64).

Definition skipped (s : clusterState) (node : nodeState) : Prop :=
  n_ID (ns_meta node) = localID s ∨ n_Left (ns_meta node) = true.

Lemma updateNodeLiveness_exact s d key node s' d' effs :
  n_ID (ns_meta node) = key →
  updateNodeLiveness now thr s d key node = Some (s', d', effs) →
  nodes s !! key = Some node →
  localID s' = localID s ∧ tombstones s' = tombstones s ∧
  (∀ k, k ≠ key → nodes s' !! k = nodes s !! k ∧
     fst <$> SuspicionLevel d' k now = fst <$> SuspicionLevel d k now) ∧
  (skipped s node → nodes s' !! key = Some node ∧ effs = []) ∧
  (¬ skipped s node → ∃ lvl, fst <$> SuspicionLevel d key now = Some lvl ∧
     nodes s' !! key = Some (relive now (flt thr lvl) node) ∧
     effs = if decide (flt thr lvl = n_Unreachable (ns_meta node)) then []
            else [Watch (if flt thr lvl then OnUnreachable key else OnReachable key)]).
Proof.
  intros <- Hu Hk. unfold updateNodeLiveness in Hu. unfold skipped.
  case_decide as Hskip; [by simplify_eq|].
  destruct (SuspicionLevel d _ now) as [[lvl d1]|] eqn:Hlvl; [|done]. simpl in Hu.
  pose proof (λ j, SuspicionLevel_other d (n_ID (ns_meta node)) j now lvl d1) as Hother.
  assert (∀ st, nodes (set_node (n_ID (ns_meta node)) st s) !! n_ID (ns_meta node) = Some st) as Hset
    by (intros; apply lookup_insert_eq).
  unfold relive.
  destruct (flt thr lvl) eqn:Hf, (n_Unreachable (ns_meta node)) eqn:Hun; simplify_eq; split_and!; try done.
  all: try (intros k Hne; simpl; rewrite ?lookup_insert_ne by done; split; [done|]; by apply Hother).
  all: intros _; exists lvl; rewrite Hf; split_and!; try done; apply Hset.
Qed.

Lemma updateLiveness_loop_other l s d s' d' effs k :
  k ∉ l.*1 → Forall (λ p, nodes s !! p.1 = Some p.2 ∧ n_ID (ns_meta p.2) = p.1) l → NoDup l.*1 →
  updateLiveness_loop now thr s d l = Some (s', d', effs) →
  nodes s' !! k = nodes s !! k ∧ localID s' = localID s ∧ tombstones s' = tombstones s ∧
  (∀ c, Watch c ∈ effs → c ≠ OnUnreachable k ∧ c ≠ OnReachable k).
Proof.
  revert s d s' d' effs. induction l as [|[key node] l IH]; intros s d s' d' effs Hnin Hl Hnd Hu; simpl in Hu.
  { simplify_eq. split_and!; [done..|]. set_solver. }
  apply NoDup_cons in Hnd as [Hkin Hnd]. apply Forall_cons in Hl as [[Hk Hid] Hl]. simpl in *.
  apply not_elem_of_cons in Hnin as [Hne Hnin].
  destruct (updateNodeLiveness _ _ _ _ _ _) as [[[s1 d1] e1]|] eqn:H1; [|done]. simpl in Hu.
  destruct (updateLiveness_loop _ _ _ _ _) as [[[s2 d2] e2]|] eqn:H2; [|done]. simplify_eq/=.
  apply updateNodeLiveness_exact in H1 as (El&Et&Hother&Hs&Hn); [|done..].
  destruct (IH s1 d1 s' d' e2) as (En&El2&Et2&Hc); [done| |done|done|].
  { rewrite Forall_forall in Hl |- *. intros p Hp. destruct (Hother p.1) as [-> _]; [|by apply Hl].
    intros Heq. apply Hkin. rewrite <-Heq. by apply list_elem_of_fmap_2. }
  split_and!; [rewrite En; by apply Hother|congruence|congruence|].
  intros c [He|He]%elem_of_app; [|by apply Hc].
  destruct (decide (skipped s node)) as [Hsk|Hsk].
  { destruct (Hs Hsk) as [_ ->]. set_solver. }
  destruct (Hn Hsk) as (lvl&_&_&->). case_decide; [set_solver|].
  apply list_elem_of_singleton in He. destruct (flt thr lvl); simplify_eq; split; congruence.
Qed.

(** What a pass over the nodes does to one of them. *)
Lemma updateLiveness_loop_exact l s d s' d' effs key node :
  (key, node) ∈ l → Forall (λ p, nodes s !! p.1 = Some p.2 ∧ n_ID (ns_meta p.2) = p.1) l → NoDup l.*1 →
  updateLiveness_loop now thr s d l = Some (s', d', effs) →
  (skipped s node → nodes s' !! key = Some node) ∧
  (¬ skipped s node → ∃ lvl, fst <$> SuspicionLevel d key now = Some lvl ∧
     nodes s' !! key = Some (relive now (flt thr lvl) node) ∧
     (Watch (OnUnreachable key) ∈ effs ↔ flt thr lvl = true ∧ n_Unreachable (ns_meta node) = false) ∧
     (Watch (OnReachable key) ∈ effs ↔ flt thr lvl = false ∧ n_Unreachable (ns_meta node) = true)).
Proof.
  revert s d s' d' effs. induction l as [|[k n] l IH]; intros s d s' d' effs Hin Hl Hnd Hu; [set_solver|].
  simpl in Hu. apply NoDup_cons in Hnd as [Hkin Hnd]. apply Forall_cons in Hl as [[Hk Hid] Hl]. simpl in *.
  destruct (updateNodeLiveness _ _ _ _ _ _) as [[[s1 d1] e1]|] eqn:H1; [|done]. simpl in Hu.
  destruct (updateLiveness_loop _ _ _ _ _) as [[[s2 d2] e2]|] eqn:H2; [|done]. simplify_eq/=.
  apply updateNodeLiveness_exact in H1 as (El&Et&Hother&Hs&Hn); [|done..].
  assert (Forall (λ p, nodes s1 !! p.1 = Some p.2 ∧ n_ID (ns_meta p.2) = p.1) l) as Hl1.
  { rewrite Forall_forall in Hl |- *. intros p Hp. destruct (Hother p.1) as [-> _]; [|by apply Hl].
    intros Heq. apply Hkin. rewrite <-Heq. by apply list_elem_of_fmap_2. }
  unfold skipped in *. rewrite <-El in *.
  apply elem_of_cons in Hin as [Heq|Hin].
  - injection Heq as -> ->.
    destruct (updateLiveness_loop_other _ _ _ _ _ _ _ Hkin Hl1 Hnd H2) as (En&_&_&Hc).
    rewrite En. split; [intros Hsk; by apply Hs|]. intros Hsk.
    destruct (Hn Hsk) as (lvl&Hlvl&Hnode&->). exists lvl. split_and!; [done|done|..].
    + rewrite elem_of_app. split; [|intros [-> ->]; left; by left].
      intros [Hw|[? _]%Hc]; [|done].
      case_decide as Hf; [set_solver|]. apply list_elem_of_singleton in Hw.
      destruct (flt thr lvl), (n_Unreachable (ns_meta n)); simplify_eq; done.
    + rewrite elem_of_app. split; [|intros [-> ->]; left; by left].
      intros [Hw|[_ ?]%Hc]; [|done].
      case_decide as Hf; [set_solver|]. apply list_elem_of_singleton in Hw.
      destruct (flt thr lvl), (n_Unreachable (ns_meta n)); simplify_eq; done.
  - assert (key ≠ n_ID (ns_meta n)) as Hne.
    { intros ->. apply Hkin. by apply (list_elem_of_fmap_2 fst _ (_, node)). }
    assert (∀ c, Watch c ∈ e1 → c ≠ OnUnreachable key ∧ c ≠ OnReachable key) as Hc1.
    { intros c Hw. destruct (decide (n_ID (ns_meta n) = localID s1 ∨ n_Left (ns_meta n) = true)) as [Hsk|Hsk].
      { destruct (Hs Hsk) as [_ ->]. set_solver. }
      destruct (Hn Hsk) as (lvl&_&_&->). case_decide; [set_solver|].
      apply list_elem_of_singleton in Hw. destruct (flt thr lvl); simplify_eq; split; congruence. }
    destruct (IH _ _ _ _ _ Hin Hl1 Hnd H2) as [IHs IHn]. split; [done|]. intros Hsk.
    destruct (IHn Hsk) as (lvl&Hlvl&Hnode&Hun&Hre). exists lvl. destruct (Hother key Hne) as [_ Hsame].
    rewrite <-Hsame, !elem_of_app, <-Hun, <-Hre. split_and!; [done..| |].
    + split; [intros [[? _]%Hc1|?]; done|by right].
    + split; [intros [[_ ?]%Hc1|?]; done|by right].
Qed.
End liveness_exact.

(** ** Properties *)

(** C10. The state keeps its invariant and its watcher up to date: after any
    sequence of operations of a node, from its creation, the nodes are stored
    under their identifiers with well-formed entries, the local node is present
    and never expires, a remote node has an expiry exactly when it left or is
    unreachable, no known node is tombstoned, and the calls made on the
    [Watcher] add up to exactly the remote nodes that are known, with the
    visible keys, the left and the unreachable flag of each. *)
Theorem watcher_tracks_peers `{MapIter, FailureDetector D} id addr ops (d : D) s' d' effs :
  ops_ok ops (newClusterState id addr) d →
  run_states ops (newClusterState id addr) d = Some (s', d', effs) →
  localID s' = id ∧ state_wf s' ∧ watch ∅ effs = peers s'.
Proof.
  intros Hok Hrun.
  destruct (run_states_tracked _ _ _ _ _ _ Hok Hrun (state_wf_new id addr)) as (Hid&Hwf&Hw).
  split_and!; [done|done|]. rewrite <-Hw. f_equal. unfold peers. simpl. by rewrite delete_singleton_eq.
Qed.

(** Expiry is exact: [RemoveExpiredAt] removes the nodes whose expiry has
    passed and no other, tombstones each of them at that time, forgets the
    tombstones older than [nodeTombstoneExpiry], and tells the watcher and the
    failure detector of exactly the removed nodes. *)
Theorem expiry_exact `{MapIter} s t :
  state_wf s →
  let s' := (RemoveExpiredAt s t).1 in
  let effs := (RemoveExpiredAt s t).2 in
  let expired id := ∃ st, nodes s !! id = Some st ∧ expired_at t st in
  (∀ id st, nodes s' !! id = Some st ↔ nodes s !! id = Some st ∧ ¬ expired_at t st) ∧
  (∀ id t', tombstones s' !! id = Some t' ↔
     expired id ∧ t' = t ∨
     tombstones s !! id = Some t' ∧ time_After t (t' + nodeTombstoneExpiry) = false) ∧
  (∀ id, Watch (OnExpired id) ∈ effs ↔ expired id) ∧
  (∀ id, DetectorRemove id ∈ effs ↔ expired id).
Proof.
  intros Hs s' effs expired. unfold s', effs, expired, RemoveExpiredAt.
  rewrite fold_removeNode_effs. split_and!; intros id *.
  - rewrite fold_removeNode_nodes. case_decide as Hin; rewrite elem_of_expired in Hin by done; simpl.
    + split; [done|]. intros [Hst Hn]. destruct Hin as (st'&?&?). by simplify_eq.
    + split; [|naive_solver]. intros Hst. split; [done|]. intros ?. apply Hin. eauto.
  - rewrite fold_removeNode_tombstones. case_decide as Hin; rewrite elem_of_expired in Hin by done; simpl.
    + split; [intros [= <-]; by left|]. intros [[_ ->]|[Ht _]]; [done|].
      destruct Hin as (st&Hst&_). pose proof (swf_tombstones _ Hs id ltac:(eauto)). congruence.
    + rewrite map_lookup_filter_Some. simpl. naive_solver.
  - rewrite list_elem_of_bind, <-elem_of_expired by done. set_solver.
  - rewrite list_elem_of_bind, <-elem_of_expired by done. set_solver.
Qed.

(** C29. A tombstone stops other nodes from bringing an expired node back: no
    digest or delta sent by another node adds it or lifts the tombstone, while
    a digest from the node itself that does not say it left makes it known
    again. *)
Theorem tombstone_blocks_rediscovery `{MapIter} s id t sender d now dl addr v :
  nodes s !! id = None → tombstones s !! id = Some t → id ≠ localID s → sender ≠ id →
  (nodes (ApplyDigest s sender d).1 !! id = None ∧ tombstones (ApplyDigest s sender d).1 !! id = Some t) ∧
  (nodes (ApplyDelta now s sender dl).1 !! id = None ∧ tombstones (ApplyDelta now s sender dl).1 !! id = Some t) ∧
  (nodes (ApplyDigest s id [mkDigestEntry id addr v false]).1 !! id = Some (newNode id addr) ∧
   tombstones (ApplyDigest s id [mkDigestEntry id addr v false]).1 !! id = None).
Proof.
  intros Hn Ht Hl Hne. assert (buried id t s) as Hb by done.
  assert (buried id t (ApplyDigest s sender d).1) as (?&?&_).
  { apply (fold_emit_ind (buried id t)); [done|]. intros. by apply applyDigestEntry_buried. }
  assert (buried id t (ApplyDelta now s sender dl).1) as (?&?&_).
  { apply (fold_emit_ind (buried id t)); [done|]. intros. by apply applyDeltaEntry_buried. }
  split_and!; try done.
  all: unfold ApplyDigest, applyDigestEntry, tombstoned; simpl; rewrite Hn, Ht, decide_True by done; simpl.
  - apply lookup_insert_eq.
  - apply lookup_delete_eq.
Qed.

(** Liveness is exact: one pass of [UpdateLiveness] marks a remote node
    that has not left unreachable exactly when its suspicion level is above the
    threshold, gives it an expiry when it becomes unreachable and clears it
    when it is reachable again, calls the watcher exactly when the flag flips,
    and leaves the local node and the nodes that left alone. *)
Theorem liveness_exact `{MapIter, DetectorLaws D} now thr s (d : D) s' d' effs id node :
  state_wf s → nodes s !! id = Some node → UpdateLiveness now s d thr = Some (s', d', effs) →
  (id = localID s ∨ n_Left (ns_meta node) = true → nodes s' !! id = Some node) ∧
  (id ≠ localID s → n_Left (ns_meta node) = false →
   ∃ lvl, fst <$> SuspicionLevel d id now = Some lvl ∧
     nodes s' !! id = Some (relive now (flt thr lvl) node) ∧
     (Watch (OnUnreachable id) ∈ effs ↔ flt thr lvl = true ∧ n_Unreachable (ns_meta node) = false) ∧
     (Watch (OnReachable id) ∈ effs ↔ flt thr lvl = false ∧ n_Unreachable (ns_meta node) = true)).
Proof.
  intros Hs Hn Hu.
  destruct (updateLiveness_loop_exact now thr (map_range (nodes s)) s d s' d' effs id node) as [Hskip Hlive].
  - by apply elem_of_map_range.
  - rewrite Forall_forall. intros [k st] Hk%elem_of_map_range. split; [done|by eapply swf_ids].
  - apply NoDup_map_range_fst.
  - done.
  - unfold skipped in *. rewrite (swf_ids _ Hs _ _ Hn) in *. split; [done|]. intros Hl Hleft. apply Hlive.
    intros [?|?]; congruence.
Qed.

(** ** Witnesses *)

#[local] Existing Instance canonical_iter.

(** A detector with a fixed level for every node. *)
#[local] Instance fixed_detector : FailureDetector (gmap string float64) := {|
  Report d _ _ := Some d;
  SuspicionLevel d id _ := Some (default (float64_of_int 0) (d !! id), d);
  Remove d id := delete id d;
|}.

#[local] Instance fixed_laws : DetectorLaws (gmap string float64).
Proof. constructor. by intros d i j t lvl d' _ [= _ <-]. Qed.

Definition ex_dead : gmap string float64 := {["n2" := float64_of_int 30]}.

(** A node that joins, publishes, is unreachable, and expires. *)
Definition ex_ops : list state_op :=
  [SLocal (OpUpsert "proxy_addr" "10.0.0.1:8000");
   SApplyDigest "n2" [mkDigestEntry "n2" "10.0.0.2:8003" 1 false];
   SApplyDelta 5 "n2" [mkDeltaEntry "n2" "10.0.0.2:8003" [mkEntry "endpoint:a" "1" 1 false false]];
   SUpdateLiveness 10 (float64_of_int 20)].

Definition ex_state : clusterState :=
  match run_states ex_ops (newClusterState "n1" "10.0.0.1:8003") ex_dead with
  | Some (s, _, _) => s
  | None => newClusterState "n1" "10.0.0.1:8003"
  end.

Definition ex_buried : clusterState := (RemoveExpiredAt ex_state (nodeExpiry + 11)).1.

Lemma ex_ops_ok : ops_ok ex_ops (newClusterState "n1" "10.0.0.1:8003") ex_dead.
Proof.
  split; [split; [by vm_compute|by intros st [= <-]]|]. intros s1 d1 w1 _.
  split; [done|]. intros s2 d2 w2 _. split; [|by intros; split].
  split; [lia|]. intros de e ->%list_elem_of_singleton ->%list_elem_of_singleton.
  split; [split; [done|]|done]. by intros [?|?].
Qed.

Lemma ex_state_local : localID ex_state = "n1".
Proof. by vm_compute. Qed.

Lemma ex_state_wf : state_wf ex_state.
Proof.
  unfold ex_state. destruct (run_states _ _ _) as [[[s d] w]|] eqn:Hr; [|by vm_compute in Hr].
  destruct (run_states_tracked _ _ _ _ _ _ ex_ops_ok Hr (state_wf_new _ _)) as (_&?&_). done.
Qed.

Lemma watcher_tracks_peers_witness :
  ∃ s' d' effs, run_states ex_ops (newClusterState "n1" "10.0.0.1:8003") ex_dead = Some (s', d', effs) ∧
    watch ∅ effs = peers s' ∧ peers s' !! "n2" = Some (mkPeer {["endpoint:a" := "1"]} false true).
Proof.
  destruct (run_states ex_ops (newClusterState "n1" "10.0.0.1:8003") ex_dead) as [[[s d] w]|] eqn:Hr.
  - exists s, d, w. split; [done|].
    split; [by apply (watcher_tracks_peers "n1" "10.0.0.1:8003" ex_ops ex_dead s d w ex_ops_ok Hr)|].
    assert (s = ex_state) as -> by (unfold ex_state; by rewrite Hr). by vm_compute.
  - by vm_compute in Hr.
Defined.

Lemma expiry_exact_witness :
  nodes ex_buried !! "n2" = None ∧ Watch (OnExpired "n2") ∈ (RemoveExpiredAt ex_state (nodeExpiry + 11)).2.
Proof.
  split; [by vm_compute|].
  apply (expiry_exact ex_state (nodeExpiry + 11) ex_state_wf).
  eexists. split; [by vm_compute|]. by split; vm_compute.
Defined.

Lemma tombstone_blocks_rediscovery_witness :
  nodes (ApplyDigest ex_buried "n3" [mkDigestEntry "n2" "10.0.0.2:8003" 1 false]).1 !! "n2" = None.
Proof.
  apply (tombstone_blocks_rediscovery ex_buried "n2" (nodeExpiry + 11) "n3"
    [mkDigestEntry "n2" "10.0.0.2:8003" 1 false] 0 [] "" 0);
    by vm_compute.
Defined.

Lemma liveness_exact_witness :
  ∃ s' effs node, UpdateLiveness 20 ex_state (∅ : gmap string float64) (float64_of_int 20) = Some (s', ∅, effs) ∧
    nodes s' !! "n2" = Some (relive 20 false node) ∧ Watch (OnReachable "n2") ∈ effs.
Proof.
  eexists _, _, _. split; [by vm_compute|].
  destruct (liveness_exact 20 (float64_of_int 20) ex_state (∅ : gmap string float64) _ _ _ "n2" _
    ex_state_wf ltac:(by vm_compute) ltac:(by vm_compute)) as [_ Hl].
  destruct (Hl ltac:(by rewrite ex_state_local) ltac:(by vm_compute)) as (lvl&Hlvl&Hn&_&Hr).
  injection Hlvl as <-. split; [exact Hn|]. apply Hr. by vm_compute.
Defined.
