(* ===== verification/FailureDetector.v ===== *)
(** * pkg/gossip/failuredetector.go: the phi accrual failure detector

    Each node has a window of the intervals between its messages, kept in a
    circular buffer with a running sum and mean.  The buffer is proved to
    implement a queue of the last [sampleSize] intervals. [None] is a panic. *)

From S2P Require Import Prelude GoLib GossipState GossipMembership.

(** ** Data *)

Record arrivalIntervals := mkIntervals {
  intervals : list Z;
  index : nat;
  isFull : bool;
  sum : Z;
  mean : float64;
}.

Record arrivalWindow := mkWindow {
  lastTimestamp : time;
  w_intervals : arrivalIntervals;
  w_bootstrapInterval : Z;
}.

Record accrualFailureDetector := mkDetector {
  windows : gmap string arrivalWindow;
  bootstrapInterval : Z;
  sampleSize : nat;
}.

(** ** Operations *)

Definition newArrivalIntervals (sampleSize : nat) : arrivalIntervals :=
  mkIntervals (replicate sampleSize 0%Z) 0 false 0 (float64_of_int 0).

Definition Mean (i : arrivalIntervals) : float64 := mean i.

(** [arrivalIntervals.size]. *)
Definition intervals_size (i : arrivalIntervals) : nat :=
  if isFull i then length (intervals i) else index i.

(** [arrivalIntervals.Add]; reading or writing past the buffer panics. *)
Definition AddInterval (interval : Z) (i : arrivalIntervals) : option arrivalIntervals :=
  let '(index0, isFull0) :=
    if decide (index i = length (intervals i)) then (0, true) else (index i, isFull i) in
  old ← intervals i !! index0;
  let sum0 := if isFull0 then i64 (sum i - old) else sum i in
  let sum1 := i64 (sum0 + interval) in
  let i1 := mkIntervals (<[index0 := interval]> (intervals i)) (S index0) isFull0 sum1 (mean i) in
  Some (mkIntervals (intervals i1) (index i1) isFull0 sum1
          (fdiv (float64_of_int sum1) (float64_of_int (Z.of_nat (intervals_size i1))))).

Definition newArrivalWindow (bootstrapInterval : Z) (sampleSize : nat) : arrivalWindow :=
  mkWindow zero_time (newArrivalIntervals sampleSize) bootstrapInterval.

Definition Phi (w : arrivalWindow) (timestamp : time) : option float64 :=
  if negb (time_After (lastTimestamp w) zero_time &&
           flt (float64_of_int 0) (Mean (w_intervals w))) then None
  else Some (fdiv (float64_of_int (time_Sub timestamp (lastTimestamp w))) (Mean (w_intervals w))).

(** [arrivalWindow.Add]. *)
Definition AddArrival (timestamp : time) (w : arrivalWindow) : option arrivalWindow :=
  let interval :=
    if time_After (lastTimestamp w) zero_time then time_Sub timestamp (lastTimestamp w)
    else w_bootstrapInterval w in
  added ← AddInterval interval (w_intervals w);
  Some (mkWindow timestamp added (w_bootstrapInterval w)).

Definition newAccrualFailureDetector (bootstrapInterval : Z) (sampleSize : nat) : accrualFailureDetector :=
  mkDetector ∅ bootstrapInterval sampleSize.

Definition set_window (nodeID : string) (w : arrivalWindow) (d : accrualFailureDetector) :=
  mkDetector (<[nodeID := w]> (windows d)) (bootstrapInterval d) (sampleSize d).

Definition ReportWithTimestamp (d : accrualFailureDetector) (nodeID : string) (timestamp : time) :
    option accrualFailureDetector :=
  let window := default (newArrivalWindow (bootstrapInterval d) (sampleSize d)) (windows d !! nodeID) in
  window' ← AddArrival timestamp window;
  Some (set_window nodeID window' d).

Definition SuspicionLevelAt (d : accrualFailureDetector) (nodeID : string) (timestamp : time) :
    option (float64 * accrualFailureDetector) :=
  '(window, d') ← (match windows d !! nodeID with
    | Some window => Some (window, d)
    | None =>
        window ← AddArrival timestamp (newArrivalWindow (bootstrapInterval d) (sampleSize d));
        Some (window, set_window nodeID window d)
    end);
  phi ← Phi window timestamp;
  Some (phi, d').

Definition RemoveWindow (d : accrualFailureDetector) (nodeID : string) : accrualFailureDetector :=
  mkDetector (delete nodeID (windows d)) (bootstrapInterval d) (sampleSize d).

#[export] Instance accrual_detector : FailureDetector accrualFailureDetector := {|
  Report := ReportWithTimestamp;
  SuspicionLevel := SuspicionLevelAt;
  Remove := RemoveWindow;
|}.

(** ** Specification *)

(** The intervals held, oldest first. *)
Definition queue (i : arrivalIntervals) : list Z :=
  if isFull i then drop (index i) (intervals i) ++ take (index i) (intervals i)
  else take (index i) (intervals i).

(** The last [n] elements of a list. *)
Definition lastn {A} (n : nat) (l : list A) : list A := drop (length l - n) l.

Definition sum_list (l : list Z) : Z := foldr Z.add 0%Z l.

(** The mean the code computes for a window: the 64-bit sum over the size. *)
Definition mean_of (l : list Z) : float64 :=
  match l with
  | [] => float64_of_int 0
  | _ => fdiv (float64_of_int (i64 (sum_list l))) (float64_of_int (Z.of_nat (length l)))
  end.

(** A buffer of size [n] that has seen the intervals [xs]. *)
Record holds (n : nat) (xs : list Z) (i : arrivalIntervals) : Prop := {
  h_length : length (intervals i) = n;
  h_index : index i ≤ n;
  h_full : isFull i = false → index i = length xs;
  h_queue : queue i = lastn n xs;
  h_sum : sum i = i64 (sum_list (queue i));
  h_mean : mean i = mean_of (queue i);
}.

(** The intervals between the messages of a node: the first counts as the
    bootstrap interval. *)
Fixpoint gaps (previous : time) (ts : list time) : list Z :=
  match ts with
  | [] => []
  | t :: ts' => time_Sub t previous :: gaps t ts'
  end.

Definition arrivals (bootstrap : Z) (ts : list time) : list Z :=
  match ts with [] => [] | t :: ts' => bootstrap :: gaps t ts' end.

(** The messages of one node among those of all. *)
Definition reports_of (id : string) (rs : list (string * time)) : list time :=
  (filter (λ r, r.1 = id) rs).*2.

Fixpoint report_all (rs : list (string * time)) (d : accrualFailureDetector) :
    option accrualFailureDetector :=
  match rs with
  | [] => Some d
  | (id, t) :: rs' => d1 ← ReportWithTimestamp d id t; report_all rs' d1
  end.

(** ** The circular buffer is a queue *)

Lemma tail_drop {A} (l : list A) : tail l = drop 1 l.
Proof. by destruct l. Qed.

Lemma tail_drop_S {A} n (l : list A) : tail (drop n l) = drop (S n) l.
Proof. revert l. induction n as [|n IH]; intros [|x l]; by simpl; rewrite ?IH. Qed.

Lemma i64_add_l a b : i64 (i64 a + b) = i64 (a + b).
Proof.
  unfold i64. f_equal.
  replace ((a + 2 ^ 63) `mod` 2 ^ 64 - 2 ^ 63 + b + 2 ^ 63)%Z
    with ((a + 2 ^ 63) `mod` 2 ^ 64 + b)%Z by lia.
  rewrite Zplus_mod_idemp_l. f_equal. lia.
Qed.

Lemma sum_list_app l1 l2 : sum_list (l1 ++ l2) = (sum_list l1 + sum_list l2)%Z.
Proof. induction l1 as [|x l1 IH]; simpl; [done|]. rewrite IH. lia. Qed.

Lemma lastn_short {A} n (l : list A) : length l ≤ n → lastn n l = l.
Proof. intros ?. unfold lastn. by replace (length l - n) with 0 by lia. Qed.

Lemma lastn_length {A} n (l : list A) : length (lastn n l) = n `min` length l.
Proof. unfold lastn. rewrite length_drop. lia. Qed.

Lemma lastn_snoc {A} n (l : list A) x :
  0 < n → lastn n (l ++ [x]) = (if decide (length l < n) then l else tail (lastn n l)) ++ [x].
Proof.
  intros Hn. case_decide.
  - rewrite lastn_short; [done|]. rewrite length_app. simpl. lia.
  - unfold lastn. rewrite length_app. simpl.
    rewrite drop_app_le by lia. f_equal.
    replace (length l + 1 - n) with (S (length l - n)) by lia. by rewrite tail_drop_S.
Qed.

Lemma mean_of_nonempty l : l ≠ [] →
  mean_of l = fdiv (float64_of_int (i64 (sum_list l))) (float64_of_int (Z.of_nat (length l))).
Proof. by destruct l. Qed.

Lemma holds_new n : holds n [] (newArrivalIntervals n).
Proof. split; simpl; try done; [apply length_replicate|lia]. Qed.

Lemma queue_length n xs i : holds n xs i → length (queue i) = intervals_size i.
Proof.
  intros Hh. pose proof (h_length _ _ _ Hh). pose proof (h_index _ _ _ Hh).
  unfold queue, intervals_size. destruct (isFull i).
  - rewrite length_app, length_drop, length_take. lia.
  - rewrite length_take. lia.
Qed.

(** The buffer after writing at [j]: the element there is the oldest. *)
Lemma queue_write (l : list Z) j x old :
  l !! j = Some old →
  drop (S j) (<[j := x]> l) ++ take (S j) (<[j := x]> l) = tail (drop j l ++ take j l) ++ [x].
Proof.
  intros Hj. pose proof (lookup_lt_Some _ _ _ Hj).
  rewrite drop_insert_lt by lia. rewrite (take_S_r _ _ x) by (apply list_lookup_insert_eq; lia).
  rewrite take_insert_ge by lia. rewrite (drop_S _ _ _ Hj). simpl. by rewrite (assoc_L (++)).
Qed.

Section ring.
Context (n : nat) (Hn : 0 < n).

Lemma AddInterval_holds xs i x :
  holds n xs i → ∃ i', AddInterval x i = Some i' ∧ holds n (xs ++ [x]) i'.
Proof.
  intros [Hlen Hidx Hfull Hq Hsum Hmean].
  (* the buffer after wrapping around *)
  assert (∃ j (full : bool), (if decide (index i = length (intervals i)) then (0, true) else (index i, isFull i)) = (j, full) ∧
    j < n ∧ queue i = (if full then drop j (intervals i) ++ take j (intervals i) else take j (intervals i)) ∧
    (full = false → j = length xs)) as (j&full&Hjf&Hj&Hqj&Hfj).
  { case_decide as Hd.
    - exists 0, true. split_and!; [done|lia| |done]. unfold queue. simpl. rewrite app_nil_r, Hd.
      rewrite firstn_all, drop_all. by destruct (isFull i).
    - exists (index i), (isFull i). split_and!; [done|lia|done|done]. }
  destruct (lookup_lt_is_Some_2 (intervals i) j) as [old Hold]; [lia|].
  unfold AddInterval. rewrite Hjf, Hold. simpl. eexists. split; [done|].
  set (q' := if full then tail (queue i) ++ [x] else queue i ++ [x]).
  assert (queue i = lastn n xs) as Hq0 by done.
  match goal with |- holds _ _ ?i' => assert (queue i' = q') as Hq' end.
  { unfold q', queue at 1. simpl. destruct full.
    - rewrite (queue_write _ _ _ _ Hold), Hqj. done.
    - rewrite Hqj, (take_S_r _ _ x) by (apply list_lookup_insert_eq; lia).
      by rewrite take_insert_ge by lia. }
  assert (length (queue i) = if full then n else j) as Hql.
  { rewrite Hqj. destruct full; rewrite ?length_app, ?length_drop, ?length_take; lia. }
  assert (length q' = if full then n else S j) as Hq'l.
  { unfold q'. destruct full; rewrite ?tail_drop, length_app, ?length_drop, Hql; simpl; lia. }
  assert (i64 ((if full then i64 (sum i - old) else sum i) + x) = i64 (sum_list q')) as Hs'.
  { unfold q'. rewrite Hsum. destruct full; rewrite sum_list_app; simpl.
    - rewrite (drop_S _ _ _ Hold) in Hqj. rewrite Hqj. simpl.
      rewrite <-Z.add_opp_r, i64_add_l, <-Z.add_assoc, i64_add_l. f_equal. lia.
    - rewrite i64_add_l. f_equal. lia. }
  split; simpl.
  - by rewrite length_insert.
  - lia.
  - intros Hf. rewrite length_app. simpl. rewrite (Hfj Hf). lia.
  - rewrite Hq', lastn_snoc by done. unfold q'. rewrite Hq0 in *. rewrite lastn_length in Hql.
    destruct full; [rewrite decide_False by lia; done|].
    rewrite decide_True by (rewrite <-(Hfj eq_refl); lia). by rewrite lastn_short by (rewrite <-(Hfj eq_refl); lia).
  - by rewrite Hq', Hs'.
  - rewrite Hq', mean_of_nonempty, Hs', Hq'l by (unfold q'; destruct full; intros [_ ?]%app_eq_nil; done).
    unfold intervals_size. simpl. rewrite length_insert, Hlen. by destruct full.
Qed.
End ring.

(** ** Windows and the detector *)

Record window_holds (n : nat) (b : Z) (ts : list time) (w : arrivalWindow) : Prop := {
  wh_last : lastTimestamp w = default zero_time (last ts);
  wh_bootstrap : w_bootstrapInterval w = b;
  wh_intervals : holds n (arrivals b ts) (w_intervals w);
}.

Lemma gaps_snoc p ts t : gaps p (ts ++ [t]) = gaps p ts ++ [time_Sub t (default p (last ts))].
Proof.
  revert p. induction ts as [|t' ts IH]; intros p; simpl; [done|]. rewrite IH, last_cons.
  by destruct (last ts).
Qed.

Lemma arrivals_snoc b ts t :
  arrivals b (ts ++ [t]) =
    arrivals b ts ++ [match last ts with Some p => time_Sub t p | None => b end].
Proof.
  destruct ts as [|t' ts]; [done|]. simpl. rewrite gaps_snoc. f_equal.
  change (t' :: ts) with ([t'] ++ ts). rewrite last_app. by destruct (last ts).
Qed.

Lemma window_holds_new n b : window_holds n b [] (newArrivalWindow b n).
Proof. split; [done|done|apply holds_new]. Qed.

Lemma AddArrival_holds n b ts t w :
  0 < n → Forall (λ t, 0 < t)%Z ts → window_holds n b ts w →
  ∃ w', AddArrival t w = Some w' ∧ window_holds n b (ts ++ [t]) w'.
Proof.
  intros Hn Hts [Hl Hb Hi]. unfold AddArrival.
  assert ((if time_After (lastTimestamp w) zero_time then time_Sub t (lastTimestamp w) else w_bootstrapInterval w)
    = match last ts with Some p => time_Sub t p | None => b end) as ->.
  { rewrite Hl, Hb. destruct (last ts) as [p|] eqn:Hp; [|done]. simpl.
    unfold time_After. rewrite bool_decide_true; [done|].
    apply last_Some_elem_of in Hp. rewrite Forall_forall in Hts. by apply Hts. }
  destruct (AddInterval_holds n Hn _ _ (match last ts with Some p => time_Sub t p | None => b end) Hi)
    as (i'&->&Hi'). simpl. eexists. split; [done|]. split; simpl; [|done|].
  - by rewrite last_snoc.
  - by rewrite arrivals_snoc.
Qed.

(** The detector after some reports. *)
Record detector_holds (n : nat) (b : Z) (rs : list (string * time)) (d : accrualFailureDetector) : Prop := {
  dh_bootstrap : bootstrapInterval d = b;
  dh_size : sampleSize d = n;
  dh_windows : ∀ id, match windows d !! id with
    | Some w => reports_of id rs ≠ [] ∧ window_holds n b (reports_of id rs) w
    | None => reports_of id rs = []
    end;
}.

Lemma reports_of_snoc id rs r :
  reports_of id (rs ++ [r]) = reports_of id rs ++ (if decide (r.1 = id) then [r.2] else []).
Proof.
  unfold reports_of. rewrite filter_app, fmap_app. f_equal. simpl.
  rewrite filter_cons. by case_decide.
Qed.

Lemma reports_positive id rs : Forall (λ r, 0 < r.2)%Z rs → Forall (λ t, 0 < t)%Z (reports_of id rs).
Proof.
  rewrite !Forall_forall. intros Hrs t (r&->&[_ Hr]%list_elem_of_filter)%list_elem_of_fmap. by apply Hrs.
Qed.

Lemma Report_holds n b rs d id t :
  0 < n → Forall (λ r, 0 < r.2)%Z rs → detector_holds n b rs d →
  ∃ d', ReportWithTimestamp d id t = Some d' ∧ detector_holds n b (rs ++ [(id, t)]) d'.
Proof.
  intros Hn Hrs [Hb Hs Hw]. unfold ReportWithTimestamp.
  assert (window_holds n b (reports_of id rs)
    (default (newArrivalWindow (bootstrapInterval d) (sampleSize d)) (windows d !! id))) as Hwin.
  { specialize (Hw id). destruct (windows d !! id) as [w|]; simpl; [by destruct Hw|].
    rewrite Hw, Hb, Hs. apply window_holds_new. }
  destruct (AddArrival_holds n b _ t _ Hn (reports_positive id _ Hrs) Hwin) as (w'&->&Hw'). simpl.
  eexists. split; [done|]. split; simpl; [done|done|]. intros id'.
  rewrite reports_of_snoc, lookup_insert. simpl. case_decide; subst.
  - split; [|done]. by intros [_ ?]%app_eq_nil.
  - rewrite app_nil_r. apply Hw.
Qed.

Lemma report_all_holds n b rs0 rs d :
  0 < n → Forall (λ r, 0 < r.2)%Z (rs0 ++ rs) → detector_holds n b rs0 d →
  ∃ d', report_all rs d = Some d' ∧ detector_holds n b (rs0 ++ rs) d'.
Proof.
  revert rs0 d. induction rs as [|[id t] rs IH]; intros rs0 d Hn Hrs Hd; simpl.
  { rewrite app_nil_r. eauto. }
  destruct (Report_holds n b rs0 d id t Hn) as (d1&->&Hd1); [by apply Forall_app in Hrs as [? _]|done|].
  simpl. replace (rs0 ++ (id, t) :: rs) with ((rs0 ++ [(id, t)]) ++ rs) in * by by rewrite <-(assoc_L (++)).
  by apply IH.
Qed.

Lemma detector_holds_new n b : detector_holds n b [] (newAccrualFailureDetector b n).
Proof. split; [done|done|]. intros id. simpl. by rewrite lookup_empty. Qed.

(** The level of one node does not depend on the others. *)
#[export] Instance accrual_laws : DetectorLaws accrualFailureDetector.
Proof.
  constructor. intros d i j t lvl d' Hne. simpl. unfold SuspicionLevelAt.
  intros Hi. destruct (windows d !! i) as [w|] eqn:Hw; simpl in Hi.
  - destruct (Phi w t); [|done]. simpl in Hi. by injection Hi as <- <-.
  - destruct (AddArrival _ _) as [w|] eqn:Hadd; [|done]. simpl in Hi.
    destruct (Phi w t) eqn:Hphi; [|done]. simpl in Hi. injection Hi as <- <-.
    simpl. rewrite lookup_insert_ne by done. destruct (windows d !! j) as [w2|]; simpl; [by destruct (Phi w2 t)|].
    rewrite Hadd. simpl. by rewrite Hphi.
Qed.

Lemma Phi_holds n b ts w t :
  Forall (λ t, 0 < t)%Z ts → ts ≠ [] → window_holds n b ts w →
  Phi w t = (if flt (float64_of_int 0) (mean_of (lastn n (arrivals b ts)))
             then Some (fdiv (float64_of_int (time_Sub t (default zero_time (last ts))))
                          (mean_of (lastn n (arrivals b ts)))) else None).
Proof.
  intros Hts Hne [Hl Hb Hi]. unfold Phi, Mean. rewrite Hl, (h_mean _ _ _ Hi), (h_queue _ _ _ Hi).
  destruct (last ts) as [p|] eqn:Hp; [|by apply last_None in Hp]. simpl.
  unfold time_After. rewrite bool_decide_true.
  2:{ apply last_Some_elem_of in Hp. rewrite Forall_forall in Hts. by apply Hts. }
  simpl. by destruct (flt _ _).
Qed.

(** ** Properties *)

(** The circular buffer is a queue: after any intervals, with a buffer of
    positive size, no write is out of range, the buffer holds exactly the last
    [sampleSize] of them in order, the running 64-bit sum is their sum, and the
    mean is that sum over their number. *)
Theorem interval_buffer_is_queue n xs :
  0 < n →
  ∃ i, foldl (λ oi x, i ← oi; AddInterval x i) (Some (newArrivalIntervals n)) xs = Some i ∧
    queue i = lastn n xs ∧ sum i = i64 (sum_list (lastn n xs)) ∧ Mean i = mean_of (lastn n xs) ∧
    intervals_size i = n `min` length xs.
Proof.
  intros Hn.
  assert (∃ i, foldl (λ oi x, i ← oi; AddInterval x i) (Some (newArrivalIntervals n)) xs = Some i ∧
    holds n xs i) as (i&Hi&Hh).
  { induction xs as [|x xs (i&Hi&Hh)] using rev_ind; [eauto using holds_new|].
    rewrite foldl_snoc, Hi. by apply AddInterval_holds. }
  exists i. rewrite <-(queue_length _ _ _ Hh). split_and!; [done|apply Hh|..].
  - rewrite <-(h_queue _ _ _ Hh). apply Hh.
  - unfold Mean. rewrite <-(h_queue _ _ _ Hh). apply Hh.
  - by rewrite (h_queue _ _ _ Hh), lastn_length.
Qed.

(** The suspicion level is the phi of the node's own messages: whatever
    messages were reported for whichever nodes, the level of a node heard of is
    the time since its last message over the mean of its last [sampleSize]
    intervals, and a node never heard of starts with one bootstrap interval and
    no time since. *)
Theorem suspicion_is_phi n b rs id t :
  0 < n → Forall (λ r, 0 < r.2)%Z rs → (0 < t)%Z →
  ∃ d, report_all rs (newAccrualFailureDetector b n) = Some d ∧
    let ts := match reports_of id rs with [] => [t] | ts => ts end in
    let m := mean_of (lastn n (arrivals b ts)) in
    fst <$> SuspicionLevelAt d id t =
      (if flt (float64_of_int 0) m
       then Some (fdiv (float64_of_int (time_Sub t (default zero_time (last ts)))) m) else None).
Proof.
  intros Hn Hrs Ht.
  destruct (report_all_holds n b [] rs _ Hn Hrs (detector_holds_new n b)) as (d&Hd&[Hb Hs Hw]).
  exists d. split; [done|]. simpl in Hw. specialize (Hw id). unfold SuspicionLevelAt.
  pose proof (reports_positive id _ Hrs) as Hts.
  destruct (windows d !! id) as [w|].
  - destruct Hw as [Hne Hw]. simpl. rewrite (Phi_holds _ _ _ _ _ Hts Hne Hw).
    destruct (reports_of id rs) as [|t0 ts]; [done|]. cbv zeta. by destruct (flt _ _).
  - rewrite Hw, Hb, Hs.
    destruct (AddArrival_holds n b [] t _ Hn ltac:(done) (window_holds_new n b)) as (w'&->&Hw').
    cbn [mbind option_bind]. rewrite (Phi_holds n b [t] w' t); [by destruct (flt _ _)|by constructor|done|done].
Qed.

(** A node whose last [sampleSize] messages all carry the timestamp of
    their predecessor has a zero mean, and asking for its level panics. *)
Theorem phi_panics_without_progress n b rs id t d :
  0 < n → Forall (λ r, 0 < r.2)%Z rs →
  lastn n (arrivals b (reports_of id rs)) = replicate n 0%Z →
  report_all rs (newAccrualFailureDetector b n) = Some d →
  SuspicionLevelAt d id t = None.
Proof.
  intros Hn Hrs Hz Hd.
  destruct (report_all_holds n b [] rs _ Hn Hrs (detector_holds_new n b)) as (d'&Hd'&[Hb Hs Hw]).
  assert (d' = d) as -> by congruence. specialize (Hw id). unfold SuspicionLevelAt. simpl in Hw.
  destruct (windows d !! id) as [w|].
  2:{ rewrite Hw in Hz. destruct n; [lia|done]. }
  destruct Hw as [Hne Hw]. simpl. rewrite (Phi_holds _ _ _ _ _ (reports_positive id _ Hrs) Hne Hw), Hz.
  destruct n as [|n]; [lia|].
  assert (sum_list (replicate (S n) 0%Z) = 0%Z) as Hsum.
  { clear. induction (S n) as [|k IH]; simpl; lia. }
  unfold mean_of. simpl replicate. cbv iota. simpl in Hsum.
  change (foldr Z.add 0%Z (replicate n 0%Z)) with (sum_list (replicate n 0%Z)) in Hsum.
  change (sum_list (0%Z :: replicate n 0%Z)) with (0 + sum_list (replicate n 0%Z))%Z. rewrite Hsum.
  change (float64_of_int (i64 0)) with (SpecFloat.S754_zero false).
  by destruct (float64_of_int (Z.of_nat _)) as [[]|[]| |[]].
Qed.

(** ** Witnesses *)

Definition ex_reports : list (string * time) :=
  [("n2", 10); ("n3", 12); ("n2", 30); ("n2", 40); ("n2", 40); ("n2", 40)]%Z.

Lemma interval_buffer_is_queue_witness :
  ∃ i, foldl (λ oi x, i ← oi; AddInterval x i) (Some (newArrivalIntervals 2)) [5; 7; 9]%Z = Some i ∧
    queue i = [7; 9]%Z.
Proof.
  destruct (interval_buffer_is_queue 2 [5; 7; 9]%Z ltac:(lia)) as (i&Hi&Hq&_).
  exists i. split; [exact Hi|]. by rewrite Hq.
Defined.

Lemma suspicion_is_phi_witness :
  ∃ d, report_all (take 4 ex_reports) (newAccrualFailureDetector 100 2) = Some d ∧
    fst <$> SuspicionLevelAt d "n2" 70 = Some (float64_of_int 2).
Proof.
  destruct (suspicion_is_phi 2 100 (take 4 ex_reports) "n2" 70 ltac:(lia) ltac:(by repeat constructor)
    ltac:(lia)) as (d&Hd&Hs).
  exists d. split; [exact Hd|]. rewrite Hs. by vm_compute.
Defined.

Lemma phi_panics_without_progress_witness :
  ∃ d, report_all ex_reports (newAccrualFailureDetector 100 2) = Some d ∧ SuspicionLevelAt d "n2" 70 = None.
Proof.
  eexists. split; [by vm_compute|].
  apply (phi_panics_without_progress 2 100 ex_reports "n2" 70); [lia|by repeat constructor|by vm_compute|by vm_compute].
Defined.
