(* ===== verification/GossipMetrics.v ===== *)
(** * The gauge of entries: pkg/gossip/state.go and metrics.go

    [clusterState] counts the entries it holds in a gauge labelled by node and
    by the two flags of an entry.  The counter of each label is kept up to date
    by increments and decrements along the operations; here they are added up
    and compared with the entries. *)

From S2P Require Import Prelude GoLib GossipState GossipReplica GossipMembership FailureDetector.

(** ** Definitions *)

(** The counters of [Metrics.Entries], by node, internal and deleted flag. *)
Abbreviation gauge := (gmap (string * bool * bool) Z).

Definition gauge_get (g : gauge) (id : string) (internal deleted : bool) : Z := default 0%Z (g !! (id, internal, deleted)).

(** What an operation does to the gauge. *)
Definition gauge_effect (g : gauge) (eff : effect) : gauge :=
  match eff with
  | EntriesInc id i d => <[(id, i, d) := (gauge_get g id i d + 1)%Z]> g
  | EntriesDec id i d => <[(id, i, d) := (gauge_get g id i d - 1)%Z]> g
  | EntriesDeletePartialMatch id => filter (λ p, p.1.1.1 ≠ id) g
  | _ => g
  end.

Definition gauge_effects (g : gauge) (effs : list effect) : gauge := foldl gauge_effect g effs.

(** The entries with the given flags. *)
Definition flagged (internal deleted : bool) (p : string * Entry) : Prop :=
  e_Internal p.2 = internal ∧ e_Deleted p.2 = deleted.

#[export] Instance flagged_dec i d p : Decision (flagged i d p).
Proof. unfold flagged. apply _. Defined.

Definition entries_with (internal deleted : bool) (es : gmap string Entry) : Z :=
  Z.of_nat (size (filter (flagged internal deleted) es)).

(** No key is empty: an empty key is how the code tells a missing entry. *)
Definition named (es : gmap string Entry) : Prop := es !! "" = None.

Definition delta_named (d : delta) : Prop := ∀ de e, de ∈ d → e ∈ dl_Entries de → e_Key e ≠ "".

Definition op_named (op : state_op) : Prop :=
  match op with
  | SLocal (OpUpsert key _) => key ≠ ""
  | SApplyDelta _ _ d => delta_named d
  | _ => True
  end.

(** ** Lemmas *)

Lemma gauge_effects_app g w1 w2 : gauge_effects g (w1 ++ w2) = gauge_effects (gauge_effects g w1) w2.
Proof. apply foldl_app. Qed.

Lemma gauge_get_insert g id i d z id' i' d' :
  gauge_get (<[(id, i, d) := z]> g) id' i' d' = if decide ((id, i, d) = (id', i', d')) then z else gauge_get g id' i' d'.
Proof. unfold gauge_get. rewrite lookup_insert. by case_decide. Qed.

Lemma gauge_get_forget g id id' i d :
  gauge_get (filter (λ p, p.1.1.1 ≠ id) g) id' i d = if decide (id' = id) then 0%Z else gauge_get g id' i d.
Proof.
  unfold gauge_get. rewrite map_lookup_filter. case_decide as Hid.
  - subst. destruct (g !! _); simpl; [|done]. by rewrite option_guard_False by (simpl; tauto).
  - destruct (g !! _); simpl; [|done]. by rewrite option_guard_True.
Qed.

(** *** Counting *)

Definition flag_count (internal deleted : bool) (e : Entry) : Z :=
  if decide (e_Internal e = internal ∧ e_Deleted e = deleted) then 1%Z else 0%Z.

Lemma entries_with_delete i d es k e :
  es !! k = Some e → entries_with i d es = (entries_with i d (delete k es) + flag_count i d e)%Z.
Proof.
  intros Hk. unfold entries_with, flag_count. rewrite <-(insert_delete_id es k e Hk) at 1. case_decide as Hf.
  - rewrite map_filter_insert_True by done. rewrite map_size_insert_None; [lia|].
    rewrite map_lookup_filter, lookup_delete_eq. done.
  - rewrite map_filter_insert_False by done. rewrite delete_delete_eq. lia.
Qed.

Lemma entries_with_insert i d es k e :
  entries_with i d (<[k := e]> es) = (entries_with i d (delete k es) + flag_count i d e)%Z.
Proof. rewrite (entries_with_delete i d _ k e) by apply lookup_insert_eq. by rewrite delete_insert_eq. Qed.

Lemma entries_with_empty i d : entries_with i d ∅ = 0%Z.
Proof. unfold entries_with. by rewrite map_filter_empty. Qed.

(** *** The entries of one node *)

(** The gauge of node [id] counts [es]. *)
Definition counts_entries (g : gauge) (id : string) (es : gmap string Entry) : Prop :=
  ∀ i d, gauge_get g id i d = entries_with i d es.

(** From entries that the gauge counts, effects that only touch the node lead to
    entries that it counts. *)
Definition metered (id : string) (es es' : gmap string Entry) (w : list effect) : Prop :=
  keys_ok es → named es →
  keys_ok es' ∧ named es' ∧
  ∀ g, counts_entries g id es → counts_entries (gauge_effects g w) id es' ∧
    ∀ id' i d, id' ≠ id → gauge_get (gauge_effects g w) id' i d = gauge_get g id' i d.

Lemma metered_refl id es : metered id es es [].
Proof. intros Hk Hn. by split_and!. Qed.

Lemma metered_trans id es1 es2 es3 w1 w2 :
  metered id es1 es2 w1 → metered id es2 es3 w2 → metered id es1 es3 (w1 ++ w2).
Proof.
  intros H1 H2 Hk Hn. destruct (H1 Hk Hn) as (Hk2&Hn2&G1), (H2 Hk2 Hn2) as (Hk3&Hn3&G2).
  split_and!; [done|done|]. intros g Hg. destruct (G1 g Hg) as [Hg2 O1], (G2 _ Hg2) as [Hg3 O2].
  rewrite gauge_effects_app. split; [done|]. intros id' i d Hne. by rewrite O2, O1.
Qed.

(** Watcher calls do not count. *)
Lemma metered_calls id es es' w cs : metered id es es' w → metered id es es' (w ++ (Watch <$> cs)).
Proof.
  intros Hw Hk Hn. destruct (Hw Hk Hn) as (?&?&G). split_and!; [done|done|]. intros g Hg.
  assert (∀ g, gauge_effects g (Watch <$> cs) = g) as Hc.
  { clear. induction cs as [|c cs IH]; intros g; [done|]. apply IH. }
  rewrite gauge_effects_app, Hc. by apply G.
Qed.

Lemma metered_then id es1 es2 es3 w1 c w2 :
  metered id es1 es2 w1 → metered id es2 es3 w2 → metered id es1 es3 (w1 ++ Watch c :: w2).
Proof.
  intros H1 H2. rewrite cons_middle, (assoc_L (++)). eapply metered_trans; [|exact H2].
  by apply (metered_calls _ _ _ _ [c]).
Qed.

Lemma put_keys es e : keys_ok es → keys_ok (<[e_Key e := e]> es).
Proof. intros Hk k x. rewrite lookup_insert. case_decide; [by intros [= <-]|apply Hk]. Qed.

Lemma put_named es k e : k ≠ "" → named es → named (<[k := e]> es).
Proof. intros Hk Hn. unfold named. by rewrite lookup_insert_ne. Qed.

(** The cases of the flags of the entries at hand. *)
Ltac flag_cases := repeat case_decide; destruct_and?; simplify_eq/=; first [lia|congruence|exfalso; naive_solver].

(** A new entry in place of the one of its key. *)
Lemma put_metered id es e :
  e_Key e ≠ "" →
  metered id es (<[e_Key e := e]> es) (metricsUpsertEntry id e (default zero_entry (es !! e_Key e))).
Proof.
  intros Hkey Hk Hn. split_and!; [by apply put_keys|by apply put_named|]. intros g Hg.
  unfold metricsUpsertEntry, metricsAddEntry, metricsDeleteEntry.
  destruct (es !! e_Key e) as [x|] eqn:Hx; simpl.
  - rewrite (Hk _ _ Hx), decide_True by done. simpl. split.
    + intros i d. specialize (Hg i d). rewrite entries_with_insert. rewrite (entries_with_delete _ _ _ _ _ Hx) in Hg.
      unfold flag_count in *. rewrite !gauge_get_insert. flag_cases.
    + intros id' i d Hne. rewrite !gauge_get_insert. rewrite !decide_False by congruence. done.
  - simpl. split.
    + intros i d. specialize (Hg i d). rewrite entries_with_insert, delete_id by done.
      unfold flag_count. rewrite gauge_get_insert. flag_cases.
    + intros id' i d Hne. rewrite gauge_get_insert. rewrite decide_False by congruence. done.
Qed.

Lemma put_new_metered id es e :
  e_Key e ≠ "" → es !! e_Key e = None → metered id es (<[e_Key e := e]> es) (metricsAddEntry id e).
Proof. intros Hkey Hx. pose proof (put_metered id es e Hkey) as Hp. by rewrite Hx in Hp. Qed.

Lemma delete_metered id es e : es !! e_Key e = Some e → metered id es (delete (e_Key e) es) (metricsDeleteEntry id e).
Proof.
  intros Hx Hk Hn. split_and!.
  - intros k x [_ ?]%lookup_delete_Some. by apply Hk.
  - unfold named. rewrite lookup_delete. by case_decide.
  - intros g Hg. simpl. split.
    + intros i d. specialize (Hg i d). rewrite (entries_with_delete _ _ _ _ _ Hx) in Hg.
      unfold flag_count in Hg. rewrite gauge_get_insert. flag_cases.
    + intros id' i d Hne. rewrite gauge_get_insert. rewrite decide_False by congruence. done.
Qed.

Lemma forget_metered id es : metered id es ∅ [EntriesDeletePartialMatch id].
Proof.
  intros _ _. split_and!; [intros k x Hx; by rewrite lookup_empty in Hx|apply lookup_empty|]. intros g _. simpl. split.
  - intros i d. by rewrite gauge_get_forget, decide_True, entries_with_empty.
  - intros id' i d Hne. by rewrite gauge_get_forget, decide_False.
Qed.

Lemma discard_metered id nid cv es key : metered id es (discardEntry id nid cv es key).1 (discardEntry id nid cv es key).2.
Proof.
  intros Hk Hn. unfold discardEntry. destruct (es !! key) as [e|] eqn:He; [|by apply metered_refl].
  case_decide; [|by apply metered_refl]. simpl. pose proof (Hk _ _ He) as <-.
  set (cs := if e_Deleted e then [] else [OnDeleteKey nid (e_Key e)]).
  assert ((if e_Deleted e then [] else [Watch (OnDeleteKey nid (e_Key e))]) = Watch <$> cs) as ->.
  { unfold cs. by destruct (e_Deleted e). }
  by apply (metered_calls _ _ _ _ cs (delete_metered id es e He)).
Qed.

Lemma discardCompacted_metered `{MapIter} id nid cv es :
  metered id es (discardCompacted id nid cv es).1 (discardCompacted id nid cv es).2.
Proof.
  apply (fold_emit_rel (metered id)); [apply metered_refl|apply metered_trans|]. intros. apply discard_metered.
Qed.

(** The loop over a delta. *)
Lemma applyEntries_metered `{MapIter} now id nid st es :
  n_ID (ns_meta st) = id → (∀ e, e ∈ es → e_Key e ≠ "") →
  metered id (ns_Entries st) (ns_Entries (applyEntries now nid st es).1) (applyEntries now nid st es).2.
Proof.
  revert st. induction es as [|e es IH]; intros st Hid Hes; simpl; [apply metered_refl|].
  assert (∀ x, x ∈ es → e_Key x ≠ "") as Hes' by (intros; apply Hes; by right).
  case_decide; [by apply IH|].
  pose proof (put_metered id (ns_Entries st) e (Hes e ltac:(left))) as Hput. rewrite Hid.
  destruct (e_Internal e).
  - case_decide.
    { pose proof (IH (set_Expiry (now + nodeExpiry) (set_Left (put_entry e st))) Hid Hes') as Hx.
      destruct (applyEntries _ _ _ es) as [st2 w2]. simpl in Hx |- *. by eapply metered_then. }
    case_decide.
    { destruct (ParseUint (e_Value e)) as [cv|]; [|done].
      pose proof (discardCompacted_metered id nid cv (ns_Entries (put_entry e st))) as Hd. simpl in Hd |- *.
      destruct (discardCompacted _ _ _ _) as [es1 wc]. simpl in Hd.
      pose proof (IH (set_Entries es1 (put_entry e st)) Hid Hes') as Hx.
      destruct (applyEntries _ _ _ es) as [st2 w2]. simpl in Hx |- *.
      eapply metered_trans; [exact Hput|]. by eapply metered_trans. }
    pose proof (IH (put_entry e st) Hid Hes') as Hx. destruct (applyEntries _ _ _ es) as [st2 w2].
    by eapply metered_trans.
  - pose proof (IH (put_entry e st) Hid Hes') as Hx. destruct (applyEntries _ _ _ es) as [st2 w2]. simpl in Hx |- *.
    by eapply metered_then.
Qed.

(** *** The local operations *)

Lemma reversion_metered l st id :
  n_ID (ns_meta st) = id → NoDup (e_Key <$> l) → (∀ e, e ∈ l → ns_Entries st !! e_Key e = None ∧ e_Key e ≠ "") →
  metered id (ns_Entries st) (ns_Entries (fold_emit reversionEntry st l).1) (fold_emit reversionEntry st l).2 ∧
  n_ID (ns_meta (fold_emit reversionEntry st l).1) = id.
Proof.
  revert st. induction l as [|e l IH]; intros st Hid Hnd Hl; [by split; [apply metered_refl|]|].
  cbn [fold_emit]. rewrite fmap_cons in Hnd. apply NoDup_cons in Hnd as [Hni Hnd]. destruct (Hl e ltac:(left)) as [Hnone Hkey].
  assert (∀ x, x ∈ l → ns_Entries st !! e_Key x = None ∧ e_Key x ≠ "") as Hl' by (intros; apply Hl; by right).
  destruct (decide (kept e)) as [Hk|Hk].
  - set (e' := with_version (next_version st) e). assert (e_Key e' = e_Key e) as Hke by done.
    assert (reversionEntry st e = (put_entry e' st, metricsAddEntry (n_ID (ns_meta st)) e')) as ->.
    { destruct Hk as [Hd Hc]. unfold reversionEntry, e', with_version. by rewrite Hd, decide_False. }
    destruct (IH (put_entry e' st)) as [Hm Hi]; [done|exact Hnd| |].
    { intros x Hx. destruct (Hl' x Hx). split; [|done]. simpl. rewrite lookup_insert_ne; [done|].
      intros Heq. apply Hni, list_elem_of_fmap. exists x. by rewrite <-Heq. }
    destruct (fold_emit reversionEntry (put_entry e' st) l) as [st2 w2]. simpl in *. split; [|done].
    rewrite Hid. exact (metered_trans _ _ _ _ _ _ (put_new_metered id _ e' Hkey Hnone) Hm).
  - assert (reversionEntry st e = (st, [])) as ->.
    { unfold reversionEntry. unfold kept in Hk. destruct (e_Deleted e); [done|]. rewrite decide_True; [done|].
      apply dec_stable. naive_solver. }
    destruct (IH st Hid Hnd Hl') as [Hm Hi]. by destruct (fold_emit reversionEntry st l).
Qed.

Lemma compactNode_metered `{MapIter} O O' threshold effs id :
  owner_wf O → room O → n_ID (ns_meta O) = id → compactNode threshold O = Some (O', effs) →
  metered id (ns_Entries O) (ns_Entries O') effs.
Proof.
  intros Hown Hroom Hid. unfold compactNode. case_decide; [intros [= <- <-]; apply metered_refl|].
  set (l := sort_by e_Version (map_range (ns_Entries O)).*2).
  destruct (last l) as [e|] eqn:Hl; [|done]. simpl. intros Hc Hk Hn. revert Hc.
  destruct (reversion_metered l (set_Entries ∅ O) id) as [Hm Hi]; [done|by apply NoDup_entries_keys| |].
  { intros x Hx. split; [done|]. apply (elem_of_entries O Hown) in Hx. intros Hkey. rewrite Hkey in Hx.
    unfold named in Hn. congruence. }
  pose proof (st1_no_compact O Hown Hroom) as Hnc. fold l in Hnc.
  destruct (fold_emit reversionEntry (set_Entries ∅ O) l) as [st1 w1]. simpl in *. intros [= <- <-].
  revert Hk Hn. change (metered id (ns_Entries O)
    (<[compactKey := mkEntry compactKey (FormatUint (e_Version e)) (next_version st1) true false]> (ns_Entries st1))
    ([EntriesDeletePartialMatch (n_ID (ns_meta O))] ++ w1 ++
      metricsAddEntry (n_ID (ns_meta O)) (mkEntry compactKey (FormatUint (e_Version e)) (next_version st1) true false))).
  rewrite Hid. eapply metered_trans; [apply forget_metered|]. eapply metered_trans; [exact Hm|].
  by apply (put_new_metered id (ns_Entries st1) (mkEntry compactKey _ _ true false)).
Qed.

Definition local_named (op : owner_op) : Prop := match op with OpUpsert key _ => key ≠ "" | _ => True end.

Lemma run_op_metered `{MapIter} op O O' effs id :
  owner_wf O → room O → local_named op → n_ID (ns_meta O) = id → run_op op O = Some (O', effs) →
  metered id (ns_Entries O) (ns_Entries O') effs.
Proof.
  intros Hown Hroom Hop Hid. destruct op as [key value|key| |threshold]; simpl.
  - unfold upsertNode. case_decide; intros [= <- <-]; [apply metered_refl|]. rewrite Hid.
    by apply (put_metered id (ns_Entries O) (mkEntry key value (next_version O) false false)).
  - unfold deleteNode. destruct (ns_Entries O !! key) as [x|] eqn:Hx; [|intros [= <- <-]; apply metered_refl].
    destruct (e_Deleted x); intros [= <- <-]; [apply metered_refl|]. rewrite Hid.
    pose proof (wf_key _ (own_node _ Hown) _ _ Hx) as Hkey.
    intros Hk Hn. revert Hk Hn.
    pose proof (put_metered id (ns_Entries O) (mkEntry (e_Key x) "" (next_version O) (e_Internal x) true)) as Hp.
    simpl in Hp. rewrite Hkey, Hx in Hp. intros Hk Hn. rewrite Hkey. apply Hp; [|done|done].
    intros ->. unfold named in Hn. congruence.
  - unfold leaveNode. destruct (n_Left (ns_meta O)) eqn:Hleft; intros [= <- <-]; [apply metered_refl|]. rewrite Hid.
    apply (put_new_metered id (ns_Entries O) (mkEntry leftKey "" (next_version O) true false)); [done|].
    apply eq_None_not_Some. intros Hl%(own_left _ Hown). congruence.
  - by apply compactNode_metered.
Qed.

(** *** The state *)

Definition names_ok (s : clusterState) : Prop := ∀ id st, nodes s !! id = Some st → named (ns_Entries st).

(** The gauge counts the entries of every known node and of no other. *)
Definition gauged (s : clusterState) (g : gauge) : Prop :=
  ∀ id, counts_entries g id (default ∅ (ns_Entries <$> nodes s !! id)).

Definition meters (s s' : clusterState) (w : list effect) : Prop :=
  tracked s s' w ∧
  (state_wf s → names_ok s → names_ok s' ∧ ∀ g, gauged s g → gauged s' (gauge_effects g w)).

Lemma meters_refl s : meters s s [].
Proof. split; [apply tracked_refl|]. intros _ Hn. by split. Qed.

Lemma meters_trans s1 s2 s3 w1 w2 : meters s1 s2 w1 → meters s2 s3 w2 → meters s1 s3 (w1 ++ w2).
Proof.
  intros [T1 G1] [T2 G2]. split; [by eapply tracked_trans|]. intros Hs Hn. destruct (T1 Hs) as (_&Hs2&_).
  destruct (G1 Hs Hn) as [Hn2 H1], (G2 Hs2 Hn2) as [Hn3 H2]. split; [done|].
  intros g Hg. rewrite gauge_effects_app. auto.
Qed.

(** Storing a node whose entries the effects count. *)
Lemma put_meters s id st w tombs :
  metered id (default ∅ (ns_Entries <$> nodes s !! id)) (ns_Entries st) w → state_wf s → names_ok s →
  let s' := mkState (localID s) (<[id := st]> (nodes s)) tombs in
  names_ok s' ∧ ∀ g, gauged s g → gauged s' (gauge_effects g w).
Proof.
  intros Hm Hs Hn s'. destruct Hm as (_&Hn'&Hg).
  { destruct (nodes s !! id) as [x|] eqn:Hx; simpl; [exact (wf_key _ (swf_nodes _ Hs _ _ Hx))|].
    intros k e Hk. by rewrite lookup_empty in Hk. }
  { destruct (nodes s !! id) as [x|] eqn:Hx; simpl; [by apply (Hn id)|exact (lookup_empty _)]. }
  split.
  - intros k x. simpl. rewrite lookup_insert. case_decide; [by intros [= <-]|apply Hn].
  - intros g Hgs k i d. destruct (Hg g (Hgs id)) as [Hc Ho]. simpl.
    destruct (decide (k = id)) as [->|Hne]; [rewrite lookup_insert_eq; apply Hc|].
    rewrite lookup_insert_ne by done. rewrite Ho by done. apply Hgs.
Qed.

Lemma gauged_tombs s tombs : names_ok s → names_ok (mkState (localID s) (nodes s) tombs) ∧
  ∀ g, gauged s g → gauged (mkState (localID s) (nodes s) tombs) g.
Proof. by split. Qed.

Lemma applyDigestEntry_meters sender s entry :
  meters s (applyDigestEntry sender s entry).1 (applyDigestEntry sender s entry).2.
Proof.
  split; [apply applyDigestEntry_tracked|]. intros Hs Hn. unfold applyDigestEntry.
  destruct (nodes s !! dg_ID entry) eqn:Hx; [by split|]. destruct (dg_Left entry); [by split|].
  destruct (tombstoned _ _ _) as [dead tombs]. destruct dead; simpl; [by apply gauged_tombs|].
  apply (put_meters s _ _ [Watch (OnJoin (dg_ID entry))]); [|done|done]. rewrite Hx.
  exact (metered_calls _ _ _ _ [OnJoin (dg_ID entry)] (metered_refl _ _)).
Qed.

Lemma applyDeltaEntry_meters `{MapIter} now sender s entry :
  (0 ≤ now)%Z → (∀ e, e ∈ dl_Entries entry → entry_ok e ∧ e_Key e ≠ "") →
  meters s (applyDeltaEntry now sender s entry).1 (applyDeltaEntry now sender s entry).2.
Proof.
  intros Hnow Hes. split; [apply applyDeltaEntry_tracked; [done|by intros e He; apply Hes]|].
  assert (∀ e, e ∈ dl_Entries entry → e_Key e ≠ "") as Hkeys by (intros e He; by apply Hes).
  intros Hs Hn. unfold applyDeltaEntry. case_decide; [by split|].
  destruct (nodes s !! dl_ID entry) as [st|] eqn:Hx.
  - pose proof (applyEntries_metered now (dl_ID entry) (dl_ID entry) st _ (swf_ids _ Hs _ _ Hx) Hkeys) as Hm.
    destruct (applyEntries _ _ st _) as [st' w]. apply put_meters; [|done|done]. by rewrite Hx.
  - destruct (tombstoned _ _ _) as [dead tombs]. destruct dead; [by apply gauged_tombs|].
    pose proof (applyEntries_metered now (dl_ID entry) (dl_ID entry) (newNode (dl_ID entry) (dl_Addr entry)) _ eq_refl Hkeys) as Hm.
    destruct (applyEntries _ _ (newNode _ _) _) as [st' w]. apply put_meters; [|done|done]. rewrite Hx.
    exact (metered_then _ _ _ _ [] _ _ (metered_refl _ _) Hm).
Qed.

Lemma removeNode_meters t s id : id ≠ localID s → meters s (removeNode t s id).1 (removeNode t s id).2.
Proof.
  intros Hne. split; [by apply removeNode_tracked|]. intros Hs Hn. simpl. split.
  - intros k x Hx. simpl in Hx. apply lookup_delete_Some in Hx as [_ Hx]. by apply (Hn k).
  - intros g Hg k i d. simpl. rewrite gauge_get_forget. case_decide as Hk.
    + subst. rewrite lookup_delete_eq. simpl. by rewrite entries_with_empty.
    + rewrite lookup_delete_ne by done. apply Hg.
Qed.

Lemma RemoveExpiredAt_meters `{MapIter} s t : meters s (RemoveExpiredAt s t).1 (RemoveExpiredAt s t).2.
Proof.
  split; [apply RemoveExpiredAt_tracked|]. intros Hs. unfold RemoveExpiredAt.
  set (tombs := filter _ (tombstones s)). set (ids := (λ st, n_ID (ns_meta st)) <$> _).
  assert (state_wf (mkState (localID s) (nodes s) tombs)) as Hs'.
  { apply drop_tombstones_wf; [done|apply map_filter_subseteq]. }
  assert (∀ id, id ∈ ids → id ≠ localID s) as Hids by by intros id [Hid _]%expired_not_local.
  assert (∀ s0, localID s0 = localID s → meters s0 (fold_emit (removeNode t) s0 ids).1 (fold_emit (removeNode t) s0 ids).2) as Hm.
  { clearbody ids. induction ids as [|id ids IH]; intros s0 Hl; [apply meters_refl|].
    pose proof (removeNode_meters t s0 id ltac:(rewrite Hl; apply Hids; by left)) as H1.
    specialize (IH ltac:(intros; apply Hids; by right) (removeNode t s0 id).1 Hl). simpl in *.
    destruct (fold_emit (removeNode t) _ ids). exact (meters_trans _ _ _ _ _ H1 IH). }
  intros Hn. exact (proj2 (Hm (mkState (localID s) (nodes s) tombs) eq_refl) Hs' Hn).
Qed.

(** Liveness changes no entries and only calls the watcher. *)
Definition keeps_entries (s s' : clusterState) (w : list effect) : Prop :=
  (∀ id, ns_Entries <$> nodes s' !! id = ns_Entries <$> nodes s !! id) ∧ ∃ cs, w = Watch <$> cs.

Lemma keeps_entries_meters s s' w : tracked s s' w → keeps_entries s s' w → meters s s' w.
Proof.
  intros Ht [He [cs ->]]. split; [done|]. intros Hs Hn. split.
  - intros id st Hst. specialize (He id). rewrite Hst in He. destruct (nodes s !! id) as [st0|] eqn:H0; [|done].
    simpl in He. injection He as ->. by apply (Hn id).
  - intros g Hg id. rewrite He.
    assert (gauge_effects g (Watch <$> cs) = g) as ->; [|apply Hg].
    clear. revert g. induction cs as [|c cs IH]; intros g; [done|apply IH].
Qed.

Lemma updateLiveness_loop_entries `{FailureDetector D} now thr l s (d : D) s' d' w :
  NoDup l.*1 → Forall (λ p, nodes s !! p.1 = Some p.2) l →
  updateLiveness_loop now thr s d l = Some (s', d', w) → keeps_entries s s' w.
Proof.
  revert s d s' d' w. induction l as [|[key node] l IH]; intros s d s' d' w Hnd Hl Hu; simpl in Hu.
  { simplify_eq. split; [done|by exists []]. }
  apply NoDup_cons in Hnd as [Hnin Hnd]. apply Forall_cons in Hl as [Hk Hl]. simpl in Hk.
  destruct (updateNodeLiveness _ _ _ _ _ _) as [[[s1 d1] w1]|] eqn:H1; [|done]. simpl in Hu.
  destruct (updateLiveness_loop _ _ _ _ _) as [[[s2 d2] w2]|] eqn:H2; [|done]. simplify_eq/=.
  assert (keeps_entries s s1 w1 ∧ ∀ k, k ≠ key → nodes s1 !! k = nodes s !! k) as [[He1 [c1 ->]] Hother].
  { unfold updateNodeLiveness in H1. case_decide; [simplify_eq; by split; [split; [|exists []]|]|].
    destruct (SuspicionLevel _ _ _) as [[lvl dx]|]; [|done]. simpl in H1.
    assert (∀ t b c, keeps_entries s (set_node key (set_Expiry t (set_Unreachable b node)) s) [Watch c] ∧
      ∀ k, k ≠ key → nodes (set_node key (set_Expiry t (set_Unreachable b node)) s) !! k = nodes s !! k) as Hset.
    { intros t b c. split; [split; [|by exists [c]]|].
      - intros id. simpl. rewrite lookup_insert. case_decide; [subst; by rewrite Hk|done].
      - intros k Hne. simpl. by rewrite lookup_insert_ne. }
    destruct (flt thr lvl), (n_Unreachable (ns_meta node)); simplify_eq;
      first [apply Hset|by split; [split; [|exists []]|]]. }
  destruct (IH s1 d1 s' d' w2 Hnd) as [He2 [c2 ->]]; [|done|].
  { rewrite Forall_forall in Hl |- *. intros p Hp. rewrite Hother; [by apply Hl|].
    intros <-. apply Hnin. by apply list_elem_of_fmap_2. }
  split; [intros id; by rewrite He2|]. exists (c1 ++ c2). by rewrite fmap_app.
Qed.

Lemma run_state_meters `{MapIter, FailureDetector D} op s (d : D) s' d' w :
  state_op_ok s op → op_named op → run_state op s d = Some (s', d', w) → meters s s' w.
Proof.
  intros Hok Hnm Hrun. pose proof (run_state_tracked _ _ _ _ _ _ Hok Hrun) as Ht.
  destruct op as [op|sender dg|now sender dl|t|now thr]; simpl in *.
  - split; [done|]. intros Hs Hn. destruct (run_local op s) as [[s1 w1]|] eqn:Hl; [|done]. simpl in Hrun.
    injection Hrun as <- _ <-. rewrite run_local_with in Hl. unfold with_local in Hl.
    destruct (swf_local _ Hs) as (st&Hst&Hown&_). rewrite Hst in Hl. simpl in Hl.
    destruct (run_op op st) as [[st' w']|] eqn:Hop; [|done]. simpl in Hl. injection Hl as <- <-.
    destruct Hok as [_ Hroom]. apply put_meters; [|done|done]. rewrite Hst. simpl.
    apply (run_op_metered op); [done|by apply Hroom| |by apply (swf_ids _ Hs)|done]. by destruct op.
  - destruct (ApplyDigest s sender dg) as [s1 w1] eqn:Hd. injection Hrun as <- _ <-.
    replace s1 with (ApplyDigest s sender dg).1 by by rewrite Hd.
    replace w1 with (ApplyDigest s sender dg).2 by by rewrite Hd.
    apply (fold_emit_rel meters); [apply meters_refl|apply meters_trans|]. intros. apply applyDigestEntry_meters.
  - destruct Hok as [Hnow Hes]. destruct (ApplyDelta now s sender dl) as [s1 w1] eqn:Hd. injection Hrun as <- _ <-.
    replace s1 with (ApplyDelta now s sender dl).1 by by rewrite Hd.
    replace w1 with (ApplyDelta now s sender dl).2 by by rewrite Hd.
    apply (fold_emit_rel meters); [apply meters_refl|apply meters_trans|].
    intros s0 de Hde. apply applyDeltaEntry_meters; [done|]. intros e He. split; [by eapply Hes|by eapply Hnm].
  - destruct (RemoveExpiredAt s t) as [s1 w1] eqn:Hd. injection Hrun as <- _ <-.
    replace s1 with (RemoveExpiredAt s t).1 by by rewrite Hd.
    replace w1 with (RemoveExpiredAt s t).2 by by rewrite Hd. apply RemoveExpiredAt_meters.
  - apply keeps_entries_meters; [done|]. eapply updateLiveness_loop_entries; [apply NoDup_map_range_fst| |done].
    rewrite Forall_forall. intros [k st]. by rewrite elem_of_map_range.
Qed.

Lemma run_states_meters `{MapIter, FailureDetector D} ops s (d : D) s' d' w :
  ops_ok ops s d → Forall op_named ops → run_states ops s d = Some (s', d', w) → meters s s' w.
Proof.
  revert s d w. induction ops as [|op ops IH]; intros s d w; simpl.
  { intros _ _ [= <- <- <-]. apply meters_refl. }
  intros [Hop Hops] [Hnm Hnms]%Forall_cons. destruct (run_state op s d) as [[[s1 d1] w1]|] eqn:H1; [|done]. simpl.
  destruct (run_states ops s1 d1) as [[[s2 d2] w2]|] eqn:H2; [|done]. intros [= -> -> <-].
  eapply meters_trans; [by eapply run_state_meters|]. eapply IH; [|done|done]. by eapply Hops.
Qed.

(** ** Properties *)

(** C24. The gauge of entries is exact: after any sequence of operations of a
    node, from its creation, over keys that are not empty, the counter of every
    node and pair of flags is the number of entries with these flags that the
    node holds of it, and zero for a node it does not know. *)
Theorem entries_gauge_exact `{MapIter, FailureDetector D} id addr ops (d : D) s' d' effs :
  ops_ok ops (newClusterState id addr) d → Forall op_named ops →
  run_states ops (newClusterState id addr) d = Some (s', d', effs) →
  ∀ node internal deleted, gauge_get (gauge_effects ∅ effs) node internal deleted =
    match nodes s' !! node with
    | Some st => entries_with internal deleted (ns_Entries st)
    | None => 0%Z
    end.
Proof.
  intros Hok Hnm Hrun node i d0. destruct (run_states_meters _ _ _ _ _ _ Hok Hnm Hrun) as [_ Hm].
  destruct (Hm (state_wf_new id addr)) as [_ Hg].
  { intros k st Hk. simpl in Hk. apply lookup_singleton_Some in Hk as [_ <-]. exact (lookup_empty _). }
  assert (gauged (newClusterState id addr) ∅) as Hz.
  { intros k x y. unfold gauge_get. rewrite lookup_empty. simpl. destruct (decide (k = id)) as [->|Hne].
    - by rewrite lookup_singleton_eq.
    - by rewrite lookup_singleton_ne. }
  rewrite (Hg _ Hz node i d0). by destruct (nodes s' !! node).
Qed.

(** An empty key is taken for a missing entry: updating it counts it again. *)
Lemma empty_key_miscounted :
  ∃ s1 w1 s2 w2, UpsertLocal (newClusterState "n1" "10.0.0.1:8003") "" "a" = Some (s1, w1) ∧
    UpsertLocal s1 "" "b" = Some (s2, w2) ∧ size (default ∅ (ns_Entries <$> nodes s2 !! "n1")) = 1 ∧
    gauge_get (gauge_effects ∅ (w1 ++ w2)) "n1" false false = 2%Z.
Proof. eexists _, _, _, _. split; [by vm_compute|]. split; [by vm_compute|]. split; by vm_compute. Qed.

(** ** Witnesses *)

(** The arguments of operations are good, as a computation. *)
#[local] Instance op_ok_dec op : Decision (op_ok op).
Proof. unfold op_ok, user_key. destruct op; apply _. Defined.
#[local] Instance entry_ok_dec e : Decision (entry_ok e).
Proof. unfold entry_ok, internal_key. apply _. Defined.

Definition state_op_check (s : clusterState) (op : state_op) : bool :=
  match op with
  | SLocal op => bool_decide (op_ok op) &&
      match nodes s !! localID s with Some st => bool_decide (room st) | None => true end
  | SApplyDigest _ _ => true
  | SApplyDelta now _ d => bool_decide (0 ≤ now)%Z &&
      forallb (λ de, forallb (λ e, bool_decide (entry_ok e)) (dl_Entries de)) d
  | SRemoveExpired t => bool_decide (0 ≤ t)%Z
  | SUpdateLiveness now _ => bool_decide (0 ≤ now)%Z
  end.

Fixpoint ops_check `{MapIter, FailureDetector D} (ops : list state_op) (s : clusterState) (d : D) : bool :=
  match ops with
  | [] => true
  | op :: ops' => state_op_check s op &&
      match run_state op s d with Some (s', d', _) => ops_check ops' s' d' | None => true end
  end.

Lemma ops_check_ok `{MapIter, FailureDetector D} ops s (d : D) : ops_check ops s d = true → ops_ok ops s d.
Proof.
  revert s d. induction ops as [|op ops IH]; intros s d; simpl; [done|]. intros [Hop Hrest]%andb_prop. split.
  - destruct op as [op|sender dg|now sender dl|t|now thr]; simpl in *; [| |
      apply andb_prop in Hop as [Hnow Hes]|by apply bool_decide_eq_true in Hop|by apply bool_decide_eq_true in Hop]; [|done|].
    + apply andb_prop in Hop as [Ho Hr]. split; [by apply bool_decide_eq_true in Ho|].
      intros st Hst. rewrite Hst in Hr. by apply bool_decide_eq_true in Hr.
    + split; [by apply bool_decide_eq_true in Hnow|]. intros de e Hde He.
      apply Is_true_eq_left in Hes. rewrite forallb_True, Forall_forall in Hes. specialize (Hes de Hde).
      rewrite forallb_True, Forall_forall in Hes. specialize (Hes e He). by apply bool_decide_unpack in Hes.
  - intros s' d' w Hr. rewrite Hr in Hrest. by apply IH.
Qed.

#[local] Existing Instance canonical_iter.
#[local] Existing Instance fixed_detector.

(** A node that publishes and deletes a key, learns of another and
    compacts its state. *)
Definition ex_counted : list state_op :=
  [SLocal (OpUpsert "k" "1"); SLocal (OpDelete "k"); SApplyDigest "b" [mkDigestEntry "b" "" 1 false];
   SApplyDelta 5 "b" [mkDeltaEntry "b" "" [mkEntry "k" "1" 1 false false]]; SLocal (OpCompact 1)].

Lemma ex_counted_ok : ops_ok ex_counted (newClusterState "a" "") (∅ : gmap string float64).
Proof. apply ops_check_ok. by vm_compute. Qed.

Lemma ex_counted_named : Forall op_named ex_counted.
Proof.
  repeat constructor; try done. intros de e ->%list_elem_of_singleton ->%list_elem_of_singleton. done.
Qed.

Lemma entries_gauge_exact_witness :
  ∃ s d effs, run_states ex_counted (newClusterState "a" "") (∅ : gmap string float64) = Some (s, d, effs) ∧
    gauge_get (gauge_effects ∅ effs) "b" false false = 1%Z ∧ gauge_get (gauge_effects ∅ effs) "a" true false = 1%Z ∧
    gauge_get (gauge_effects ∅ effs) "a" false true = 0%Z.
Proof.
  destruct (run_states ex_counted (newClusterState "a" "") (∅ : gmap string float64))
    as [[[s d] effs]|] eqn:Hr; [|vm_compute in Hr; discriminate].
  exists s, d, effs. split; [reflexivity|].
  pose proof (entries_gauge_exact "a" "" ex_counted ∅ s d effs ex_counted_ok ex_counted_named Hr) as Hg.
  rewrite !Hg. vm_compute in Hr. injection Hr as <- <- <-. split; [reflexivity|].
  split; reflexivity.
Defined.
