(* ===== verification/Protocol.v ===== *)
(** * pkg/gossip/protocol.go: the gossip messages

    Encoding appends values until the packet is full and sends what fits;
    decoding reads values until the end of the packet.  The msgpack codec is
    third-party code: it is the class [Codec], with its documented behaviour in
    [CodecLaws]. *)

From Stdlib Require Import Strings.Byte.
From S2P Require Import Prelude GoLib GossipState.

#[export] Instance byte_eq_decision : EqDecision byte := byte_eq_dec.

Definition bytes := list byte.

(** ** The codec *)

(** [codec.Decoder.Decode]: a value and the rest of the input, an error that
    [errors.Is] the end of file, or another error. *)
Inductive decoded (A : Type) :=
  | Decoded (a : A) (rest : bytes)
  | DecodeEOF
  | DecodeError.
Arguments Decoded {A} a rest.
Arguments DecodeEOF {A}.
Arguments DecodeError {A}.

Class Codec (A : Type) := {
  Encode : A → option bytes;
  Decode : bytes → decoded A;
}.

(** What the code relies on: an encoded value decodes to itself whatever
    follows, decoding consumes input, and there is nothing to decode at the end
    of the input. *)
Class CodecLaws A `{Codec A} := {
  Decode_Encode : ∀ a b rest, Encode a = Some b → Decode (b ++ rest) = Decoded a rest;
  Decode_shorter : ∀ b a rest, Decode b = Decoded a rest → length rest < length b;
  Decode_nil : Decode [] = DecodeEOF;
}.

(** ** Data *)

(** [messageType]; the values of other bytes have no name. *)
Definition messageTypeDigest : byte := "001".
Definition messageTypeDelta : byte := "002".
Definition messageTypeJoin : byte := "003".
Definition messageTypeLeave : byte := "004".

Definition messageType_String (t : byte) : string :=
  if decide (t = messageTypeDigest) then "digest"
  else if decide (t = messageTypeDelta) then "delta"
  else if decide (t = messageTypeJoin) then "join"
  else if decide (t = messageTypeLeave) then "leave"
  else "unknown".

Definition supportedVersion : byte := "000".

Record digestHeader := mkDigestHeader {
  dgh_NodeID : string;
  dgh_Addr : string;
  dgh_Request : bool;
}.

Record deltaHeader := mkDeltaHeader {
  dlh_NodeID : string;
  dlh_Addr : string;
  dlh_Entries : Z;
}.

Record joinHeader := mkJoinHeader {
  jh_NodeID : string;
  jh_Addr : string;
}.

Record leaveHeader := mkLeaveHeader {
  lh_NodeID : string;
  lh_Addr : string;
}.

Inductive protocol_error :=
  | ErrEncode
  | ErrHeaderTooLarge (maxPacketSize : Z) (len : nat)
  | ErrRead
  | ErrMessageType (t : string)
  | ErrUnsupportedVersion (v : byte)
  | ErrUnsupportedMessageType (v : byte)
  | ErrDecode
  | ErrPacketTooSmall (len : nat).

(** ** Encoding *)

Section protocol.
Context `{Codec digestHeader, Codec digestEntry, Codec deltaHeader, Codec Entry}.

(** The loop of [encodeDigest]: the buffer and the number of bytes to send. *)
Fixpoint encode_digest_loop (maxPacketSize : Z) (buf : bytes) (bufLen : nat) (d : digest) :
    option (bytes * nat) :=
  match d with
  | [] => Some (buf, bufLen)
  | entry :: d' =>
      b ← Encode entry;
      let buf' := buf ++ b in
      if decide (maxPacketSize < Z.of_nat (length buf'))%Z then Some (buf', bufLen)
      else encode_digest_loop maxPacketSize buf' (length buf') d'
  end.

Definition encodeDigest (header : digestHeader) (d : digest) (maxPacketSize : Z) :
    protocol_error + bytes :=
  match Encode header with
  | None => inl ErrEncode
  | Some h =>
      let buf := [messageTypeDigest; supportedVersion] ++ h in
      if decide (maxPacketSize < Z.of_nat (length buf))%Z
      then inl (ErrHeaderTooLarge maxPacketSize (length buf))
      else
        match encode_digest_loop maxPacketSize buf (length buf) d with
        | None => inl ErrEncode
        | Some (buf', bufLen) => inr (take bufLen buf')
        end
  end.

(** The inner loop of [encodeDelta]. *)
Fixpoint encode_entries_loop (maxPacketSize : Z) (buf : bytes) (bufLen : nat) (es : list Entry) :
    option (bytes * nat) :=
  match es with
  | [] => Some (buf, bufLen)
  | entry :: es' =>
      b ← Encode entry;
      let buf' := buf ++ b in
      if decide (maxPacketSize < Z.of_nat (length buf'))%Z then Some (buf', bufLen)
      else encode_entries_loop maxPacketSize buf' (length buf') es'
  end.

(** The outer loop: after the inner loop stopped early, the next header does
    not fit either. *)
Fixpoint encode_delta_loop (maxPacketSize : Z) (buf : bytes) (bufLen : nat) (d : delta) :
    option (bytes * nat) :=
  match d with
  | [] => Some (buf, bufLen)
  | de :: d' =>
      h ← Encode (mkDeltaHeader (dl_ID de) (dl_Addr de) (Z.of_nat (length (dl_Entries de))));
      let buf' := buf ++ h in
      if decide (maxPacketSize < Z.of_nat (length buf'))%Z then Some (buf', bufLen)
      else
        '(buf2, bufLen2) ← encode_entries_loop maxPacketSize buf' (length buf') (dl_Entries de);
        encode_delta_loop maxPacketSize buf2 bufLen2 d'
  end.

Definition encodeDelta (header : deltaHeader) (d : delta) (maxPacketSize : Z) :
    protocol_error + bytes :=
  match Encode header with
  | None => inl ErrEncode
  | Some h =>
      let buf := [messageTypeDelta; supportedVersion] ++ h in
      if decide (maxPacketSize < Z.of_nat (length buf))%Z
      then inl (ErrHeaderTooLarge maxPacketSize (length buf))
      else
        match encode_delta_loop maxPacketSize buf (length buf) d with
        | None => inl ErrEncode
        | Some (buf', bufLen) => inr (take bufLen buf')
        end
  end.

(** ** Decoding

    The loops take fuel; the length of the input is enough since decoding
    consumes it ([decode_digest_enough], [decode_delta_enough]). [None] is out
    of fuel. *)

Fixpoint decode_digest_loop (fuel : nat) (r : bytes) : option (protocol_error + digest) :=
  match fuel with
  | 0 => None
  | S fuel' =>
      match Decode (A := digestEntry) r with
      | DecodeEOF => Some (inr [])
      | DecodeError => Some (inl ErrDecode)
      | Decoded entry r' =>
          res ← decode_digest_loop fuel' r';
          Some (match res with inl err => inl err | inr d => inr (entry :: d) end)
      end
  end.

(** The two bytes every message starts with. *)
Definition read_preamble (t : byte) (b : bytes) : protocol_error + bytes :=
  match b with
  | [] => inl ErrRead
  | firstByte :: r =>
      if decide (firstByte ≠ t) then inl (ErrMessageType (messageType_String firstByte))
      else
        match r with
        | [] => inl ErrRead
        | version :: r' =>
            if decide (version ≠ supportedVersion) then inl (ErrUnsupportedVersion version)
            else inr r'
        end
  end.

Definition decodeDigest (b : bytes) : option (protocol_error + digestHeader * digest) :=
  match read_preamble messageTypeDigest b with
  | inl err => Some (inl err)
  | inr r =>
      match Decode r with
      | DecodeEOF | DecodeError => Some (inl ErrDecode)
      | Decoded header r' =>
          res ← decode_digest_loop (S (length r')) r';
          Some (match res with inl err => inl err | inr d => inr (header, d) end)
      end
  end.

(** The inner loop of [decodeDelta], from the [i]-th of [n] entries. *)
Fixpoint decode_entries_loop (fuel : nat) (i n : Z) (r : bytes) :
    option (protocol_error + list Entry * bytes) :=
  match fuel with
  | 0 => None
  | S fuel' =>
      if decide (i = n) then Some (inr ([], r))
      else
        match Decode (A := Entry) r with
        | DecodeEOF => Some (inr ([], []))
        | DecodeError => Some (inl ErrDecode)
        | Decoded entry r' =>
            res ← decode_entries_loop fuel' (i64 (i + 1)) n r';
            Some (match res with inl err => inl err | inr (es, r2) => inr (entry :: es, r2) end)
        end
  end.

Fixpoint decode_delta_loop (fuel : nat) (r : bytes) : option (protocol_error + delta) :=
  match fuel with
  | 0 => None
  | S fuel' =>
      match Decode (A := deltaHeader) r with
      | DecodeEOF => Some (inr [])
      | DecodeError => Some (inl ErrDecode)
      | Decoded h r' =>
          res ← decode_entries_loop (S (length r')) 0 (dlh_Entries h) r';
          match res with
          | inl err => Some (inl err)
          | inr (es, r2) =>
              res' ← decode_delta_loop fuel' r2;
              Some (match res' with
                | inl err => inl err
                | inr d => inr (mkDeltaEntry (dlh_NodeID h) (dlh_Addr h) es :: d)
                end)
          end
      end
  end.

Definition decodeDelta (b : bytes) : option (protocol_error + deltaHeader * delta) :=
  match read_preamble messageTypeDelta b with
  | inl err => Some (inl err)
  | inr r =>
      match Decode r with
      | DecodeEOF | DecodeError => Some (inl ErrDecode)
      | Decoded header r' =>
          res ← decode_delta_loop (S (length r')) r';
          Some (match res with inl err => inl err | inr d => inr (header, d) end)
      end
  end.

End protocol.

(** ** Specification *)

(** What is left of a delta after a packet is cut: some whole entries, and the
    last one may have lost the end of its entries. *)
Inductive truncated : delta → delta → Prop :=
  | truncated_nil d : truncated [] d
  | truncated_cut id addr es1 es2 d :
      truncated [mkDeltaEntry id addr es1] (mkDeltaEntry id addr (es1 ++ es2) :: d)
  | truncated_cons de d' d : truncated d' d → truncated (de :: d') (de :: d).

Section proofs.
Context `{CodecLaws digestHeader, CodecLaws digestEntry, CodecLaws deltaHeader, CodecLaws Entry}.

Fixpoint encode_all {A} `{Codec A} (l : list A) : option bytes :=
  match l with
  | [] => Some []
  | x :: l' => bx ← Encode x; bl ← encode_all l'; Some (bx ++ bl)
  end.

(** The bytes of a truncated delta: the headers count the entries before the
    cut. *)
Inductive wire : delta → delta → bytes → Prop :=
  | wire_nil d : wire d [] []
  | wire_cut de d es1 es2 h b :
      dl_Entries de = es1 ++ es2 →
      Encode (mkDeltaHeader (dl_ID de) (dl_Addr de) (Z.of_nat (length (dl_Entries de)))) = Some h →
      encode_all es1 = Some b →
      wire (de :: d) [mkDeltaEntry (dl_ID de) (dl_Addr de) es1] (h ++ b)
  | wire_cons de d d' h b b' :
      Encode (mkDeltaHeader (dl_ID de) (dl_Addr de) (Z.of_nat (length (dl_Entries de)))) = Some h →
      encode_all (dl_Entries de) = Some b → wire d d' b' →
      wire (de :: d) (de :: d') (h ++ b ++ b').

Lemma wire_truncated d d' b : wire d d' b → truncated d' d.
Proof.
  induction 1 as [d|[id addr es] d es1 es2 h b Hes Hh Hb|de d d' h b b' Hh Hb Hw IH].
  - constructor.
  - simpl in *. subst. constructor.
  - by constructor.
Qed.

Lemma encode_all_cons {A} `{Codec A} (x : A) l b :
  encode_all (x :: l) = Some b ↔ ∃ bx bl, Encode x = Some bx ∧ encode_all l = Some bl ∧ b = bx ++ bl.
Proof.
  simpl. destruct (Encode x) as [bx|]; simpl.
  2:{ split; [done|]. intros (?&?&?&_). done. }
  destruct (encode_all l) as [bl|]; simpl.
  - split; [intros [= <-]; eauto|]. by intros (?&?&[= <-]&[= <-]&->).
  - split; [done|]. intros (?&?&_&?&_). done.
Qed.

(** The loops that append while it fits. *)
Lemma encode_digest_loop_spec max buf d buf' n :
  (Z.of_nat (length buf) ≤ max)%Z →
  encode_digest_loop max buf (length buf) d = Some (buf', n) →
  (Z.of_nat n ≤ max)%Z ∧ ∃ d' b, d' `prefix_of` d ∧ encode_all d' = Some b ∧ take n buf' = buf ++ b ∧
    (∀ bd, encode_all d = Some bd → Z.of_nat (length (buf ++ bd)) ≤ max → d' = d)%Z.
Proof.
  revert buf buf' n. induction d as [|e d IH]; intros buf buf' n Hbuf Hrun; simpl in Hrun.
  { injection Hrun as <- <-. split; [done|]. exists [], []. split_and!; [done|done| |done].
    by rewrite firstn_all, app_nil_r. }
  destruct (Encode e) as [be|] eqn:He; [|done]. simpl in Hrun. case_decide as Hfit.
  - injection Hrun as <- <-. split; [done|]. exists [], []. split_and!; [apply prefix_nil|done| |].
    + by rewrite take_app_length, app_nil_r.
    + intros bd (bx&bl&Hx&_&->)%encode_all_cons. rewrite He in Hx. injection Hx as <-.
      rewrite !length_app in *. lia.
  - destruct (IH (buf ++ be) buf' n) as (Hn&d'&b&Hp&Hb&Htake&Hall); [lia|done|].
    split; [done|]. exists (e :: d'), (be ++ b). split_and!.
    + by apply prefix_cons.
    + apply encode_all_cons. eauto.
    + by rewrite Htake, app_assoc.
    + intros bd (bx&bl&Hx&Hbl&->)%encode_all_cons. rewrite He in Hx. injection Hx as <-. intros Hlen.
      f_equal. eapply Hall; [done|]. by rewrite <-app_assoc.
Qed.

Lemma encode_entries_loop_spec max buf es buf' n :
  (Z.of_nat (length buf) ≤ max)%Z →
  encode_entries_loop max buf (length buf) es = Some (buf', n) →
  (Z.of_nat n ≤ max)%Z ∧ ∃ es1 es2 b, es = es1 ++ es2 ∧ encode_all es1 = Some b ∧
    take n buf' = buf ++ b ∧ n ≤ length buf' ∧
    (es2 = [] ∧ n = length buf' ∨
     es2 ≠ [] ∧ (max < Z.of_nat (length buf'))%Z ∧
       ∀ be, encode_all es = Some be → (max < Z.of_nat (length (buf ++ be)))%Z).
Proof.
  revert buf buf' n. induction es as [|e es IH]; intros buf buf' n Hbuf Hrun; simpl in Hrun.
  { injection Hrun as <- <-. split; [done|]. exists [], [], []. split_and!; [done|done| |lia|by left].
    by rewrite firstn_all, app_nil_r. }
  destruct (Encode e) as [be|] eqn:He; [|done]. simpl in Hrun. case_decide as Hfit.
  - injection Hrun as <- <-. split; [done|]. exists [], (e :: es), []. split_and!; [done|done| | |right].
    + by rewrite take_app_length, app_nil_r.
    + rewrite length_app. lia.
    + split_and!; [done|lia|]. intros bs (bx&bl&Hx&_&->)%encode_all_cons. rewrite He in Hx. injection Hx as <-.
      rewrite !length_app in *. lia.
  - destruct (IH (buf ++ be) buf' n) as (Hn&es1&es2&b&->&Hb&Htake&Hle&Hcase); [lia|done|].
    split; [done|]. exists (e :: es1), es2, (be ++ b). split_and!; [done| | |done|].
    + apply encode_all_cons. eauto.
    + by rewrite Htake, app_assoc.
    + destruct Hcase as [[-> ->]|(Hne&Hmax&Hall)]; [by left|right]. split_and!; [done|done|].
      intros bs (bx&bl&Hx&Hbl&->)%encode_all_cons. rewrite He in Hx. injection Hx as <-.
      specialize (Hall _ Hbl). by rewrite <-app_assoc in Hall.
Qed.

(** Once the buffer is past the limit nothing more is sent. *)
Lemma encode_delta_loop_full max buf n d buf' n' :
  (max < Z.of_nat (length buf))%Z → encode_delta_loop max buf n d = Some (buf', n') →
  n' = n ∧ buf `prefix_of` buf'.
Proof.
  intros Hfull. destruct d as [|de d]; simpl; [by intros [= <- <-]|].
  destruct (Encode _) as [h|]; [|done]. simpl. rewrite decide_True by (rewrite length_app; lia).
  intros [= <- <-]. split; [done|by apply prefix_app_r].
Qed.

Lemma take_prefix_of {A} n (l l' : list A) : n ≤ length l → l `prefix_of` l' → take n l' = take n l.
Proof. intros Hn [t ->]. by rewrite take_app_le. Qed.

(** All of a delta in bytes. *)
Fixpoint encode_delta_all (d : delta) : option bytes :=
  match d with
  | [] => Some []
  | de :: d' =>
      h ← Encode (mkDeltaHeader (dl_ID de) (dl_Addr de) (Z.of_nat (length (dl_Entries de))));
      b ← encode_all (dl_Entries de);
      b' ← encode_delta_all d';
      Some (h ++ b ++ b')
  end.

Lemma encode_delta_loop_spec max buf d buf' n :
  (Z.of_nat (length buf) ≤ max)%Z →
  encode_delta_loop max buf (length buf) d = Some (buf', n) →
  (Z.of_nat n ≤ max)%Z ∧ ∃ d' b, wire d d' b ∧ take n buf' = buf ++ b ∧
    (∀ bd, encode_delta_all d = Some bd → Z.of_nat (length (buf ++ bd)) ≤ max → d' = d)%Z.
Proof.
  revert buf buf' n. induction d as [|de d IH]; intros buf buf' n Hbuf Hrun.
  { simpl in Hrun. injection Hrun as <- <-. split; [done|]. exists [], []. split_and!; [constructor| |done].
    by rewrite firstn_all, app_nil_r. }
  cbn [encode_delta_loop] in Hrun. cbn [encode_delta_all].
  destruct (Encode _) as [h|] eqn:Hh; [|done]. cbn [mbind option_bind] in Hrun |- *. case_decide as Hfit.
  { injection Hrun as <- <-. split; [done|]. exists [], []. split_and!; [constructor| |].
    - by rewrite take_app_length, app_nil_r.
    - intros bd. destruct (encode_all _) as [b1|]; simpl; [|done].
      destruct (encode_delta_all d) as [b2|]; simpl; [|done]. intros [= <-].
      rewrite !length_app in *. lia. }
  destruct (encode_entries_loop _ _ _ _) as [[buf2 n2]|] eqn:Hes; [|done]. cbn [mbind option_bind] in Hrun.
  apply encode_entries_loop_spec in Hes as (Hn2&es1&es2&b&Hsplit&Hb&Htake&Hle&Hcase); [|lia].
  destruct Hcase as [[-> ->]|(Hne&Hmax&Hover)].
  - rewrite firstn_all in Htake. subst buf2. rewrite app_nil_r in Hsplit. subst es1.
    destruct (IH ((buf ++ h) ++ b) buf' n) as (Hn&d'&b'&Hw&Htake&Hall); [done|done|].
    split; [done|]. exists (de :: d'), (h ++ b ++ b'). split_and!.
    + by constructor.
    + rewrite Htake. by rewrite <-!app_assoc.
    + rewrite Hb. simpl. intros bd. destruct (encode_delta_all d) as [b2|] eqn:Hd; simpl; [|done]. intros [= <-] Hlen.
      f_equal. eapply Hall; [done|]. by rewrite <-!app_assoc.
  - destruct (encode_delta_loop_full _ _ _ _ _ _ Hmax Hrun) as [-> Hpre]. split; [done|].
    exists [mkDeltaEntry (dl_ID de) (dl_Addr de) es1], (h ++ b). split_and!.
    + by eapply wire_cut.
    + rewrite (take_prefix_of _ _ _ Hle Hpre), Htake. by rewrite <-app_assoc.
    + intros bd. destruct (encode_all (dl_Entries de)) as [b1|] eqn:Hb1; simpl; [|done].
      destruct (encode_delta_all d) as [b2|]; simpl; [|done]. intros [= <-].
      specialize (Hover _ eq_refl). rewrite !length_app in *. lia.
Qed.

(** *** Decoding *)

Lemma Encode_nonempty {A} `{CodecLaws A} (a : A) b : Encode a = Some b → 0 < length b.
Proof.
  intros Ha. destruct b as [|x b]; simpl; [|lia].
  pose proof (Decode_Encode a [] [] Ha) as Hd. simpl in Hd. by rewrite Decode_nil in Hd.
Qed.

Lemma encode_all_length {A} `{CodecLaws A} (l : list A) b : encode_all l = Some b → length l ≤ length b.
Proof.
  revert b. induction l as [|x l IH]; intros b.
  { simpl. lia. }
  intros (bx&bl&Hx%Encode_nonempty&Hl%IH&->)%encode_all_cons. rewrite length_app. simpl. lia.
Qed.

Lemma decode_digest_loop_encoded fuel d b :
  length b < fuel → encode_all d = Some b → decode_digest_loop fuel b = Some (inr d).
Proof.
  revert d b. induction fuel as [|fuel IH]; intros d b Hf Hd; [lia|]. simpl.
  destruct d as [|e d].
  { injection Hd as <-. by rewrite Decode_nil. }
  apply encode_all_cons in Hd as (be&bd&He&Hd&->). rewrite (Decode_Encode _ _ _ He).
  pose proof (Encode_nonempty _ _ He). rewrite length_app in Hf.
  rewrite (IH d bd) by (done || lia). done.
Qed.

(** The inner loop reads up to the count of the header or the end of input. *)
Lemma decode_entries_loop_encoded fuel i n es b rest :
  length (b ++ rest) < fuel → encode_all es = Some b →
  (0 ≤ i)%Z → (i + Z.of_nat (length es) ≤ n)%Z → (n < 2 ^ 63)%Z →
  rest = [] ∨ n = (i + Z.of_nat (length es))%Z →
  decode_entries_loop fuel i n (b ++ rest) = Some (inr (es, rest)).
Proof.
  revert i es b. induction fuel as [|fuel IH]; intros i es b Hf Hes Hi Hle Hn Hend; [lia|]. simpl.
  destruct es as [|e es].
  { injection Hes as <-. simpl in *. case_decide; [done|]. destruct Hend as [-> | ?]; [by rewrite Decode_nil|lia]. }
  apply encode_all_cons in Hes as (be&bs&He&Hes&->). simpl in *. rewrite decide_False by lia.
  rewrite <-app_assoc, (Decode_Encode _ _ _ He). pose proof (Encode_nonempty _ _ He).
  rewrite i64_small by (unfold is_i64; lia).
  rewrite <-app_assoc in Hf. rewrite !length_app in Hf.
  rewrite (IH (i + 1)%Z es bs); [done|rewrite length_app; lia|done|lia|lia|done|].
  destruct Hend; [by left|right; lia].
Qed.

(** The number of entries of every node fits in an [int]. *)
Definition counts_ok (d : delta) : Prop :=
  ∀ de, de ∈ d → (Z.of_nat (length (dl_Entries de)) < 2 ^ 63)%Z.

Lemma decode_delta_loop_wire fuel d d' b :
  length b < fuel → counts_ok d → wire d d' b → decode_delta_loop fuel b = Some (inr d').
Proof.
  revert d d' b. induction fuel as [|fuel IH]; intros d d' b Hf Hc Hw; [lia|]. cbn [decode_delta_loop].
  inversion Hw as [|de d1 es1 es2 h b1 Hsplit Hh Hb1|de d1 d1' h b1 b' Hh Hb1 Hw']; subst.
  - by rewrite Decode_nil.
  - rewrite (Decode_Encode _ _ _ Hh). cbn [dlh_Entries dlh_NodeID dlh_Addr].
    pose proof (decode_entries_loop_encoded (S (length b1)) 0 (Z.of_nat (length (dl_Entries de))) es1 b1 []) as Hdec.
    rewrite app_nil_r in Hdec. rewrite Hdec; simpl; [|lia|done|lia| |apply Hc; left|by left].
    2:{ rewrite Hsplit, length_app. lia. }
    pose proof (Encode_nonempty _ _ Hh). rewrite length_app in Hf.
    destruct fuel as [|fuel]; [lia|]. simpl. by rewrite Decode_nil.
  - rewrite (Decode_Encode _ _ _ Hh). cbn [dlh_Entries dlh_NodeID dlh_Addr].
    rewrite (decode_entries_loop_encoded _ _ _ (dl_Entries de) b1 b'); simpl; [|lia|done|lia|lia|apply Hc; left|by right].
    pose proof (Encode_nonempty _ _ Hh). rewrite !length_app in Hf.
    rewrite (IH d1 d1' b'); [by destruct de|lia| |done]. intros x Hx. apply Hc. by right.
Qed.

(** The fuel of the decoders is enough. *)
Lemma decode_digest_enough fuel r : length r < fuel → is_Some (decode_digest_loop fuel r).
Proof.
  revert r. induction fuel as [|fuel IH]; intros r Hr; [lia|]. simpl.
  destruct (Decode r) as [e r'| |] eqn:Hd; [|by eauto..].
  apply Decode_shorter in Hd. destruct (IH r') as [? ->]; [lia|]. by eauto.
Qed.

Lemma decode_entries_enough fuel i n r :
  length r < fuel → ∃ res, decode_entries_loop fuel i n r = Some res ∧
    ∀ es r', res = inr (es, r') → length r' ≤ length r.
Proof.
  revert i r. induction fuel as [|fuel IH]; intros i r Hr; [lia|]. simpl.
  case_decide; [by eexists; split; [done|]; intros ?? [= <- <-]|].
  destruct (Decode r) as [e r'| |] eqn:Hd.
  - apply Decode_shorter in Hd. destruct (IH (i64 (i + 1)) r') as (res&->&Hres); [lia|]. simpl.
    eexists. split; [done|]. destruct res as [|[es r2]]; [done|]. intros ? ? [= <- <-].
    specialize (Hres es r2 eq_refl). lia.
  - eexists. split; [done|]. intros ? ? [= <- <-]. simpl. lia.
  - by eexists.
Qed.

Lemma decode_delta_enough fuel r : length r < fuel → is_Some (decode_delta_loop fuel r).
Proof.
  revert r. induction fuel as [|fuel IH]; intros r Hr; [lia|]. cbn [decode_delta_loop].
  destruct (Decode r) as [h r'| |] eqn:Hd; [|by eauto..].
  apply Decode_shorter in Hd.
  destruct (decode_entries_enough (S (length r')) 0 (dlh_Entries h) r') as (res&->&Hres); [lia|]. simpl.
  destruct res as [|[es r2]]; [by eauto|]. specialize (Hres es r2 eq_refl).
  destruct (IH r2) as [? ->]; [lia|]. by eauto.
Qed.

(** *** Messages that fit are sent whole *)

Lemma read_preamble_ok t b : read_preamble t ([t; supportedVersion] ++ b) = inr b.
Proof. cbn [app read_preamble]. by rewrite !decide_False by tauto. Qed.

Definition fits_digest (max : Z) (header : digestHeader) (dg : digest) : Prop :=
  ∃ h b, Encode header = Some h ∧ encode_all dg = Some b ∧
    (2 + Z.of_nat (length h) + Z.of_nat (length b) ≤ max)%Z.

Definition fits_delta (max : Z) (header : deltaHeader) (dl : delta) : Prop :=
  counts_ok dl ∧ ∃ h b, Encode header = Some h ∧ encode_delta_all dl = Some b ∧
    (2 + Z.of_nat (length h) + Z.of_nat (length b) ≤ max)%Z.

Lemma encode_digest_loop_whole max buf dg b :
  encode_all dg = Some b → (Z.of_nat (length (buf ++ b)) ≤ max)%Z →
  encode_digest_loop max buf (length buf) dg = Some (buf ++ b, length (buf ++ b)).
Proof.
  revert buf b. induction dg as [|e dg IH]; intros buf b.
  { intros [= <-] _. simpl. by rewrite app_nil_r. }
  intros (be&bd&He&Hd&->)%encode_all_cons Hfit. simpl. rewrite He. simpl.
  rewrite app_assoc in Hfit |- *.
  rewrite decide_False; [by apply IH|]. rewrite length_app in Hfit. lia.
Qed.

Lemma encode_entries_loop_whole max buf es b :
  encode_all es = Some b → (Z.of_nat (length (buf ++ b)) ≤ max)%Z →
  encode_entries_loop max buf (length buf) es = Some (buf ++ b, length (buf ++ b)).
Proof.
  revert buf b. induction es as [|e es IH]; intros buf b.
  { intros [= <-] _. simpl. by rewrite app_nil_r. }
  intros (be&bd&He&Hd&->)%encode_all_cons Hfit. simpl. rewrite He. simpl.
  rewrite app_assoc in Hfit |- *.
  rewrite decide_False; [by apply IH|]. rewrite length_app in Hfit. lia.
Qed.

Lemma encode_delta_loop_whole max buf dl b :
  encode_delta_all dl = Some b → (Z.of_nat (length (buf ++ b)) ≤ max)%Z →
  encode_delta_loop max buf (length buf) dl = Some (buf ++ b, length (buf ++ b)) ∧ wire dl dl b.
Proof.
  revert buf b. induction dl as [|de dl IH]; intros buf b; cbn [encode_delta_all encode_delta_loop].
  { intros [= <-] _. rewrite app_nil_r. split; [done|constructor]. }
  destruct (Encode _) as [h|] eqn:Hh; [|done]. cbn [mbind option_bind].
  destruct (encode_all (dl_Entries de)) as [be|] eqn:Hbe; [|done]. cbn [mbind option_bind].
  destruct (encode_delta_all dl) as [bd|]; [|done]. cbn [mbind option_bind]. intros [= <-] Hfit.
  rewrite !app_assoc in Hfit |- *. pose proof Hfit as Hfit2. rewrite !length_app in Hfit2.
  rewrite decide_False by (rewrite length_app; lia).
  rewrite (encode_entries_loop_whole _ _ _ _ Hbe) by (rewrite !length_app; lia). cbn [mbind option_bind].
  destruct (IH ((buf ++ h) ++ be) bd eq_refl Hfit) as [-> Hw].
  split; [done|]. by apply wire_cons.
Qed.

Lemma encodeDigest_whole max header dg :
  fits_digest max header dg →
  ∃ p, encodeDigest header dg max = inr p ∧ decodeDigest p = Some (inr (header, dg)) ∧
    (Z.of_nat (length p) ≤ max)%Z.
Proof.
  intros (h&b&Hh&Hb&Hfit). unfold encodeDigest. rewrite Hh, decide_False by (simpl; lia).
  rewrite (encode_digest_loop_whole _ _ _ _ Hb) by (rewrite !length_app; simpl; lia).
  rewrite firstn_all. eexists. split_and!; [done| |rewrite !length_app; simpl; lia].
  unfold decodeDigest. rewrite <-app_assoc, read_preamble_ok, (Decode_Encode _ _ _ Hh).
  by rewrite (decode_digest_loop_encoded _ _ _ (Nat.lt_succ_diag_r _) Hb).
Qed.

Lemma encodeDelta_whole max header dl :
  fits_delta max header dl →
  ∃ p, encodeDelta header dl max = inr p ∧ decodeDelta p = Some (inr (header, dl)) ∧
    (Z.of_nat (length p) ≤ max)%Z.
Proof.
  intros (Hc&h&b&Hh&Hb&Hfit). unfold encodeDelta. rewrite Hh, decide_False by (simpl; lia).
  destruct (encode_delta_loop_whole max ([messageTypeDelta; supportedVersion] ++ h) dl b Hb) as [-> Hw];
    [rewrite !length_app; simpl; lia|].
  rewrite firstn_all. eexists. split_and!; [done| |rewrite !length_app; simpl; lia].
  unfold decodeDelta. rewrite <-app_assoc, read_preamble_ok, (Decode_Encode _ _ _ Hh).
  by rewrite (decode_delta_loop_wire _ _ _ _ (Nat.lt_succ_diag_r _) Hc Hw).
Qed.

(** The first bytes of a decodable packet. *)
Lemma read_preamble_inr t b r : read_preamble t b = inr r → b = t :: supportedVersion :: r.
Proof.
  unfold read_preamble. destruct b as [|x b]; [done|].
  destruct (decide (x ≠ t)) as [|Hx%dec_stable]; [done|]. destruct b as [|v b]; [done|].
  destruct (decide (v ≠ supportedVersion)) as [|Hv%dec_stable]; [done|]. intros [= ->]. by subst.
Qed.

Lemma decodeDigest_preamble b hd :
  decodeDigest b = Some (inr hd) → ∃ r, b = messageTypeDigest :: supportedVersion :: r.
Proof.
  unfold decodeDigest. destruct (read_preamble _ b) as [|r] eqn:Hr; [done|].
  intros _. exists r. by apply read_preamble_inr.
Qed.

Lemma decodeDelta_preamble b hd :
  decodeDelta b = Some (inr hd) → ∃ r, b = messageTypeDelta :: supportedVersion :: r.
Proof.
  unfold decodeDelta. destruct (read_preamble _ b) as [|r] eqn:Hr; [done|].
  intros _. exists r. by apply read_preamble_inr.
Qed.

(** ** Properties *)

(** C20. Delta packets respect the packet size and survive it: a packet is never
    larger than [maxPacketSize], it decodes without an error to the header and a
    truncation of the delta (whole entries, then at most one that lost the end
    of its entries), and nothing is cut when everything fits. *)
Theorem delta_packet_roundtrip header d max b :
  counts_ok d → encodeDelta header d max = inr b →
  (Z.of_nat (length b) ≤ max)%Z ∧
  ∃ d', truncated d' d ∧ decodeDelta b = Some (inr (header, d')) ∧
    ∀ h bd, Encode header = Some h → encode_delta_all d = Some bd →
      (2 + Z.of_nat (length h) + Z.of_nat (length bd) ≤ max)%Z → d' = d.
Proof.
  intros Hc. unfold encodeDelta. destruct (Encode header) as [h|] eqn:Hh; [|done]. case_decide as Hfit; [done|].
  destruct (encode_delta_loop _ _ _ _) as [[buf' n]|] eqn:Hrun; [|done]. intros [= <-].
  apply encode_delta_loop_spec in Hrun as (Hn&d'&b&Hw&Htake&Hall); [|lia].
  split; [rewrite length_take; lia|]. exists d'. split_and!; [by eapply wire_truncated| |].
  - rewrite Htake. unfold decodeDelta. rewrite <-app_assoc, read_preamble_ok, (Decode_Encode _ _ _ Hh).
    by rewrite (decode_delta_loop_wire _ _ _ _ (Nat.lt_succ_diag_r _) Hc Hw).
  - intros h' bd [= <-] Hbd Hlen. eapply Hall; [done|]. rewrite !length_app. simpl. lia.
Qed.

(** Digest packets respect the packet size and decode to a prefix of the
    digest, to all of it when it fits. *)
Theorem digest_packet_roundtrip header d max b :
  encodeDigest header d max = inr b →
  (Z.of_nat (length b) ≤ max)%Z ∧
  ∃ d', d' `prefix_of` d ∧ decodeDigest b = Some (inr (header, d')) ∧
    ∀ h bd, Encode header = Some h → encode_all d = Some bd →
      (2 + Z.of_nat (length h) + Z.of_nat (length bd) ≤ max)%Z → d' = d.
Proof.
  unfold encodeDigest. destruct (Encode header) as [h|] eqn:Hh; [|done]. case_decide as Hfit; [done|].
  destruct (encode_digest_loop _ _ _ _) as [[buf' n]|] eqn:Hrun; [|done]. intros [= <-].
  apply encode_digest_loop_spec in Hrun as (Hn&d'&b&Hp&Hb&Htake&Hall); [|lia].
  split; [rewrite length_take; lia|]. exists d'. split_and!; [done| |].
  - rewrite Htake. unfold decodeDigest. rewrite <-app_assoc, read_preamble_ok, (Decode_Encode _ _ _ Hh).
    by rewrite (decode_digest_loop_encoded _ _ _ (Nat.lt_succ_diag_r _) Hb).
  - intros h' bd [= <-] Hbd Hlen. eapply Hall; [done|]. rewrite !length_app. simpl. lia.
Qed.

(** C30. The decoders always return, whatever bytes a peer sends, and accept
    only messages of their own type and of the supported version. *)
Theorem decoders_total_and_strict b :
  (∃ res, decodeDigest b = Some res ∧
     ∀ hd, res = inr hd → ∃ r, b = messageTypeDigest :: supportedVersion :: r) ∧
  (∃ res, decodeDelta b = Some res ∧
     ∀ hd, res = inr hd → ∃ r, b = messageTypeDelta :: supportedVersion :: r).
Proof.
  pose proof (λ t r, read_preamble_inr t b r) as Hpre.
  unfold decodeDigest, decodeDelta. split.
  - destruct (read_preamble _ b) as [|r] eqn:Hr; [by eexists|]. apply Hpre in Hr as ->.
    destruct (Decode r) as [h r'| |]; [|by eexists..].
    destruct (decode_digest_enough (S (length r')) r') as [res ->]; [lia|]. simpl.
    eexists. split; [done|]. eauto.
  - destruct (read_preamble _ b) as [|r] eqn:Hr; [by eexists|]. apply Hpre in Hr as ->.
    destruct (Decode r) as [h r'| |]; [|by eexists..].
    destruct (decode_delta_enough (S (length r')) r') as [res ->]; [lia|]. cbn [mbind option_bind].
    eexists. split; [done|]. eauto.
Qed.

End proofs.

(** ** Witnesses

    A codec for any countable type, to show that the laws of [CodecLaws] can
    hold: the bits of the number of the value. *)

Fixpoint bits_encode (p : positive) : bytes :=
  match p with
  | xI p => "001"%byte :: bits_encode p
  | xO p => "002"%byte :: bits_encode p
  | xH => ["000"%byte]
  end.

Fixpoint bits_decode (b : bytes) : option (positive * bytes) :=
  match b with
  | [] => None
  | x :: b' =>
      if decide (x = "000"%byte) then Some (xH, b')
      else '(p, rest) ← bits_decode b'; Some (if decide (x = "001"%byte) then xI p else xO p, rest)
  end.

Lemma bits_decode_encode p rest : bits_decode (bits_encode p ++ rest) = Some (p, rest).
Proof. induction p as [p IH|p IH|]; simpl; by rewrite ?IH. Qed.

Lemma bits_decode_shorter b p rest : bits_decode b = Some (p, rest) → length rest < length b.
Proof.
  revert p. induction b as [|x b IH]; intros p; simpl; [done|]. case_decide; [intros [= _ <-]; lia|].
  destruct (bits_decode b) as [[p' r']|]; simpl; [|done]. intros [= _ ->]. specialize (IH p' eq_refl). lia.
Qed.

Definition countable_codec A `{Countable A} : Codec A := {|
  Encode a := Some (bits_encode (encode a));
  Decode b :=
    match b with
    | [] => DecodeEOF
    | _ =>
        match bits_decode b with
        | Some (p, rest) => match decode p with Some a => Decoded a rest | None => DecodeError end
        | None => DecodeError
        end
    end;
|}.

Lemma countable_codec_laws A `{Countable A} : @CodecLaws A (countable_codec A).
Proof.
  split.
  - intros a b rest [= <-]. simpl. rewrite bits_decode_encode, decode_encode.
    by destruct (bits_encode (encode a) ++ rest) eqn:E; [destruct (encode a)|].
  - intros b a rest. simpl. destruct b as [|x b]; [done|].
    destruct (bits_decode (x :: b)) as [[p r]|] eqn:Hb; [|done].
    destruct (decode p); [|done]. intros [= _ <-]. by eapply bits_decode_shorter.
  - done.
Qed.

(** Codecs of the messages, for concrete inputs. *)
Definition codec_by {A B} `{Countable B} (f : A → B) (g : B → A) : Codec A := {|
  Encode a := @Encode B (countable_codec B) (f a);
  Decode b :=
    match @Decode B (countable_codec B) b with
    | Decoded x rest => Decoded (g x) rest
    | DecodeEOF => DecodeEOF
    | DecodeError => DecodeError
    end;
|}.

Lemma codec_by_laws {A B} `{Countable B} (f : A → B) (g : B → A) :
  (∀ a, g (f a) = a) → @CodecLaws A (codec_by f g).
Proof.
  intros Hgf. pose proof (countable_codec_laws B) as Hl. split.
  - intros a b rest Hb. cbn [Decode codec_by]. rewrite (@Decode_Encode B (countable_codec B) Hl _ _ _ Hb).
    by rewrite Hgf.
  - intros b a rest. cbn [Decode codec_by].
    destruct (@Decode B (countable_codec B) b) as [x r| |] eqn:Hd; [|done..]. intros [= _ <-].
    by eapply (@Decode_shorter B (countable_codec B) Hl).
  - done.
Qed.

Definition entry_tuple (e : Entry) := (e_Key e, e_Value e, e_Version e, e_Internal e, e_Deleted e).
Definition entry_of (t : string * string * N * bool * bool) : Entry :=
  let '(a, b, c, d, e) := t in mkEntry a b c d e.
Definition digestEntry_tuple (e : digestEntry) := (dg_ID e, dg_Addr e, dg_Version e, dg_Left e).
Definition digestEntry_of (t : string * string * N * bool) : digestEntry :=
  let '(a, b, c, d) := t in mkDigestEntry a b c d.
Definition deltaEntry_tuple (e : deltaEntry) := (dl_ID e, dl_Addr e, entry_tuple <$> dl_Entries e).
Definition deltaEntry_of (t : string * string * list (string * string * N * bool * bool)) : deltaEntry :=
  let '(a, b, c) := t in mkDeltaEntry a b (entry_of <$> c).

Definition ex_codec_digestHeader : Codec digestHeader :=
  codec_by (λ h, (dgh_NodeID h, dgh_Addr h, dgh_Request h)) (λ '(a, b, c), mkDigestHeader a b c).
Definition ex_codec_deltaHeader : Codec deltaHeader :=
  codec_by (λ h, (dlh_NodeID h, dlh_Addr h, dlh_Entries h)) (λ '(a, b, c), mkDeltaHeader a b c).
Definition ex_codec_joinHeader : Codec joinHeader :=
  codec_by (λ h, (jh_NodeID h, jh_Addr h)) (λ '(a, b), mkJoinHeader a b).
Definition ex_codec_leaveHeader : Codec leaveHeader :=
  codec_by (λ h, (lh_NodeID h, lh_Addr h)) (λ '(a, b), mkLeaveHeader a b).
Definition ex_codec_digestEntry : Codec digestEntry := codec_by digestEntry_tuple digestEntry_of.
Definition ex_codec_Entry : Codec Entry := codec_by entry_tuple entry_of.
Definition ex_codec_digest : Codec digest := codec_by (fmap digestEntry_tuple) (fmap digestEntry_of).
Definition ex_codec_delta : Codec delta := codec_by (fmap deltaEntry_tuple) (fmap deltaEntry_of).

Lemma fmap_inverse {A B} (f : A → B) (g : B → A) : (∀ a, g (f a) = a) → ∀ l : list A, g <$> (f <$> l) = l.
Proof. intros Hgf l. induction l as [|x l IH]; [done|]. by rewrite !fmap_cons, Hgf, IH. Qed.

Lemma entry_of_tuple e : entry_of (entry_tuple e) = e.
Proof. by destruct e. Qed.
Lemma digestEntry_of_tuple e : digestEntry_of (digestEntry_tuple e) = e.
Proof. by destruct e. Qed.
Lemma deltaEntry_of_tuple e : deltaEntry_of (deltaEntry_tuple e) = e.
Proof. destruct e as [a b es]. unfold deltaEntry_of. simpl. by rewrite (fmap_inverse _ _ entry_of_tuple). Qed.

Definition ex_laws_digestHeader : @CodecLaws digestHeader ex_codec_digestHeader.
Proof. apply codec_by_laws. by intros []. Qed.
Definition ex_laws_deltaHeader : @CodecLaws deltaHeader ex_codec_deltaHeader.
Proof. apply codec_by_laws. by intros []. Qed.
Definition ex_laws_joinHeader : @CodecLaws joinHeader ex_codec_joinHeader.
Proof. apply codec_by_laws. by intros []. Qed.
Definition ex_laws_leaveHeader : @CodecLaws leaveHeader ex_codec_leaveHeader.
Proof. apply codec_by_laws. by intros []. Qed.
Definition ex_laws_digestEntry : @CodecLaws digestEntry ex_codec_digestEntry.
Proof. apply codec_by_laws, digestEntry_of_tuple. Qed.
Definition ex_laws_Entry : @CodecLaws Entry ex_codec_Entry.
Proof. apply codec_by_laws, entry_of_tuple. Qed.
Definition ex_laws_digest : @CodecLaws digest ex_codec_digest.
Proof. apply codec_by_laws, fmap_inverse, digestEntry_of_tuple. Qed.
Definition ex_laws_delta : @CodecLaws delta ex_codec_delta.
Proof. apply codec_by_laws, fmap_inverse, deltaEntry_of_tuple. Qed.

#[local] Existing Instances ex_codec_digestHeader ex_codec_deltaHeader ex_codec_digestEntry ex_codec_Entry.
#[local] Existing Instances ex_laws_digestHeader ex_laws_deltaHeader ex_laws_digestEntry ex_laws_Entry.

Definition ex_delta : delta :=
  [mkDeltaEntry "n" "a" [mkEntry "x" "1" 1 false false; mkEntry "y" "2" 2 false false]].
Definition ex_delta_packet (max : Z) : bytes :=
  match encodeDelta (mkDeltaHeader "n" "a" 0) ex_delta max with inl _ => [] | inr b => b end.
Definition ex_digest : digest := [mkDigestEntry "n" "a" 3 false; mkDigestEntry "m" "b" 1 false].
Definition ex_digest_packet (max : Z) : bytes :=
  match encodeDigest (mkDigestHeader "n" "a" true) ex_digest max with inl _ => [] | inr b => b end.

(** A limit that cuts the second entry. *)
Lemma delta_packet_roundtrip_witness :
  ∃ max d', (Z.of_nat (length (ex_delta_packet max)) ≤ max)%Z ∧ truncated d' ex_delta ∧ d' ≠ ex_delta ∧
    decodeDelta (ex_delta_packet max) = Some (inr (mkDeltaHeader "n" "a" 0, d')).
Proof.
  exists (Z.of_nat (length (ex_delta_packet 100000)) - 1)%Z.
  destruct (delta_packet_roundtrip (mkDeltaHeader "n" "a" 0) ex_delta
    (Z.of_nat (length (ex_delta_packet 100000)) - 1)
    (ex_delta_packet (Z.of_nat (length (ex_delta_packet 100000)) - 1))) as (Hn&d'&Ht&Hd&_).
  - by intros de ->%list_elem_of_singleton.
  - by vm_compute.
  - exists d'. split_and!; [exact Hn|exact Ht| |exact Hd].
    intros ->. by vm_compute in Hd.
Defined.

Lemma digest_packet_roundtrip_witness :
  ∃ d', d' `prefix_of` ex_digest ∧
    decodeDigest (ex_digest_packet 1000) = Some (inr (mkDigestHeader "n" "a" true, d')).
Proof.
  destruct (digest_packet_roundtrip (mkDigestHeader "n" "a" true) ex_digest 1000 (ex_digest_packet 1000))
    as (_&d'&Hp&Hd&_); [by vm_compute|].
  exists d'. split; [exact Hp|exact Hd].
Defined.

Lemma decoders_total_and_strict_witness :
  decodeDelta (ex_digest_packet 1000) = Some (inl (ErrMessageType "digest")).
Proof.
  destruct (decoders_total_and_strict (ex_digest_packet 1000)) as [_ (res&Hres&_)].
  rewrite Hres. rewrite <-Hres. by vm_compute.
Defined.
