(* ===== verification/GossipNode.v ===== *)
(** * pkg/gossip/gossip.go and listener.go: the gossip node

    The handlers of packets and stream connections, and the operations that
    start an exchange.  A handler returns the new state and the packets it
    sends; the network (name resolution, dialing, writing) is the environment
    [Env].  The outer [option] is a panic. *)

From S2P Require Import Prelude GoLib NetLib GossipState Protocol.

Definition streamTimeout : Z := Second * 10.
Definition suspicionThreshold : Z := 20.
Definition compactThreshold : Z := 100.

Record Config := mkConfig {
  BindAddr : string;
  AdvertiseAddr : string;
  Interval : Z;
  MaxPacketSize : Z;
}.

Inductive config_error := MissingBindAddr | MissingInterval | MissingMaxPacketSize.

Definition Validate (c : Config) : option config_error :=
  if decide (BindAddr c = "") then Some MissingBindAddr
  else if decide (Interval c = 0%Z) then Some MissingInterval
  else if decide (MaxPacketSize c = 0%Z) then Some MissingMaxPacketSize
  else None.

(** The counters of [Metrics]; the bytes of streams depend on the buffering of
    the connections and are left out. *)
Inductive metric :=
  | ConnectionsInbound | PacketBytesInbound
  | ConnectionsOutbound | PacketBytesOutbound
  | DigestEntriesInbound | DeltaEntriesInbound
  | DigestEntriesOutbound | DeltaEntriesOutbound.

Inductive node_error :=
  | EProtocol (e : protocol_error)
  | EResolve (addr : string)
  | EWrite (addr : string)
  | EDial (addr : string)
  | EFlush
  | EInvalidAddr (addr : string)
  | ELookup (host : string).

(** What a node does besides changing its state. *)
Inductive node_effect :=
  | StateEffect (e : effect)
  | Send (addr : string) (packet : bytes)
  | Count (m : metric) (n : nat).

(** The network a node runs in: name resolution, packets, whether a stream
    connection can be opened, and what the peer writes back to a request before
    it closes the connection ([None] when the request cannot be flushed). *)
Class Env := {
  ResolveUDPAddr : string → option string;
  WriteTo : string → bytes → bool;
  LookupIP : string → option (list string);
  DialTCP : string → bool;
  exchange : string → bytes → option bytes;
}.

Section node.
Context `{MapIter, FailureDetector D, Env}.
Context `{Codec digestHeader, Codec digestEntry, Codec deltaHeader, Codec Entry}.
Context `{Codec joinHeader, Codec leaveHeader, Codec delta, Codec digest}.

Definition state_effects (effs : list effect) : list node_effect := StateEffect <$> effs.

(** ** Packets *)

(** The end of [sendDelta] and [sendDigest]: resolve the address and write. *)
Definition write_packet (addr : string) (b : bytes) : list node_effect * option node_error :=
  match ResolveUDPAddr addr with
  | None => ([], Some (EResolve addr))
  | Some udpAddr =>
      if WriteTo udpAddr b then ([Send udpAddr b; Count PacketBytesOutbound (length b)], None)
      else ([], Some (EWrite addr))
  end.

Definition sendDelta (maxPacketSize : Z) (s : clusterState) (dl : delta) (addr : string) :
    option (list node_effect * option node_error) :=
  localMeta ← LocalNodeMetadata s;
  let header := mkDeltaHeader (n_ID localMeta) (n_Addr localMeta) 0 in
  Some (match encodeDelta header dl maxPacketSize with
        | inl err => ([], Some (EProtocol err))
        | inr b => write_packet addr b
        end).

(** [shuffle] is the order [rand.Shuffle] leaves the digest in. *)
Definition sendDigest (maxPacketSize : Z) (shuffle : digest → digest) (s : clusterState)
    (dg : digest) (addr : string) (request : bool) : option (list node_effect * option node_error) :=
  let dg' := shuffle dg in
  localMeta ← LocalNodeMetadata s;
  let header := mkDigestHeader (n_ID localMeta) (n_Addr localMeta) request in
  Some (match encodeDigest header dg' maxPacketSize with
        | inl err => ([], Some (EProtocol err))
        | inr b => write_packet addr b
        end).

(** [packetListener.digest] *)
Definition handle_digest (maxPacketSize : Z) (shuffle : digest → digest) (s : clusterState) (b : bytes) :
    option (clusterState * list node_effect * option node_error) :=
  decoded ← decodeDigest b;
  match decoded with
  | inl err => Some (s, [], Some (EProtocol err))
  | inr (header, dg) =>
      let '(s1, effs) := ApplyDigest s (dgh_NodeID header) dg in
      let in_effs := Count DigestEntriesInbound (length dg) :: state_effects effs in
      let dl := Delta s1 dg false in
      '(sent, err) ← sendDelta maxPacketSize s1 dl (dgh_Addr header);
      match err with
      | Some err => Some (s1, in_effs ++ sent, Some err)
      | None =>
          let effs1 := in_effs ++ sent ++ [Count DeltaEntriesOutbound (EntriesTotal dl)] in
          if dgh_Request header then
            let own := Digest s1 in
            '(sent2, err2) ← sendDigest maxPacketSize shuffle s1 own (dgh_Addr header) false;
            match err2 with
            | Some err2 => Some (s1, effs1 ++ sent2, Some err2)
            | None => Some (s1, effs1 ++ sent2 ++ [Count DigestEntriesOutbound (length own)], None)
            end
          else Some (s1, effs1, None)
      end
  end.

(** [packetListener.delta] *)
Definition handle_delta (now : time) (s : clusterState) (d : D) (b : bytes) :
    option (clusterState * D * list node_effect * option node_error) :=
  decoded ← decodeDelta b;
  match decoded with
  | inl err => Some (s, d, [], Some (EProtocol err))
  | inr (header, dl) =>
      d' ← Report d (dlh_NodeID header) now;
      let '(s1, effs) := ApplyDelta now s (dlh_NodeID header) dl in
      Some (s1, d', Count DeltaEntriesInbound (EntriesTotal dl) :: state_effects effs, None)
  end.

(** The default case prints the version, as the code does. *)
Definition handlePacket (maxPacketSize : Z) (shuffle : digest → digest) (now : time)
    (s : clusterState) (d : D) (b : bytes) :
    option (clusterState * D * list node_effect * option node_error) :=
  match b with
  | messageType :: version :: _ =>
      if decide (version ≠ supportedVersion)
      then Some (s, d, [], Some (EProtocol (ErrUnsupportedVersion version)))
      else if decide (messageType = messageTypeDigest) then
        '(s1, effs, err) ← handle_digest maxPacketSize shuffle s b; Some (s1, d, effs, err)
      else if decide (messageType = messageTypeDelta) then handle_delta now s d b
      else Some (s, d, [], Some (EProtocol (ErrUnsupportedMessageType version)))
  | _ => Some (s, d, [], Some (EProtocol (ErrPacketTooSmall (length b))))
  end.

(** One iteration of [packetListener.Serve] that read a packet. *)
Definition serve_packet (maxPacketSize : Z) (shuffle : digest → digest) (now : time)
    (s : clusterState) (d : D) (b : bytes) : option (clusterState * D * list node_effect) :=
  '(s1, d1, effs, _) ← handlePacket maxPacketSize shuffle now s d b;
  Some (s1, d1, Count PacketBytesInbound (length b) :: effs).

(** ** Streams

    A handler reads the request and returns the bytes flushed to the
    connection; [flush] tells whether flushing succeeds. *)

Definition decode_error {A} : node_error + A := inl (EProtocol ErrDecode).

(** [decoder.Decode] into a value of type [A]. *)
Definition decode_next {A} `{Codec A} (r : bytes) : node_error + A * bytes :=
  match Decode r with
  | Decoded a r' => inr (a, r')
  | DecodeEOF | DecodeError => decode_error
  end.

Definition encode_next {A} `{Codec A} (a : A) : node_error + bytes :=
  match Encode a with Some b => inr b | None => inl (EProtocol ErrEncode) end.

(** [streamListener.join] *)
Definition stream_join (now : time) (flush : bool) (s : clusterState) (r : bytes) :
    option (clusterState * list node_effect * (node_error + bytes)) :=
  match decode_next (A := joinHeader) r with
  | inl err => Some (s, [], inl err)
  | inr (header, r1) =>
      match decode_next (A := delta) r1 with
      | inl err => Some (s, [], inl err)
      | inr (dl, r2) =>
          let effs0 := [Count DeltaEntriesInbound (EntriesTotal dl)] in
          match decode_next (A := digest) r2 with
          | inl err => Some (s, effs0, inl err)
          | inr (dg, _) =>
              let '(s1, effs1) := ApplyDelta now s (jh_NodeID header) dl in
              let '(s2, effs2) := ApplyDigest s1 (jh_NodeID header) dg in
              let effs := effs0 ++ [Count DigestEntriesInbound (length dg)]
                          ++ state_effects effs1 ++ state_effects effs2 in
              localMeta ← LocalNodeMetadata s2;
              match encode_next (mkJoinHeader (n_ID localMeta) (n_Addr localMeta)) with
              | inl err => Some (s2, effs, inl err)
              | inr h =>
                  let out := Delta s2 dg true in
                  match encode_next out with
                  | inl err => Some (s2, effs, inl err)
                  | inr b =>
                      let effs' := effs ++ [Count DeltaEntriesOutbound (EntriesTotal out)] in
                      Some (s2, effs', if flush then inr (h ++ b) else inl EFlush)
                  end
              end
          end
      end
  end.

(** [streamListener.leave] *)
Definition stream_leave (now : time) (flush : bool) (s : clusterState) (r : bytes) :
    option (clusterState * list node_effect * (node_error + bytes)) :=
  match decode_next (A := leaveHeader) r with
  | inl err => Some (s, [], inl err)
  | inr (header, r1) =>
      match decode_next (A := delta) r1 with
      | inl err => Some (s, [], inl err)
      | inr (dl, _) =>
          let '(s1, effs1) := ApplyDelta now s (lh_NodeID header) dl in
          let effs := Count DeltaEntriesInbound (EntriesTotal dl) :: state_effects effs1 in
          localMeta ← LocalNodeMetadata s1;
          match encode_next (mkLeaveHeader (n_ID localMeta) (n_Addr localMeta)) with
          | inl err => Some (s1, effs, inl err)
          | inr h => Some (s1, effs, if flush then inr h else inl EFlush)
          end
      end
  end.

(** [streamListener.handleConn] *)
Definition handleConn (now : time) (flush : bool) (s : clusterState) (r : bytes) :
    option (clusterState * list node_effect * (node_error + bytes)) :=
  match r with
  | messageType :: version :: r' =>
      if decide (version ≠ supportedVersion)
      then Some (s, [], inl (EProtocol (ErrUnsupportedVersion version)))
      else if decide (messageType = messageTypeJoin) then stream_join now flush s r'
      else if decide (messageType = messageTypeLeave) then stream_leave now flush s r'
      else Some (s, [], inl (EProtocol (ErrUnsupportedMessageType version)))
  | _ => Some (s, [], inl (EProtocol ErrRead))
  end.

(** [streamListener.Serve] for a connection it accepted. *)
Definition serve_conn (now : time) (flush : bool) (s : clusterState) (r : bytes) :
    option (clusterState * list node_effect * (node_error + bytes)) :=
  '(s1, effs, res) ← handleConn now flush s r;
  Some (s1, Count ConnectionsInbound 1 :: effs, res).

(** ** Exchanges a node starts *)

(** The request of [Gossip.join], and what is counted while it is encoded. *)
Definition join_request (s : clusterState) : option (list node_effect * (node_error + bytes)) :=
  localMeta ← LocalNodeMetadata s;
  dl ← LocalDelta s;
  let dg := Digest s in
  Some
    (match encode_next (mkJoinHeader (n_ID localMeta) (n_Addr localMeta)) with
     | inl err => ([], inl err)
     | inr h =>
         match encode_next dl with
         | inl err => ([], inl err)
         | inr b1 =>
             let effs := [Count DeltaEntriesOutbound (EntriesTotal dl)] in
             match encode_next dg with
             | inl err => (effs, inl err)
             | inr b2 =>
                 (effs ++ [Count DigestEntriesOutbound (length dg)],
                  inr ([messageTypeJoin; supportedVersion] ++ h ++ b1 ++ b2))
             end
         end
     end).

(** [Gossip.join] *)
Definition join (now : time) (s : clusterState) (addr : string) :
    option (clusterState * list node_effect * (node_error + string)) :=
  if negb (DialTCP addr) then Some (s, [], inl (EDial addr))
  else
    '(counted, request) ← join_request s;
    let sent := Count ConnectionsOutbound 1 :: counted in
    match request with
    | inl err => Some (s, sent, inl err)
    | inr req =>
        match exchange addr req with
        | None => Some (s, sent, inl EFlush)
        | Some resp =>
            match decode_next (A := joinHeader) resp with
            | inl err => Some (s, sent, inl err)
            | inr (header, r1) =>
                match decode_next (A := delta) r1 with
                | inl err => Some (s, sent, inl err)
                | inr (dl, _) =>
                    let '(s1, effs) := ApplyDelta now s (jh_NodeID header) dl in
                    Some (s1, sent ++ [Count DeltaEntriesInbound (EntriesTotal dl)] ++ state_effects effs,
                          inr (jh_NodeID header))
                end
            end
        end
    end.

(** The request of [Gossip.leave]; the header is a [joinHeader], which has the
    fields of the [leaveHeader] the listener decodes. *)
Definition leave_request (s : clusterState) : option (list node_effect * (node_error + bytes)) :=
  localMeta ← LocalNodeMetadata s;
  dl ← LocalDelta s;
  Some
    (match encode_next (mkJoinHeader (n_ID localMeta) (n_Addr localMeta)) with
     | inl err => ([], inl err)
     | inr h =>
         match encode_next dl with
         | inl err => ([], inl err)
         | inr b => ([Count DeltaEntriesOutbound (EntriesTotal dl)],
                     inr ([messageTypeLeave; supportedVersion] ++ h ++ b))
         end
     end).

(** [Gossip.leave] *)
Definition leave (s : clusterState) (addr : string) :
    option (list node_effect * option node_error) :=
  if negb (DialTCP addr) then Some ([], Some (EDial addr))
  else
    '(counted, request) ← leave_request s;
    let sent := Count ConnectionsOutbound 1 :: counted in
    match request with
    | inl err => Some (sent, Some err)
    | inr req =>
        match exchange addr req with
        | None => Some (sent, Some EFlush)
        | Some resp =>
            match decode_next (A := leaveHeader) resp with
            | inl err => Some (sent, Some err)
            | inr _ => Some (sent, None)
            end
        end
    end.

(** The loop of [Gossip.Leave] over the known nodes, with the number of nodes
    notified so far and the last error. *)
Fixpoint leave_loop (s : clusterState) (localID : string) (knownNodes : list NodeMetadata)
    (notified : nat) (lastLeaveErr : option node_error) : option (list node_effect * option node_error) :=
  match knownNodes with
  | [] => Some ([], if decide (0 < notified) then None else lastLeaveErr)
  | node :: knownNodes' =>
      if decide (n_ID node = localID) then leave_loop s localID knownNodes' notified lastLeaveErr
      else if n_Left node || n_Unreachable node then leave_loop s localID knownNodes' notified lastLeaveErr
      else
        '(effs, err) ← leave s (n_Addr node);
        match err with
        | Some err =>
            '(effs', res) ← leave_loop s localID knownNodes' notified (Some err);
            Some (effs ++ effs', res)
        | None =>
            if decide (3 < S notified) then Some (effs, None)
            else
              '(effs', res) ← leave_loop s localID knownNodes' (S notified) lastLeaveErr;
              Some (effs ++ effs', res)
        end
  end.

(** [Gossip.Leave]; [shuffle] is the order [rand.Shuffle] leaves the nodes in. *)
Definition Leave (shuffle : list NodeMetadata → list NodeMetadata) (s : clusterState) :
    option (clusterState * list node_effect * option node_error) :=
  '(s1, effs) ← LeaveLocal s;
  localMeta ← LocalNodeMetadata s1;
  '(sent, err) ← leave_loop s1 (n_ID localMeta) (shuffle (Nodes s1)) 0 None;
  Some (s1, state_effects effs ++ sent, err).

(** [Gossip.ensurePort]; [None] is the panic on an invalid bind address. *)
Definition ensurePort (c : Config) (addr : string) : option string :=
  if Contains addr ":" then Some addr
  else '(_, bindPort) ← SplitHostPort (BindAddr c); Some (addr +:+ ":" +:+ bindPort).

Definition resolveAddr (addr : string) : node_error + list string :=
  match SplitHostPort addr with
  | None => inl (EInvalidAddr addr)
  | Some (host, port) =>
      if ParseIP host then inr [addr]
      else
        match LookupIP host with
        | None => inl (ELookup host)
        | Some ips => inr ((λ ip, ip +:+ ":" +:+ port) <$> ips)
        end
  end.

(** The inner loop of [Gossip.Join], over the resolved addresses; every
    exchange may have its own clock. *)
Fixpoint join_addrs (clock : nat → time) (k : nat) (s : clusterState) (addrs : list string)
    (joined : list string) (lastJoinErr : option node_error) :
    option (clusterState * list node_effect * nat * list string * option node_error) :=
  match addrs with
  | [] => Some (s, [], k, joined, lastJoinErr)
  | addr :: addrs' =>
      '(s1, effs, res) ← join (clock k) s addr;
      '(s2, effs', k', joined', err') ←
        (match res with
         | inl err => join_addrs clock (S k) s1 addrs' joined (Some err)
         | inr nodeID => join_addrs clock (S k) s1 addrs' (joined ++ [nodeID]) lastJoinErr
         end);
      Some (s2, effs ++ effs', k', joined', err')
  end.

Fixpoint join_loop (c : Config) (clock : nat → time) (k : nat) (s : clusterState) (addrs : list string)
    (joined : list string) (lastJoinErr : option node_error) :
    option (clusterState * list node_effect * (node_error + list string)) :=
  match addrs with
  | [] =>
      Some (s, [], match joined, lastJoinErr with
                   | [], Some err => inl err
                   | _, _ => inr joined
                   end)
  | unresolved :: addrs' =>
      unresolvedAddr ← ensurePort c unresolved;
      match resolveAddr unresolvedAddr with
      | inl err => Some (s, [], inl err)
      | inr resolvedAddrs =>
          '(s1, effs, k1, joined1, err1) ← join_addrs clock k s resolvedAddrs joined lastJoinErr;
          '(s2, effs', res) ← join_loop c clock k1 s1 addrs' joined1 err1;
          Some (s2, effs ++ effs', res)
      end
  end.

(** [Gossip.Join] *)
Definition Join (c : Config) (clock : nat → time) (s : clusterState) (addrs : list string) :
    option (clusterState * list node_effect * (node_error + list string)) :=
  match addrs with
  | [] => Some (s, [], inr [])
  | _ => join_loop c clock 0 s addrs [] None
  end.

(** The loop of [Gossip.gossip]: the buffer and the bytes to send, [None] when
    encoding fails, and the number of entries counted. *)
Fixpoint gossip_loop (maxPacketSize : Z) (buf : bytes) (bufLen : nat) (sent : nat) (dg : digest) :
    option (bytes * nat) * nat :=
  match dg with
  | [] => (Some (buf, bufLen), sent)
  | entry :: dg' =>
      match Encode entry with
      | None => (None, sent)
      | Some b =>
          let buf' := buf ++ b in
          if decide (maxPacketSize < Z.of_nat (length buf'))%Z then (Some (buf', bufLen), sent)
          else gossip_loop maxPacketSize buf' (length buf') (S sent) dg'
      end
  end.

(** [Gossip.gossip] *)
Definition gossip (c : Config) (shuffle : digest → digest) (s : clusterState) (node : NodeMetadata) :
    option (list node_effect * option node_error) :=
  localMeta ← LocalNodeMetadata s;
  match Encode (mkDigestHeader (n_ID localMeta) (n_Addr localMeta) true) with
  | None => Some ([], Some (EProtocol ErrEncode))
  | Some h =>
      let buf := [messageTypeDigest; supportedVersion] ++ h in
      if decide (MaxPacketSize c < Z.of_nat (length buf))%Z
      then Some ([], Some (EProtocol (ErrHeaderTooLarge (MaxPacketSize c) (length buf))))
      else
        let '(res, sent) := gossip_loop (MaxPacketSize c) buf (length buf) 0 (shuffle (Digest s)) in
        let counted := Count DigestEntriesOutbound sent in
        match res with
        | None => Some ([counted], Some (EProtocol ErrEncode))
        | Some (buf', bufLen) =>
            let '(effs, err) := write_packet (n_Addr node) (take bufLen buf') in
            Some (counted :: effs, err)
        end
  end.

(** A random node of a list: [nodes[rand.Int()%len(nodes)]]. *)
Definition pick (r : nat) (l : list NodeMetadata) : option NodeMetadata := l !! (r `mod` length l).

(** [Gossip.gossipRound] *)
Definition gossipRound (c : Config) (r1 r2 : nat) (shuffle1 shuffle2 : digest → digest) (s : clusterState) :
    option (list node_effect * option node_error) :=
  '(effs1, err1) ← (match pick r1 (LiveNodes s) with
                    | None => Some ([], None)
                    | Some node => gossip c shuffle1 s node
                    end);
  match err1 with
  | Some err => Some (effs1, Some err)
  | None =>
      '(effs2, err2) ← (match pick r2 (UnreachableNodes s) with
                        | None => Some ([], None)
                        | Some node => gossip c shuffle2 s node
                        end);
      Some (effs1 ++ effs2, err2)
  end.

End node.
