(* ===== verification/GossipExchange.v ===== *)
(** * Exchanges between two gossip nodes

    What a digest, a delta and a join carry from one node to the other, and the
    effect of a whole exchange: after a push-pull gossip round or a join, each
    node holds the other's entries exactly. *)

From S2P Require Import Prelude GoLib GossipState GossipReplica GossipMembership Protocol GossipNode.

(** ** One node of a delta or digest *)

Section lookup.
Context `{MapIter}.

Lemma applyDeltaEntry_other now sender s de X :
  dl_ID de ≠ X →
  let s' := (applyDeltaEntry now sender s de).1 in
  nodes s' !! X = nodes s !! X ∧ tombstones s' !! X = tombstones s !! X ∧ localID s' = localID s.
Proof.
  intros Hne. unfold applyDeltaEntry, tombstoned, set_node.
  repeat (case_match || case_decide); simplify_eq/=; split_and!; simplify_map_eq; done.
Qed.

Lemma ApplyDelta_other now sender s d X :
  X ∉ dl_ID <$> d →
  let s' := (ApplyDelta now s sender d).1 in
  nodes s' !! X = nodes s !! X ∧ tombstones s' !! X = tombstones s !! X ∧ localID s' = localID s.
Proof.
  intros Hnin. unfold ApplyDelta.
  apply (fold_emit_ind (λ s', nodes s' !! X = nodes s !! X ∧ tombstones s' !! X = tombstones s !! X ∧
    localID s' = localID s)); [done|].
  intros s1 de Hde (E1&E2&E3). destruct (applyDeltaEntry_other now sender s1 de X) as (F1&F2&F3).
  { intros <-. apply Hnin. by apply list_elem_of_fmap_2. }
  split_and!; congruence.
Qed.

(** An entry about a remote node that is known, or that may be added. *)
Lemma applyDeltaEntry_entry now sender s de :
  dl_ID de ≠ localID s →
  is_Some (nodes s !! dl_ID de) ∨ dl_ID de = sender ∨ tombstones s !! dl_ID de = None →
  nodes (applyDeltaEntry now sender s de).1 !! dl_ID de =
    Some (applyEntries now (dl_ID de) (default (newNode (dl_ID de) (dl_Addr de)) (nodes s !! dl_ID de))
            (dl_Entries de)).1.
Proof.
  intros Hne Hadd. unfold applyDeltaEntry. rewrite decide_False by done.
  destruct (nodes s !! dl_ID de) as [st|]; simpl.
  - destruct (applyEntries _ _ _ _) as [st' w]. simpl. apply lookup_insert_eq.
  - assert (∃ tombs, tombstoned (tombstones s) (dl_ID de) sender = (false, tombs)) as [tombs ->].
    { unfold tombstoned. destruct (tombstones s !! dl_ID de) eqn:Ht; [|by eexists].
      destruct Hadd as [[? ?]|[-> | ?]]; [done| |done]. rewrite decide_True by done. by eexists. }
    destruct (applyEntries _ _ _ _) as [st' w]. simpl. apply lookup_insert_eq.
Qed.

Lemma fold_emit_cons_fst {S A W} (f : S → A → S * list W) s x l :
  (fold_emit f s (x :: l)).1 = (fold_emit f (f s x).1 l).1.
Proof. by rewrite !fold_emit_fst. Qed.

(** A delta with at most one entry per node is applied to each independently. *)
Lemma ApplyDelta_entry now sender s d de :
  NoDup (dl_ID <$> d) → de ∈ d → dl_ID de ≠ localID s →
  is_Some (nodes s !! dl_ID de) ∨ dl_ID de = sender ∨ tombstones s !! dl_ID de = None →
  nodes (ApplyDelta now s sender d).1 !! dl_ID de =
    Some (applyEntries now (dl_ID de) (default (newNode (dl_ID de) (dl_Addr de)) (nodes s !! dl_ID de))
            (dl_Entries de)).1.
Proof.
  unfold ApplyDelta. revert s. induction d as [|x d IH]; intros s Hnd Hin Hne Hadd; [set_solver|].
  apply NoDup_cons in Hnd as [Hx Hnd]. rewrite fold_emit_cons_fst.
  apply elem_of_cons in Hin as [->|Hin].
  - destruct (ApplyDelta_other now sender (applyDeltaEntry now sender s x).1 d (dl_ID x) Hx) as [E _].
    unfold ApplyDelta in E. rewrite E. by apply applyDeltaEntry_entry.
  - destruct (applyDeltaEntry_other now sender s x (dl_ID de)) as (E1&E2&E3).
    { intros Heq. apply Hx. rewrite Heq. by apply list_elem_of_fmap_2. }
    rewrite <-E1. apply IH; [done|done|congruence|by rewrite E1, E2].
Qed.

(** A digest only adds nodes. *)
Lemma ApplyDigest_known sender s d X st :
  nodes s !! X = Some st → nodes (ApplyDigest s sender d).1 !! X = Some st.
Proof.
  intros Hst. unfold ApplyDigest. apply (fold_emit_ind (λ s, nodes s !! X = Some st)); [done|].
  intros s1 entry _ Hs1. unfold applyDigestEntry, tombstoned.
  repeat (case_match || case_decide); simplify_eq/=; try done; rewrite lookup_insert_ne by congruence; done.
Qed.

Lemma ApplyDigest_local sender s d : localID (ApplyDigest s sender d).1 = localID s.
Proof.
  unfold ApplyDigest. apply (fold_emit_ind (λ s', localID s' = localID s)); [done|].
  intros s1 entry _ Hs1. unfold applyDigestEntry. by repeat (case_match || case_decide).
Qed.

Lemma ApplyDelta_local now sender s d : localID (ApplyDelta now s sender d).1 = localID s.
Proof.
  unfold ApplyDelta. apply (fold_emit_ind (λ s', localID s' = localID s)); [done|].
  intros s1 entry _ Hs1. unfold applyDeltaEntry. by repeat (case_match || case_decide).
Qed.

(** The node that sends a digest becomes known by it, at version 0, unless it
    says it left. *)
Lemma ApplyDigest_sender X s d entry :
  entry ∈ d → dg_ID entry = X → dg_Left entry = false → nodes s !! X = None →
  (∀ e, e ∈ d → dg_ID e = X → e = entry) →
  nodes (ApplyDigest s X d).1 !! X = Some (newNode X (dg_Addr entry)).
Proof.
  unfold ApplyDigest. revert s. induction d as [|x d IH]; intros s Hin HX Hleft Hn Huniq; [set_solver|].
  rewrite fold_emit_cons_fst. destruct (decide (dg_ID x = X)) as [HxX|HxX].
  - assert (x = entry) as -> by (apply Huniq; [left|done]).
    apply (ApplyDigest_known X). unfold applyDigestEntry, tombstoned. rewrite HX, Hn, Hleft.
    destruct (tombstones s !! X); [rewrite decide_True by done|]; simpl; apply lookup_insert_eq.
  - apply IH; [set_solver|done|done| |set_solver].
    unfold applyDigestEntry, tombstoned.
    repeat (case_match || case_decide); simplify_eq/=; try done; by rewrite lookup_insert_ne.
Qed.

(** *** Digests and deltas of a state *)

Lemma elem_of_Digest s entry :
  state_wf s →
  entry ∈ Digest s ↔ ∃ st, nodes s !! dg_ID entry = Some st ∧
    entry = mkDigestEntry (dg_ID entry) (n_Addr (ns_meta st)) (version st) (n_Left (ns_meta st)).
Proof.
  intros Hs. unfold Digest. rewrite list_elem_of_fmap. split.
  - intros (st&->&[k Hk]%elem_of_map_range_snd). simpl. exists st.
    rewrite (swf_ids _ Hs _ _ Hk). done.
  - intros (st&Hst&Heq). exists st. rewrite Heq. pose proof (swf_ids _ Hs _ _ Hst) as Hid. simpl.
    rewrite Hid. split; [done|]. apply elem_of_map_range_snd. eauto.
Qed.

Lemma NoDup_Digest s : state_wf s → NoDup (dg_ID <$> Digest s).
Proof.
  intros Hs. unfold Digest. rewrite <-!list_fmap_compose.
  erewrite list_fmap_ext; [apply (NoDup_map_range_fst (nodes s))|].
  intros i [k st] Hk%list_elem_of_lookup_2%elem_of_map_range. simpl. by eapply swf_ids.
Qed.

(** The entries of the delta a node computes for a digest. *)
Lemma elem_of_Delta s d de :
  state_wf s →
  de ∈ Delta s d false ↔ ∃ entry st, entry ∈ d ∧ nodes s !! dg_ID entry = Some st ∧
    de = deltaEntry_from st (dg_Version entry) ∧ 0 < length (dl_Entries de).
Proof.
  intros Hs. unfold Delta. rewrite app_nil_r, list_elem_of_omap. split.
  - intros (entry&Hin&Hde). destruct (nodes s !! dg_ID entry) as [st|] eqn:Hst; simpl in Hde; [|done].
    case_guard; simpl in Hde; [|done]. injection Hde as <-. eauto 10.
  - intros (entry&st&Hin&Hst&->&Hlen). exists entry. split; [done|]. rewrite Hst. simpl.
    by rewrite option_guard_True.
Qed.

Lemma deltaEntry_ID s X st v : state_wf s → nodes s !! X = Some st → dl_ID (deltaEntry_from st v) = X.
Proof. intros Hs Hst. simpl. by eapply swf_ids. Qed.

Lemma NoDup_Delta s d : state_wf s → NoDup (dg_ID <$> d) → NoDup (dl_ID <$> Delta s d false).
Proof.
  intros Hs Hnd. unfold Delta. rewrite app_nil_r. induction d as [|x d IH]; simpl; [constructor|].
  apply NoDup_cons in Hnd as [Hx Hnd]. specialize (IH Hnd).
  destruct (nodes s !! dg_ID x) as [st|] eqn:Hst; simpl; [|done]. case_guard; simpl; [|done].
  constructor; [|done]. rewrite (swf_ids _ Hs _ _ Hst). intros (de&Heq&Hde)%list_elem_of_fmap. apply Hx.
  apply list_elem_of_omap in Hde as (y&Hy&Hde).
  destruct (nodes s !! dg_ID y) as [st'|] eqn:Hst'; simpl in Hde; [|done].
  case_guard; simpl in Hde; [|done]. injection Hde as <-. simpl in Heq.
  rewrite (swf_ids _ Hs _ _ Hst') in Heq. rewrite Heq. by apply list_elem_of_fmap_2.
Qed.

(** ** Pulling one node *)

(** The delta [d] carries what [O], stored under [X], has for version [v]. *)
Definition carries (d : delta) (X : string) (O : nodeState) (v : N) : Prop :=
  NoDup (dl_ID <$> d) ∧ (∀ de, de ∈ d → dl_ID de = X → de = deltaEntry_from O v) ∧
  (dl_Entries (deltaEntry_from O v) ≠ [] → deltaEntry_from O v ∈ d).

(** The delta computed for a digest carries the owner's entries. *)
Lemma Delta_carries s d X O entry :
  state_wf s → NoDup (dg_ID <$> d) → entry ∈ d → dg_ID entry = X → nodes s !! X = Some O →
  carries (Delta s d false) X O (dg_Version entry).
Proof.
  intros Hs Hnd Hin HX HO. split_and!; [by apply NoDup_Delta|..].
  - intros de (entry'&st&Hin'&Hst&->&_)%elem_of_Delta Hid; [|done].
    rewrite (deltaEntry_ID _ _ _ _ Hs Hst) in Hid.
    assert (entry' = entry) as ->; [|congruence].
    apply list_elem_of_lookup in Hin as [i Hi], Hin' as [j Hj].
    assert (i = j) as ->; [|congruence].
    apply (NoDup_lookup _ i j X Hnd); rewrite list_lookup_fmap, ?Hi, ?Hj; simpl; congruence.
  - intros Hne. apply elem_of_Delta; [done|]. exists entry, O. split_and!; [done|congruence|done|].
    destruct (dl_Entries _); [done|simpl; lia].
Qed.

(** A replica that pulls such a delta has the owner's state. *)
Definition in_sync (s : clusterState) (X : string) (O : nodeState) : Prop :=
  ∃ st, nodes s !! X = Some st ∧ ns_Entries st = ns_Entries O ∧ version st = version O ∧
    n_Left (ns_meta st) = n_Left (ns_meta O).

Lemma pull_in_sync now sender s d X O st :
  owner_wf O → replica_of O st → n_ID (ns_meta O) = X → X ≠ localID s → nodes s !! X = Some st →
  carries d X O (version st) → in_sync (ApplyDelta now s sender d).1 X O.
Proof.
  intros Hown Hrep HX Hne Hst (Hnd&Huniq&Hin).
  destruct (owner_delta_version now X O st (version st) Hown Hrep ltac:(done)) as [Hrep' Hv].
  destruct (decide (X ∈ dl_ID <$> d)) as [Hd|Hd].
  - apply list_elem_of_fmap in Hd as (de&Hid&Hde). pose proof (Huniq de Hde (eq_sym Hid)) as ->.
    exists (applyEntries now X st (dl_Entries (deltaEntry_from O (version st)))).1.
    split; [|eauto using replica_caught_up, replica_caught_up_left].
    rewrite Hid, (ApplyDelta_entry now sender s d _ Hnd Hde); rewrite <-?Hid, ?Hst; [done|done|by left; eauto].
  - exists st. destruct (ApplyDelta_other now sender s d X Hd) as [-> _]. split; [done|].
    destruct (decide (dl_Entries (deltaEntry_from O (version st)) = [])) as [Hempty|Hempty].
    + rewrite Hempty in *. eauto using replica_caught_up, replica_caught_up_left.
    + exfalso. apply Hd. apply list_elem_of_fmap. exists (deltaEntry_from O (version st)).
      split; [done|by apply Hin].
Qed.
End lookup.

(** ** The local node during an exchange *)

Section states.
Context `{MapIter}.

Lemma ApplyDelta_own now sender s d :
  nodes (ApplyDelta now s sender d).1 !! localID s = nodes s !! localID s.
Proof.
  unfold ApplyDelta.
  apply (fold_emit_ind (λ s', nodes s' !! localID s = nodes s !! localID s ∧ localID s' = localID s)); [done|].
  intros s1 de _ [Hn Hl]. destruct (decide (dl_ID de = localID s)) as [Heq|Hne].
  - unfold applyDeltaEntry. rewrite decide_True by congruence. done.
  - destruct (applyDeltaEntry_other now sender s1 de (localID s) Hne) as (E1&_&E3). split; congruence.
Qed.

Lemma ApplyDigest_wf s sender d : state_wf s → state_wf (ApplyDigest s sender d).1.
Proof.
  intros Hs. assert (tracked s (ApplyDigest s sender d).1 (ApplyDigest s sender d).2) as Ht; [|by apply Ht].
  apply (fold_emit_rel tracked); [apply tracked_refl|apply tracked_trans|].
  intros. apply applyDigestEntry_tracked.
Qed.

Lemma ApplyDelta_wf now s sender d :
  (0 ≤ now)%Z → (∀ de e, de ∈ d → e ∈ dl_Entries de → entry_ok e) →
  state_wf s → state_wf (ApplyDelta now s sender d).1.
Proof.
  intros Hnow Hok Hs.
  assert (tracked s (ApplyDelta now s sender d).1 (ApplyDelta now s sender d).2) as Ht; [|by apply Ht].
  apply (fold_emit_rel tracked); [apply tracked_refl|apply tracked_trans|].
  intros s0 de Hde. apply applyDeltaEntry_tracked; [done|]. intros e. by apply Hok.
Qed.

Lemma deltaEntry_from_ok st v e : node_wf st → e ∈ dl_Entries (deltaEntry_from st v) → entry_ok e.
Proof.
  intros Hw. simpl. rewrite elem_of_sort_by, list_elem_of_filter, elem_of_map_range_snd.
  intros [_ [k Hk]]. by eapply (wf_ok _ Hw).
Qed.

Lemma Delta_ok s d de e : state_wf s → de ∈ Delta s d false → e ∈ dl_Entries de → entry_ok e.
Proof.
  intros Hs (entry&st&_&Hst&->&_)%elem_of_Delta; [|done].
  apply deltaEntry_from_ok. by eapply swf_nodes.
Qed.

Lemma LocalNodeMetadata_Some s O :
  nodes s !! localID s = Some O → LocalNodeMetadata s = Some (ns_meta O).
Proof. unfold LocalNodeMetadata. by intros ->. Qed.
End states.

(** ** The packets of a handler *)

Definition sends (effs : list node_effect) : list (string * bytes) :=
  omap (λ e, match e with Send a p => Some (a, p) | _ => None end) effs.

Lemma sends_app effs1 effs2 : sends (effs1 ++ effs2) = sends effs1 ++ sends effs2.
Proof. apply omap_app. Qed.

Lemma sends_state effs : sends (state_effects effs) = [].
Proof. induction effs as [|e effs IH]; [done|]. apply IH. Qed.

Section handlers.
Context `{MapIter, FailureDetector D, Env}.
Context `{CodecLaws digestHeader, CodecLaws digestEntry, CodecLaws deltaHeader, CodecLaws Entry}.

(** Packets to [addr] are written to [udp]. *)
Definition routes (addr udp : string) : Prop :=
  ResolveUDPAddr addr = Some udp ∧ ∀ p, WriteTo udp p = true.

Lemma write_packet_routes addr udp p :
  routes addr udp → write_packet addr p = ([Send udp p; Count PacketBytesOutbound (length p)], None).
Proof. intros [Hr Hw]. unfold write_packet. by rewrite Hr, Hw. Qed.

(** A digest that arrives is applied and answered with the whole delta, and
    with the node's own digest when it was a request. *)
Lemma handlePacket_digest max sh now s d p header dg O udp :
  decodeDigest p = Some (inr (header, dg)) →
  let s1 := (ApplyDigest s (dgh_NodeID header) dg).1 in
  nodes s1 !! localID s1 = Some O →
  fits_delta max (mkDeltaHeader (n_ID (ns_meta O)) (n_Addr (ns_meta O)) 0) (Delta s1 dg false) →
  (dgh_Request header = true →
   fits_digest max (mkDigestHeader (n_ID (ns_meta O)) (n_Addr (ns_meta O)) false) (sh (Digest s1))) →
  routes (dgh_Addr header) udp →
  ∃ effs p2, handlePacket max sh now s d p = Some (s1, d, effs, None) ∧
    decodeDelta p2 = Some (inr (mkDeltaHeader (n_ID (ns_meta O)) (n_Addr (ns_meta O)) 0, Delta s1 dg false)) ∧
    if dgh_Request header
    then ∃ p3, sends effs = [(udp, p2); (udp, p3)] ∧
      decodeDigest p3 = Some (inr (mkDigestHeader (n_ID (ns_meta O)) (n_Addr (ns_meta O)) false, sh (Digest s1)))
    else sends effs = [(udp, p2)].
Proof.
  intros Hp s1 HO Hdl Hdg Hr. destruct (decodeDigest_preamble _ _ Hp) as [r ->].
  destruct (encodeDelta_whole _ _ _ Hdl) as (p2&Hp2&Hdec2&_).
  unfold handlePacket. rewrite decide_False by tauto. rewrite decide_True by done.
  unfold handle_digest. rewrite Hp. cbn [mbind option_bind].
  destruct (ApplyDigest s (dgh_NodeID header) dg) as [s1' effs1]. simpl in s1. subst s1.
  unfold sendDelta, sendDigest. rewrite (LocalNodeMetadata_Some _ _ HO). cbn [mbind option_bind].
  rewrite Hp2, (write_packet_routes _ _ _ Hr).
  destruct (dgh_Request header); cbn [mbind option_bind].
  - destruct (encodeDigest_whole _ _ _ (Hdg eq_refl)) as (p3&Hp3&Hdec3&_).
    rewrite Hp3, (write_packet_routes _ _ _ Hr). cbn [mbind option_bind].
    eexists _, p2. split; [done|]. split; [done|]. exists p3. split; [|done].
    rewrite !sends_app. simpl. by rewrite sends_state.
  - eexists _, p2. split; [done|]. split; [done|]. rewrite !sends_app. simpl. by rewrite sends_state.
Qed.

(** A delta that arrives is applied, and nothing is sent. *)
Lemma handlePacket_delta max sh now s d d' p header dl :
  decodeDelta p = Some (inr (header, dl)) → Report d (dlh_NodeID header) now = Some d' →
  ∃ effs, handlePacket max sh now s d p = Some ((ApplyDelta now s (dlh_NodeID header) dl).1, d', effs, None) ∧
    sends effs = [].
Proof.
  intros Hp Hd. destruct (decodeDelta_preamble _ _ Hp) as [r ->].
  unfold handlePacket. rewrite decide_False by tauto.
  rewrite decide_False by done. rewrite decide_True by done.
  unfold handle_delta. rewrite Hp. cbn [mbind option_bind]. rewrite Hd. cbn [mbind option_bind].
  destruct (ApplyDelta _ _ _ _) as [s1 effs1]. eexists. split; [done|]. simpl. apply sends_state.
Qed.

(** The loop of [gossip] is that of [encodeDigest]. *)
Lemma gossip_loop_digest max buf n k dg :
  (gossip_loop max buf n k dg).1 = encode_digest_loop max buf n dg.
Proof.
  revert buf n k. induction dg as [|e dg IH]; intros buf n k; simpl; [done|].
  destruct (Encode e); simpl; [|done]. case_decide; [done|apply IH].
Qed.

Lemma gossip_whole c sh s node O udp :
  nodes s !! localID s = Some O →
  fits_digest (MaxPacketSize c) (mkDigestHeader (n_ID (ns_meta O)) (n_Addr (ns_meta O)) true) (sh (Digest s)) →
  routes (n_Addr node) udp →
  ∃ effs p, gossip c sh s node = Some (effs, None) ∧ sends effs = [(udp, p)] ∧
    decodeDigest p = Some (inr (mkDigestHeader (n_ID (ns_meta O)) (n_Addr (ns_meta O)) true, sh (Digest s))).
Proof.
  intros HO Hfit Hr. destruct (encodeDigest_whole _ _ _ Hfit) as (p&Hp&Hdec&_).
  unfold gossip. rewrite (LocalNodeMetadata_Some _ _ HO). cbn [mbind option_bind].
  unfold encodeDigest in Hp. destruct (Encode _) as [h|]; [|done]. case_decide; [done|].
  rewrite <-(gossip_loop_digest _ _ _ 0) in Hp.
  destruct (gossip_loop _ _ _ _ _) as [[[buf' n]|] k]; simpl in Hp; [|done]. injection Hp as <-.
  rewrite (write_packet_routes _ _ _ Hr). eexists _, _. split; [done|]. split; [done|]. done.
Qed.
End handlers.

(** ** A push-pull round *)

Section round.
Context `{MapIter}.

(** The states of a round between [sA], which starts it, and [sB]. *)
Definition round_B1 (sA sB : clusterState) (dg1 : digest) := (ApplyDigest sB (localID sA) dg1).1.
Definition round_A1 (t : time) (sA sB : clusterState) (dg1 : digest) :=
  (ApplyDelta t sA (localID sB) (Delta (round_B1 sA sB dg1) dg1 false)).1.
Definition round_A2 (t : time) (sA sB : clusterState) (dg1 dg3 : digest) :=
  (ApplyDigest (round_A1 t sA sB dg1) (localID sB) dg3).1.
Definition round_B2 (t t' : time) (sA sB : clusterState) (dg1 dg3 : digest) :=
  (ApplyDelta t' (round_B1 sA sB dg1) (localID sA) (Delta (round_A2 t sA sB dg1 dg3) dg3 false)).1.

Context (t t' : time) (sA sB : clusterState) (OA OB R : nodeState) (dg1 dg3 : digest).
Context (Ht : (0 ≤ t)%Z) (Ht' : (0 ≤ t')%Z).
Context (HwA : state_wf sA) (HwB : state_wf sB) (Hne : localID sA ≠ localID sB).
Context (HOA : nodes sA !! localID sA = Some OA) (HOB : nodes sB !! localID sB = Some OB).
Context (HR : nodes sA !! localID sB = Some R) (HrepR : replica_of OB R).
Context (HrepA : ∀ R, nodes sB !! localID sA = Some R → replica_of OA R) (Hleft : n_Left (ns_meta OA) = false).
Context (Hdg1 : dg1 ≡ₚ Digest sA) (Hdg3 : dg3 ≡ₚ Digest (round_B1 sA sB dg1)).

Let B1 := round_B1 sA sB dg1.
Let A1 := round_A1 t sA sB dg1.
Let A2 := round_A2 t sA sB dg1 dg3.
Let B2 := round_B2 t t' sA sB dg1 dg3.

Lemma local_owner_wf s O : state_wf s → nodes s !! localID s = Some O → owner_wf O ∧ n_ID (ns_meta O) = localID s.
Proof.
  intros Hs HO. destruct (swf_local _ Hs) as (st&Hst&Hown&_). simplify_eq.
  split; [done|by eapply swf_ids].
Qed.

Lemma dg1_NoDup : NoDup (dg_ID <$> dg1).
Proof using HwA Hdg1. rewrite Hdg1. by apply NoDup_Digest. Qed.

Lemma round_B1_wf : state_wf B1.
Proof using HwB. by apply ApplyDigest_wf. Qed.

Lemma round_B1_local : localID B1 = localID sB.
Proof using. apply ApplyDigest_local. Qed.

Lemma round_B1_own : nodes B1 !! localID B1 = Some OB.
Proof using HOB. rewrite round_B1_local. by apply ApplyDigest_known. Qed.

Lemma dg3_NoDup : NoDup (dg_ID <$> dg3).
Proof using HwB Hdg3. rewrite Hdg3. apply NoDup_Digest, round_B1_wf. Qed.

Lemma round_A1_wf : state_wf A1.
Proof using HwA HwB Ht.
  apply ApplyDelta_wf; [done| |done]. intros de e. apply Delta_ok, round_B1_wf.
Qed.

Lemma round_A2_wf : state_wf A2.
Proof using HwA HwB Ht. apply ApplyDigest_wf, round_A1_wf. Qed.

Lemma round_A2_local : localID A2 = localID sA.
Proof using. unfold A2, round_A2. rewrite ApplyDigest_local. apply ApplyDelta_local. Qed.

Lemma round_A2_own : nodes A2 !! localID A2 = Some OA.
Proof using HOA.
  rewrite round_A2_local. apply ApplyDigest_known. unfold round_A1. by rewrite ApplyDelta_own.
Qed.

(** The node that started the round is known to the other, as a replica. *)
Lemma round_B1_knows : ∃ RA, nodes B1 !! localID sA = Some RA ∧ replica_of OA RA.
Proof using HwA HwB HOA HrepA Hleft Hdg1.
  destruct (local_owner_wf _ _ HwA HOA) as [HownA HidA].
  destruct (nodes sB !! localID sA) as [RA|] eqn:HRA.
  { exists RA. split; [by apply ApplyDigest_known|by apply HrepA]. }
  set (entry := mkDigestEntry (localID sA) (n_Addr (ns_meta OA)) (version OA) false).
  exists (newNode (localID sA) (n_Addr (ns_meta OA))). split; [|by apply replica_of_new].
  apply (ApplyDigest_sender (localID sA) sB dg1 entry); [|done|done|done|].
  - rewrite Hdg1. apply elem_of_Digest; [done|]. exists OA. simpl. split; [done|]. by rewrite Hleft.
  - intros e. rewrite Hdg1. intros He Hid. apply elem_of_Digest in He as (st&Hst&->); [|done].
    simpl in Hid. rewrite Hid in *. rewrite HOA in Hst. injection Hst as <-. by rewrite Hleft.
Qed.

Lemma round_A1_sync : in_sync A1 (localID sB) OB.
Proof using HwA HwB Hne HOB HR HrepR Hdg1.
  destruct (local_owner_wf _ _ HwB HOB) as [HownB HidB].
  apply (pull_in_sync _ _ _ _ _ _ R); try done.
  set (entry := mkDigestEntry (localID sB) (n_Addr (ns_meta R)) (version R) (n_Left (ns_meta R))).
  apply (Delta_carries B1 dg1 (localID sB) OB entry); [apply round_B1_wf|apply dg1_NoDup| |done|].
  - rewrite Hdg1. apply elem_of_Digest; [done|]. by exists R.
  - rewrite <-round_B1_local. apply round_B1_own.
Qed.

Lemma round_A2_sync : in_sync A2 (localID sB) OB.
Proof using HwA HwB Hne HOB HR HrepR Hdg1.
  destruct round_A1_sync as (st&Hst&?). exists st. split; [by apply ApplyDigest_known|done].
Qed.

Lemma round_B2_sync : in_sync B2 (localID sA) OA.
Proof using HwA HwB Hne HOA HrepA Hleft Hdg1 Hdg3 Ht.
  destruct (local_owner_wf _ _ HwA HOA) as [HownA HidA].
  destruct round_B1_knows as (RA&HRA&HrepRA).
  apply (pull_in_sync _ _ _ _ _ _ RA); try done; [by change (localID sA ≠ localID B1); rewrite round_B1_local|].
  set (entry := mkDigestEntry (localID sA) (n_Addr (ns_meta RA)) (version RA) (n_Left (ns_meta RA))).
  apply (Delta_carries A2 dg3 (localID sA) OA entry); [apply round_A2_wf|apply dg3_NoDup| |done|].
  - rewrite Hdg3. apply elem_of_Digest; [apply round_B1_wf|]. by exists RA.
  - rewrite <-round_A2_local. apply round_A2_own.
Qed.
End round.

(** ** Joining *)

Section join.
Context `{MapIter}.

Lemma elem_of_Delta_full s d de :
  state_wf s →
  de ∈ Delta s d true ↔ de ∈ Delta s d false ∨
    (∃ X st, (X ∉ dg_ID <$> d) ∧ nodes s !! X = Some st ∧ de = deltaEntry_from st 0).
Proof.
  intros Hs. unfold Delta. rewrite app_nil_r, elem_of_app. apply or_iff_compat_l.
  rewrite list_elem_of_fmap. split.
  - intros ([X st]&->&[Hnin Hin]%list_elem_of_filter). apply elem_of_map_range in Hin. simpl in *. eauto.
  - intros (X&st&Hnin&Hst&->). exists (X, st). split; [done|]. apply list_elem_of_filter.
    split; [done|]. by apply elem_of_map_range.
Qed.

Lemma NoDup_Delta_full s d : state_wf s → NoDup (dg_ID <$> d) → NoDup (dl_ID <$> Delta s d true).
Proof.
  intros Hs Hnd. pose proof (NoDup_Delta s d Hs Hnd) as Hf. unfold Delta in *. rewrite app_nil_r in Hf.
  rewrite fmap_app. apply NoDup_app. split; [done|]. split.
  - intros X (de&->&Hde)%list_elem_of_fmap (de2&Heq&Hde2)%list_elem_of_fmap.
    apply list_elem_of_omap in Hde as (entry&Hin&Hde).
    destruct (nodes s !! dg_ID entry) as [st|] eqn:Hst; simpl in Hde; [|done].
    case_guard; simpl in Hde; [|done]. injection Hde as <-.
    apply list_elem_of_fmap in Hde2 as ([Y st2]&->&[Hnin Hin2]%list_elem_of_filter).
    apply elem_of_map_range in Hin2. simpl in *. apply Hnin.
    rewrite (swf_ids _ Hs _ _ Hst), (swf_ids _ Hs _ _ Hin2) in Heq. rewrite <-Heq. by apply list_elem_of_fmap_2.
  - rewrite <-list_fmap_compose.
    assert (dl_ID ∘ (λ p, deltaEntry_from p.2 0) <$> filter (λ p, p.1 ∉ dg_ID <$> d) (map_range (nodes s)) =
      fst <$> filter (λ p, p.1 ∉ dg_ID <$> d) (map_range (nodes s))) as ->.
    + apply list_fmap_ext. intros i [k st] Hk%list_elem_of_lookup_2.
      apply list_elem_of_filter in Hk as [_ Hk%elem_of_map_range]. simpl. by eapply swf_ids.
    + eapply sublist_NoDup; [apply (NoDup_map_range_fst (nodes s))|].
      apply fmap_sublist, sublist_filter.
Qed.
(** The node a delta brings, known or not, ends as its owner. *)
Lemma entry_in_sync now sender s d X O f R :
  owner_wf O → n_ID (ns_meta O) = X → X ≠ localID s →
  R = default (newNode X (n_Addr (ns_meta O))) (nodes s !! X) → replica_of O R → (f ≤ version R)%N →
  is_Some (nodes s !! X) ∨ X = sender ∨ tombstones s !! X = None →
  NoDup (dl_ID <$> d) → deltaEntry_from O f ∈ d →
  in_sync (ApplyDelta now s sender d).1 X O.
Proof.
  intros Hown HX Hne HR Hrep Hf Hadd Hnd Hin.
  destruct (owner_delta_version now X O R f Hown Hrep Hf) as [Hrep' Hv].
  exists (applyEntries now X R (dl_Entries (deltaEntry_from O f))).1.
  split; [|eauto using replica_caught_up, replica_caught_up_left].
  assert (dl_ID (deltaEntry_from O f) = X) as Hid by done.
  assert (dl_Addr (deltaEntry_from O f) = n_Addr (ns_meta O)) as Haddr by done.
  pose proof (ApplyDelta_entry now sender s d (deltaEntry_from O f) Hnd Hin) as Ha.
  rewrite Hid, Haddr, <-HR in Ha. by apply Ha.
Qed.
End join.

(** *** What a full delta brings to the node that asked for it *)

Section full_delta.
Context `{MapIter}.
Context (t : time) (sA s : clusterState) (sender : string).
Context (HwA : state_wf sA) (Hws : state_wf s).

Let out := Delta s (Digest sA) true.

Lemma full_delta_NoDup : NoDup (dl_ID <$> out).
Proof using HwA Hws. apply NoDup_Delta_full; [done|by apply NoDup_Digest]. Qed.

(** A node unknown to the digest is in the full delta. *)
Lemma full_delta_unknown X st :
  nodes s !! X = Some st → nodes sA !! X = None → deltaEntry_from st 0 ∈ out.
Proof using HwA Hws.
  intros Hst Hn. apply elem_of_Delta_full; [done|]. right. exists X, st. split; [|done].
  intros (e&Heq&He)%list_elem_of_fmap. apply elem_of_Digest in He as (y&Hy&_); [|done]. congruence.
Qed.

Lemma full_delta_known X O R :
  nodes s !! X = Some O → nodes sA !! X = Some R → carries out X O (version R).
Proof using HwA Hws.
  intros HO HR. pose proof full_delta_NoDup as Hnd.
  set (entry := mkDigestEntry X (n_Addr (ns_meta R)) (version R) (n_Left (ns_meta R))).
  assert (entry ∈ Digest sA) as Hentry by (apply elem_of_Digest; [done|by exists R]).
  destruct (Delta_carries s (Digest sA) X O entry Hws (NoDup_Digest _ HwA) Hentry eq_refl HO) as (_&Hu&Hi).
  split_and!; [done| |].
  - intros de [Hde|(Y&st&Hnin&Hst&->)]%elem_of_Delta_full Hid; [by apply Hu| |done].
    exfalso. apply Hnin. rewrite (deltaEntry_ID _ _ _ _ Hws Hst) in Hid. subst Y.
    by apply (list_elem_of_fmap_2 dg_ID _ entry).
  - intros Hempty. apply elem_of_Delta_full; [done|]. left. by apply Hi.
Qed.

(** The sender itself ends in sync. *)
Lemma full_delta_sender O :
  owner_wf O → n_ID (ns_meta O) = sender → sender ≠ localID sA → nodes s !! sender = Some O →
  (∀ R, nodes sA !! sender = Some R → replica_of O R) →
  in_sync (ApplyDelta t sA sender out).1 sender O.
Proof using HwA Hws.
  intros Hown HID Hne HO Hrep. destruct (nodes sA !! sender) as [R|] eqn:HR.
  - apply (pull_in_sync _ _ _ _ _ _ R); try done; [by apply Hrep|by apply full_delta_known].
  - eapply (entry_in_sync _ _ _ _ _ O 0); [done|done|done|done| |lia|by right; left|apply full_delta_NoDup|].
    + rewrite HR. by apply replica_of_new.
    + by eapply full_delta_unknown.
Qed.

(** Every node of the full delta that is not tombstoned becomes known. *)
Lemma full_delta_discovers X :
  X ≠ localID sA → is_Some (nodes s !! X) → tombstones sA !! X = None →
  is_Some (nodes (ApplyDelta t sA sender out).1 !! X).
Proof using HwA Hws.
  intros HX [st Hst] Htomb. destruct (decide (X ∈ dl_ID <$> out)) as [Hin|Hnin].
  - apply list_elem_of_fmap in Hin as (de&->&Hde).
    rewrite (ApplyDelta_entry _ _ _ _ _ full_delta_NoDup Hde HX); [by eexists|by right; right].
  - destruct (ApplyDelta_other t sender sA out X Hnin) as [-> _].
    destruct (nodes sA !! X) as [x|] eqn:HsA; [by eexists|]. exfalso. apply Hnin.
    rewrite <-(deltaEntry_ID _ X st 0 Hws Hst). by eapply list_elem_of_fmap_2, full_delta_unknown.
Qed.
End full_delta.

(** Encoding the messages of this program does not fail. *)
Class CodecTotal A `{Codec A} := {
  Encode_total : ∀ a, is_Some (Encode a);
}.

Section join_exchange.
Context `{MapIter, Env}.
Context `{!Codec joinHeader, !Codec leaveHeader, !Codec delta, !Codec digest}.
Context `{!CodecLaws joinHeader, !CodecLaws leaveHeader, !CodecLaws delta, !CodecLaws digest}.
Context `{!CodecTotal joinHeader, !CodecTotal leaveHeader, !CodecTotal delta, !CodecTotal digest}.

Lemma encode_decode_next {A} `{CodecLaws A, !CodecTotal A} (a : A) :
  ∃ b, encode_next a = inr b ∧ ∀ rest, decode_next (b ++ rest) = inr (a, rest).
Proof.
  destruct (Encode_total a) as [b Hb]. exists b. unfold encode_next, decode_next. rewrite Hb.
  split; [done|]. intros rest. by rewrite (Decode_Encode _ _ _ Hb).
Qed.

(** What the listener does with the request of [join]. *)
Lemma handleConn_join now sB dl dg header req OB :
  (∃ h b1 b2, encode_next header = inr h ∧ encode_next dl = inr b1 ∧ encode_next dg = inr b2 ∧
    req = [messageTypeJoin; supportedVersion] ++ h ++ b1 ++ b2) →
  let s1 := (ApplyDelta now sB (jh_NodeID header) dl).1 in
  let s2 := (ApplyDigest s1 (jh_NodeID header) dg).1 in
  nodes s2 !! localID s2 = Some OB →
  ∃ effs h b, handleConn now true sB req = Some (s2, effs, inr (h ++ b)) ∧
    (∀ rest, decode_next (h ++ rest) = inr (mkJoinHeader (n_ID (ns_meta OB)) (n_Addr (ns_meta OB)), rest)) ∧
    decode_next b = inr (Delta s2 dg true, []).
Proof.
  intros (h&b1&b2&Hh&Hb1&Hb2&->) s1 s2 HOB.
  destruct (encode_decode_next header) as (h'&Hh'&Hdh). rewrite Hh in Hh'. injection Hh' as <-.
  destruct (encode_decode_next dl) as (x1&Hx1&Hd1). rewrite Hb1 in Hx1. injection Hx1 as <-.
  destruct (encode_decode_next dg) as (x2&Hx2&Hd2). rewrite Hb2 in Hx2. injection Hx2 as <-.
  destruct (encode_decode_next (mkJoinHeader (n_ID (ns_meta OB)) (n_Addr (ns_meta OB)))) as (ho&Hho&Hdo).
  destruct (encode_decode_next (Delta s2 dg true)) as (bo&Hbo&Hdbo).
  unfold handleConn. cbn [app]. rewrite decide_False by tauto. rewrite decide_True by done.
  unfold stream_join. rewrite Hdh, Hd1.
  specialize (Hd2 []). rewrite app_nil_r in Hd2. rewrite Hd2.
  destruct (ApplyDelta now sB (jh_NodeID header) dl) as [s1' effs1]. simpl in s1. subst s1.
  destruct (ApplyDigest s1' (jh_NodeID header) dg) as [s2' effs2]. simpl in s2. subst s2.
  rewrite (LocalNodeMetadata_Some _ _ HOB). cbn [mbind option_bind]. rewrite Hho, Hbo.
  eexists _, ho, bo. split; [done|]. split; [done|]. specialize (Hdbo []). by rewrite app_nil_r in Hdbo.
Qed.

End join_exchange.

(** ** Properties *)

(** C9. A push-pull gossip round brings two nodes in sync, when their states are
    small enough: when [sA], which has not left, gossips with a node [sB] it
    knows, the addresses of the two nodes are those they listen on, and each of
    the four packets of the round (digest request, delta, digest, delta) holds
    the whole digest or delta within the limit on its size and arrives, the
    round goes through without an error, [sA] ends with exactly [sB]'s own
    entries, version and left flag, and [sB] with exactly [sA]'s, even if it did
    not know [sA] before. *)
Theorem push_pull_round `{MapIter, FailureDetector D, Env}
    `{CodecLaws digestHeader, CodecLaws digestEntry, CodecLaws deltaHeader, CodecLaws Entry}
    c maxA maxB shA shA' shB t t' t0 sA sB (dA dA' dB dB' : D) OA OB R node udpA udpB :
  (0 ≤ t)%Z → (0 ≤ t')%Z → state_wf sA → state_wf sB → localID sA ≠ localID sB →
  nodes sA !! localID sA = Some OA → nodes sB !! localID sB = Some OB →
  nodes sA !! localID sB = Some R → replica_of OB R →
  (∀ R, nodes sB !! localID sA = Some R → replica_of OA R) → n_Left (ns_meta OA) = false →
  routes (n_Addr node) udpB → routes (n_Addr (ns_meta OA)) udpA → routes (n_Addr (ns_meta OB)) udpB →
  Report dA (localID sB) t = Some dA' → Report dB (localID sA) t' = Some dB' →
  let dg1 := shA (Digest sA) in
  let B1 := round_B1 sA sB dg1 in
  let dg3 := shB (Digest B1) in
  let A1 := round_A1 t sA sB dg1 in
  let A2 := round_A2 t sA sB dg1 dg3 in
  let B2 := round_B2 t t' sA sB dg1 dg3 in
  let id O request := mkDigestHeader (n_ID (ns_meta O)) (n_Addr (ns_meta O)) request in
  let hdr O := mkDeltaHeader (n_ID (ns_meta O)) (n_Addr (ns_meta O)) 0 in
  dg1 ≡ₚ Digest sA → dg3 ≡ₚ Digest B1 →
  fits_digest (MaxPacketSize c) (id OA true) dg1 → fits_delta maxB (hdr OB) (Delta B1 dg1 false) →
  fits_digest maxB (id OB false) dg3 → fits_delta maxA (hdr OA) (Delta A2 dg3 false) →
  ∃ e1 e2 e3 e4 e5 p1 p2 p3 p4,
    gossip c shA sA node = Some (e1, None) ∧ sends e1 = [(udpB, p1)] ∧
    handlePacket maxB shB t0 sB dB p1 = Some (B1, dB, e2, None) ∧ sends e2 = [(udpA, p2); (udpA, p3)] ∧
    handlePacket maxA shA' t sA dA p2 = Some (A1, dA', e3, None) ∧ sends e3 = [] ∧
    handlePacket maxA shA' t0 A1 dA' p3 = Some (A2, dA', e4, None) ∧ sends e4 = [(udpB, p4)] ∧
    handlePacket maxB shB t' B1 dB p4 = Some (B2, dB', e5, None) ∧ sends e5 = [] ∧
    in_sync A2 (localID sB) OB ∧ in_sync B2 (localID sA) OA.
Proof.
  intros Ht Ht' HwA HwB Hne HOA HOB HR HrepR HrepA Hleft Hnode HrA HrB HdA HdB dg1 B1 dg3 A1 A2 B2 id hdr
    Hp1 Hp3 F1 F2 F3 F4.
  destruct (local_owner_wf _ _ HwA HOA) as [_ HidA]. destruct (local_owner_wf _ _ HwB HOB) as [_ HidB].
  destruct (gossip_whole c shA sA node OA udpB HOA F1 Hnode) as (e1&p1&G1&S1&D1).
  destruct (handlePacket_digest maxB shB t0 sB dB p1 _ _ OB udpA D1) as (e2&p2&G2&D2&p3&S2&D3).
  { simpl. rewrite HidA. by apply round_B1_own. }
  { simpl. rewrite HidA. exact F2. }
  { intros _. simpl. rewrite HidA. exact F3. }
  { exact HrA. }
  simpl in G2, D2, D3. rewrite HidA in G2, D2, D3.
  destruct (handlePacket_delta maxA shA' t sA dA dA' p2 _ _ D2) as (e3&G3&S3); [simpl; by rewrite HidB|].
  simpl in G3. rewrite HidB in G3.
  destruct (handlePacket_digest maxA shA' t0 A1 dA' p3 _ _ OA udpB D3) as (e4&p4&G4&D4&S4).
  { simpl. rewrite HidB. by apply (round_A2_own t sA sB OA). }
  { simpl. rewrite HidB. exact F4. }
  { done. }
  { exact HrB. }
  simpl in G4, D4, S4. rewrite HidB in G4, D4.
  destruct (handlePacket_delta maxB shB t' B1 dB dB' p4 _ _ D4) as (e5&G5&S5); [simpl; by rewrite HidA|].
  simpl in G5. rewrite HidA in G5.
  exists e1, e2, e3, e4, e5, p1, p2, p3, p4. split_and!; try done.
  - by apply (round_A2_sync t sA sB OB R dg1 dg3).
  - by apply (round_B2_sync t t' sA sB OA dg1 dg3).
Qed.

(** C25. Joining synchronizes both nodes: when [sA] dials the address of [sB] and
    the stream carries its request and the answer, the join returns [sB]'s
    identifier, [sB] holds exactly [sA]'s entries, [sA] holds exactly [sB]'s,
    and [sA] knows every node [sB] knew, except those it holds a tombstone
    for. *)
Theorem join_synchronizes `{MapIter, Env}
    `{CodecLaws joinHeader, CodecLaws leaveHeader, CodecLaws delta, CodecLaws digest}
    `{!CodecTotal joinHeader, !CodecTotal leaveHeader, !CodecTotal delta, !CodecTotal digest}
    t t' sA sB OA OB addr :
  (0 ≤ t)%Z → (0 ≤ t')%Z → state_wf sA → state_wf sB → localID sA ≠ localID sB →
  nodes sA !! localID sA = Some OA → nodes sB !! localID sB = Some OB →
  (∀ R, nodes sA !! localID sB = Some R → replica_of OB R) →
  (∀ R, nodes sB !! localID sA = Some R → replica_of OA R) →
  DialTCP addr = true →
  (∀ req sB' effs b, handleConn t' true sB req = Some (sB', effs, inr b) → exchange addr req = Some b) →
  ∃ req sB' effs b sA' effs', handleConn t' true sB req = Some (sB', effs, inr b) ∧
    join t sA addr = Some (sA', effs', inr (localID sB)) ∧
    in_sync sB' (localID sA) OA ∧ in_sync sA' (localID sB) OB ∧
    ∀ X, X ≠ localID sA → is_Some (nodes sB !! X) → tombstones sA !! X = None → is_Some (nodes sA' !! X).
Proof.
  intros Ht Ht' HwA HwB Hne HOA HOB HrepB HrepA Hdial Hpeer.
  destruct (local_owner_wf _ _ HwA HOA) as [HownA HidA]. destruct (local_owner_wf _ _ HwB HOB) as [HownB HidB].
  set (header := mkJoinHeader (n_ID (ns_meta OA)) (n_Addr (ns_meta OA))).
  set (dl := [deltaEntry_from OA 0] : delta). set (dg := Digest sA).
  destruct (encode_decode_next header) as (h&Hh&_). destruct (encode_decode_next (A := delta) dl) as (b1&Hb1&_).
  destruct (encode_decode_next dg) as (b2&Hb2&_).
  set (req := [messageTypeJoin; supportedVersion] ++ h ++ b1 ++ b2).
  set (B1 := (ApplyDelta t' sB (localID sA) dl).1). set (B2 := (ApplyDigest B1 (localID sA) dg).1).
  assert (state_wf B1) as HwB1.
  { apply ApplyDelta_wf; [done| |done]. intros de e ->%list_elem_of_singleton.
    apply deltaEntry_from_ok. exact (swf_nodes _ HwA _ _ HOA). }
  assert (state_wf B2) as HwB2 by by apply ApplyDigest_wf.
  assert (localID B2 = localID sB) as HlB.
  { unfold B2. rewrite ApplyDigest_local. apply ApplyDelta_local. }
  assert (nodes B2 !! localID B2 = Some OB) as HOB2.
  { rewrite HlB. apply ApplyDigest_known. unfold B1. by rewrite ApplyDelta_own. }
  destruct (handleConn_join t' sB dl dg header req OB) as (effs&ho&bo&Hconn&Hdh&Hdb).
  { by exists h, b1, b2. }
  { unfold header. simpl. rewrite HidA. exact HOB2. }
  unfold header in Hconn, Hdb. cbn [jh_NodeID] in Hconn, Hdb. rewrite HidA in Hconn, Hdb.
  fold B1 B2 in Hconn, Hdb.
  set (out := Delta B2 dg true) in *.
  assert (∃ effs', join t sA addr = Some ((ApplyDelta t sA (localID sB) out).1, effs', inr (localID sB))) as [effs' Hjoin].
  { unfold join, join_request. rewrite Hdial, (LocalNodeMetadata_Some _ _ HOA). cbn [negb].
    assert (LocalDelta sA = Some dl) as -> by (unfold LocalDelta; by rewrite HOA).
    cbn [mbind option_bind]. fold header dg. rewrite Hh, Hb1, Hb2. fold req. cbn [mbind option_bind].
    rewrite (Hpeer _ _ _ _ Hconn), Hdh, Hdb. simpl. rewrite HidB.
    destruct (ApplyDelta t sA (localID sB) out) as [sA' ef]. by eexists. }
  exists req, B2, effs, (ho ++ bo), (ApplyDelta t sA (localID sB) out).1, effs'.
  split_and!; [done|done| | |].
  - assert (in_sync B1 (localID sA) OA) as (st&Hst&?); [|exists st; split; [by apply ApplyDigest_known|done]].
    eapply (entry_in_sync _ _ _ _ _ OA 0); [done|done|done|done| |lia|by right; left| |left].
    + destruct (nodes sB !! localID sA) eqn:HR; simpl; [by apply HrepA|by apply replica_of_new].
    + apply NoDup_singleton.
  - apply full_delta_sender; [done|done|done|done|by apply not_eq_sym|by rewrite <-HlB|done].
  - intros X HX [st Hst] Htomb. apply full_delta_discovers; [done|done|done| |done].
    destruct (nodes B1 !! X) as [x|] eqn:HB1; [exists x; by apply ApplyDigest_known|].
    destruct (ApplyDelta_other t' (localID sA) sB dl X) as [E _]; [|fold B1 in E; congruence].
    simpl. rewrite HidA. set_solver.
Qed.

(** ** Witnesses *)

#[local] Existing Instance canonical_iter.
#[local] Existing Instances ex_codec_digestHeader ex_codec_deltaHeader ex_codec_digestEntry ex_codec_Entry
  ex_codec_joinHeader ex_codec_leaveHeader ex_codec_digest ex_codec_delta.
#[local] Existing Instances ex_laws_digestHeader ex_laws_deltaHeader ex_laws_digestEntry ex_laws_Entry
  ex_laws_joinHeader ex_laws_leaveHeader ex_laws_digest ex_laws_delta.

Lemma codec_by_total {A B} `{Countable B} (f : A → B) (g : B → A) : @CodecTotal A (codec_by f g).
Proof. split. intros a. by eexists. Qed.

#[local] Instance ex_total_joinHeader : CodecTotal joinHeader := codec_by_total _ _.
#[local] Instance ex_total_leaveHeader : CodecTotal leaveHeader := codec_by_total _ _.
#[local] Instance ex_total_delta : CodecTotal delta := codec_by_total _ _.
#[local] Instance ex_total_digest : CodecTotal digest := codec_by_total _ _.

(** A detector that records nothing. *)
#[local] Instance idle_detector : FailureDetector unit := {|
  Report d _ _ := Some d;
  SuspicionLevel d _ _ := Some (float64_of_int 0, d);
  Remove d _ := d;
|}.

Definition with_own (id addr key value : string) : clusterState :=
  match UpsertLocal (newClusterState id addr) key value with
  | Some (s, _) => s
  | None => newClusterState id addr
  end.

Definition ex_B : clusterState := with_own "b" "2" "x" "1".
(** A node that heard of the other but holds nothing of it. *)
Definition ex_A : clusterState := (ApplyDigest (with_own "a" "1" "y" "2") "b" [mkDigestEntry "b" "2" 1 false]).1.

Definition own (s : clusterState) : nodeState := default (newNode "" "") (nodes s !! localID s).

Lemma with_own_wf id addr key value : user_key key → state_wf (with_own id addr key value).
Proof.
  intros Hk. unfold with_own.
  destruct (UpsertLocal _ _ _) as [[s w]|] eqn:Hu; [|apply state_wf_new].
  assert (tracked (newClusterState id addr) s w) as Ht; [|apply Ht, state_wf_new].
  apply (run_local_tracked (OpUpsert key value)); [|done]. split; [done|].
  intros st Hst. simpl in Hst. apply lookup_singleton_Some in Hst as [_ <-].
  unfold room. simpl. by rewrite map_size_empty.
Qed.

Lemma ex_A_wf : state_wf ex_A.
Proof. apply ApplyDigest_wf, with_own_wf. by split. Qed.
Lemma ex_B_wf : state_wf ex_B.
Proof. apply with_own_wf. by split. Qed.

(** The network that connects the two. *)
#[local] Instance ex_env : Env := {|
  ResolveUDPAddr a := Some a;
  WriteTo _ _ := true;
  LookupIP _ := None;
  DialTCP _ := true;
  exchange _ req :=
    match handleConn 7 true ex_B req with
    | Some (_, _, inr b) => Some b
    | _ => Some []
    end;
|}.

Lemma ex_A_own : nodes ex_A !! localID ex_A = Some (own ex_A).
Proof. by vm_compute. Qed.
Lemma ex_B_own : nodes ex_B !! localID ex_B = Some (own ex_B).
Proof. by vm_compute. Qed.

(** What [ex_A] holds of [ex_B] is a replica of it. *)
Lemma ex_A_knows_B : ∃ R, nodes ex_A !! localID ex_B = Some R ∧ replica_of (own ex_B) R.
Proof.
  exists (newNode "b" "2"). split; [by vm_compute|]. apply replica_of_new.
  apply (local_owner_wf ex_B); [apply ex_B_wf|apply ex_B_own].
Qed.

Lemma ex_B_ignores_A : nodes ex_B !! localID ex_A = None.
Proof. by vm_compute. Qed.

Definition ex_config : Config := mkConfig "1" "1" Second 10000.

Lemma push_pull_round_witness :
  ∃ A2 B2, in_sync A2 "b" (own ex_B) ∧ in_sync B2 "a" (own ex_A).
Proof.
  destruct ex_A_knows_B as (R&HR&Hrep).
  destruct (push_pull_round ex_config 10000 10000 (λ d, d) (λ d, d) (λ d, d) 5 6 4 ex_A ex_B
    tt tt tt tt (own ex_A) (own ex_B) R (ns_meta (own ex_B)) "1" "2") as (e1&e2&e3&e4&e5&p1&p2&p3&p4&H).
  - done.
  - done.
  - apply ex_A_wf.
  - apply ex_B_wf.
  - by vm_compute.
  - apply ex_A_own.
  - apply ex_B_own.
  - exact HR.
  - exact Hrep.
  - intros R' HR'. by rewrite ex_B_ignores_A in HR'.
  - by vm_compute.
  - split; [by vm_compute|done].
  - split; [by vm_compute|done].
  - split; [by vm_compute|done].
  - done.
  - done.
  - done.
  - done.
  - eexists _, _. split_and!; by vm_compute.
  - split; [by intros de ->%list_elem_of_singleton|]. eexists _, _. split_and!; by vm_compute.
  - eexists _, _. split_and!; by vm_compute.
  - split; [by intros de ->%list_elem_of_singleton|]. eexists _, _. split_and!; by vm_compute.
  - destruct H as (_&_&_&_&_&_&_&_&_&_&HA&HB). eexists _, _. split; [exact HA|exact HB].
Defined.

Lemma join_synchronizes_witness :
  ∃ s' effs, join 5 ex_A "2" = Some (s', effs, inr "b") ∧ in_sync s' "b" (own ex_B).
Proof.
  destruct (join_synchronizes 5 7 ex_A ex_B (own ex_A) (own ex_B) "2")
    as (req&sB'&effs&b&sA'&effs'&_&Hjoin&_&Hsync&_).
  - done.
  - done.
  - apply ex_A_wf.
  - apply ex_B_wf.
  - by vm_compute.
  - apply ex_A_own.
  - apply ex_B_own.
  - intros R HR. destruct ex_A_knows_B as (R'&HR'&Hrep). assert (R = R') as -> by congruence. exact Hrep.
  - intros R HR. by rewrite ex_B_ignores_A in HR.
  - done.
  - intros req sB' effs b Hconn. simpl. by rewrite Hconn.
  - exists sA', effs'. split; [exact Hjoin|exact Hsync].
Defined.
