(* ===== verification/GossipNet.v ===== *)
(** * A network of gossip nodes

    Any number of nodes that gossip, join and leave through a network that
    loses, duplicates, delays and reorders messages, as a transition system
    over the operations of [clusterState].  In every reachable network each
    copy of a node state is a replica of the state its owner holds; and from
    every reachable network the nodes can get in sync.  Removing expired nodes
    is left out of the transitions: [late_delta_after_expiry] shows that a copy
    can lose entries for good when a delta arrives after its node expired. *)

From S2P Require Import Prelude GoLib GossipState GossipReplica GossipMembership Protocol GossipExchange.

(** ** Definitions *)

Inductive payload :=
  | PDigest (d : digest)
  | PDelta (d : delta).

Record message := mkMessage {
  m_from : string;
  m_to : string;
  m_payload : payload;
}.

(** The nodes that were started, and every message sent so far: a message may
    be delivered at any time, any number of times, or never. *)
Record network := mkNetwork {
  members : gmap string clusterState;
  soup : list message;
}.

Definition empty_network : network := mkNetwork ∅ [].

Definition set_member (a : string) (s : clusterState) (N : network) : network :=
  mkNetwork (<[a := s]> (members N)) (soup N).

Definition post (m : message) (N : network) : network := mkNetwork (members N) (m :: soup N).

(** The entries of a truncated delta are prefixes of those of the delta. *)
Lemma truncated_entry d' d de' :
  truncated d' d → de' ∈ d' →
  ∃ de rest, de ∈ d ∧ dl_ID de = dl_ID de' ∧ dl_Entries de = dl_Entries de' ++ rest.
Proof.
  induction 1 as [d|id addr es1 es2 d|de d' d Ht IH].
  - set_solver.
  - intros ->%list_elem_of_singleton. eexists _, es2. split_and!; [left|done|done].
  - intros [->|Hin]%elem_of_cons.
    + exists de, []. split_and!; [left|done|by rewrite app_nil_r].
    + destruct (IH Hin) as (de1&rest&?&?&?). exists de1, rest. split_and!; [by right|done|done].
Qed.

Section network.
Context `{MapIter, DetectorLaws D}.

Inductive net_step : network → network → Prop :=
  | net_start id addr N :
      members N !! id = None → net_step N (set_member id (newClusterState id addr) N)
  (** [UpsertLocal], [DeleteLocal], [LeaveLocal] and [CompactLocal] *)
  | net_local a op s s' effs N :
      members N !! a = Some s → state_op_ok s (SLocal op) → run_local op s = Some (s', effs) →
      net_step N (set_member a s' N)
  (** a digest in any order and cut anywhere, for a packet or a join *)
  | net_gossip a b s dg N :
      members N !! a = Some s → dg ⊆ Digest s → net_step N (post (mkMessage a b (PDigest dg)) N)
  (** the local delta of a join or of a leaving node *)
  | net_push a b s dl N :
      members N !! a = Some s → LocalDelta s = Some dl → net_step N (post (mkMessage a b (PDelta dl)) N)
  (** a digest is applied and answered, with a packet or on a stream *)
  | net_digest a b s dg full dl N :
      members N !! b = Some s → mkMessage a b (PDigest dg) ∈ soup N →
      let s1 := (ApplyDigest s a dg).1 in
      truncated dl (Delta s1 dg full) →
      net_step N (post (mkMessage b a (PDelta dl)) (set_member b s1 N))
  | net_delta a b s now dl N :
      members N !! b = Some s → mkMessage a b (PDelta dl) ∈ soup N → (0 ≤ now)%Z →
      net_step N (set_member b (ApplyDelta now s a dl).1 N)
  | net_liveness b s now (d : D) thr s' d' effs N :
      members N !! b = Some s → (0 ≤ now)%Z → UpdateLiveness now s d thr = Some (s', d', effs) →
      net_step N (set_member b s' N).

Definition reachable (N : network) : Prop := rtc net_step empty_network N.

(** The state a node holds about itself. *)
Definition owner (N : network) (x : string) : option nodeState :=
  s ← members N !! x; nodes s !! x.

Definition copy_version (s : clusterState) (x : string) : N :=
  match nodes s !! x with Some R => version R | None => 0%N end.

(** A digest never claims more than its sender holds. *)
Definition digest_ok (N : network) (a : string) (dg : digest) : Prop :=
  ∃ s, members N !! a = Some s ∧
    ∀ e, e ∈ dg → ∃ R, nodes s !! dg_ID e = Some R ∧ (dg_Version e ≤ version R)%N.

(** The entries of a delta follow a version its receiver has reached. *)
Definition delta_ok (N : network) (b : string) (dl : delta) : Prop :=
  ∀ de, de ∈ dl → ∃ O f, owner N (dl_ID de) = Some O ∧ (f ≤ version O)%N ∧
    good_delta O f (dl_Entries de) ∧
    (f = 0%N ∨ ∃ s, members N !! b = Some s ∧ (f ≤ copy_version s (dl_ID de))%N).

Definition message_ok (N : network) (m : message) : Prop :=
  match m_payload m with
  | PDigest dg => digest_ok N (m_from m) dg
  | PDelta dl => delta_ok N (m_to m) dl
  end.

Record net_inv (N : network) : Prop := {
  ni_member : ∀ a s, members N !! a = Some s → localID s = a ∧ state_wf s;
  ni_copy : ∀ a s x R, members N !! a = Some s → nodes s !! x = Some R →
    ∃ O, owner N x = Some O ∧ replica_of O R;
  ni_soup : ∀ m, m ∈ soup N → message_ok N m;
}.

(** What a step of node [a] may do to its state. *)
Record advances (N : network) (s s' : clusterState) : Prop := {
  adv_local : localID s' = localID s;
  adv_wf : state_wf s';
  adv_own : ∀ O, nodes s !! localID s = Some O →
    ∃ O', nodes s' !! localID s = Some O' ∧ owner_step O O';
  adv_known : ∀ x R, nodes s !! x = Some R → ∃ R', nodes s' !! x = Some R' ∧ (version R ≤ version R')%N;
  adv_copy : ∀ x R, x ≠ localID s → nodes s' !! x = Some R → ∃ O, owner N x = Some O ∧ replica_of O R;
}.

(** ** A step of one node keeps the invariant *)

Lemma owner_Some N x O :
  owner N x = Some O ↔ ∃ s, members N !! x = Some s ∧ nodes s !! x = Some O.
Proof.
  unfold owner. destruct (members N !! x) as [s|]; simpl; [naive_solver|]. split; [done|]. by intros (?&?&_).
Qed.

Lemma owner_own_wf N x O : net_inv N → owner N x = Some O → owner_wf O ∧ n_ID (ns_meta O) = x.
Proof.
  intros HN (s&Hs&HO)%owner_Some. destruct (ni_member _ HN _ _ Hs) as [Hl Hw]. rewrite <-Hl in *.
  by apply local_owner_wf.
Qed.

Lemma copy_version_known s x R : nodes s !! x = Some R → copy_version s x = version R.
Proof. unfold copy_version. by intros ->. Qed.

Lemma copy_version_advances N s s' x : advances N s s' → (copy_version s x ≤ copy_version s' x)%N.
Proof.
  intros Ha. destruct (nodes s !! x) as [R|] eqn:HR.
  - destruct (adv_known _ _ _ Ha _ _ HR) as (R'&HR'&?). by rewrite (copy_version_known _ _ _ HR), (copy_version_known _ _ _ HR').
  - unfold copy_version at 1. rewrite HR. lia.
Qed.

Section advance.
Context (N : network) (HN : net_inv N) (a : string) (s s' : clusterState).
Context (Ha : members N !! a = Some s) (Hadv : advances N s s').

Let N' := set_member a s' N.

Lemma local_a : localID s = a.
Proof using HN Ha. by apply (ni_member _ HN). Qed.

(** Owners only take owner steps. *)
Lemma owner_advance x O : owner N x = Some O → ∃ O', owner N' x = Some O' ∧ owner_step O O'.
Proof using HN Ha Hadv.
  intros (t&Ht&HO)%owner_Some. destruct (decide (x = a)) as [->|Hne].
  - assert (t = s) as -> by congruence. destruct (adv_own _ _ _ Hadv O) as (O'&HO'&Hstep); [by rewrite local_a|].
    exists O'. split; [|done]. apply owner_Some. exists s'. split; [apply lookup_insert_eq|]. by rewrite <-local_a.
  - exists O. split; [|apply owner_step_refl]. apply owner_Some. exists t. split; [|done].
    simpl. by rewrite lookup_insert_ne.
Qed.

Lemma message_advance m : message_ok N m → message_ok N' m.
Proof using HN Ha Hadv.
  unfold message_ok. destruct (m_payload m) as [dg|dl].
  - intros (t&Ht&Hd). destruct (decide (m_from m = a)) as [Heq|Hne].
    + assert (t = s) as -> by congruence. exists s'. split; [rewrite Heq; apply lookup_insert_eq|].
      intros e (R&HR&Hv)%Hd. destruct (adv_known _ _ _ Hadv _ _ HR) as (R'&HR'&Hv').
      exists R'. split; [done|lia].
    + exists t. split; [|done]. simpl. by rewrite lookup_insert_ne.
  - intros Hd de (O&f&HO&Hf&Hg&Hv)%Hd. destruct (owner_advance _ _ HO) as (O'&HO'&Hstep).
    pose proof (os_version _ _ Hstep). exists O', f.
    split_and!; [done|lia|by eapply good_delta_step|].
    destruct Hv as [->|(t&Ht&Hv)]; [by left|right].
    destruct (decide (m_to m = a)) as [Heq|Hne].
    + assert (t = s) as -> by congruence. exists s'. split; [rewrite Heq; apply lookup_insert_eq|].
      pose proof (copy_version_advances _ _ _ (dl_ID de) Hadv). lia.
    + exists t. split; [|done]. simpl. by rewrite lookup_insert_ne.
Qed.

Lemma inv_advance : net_inv N'.
Proof using HN Ha Hadv.
  split.
  - intros b t. simpl. rewrite lookup_insert. case_decide; [|by apply (ni_member _ HN)].
    intros [= <-]. split; [|apply (adv_wf _ _ _ Hadv)]. rewrite (adv_local _ _ _ Hadv), local_a. done.
  - intros b t x R. simpl. rewrite lookup_insert. case_decide as Hb.
    + intros [= <-] HR. destruct (decide (x = localID s)) as [->|Hne].
      * exists R. split.
        { apply owner_Some. exists s'. split; [|done]. simpl. by rewrite local_a, lookup_insert_eq. }
        apply replica_of_refl. apply (local_owner_wf s'); [apply (adv_wf _ _ _ Hadv)|].
        by rewrite (adv_local _ _ _ Hadv).
      * destruct (adv_copy _ _ _ Hadv x R Hne HR) as (O&HO&Hrep).
        destruct (owner_advance _ _ HO) as (O'&HO'&Hstep). exists O'. split; [done|].
        by eapply replica_of_step.
    + intros Ht HR. destruct (ni_copy _ HN _ _ _ _ Ht HR) as (O&HO&Hrep).
      destruct (owner_advance _ _ HO) as (O'&HO'&Hstep). exists O'. split; [done|].
      by eapply replica_of_step.
  - intros m Hm%(ni_soup _ HN). by apply message_advance.
Qed.
End advance.

Lemma inv_post N m : net_inv N → message_ok N m → net_inv (post m N).
Proof.
  intros HN Hm. split; [apply HN|apply HN|]. intros m' [->|?]%elem_of_cons; [done|by apply HN].
Qed.

(** ** Every step keeps the invariant *)

(** A step that leaves the node's own state alone. *)
Record receives (N : network) (s s' : clusterState) : Prop := {
  rcv_local : localID s' = localID s;
  rcv_wf : state_wf s';
  rcv_own : nodes s' !! localID s = nodes s !! localID s;
  rcv_known : ∀ x R, nodes s !! x = Some R → ∃ R', nodes s' !! x = Some R' ∧ (version R ≤ version R')%N;
  rcv_copy : ∀ x R, x ≠ localID s → nodes s' !! x = Some R → ∃ O, owner N x = Some O ∧ replica_of O R;
}.

Lemma receives_advances N s s' : receives N s s' → advances N s s'.
Proof.
  intros Hr. split; [apply Hr..| | |apply Hr].
  - intros O HO. exists O. split; [by rewrite (rcv_own _ _ _ Hr)|apply owner_step_refl].
  - apply Hr.
Qed.

Lemma receives_refl N a s : net_inv N → members N !! a = Some s → receives N s s.
Proof.
  intros HN Hs. split; try done; [by apply (ni_member _ HN _ _ Hs)|by eauto|].
  intros x R _ HR. by apply (ni_copy _ HN a s).
Qed.

Lemma start_inv N id addr :
  net_inv N → members N !! id = None → net_inv (set_member id (newClusterState id addr) N).
Proof.
  intros HN Hid.
  assert (∀ x O, owner N x = Some O → owner (set_member id (newClusterState id addr) N) x = Some O) as Hown.
  { intros x O (s&Hs&HO)%owner_Some. apply owner_Some. exists s. split; [|done]. simpl.
    rewrite lookup_insert_ne; [done|congruence]. }
  assert (∀ a s, members N !! a = Some s → members (set_member id (newClusterState id addr) N) !! a = Some s) as Hmem.
  { intros a s Hs. simpl. rewrite lookup_insert_ne; [done|congruence]. }
  split.
  - intros a s. simpl. rewrite lookup_insert. case_decide; [|by apply (ni_member _ HN)].
    intros [= <-]. split; [done|apply state_wf_new].
  - intros a s x R. simpl. rewrite lookup_insert. case_decide; subst.
    + intros [= <-] HR. simpl in HR. apply lookup_singleton_Some in HR as [<- <-]. exists (newNode a addr). split.
      * apply owner_Some. eexists. split; [apply lookup_insert_eq|apply lookup_singleton_eq].
      * apply replica_of_refl, owner_wf_new.
    + intros Hs HR. destruct (ni_copy _ HN _ _ _ _ Hs HR) as (O&HO&Hrep). eauto.
  - intros m Hm%(ni_soup _ HN). unfold message_ok in *. destruct (m_payload m).
    + destruct Hm as (s&Hs&Hd). exists s. eauto.
    + intros de (O&f&HO&Hf&Hg&Hv)%Hm. exists O, f. split_and!; eauto.
      destruct Hv as [?|(s&Hs&?)]; [by left|right; eauto].
Qed.

Lemma local_advances N a s op s' effs :
  net_inv N → members N !! a = Some s → state_op_ok s (SLocal op) → run_local op s = Some (s', effs) →
  advances N s s'.
Proof.
  intros HN Hs Hok Hrun. destruct (ni_member _ HN _ _ Hs) as [_ Hw].
  destruct (run_local_tracked op s s' effs Hok Hrun Hw) as (Hl&Hw'&_).
  rewrite run_local_with in Hrun. unfold with_local in Hrun.
  destruct (nodes s !! localID s) as [O|] eqn:HO; [|done]. simpl in Hrun.
  destruct (run_op op O) as [[O' w]|] eqn:Hop; [|done]. simpl in Hrun. injection Hrun as <- <-.
  destruct (local_owner_wf _ _ Hw HO) as [Hown _]. destruct Hok as [Hopok Hroom].
  destruct (run_op_step op O O' w Hown Hopok (Hroom _ HO) Hop) as [_ Hstep].
  split; [done|done| | |]; simpl.
  - intros O1 HO1. exists O'. rewrite lookup_insert_eq. split; [done|congruence].
  - intros x R HR. rewrite lookup_insert. case_decide; [|by eauto]. subst.
    exists O'. split; [done|]. assert (R = O) as -> by congruence. apply (os_version _ _ Hstep).
  - intros x R Hne. rewrite lookup_insert_ne by done. by apply (ni_copy _ HN a s).
Qed.

Lemma digest_receives N a b s dg :
  net_inv N → members N !! b = Some s → digest_ok N a dg → receives N s (ApplyDigest s a dg).1.
Proof.
  intros HN Hs (t&Ht&Hdg). unfold ApplyDigest.
  apply (fold_emit_ind (receives N s)); [by eapply receives_refl|].
  intros s1 e He Hr. destruct (Hdg _ He) as (Re&HRe&_).
  destruct (applyDigestEntry_tracked a s1 e (rcv_wf _ _ _ Hr)) as (Hl&Hw&_).
  assert (nodes (applyDigestEntry a s1 e).1 = nodes s1 ∨ nodes s1 !! dg_ID e = None ∧
    nodes (applyDigestEntry a s1 e).1 = <[dg_ID e := newNode (dg_ID e) (dg_Addr e)]> (nodes s1)) as Hcase.
  { unfold applyDigestEntry. destruct (nodes s1 !! dg_ID e); [by left|].
    destruct (dg_Left e); [by left|]. destruct (tombstoned _ _ _) as [[] tombs]; [by left|by right]. }
  destruct Hr as [Rl Rw Ro Rk Rc].
  destruct Hcase as [Hsame|[Hnone Hnew]].
  { split; [congruence|done|by rewrite Hsame|by rewrite Hsame|by rewrite Hsame]. }
  pose proof (lookup_ne_local _ _ Rw Hnone) as Hne. rewrite Rl in Hne.
  split; [congruence|done|..]; rewrite Hnew.
  - by rewrite lookup_insert_ne.
  - intros x R (R'&HR'&?)%Rk. exists R'. rewrite lookup_insert_ne by congruence. done.
  - intros x R Hx. rewrite lookup_insert. case_decide; [|by apply Rc]. intros [= <-]. subst.
    destruct (ni_copy _ HN _ _ _ _ Ht HRe) as (O&HO&_). exists O. split; [done|].
    apply replica_of_new. by eapply owner_own_wf.
Qed.

(** What one delta entry does to the nodes. *)
Lemma applyDeltaEntry_nodes now a s de :
  nodes (applyDeltaEntry now a s de).1 = nodes s ∨ dl_ID de ≠ localID s ∧
  nodes (applyDeltaEntry now a s de).1 =
    <[dl_ID de := (applyEntries now (dl_ID de) (default (newNode (dl_ID de) (dl_Addr de)) (nodes s !! dl_ID de))
                     (dl_Entries de)).1]> (nodes s).
Proof.
  unfold applyDeltaEntry. case_decide; [by left|]. destruct (nodes s !! dl_ID de) as [st|]; simpl.
  - right. by destruct (applyEntries _ _ st _).
  - destruct (tombstoned _ _ _) as [[] tombs]; [by left|right]. by destruct (applyEntries _ _ (newNode _ _) _).
Qed.

Lemma delta_receives N a b s now dl :
  net_inv N → members N !! b = Some s → (0 ≤ now)%Z → delta_ok N b dl → receives N s (ApplyDelta now s a dl).1.
Proof.
  intros HN Hs Hnow Hdl. unfold ApplyDelta.
  apply (fold_emit_ind (receives N s)); [by eapply receives_refl|].
  intros s1 de Hde Hr. destruct (Hdl _ Hde) as (O&f&HO&_&Hg&Hv).
  destruct (applyDeltaEntry_tracked now a s1 de Hnow (gd_ok _ _ _ Hg) (rcv_wf _ _ _ Hr)) as (Hl&Hw&_).
  destruct Hr as [Rl Rw Ro Rk Rc]. destruct (owner_own_wf _ _ _ HN HO) as [Hown _].
  destruct (applyDeltaEntry_nodes now a s1 de) as [Hsame|[Hne Hnew]].
  { split; [congruence|done|by rewrite Hsame|by rewrite Hsame|by rewrite Hsame]. }
  rewrite Rl in Hne. set (R := default _ _) in Hnew.
  assert (replica_of O R) as Hrep.
  { unfold R. destruct (nodes s1 !! dl_ID de) as [st|] eqn:Hst; simpl; [|by apply replica_of_new].
    destruct (Rc _ _ Hne Hst) as (O1&HO1&?). by assert (O1 = O) as -> by congruence. }
  assert (f ≤ version R)%N as Hf.
  { destruct Hv as [->|(t&Ht&Hv)]; [lia|]. assert (t = s) as -> by congruence.
    unfold copy_version in Hv. destruct (nodes s !! dl_ID de) as [R0|] eqn:HR0; [|lia].
    destruct (Rk _ _ HR0) as (R1&HR1&?). unfold R. rewrite HR1. simpl. lia. }
  destruct (applyEntries_replica now (dl_ID de) O Hown _ f R Hrep Hf Hg) as [Hrep' Hver].
  split; [congruence|done|..]; rewrite Hnew.
  - by rewrite lookup_insert_ne.
  - intros x R0 (R1&HR1&?)%Rk. rewrite lookup_insert. case_decide as Heq; [|by eauto]. subst x.
    eexists. split; [done|]. rewrite Hver. unfold R. rewrite HR1. simpl. lia.
  - intros x R0 Hx. rewrite lookup_insert. case_decide; [|by apply Rc]. intros [= <-]. subst x. eauto.
Qed.

(** The digest and the deltas a node sends. *)
Lemma Digest_ok N a s dg : net_inv N → members N !! a = Some s → dg ⊆ Digest s → digest_ok N a dg.
Proof.
  intros HN Hs Hsub. exists s. split; [done|].
  intros e He%Hsub%elem_of_Digest; [|by apply (ni_member _ HN _ _ Hs)].
  destruct He as (R&HR&->). exists R. split; [done|]. simpl. lia.
Qed.

Lemma deltaEntry_ok N b a s x R f :
  net_inv N → members N !! b = Some s → nodes s !! x = Some R →
  f = 0%N ∨ (∃ t, members N !! a = Some t ∧ (f ≤ copy_version t x)%N) →
  ∃ O, owner N x = Some O ∧ (f ≤ version O)%N ∧ good_delta O f (dl_Entries (deltaEntry_from R f)).
Proof.
  intros HN Hs HR Hf. destruct (ni_copy _ HN _ _ _ _ Hs HR) as (O&HO&Hrep). exists O.
  destruct (owner_own_wf _ _ _ HN HO) as [Hown _]. split_and!; [done| |by apply deltaEntry_from_good].
  destruct Hf as [->|(t&Ht&Hf)]; [lia|]. unfold copy_version in Hf.
  destruct (nodes t !! x) as [Rt|] eqn:HRt; [|lia].
  destruct (ni_copy _ HN _ _ _ _ Ht HRt) as (O1&HO1&Hrep1). assert (O1 = O) as -> by congruence.
  pose proof (rep_version _ _ Hrep1). lia.
Qed.

Lemma LocalDelta_ok N a b s dl :
  net_inv N → members N !! a = Some s → LocalDelta s = Some dl → delta_ok N b dl.
Proof.
  intros HN Hs. unfold LocalDelta. destruct (nodes s !! localID s) as [O|] eqn:HO; [|done].
  intros [= <-] de ->%list_elem_of_singleton. destruct (ni_member _ HN _ _ Hs) as [_ Hw].
  destruct (deltaEntry_ok N a b s (localID s) O 0) as (O1&HO1&Hf&Hg); [done|done|done|by left|].
  exists O1, 0%N. rewrite (deltaEntry_ID _ _ _ _ Hw HO). split_and!; [done|done|done|by left].
Qed.

Lemma Delta_answer_ok N a b s dg full dl :
  net_inv N → members N !! b = Some s → digest_ok N a dg → truncated dl (Delta s dg full) → delta_ok N a dl.
Proof.
  intros HN Hs (t&Ht&Hdg) Htr de Hde. destruct (ni_member _ HN _ _ Hs) as [_ Hw].
  destruct (truncated_entry _ _ _ Htr Hde) as (de0&rest&Hin&Hid&Hes).
  assert (∃ x R f, nodes s !! x = Some R ∧ de0 = deltaEntry_from R f ∧
    (f = 0%N ∨ ∃ t, members N !! a = Some t ∧ (f ≤ copy_version t x)%N)) as (x&R&f&HR&->&Hf).
  { assert (de0 ∈ Delta s dg false ∨ ∃ X st, (X ∉ dg_ID <$> dg) ∧ nodes s !! X = Some st ∧ de0 = deltaEntry_from st 0)
      as [He|(x&R&_&HR&->)].
    { destruct full; [by apply elem_of_Delta_full|by left]. }
    - apply elem_of_Delta in He as (e&R&He&HR&->&_); [|done]. destruct (Hdg _ He) as (Rt&HRt&Hv).
      eexists _, _, _. split_and!; [done|done|]. right. exists t. split; [done|].
      by rewrite (copy_version_known _ _ _ HRt).
    - exists x, R, 0%N. split_and!; [done|done|by left]. }
  destruct (deltaEntry_ok N b a s x R f HN Hs HR Hf) as (O&HO&Hfv&Hg).
  rewrite (deltaEntry_ID _ _ _ _ Hw HR) in Hid. subst x. rewrite Hes in Hg.
  exists O, f. split_and!; [done|done| |done].
  eapply good_delta_prefix, Hg. by eapply owner_own_wf.
Qed.

(** Liveness only touches flags that replication does not read. *)
Lemma relive_core now u R :
  ns_Entries (relive now u R) = ns_Entries R ∧ version (relive now u R) = version R ∧
  n_Left (ns_meta (relive now u R)) = n_Left (ns_meta R).
Proof. unfold relive. by case_decide. Qed.

Lemma replica_of_core O R R' :
  ns_Entries R' = ns_Entries R → version R' = version R → n_Left (ns_meta R') = n_Left (ns_meta R) →
  replica_of O R → replica_of O R'.
Proof.
  intros He Hv Hl Hr.
  split; rewrite ?He, ?Hv, ?Hl; try apply Hr. destruct (rep_node _ _ Hr). split; rewrite ?He, ?Hv; done.
Qed.

Lemma UpdateLiveness_node s now (d : D) thr s' d' effs x :
  state_wf s → UpdateLiveness now s d thr = Some (s', d', effs) →
  match nodes s !! x with
  | None => nodes s' !! x = None
  | Some R => ∃ R', nodes s' !! x = Some R' ∧ (x = localID s → R' = R) ∧ (R' = R ∨ ∃ u, R' = relive now u R)
  end.
Proof.
  intros Hw Hu.
  assert (Forall (λ p, nodes s !! p.1 = Some p.2 ∧ n_ID (ns_meta p.2) = p.1) (map_range (nodes s))) as Hl.
  { apply Forall_forall. intros [k st] Hk%elem_of_map_range. split; [done|by eapply swf_ids]. }
  pose proof (NoDup_map_range_fst (nodes s)) as Hnd.
  destruct (nodes s !! x) as [R|] eqn:HR.
  - destruct (updateLiveness_loop_exact now thr (map_range (nodes s)) s d s' d' effs x R) as [Hs Hn];
      [by apply elem_of_map_range|done|done|done|].
    unfold skipped in *. rewrite (swf_ids _ Hw _ _ HR) in *.
    destruct (decide (x = localID s ∨ n_Left (ns_meta R) = true)) as [Hsk|Hsk].
    + exists R. split_and!; [by apply Hs|done|by left].
    + destruct (Hn Hsk) as (lvl&_&Hx&_). eexists. split_and!; [done|tauto|right; by eexists].
  - destruct (updateLiveness_loop_other now thr (map_range (nodes s)) s d s' d' effs x) as (Hx&_); [|done..|congruence].
    rewrite elem_of_map_range_fst, HR. by intros [? ?].
Qed.

Lemma liveness_receives N b s now (d : D) thr s' d' effs :
  net_inv N → members N !! b = Some s → (0 ≤ now)%Z → UpdateLiveness now s d thr = Some (s', d', effs) →
  receives N s s'.
Proof.
  intros HN Hs Hnow Hu. destruct (ni_member _ HN _ _ Hs) as [_ Hw].
  destruct (UpdateLiveness_tracked now s d thr s' d' effs Hnow Hu Hw) as (Hl&Hw'&_).
  pose proof (λ x, UpdateLiveness_node s now d thr s' d' effs x Hw Hu) as Hnode.
  split; [done|done| | |].
  - specialize (Hnode (localID s)). destruct (nodes s !! localID s) as [R|]; [|done].
    destruct Hnode as (R'&->&HR'&_). by rewrite HR'.
  - intros x R HR. specialize (Hnode x). rewrite HR in Hnode. destruct Hnode as (R'&HR'&_&Hc).
    exists R'. split; [done|]. destruct Hc as [->|[u ->]]; [done|].
    destruct (relive_core now u R) as (_&->&_). done.
  - intros x R' _ HR'. specialize (Hnode x). destruct (nodes s !! x) as [R|] eqn:HR; [|congruence].
    destruct Hnode as (R1&HR1&_&Hc). assert (R1 = R') as -> by congruence.
    destruct (ni_copy _ HN _ _ _ _ Hs HR) as (O&HO&Hrep). exists O. split; [done|].
    destruct Hc as [->|[u ->]]; [done|]. destruct (relive_core now u R) as (?&?&?). by apply (replica_of_core O R).
Qed.

Lemma net_step_inv N N' : net_inv N → net_step N N' → net_inv N'.
Proof.
  intros HN Hstep. destruct Hstep as
    [id addr N Hid|a op s s' effs N Hs Hok Hrun|a b s dg N Hs Hsub|a b s dl N Hs Hdl
    |a b s dg full dl N Hs Hm s1 Htr|a b s now dl N Hs Hm Hnow|b s now d thr s' d' effs N Hs Hnow Hu].
  - by apply start_inv.
  - apply (inv_advance N HN a s s' Hs). by eapply local_advances.
  - apply inv_post; [done|]. by apply (Digest_ok N a s).
  - apply inv_post; [done|]. by apply (LocalDelta_ok N a b s).
  - pose proof (ni_soup _ HN _ Hm) as Hdg. unfold message_ok in Hdg. simpl in Hdg.
    pose proof (receives_advances _ _ _ (digest_receives N a b s dg HN Hs Hdg)) as Hadv. fold s1 in Hadv.
    pose proof (inv_advance N HN b s s1 Hs Hadv) as HN'.
    apply inv_post; [done|]. apply (Delta_answer_ok _ a b s1 dg full dl); [done|apply lookup_insert_eq| |done].
    exact (message_advance N HN b s s1 Hs Hadv (mkMessage a b (PDigest dg)) Hdg).
  - pose proof (ni_soup _ HN _ Hm) as Hdl. unfold message_ok in Hdl. simpl in Hdl.
    apply (inv_advance N HN b s); [done|]. by apply receives_advances, (delta_receives N a b).
  - apply (inv_advance N HN b s); [done|]. apply receives_advances. by eapply liveness_receives.
Qed.

Lemma empty_inv : net_inv empty_network.
Proof using.
  split; simpl; [intros ??; by rewrite lookup_empty|intros ????; by rewrite lookup_empty|intros m Hm].
  by apply not_elem_of_nil in Hm.
Qed.

Lemma steps_inv N N' : net_inv N → rtc net_step N N' → net_inv N'.
Proof. intros HN Hr. revert HN. induction Hr; eauto using net_step_inv. Qed.

Lemma net_reachable_inv N : reachable N → net_inv N.
Proof. apply steps_inv, empty_inv. Qed.

(** ** Getting in sync *)

Definition synced (N : network) (a b : string) : Prop :=
  ∀ s O, members N !! a = Some s → owner N b = Some O → in_sync s b O.

(** The network after [b] pushed its state to [a]. *)
Definition pushed (a b : string) (s : clusterState) (O : nodeState) (N : network) : network :=
  let dl := [deltaEntry_from O 0] in
  set_member a (ApplyDelta 0 s b dl).1 (post (mkMessage b a (PDelta dl)) N).

(** A push brings the copy of [b] at [a] up to date and keeps the rest. *)
Lemma push_syncs N a b s O :
  net_inv N → members N !! a = Some s → owner N b = Some O → a ≠ b →
  (∀ x, owner (pushed a b s O N) x = owner N x) ∧ synced (pushed a b s O N) a b ∧
  ∀ a' b', synced N a' b' → synced (pushed a b s O N) a' b'.
Proof.
  intros HN Hs HO Hne. destruct (ni_member _ HN _ _ Hs) as [Hls _].
  destruct (owner_own_wf _ _ _ HN HO) as [Hown HID]. unfold pushed.
  set (dl := [deltaEntry_from O 0]). set (s1 := (ApplyDelta 0 s b dl).1).
  assert (∀ x, x ≠ b → nodes s1 !! x = nodes s !! x) as Hother.
  { intros x Hx. apply (ApplyDelta_other 0 b s dl x). simpl. rewrite HID. set_solver. }
  assert (in_sync s1 b O) as Hsync.
  { eapply (entry_in_sync _ _ _ _ _ O 0); [done|done|rewrite Hls; congruence|done| |lia|by right; left
      |apply NoDup_singleton|left].
    destruct (nodes s !! b) as [R|] eqn:HR; simpl; [|by apply replica_of_new].
    destruct (ni_copy _ HN _ _ _ _ Hs HR) as (O1&HO1&?). by assert (O1 = O) as -> by congruence. }
  set (N' := set_member _ _ _).
  assert (∀ x, owner N' x = owner N x) as Howner.
  { intros x. unfold owner, N'. simpl. rewrite lookup_insert. case_decide; [|done]. subst x.
    rewrite Hs. simpl. by apply Hother. }
  split_and!; [done|..].
  - intros s2 O2 Hs2. rewrite Howner. intros HO2. simpl in Hs2. rewrite lookup_insert_eq in Hs2.
    injection Hs2 as <-. by assert (O2 = O) as -> by congruence.
  - intros a' b' Hsy s2 O2 Hs2. rewrite Howner. intros HO2. simpl in Hs2. rewrite lookup_insert in Hs2.
    case_decide; [|by apply Hsy]. injection Hs2 as <-. subst a'.
    destruct (decide (b' = b)) as [->|Hb]; [by assert (O2 = O) as -> by congruence|].
    destruct (Hsy s O2 Hs HO2) as (R&HR&?). exists R. by rewrite Hother.
Qed.

(** What a node pushes about itself. *)
Lemma owner_LocalDelta N b t O :
  net_inv N → members N !! b = Some t → owner N b = Some O → LocalDelta t = Some [deltaEntry_from O 0].
Proof.
  intros HN Ht (t'&Ht'&HO)%owner_Some. destruct (ni_member _ HN _ _ Ht) as [Hl _].
  assert (t' = t) as -> by congruence. unfold LocalDelta. by rewrite Hl, HO.
Qed.

Lemma synced_self N a : net_inv N → synced N a a.
Proof.
  intros HN s O Hs (t&Ht&HO)%owner_Some. assert (t = s) as -> by congruence. by exists O.
Qed.

Lemma member_owner N a s : net_inv N → members N !! a = Some s → is_Some (owner N a).
Proof.
  intros HN Hs. destruct (ni_member _ HN _ _ Hs) as [Hl Hw]. destruct (swf_local_ID _ Hw) as [O HO].
  exists O. apply owner_Some. rewrite Hl in HO. by exists s.
Qed.

(** The steps that bring the copy of [b] at [a] up to date. *)
Lemma sync_pair N a b :
  net_inv N → is_Some (members N !! a) → is_Some (members N !! b) →
  ∃ N', rtc net_step N N' ∧ dom (members N') = dom (members N) ∧
    (∀ x, owner N' x = owner N x) ∧ synced N' a b ∧ ∀ a' b', synced N a' b' → synced N' a' b'.
Proof.
  intros HN [s Hs] [t Ht]. destruct (member_owner _ _ _ HN Ht) as [O HO].
  destruct (decide (a = b)) as [->|Hne].
  { exists N. split_and!; [done|done|done|by apply synced_self|done]. }
  destruct (push_syncs N a b s O HN Hs HO Hne) as (Hown&Hsync&Hkeep). exists (pushed a b s O N). split_and!; [| |done..].
  - eapply rtc_l; [by apply (net_push b a t); [|eapply owner_LocalDelta]|].
    apply rtc_once. by apply (net_delta b a s 0); [|left|].
  - simpl. rewrite dom_insert_L. apply elem_of_dom_2 in Hs. set_solver.
Qed.

Lemma sync_pairs (l : list (string * string)) N :
  net_inv N → (∀ a b, (a, b) ∈ l → is_Some (members N !! a) ∧ is_Some (members N !! b)) →
  ∃ N', rtc net_step N N' ∧ dom (members N') = dom (members N) ∧
    (∀ x, owner N' x = owner N x) ∧ (∀ a b, (a, b) ∈ l → synced N' a b) ∧
    ∀ a' b', synced N a' b' → synced N' a' b'.
Proof.
  revert N. induction l as [|[a b] l IH]; intros N HN Hl.
  { exists N. split_and!; [done..|set_solver|done]. }
  destruct (Hl a b ltac:(left)) as [Ha Hb].
  destruct (sync_pair N a b HN Ha Hb) as (N1&Hr1&Hd1&Ho1&Hs1&Hk1).
  assert (net_inv N1) as HN1 by by eapply steps_inv.
  destruct (IH N1 HN1) as (N2&Hr2&Hd2&Ho2&Hs2&Hk2).
  { intros a' b' Hin. destruct (Hl a' b') as [??]; [by right|]. by rewrite <-!elem_of_dom, Hd1, !elem_of_dom. }
  exists N2. split_and!; [by etrans|congruence|congruence| |auto].
  intros a' b' [[= -> ->]|Hin]%elem_of_cons; auto.
Qed.

End network.

(** ** A delta that arrives after its node expired *)

Section late.
Context `{MapIter}.

(** The entries of a node are among those it had and those it was sent. *)
Lemma applyEntries_from now id st es k e :
  keys_ok (ns_Entries st) → (∀ x, x ∈ es → is_Some (ParseUint (e_Value x)) ∨ e_Key x ≠ compactKey) →
  ns_Entries (applyEntries now id st es).1 !! k = Some e → ns_Entries st !! k = Some e ∨ e ∈ es ∧ e_Key e = k.
Proof.
  revert st. induction es as [|x es IH]; intros st Hk Hp; [by left|].
  assert (∀ y, y ∈ es → is_Some (ParseUint (e_Value y)) ∨ e_Key y ≠ compactKey) as Hp' by (intros; apply Hp; by right).
  destruct (decide (e_Version x ≤ version st)%N) as [Hle|Hgt].
  { rewrite applyEntries_skip by done. intros He%IH; [|done..]. set_solver. }
  rewrite applyEntries_accept; [|done|lia|].
  2:{ intros _ Hck. by destruct (Hp x ltac:(left)). }
  intros He%IH; [|clear He; intros k' y Hy|done].
  - destruct He as [[[-> ->]|[_ ?]]%accepted_lookup_sub|[??]]; set_solver.
  - apply accepted_lookup_sub in Hy as [[-> ->]|[_ Hy]]; [done|by apply Hk].
Qed.

(** Entries in order leave the node at the version of the last. *)
Lemma applyEntries_version now id st es :
  keys_ok (ns_Entries st) → (∀ x, x ∈ es → is_Some (ParseUint (e_Value x)) ∨ e_Key x ≠ compactKey) →
  sorted_by e_Version es → (∀ x, x ∈ es → (version st < e_Version x)%N) →
  version (applyEntries now id st es).1 = last_by e_Version (version st) es.
Proof.
  revert st. induction es as [|x es IH]; intros st Hk Hp Hsort Hv; [done|].
  apply StronglySorted_inv in Hsort as [Hsort Hx]. rewrite Forall_forall in Hx.
  rewrite applyEntries_accept; [|done|by apply Hv; left|].
  2:{ intros _ Hck. by destruct (Hp x ltac:(left)). }
  rewrite IH, accepted_version; [by rewrite last_by_cons_default|..|done|].
  - intros k' y [[-> ->]|[_ Hy]]%accepted_lookup_sub; [done|by apply Hk].
  - intros; apply Hp; by right.
  - rewrite accepted_version. intros y Hy. by apply Hx.
Qed.

Lemma new_node_empty id addr k e : ns_Entries (newNode id addr) !! k ≠ Some e.
Proof. apply lookup_empty_Some. Qed.

Section rejoin.
Context (O : nodeState) (Hown : owner_wf O) (f : N).

Lemma elem_of_deltaEntry y :
  y ∈ dl_Entries (deltaEntry_from O f) ↔ ns_Entries O !! e_Key y = Some y ∧ (f < e_Version y)%N.
Proof using Hown.
  simpl. rewrite elem_of_sort_by, list_elem_of_filter, elem_of_map_range_snd. split.
  - intros [? [k Hy]]. rewrite (wf_key _ (own_node _ Hown) _ _ Hy). split; [done|lia].
  - intros [? ?]. split; [lia|eauto].
Qed.

Lemma deltaEntry_parses x :
  x ∈ dl_Entries (deltaEntry_from O f) → is_Some (ParseUint (e_Value x)) ∨ e_Key x ≠ compactKey.
Proof using Hown.
  intros Hx. destruct (decide (e_Key x = compactKey)) as [Hck|?]; [left|by right].
  pose proof (deltaEntry_from_good O Hown O f (replica_of_refl _ Hown)) as Hg.
  destruct (gd_compact _ _ _ Hg x Hx Hck) as (cv&?&_). by exists cv.
Qed.

(** A new node that is sent what is newer than [f] gets nothing else, at the
    version of its owner. *)
Lemma new_node_entries now id addr k e :
  ns_Entries (applyEntries now id (newNode id addr) (dl_Entries (deltaEntry_from O f))).1 !! k = Some e →
  ns_Entries O !! k = Some e ∧ (f < e_Version e)%N.
Proof using Hown.
  intros He. apply applyEntries_from in He as [He|[He Hk]].
  - by apply new_node_empty in He.
  - apply elem_of_deltaEntry in He. by rewrite Hk in He.
  - by intros ?? ?%new_node_empty.
  - apply deltaEntry_parses.
Qed.

Lemma new_node_version now id addr :
  (f < version O)%N →
  version (applyEntries now id (newNode id addr) (dl_Entries (deltaEntry_from O f))).1 = version O.
Proof using Hown.
  intros Hf. pose proof (deltaEntry_from_good O Hown O f (replica_of_refl _ Hown)) as Hg.
  rewrite applyEntries_version; [|by intros ?? ?%new_node_empty|apply deltaEntry_parses|apply Hg|].
  - destruct (own_top _ Hown) as (k&y&Hy&Hyv); [lia|].
    assert (y ∈ dl_Entries (deltaEntry_from O f)) as Hin.
    { apply elem_of_deltaEntry. rewrite (wf_key _ (own_node _ Hown) _ _ Hy). split; [done|lia]. }
    pose proof (last_by_bound e_Version 0 _ _ (gd_sorted _ _ _ Hg) Hin) as Hb.
    unfold last_by in *. change (version (newNode id addr)) with 0%N.
    destruct (last _) as [z|] eqn:Hz; [|lia]. apply last_Some_elem_of, (gd_range _ _ _ Hg) in Hz. lia.
  - intros y Hy%(gd_range _ _ _ Hg). change (version (newNode id addr)) with 0%N. lia.
Qed.
End rejoin.

(** An expired node is gone, and a delta of its own brings it back. *)
Lemma expired_rejoins now t s x st de :
  state_wf s → x ≠ localID s → nodes s !! x = Some st → expired_at t st → dl_ID de = x →
  nodes (ApplyDelta now (RemoveExpiredAt s t).1 x [de]).1 !! x =
    Some (applyEntries now x (newNode x (dl_Addr de)) (dl_Entries de)).1.
Proof.
  intros Hw Hne Hst Hexp <-.
  assert (nodes (RemoveExpiredAt s t).1 !! dl_ID de = None ∧ localID (RemoveExpiredAt s t).1 = localID s) as [Hgone Hl].
  { unfold RemoveExpiredAt. split; [|by apply (fold_emit_ind (λ s1, localID s1 = localID s))].
    rewrite fold_removeNode_nodes, decide_True; [done|]. apply elem_of_expired; eauto. }
  rewrite (ApplyDelta_entry now (dl_ID de) _ [de] de); rewrite ?Hl, ?Hgone; try done.
  - apply NoDup_singleton.
  - left.
  - by right; left.
Qed.

End late.

(** ** Properties *)

(** C8. The network replicates safely: in every network that nodes reach by
    starting, writing, deleting, compacting and leaving, by gossiping, joining
    and being found reachable or not, with messages that are lost, cut,
    duplicated, delayed and reordered, everything a node [a] holds of a node
    [x] is a replica of the state [x] holds about itself (never ahead of it,
    complete up to its version, and holding nothing that is not current or
    about to be replaced), and it is that state exactly when the versions are
    equal. *)
Theorem network_replicates `{MapIter, DetectorLaws D} N a x s R :
  reachable N → members N !! a = Some s → nodes s !! x = Some R →
  ∃ O, owner N x = Some O ∧ owner_wf O ∧ replica_of O R ∧
    (version R = version O → ns_Entries R = ns_Entries O ∧ n_Left (ns_meta R) = n_Left (ns_meta O)).
Proof.
  intros HN%net_reachable_inv Hs HR. destruct (ni_copy _ HN _ _ _ _ Hs HR) as (O&HO&Hrep).
  destruct (owner_own_wf _ _ _ HN HO) as [Hown _]. exists O.
  split_and!; eauto using replica_caught_up, replica_caught_up_left.
Qed.

(** A network can always get in sync: from every reachable network, whatever
    was lost or is still in flight, there are steps after which every node
    holds exactly what every node published, and no node's own state changed. *)
Theorem network_can_sync `{MapIter, DetectorLaws D} N :
  reachable N →
  ∃ N', rtc net_step N N' ∧ dom (members N') = dom (members N) ∧ (∀ x, owner N' x = owner N x) ∧
    ∀ a b s, members N' !! a = Some s → is_Some (members N' !! b) →
      ∃ O, owner N b = Some O ∧ in_sync s b O.
Proof.
  intros HN%net_reachable_inv. set (ids := elements (dom (members N))).
  destruct (sync_pairs (list_prod ids ids) N HN) as (N'&Hr&Hd&Ho&Hs&_).
  { intros a b [Ha Hb]%list_elem_of_In%in_prod_iff. unfold ids in *.
    by rewrite <-!list_elem_of_In, !elem_of_elements, !elem_of_dom in *. }
  exists N'. split_and!; [done..|]. intros a b s Hs' Hb.
  pose proof (steps_inv _ _ HN Hr) as HN'. destruct Hb as [t Ht].
  destruct (ni_member _ HN' _ _ Ht) as [Hlt Hwt]. destruct (swf_local_ID _ Hwt) as [O HO]. rewrite Hlt in HO.
  assert (owner N' b = Some O) as HOw by (apply owner_Some; eauto).
  exists O. rewrite <-Ho. split; [done|]. apply (Hs a b); [|done..].
  apply list_elem_of_In, in_prod; apply list_elem_of_In; unfold ids; rewrite elem_of_elements, <-Hd, elem_of_dom; eauto.
Qed.

(** A delta that arrives after its node expired loses entries: when a node
    asked [x] for what is newer than version [f], then removed [x] as expired,
    and the answer of [x] itself arrives, [x] is known again at its current
    version without the entries up to [f], and what [x] computes for that
    version has nothing to send: the entries stay missing until they are
    written again. *)
Theorem late_delta_after_expiry `{MapIter} now t s x st O f k e :
  state_wf s → x ≠ localID s → nodes s !! x = Some st → expired_at t st →
  owner_wf O → n_ID (ns_meta O) = x → (f < version O)%N →
  ns_Entries O !! k = Some e → (e_Version e ≤ f)%N →
  let s' := (ApplyDelta now (RemoveExpiredAt s t).1 x [deltaEntry_from O f]).1 in
  ∃ R, nodes s' !! x = Some R ∧ version R = version O ∧ ns_Entries R !! k = None ∧
    dl_Entries (deltaEntry_from O (version R)) = [].
Proof.
  intros Hw Hne Hst Hexp Hown HID Hf He Hef s'.
  pose proof (expired_rejoins now t s x st (deltaEntry_from O f) Hw Hne Hst Hexp HID) as HR.
  eexists. split; [exact HR|]. pose proof (new_node_version O Hown f now x (n_Addr (ns_meta O)) Hf) as Hv.
  split_and!; [done| |].
  - apply eq_None_not_Some. intros [y [Hy ?]%new_node_entries]; [|done].
    assert (y = e) as -> by congruence. lia.
  - simpl dl_Addr. rewrite Hv. apply elem_of_nil_inv. intros y [Hy ?]%elem_of_deltaEntry; [|done].
    apply (wf_version _ (own_node _ Hown)) in Hy. lia.
Qed.

(** ** Witnesses *)

#[local] Existing Instance canonical_iter.

#[local] Instance still_detector : FailureDetector unit := {|
  Report d _ _ := Some d;
  SuspicionLevel d _ _ := Some (float64_of_int 0, d);
  Remove d _ := d;
|}.

#[local] Instance still_laws : DetectorLaws unit.
Proof. constructor. by intros [] i j t lvl [] _ _. Qed.

(** [b] publishes a key and joins [a]. *)
Definition ex_b : clusterState :=
  from_option fst (newClusterState "b" "2") (run_local (OpUpsert "x" "1") (newClusterState "b" "2")).
Definition ex_O : nodeState := default (newNode "" "") (nodes ex_b !! "b").
Definition ex_dl : delta := [deltaEntry_from ex_O 0].
Definition ex_a : clusterState := (ApplyDelta 5 (newClusterState "a" "1") "b" ex_dl).1.
Definition ex_before : network :=
  post (mkMessage "b" "a" (PDelta ex_dl))
    (set_member "b" ex_b (set_member "b" (newClusterState "b" "2")
      (set_member "a" (newClusterState "a" "1") empty_network))).
Definition ex_network : network := set_member "a" ex_a ex_before.

Lemma ex_before_reachable : reachable ex_before.
Proof.
  unfold reachable. eapply rtc_l; [by apply (net_start "a" "1")|].
  eapply rtc_l; [by apply (net_start "b" "2")|].
  eapply rtc_l.
  { eapply (net_local "b" (OpUpsert "x" "1") _ ex_b); [by vm_compute| |by vm_compute].
    split; [by vm_compute|]. intros st [= <-]. by apply (bool_decide_unpack _); vm_compute. }
  apply rtc_once. eapply (net_push "b" "a" ex_b ex_dl); by vm_compute.
Qed.

Lemma ex_reachable : reachable ex_network.
Proof.
  eapply rtc_r; [apply ex_before_reachable|].
  by apply (net_delta "b" "a" (newClusterState "a" "1") 5); [|left|].
Qed.

Lemma network_replicates_witness :
  ∃ s R O, members ex_network !! "a" = Some s ∧ nodes s !! "b" = Some R ∧
    owner ex_network "b" = Some O ∧ replica_of O R.
Proof.
  destruct (nodes ex_a !! "b") as [R|] eqn:HR; [|by vm_compute in HR].
  destruct (network_replicates ex_network "a" "b" ex_a R ex_reachable) as (O&HO&_&Hrep&_); [done..|].
  by exists ex_a, R, O.
Defined.

Lemma network_can_sync_witness :
  ∃ N', rtc net_step ex_before N' ∧ ∀ x, owner N' x = owner ex_before x.
Proof.
  destruct (network_can_sync ex_before ex_before_reachable) as (N'&Hsteps&_&Hown&_). by exists N'.
Defined.

(** A node that wrote a second key since the other asked. *)
Definition ex_O2 : nodeState := ex_run [OpUpsert "x" "1"; OpUpsert "y" "2"] (newNode "b" "2").

Lemma ex_O2_wf : owner_wf ex_O2.
Proof. apply ex_run_step; [apply owner_wf_new|by repeat constructor|apply ex_room_prefix; by vm_compute]. Qed.

(** [ex_a] when it found [b] unreachable. *)
Definition ex_lost : clusterState :=
  match UpdateLiveness 10 ex_a tt (float64_of_int (-1)) with
  | Some (s, _, _) => s
  | None => ex_a
  end.

Lemma ex_a_wf : state_wf ex_a.
Proof. by apply (ni_member _ (net_reachable_inv _ ex_reachable) "a"). Qed.

Lemma ex_lost_wf : state_wf ex_lost.
Proof.
  unfold ex_lost. destruct (UpdateLiveness _ _ _ _) as [[[s []] w]|] eqn:Hu; [|by vm_compute in Hu].
  eapply UpdateLiveness_tracked; [| |apply ex_a_wf]; [|exact Hu]. done.
Qed.

Lemma late_delta_after_expiry_witness :
  ∃ s' R, nodes s' !! "b" = Some R ∧ version R = version ex_O2 ∧ ns_Entries R !! "x" = None ∧
    is_Some (ns_Entries ex_O2 !! "x").
Proof.
  destruct (nodes ex_lost !! "b") as [st|] eqn:Hst; [|by vm_compute in Hst].
  destruct (ns_Entries ex_O2 !! "x") as [e|] eqn:He; [|by vm_compute in He].
  destruct (late_delta_after_expiry 5 (nodeExpiry + 11) ex_lost "b" st ex_O2 1 "x" e) as (R&HR&Hv&Hx&_).
  - apply ex_lost_wf.
  - by vm_compute.
  - exact Hst.
  - vm_compute in Hst. injection Hst as <-. by split; vm_compute.
  - apply ex_O2_wf.
  - by vm_compute.
  - by vm_compute.
  - exact He.
  - vm_compute in He. injection He as <-. by vm_compute.
  - eexists _, R. split_and!; [exact HR|exact Hv|exact Hx|by eauto].
Defined.
