(* ===== verification/GossipRun.v ===== *)
(** * pkg/gossip/gossip.go and pkg/gossip/listener.go: the goroutines of gossip

    [New] starts two goroutines that serve the listeners and four that do
    something at every interval; [Close] stops them.  Here are the interleavings
    of their loops with any number of calls of [Close]; what the loops do is in
    GossipNode, GossipState and FailureDetector. *)

From stdpp Require Import functions.
From S2P Require Import Prelude GoLib NetLib GossipState FailureDetector Protocol GossipNode.

(** ** The interval and its jitter *)

(** [time.NewTicker] panics unless the interval is positive. *)
Definition NewTicker_panics (interval : Z) : bool := Z.leb interval 0.

(** The delay [scheduleFunc] adds to a tick, for a random [r]; an interval
    under a millisecond is a division by zero, hence a panic. *)
Definition jitter (interval r : Z) : option Z :=
  let ms := Z.quot interval Millisecond in
  if decide (ms = 0%Z) then None else Some (Z.quot (Z.rem r ms) 10 * Millisecond)%Z.

(** ** The goroutines *)

Inductive loop := LStream | LPacket | LRound | LLiveness | LCompact | LExpire.

#[global] Instance loop_eq_dec : EqDecision loop.
Proof. solve_decision. Defined.

Definition is_listener (k : loop) : bool := match k with LStream | LPacket => true | _ => false end.

(** The arguments of [scheduleFunc] in [schedule]. *)
Definition schedule_interval (interval : Z) (k : loop) : option Z :=
  match k with
  | LStream | LPacket => None
  | LRound | LLiveness => Some interval
  | LCompact | LExpire => Some (i64 (interval * 10))
  end.

(** A loop waits: for a connection, a packet or a tick; it waits for the jitter;
    it runs its function; or it has returned. *)
Inductive loop_at := LoopWaits | LoopJitters | LoopRuns | LoopReturned.

#[global] Instance loop_at_eq_dec : EqDecision loop_at.
Proof. solve_decision. Defined.

(** A call of [Close]: before the swap of [closed], and before each thing it
    closes. *)
Inductive closing := CloseSwaps | CloseChannel | CloseStream | ClosePacket | CloseReturned.

(** [type Gossip], as far as its goroutines share it: [gr_shutdownCh] counts the
    closes of the channel, and [gr_stream] and [gr_packet] those of the
    listeners. *)
Record gossip_run := mkGossipRun {
  gr_closed : bool;
  gr_shutdownCh : nat;
  gr_stream : nat;
  gr_packet : nat;
  gr_loops : loop → loop_at;
  gr_calls : list closing;
}.

Definition new_gossip_run : gossip_run := mkGossipRun false 0 0 0 (λ _, LoopWaits) [].

(** [New]: the state of the node and its failure detector, with every goroutine
    running; none is the panic of making a buffer of a negative size. *)
Definition New (nodeID : string) (c : Config) : option (clusterState * accrualFailureDetector * gossip_run) :=
  if Z.ltb (MaxPacketSize c) 0 then None
  else Some (newClusterState nodeID (AdvertiseAddr c), newAccrualFailureDetector (i64 (Interval c * 2)) 50, new_gossip_run).

Definition set_loop (k : loop) (p : loop_at) (s : gossip_run) : gossip_run :=
  mkGossipRun (gr_closed s) (gr_shutdownCh s) (gr_stream s) (gr_packet s) (<[k:=p]> (gr_loops s)) (gr_calls s).

Definition set_call (i : nat) (c : closing) (s : gossip_run) : gossip_run :=
  mkGossipRun (gr_closed s) (gr_shutdownCh s) (gr_stream s) (gr_packet s) (gr_loops s) (<[i:=c]> (gr_calls s)).

(** [Serve] of a listener: [Accept] or [ReadFrom] returns what came in or an
    error, [net.ErrClosed] only once the listener is closed. *)
Inductive accept_result := Incoming | AcceptError | ErrClosed.

Definition listener_Serve (k : loop) (a : accept_result) (s : gossip_run) : gossip_run :=
  match a with
  | ErrClosed => set_loop k LoopReturned s
  | AcceptError => s
  (* a connection is handled by a goroutine of its own, a packet in the loop *)
  | Incoming => match k with LPacket => set_loop k LoopRuns s | _ => s end
  end.

(** What is closed of what a loop waits for. *)
Definition told (k : loop) (s : gossip_run) : nat :=
  match k with LStream => gr_stream s | LPacket => gr_packet s | _ => gr_shutdownCh s end.

(** The next step of a call of [Close]. *)
Definition Close_step (i : nat) (c : closing) (s : gossip_run) : gossip_run :=
  match c with
  | CloseSwaps =>
      if gr_closed s then set_call i CloseReturned s
      else mkGossipRun true (gr_shutdownCh s) (gr_stream s) (gr_packet s) (gr_loops s) (<[i:=CloseChannel]> (gr_calls s))
  | CloseChannel =>
      mkGossipRun (gr_closed s) (S (gr_shutdownCh s)) (gr_stream s) (gr_packet s) (gr_loops s)
        (<[i:=CloseStream]> (gr_calls s))
  | CloseStream =>
      mkGossipRun (gr_closed s) (gr_shutdownCh s) (S (gr_stream s)) (gr_packet s) (gr_loops s)
        (<[i:=ClosePacket]> (gr_calls s))
  | ClosePacket =>
      mkGossipRun (gr_closed s) (gr_shutdownCh s) (gr_stream s) (S (gr_packet s)) (gr_loops s)
        (<[i:=CloseReturned]> (gr_calls s))
  | CloseReturned => s
  end.

Inductive gossip_run_step (s : gossip_run) : gossip_run → Prop :=
  (* the listeners *)
  | loop_serve k a :
      is_listener k = true → gr_loops s k = LoopWaits → (a = ErrClosed → told k s ≠ 0) →
      gossip_run_step s (listener_Serve k a s)
  (* [scheduleFunc]: either case of a select may be taken when both are ready *)
  | loop_tick k :
      is_listener k = false → gr_loops s k = LoopWaits → gossip_run_step s (set_loop k LoopJitters s)
  | loop_jittered k :
      is_listener k = false → gr_loops s k = LoopJitters → gossip_run_step s (set_loop k LoopRuns s)
  | loop_shutdown k :
      is_listener k = false → gr_loops s k = LoopWaits ∨ gr_loops s k = LoopJitters → told k s ≠ 0 →
      gossip_run_step s (set_loop k LoopReturned s)
  | loop_ran k :
      gr_loops s k = LoopRuns → gossip_run_step s (set_loop k LoopWaits s)
  (* [Close] is called, and goes on *)
  | close_call :
      gossip_run_step s (mkGossipRun (gr_closed s) (gr_shutdownCh s) (gr_stream s) (gr_packet s) (gr_loops s)
        (gr_calls s ++ [CloseSwaps]))
  | close_step i c :
      gr_calls s !! i = Some c → gossip_run_step s (Close_step i c s).

Inductive gossip_run_reachable : gossip_run → Prop :=
  | gossip_run_new : gossip_run_reachable new_gossip_run
  | gossip_run_more s s' : gossip_run_reachable s → gossip_run_step s s' → gossip_run_reachable s'.

(** ** Lemmas *)

(** The jitter is less than a tenth of the interval. *)
Lemma jitter_bounds interval r j :
  (0 ≤ r)%Z → (0 ≤ interval)%Z → jitter interval r = Some j → (0 ≤ j ∧ 10 * j < interval)%Z.
Proof.
  intros Hr Hi. unfold jitter. case_decide as Hm; [done|]. intros [= <-].
  set (ms := Z.quot interval Millisecond) in *. unfold Millisecond in *.
  assert (0 ≤ ms)%Z by (apply Z.quot_pos; lia).
  pose proof (Z.rem_bound_pos r ms). pose proof (Z.mul_quot_le interval 1000000).
  pose proof (Z.quot_pos (Z.rem r ms) 10). pose proof (Z.mul_quot_le (Z.rem r ms) 10). lia.
Qed.

(** An interval under a millisecond makes the schedule panic at its first tick. *)
Lemma jitter_panics interval r :
  (0 < interval < Millisecond)%Z → NewTicker_panics interval = false ∧ jitter interval r = None.
Proof. intros Hi. split; [apply Z.leb_gt; lia|]. unfold jitter. by rewrite Z.quot_small by lia. Qed.

(** A configuration that [Validate] accepts may do neither. *)
Lemma validated_may_panic :
  ∃ c1 c2 c3, Validate c1 = None ∧ New "n1" c1 = None ∧
    Validate c2 = None ∧ NewTicker_panics (Interval c2) = true ∧
    Validate c3 = None ∧ jitter (Interval c3) 0 = None.
Proof.
  exists (mkConfig ":8003" "" Millisecond (-1)), (mkConfig ":8003" "" (-1) 1400), (mkConfig ":8003" "" 1000 1400).
  done.
Qed.

(** What a call of [Close] that won the swap has still to close. *)
Definition to_close (k : loop) (c : closing) : nat :=
  match c, k with
  | CloseChannel, _ => 1
  | CloseStream, (LStream | LPacket) => 1
  | ClosePacket, LPacket => 1
  | _, _ => 0
  end.

Lemma sum_list_with_insert {A} (f : A → nat) i x y l :
  l !! i = Some x → sum_list_with f (<[i:=y]> l) + f x = sum_list_with f l + f y.
Proof.
  revert i. induction l as [|a l IH]; intros [|i] Hi; simpl in *; try done.
  - injection Hi as ->. lia.
  - specialize (IH i Hi). lia.
Qed.

(** The channel and the listeners are closed once, by the call that won the
    swap; and a loop returns only once what it waits for is closed. *)
Record gossip_run_inv (s : gossip_run) : Prop := {
  gi_told k : told k s + sum_list_with (to_close k) (gr_calls s) = if gr_closed s then 1 else 0;
  gi_returned k : gr_loops s k = LoopReturned → told k s ≠ 0;
  gi_listener k : is_listener k = true → gr_loops s k ≠ LoopJitters;
}.

Lemma set_loop_inv k p s :
  gossip_run_inv s → (p = LoopReturned → told k s ≠ 0) → (is_listener k = true → p ≠ LoopJitters) →
  gossip_run_inv (set_loop k p s).
Proof.
  intros [] Hp Hl. constructor.
  - intros k'. specialize (gi_told0 k'). by destruct k'.
  - intros k'. simpl. destruct (decide (k = k')) as [<-|Hne].
    + rewrite fn_lookup_insert. intros Hr. specialize (Hp Hr). by destruct k.
    + rewrite fn_lookup_insert_ne by done. intros Hr. specialize (gi_returned0 k' Hr). by destruct k'.
  - intros k'. simpl. destruct (decide (k = k')) as [<-|Hne]; [by rewrite fn_lookup_insert|].
    rewrite fn_lookup_insert_ne by done. auto.
Qed.

Lemma Close_step_inv i c s : gossip_run_inv s → gr_calls s !! i = Some c → gossip_run_inv (Close_step i c s).
Proof.
  intros [] Hi.
  assert (∀ k c', sum_list_with (to_close k) (<[i:=c']> (gr_calls s)) + to_close k c =
    sum_list_with (to_close k) (gr_calls s) + to_close k c') as Hs.
  { intros k c'. by apply sum_list_with_insert. }
  assert (∀ s', gr_loops s' = gr_loops s → (∀ k, told k s ≤ told k s') →
    (∀ k, told k s' + sum_list_with (to_close k) (gr_calls s') = if gr_closed s' then 1 else 0) → gossip_run_inv s') as Hok.
  { intros s' Hl Ht Hc. constructor; [done| |by rewrite Hl]. intros k. rewrite Hl. intros Hr.
    specialize (gi_returned0 k Hr). specialize (Ht k). lia. }
  destruct c; simpl; [destruct (gr_closed s) eqn:Hc|..]; apply Hok; try (done || by (intros []; simpl; lia)).
  all: intros k; specialize (gi_told0 k); specialize (Hs k); simpl; rewrite ?Hc, ?Hs.
  - specialize (Hs CloseReturned). destruct k; simpl in *; lia.
  - specialize (Hs CloseChannel). destruct k; simpl in *; lia.
  - specialize (Hs CloseStream). destruct k; simpl in *; lia.
  - specialize (Hs ClosePacket). destruct k; simpl in *; lia.
  - specialize (Hs CloseReturned). destruct k; simpl in *; lia.
Qed.

Lemma gossip_run_reachable_inv s : gossip_run_reachable s → gossip_run_inv s.
Proof.
  induction 1 as [|s s' _ IH Hstep]; [constructor; [by intros []|done..]|].
  destruct Hstep as [k a Hk Hw Ha|k Hk Hw|k Hk Hw|k Hk Hw Ht|k Hr| |i c Hi].
  - destruct a; simpl; [|done|].
    + destruct k; try done. by apply set_loop_inv.
    + apply set_loop_inv; auto.
  - apply set_loop_inv; [done..|]. by rewrite Hk.
  - by apply set_loop_inv.
  - by apply set_loop_inv.
  - by apply set_loop_inv.
  - destruct IH. constructor.
    + intros k. specialize (gi_told0 k). simpl. rewrite sum_list_with_app. simpl. destruct k; simpl in *; lia.
    + intros k Hr. specialize (gi_returned0 k Hr). by destruct k.
    + done.
  - by apply Close_step_inv.
Qed.

(** Nothing is closed twice, which would panic, and no loop returns before. *)
Lemma gossip_closed_once s k :
  gossip_run_reachable s → told k s ≤ 1 ∧ (gr_loops s k = LoopReturned → gr_closed s = true).
Proof.
  intros Hs%gossip_run_reachable_inv. pose proof (gi_told _ Hs k) as Ht. split.
  - destruct (gr_closed s); lia.
  - intros Hr%(gi_returned _ Hs). destruct (gr_closed s); [done|lia].
Qed.

(** A call that won the swap closes everything. *)
Lemma finish_close s :
  gossip_run_inv s → gr_closed s = true →
  ∃ s', rtc gossip_run_step s s' ∧ gossip_run_inv s' ∧ (∀ k, told k s' ≠ 0) ∧ gr_loops s' = gr_loops s.
Proof.
  intros Hinv Hc. remember (sum_list_with (λ c, to_close LStream c + to_close LPacket c + to_close LRound c) (gr_calls s)) as n eqn:Hn.
  revert s Hn Hinv Hc. induction n as [n IH] using lt_wf_ind. intros s Hn Hinv Hc.
  destruct (decide (sum_list_with (to_close LPacket) (gr_calls s) = 0)) as [H0|H0].
  - exists s. split_and!; [done|done| |done]. intros k. pose proof (gi_told _ Hinv k) as Hk. rewrite Hc in Hk.
    assert (sum_list_with (to_close k) (gr_calls s) ≤ sum_list_with (to_close LPacket) (gr_calls s)); [|lia].
    clear. induction (gr_calls s) as [|c l IH]; simpl; [done|]. destruct k, c; simpl; lia.
  - assert (∃ i c, gr_calls s !! i = Some c ∧ to_close LPacket c = 1) as (i&c&Hi&Hcl).
    { clear -H0. induction (gr_calls s) as [|c l IH]; simpl in *; [done|].
      destruct (to_close LPacket c) eqn:Hcl.
      - destruct IH as (i&c'&?&?); [done|]. by exists (S i), c'.
      - exists 0, c. split; [done|]. destruct c; simpl in *; lia. }
    pose proof (Close_step_inv i c s Hinv Hi) as Hinv'.
    destruct (IH (sum_list_with (λ c, to_close LStream c + to_close LPacket c + to_close LRound c)
                   (gr_calls (Close_step i c s)))) with (s := Close_step i c s) as (s'&Hr&Hi'&Ht&Hl); try done.
    + rewrite Hn. set (f := λ c, to_close LStream c + to_close LPacket c + to_close LRound c).
      assert (∀ c', f c' < f c → sum_list_with f (<[i:=c']> (gr_calls s)) < sum_list_with f (gr_calls s)) as Hf.
      { intros c' ?. pose proof (sum_list_with_insert f i c c' _ Hi). lia. }
      destruct c; try done; apply Hf; unfold f; simpl; lia.
    + by destruct c.
    + exists s'. split_and!; [|done|done|].
      * eapply rtc_l; [by apply close_step|done].
      * rewrite Hl. by destruct c.
Qed.

(** A loop ends once it is told. *)
Lemma loop_ends k s :
  (is_listener k = true → gr_loops s k ≠ LoopJitters) → told k s ≠ 0 →
  ∃ s', rtc gossip_run_step s s' ∧ (∀ k', told k' s' = told k' s) ∧
    ∀ k', gr_loops s' k' = (<[k:=LoopReturned]> (gr_loops s)) k'.
Proof.
  intros Hj Ht. assert (∀ s1, gr_loops s1 k = LoopWaits → told k s1 ≠ 0 → gossip_run_step s1 (set_loop k LoopReturned s1)) as Hw.
  { intros s1 Hl Ht1. destruct (is_listener k) eqn:Hk.
    - by apply (loop_serve s1 k ErrClosed).
    - apply loop_shutdown; auto. }
  destruct (gr_loops s k) eqn:Hl.
  - exists (set_loop k LoopReturned s). split_and!; [by apply rtc_once, Hw|by intros []|done].
  - exists (set_loop k LoopReturned s). split_and!; [|by intros []|done]. apply rtc_once, loop_shutdown; auto.
    destruct (is_listener k); [by destruct Hj|done].
  - exists (set_loop k LoopReturned (set_loop k LoopWaits s)). split_and!.
    + eapply rtc_l; [by apply loop_ran|]. apply rtc_once, Hw; [|by destruct k]. simpl. by rewrite fn_lookup_insert.
    + by intros [].
    + intros k'. simpl. destruct (decide (k = k')) as [<-|?]; [by rewrite !fn_lookup_insert|].
      by rewrite !fn_lookup_insert_ne.
  - exists s. split_and!; [done|done|]. intros k'. destruct (decide (k = k')) as [<-|?]; [by rewrite fn_lookup_insert|].
    by rewrite fn_lookup_insert_ne.
Qed.

Lemma loops_end (l : list loop) s :
  (∀ k, is_listener k = true → gr_loops s k ≠ LoopJitters) → (∀ k, told k s ≠ 0) →
  ∃ s', rtc gossip_run_step s s' ∧ ∀ k, k ∈ l ∨ gr_loops s k = LoopReturned → gr_loops s' k = LoopReturned.
Proof.
  revert s. induction l as [|k l IH]; intros s Hj Ht.
  { exists s. split; [done|]. by intros k [?%elem_of_nil|?]. }
  destruct (loop_ends k s (Hj k) (Ht k)) as (s1&Hr1&Ht1&Hl1).
  assert (∀ k', gr_loops s1 k' = if decide (k = k') then LoopReturned else gr_loops s k') as Hl.
  { intros k'. rewrite Hl1. case_decide as Hk; [subst; by rewrite fn_lookup_insert|by rewrite fn_lookup_insert_ne]. }
  destruct (IH s1) as (s2&Hr2&Hl2).
  - intros k' Hk'. rewrite Hl. case_decide; [done|auto].
  - intros k'. by rewrite Ht1.
  - exists s2. split; [by etransitivity|]. intros k' Hk'. apply Hl2. rewrite Hl. rewrite elem_of_cons in Hk'.
    case_decide; [by right|]. by destruct Hk' as [[-> |?]|?]; [|left|right].
Qed.

(** Once [Close] has been called the goroutines can all end, from wherever they
    are: nothing that is left of a call of [Close] or of a loop can block. *)
Lemma gossip_loops_end s :
  gossip_run_reachable s → gr_closed s = true →
  ∃ s', rtc gossip_run_step s s' ∧ ∀ k, gr_loops s' k = LoopReturned.
Proof.
  intros Hs%gossip_run_reachable_inv Hc. destruct (finish_close s Hs Hc) as (s1&Hr1&Hi1&Ht1&_).
  destruct (loops_end [LStream; LPacket; LRound; LLiveness; LCompact; LExpire] s1 (gi_listener _ Hi1) Ht1) as (s2&Hr2&Hl2).
  exists s2. split; [by etransitivity|]. intros k. apply Hl2. left. destruct k; repeat constructor.
Qed.
