(* ===== verification/Cluster.v ===== *)
(** * server/cluster: the cluster as the local node sees it

    [State] holds the nodes of the cluster with their status, addresses and
    active endpoints.  A [map[string]int] that may be nil is a [gmap]: the code
    reads a nil map as an empty one and makes it before writing.  Operations
    return the calls they make on the subscribers and on the nodes gauge;
    [None] is a panic. *)

From S2P Require Import Prelude GoLib.

(** ** Data *)

Definition NodeStatus := string.
Definition NodeStatusActive : NodeStatus := "active".
Definition NodeStatusUnreachable : NodeStatus := "unreachable".
Definition NodeStatusLeft : NodeStatus := "left".

(** [cluster.Node] *)
Record cnode := mkCNode {
  cn_ID : string;
  cn_Status : NodeStatus;
  cn_ProxyAddr : string;
  cn_AdminAddr : string;
  cn_Endpoints : gmap string Z;
}.

(** [cluster.NodeMetadata] *)
Record cnodeMetadata := mkCNodeMetadata {
  cm_ID : string;
  cm_Status : NodeStatus;
  cm_ProxyAddr : string;
  cm_AdminAddr : string;
  cm_Endpoints : Z;
  cm_Upstreams : Z;
}.

(** The subscribers are named; a call of one is an effect. *)
Record State := mkClusterState {
  cs_localID : string;
  cs_nodes : gmap string cnode;
  localEndpointSubscribers : list string;
  remoteEndpointSubscribers : list string;
}.

Inductive cluster_effect :=
  | NodesInc (status : NodeStatus)
  | NodesDec (status : NodeStatus)
  | CallLocal (f endpointID : string)
  | CallRemote (f nodeID endpointID : string).

#[global] Instance cnode_eq_dec : EqDecision cnode.
Proof. solve_decision. Defined.

(** ** Nodes *)

(** [Node.Copy]: every field is copied, the endpoints into a new map. *)
Definition Copy (n : cnode) : cnode :=
  mkCNode (cn_ID n) (cn_Status n) (cn_ProxyAddr n) (cn_AdminAddr n) (cn_Endpoints n).

Definition set_Status (status : NodeStatus) (n : cnode) : cnode :=
  mkCNode (cn_ID n) status (cn_ProxyAddr n) (cn_AdminAddr n) (cn_Endpoints n).

Definition set_Endpoints (es : gmap string Z) (n : cnode) : cnode :=
  mkCNode (cn_ID n) (cn_Status n) (cn_ProxyAddr n) (cn_AdminAddr n) es.

Definition set_ProxyAddr (a : string) (n : cnode) : cnode :=
  mkCNode (cn_ID n) (cn_Status n) a (cn_AdminAddr n) (cn_Endpoints n).

Definition set_AdminAddr (a : string) (n : cnode) : cnode :=
  mkCNode (cn_ID n) (cn_Status n) (cn_ProxyAddr n) a (cn_Endpoints n).

Definition alphaNumericChars : string := "abcdefghijklmnopqrstuvwxyz1234567890".

(** [GenerateNodeID], for the numbers [rand.Int] returns; [None] when it fails. *)
Fixpoint generate_bytes (numbers : list (option nat)) : option string :=
  match numbers with
  | [] => Some EmptyString
  | n :: numbers' =>
      n ← n;
      c ← String.get n alphaNumericChars;
      rest ← generate_bytes numbers';
      Some (String c rest)
  end.

Definition GenerateNodeID (rand : nat → option nat) : option string :=
  generate_bytes (rand <$> seq 0 7).

(** ** State *)

Definition addMetricsNode (status : NodeStatus) : list cluster_effect := [NodesInc status].
Definition removeMetricsNode (status : NodeStatus) : list cluster_effect := [NodesDec status].
Definition updateMetricsNode (oldStatus newStatus : NodeStatus) : list cluster_effect :=
  removeMetricsNode oldStatus ++ addMetricsNode newStatus.

Definition NewState (localNode : cnode) : State * list cluster_effect :=
  let localNode' := set_Status NodeStatusActive localNode in
  (mkClusterState (cn_ID localNode') {[ cn_ID localNode' := localNode' ]} [] [],
   addMetricsNode (cn_Status localNode')).

Definition set_cnode (id : string) (n : cnode) (s : State) : State :=
  mkClusterState (cs_localID s) (<[id := n]> (cs_nodes s))
    (localEndpointSubscribers s) (remoteEndpointSubscribers s).

Definition State_Node (s : State) (id : string) : option cnode := Copy <$> cs_nodes s !! id.

Definition State_LocalNode (s : State) : option cnode := Copy <$> cs_nodes s !! cs_localID s.

Definition call_local (s : State) (endpointID : string) : list cluster_effect :=
  (λ f, CallLocal f endpointID) <$> localEndpointSubscribers s.

Definition call_remote (s : State) (id endpointID : string) : list cluster_effect :=
  (λ f, CallRemote f id endpointID) <$> remoteEndpointSubscribers s.

Definition AddLocalEndpoint (s : State) (endpointID : string) : option (State * list cluster_effect) :=
  node ← cs_nodes s !! cs_localID s;
  let listeners := default 0%Z (cn_Endpoints node !! endpointID) in
  let node' := set_Endpoints (<[endpointID := i64 (listeners + 1)]> (cn_Endpoints node)) node in
  Some (set_cnode (cs_localID s) node' s, call_local s endpointID).

Definition RemoveLocalEndpoint (s : State) (endpointID : string) : option (State * list cluster_effect) :=
  node ← cs_nodes s !! cs_localID s;
  match cn_Endpoints node !! endpointID with
  | None => Some (s, [])
  | Some listeners =>
      if decide (listeners = 0%Z) then Some (s, [])
      else
        let es := if decide (1 < listeners)%Z
                  then <[endpointID := (listeners - 1)%Z]> (cn_Endpoints node)
                  else delete endpointID (cn_Endpoints node) in
        Some (set_cnode (cs_localID s) (set_Endpoints es node) s, call_local s endpointID)
  end.

Definition LocalEndpointListeners (s : State) (endpointID : string) : option Z :=
  node ← cs_nodes s !! cs_localID s;
  Some (default 0%Z (cn_Endpoints node !! endpointID)).

Definition OnLocalEndpointUpdate (s : State) (f : string) : State :=
  mkClusterState (cs_localID s) (cs_nodes s) (localEndpointSubscribers s ++ [f]) (remoteEndpointSubscribers s).

Definition OnRemoteEndpointUpdate (s : State) (f : string) : State :=
  mkClusterState (cs_localID s) (cs_nodes s) (localEndpointSubscribers s) (remoteEndpointSubscribers s ++ [f]).

(** A node that is already in the cluster is replaced. *)
Definition AddNode (s : State) (node : cnode) : State * list cluster_effect :=
  if decide (cn_ID node = cs_localID s) then (s, [])
  else (set_cnode (cn_ID node) node s, addMetricsNode (cn_Status node)).

Definition RemoveNode (s : State) (id : string) : State * list cluster_effect * bool :=
  if decide (id = cs_localID s) then (s, [], false)
  else
    match cs_nodes s !! id with
    | None => (s, [], false)
    | Some node =>
        (mkClusterState (cs_localID s) (delete id (cs_nodes s))
           (localEndpointSubscribers s) (remoteEndpointSubscribers s),
         removeMetricsNode (cn_Status node), true)
    end.

Definition UpdateRemoteStatus (s : State) (id : string) (status : NodeStatus) :
    State * list cluster_effect * bool :=
  if decide (id = cs_localID s) then (s, [], false)
  else
    match cs_nodes s !! id with
    | None => (s, [], false)
    | Some n => (set_cnode id (set_Status status n) s, updateMetricsNode (cn_Status n) status, true)
    end.

Definition updateRemoteEndpointLocked (s : State) (id endpointID : string) (listeners : Z) : State * bool :=
  if decide (id = cs_localID s) then (s, false)
  else
    match cs_nodes s !! id with
    | None => (s, false)
    | Some n => (set_cnode id (set_Endpoints (<[endpointID := listeners]> (cn_Endpoints n)) n) s, true)
    end.

Definition UpdateRemoteEndpoint (s : State) (id endpointID : string) (listeners : Z) :
    State * list cluster_effect * bool :=
  let '(s', ok) := updateRemoteEndpointLocked s id endpointID listeners in
  if ok then (s', call_remote s' id endpointID, true) else (s', [], false).

Definition removeRemoteEndpointLocked (s : State) (id endpointID : string) : State * bool :=
  if decide (id = cs_localID s) then (s, false)
  else
    match cs_nodes s !! id with
    | None => (s, false)
    | Some n => (set_cnode id (set_Endpoints (delete endpointID (cn_Endpoints n)) n) s, true)
    end.

Definition RemoveRemoteEndpoint (s : State) (id endpointID : string) : State * list cluster_effect * bool :=
  let '(s', ok) := removeRemoteEndpointLocked s id endpointID in
  if ok then (s', call_remote s' id endpointID, true) else (s', [], false).

(** *** Reads that iterate over the maps *)

Section reads.
Context `{MapIter}.

Definition sum_conns (es : gmap string Z) (total : Z) : Z :=
  foldl (λ total p, i64 (total + p.2)) total (map_range es).

(** [Node.Metadata] *)
Definition Metadata (n : cnode) : cnodeMetadata :=
  mkCNodeMetadata (cn_ID n) (cn_Status n) (cn_ProxyAddr n) (cn_AdminAddr n)
    (Z.of_nat (size (cn_Endpoints n))) (sum_conns (cn_Endpoints n) 0).

Definition State_Nodes (s : State) : list cnode := Copy <$> (map_range (cs_nodes s)).*2.

Definition NodesMetadata (s : State) : list cnodeMetadata := Metadata <$> (map_range (cs_nodes s)).*2.

(** The condition of the loop of [LookupEndpoint]. *)
Definition serves (s : State) (endpointID : string) (node : cnode) : Prop :=
  cn_ID node ≠ cs_localID s ∧ cn_Status node = NodeStatusActive ∧
  match cn_Endpoints node !! endpointID with Some listeners => (0 < listeners)%Z | None => False end.

#[global] Instance serves_dec s endpointID node : Decision (serves s endpointID node).
Proof. unfold serves. destruct (cn_Endpoints node !! endpointID); apply _. Defined.

Fixpoint lookup_loop (s : State) (endpointID : string) (l : list cnode) : option cnode :=
  match l with
  | [] => None
  | node :: l' => if decide (serves s endpointID node) then Some (Copy node) else lookup_loop s endpointID l'
  end.

Definition LookupEndpoint (s : State) (endpointID : string) : option cnode :=
  lookup_loop s endpointID (map_range (cs_nodes s)).*2.

(** The loop of [AvgConns]: the connections and the number of active nodes. *)
Fixpoint avg_loop (l : list cnode) (totalConns nodes : Z) : Z * Z :=
  match l with
  | [] => (totalConns, nodes)
  | node :: l' =>
      if decide (cn_Status node ≠ NodeStatusActive) then avg_loop l' totalConns nodes
      else avg_loop l' (sum_conns (cn_Endpoints node) totalConns) (nodes + 1)
  end.

(** Dividing by zero nodes panics. *)
Definition AvgConns (s : State) : option Z :=
  let '(totalConns, nodes) := avg_loop (map_range (cs_nodes s)).*2 0 0 in
  if decide (nodes = 0%Z) then None else Some (Z.quot totalConns nodes).

End reads.

(** ** The invariant *)

(** Nodes are stored under their identifier and the local node is there and
    active. *)
Record cluster_wf (s : State) : Prop := {
  cwf_ids : ∀ id n, cs_nodes s !! id = Some n → cn_ID n = id;
  cwf_local : ∃ n, cs_nodes s !! cs_localID s = Some n ∧ cn_Status n = NodeStatusActive;
}.

(** The operations that change the state. *)
Inductive cluster_op :=
  | CAddLocalEndpoint (endpointID : string)
  | CRemoveLocalEndpoint (endpointID : string)
  | COnLocalEndpointUpdate (f : string)
  | COnRemoteEndpointUpdate (f : string)
  | CAddNode (n : cnode)
  | CRemoveNode (id : string)
  | CUpdateRemoteStatus (id : string) (status : NodeStatus)
  | CUpdateRemoteEndpoint (id endpointID : string) (listeners : Z)
  | CRemoveRemoteEndpoint (id endpointID : string).

Definition run_cluster (op : cluster_op) (s : State) : option (State * list cluster_effect) :=
  match op with
  | CAddLocalEndpoint e => AddLocalEndpoint s e
  | CRemoveLocalEndpoint e => RemoveLocalEndpoint s e
  | COnLocalEndpointUpdate f => Some (OnLocalEndpointUpdate s f, [])
  | COnRemoteEndpointUpdate f => Some (OnRemoteEndpointUpdate s f, [])
  | CAddNode n => Some (AddNode s n)
  | CRemoveNode id => Some (RemoveNode s id).1
  | CUpdateRemoteStatus id st => Some (UpdateRemoteStatus s id st).1
  | CUpdateRemoteEndpoint id e l => Some (UpdateRemoteEndpoint s id e l).1
  | CRemoveRemoteEndpoint id e => Some (RemoveRemoteEndpoint s id e).1
  end.

(** The gauge of the nodes by status. *)
Definition gauge_effect (g : NodeStatus → Z) (e : cluster_effect) : NodeStatus → Z :=
  match e with
  | NodesInc st => λ x, if decide (x = st) then (g x + 1)%Z else g x
  | NodesDec st => λ x, if decide (x = st) then (g x - 1)%Z else g x
  | _ => g
  end.

Definition gauge (g : NodeStatus → Z) (effs : list cluster_effect) : NodeStatus → Z :=
  foldl gauge_effect g effs.

(** The number of nodes with a status. *)
Definition nodes_with (s : State) (st : NodeStatus) : Z :=
  Z.of_nat (size (filter (λ p, cn_Status p.2 = st) (cs_nodes s))).

(** The nodes with a status that an operation replaces: [AddNode] counts the
    node it adds without discounting the one it replaces. *)
Definition replaced (s : State) (op : cluster_op) (st : NodeStatus) : Z :=
  match op with
  | CAddNode n =>
      if decide (cn_ID n = cs_localID s) then 0%Z
      else match cs_nodes s !! cn_ID n with
           | Some old => if decide (st = cn_Status old) then 1%Z else 0%Z
           | None => 0%Z
           end
  | _ => 0%Z
  end.

(** ** Lemmas *)

Lemma size_filter_insert {V} (P : string * V → Prop) `{∀ x, Decision (P x)} (m : gmap string V) i x :
  size (filter P (<[i := x]> m)) = size (filter P (delete i m)) + (if decide (P (i, x)) then 1 else 0).
Proof.
  rewrite <-insert_delete_eq. case_decide as Hp.
  - rewrite map_filter_insert_True by done. rewrite map_size_insert_None; [lia|].
    apply map_lookup_filter_None. left. apply lookup_delete_eq.
  - rewrite map_filter_insert_False by done. rewrite delete_delete_eq. lia.
Qed.

Lemma size_filter_lookup {V} (P : string * V → Prop) `{∀ x, Decision (P x)} (m : gmap string V) i x :
  m !! i = Some x →
  size (filter P m) = size (filter P (delete i m)) + (if decide (P (i, x)) then 1 else 0).
Proof. intros Hi. rewrite <-(insert_id m i x Hi) at 1. apply size_filter_insert. Qed.

Lemma nodes_with_set s id n st :
  nodes_with (set_cnode id n s) st =
    (Z.of_nat (size (filter (λ p, cn_Status p.2 = st) (delete id (cs_nodes s))))
     + if decide (st = cn_Status n) then 1 else 0)%Z.
Proof.
  unfold nodes_with. simpl. rewrite size_filter_insert. simpl.
  repeat case_decide; simplify_eq; lia.
Qed.

Lemma nodes_with_lookup s id n st :
  cs_nodes s !! id = Some n →
  nodes_with s st =
    (Z.of_nat (size (filter (λ p, cn_Status p.2 = st) (delete id (cs_nodes s))))
     + if decide (st = cn_Status n) then 1 else 0)%Z.
Proof.
  intros Hn. unfold nodes_with. rewrite (size_filter_lookup _ _ id n) by done. simpl.
  repeat case_decide; simplify_eq; lia.
Qed.

(** Replacing a node by one with the same identity. *)
Lemma set_cnode_wf s id n n' :
  cluster_wf s → cs_nodes s !! id = Some n → cn_ID n' = cn_ID n →
  (id = cs_localID s → cn_Status n' = cn_Status n) → cluster_wf (set_cnode id n' s).
Proof.
  intros Hs Hn Hid Hst. split; simpl.
  - intros k x. rewrite lookup_insert. case_decide; [|by apply (cwf_ids _ Hs)].
    intros [= <-]. subst. rewrite Hid. by apply (cwf_ids _ Hs).
  - destruct (cwf_local _ Hs) as (l&Hl&Hactive). rewrite lookup_insert. case_decide; [|by eauto].
    exists n'. split; [done|]. subst. rewrite Hst by done. by simplify_eq.
Qed.

Lemma set_cnode_gauge_same s id n n' st :
  cs_nodes s !! id = Some n → cn_Status n' = cn_Status n → nodes_with (set_cnode id n' s) st = nodes_with s st.
Proof. intros Hn Hst. by rewrite nodes_with_set, (nodes_with_lookup _ _ _ _ Hn), Hst. Qed.

(** What an operation guarantees. *)
Definition cluster_good (s s' : State) (effs : list cluster_effect) : Prop :=
  cluster_wf s' ∧ cs_localID s' = cs_localID s ∧ ∀ st, gauge (nodes_with s) effs st = nodes_with s' st.

Lemma gauge_call_local g s e : gauge g (call_local s e) = g.
Proof. unfold call_local, gauge. by induction (localEndpointSubscribers s). Qed.

Lemma gauge_call_remote g s id e : gauge g (call_remote s id e) = g.
Proof. unfold call_remote, gauge. by induction (remoteEndpointSubscribers s). Qed.

(** Changing the endpoints of a node. *)
Lemma set_endpoints_good s id n es effs :
  cluster_wf s → cs_nodes s !! id = Some n → (∀ g, gauge g effs = g) →
  cluster_good s (set_cnode id (set_Endpoints es n) s) effs.
Proof.
  intros Hs Hn Hg. split_and!; [by eapply set_cnode_wf|done|].
  intros st. rewrite Hg. symmetry. by eapply set_cnode_gauge_same.
Qed.

Lemma AddLocalEndpoint_good s e :
  cluster_wf s → ∃ s' effs, AddLocalEndpoint s e = Some (s', effs) ∧ cluster_good s s' effs.
Proof.
  intros Hs. destruct (cwf_local _ Hs) as (n&Hn&_). unfold AddLocalEndpoint. rewrite Hn. simpl.
  eexists _, _. split; [done|]. apply set_endpoints_good; [done|done|]. intros. apply gauge_call_local.
Qed.

Lemma cluster_good_refl s : cluster_wf s → cluster_good s s [].
Proof. by intros. Qed.

Lemma RemoveLocalEndpoint_good s e :
  cluster_wf s → ∃ s' effs, RemoveLocalEndpoint s e = Some (s', effs) ∧ cluster_good s s' effs.
Proof.
  intros Hs. destruct (cwf_local _ Hs) as (n&Hn&_). unfold RemoveLocalEndpoint. rewrite Hn. simpl.
  destruct (cn_Endpoints n !! e) as [l|]; [|by eauto using cluster_good_refl].
  case_decide; [by eauto using cluster_good_refl|].
  eexists _, _. split; [done|]. apply set_endpoints_good; [done|done|]. intros. apply gauge_call_local.
Qed.

Lemma AddNode_wf s n : cluster_wf s → cluster_wf (AddNode s n).1.
Proof.
  intros Hs. unfold AddNode. case_decide as Hl; [done|]. split; simpl.
  - intros k x. rewrite lookup_insert. case_decide; [by intros [= <-]|by apply (cwf_ids _ Hs)].
  - rewrite lookup_insert_ne by done. apply (cwf_local _ Hs).
Qed.

Lemma AddNode_gauge s n st :
  gauge (nodes_with s) (AddNode s n).2 st = (nodes_with (AddNode s n).1 st + replaced s (CAddNode n) st)%Z.
Proof.
  simpl. unfold AddNode. case_decide as Hl; [simpl; lia|]. simpl. rewrite nodes_with_set.
  destruct (cs_nodes s !! cn_ID n) as [old|] eqn:Hn.
  - rewrite (nodes_with_lookup _ _ _ st Hn). repeat case_decide; lia.
  - unfold nodes_with. rewrite delete_id by done. case_decide; lia.
Qed.

Lemma RemoveNode_good s id : cluster_wf s → cluster_good s (RemoveNode s id).1.1 (RemoveNode s id).1.2.
Proof.
  intros Hs. unfold RemoveNode. case_decide as Hl; [done|].
  destruct (cs_nodes s !! id) as [n|] eqn:Hn; [|done]. simpl. split_and!; [|done|].
  - split; simpl.
    + intros k x [_ Hk]%lookup_delete_Some. by apply (cwf_ids _ Hs).
    + rewrite lookup_delete_ne by done. apply (cwf_local _ Hs).
  - intros st. simpl. rewrite (nodes_with_lookup _ _ _ st Hn). unfold nodes_with. simpl. case_decide; lia.
Qed.

Lemma UpdateRemoteStatus_good s id status :
  cluster_wf s → cluster_good s (UpdateRemoteStatus s id status).1.1 (UpdateRemoteStatus s id status).1.2.
Proof.
  intros Hs. unfold UpdateRemoteStatus. case_decide as Hl; [done|].
  destruct (cs_nodes s !! id) as [n|] eqn:Hn; [|done]. simpl. split_and!; [by eapply set_cnode_wf|done|].
  intros st. simpl. rewrite nodes_with_set, (nodes_with_lookup _ _ _ st Hn). simpl.
  repeat case_decide; lia.
Qed.

Lemma UpdateRemoteEndpoint_good s id e l :
  cluster_wf s → cluster_good s (UpdateRemoteEndpoint s id e l).1.1 (UpdateRemoteEndpoint s id e l).1.2.
Proof.
  intros Hs. unfold UpdateRemoteEndpoint, updateRemoteEndpointLocked. case_decide; [done|].
  destruct (cs_nodes s !! id) as [n|] eqn:Hn; [|done]. simpl.
  apply set_endpoints_good; [done|done|]. intros. apply gauge_call_remote.
Qed.

Lemma RemoveRemoteEndpoint_good s id e :
  cluster_wf s → cluster_good s (RemoveRemoteEndpoint s id e).1.1 (RemoveRemoteEndpoint s id e).1.2.
Proof.
  intros Hs. unfold RemoveRemoteEndpoint, removeRemoteEndpointLocked. case_decide; [done|].
  destruct (cs_nodes s !! id) as [n|] eqn:Hn; [|done]. simpl.
  apply set_endpoints_good; [done|done|]. intros. apply gauge_call_remote.
Qed.

Lemma elem_of_values `{MapIter} {V} (m : gmap string V) x : x ∈ (map_range m).*2 ↔ ∃ k, m !! k = Some x.
Proof. apply elem_of_map_range_snd. Qed.

Lemma lookup_loop_Some s e l n :
  lookup_loop s e l = Some n → n ∈ l ∧ serves s e n.
Proof.
  induction l as [|x l IH]; simpl; [done|]. case_decide as Hs.
  - intros [= <-]. destruct x. split; [left|done].
  - intros Hn. destruct (IH Hn). split; [by right|done].
Qed.

Lemma lookup_loop_None s e l : lookup_loop s e l = None ↔ ∀ n, n ∈ l → ¬ serves s e n.
Proof.
  induction l as [|x l IH]; simpl; [set_solver|]. case_decide as Hs.
  - split; [done|]. intros Hn. exfalso. apply (Hn x); [left|done].
  - rewrite IH. set_solver.
Qed.

(** *** Counting local listeners *)

Inductive endpoint_op := EAdd (e : string) | ERemove (e : string).

Definition run_endpoint (op : endpoint_op) (s : State) : option (State * list cluster_effect) :=
  match op with EAdd e => AddLocalEndpoint s e | ERemove e => RemoveLocalEndpoint s e end.

(** The reference: a count per endpoint that does not go below zero. *)
Definition count_op (c : string → nat) (op : endpoint_op) : string → nat :=
  match op with
  | EAdd e => λ x, if decide (x = e) then S (c x) else c x
  | ERemove e => λ x, if decide (x = e) then pred (c x) else c x
  end.

(** The calls the subscribers get: one for every change. *)
Definition changed (c : string → nat) (op : endpoint_op) : list string :=
  match op with EAdd e => [e] | ERemove e => if decide (c e = 0) then [] else [e] end.

Definition counts (s : State) (c : string → nat) : Prop :=
  ∃ n, cs_nodes s !! cs_localID s = Some n ∧
    ∀ e, cn_Endpoints n !! e = if decide (c e = 0) then None else Some (Z.of_nat (c e)).

Lemma run_endpoint_counts s c op :
  counts s c → (∀ e, Z.of_nat (c e) < 2 ^ 63 - 1)%Z →
  ∃ s', run_endpoint op s = Some (s', changed c op ≫= call_local s) ∧ counts s' (count_op c op) ∧
    cs_localID s' = cs_localID s ∧ localEndpointSubscribers s' = localEndpointSubscribers s.
Proof.
  intros (n&Hn&Hc) Hb. destruct op as [e|e]; simpl.
  - unfold AddLocalEndpoint. rewrite Hn. simpl. eexists. split; [by rewrite app_nil_r|]. split_and!; [|done..].
    eexists. split; [apply lookup_insert_eq|]. intros x. simpl.
    assert (default 0%Z (cn_Endpoints n !! e) = Z.of_nat (c e)) as ->.
    { rewrite Hc. case_decide as He; simpl; [|done]. by rewrite He. }
    specialize (Hb e). rewrite i64_small by (unfold is_i64; lia).
    destruct (decide (x = e)) as [->|Hne]; [|by rewrite lookup_insert_ne].
    rewrite lookup_insert_eq. simpl. f_equal. lia.
  - unfold RemoveLocalEndpoint. rewrite Hn. simpl. rewrite Hc. case_decide as He.
    { eexists. split; [done|]. split_and!; [|done..]. exists n. split; [done|]. intros x. rewrite Hc.
      destruct (decide (x = e)) as [->|]; [|done]. by rewrite He. }
    rewrite decide_False by lia. eexists. split; [simpl; by rewrite app_nil_r|]. split_and!; [|done..].
    eexists. split; [apply lookup_insert_eq|]. intros x. simpl. case_decide as Hlt;
      (destruct (decide (x = e)) as [->|Hne]; [|by rewrite ?lookup_insert_ne, ?lookup_delete_ne]).
    + rewrite lookup_insert_eq, decide_False by lia. f_equal. lia.
    + rewrite lookup_delete_eq, decide_True by lia. done.
Qed.

Fixpoint run_endpoints (ops : list endpoint_op) (s : State) : option (State * list cluster_effect) :=
  match ops with
  | [] => Some (s, [])
  | op :: ops' =>
      '(s1, w1) ← run_endpoint op s;
      '(s2, w2) ← run_endpoints ops' s1;
      Some (s2, w1 ++ w2)
  end.

Fixpoint changes (c : string → nat) (ops : list endpoint_op) : list string :=
  match ops with [] => [] | op :: ops' => changed c op ++ changes (count_op c op) ops' end.

Lemma count_op_bound c op m : (∀ e, c e ≤ m) → ∀ e, count_op c op e ≤ S m.
Proof. intros Hm x. specialize (Hm x). destruct op; simpl; case_decide; lia. Qed.

Lemma run_endpoints_counts ops s c m :
  counts s c → (∀ e, c e ≤ m) → (Z.of_nat (m + length ops) < 2 ^ 63)%Z →
  ∃ s', run_endpoints ops s = Some (s', changes c ops ≫= call_local s) ∧ counts s' (foldl count_op c ops).
Proof.
  revert s c m. induction ops as [|op ops IH]; intros s c m Hc Hm Hlen; [by eexists|]. simpl in *.
  destruct (run_endpoint_counts s c op Hc) as (s1&->&Hc1&Hl1&Hs1); [intros e; specialize (Hm e); lia|]. simpl.
  destruct (IH s1 (count_op c op) (S m)) as (s2&->&Hc2); [done|by apply count_op_bound|lia|]. simpl.
  exists s2. split; [|done]. rewrite bind_app. do 3 f_equal. unfold call_local. by rewrite Hs1.
Qed.

(** *** The mean number of connections *)

Fixpoint Zsum (l : list Z) : Z := match l with [] => 0%Z | x :: l' => (x + Zsum l')%Z end.

#[export] Instance Zsum_proper : Proper ((≡ₚ) ==> (=)) Zsum.
Proof. intros l1 l2 Hp. induction Hp; simpl; lia. Qed.

Definition conns (es : gmap string Z) : Z := Zsum (map_to_list es).*2.

Definition active (s : State) : list cnode :=
  filter (λ n, cn_Status n = NodeStatusActive) (map_to_list (cs_nodes s)).*2.

(** The connections of the active nodes, as a plain sum. *)
Definition total_conns (s : State) : Z := Zsum ((λ n, conns (cn_Endpoints n)) <$> active s).

Definition listeners_positive (n : cnode) : Prop := ∀ e l, cn_Endpoints n !! e = Some l → (0 ≤ l)%Z.

Lemma Zsum_nonneg l : (∀ x, x ∈ l → 0 ≤ x)%Z → (0 ≤ Zsum l)%Z.
Proof.
  induction l as [|x l IH]; intros Hl; simpl; [done|].
  assert (0 ≤ x)%Z by (apply Hl; left). assert (0 ≤ Zsum l)%Z; [|lia]. apply IH. intros. apply Hl. by right.
Qed.

Lemma sum_conns_spec `{MapIter} es t :
  (∀ e l, es !! e = Some l → 0 ≤ l)%Z → (0 ≤ t)%Z → (t + conns es < 2 ^ 63)%Z →
  sum_conns es t = (t + conns es)%Z.
Proof.
  intros Hes Ht. unfold sum_conns, conns. rewrite <-(map_range_perm es).
  assert (∀ x, x ∈ (map_range es).*2 → 0 ≤ x)%Z as Hl.
  { intros x [k Hk]%elem_of_map_range_snd. by eapply Hes. }
  revert t Ht Hl. generalize (map_range es). intros l. induction l as [|p l IH]; intros t Ht Hl;
    [simpl; lia|rewrite fmap_cons; cbn [foldl Zsum]].
  rewrite fmap_cons in Hl. intros Hlt. assert (0 ≤ p.2)%Z by (apply Hl; left).
  assert (0 ≤ Zsum l.*2)%Z by (apply Zsum_nonneg; intros; apply Hl; by right).
  rewrite i64_small by (unfold is_i64; lia). rewrite IH; [lia|lia|intros; apply Hl; by right|lia].
Qed.

Lemma avg_loop_spec `{MapIter} l t k :
  (∀ n, n ∈ l → listeners_positive n) → (0 ≤ t)%Z →
  let act := filter (λ n, cn_Status n = NodeStatusActive) l in
  (t + Zsum ((λ n, conns (cn_Endpoints n)) <$> act) < 2 ^ 63)%Z →
  avg_loop l t k = (t + Zsum ((λ n, conns (cn_Endpoints n)) <$> act), k + Z.of_nat (length act))%Z.
Proof.
  revert t k. induction l as [|n l IH]; intros t k Hl Ht act Hlt; simpl.
  { f_equal; lia. }
  assert (∀ x, x ∈ l → listeners_positive x) as Hl' by set_solver.
  assert (∀ x, x ∈ n :: l → 0 ≤ conns (cn_Endpoints x))%Z as Hpos.
  { intros x Hx. apply Zsum_nonneg. intros y (k'&->&Hk)%list_elem_of_fmap. destruct k' as [e v].
    apply elem_of_map_to_list in Hk. by apply (Hl _ Hx e v). }
  unfold act in *. rewrite filter_cons in Hlt |- *. case_decide as Hact.
  - rewrite decide_False by tauto. rewrite fmap_cons in Hlt |- *. cbn [Zsum length] in Hlt |- *.
    assert (0 ≤ Zsum ((λ n, conns (cn_Endpoints n)) <$> filter (λ n, cn_Status n = NodeStatusActive) l))%Z.
    { apply Zsum_nonneg. intros x (y&->&[_ Hy]%list_elem_of_filter)%list_elem_of_fmap. apply Hpos. by right. }
    pose proof (Hpos n ltac:(left)).
    rewrite sum_conns_spec; [|apply (Hl n); left|done|lia].
    rewrite IH; [f_equal; simpl; lia|done|lia|lia].
  - rewrite decide_True by done. by apply IH.
Qed.

Lemma active_range `{MapIter} s :
  filter (λ n, cn_Status n = NodeStatusActive) (map_range (cs_nodes s)).*2 ≡ₚ active s.
Proof. unfold active. by rewrite (map_range_perm (cs_nodes s)). Qed.

(** ** Properties *)

(** C21. The cluster state keeps its invariant: in a well-formed state no
    operation panics, nodes stay stored under their identifier, the local node
    stays present and active, and the gauge of the nodes by status moves with
    the number of nodes with each status; the one exception is a node added
    under an identifier already in the cluster, which counts the replaced node
    once more. *)
Theorem cluster_invariant op s :
  cluster_wf s →
  ∃ s' effs, run_cluster op s = Some (s', effs) ∧ cluster_wf s' ∧ cs_localID s' = cs_localID s ∧
    ∀ st, gauge (nodes_with s) effs st = (nodes_with s' st + replaced s op st)%Z.
Proof.
  intros Hs. assert (∀ r : State * list cluster_effect, (∀ st, replaced s op st = 0%Z) →
    cluster_good s r.1 r.2 → ∃ s' effs, Some r = Some (s', effs) ∧ cluster_wf s' ∧ cs_localID s' = cs_localID s ∧
      ∀ st, gauge (nodes_with s) effs st = (nodes_with s' st + replaced s op st)%Z) as Hgood.
  { intros [s' effs] Hr (?&?&Hg). exists s', effs. split_and!; [done..|]. intros st. rewrite Hg, Hr. simpl. lia. }
  destruct op; simpl.
  - destruct (AddLocalEndpoint_good s endpointID Hs) as (s'&effs&->&Hg). by apply (Hgood (s', effs)).
  - destruct (RemoveLocalEndpoint_good s endpointID Hs) as (s'&effs&->&Hg). by apply (Hgood (s', effs)).
  - apply Hgood; [done|]. split_and!; [|done..]. split; apply Hs.
  - apply Hgood; [done|]. split_and!; [|done..]. split; apply Hs.
  - exists (AddNode s n).1, (AddNode s n).2. rewrite <-surjective_pairing. split_and!; [done|by apply AddNode_wf| |].
    + unfold AddNode. by case_decide.
    + intros st. apply AddNode_gauge.
  - by apply Hgood; [|apply RemoveNode_good].
  - by apply Hgood; [|apply UpdateRemoteStatus_good].
  - by apply Hgood; [|apply UpdateRemoteEndpoint_good].
  - by apply Hgood; [|apply RemoveRemoteEndpoint_good].
Qed.

(** Routing finds a node exactly when there is one: whatever the order of
    the map, [LookupEndpoint] returns another node that is active and has a
    listener for the endpoint, and returns nothing only when no such node is
    known. *)
Theorem lookup_endpoint_exact `{MapIter} s e :
  cluster_wf s →
  match LookupEndpoint s e with
  | Some n => cs_nodes s !! cn_ID n = Some n ∧ cn_ID n ≠ cs_localID s ∧ cn_Status n = NodeStatusActive ∧
              ∃ l, cn_Endpoints n !! e = Some l ∧ (0 < l)%Z
  | None => ∀ id n l, cs_nodes s !! id = Some n → id ≠ cs_localID s → cn_Status n = NodeStatusActive →
              cn_Endpoints n !! e = Some l → (l ≤ 0)%Z
  end.
Proof.
  intros Hs. unfold LookupEndpoint. destruct (lookup_loop s e (map_range (cs_nodes s)).*2) as [n|] eqn:Hl.
  - apply lookup_loop_Some in Hl as [[k Hk]%elem_of_values (Hne&Hst&Hes)].
    rewrite (cwf_ids _ Hs _ _ Hk). split_and!; [done|by rewrite <-(cwf_ids _ Hs _ _ Hk)|done|].
    destruct (cn_Endpoints n !! e) as [l|]; [by eauto|done].
  - rewrite lookup_loop_None in Hl. intros id n l Hn Hne Hst Hes.
    destruct (decide (0 < l)%Z) as [Hlt|]; [|lia]. exfalso. apply (Hl n).
    { apply elem_of_values. by exists id. }
    unfold serves. rewrite Hes, (cwf_ids _ Hs _ _ Hn). done.
Qed.

(** Local listeners are counted: after any sequence of additions and
    removals, the local node lists each endpoint with the number of its
    listeners, without the endpoints that have none, removing more than was
    added has no effect, and every subscriber is called once for each change,
    in order. *)
Theorem local_listeners_counted s ops :
  counts s (λ _, 0) → (Z.of_nat (length ops) < 2 ^ 63)%Z →
  ∃ s', run_endpoints ops s = Some (s', changes (λ _, 0) ops ≫= call_local s) ∧
    ∀ e, LocalEndpointListeners s' e = Some (Z.of_nat (foldl count_op (λ _, 0) ops e)) ∧
      (State_LocalNode s' ≫= λ n, cn_Endpoints n !! e) =
        (if decide (foldl count_op (λ _, 0) ops e = 0) then None
         else Some (Z.of_nat (foldl count_op (λ _, 0) ops e))).
Proof.
  intros Hc Hlen. destruct (run_endpoints_counts ops s (λ _, 0) 0 Hc) as (s'&Hrun&n&Hn&Hes); [done|done|].
  exists s'. split; [done|]. intros e. unfold LocalEndpointListeners, State_LocalNode.
  rewrite Hn. simpl. rewrite Hes. case_decide as H0; simpl; [by rewrite H0|done].
Qed.

(** [AvgConns] is the mean over the active nodes, rounded toward zero, and
    never divides by zero since the local node is active. *)
Theorem avg_conns_exact `{MapIter} s :
  cluster_wf s → (∀ id n, cs_nodes s !! id = Some n → listeners_positive n) → (total_conns s < 2 ^ 63)%Z →
  0 < length (active s) ∧ AvgConns s = Some (Z.quot (total_conns s) (Z.of_nat (length (active s)))).
Proof.
  intros Hs Hpos Htot.
  assert (0 < length (active s)) as Hlen.
  { destruct (cwf_local _ Hs) as (n&Hn&Hst).
    assert (n ∈ active s) as Hin; [|destruct (active s); [set_solver|simpl; lia]].
    apply list_elem_of_filter. split; [done|]. apply list_elem_of_fmap. exists (cs_localID s, n).
    split; [done|]. by apply elem_of_map_to_list. }
  split; [done|]. unfold AvgConns.
  assert (avg_loop (map_range (cs_nodes s)).*2 0 0 = (total_conns s, Z.of_nat (length (active s)))) as ->.
  { pose proof (active_range s) as Hp. rewrite avg_loop_spec; cbv zeta.
    - f_equal; [by unfold total_conns; rewrite <-Hp|]. by rewrite <-(Permutation_length Hp).
    - intros n [k Hk]%elem_of_values. by eapply Hpos.
    - done.
    - unfold total_conns in Htot. by rewrite Hp. }
  by rewrite decide_False by lia.
Qed.

(** ** Witnesses *)

#[local] Existing Instance canonical_iter.

Definition ex_local : cnode := mkCNode "n1" "" "10.0.0.1:8000" "10.0.0.1:8002" ∅.
Definition ex_remote : cnode := mkCNode "n2" NodeStatusActive "10.0.0.2:8000" "10.0.0.2:8002" {["a" := 3%Z]}.
Definition ex_cluster : State := (AddNode (NewState ex_local).1 ex_remote).1.

Lemma NewState_wf n : cluster_wf (NewState n).1.
Proof.
  split; simpl.
  - by intros id x [<- <-]%lookup_singleton_Some.
  - eexists. by rewrite lookup_singleton_eq.
Qed.

Lemma ex_cluster_wf : cluster_wf ex_cluster.
Proof. apply (AddNode_wf (NewState ex_local).1 ex_remote), NewState_wf. Qed.

Lemma cluster_invariant_witness :
  (∃ s' effs, run_cluster (CUpdateRemoteStatus "n2" NodeStatusLeft) ex_cluster = Some (s', effs) ∧
    gauge (nodes_with ex_cluster) effs NodeStatusLeft = nodes_with s' NodeStatusLeft) ∧
  ∃ s' effs, run_cluster (CAddNode ex_remote) ex_cluster = Some (s', effs) ∧
    gauge (nodes_with ex_cluster) effs NodeStatusActive = (nodes_with s' NodeStatusActive + 1)%Z.
Proof.
  split.
  - destruct (cluster_invariant (CUpdateRemoteStatus "n2" NodeStatusLeft) ex_cluster ex_cluster_wf)
      as (s'&effs&Hrun&_&_&Hg).
    exists s', effs. split; [exact Hrun|]. rewrite Hg. simpl. lia.
  - destruct (cluster_invariant (CAddNode ex_remote) ex_cluster ex_cluster_wf) as (s'&effs&Hrun&_&_&Hg).
    exists s', effs. split; [exact Hrun|]. rewrite Hg. by vm_compute replaced.
Defined.

Lemma lookup_endpoint_exact_witness :
  ∃ n, LookupEndpoint ex_cluster "a" = Some n ∧ cn_ID n ≠ "n1" ∧ cn_Status n = NodeStatusActive.
Proof.
  pose proof (lookup_endpoint_exact ex_cluster "a" ex_cluster_wf) as Hl.
  destruct (LookupEndpoint ex_cluster "a") as [n|] eqn:E.
  - exists n. split; [done|]. destruct Hl as (_&Hne&Hst&_). split; [exact Hne|exact Hst].
  - exfalso. by vm_compute in E.
Defined.

Lemma local_listeners_counted_witness :
  ∃ s' effs, run_endpoints [EAdd "a"; EAdd "a"; ERemove "a"; ERemove "b"]
      (OnLocalEndpointUpdate (NewState ex_local).1 "sync") = Some (s', effs) ∧
    effs = [CallLocal "sync" "a"; CallLocal "sync" "a"; CallLocal "sync" "a"] ∧
    LocalEndpointListeners s' "a" = Some 1%Z.
Proof.
  destruct (local_listeners_counted (OnLocalEndpointUpdate (NewState ex_local).1 "sync")
    [EAdd "a"; EAdd "a"; ERemove "a"; ERemove "b"]) as (s'&Hrun&Hl).
  - eexists. split; [by vm_compute|]. done.
  - done.
  - eexists _, _. split; [exact Hrun|]. split; [by vm_compute|]. apply (Hl "a").
Defined.

Lemma avg_conns_exact_witness : AvgConns ex_cluster = Some 1%Z.
Proof.
  destruct (avg_conns_exact ex_cluster ex_cluster_wf) as [_ ->]; [| |by vm_compute].
  - assert (map_Forall (λ _ n, map_Forall (λ _ l, 0 ≤ l)%Z (cn_Endpoints n)) (cs_nodes ex_cluster)) as Hall
      by (apply (bool_decide_unpack _); by vm_compute).
    intros id n Hn e l Hl. exact (Hall id n Hn e l Hl).
  - by vm_compute.
Defined.
