(* ===== verification/Syncer.v ===== *)
(** * server/gossip/syncer.go: between the gossip state and the cluster

    As the gossip [Watcher] the syncer builds the remote nodes of the cluster
    from the keys they gossip; as a subscriber of the cluster it gossips the
    local endpoints. *)

From S2P Require Import Prelude GoLib GossipState GossipReplica GossipMembership Cluster.


(** ** Data *)

Record syncer := mkSyncer {
  pendingNodes : gmap string cnode;
  sy_cluster : State;
}.

(** The calls on the [gossiper]. *)
Inductive gossiper_call :=
  | UpsertLocalCall (key value : string)
  | DeleteLocalCall (key : string).

#[global] Instance gossiper_call_eq_dec : EqDecision gossiper_call.
Proof. solve_decision. Defined.

Definition proxyKey : string := "proxy_addr".
Definition adminKey : string := "admin_addr".
Definition endpointPrefix : string := "endpoint:".

Definition newSyncer (c : State) : syncer := mkSyncer ∅ c.

(** The name the syncer's callback is subscribed under. *)
Definition syncer_callback : string := "syncer.onLocalEndpointUpdate".

(** ** The cluster's side *)

Section local.
Context `{MapIter}.

(** [syncer.Sync]: the new cluster state and the calls; [None] is the panic of
    [LocalNode]. *)
Definition Sync (s : syncer) : option (syncer * list gossiper_call) :=
  let c := OnLocalEndpointUpdate (sy_cluster s) syncer_callback in
  localNode ← State_LocalNode c;
  Some (mkSyncer (pendingNodes s) c,
        [UpsertLocalCall proxyKey (cn_ProxyAddr localNode); UpsertLocalCall adminKey (cn_AdminAddr localNode)]
        ++ ((λ p, UpsertLocalCall (endpointPrefix +:+ p.1) (Itoa p.2)) <$> map_range (cn_Endpoints localNode))).
End local.

(** [syncer.onLocalEndpointUpdate] *)
Definition onLocalEndpointUpdate (s : syncer) (endpointID : string) : option (list gossiper_call) :=
  listeners ← LocalEndpointListeners (sy_cluster s) endpointID;
  let key := endpointPrefix +:+ endpointID in
  Some (if decide (0 < listeners)%Z then [UpsertLocalCall key (Itoa listeners)] else [DeleteLocalCall key]).

(** ** The watcher's side

    Every handler returns the new state and the calls the cluster makes. *)

Definition set_pending (p : gmap string cnode) (s : syncer) : syncer := mkSyncer p (sy_cluster s).
Definition set_cluster (c : State) (s : syncer) : syncer := mkSyncer (pendingNodes s) c.

Definition is_local (s : syncer) (nodeID : string) : Prop := nodeID = cs_localID (sy_cluster s).

Definition new_pending (nodeID : string) : cnode := mkCNode nodeID "" "" "" ∅.

Definition syncer_OnJoin (s : syncer) (nodeID : string) : syncer :=
  if decide (nodeID = cs_localID (sy_cluster s)) then s
  else
    match State_Node (sy_cluster s) nodeID with
    | Some _ => s
    | None =>
        match pendingNodes s !! nodeID with
        | Some _ => s
        | None => set_pending (<[nodeID := new_pending nodeID]> (pendingNodes s)) s
        end
    end.

Definition syncer_OnLeave (s : syncer) (nodeID : string) : syncer * list cluster_effect :=
  if decide (nodeID = cs_localID (sy_cluster s)) then (s, [])
  else
    let '(c, effs, updated) := UpdateRemoteStatus (sy_cluster s) nodeID NodeStatusLeft in
    if updated then (set_cluster c s, effs)
    else (set_pending (delete nodeID (pendingNodes s)) s, []).

(** The shared shape of [OnReachable] and [OnUnreachable]. *)
Definition update_status (s : syncer) (nodeID : string) (status : NodeStatus) : syncer * list cluster_effect :=
  if decide (nodeID = cs_localID (sy_cluster s)) then (s, [])
  else
    let '(c, effs, updated) := UpdateRemoteStatus (sy_cluster s) nodeID status in
    if updated then (set_cluster c s, effs)
    else
      match pendingNodes s !! nodeID with
      | Some pending => (set_pending (<[nodeID := set_Status status pending]> (pendingNodes s)) s, [])
      | None => (s, [])
      end.

Definition syncer_OnReachable (s : syncer) (nodeID : string) : syncer * list cluster_effect :=
  update_status s nodeID NodeStatusActive.

Definition syncer_OnUnreachable (s : syncer) (nodeID : string) : syncer * list cluster_effect :=
  update_status s nodeID NodeStatusUnreachable.

Definition syncer_OnExpired (s : syncer) (nodeID : string) : syncer * list cluster_effect :=
  if decide (nodeID = cs_localID (sy_cluster s)) then (s, [])
  else
    let '(c, effs, removed) := RemoveNode (sy_cluster s) nodeID in
    if removed then (set_cluster c s, effs)
    else (set_pending (delete nodeID (pendingNodes s)) s, []).

(** The end of [OnUpsertKey]: a pending node with both addresses is added to
    the cluster. *)
Definition promote (s : syncer) (nodeID : string) (node : cnode) : syncer * list cluster_effect :=
  if decide (cn_ProxyAddr node ≠ "" ∧ cn_AdminAddr node ≠ "") then
    let node' := if decide (cn_Status node = "") then set_Status NodeStatusActive node else node in
    let '(c, effs) := AddNode (sy_cluster s) node' in
    (mkSyncer (delete (cn_ID node) (<[nodeID := node']> (pendingNodes s))) c, effs)
  else (set_pending (<[nodeID := node]> (pendingNodes s)) s, []).

(** The second half of [OnUpsertKey]: the key of a pending node. *)
Definition upsert_pending (s : syncer) (nodeID key value : string) : syncer * list cluster_effect :=
  match pendingNodes s !! nodeID with
  | None => (s, [])
  | Some node =>
      if decide (key = proxyKey) then promote s nodeID (set_ProxyAddr value node)
      else if decide (key = adminKey) then promote s nodeID (set_AdminAddr value node)
      else if HasPrefix key endpointPrefix then
        match Atoi value with
        | None => (s, [])
        | Some listeners =>
            promote s nodeID
              (set_Endpoints (<[CutPrefix key endpointPrefix := listeners]> (cn_Endpoints node)) node)
        end
      else (s, [])
  end.

Definition syncer_OnUpsertKey (s : syncer) (nodeID key value : string) : syncer * list cluster_effect :=
  if decide (nodeID = cs_localID (sy_cluster s)) then (s, [])
  else if decide ((key = proxyKey ∨ key = adminKey) ∧ is_Some (State_Node (sy_cluster s) nodeID)) then (s, [])
  else if HasPrefix key endpointPrefix then
    match Atoi value with
    | None => (s, [])
    | Some listeners =>
        let '(c, effs, updated) :=
          UpdateRemoteEndpoint (sy_cluster s) nodeID (CutPrefix key endpointPrefix) listeners in
        if updated then (set_cluster c s, effs) else upsert_pending s nodeID key value
    end
  else upsert_pending s nodeID key value.

Definition syncer_OnDeleteKey (s : syncer) (nodeID key : string) : syncer * list cluster_effect :=
  if decide (nodeID = cs_localID (sy_cluster s)) then (s, [])
  else if negb (HasPrefix key endpointPrefix) then (s, [])
  else
    let endpointID := CutPrefix key endpointPrefix in
    let '(c, effs, removed) := RemoveRemoteEndpoint (sy_cluster s) nodeID endpointID in
    if removed then (set_cluster c s, effs)
    else
      match pendingNodes s !! nodeID with
      | None => (s, [])
      | Some node =>
          (set_pending (<[nodeID := set_Endpoints (delete endpointID (cn_Endpoints node)) node]>
                          (pendingNodes s)) s, [])
      end.

Definition handle_call (s : syncer) (c : watcher_call) : syncer * list cluster_effect :=
  match c with
  | OnJoin id => (syncer_OnJoin s id, [])
  | OnLeave id => syncer_OnLeave s id
  | OnReachable id => syncer_OnReachable s id
  | OnUnreachable id => syncer_OnUnreachable s id
  | OnUpsertKey id key value => syncer_OnUpsertKey s id key value
  | OnDeleteKey id key => syncer_OnDeleteKey s id key
  | OnExpired id => syncer_OnExpired s id
  end.

Definition handle_calls (s : syncer) (cs : list watcher_call) : syncer * list cluster_effect :=
  fold_emit handle_call s cs.

(** ** Specification *)

(** The endpoints a set of keys stands for. *)
Definition endpoints_match (v : gmap string string) (es : gmap string Z) : Prop :=
  ∀ e, es !! e = (v !! (endpointPrefix +:+ e)) ≫= Atoi.

(** The status of a peer. *)
Definition peer_status (p : peer) : NodeStatus :=
  if p_left p then NodeStatusLeft
  else if p_unreachable p then NodeStatusUnreachable else NodeStatusActive.

Definition addr_of (v : gmap string string) (key : string) : string := default "" (v !! key).

(** What the syncer should hold for a remote node. *)
Inductive mirrors (id : string) : option peer → option cnode → option cnode → Prop :=
  | mirrors_unknown : mirrors id None None None
  | mirrors_cluster p n :
      cn_ID n = id → cn_Status n = peer_status p → cn_ProxyAddr n = addr_of (p_view p) proxyKey →
      cn_AdminAddr n = addr_of (p_view p) adminKey → cn_ProxyAddr n ≠ "" → cn_AdminAddr n ≠ "" →
      endpoints_match (p_view p) (cn_Endpoints n) → mirrors id (Some p) (Some n) None
  | mirrors_pending p n :
      cn_ID n = id → p_left p = false →
      cn_Status n = peer_status p ∨ (cn_Status n = "" ∧ p_unreachable p = false) →
      cn_ProxyAddr n = addr_of (p_view p) proxyKey → cn_AdminAddr n = addr_of (p_view p) adminKey →
      cn_ProxyAddr n = "" ∨ cn_AdminAddr n = "" →
      endpoints_match (p_view p) (cn_Endpoints n) → mirrors id (Some p) None (Some n)
  | mirrors_left_pending p :
      p_left p = true → mirrors id (Some p) None None.

(** The syncer is in sync with what a watcher knows. *)
Definition synced (m : gmap string peer) (s : syncer) : Prop :=
  m !! cs_localID (sy_cluster s) = None ∧
  ∀ id, id ≠ cs_localID (sy_cluster s) →
    mirrors id (m !! id) (cs_nodes (sy_cluster s) !! id) (pendingNodes s !! id).

(** The keys a Piko node gossips and the values it gives them: the two
    addresses, which do not change, and the listeners of its endpoints. *)
Definition key_ok (v : gmap string string) (key value : string) : Prop :=
  ((key = proxyKey ∨ key = adminKey) ∧ value ≠ "" ∧ (∀ old, v !! key = Some old → old = value)) ∨
  (HasPrefix key endpointPrefix = true ∧ is_Some (Atoi value)).

(** The calls the gossip layer makes, given what it told before. *)
Definition call_ok (local : string) (m : gmap string peer) (c : watcher_call) : Prop :=
  match c with
  | OnJoin id => id ≠ local ∧ m !! id = None
  | OnLeave id | OnExpired id => id ≠ local ∧ is_Some (m !! id)
  | OnReachable id | OnUnreachable id => id ≠ local ∧ ∃ p, m !! id = Some p ∧ p_left p = false
  | OnUpsertKey id key value => id ≠ local ∧ ∃ p, m !! id = Some p ∧ key_ok (p_view p) key value
  | OnDeleteKey id key => id ≠ local ∧ is_Some (m !! id) ∧ HasPrefix key endpointPrefix = true
  end.

Fixpoint calls_ok (local : string) (m : gmap string peer) (cs : list watcher_call) : Prop :=
  match cs with
  | [] => True
  | c :: cs' => call_ok local m c ∧ calls_ok local (watch_call m c) cs'
  end.

(** ** Lemmas *)

Lemma endpoint_key_ne_addr key : HasPrefix key endpointPrefix = true → key ≠ proxyKey ∧ key ≠ adminKey.
Proof. intros Hp. split; intros ->; done. Qed.

Lemma endpoint_key key : HasPrefix key endpointPrefix = true → key = endpointPrefix +:+ CutPrefix key endpointPrefix.
Proof. apply HasPrefix_CutPrefix. Qed.

Lemma endpointPrefix_inj e1 e2 : endpointPrefix +:+ e1 = endpointPrefix +:+ e2 → e1 = e2.
Proof. apply (inj (String.app endpointPrefix)). Qed.

Lemma endpoints_upsert v es e value l :
  endpoints_match v es → Atoi value = Some l →
  endpoints_match (<[endpointPrefix +:+ e := value]> v) (<[e := l]> es).
Proof.
  intros Hm Ha x. destruct (decide (x = e)) as [->|Hne].
  - by rewrite !lookup_insert_eq.
  - rewrite !lookup_insert_ne; [apply Hm| |done]. intros ?%endpointPrefix_inj. congruence.
Qed.

Lemma endpoints_delete v es e :
  endpoints_match v es → endpoints_match (delete (endpointPrefix +:+ e) v) (delete e es).
Proof.
  intros Hm x. destruct (decide (x = e)) as [->|Hne].
  - by rewrite !lookup_delete_eq.
  - rewrite !lookup_delete_ne; [apply Hm| |done]. intros ?%endpointPrefix_inj. congruence.
Qed.

Lemma endpoints_upsert_addr v es key value :
  endpoints_match v es → key = proxyKey ∨ key = adminKey → endpoints_match (<[key := value]> v) es.
Proof.
  intros Hm Hk x. rewrite lookup_insert_ne; [apply Hm|]. by destruct Hk as [-> | ->].
Qed.

Lemma addr_of_upsert_ne v key k value : k ≠ key → addr_of (<[key := value]> v) k = addr_of v k.
Proof. intros ?. unfold addr_of. by rewrite lookup_insert_ne. Qed.

Lemma addr_of_upsert_eq v key value : addr_of (<[key := value]> v) key = value.
Proof. unfold addr_of. by rewrite lookup_insert_eq. Qed.

Lemma addr_of_delete_ne v key k : k ≠ key → addr_of (delete key v) k = addr_of v k.
Proof. intros ?. unfold addr_of. by rewrite lookup_delete_ne. Qed.

(** A handler that leaves the other nodes alone. *)
Definition touches (id : string) (s s' : syncer) : Prop :=
  cs_localID (sy_cluster s') = cs_localID (sy_cluster s) ∧
  ∀ k, k ≠ id → cs_nodes (sy_cluster s') !! k = cs_nodes (sy_cluster s) !! k ∧
    pendingNodes s' !! k = pendingNodes s !! k.

Lemma synced_update m s m' s' id :
  synced m s → id ≠ cs_localID (sy_cluster s) → touches id s s' → (∀ k, k ≠ id → m' !! k = m !! k) →
  mirrors id (m' !! id) (cs_nodes (sy_cluster s') !! id) (pendingNodes s' !! id) → synced m' s'.
Proof.
  intros [Hl Hm] Hne [El Et] Hk Hid. split.
  - rewrite El, Hk by done. done.
  - intros k Hkl. destruct (decide (k = id)) as [->|Hkid]; [done|].
    destruct (Et k Hkid) as [-> ->]. rewrite Hk by done. apply Hm. by rewrite <-El.
Qed.

Lemma alter_other (m : gmap string peer) f id k : k ≠ id → alter f id m !! k = m !! k.
Proof. intros. by apply lookup_alter_ne. Qed.

Lemma touches_refl id s : touches id s s.
Proof. done. Qed.

Lemma touches_set_cluster id s n :
  touches id s (set_cluster (set_cnode id n (sy_cluster s)) s).
Proof. split; [done|]. intros k Hk. simpl. by rewrite lookup_insert_ne. Qed.

Lemma touches_set_pending id s n : touches id s (set_pending (<[id := n]> (pendingNodes s)) s).
Proof. split; [done|]. intros k Hk. simpl. by rewrite lookup_insert_ne. Qed.

Lemma touches_delete_pending id s : touches id s (set_pending (delete id (pendingNodes s)) s).
Proof. split; [done|]. intros k Hk. simpl. by rewrite lookup_delete_ne. Qed.

(** Case analysis on what the syncer holds for a node. *)
Ltac destruct_mirrors H :=
  inversion H as [Em Ec Ep|? ? Hid Hst Hpa Haa Hpn Han Hes Em Ec Ep
                 |? ? Hid Hleft Hst Hpa Haa Hempty Hes Em Ec Ep|? Hleft Em Ec Ep].

Section handlers.
Context (m : gmap string peer) (s : syncer) (Hs : synced m s).

Lemma handle_join id : call_ok (cs_localID (sy_cluster s)) m (OnJoin id) →
  synced (watch_call m (OnJoin id)) (syncer_OnJoin s id).
Proof using Hs.
  intros [Hne Hm]. pose proof (proj2 Hs id Hne) as Hid0. rewrite Hm in Hid0.
  destruct_mirrors Hid0. unfold syncer_OnJoin. rewrite decide_False by done.
  unfold State_Node. rewrite <-Ec, <-Ep. simpl.
  apply (synced_update m s _ _ id Hs Hne); [apply touches_set_pending|intros; by apply lookup_insert_ne|].
  simpl. rewrite !lookup_insert_eq, <-Ec.
  apply mirrors_pending; try done; [by right|by left].
Qed.

Lemma handle_leave id : call_ok (cs_localID (sy_cluster s)) m (OnLeave id) →
  synced (watch_call m (OnLeave id)) (syncer_OnLeave s id).1.
Proof using Hs.
  intros [Hne [p Hm]]. pose proof (proj2 Hs id Hne) as Hid0. rewrite Hm in Hid0.
  unfold syncer_OnLeave. rewrite decide_False by done. unfold UpdateRemoteStatus. rewrite decide_False by done.
  destruct_mirrors Hid0; subst; simpl.
  - apply (synced_update m s _ _ (cn_ID n) Hs Hne); [apply touches_set_cluster|intros; by apply alter_other|].
    simpl. rewrite lookup_alter_eq, Hm, lookup_insert_eq, <-Ep. by apply mirrors_cluster.
  - apply (synced_update m s _ _ (cn_ID n) Hs Hne); [apply touches_delete_pending|intros; by apply alter_other|].
    simpl. rewrite lookup_alter_eq, Hm, lookup_delete_eq, <-Ec. by apply mirrors_left_pending.
  - apply (synced_update m s _ _ id Hs Hne); [apply touches_delete_pending|intros; by apply alter_other|].
    simpl. rewrite lookup_alter_eq, Hm, lookup_delete_eq, <-Ec. by apply mirrors_left_pending.
Qed.

Lemma handle_status id u :
  call_ok (cs_localID (sy_cluster s)) m (OnReachable id) →
  synced (alter (λ p, mkPeer (p_view p) (p_left p) u) id m)
    (update_status s id (if u then NodeStatusUnreachable else NodeStatusActive)).1.
Proof using Hs.
  intros (Hne&p&Hm&Hl). pose proof (proj2 Hs id Hne) as Hid0. rewrite Hm in Hid0.
  unfold update_status. rewrite decide_False by done. unfold UpdateRemoteStatus. rewrite decide_False by done.
  destruct_mirrors Hid0; subst; simpl; [| |congruence].
  - apply (synced_update m s _ _ (cn_ID n) Hs Hne); [apply touches_set_cluster|intros; by apply alter_other|].
    simpl. rewrite lookup_alter_eq, Hm, lookup_insert_eq, <-Ep. apply mirrors_cluster; try done.
    unfold peer_status. simpl. by rewrite Hl.
  - apply (synced_update m s _ _ (cn_ID n) Hs Hne); [apply touches_set_pending|intros; by apply alter_other|].
    simpl. rewrite lookup_alter_eq, Hm, lookup_insert_eq, <-Ec. apply mirrors_pending; try done.
    left. unfold peer_status. simpl. by rewrite Hl.
Qed.

Lemma handle_expired id : call_ok (cs_localID (sy_cluster s)) m (OnExpired id) →
  synced (watch_call m (OnExpired id)) (syncer_OnExpired s id).1.
Proof using Hs.
  intros [Hne [p Hm]]. pose proof (proj2 Hs id Hne) as Hid0. rewrite Hm in Hid0.
  unfold syncer_OnExpired. rewrite decide_False by done. unfold RemoveNode. rewrite decide_False by done.
  destruct_mirrors Hid0; subst; simpl.
  - apply (synced_update m s _ _ (cn_ID n) Hs Hne); [|intros; by apply lookup_delete_ne|].
    + split; [done|]. intros k Hk. simpl. by rewrite lookup_delete_ne.
    + simpl. rewrite !lookup_delete_eq, <-Ep. constructor.
  - apply (synced_update m s _ _ (cn_ID n) Hs Hne); [apply touches_delete_pending|intros; by apply lookup_delete_ne|].
    simpl. rewrite !lookup_delete_eq, <-Ec. constructor.
  - apply (synced_update m s _ _ id Hs Hne); [apply touches_delete_pending|intros; by apply lookup_delete_ne|].
    simpl. rewrite !lookup_delete_eq, <-Ec. constructor.
Qed.
End handlers.

Section upsert.
Context (m : gmap string peer) (s : syncer) (Hs : synced m s).

(** A pending node with new contents: kept, or added to the cluster. *)
Lemma promote_synced id node p :
  id ≠ cs_localID (sy_cluster s) → cs_nodes (sy_cluster s) !! id = None →
  cn_ID node = id → p_left p = false →
  cn_Status node = peer_status p ∨ (cn_Status node = "" ∧ p_unreachable p = false) →
  cn_ProxyAddr node = addr_of (p_view p) proxyKey → cn_AdminAddr node = addr_of (p_view p) adminKey →
  endpoints_match (p_view p) (cn_Endpoints node) →
  synced (<[id := p]> m) (promote s id node).1.
Proof using Hs.
  intros Hne Hn Hid Hl Hst Hpa Haa Hes. unfold promote. case_decide as Hboth.
  - unfold AddNode.
    set (node' := if decide (cn_Status node = "") then set_Status NodeStatusActive node else node).
    assert (cn_ID node' = id ∧ cn_ProxyAddr node' = cn_ProxyAddr node ∧ cn_AdminAddr node' = cn_AdminAddr node ∧
      cn_Endpoints node' = cn_Endpoints node ∧ cn_Status node' = peer_status p) as (E1&E2&E3&E4&E5).
    { unfold node'. case_decide as Hempty; split_and!; try done.
      - destruct Hst as [Hst|[_ Hu]]; unfold peer_status in *; rewrite Hl in *; [|by rewrite Hu].
        by destruct (p_unreachable p); [rewrite Hst in Hempty|].
      - by destruct Hst as [?|[? _]]. }
    rewrite decide_False by congruence. simpl.
    apply (synced_update m s _ _ id Hs Hne); [|intros; by apply lookup_insert_ne|].
    + split; [done|]. intros k Hk. simpl. rewrite E1, lookup_insert_ne, Hid, lookup_delete_ne by done.
      by rewrite lookup_insert_ne.
    + simpl. rewrite E1, Hid, !lookup_insert_eq, lookup_delete_eq.
      destruct Hboth. apply mirrors_cluster; congruence.
  - simpl. apply (synced_update m s _ _ id Hs Hne); [apply touches_set_pending|intros; by apply lookup_insert_ne|].
    simpl. rewrite !lookup_insert_eq, Hn. apply mirrors_pending; try done.
    destruct (decide (cn_ProxyAddr node = "")); [by left|]. destruct (decide (cn_AdminAddr node = "")); [by right|].
    tauto.
Qed.

Definition with_view (v : gmap string string) (p : peer) : peer := mkPeer v (p_left p) (p_unreachable p).

Lemma alter_insert id f p : m !! id = Some p → alter f id m = <[id := f p]> m.
Proof using. intros Hm. apply map_eq. intros k. destruct (decide (k = id)) as [->|];
  [by rewrite lookup_alter_eq, Hm, lookup_insert_eq|by rewrite lookup_alter_ne, lookup_insert_ne]. Qed.

Lemma key_ok_endpoint v key value :
  key_ok v key value → HasPrefix key endpointPrefix = true → is_Some (Atoi value).
Proof using. intros [([-> | ->]&_)|[_ ?]] Hp; done. Qed.

Lemma key_ok_addr v key value :
  key_ok v key value → HasPrefix key endpointPrefix = false →
  (key = proxyKey ∨ key = adminKey) ∧ value ≠ "" ∧ (∀ old, v !! key = Some old → old = value).
Proof using. intros [?|[Hp _]] Hf; [done|congruence]. Qed.

(** An immutable address of a node in the cluster is known already. *)
Lemma addr_known (v : gmap string string) key value :
  addr_of v key ≠ "" → (∀ old, v !! key = Some old → old = value) → <[key := value]> v = v.
Proof using.
  unfold addr_of. intros Ha Hold. destruct (v !! key) as [old|] eqn:Hv; [|done].
  rewrite <-(Hold old eq_refl). by apply insert_id.
Qed.

Lemma handle_upsert_endpoint id key value :
  call_ok (cs_localID (sy_cluster s)) m (OnUpsertKey id key value) → HasPrefix key endpointPrefix = true →
  synced (watch_call m (OnUpsertKey id key value)) (syncer_OnUpsertKey s id key value).1.
Proof using Hs.
  intros (Hne&p&Hm&Hk) Hp. destruct (key_ok_endpoint _ _ _ Hk Hp) as [l Hatoi].
  destruct (endpoint_key_ne_addr key Hp) as [Hk1 Hk2]. pose proof (endpoint_key key Hp) as Hkey.
  pose proof (proj2 Hs id Hne) as Hid0. rewrite Hm in Hid0.
  unfold syncer_OnUpsertKey. rewrite decide_False by done. rewrite decide_False by tauto. rewrite Hp, Hatoi.
  unfold UpdateRemoteEndpoint, updateRemoteEndpointLocked. rewrite decide_False by done.
  simpl watch_call. rewrite (alter_insert id _ p Hm).
  destruct_mirrors Hid0; subst p0.
  - simpl. apply (synced_update m s _ _ id Hs Hne); [apply touches_set_cluster|intros; by apply lookup_insert_ne|].
    simpl. rewrite !lookup_insert_eq, <-Ep. apply mirrors_cluster; simpl; try done.
    + rewrite addr_of_upsert_ne; done.
    + rewrite addr_of_upsert_ne; done.
    + rewrite Hkey at 1. by apply endpoints_upsert.
  - simpl. unfold upsert_pending. rewrite <-Ep, !decide_False, Hp, Hatoi by done.
    apply promote_synced; try done; simpl.
    + rewrite addr_of_upsert_ne; done.
    + rewrite addr_of_upsert_ne; done.
    + rewrite Hkey at 1. by apply endpoints_upsert.
  - simpl. unfold upsert_pending. rewrite <-Ep.
    apply (synced_update m s _ _ id Hs Hne); [apply touches_refl|intros; by apply lookup_insert_ne|].
    simpl. rewrite lookup_insert_eq, <-Ec, <-Ep. by apply mirrors_left_pending.
Qed.

Lemma handle_upsert_addr id key value :
  call_ok (cs_localID (sy_cluster s)) m (OnUpsertKey id key value) → HasPrefix key endpointPrefix = false →
  synced (watch_call m (OnUpsertKey id key value)) (syncer_OnUpsertKey s id key value).1.
Proof using Hs.
  intros (Hne&p&Hm&Hk) Hp. destruct (key_ok_addr _ _ _ Hk Hp) as (Haddr&Hv&Hold).
  pose proof (proj2 Hs id Hne) as Hid0. rewrite Hm in Hid0.
  unfold syncer_OnUpsertKey. rewrite decide_False by done. unfold State_Node.
  simpl watch_call. rewrite (alter_insert id _ p Hm).
  destruct_mirrors Hid0; subst p0.
  - rewrite decide_True by (split; [done|]; by eexists). simpl.
    rewrite (addr_known (p_view p)); [|destruct Haddr as [-> | ->]; congruence|done].
    apply (synced_update m s _ _ id Hs Hne); [apply touches_refl|intros; by apply lookup_insert_ne|].
    rewrite lookup_insert_eq, <-Ec, <-Ep. by apply mirrors_cluster.
  - rewrite decide_False by (simpl; intros [_ [? ?]]; done). rewrite Hp.
    unfold upsert_pending. rewrite <-Ep. destruct Haddr as [-> | ->].
    + rewrite decide_True by done. apply promote_synced; try done; simpl.
      * by rewrite addr_of_upsert_eq.
      * by rewrite addr_of_upsert_ne.
      * apply endpoints_upsert_addr; [done|by left].
    + rewrite decide_False, decide_True by done. apply promote_synced; try done; simpl.
      * by rewrite addr_of_upsert_ne.
      * by rewrite addr_of_upsert_eq.
      * apply endpoints_upsert_addr; [done|by right].
  - rewrite decide_False by (simpl; intros [_ [? ?]]; done). rewrite Hp.
    unfold upsert_pending. rewrite <-Ep.
    apply (synced_update m s _ _ id Hs Hne); [apply touches_refl|intros; by apply lookup_insert_ne|].
    simpl. rewrite lookup_insert_eq, <-Ec, <-Ep. by apply mirrors_left_pending.
Qed.

Lemma handle_delete id key :
  call_ok (cs_localID (sy_cluster s)) m (OnDeleteKey id key) →
  synced (watch_call m (OnDeleteKey id key)) (syncer_OnDeleteKey s id key).1.
Proof using Hs.
  intros (Hne&[p Hm]&Hp). destruct (endpoint_key_ne_addr key Hp) as [Hk1 Hk2].
  pose proof (endpoint_key key Hp) as Hkey.
  pose proof (proj2 Hs id Hne) as Hid0. rewrite Hm in Hid0.
  unfold syncer_OnDeleteKey. rewrite decide_False by done. rewrite Hp. simpl negb. cbv iota.
  unfold RemoveRemoteEndpoint, removeRemoteEndpointLocked. rewrite decide_False by done.
  simpl watch_call. rewrite (alter_insert id _ p Hm).
  destruct_mirrors Hid0; subst p0; simpl.
  - apply (synced_update m s _ _ id Hs Hne); [apply touches_set_cluster|intros; by apply lookup_insert_ne|].
    simpl. rewrite !lookup_insert_eq, <-Ep. apply mirrors_cluster; simpl; try done.
    + rewrite addr_of_delete_ne; done.
    + rewrite addr_of_delete_ne; done.
    + rewrite Hkey at 1. by apply endpoints_delete.
  - rewrite <-?Ep. apply (synced_update m s _ _ id Hs Hne); [apply touches_set_pending|intros; by apply lookup_insert_ne|].
    simpl. rewrite !lookup_insert_eq, <-?Ec. apply mirrors_pending; simpl; try done.
    + rewrite addr_of_delete_ne; done.
    + rewrite addr_of_delete_ne; done.
    + rewrite Hkey at 1. by apply endpoints_delete.
  - rewrite <-?Ep. apply (synced_update m s _ _ id Hs Hne); [apply touches_refl|intros; by apply lookup_insert_ne|].
    simpl. rewrite lookup_insert_eq, <-?Ec, <-?Ep. by apply mirrors_left_pending.
Qed.
End upsert.

(** *** The local node is left alone *)

Lemma promote_local s id n : cs_localID (sy_cluster (promote s id n).1) = cs_localID (sy_cluster s).
Proof. unfold promote, AddNode. case_decide; [|done]. by case_decide. Qed.

Lemma upsert_pending_local s id key value :
  cs_localID (sy_cluster (upsert_pending s id key value).1) = cs_localID (sy_cluster s).
Proof.
  unfold upsert_pending. destruct (pendingNodes s !! id); [|done].
  case_decide; [apply promote_local|]. case_decide; [apply promote_local|].
  destruct (HasPrefix _ _); [|done]. destruct (Atoi _); [apply promote_local|done].
Qed.

Lemma UpdateRemoteStatus_local s id st : cs_localID (UpdateRemoteStatus s id st).1.1 = cs_localID s.
Proof. unfold UpdateRemoteStatus. case_decide; [done|]. by destruct (cs_nodes s !! id). Qed.

Lemma update_status_local s id st :
  cs_localID (sy_cluster (update_status s id st).1) = cs_localID (sy_cluster s).
Proof.
  unfold update_status. case_decide; [done|]. pose proof (UpdateRemoteStatus_local (sy_cluster s) id st) as E.
  destruct (UpdateRemoteStatus _ _ _) as [[c w] []]; [done|]. by destruct (pendingNodes s !! id).
Qed.

Lemma handle_call_local s c : cs_localID (sy_cluster (handle_call s c).1) = cs_localID (sy_cluster s).
Proof.
  destruct c as [id|id|id|id|id key value|id key|id]; simpl.
  - unfold syncer_OnJoin. case_decide; [done|]. destruct (State_Node _ _); [done|].
    by destruct (pendingNodes s !! id).
  - unfold syncer_OnLeave. case_decide; [done|].
    pose proof (UpdateRemoteStatus_local (sy_cluster s) id NodeStatusLeft) as E.
    by destruct (UpdateRemoteStatus _ _ _) as [[c w] []].
  - apply update_status_local.
  - apply update_status_local.
  - unfold syncer_OnUpsertKey. case_decide; [done|]. case_decide; [done|].
    destruct (HasPrefix _ _); [|apply upsert_pending_local]. destruct (Atoi value); [|done].
    unfold UpdateRemoteEndpoint, updateRemoteEndpointLocked. rewrite decide_False by done.
    destruct (cs_nodes (sy_cluster s) !! id); [done|apply upsert_pending_local].
  - unfold syncer_OnDeleteKey. case_decide; [done|]. destruct (HasPrefix _ _); [|done]. simpl.
    unfold RemoveRemoteEndpoint, removeRemoteEndpointLocked. rewrite decide_False by done.
    destruct (cs_nodes (sy_cluster s) !! id); [done|]. by destruct (pendingNodes s !! id).
  - unfold syncer_OnExpired. case_decide; [done|]. unfold RemoveNode. rewrite decide_False by done.
    by destruct (cs_nodes (sy_cluster s) !! id).
Qed.

Lemma handle_call_synced m s c :
  synced m s → call_ok (cs_localID (sy_cluster s)) m c → synced (watch_call m c) (handle_call s c).1.
Proof.
  intros Hs Hc. destruct c; simpl handle_call.
  - by apply handle_join.
  - by apply handle_leave.
  - by apply (handle_status m s Hs nodeID false).
  - by apply (handle_status m s Hs nodeID true).
  - destruct (HasPrefix key endpointPrefix) eqn:Hp; [by apply handle_upsert_endpoint|by apply handle_upsert_addr].
  - by apply handle_delete.
  - by apply handle_expired.
Qed.

Lemma handle_calls_synced cs m s :
  synced m s → calls_ok (cs_localID (sy_cluster s)) m cs →
  synced (foldl watch_call m cs) (handle_calls s cs).1 ∧
  cs_localID (sy_cluster (handle_calls s cs).1) = cs_localID (sy_cluster s).
Proof.
  unfold handle_calls. revert m s. induction cs as [|c cs IH]; intros m s Hs Hcs; [done|].
  destruct Hcs as [Hc Hcs]. rewrite fold_emit_fst. simpl. rewrite <-fold_emit_fst.
  pose proof (handle_call_synced m s c Hs Hc) as Hs1. pose proof (handle_call_local s c) as Hl.
  rewrite <-Hl in Hcs. destruct (IH _ _ Hs1 Hcs) as [? ?]. split; [done|congruence].
Qed.

(** *** A node stays in the cluster until it expires *)

Lemma insert_stays (nodes : gmap string cnode) i n k : is_Some (nodes !! k) → is_Some (<[i := n]> nodes !! k).
Proof. intros Hk. apply lookup_insert_is_Some'. by right. Qed.

Lemma promote_stays s id n k :
  is_Some (cs_nodes (sy_cluster s) !! k) → is_Some (cs_nodes (sy_cluster (promote s id n).1) !! k).
Proof.
  intros Hk. unfold promote, AddNode. case_decide; [|done]. case_decide; [done|]. by apply insert_stays.
Qed.

Lemma upsert_pending_stays s id key value k :
  is_Some (cs_nodes (sy_cluster s) !! k) →
  is_Some (cs_nodes (sy_cluster (upsert_pending s id key value).1) !! k).
Proof.
  intros Hk. unfold upsert_pending. destruct (pendingNodes s !! id); [|done].
  case_decide; [by apply promote_stays|]. case_decide; [by apply promote_stays|].
  destruct (HasPrefix _ _); [|done]. destruct (Atoi _); [by apply promote_stays|done].
Qed.

Lemma UpdateRemoteStatus_keeps s id st k :
  is_Some (cs_nodes s !! k) → is_Some (cs_nodes (UpdateRemoteStatus s id st).1.1 !! k).
Proof.
  intros Hk. unfold UpdateRemoteStatus. case_decide; [done|]. destruct (cs_nodes s !! id); [|done]. by apply insert_stays.
Qed.

Lemma update_status_stays s id st k :
  is_Some (cs_nodes (sy_cluster s) !! k) → is_Some (cs_nodes (sy_cluster (update_status s id st).1) !! k).
Proof.
  intros Hk. unfold update_status. case_decide; [done|].
  pose proof (UpdateRemoteStatus_keeps (sy_cluster s) id st k Hk) as E.
  destruct (UpdateRemoteStatus _ _ _) as [[c w] []]; [done|]. by destruct (pendingNodes s !! id).
Qed.

Lemma handle_call_stays s c k :
  c ≠ OnExpired k → is_Some (cs_nodes (sy_cluster s) !! k) → is_Some (cs_nodes (sy_cluster (handle_call s c).1) !! k).
Proof.
  intros Hc Hk. destruct c as [id|id|id|id|id key value|id key|id]; simpl.
  - unfold syncer_OnJoin. case_decide; [done|]. destruct (State_Node _ _); [done|].
    by destruct (pendingNodes s !! id).
  - unfold syncer_OnLeave. case_decide; [done|].
    pose proof (UpdateRemoteStatus_keeps (sy_cluster s) id NodeStatusLeft k Hk) as E.
    by destruct (UpdateRemoteStatus _ _ _) as [[c w] []].
  - by apply update_status_stays.
  - by apply update_status_stays.
  - unfold syncer_OnUpsertKey. case_decide; [done|]. case_decide; [done|].
    destruct (HasPrefix _ _); [|by apply upsert_pending_stays]. destruct (Atoi value); [|done].
    unfold UpdateRemoteEndpoint, updateRemoteEndpointLocked. rewrite decide_False by done.
    destruct (cs_nodes (sy_cluster s) !! id); [|by apply upsert_pending_stays]. by apply insert_stays.
  - unfold syncer_OnDeleteKey. case_decide; [done|]. destruct (HasPrefix _ _); [|done]. simpl.
    unfold RemoveRemoteEndpoint, removeRemoteEndpointLocked. rewrite decide_False by done.
    destruct (cs_nodes (sy_cluster s) !! id); [|by destruct (pendingNodes s !! id)]. by apply insert_stays.
  - unfold syncer_OnExpired. case_decide; [done|]. unfold RemoveNode. rewrite decide_False by done.
    destruct (cs_nodes (sy_cluster s) !! id); [|done]. simpl. rewrite lookup_delete_ne; [done|congruence].
Qed.

Lemma handle_calls_app s cs1 cs2 :
  (handle_calls s (cs1 ++ cs2)).1 = (handle_calls (handle_calls s cs1).1 cs2).1.
Proof. unfold handle_calls. by rewrite !fold_emit_fst, foldl_app. Qed.

Lemma handle_calls_stays s cs k :
  OnExpired k ∉ cs → is_Some (cs_nodes (sy_cluster s) !! k) →
  is_Some (cs_nodes (sy_cluster (handle_calls s cs).1) !! k).
Proof.
  intros Hcs Hk. unfold handle_calls.
  apply (fold_emit_ind (λ s, is_Some (cs_nodes (sy_cluster s) !! k))); [done|].
  intros s1 c Hc Hs1. apply handle_call_stays; [|done]. by intros ->.
Qed.

Lemma synced_new n : synced ∅ (newSyncer (NewState n).1).
Proof.
  split; simpl; [done|]. intros id Hne. rewrite lookup_singleton_ne by done. rewrite !lookup_empty. constructor.
Qed.

Lemma synced_wf m s id n :
  synced m s → id ≠ cs_localID (sy_cluster s) → cs_nodes (sy_cluster s) !! id = Some n → cn_ID n = id.
Proof.
  intros [_ Hs] Hne Hn. pose proof (Hs id Hne) as Hid0. rewrite Hn in Hid0.
  by inversion Hid0; simplify_eq.
Qed.

(** ** Properties *)

(** A peer the proxy may forward a request for endpoint [e] to. *)
Definition routable (p : peer) (e : string) : Prop :=
  p_left p = false ∧ p_unreachable p = false ∧
  addr_of (p_view p) proxyKey ≠ "" ∧ addr_of (p_view p) adminKey ≠ "" ∧
  ∃ v l, p_view p !! (endpointPrefix +:+ e) = Some v ∧ Atoi v = Some l ∧ (0 < l)%Z.

(** C11. The cluster mirrors the gossip: after any watcher calls that the gossip
    layer may make ([calls_ok]: about remote nodes it knows, with no address
    that changes), a remote node that has not left is in the cluster
    exactly once both its addresses are known, with the addresses, the
    endpoints and the status it gossips, and is pending before that; a node
    once in the cluster stays there, also when it leaves and then with the
    status of a left node, until it expires; one that left before both its
    addresses were known is in neither, nor is a node the gossip layer does
    not know. *)
Theorem cluster_mirrors_gossip n cs :
  let local := cs_localID (NewState n).1 in
  calls_ok local ∅ cs →
  let m := foldl watch_call ∅ cs in
  let s := (handle_calls (newSyncer (NewState n).1) cs).1 in
  ∀ id, id ≠ local →
    mirrors id (m !! id) (cs_nodes (sy_cluster s) !! id) (pendingNodes s !! id) ∧
    ∀ cs1 cs2, cs = cs1 ++ cs2 → OnExpired id ∉ cs2 →
      is_Some (cs_nodes (sy_cluster (handle_calls (newSyncer (NewState n).1) cs1).1) !! id) →
      is_Some (cs_nodes (sy_cluster s) !! id).
Proof.
  intros local Hok m s id Hid.
  destruct (handle_calls_synced cs ∅ (newSyncer (NewState n).1) (synced_new n) Hok) as [[_ Hs] Hl].
  split; [apply Hs; by rewrite Hl|]. intros cs1 cs2 Hcs Hexp Hin. unfold s. rewrite Hcs, handle_calls_app.
  by apply handle_calls_stays.
Qed.

(** Routing follows the gossip: in a cluster that mirrors the gossip, the
    node [LookupEndpoint] returns is a known, reachable peer that has not left
    and gossips a listener for the endpoint, with the proxy address it gossips;
    and when it returns none, no routable peer was added to the cluster. *)
Theorem routing_follows_gossip `{MapIter} m s e :
  synced m s → cluster_wf (sy_cluster s) →
  match LookupEndpoint (sy_cluster s) e with
  | Some n => ∃ p, m !! cn_ID n = Some p ∧ routable p e ∧ cn_ProxyAddr n = addr_of (p_view p) proxyKey
  | None => ∀ id p, m !! id = Some p → routable p e → cs_nodes (sy_cluster s) !! id = None
  end.
Proof.
  intros Hs Hwf. unfold LookupEndpoint.
  destruct (lookup_loop (sy_cluster s) e (map_range (cs_nodes (sy_cluster s))).*2) as [n|] eqn:Hl.
  - apply lookup_loop_Some in Hl as [[k Hk]%elem_of_values (Hne&Hst&Hes)].
    pose proof (cwf_ids _ Hwf _ _ Hk) as <-. pose proof (proj2 Hs _ Hne) as Hid0. rewrite Hk in Hid0.
    inversion Hid0 as [|p n' _ Hst' Hpa Haa Hpn Han Hends Em| |]; subst n'. exists p. split; [done|].
    assert (p_left p = false ∧ p_unreachable p = false) as [Hleft Hunr].
    { rewrite Hst in Hst'. unfold peer_status in Hst'. by destruct (p_left p), (p_unreachable p). }
    split; [|done]. split_and!; [done|done|congruence|congruence|].
    specialize (Hends e). destruct (cn_Endpoints n !! e) as [l|]; [|done].
    destruct (p_view p !! _) as [v|] eqn:Hv; [|done]. simpl in Hends. by exists v, l.
  - intros id p Hp (Hleft&Hunr&Hpa&Haa&v&l&Hv&Ha&Hlt).
    destruct (decide (id = cs_localID (sy_cluster s))) as [->|Hne].
    { destruct Hs as [Hlocal _]. congruence. }
    pose proof (proj2 Hs id Hne) as Hid0. rewrite Hp in Hid0.
    destruct (cs_nodes (sy_cluster s) !! id) as [n|] eqn:Hn; [|done]. exfalso.
    inversion Hid0 as [|p' n' Hid Hst Hpa' Haa' Hpn Han Hends Em| |]; subst p' n'.
    rewrite lookup_loop_None in Hl. apply (Hl n).
    { apply elem_of_values. by exists id. }
    unfold serves. rewrite Hends, Hv. simpl. rewrite Ha. split_and!; [congruence| |done].
    rewrite Hst. unfold peer_status. by rewrite Hleft, Hunr.
Qed.

(** ** Witnesses *)

#[local] Existing Instance canonical_iter.

Definition ex_calls : list watcher_call :=
  [OnJoin "n2"; OnUpsertKey "n2" proxyKey "10.0.0.2:8000"; OnUpsertKey "n2" (endpointPrefix +:+ "a") "2";
   OnUpsertKey "n2" adminKey "10.0.0.2:8002"; OnJoin "n3"; OnUnreachable "n3"].

Lemma ex_calls_ok : calls_ok "n1" ∅ ex_calls.
Proof.
  split; [by vm_compute|]. split; [split; [done|]; eexists; split; [by vm_compute|]; left; by split_and!; [left|..]|].
  split; [split; [done|]; eexists; split; [by vm_compute|]; right; by split; [|eexists; vm_compute]|].
  split; [split; [done|]; eexists; split; [by vm_compute|]; left; by split_and!; [right|..]|].
  split; [by vm_compute|]. split; [|done]. split; [done|]. eexists. split; by vm_compute.
Qed.

(** The node leaves after its addresses are known: it stays, with its status. *)
Definition ex_left_calls : list watcher_call := ex_calls ++ [OnLeave "n2"].

Lemma ex_left_calls_ok : calls_ok "n1" ∅ ex_left_calls.
Proof.
  assert (∀ cs1 cs2 m, calls_ok "n1" m cs1 → calls_ok "n1" (foldl watch_call m cs1) cs2 → calls_ok "n1" m (cs1 ++ cs2)) as Happ.
  { induction cs1 as [|c cs1 IH]; intros cs2 m; [done|]. intros [Hc Hcs1] Hcs2. split; [done|by apply IH]. }
  apply Happ; [apply ex_calls_ok|]. split; [|done]. split; [done|]. eexists. by vm_compute.
Qed.

Lemma cluster_mirrors_gossip_witness :
  ∃ node, cs_nodes (sy_cluster (handle_calls (newSyncer (NewState ex_local).1) ex_left_calls).1) !! "n2" = Some node ∧
    mirrors "n2" (foldl watch_call ∅ ex_left_calls !! "n2") (Some node)
      (pendingNodes (handle_calls (newSyncer (NewState ex_local).1) ex_left_calls).1 !! "n2") ∧
    cn_Status node = NodeStatusLeft.
Proof.
  destruct (cluster_mirrors_gossip ex_local ex_left_calls ex_left_calls_ok "n2" ltac:(done)) as [Hm Hstay].
  destruct (Hstay ex_calls [OnLeave "n2"] eq_refl) as [node Hnode].
  - by intros [?|?%not_elem_of_nil]%elem_of_cons.
  - eexists. by vm_compute.
  - exists node. split; [exact Hnode|]. rewrite Hnode in Hm. split; [exact Hm|].
    vm_compute in Hnode. injection Hnode as <-. reflexivity.
Defined.

Definition ex_synced : syncer := (handle_calls (newSyncer (NewState ex_local).1) ex_calls).1.

Lemma ex_synced_ok : synced (foldl watch_call ∅ ex_calls) ex_synced.
Proof. by apply (handle_calls_synced ex_calls ∅ (newSyncer (NewState ex_local).1) (synced_new _) ex_calls_ok). Qed.

Lemma ex_synced_wf : cluster_wf (sy_cluster ex_synced).
Proof.
  split.
  - intros id n Hn. destruct (decide (id = "n1")) as [->|Hne].
    + vm_compute in Hn. by injection Hn as <-.
    + eapply synced_wf; [apply ex_synced_ok|exact Hne|done].
  - eexists. split; [by vm_compute|done].
Qed.

Lemma routing_follows_gossip_witness :
  ∃ n p, LookupEndpoint (sy_cluster ex_synced) "a" = Some n ∧
    foldl watch_call ∅ ex_calls !! cn_ID n = Some p ∧ cn_ProxyAddr n = addr_of (p_view p) proxyKey.
Proof.
  pose proof (routing_follows_gossip _ ex_synced "a" ex_synced_ok ex_synced_wf) as Hr.
  destruct (LookupEndpoint (sy_cluster ex_synced) "a") as [n|] eqn:E.
  - destruct Hr as (p&Hp&_&Ha). exists n, p. split; [done|]. split; [exact Hp|exact Ha].
  - exfalso. by vm_compute in E.
Defined.
