(* ===== verification/Advertise.v ===== *)
(** * Advertising the local endpoints

    The cluster state, the syncer's callback and the gossip state together: a
    change of the local endpoints unlocks the cluster before it calls the
    subscribers, so as far as [State] goes the callback of one change may run
    concurrently with other changes.  A change whose callback runs before the
    next change keeps the gossip state right; interleaved callbacks may not.
    The program changes the endpoints under the manager's mutex, which is held
    until the callbacks have returned: [PikoNet] has the program's steps. *)

From S2P Require Import Prelude GoLib GossipState GossipReplica GossipMembership Cluster Syncer.
From stdpp Require Import relations.

(** ** The keys a node publishes *)

(** What the node publishes about itself. *)
Definition published (g : clusterState) : gmap string string :=
  default ∅ (view ∘ ns_Entries <$> nodes g !! localID g).

(** Invariant of the entries a node wrote: a deleted entry has an empty value. *)
Definition deleted_empty (es : gmap string Entry) : Prop :=
  ∀ k e, es !! k = Some e → e_Deleted e = true → e_Value e = "".

Definition gossip_ok (g : clusterState) : Prop :=
  ∃ O, nodes g !! localID g = Some O ∧ keys_ok (ns_Entries O) ∧ entries_ok (ns_Entries O) ∧
    deleted_empty (ns_Entries O).

Lemma upsertNode_view O key value :
  keys_ok (ns_Entries O) → entries_ok (ns_Entries O) → deleted_empty (ns_Entries O) →
  user_key key → value ≠ "" →
  ∃ O' effs, upsertNode key value O = Some (O', effs) ∧
    view (ns_Entries O') = <[key := value]> (view (ns_Entries O)) ∧
    keys_ok (ns_Entries O') ∧ entries_ok (ns_Entries O') ∧ deleted_empty (ns_Entries O').
Proof.
  intros Hk Hok Hd Hu Hv. unfold upsertNode. case_decide as Hsame.
  - eexists _, _. split; [done|]. split_and!; [|done..].
    apply fmap_Some in Hsame as (e&He&Hev). symmetry. apply insert_id. unfold view. rewrite lookup_omap, He. simpl.
    unfold visible. destruct (e_Internal e) eqn:HI.
    { apply (proj1 (proj1 (Hok _ _ He))) in HI. rewrite (Hk _ _ He) in HI. destruct Hu, HI; done. }
    destruct (e_Deleted e) eqn:HD; [|by rewrite Hev]. specialize (Hd _ _ He HD). congruence.
  - eexists _, _. split; [done|]. set (e := mkEntry _ _ _ _ _).
    assert (entry_ok e) as He by (by apply user_entry_ok).
    pose proof (view_insert (ns_Entries O) e Hk Hok He) as Hview. simpl in Hview.
    split_and!; [done|by apply put_entry_keys_ok|by apply put_entries_ok|].
    intros k x. simpl. rewrite lookup_insert. case_decide; [intros [= <-]; done|apply Hd].
Qed.

Lemma deleteNode_view O key :
  keys_ok (ns_Entries O) → entries_ok (ns_Entries O) → deleted_empty (ns_Entries O) → user_key key →
  ∃ O' effs, deleteNode key O = Some (O', effs) ∧
    view (ns_Entries O') = delete key (view (ns_Entries O)) ∧
    keys_ok (ns_Entries O') ∧ entries_ok (ns_Entries O') ∧ deleted_empty (ns_Entries O').
Proof.
  intros Hk Hok Hd Hu. unfold deleteNode. destruct (ns_Entries O !! key) as [x|] eqn:Hx.
  - pose proof (Hk _ _ Hx) as Hkey. destruct (e_Deleted x) eqn:HD.
    + eexists _, _. split; [done|]. split_and!; [|done..]. symmetry. apply delete_id.
      unfold view. rewrite lookup_omap, Hx. simpl. unfold visible. by rewrite HD, orb_true_r.
    + assert (e_Internal x = false) as HI.
      { apply not_true_is_false. intros HI. apply (proj1 (proj1 (Hok _ _ Hx))) in HI.
        rewrite Hkey in HI. destruct Hu, HI; done. }
      cbv zeta. rewrite Hkey, HI. eexists _, _. split; [done|].
      set (e := mkEntry _ _ _ _ _). assert (entry_ok e) as He by by apply user_entry_ok.
      pose proof (view_insert (ns_Entries O) e Hk Hok He) as Hview. simpl in Hview.
      split_and!.
      * exact Hview.
      * apply (put_entry_keys_ok e O Hk).
      * by apply (put_entries_ok e O Hok).
      * intros k y. simpl. rewrite lookup_insert. case_decide; [by intros [= <-]|apply Hd].
  - eexists _, _. split; [done|]. split_and!; [|done..]. symmetry. apply delete_id.
    unfold view. by rewrite lookup_omap, Hx.
Qed.

(** ** Gossiper calls on the gossip state *)

Definition gossip_call (g : clusterState) (c : gossiper_call) : option (clusterState * list effect) :=
  match c with
  | UpsertLocalCall key value => UpsertLocal g key value
  | DeleteLocalCall key => DeleteLocal g key
  end.

(** What a call means for the published keys. *)
Definition publish_call (v : gmap string string) (c : gossiper_call) : gmap string string :=
  match c with
  | UpsertLocalCall key value => <[key := value]> v
  | DeleteLocalCall key => delete key v
  end.

Definition gossiper_call_ok (c : gossiper_call) : Prop :=
  match c with
  | UpsertLocalCall key value => user_key key ∧ value ≠ ""
  | DeleteLocalCall key => user_key key
  end.

Lemma gossip_call_publishes g c :
  gossip_ok g → gossiper_call_ok c →
  ∃ g' effs, gossip_call g c = Some (g', effs) ∧ gossip_ok g' ∧ localID g' = localID g ∧
    published g' = publish_call (published g) c.
Proof.
  intros (O&HO&Hk&Hok&Hd) Hc.
  assert (∃ O' effs, (match c with UpsertLocalCall key value => upsertNode key value | DeleteLocalCall key => deleteNode key end) O
      = Some (O', effs) ∧ view (ns_Entries O') = publish_call (view (ns_Entries O)) c ∧
      keys_ok (ns_Entries O') ∧ entries_ok (ns_Entries O') ∧ deleted_empty (ns_Entries O')) as (O'&effs&Hrun&Hv&Hinv).
  { destruct c; [destruct Hc; by apply upsertNode_view|by apply deleteNode_view]. }
  exists (set_node (localID g) O' g), effs. split_and!.
  - destruct c; simpl; unfold UpsertLocal, DeleteLocal, with_local; rewrite HO; simpl; by rewrite Hrun.
  - exists O'. simpl. rewrite lookup_insert_eq. done.
  - done.
  - unfold published. simpl. rewrite HO, lookup_insert_eq. done.
Qed.

Lemma endpoint_user_key e : user_key (endpointPrefix +:+ e).
Proof. split; intros [=]. Qed.

(** ** One change at a time *)

(** A change of the local endpoints with its callback. *)
Definition change_and_publish (op : endpoint_op) (s : syncer) (g : clusterState) :
    option (syncer * clusterState) :=
  '(c, effs) ← run_endpoint op (sy_cluster s);
  let s' := mkSyncer (pendingNodes s) c in
  foldl (λ sg eff, '(s, g) ← sg;
    match eff with
    | CallLocal _ e =>
        cs ← onLocalEndpointUpdate s e;
        g' ← foldl (λ og c, g ← og; fst <$> gossip_call g c) (Some g) cs;
        Some (s, g')
    | _ => Some (s, g)
    end) (Some (s', g)) effs.

Fixpoint changes_and_publish (ops : list endpoint_op) (s : syncer) (g : clusterState) :
    option (syncer * clusterState) :=
  match ops with
  | [] => Some (s, g)
  | op :: ops' => '(s1, g1) ← change_and_publish op s g; changes_and_publish ops' s1 g1
  end.

(** The published endpoints are the local ones. *)
Definition advertised (c : string → nat) (g : clusterState) : Prop :=
  ∀ e, published g !! (endpointPrefix +:+ e) =
    if decide (c e = 0) then None else Some (Itoa (Z.of_nat (c e))).

Lemma onLocalEndpointUpdate_calls s e c :
  counts (sy_cluster s) c →
  onLocalEndpointUpdate s e = Some [if decide (c e = 0) then DeleteLocalCall (endpointPrefix +:+ e)
                                    else UpsertLocalCall (endpointPrefix +:+ e) (Itoa (Z.of_nat (c e)))].
Proof.
  intros (n&Hn&Hc). unfold onLocalEndpointUpdate, LocalEndpointListeners. rewrite Hn. simpl. rewrite Hc.
  destruct (decide (c e = 0)) as [H0|H0]; simpl; [done|]. by rewrite decide_True by lia.
Qed.

Lemma change_and_publish_ok op s g c :
  counts (sy_cluster s) c → (∀ e, Z.of_nat (c e) < 2 ^ 63 - 1)%Z →
  localEndpointSubscribers (sy_cluster s) = [syncer_callback] → gossip_ok g → advertised c g →
  ∃ s' g', change_and_publish op s g = Some (s', g') ∧ counts (sy_cluster s') (count_op c op) ∧
    localEndpointSubscribers (sy_cluster s') = [syncer_callback] ∧ gossip_ok g' ∧
    advertised (count_op c op) g'.
Proof.
  intros Hc Hb Hsub Hg Ha. destruct (run_endpoint_counts (sy_cluster s) c op Hc Hb) as (cs'&Hrun&Hc'&_&Hsub').
  unfold change_and_publish. rewrite Hrun. cbn [mbind option_bind].
  unfold call_local. rewrite Hsub. set (s' := mkSyncer _ cs').
  assert (changed c op = [] ∧ (∀ x, count_op c op x = c x) ∨
    ∃ e, changed c op = [e] ∧ ∀ x, x ≠ e → count_op c op x = c x) as [[-> Heq]|(e&->&Hother)].
  { destruct op as [e|e]; simpl.
    - right. exists e. split; [done|]. intros x Hx. by rewrite decide_False.
    - case_decide as H0; [left|right].
      + (* a removal without listeners changes nothing *)
        split; [done|]. intros x. case_decide; [subst; lia|done].
      + exists e. split; [done|]. intros x Hx. by rewrite decide_False. }
  { exists s', g. split_and!; try done; [simpl; congruence|]. intros x. rewrite Heq. apply Ha. }
  cbn [list_bind list_fmap mbind fmap app foldl option_bind].
  rewrite (onLocalEndpointUpdate_calls s' e (count_op c op) Hc'). cbn [mbind option_bind foldl].
  destruct (gossip_call_publishes g (if decide (count_op c op e = 0) then DeleteLocalCall (endpointPrefix +:+ e)
    else UpsertLocalCall (endpointPrefix +:+ e) (Itoa (Z.of_nat (count_op c op e)))) Hg) as (g'&effs&->&Hg'&Hl&Hp).
  { pose proof (endpoint_user_key e). case_decide; [done|]. split; [done|]. apply Itoa_nonempty.
    destruct op; simpl; unfold is_i64; specialize (Hb e); case_decide; lia. }
  cbn [fmap option_fmap option_map fst mbind option_bind]. exists s', g'. split_and!; try done; [simpl; congruence|].
  intros x. rewrite Hp. destruct (decide (x = e)) as [->|Hne].
  - case_decide; simpl; [apply lookup_delete_eq|apply lookup_insert_eq].
  - rewrite (Hother x) by done. specialize (Ha x).
    assert (endpointPrefix +:+ e ≠ endpointPrefix +:+ x) by (intros ?%endpointPrefix_inj; congruence).
    destruct (decide (count_op c op e = 0)); simpl; rewrite ?lookup_delete_ne, ?lookup_insert_ne by done; exact Ha.
Qed.

(** ** Interleaved changes

    The state of a world with callbacks in flight: a callback that has not read
    the listeners yet, or one that is about to make its calls. *)

Inductive callback :=
  | CallbackRead (endpointID : string)
  | CallbackCalls (cs : list gossiper_call).

Record world := mkWorld {
  w_syncer : syncer;
  w_gossip : clusterState;
  w_callbacks : list callback;
}.

Inductive world_step : world → world → Prop :=
  | step_change op s g cbs c effs :
      run_endpoint op (sy_cluster s) = Some (c, effs) →
      world_step (mkWorld s g cbs)
        (mkWorld (mkSyncer (pendingNodes s) c) g
           (cbs ++ omap (λ eff, match eff with CallLocal _ e => Some (CallbackRead e) | _ => None end) effs))
  | step_read s g cbs1 e cbs2 cs :
      onLocalEndpointUpdate s e = Some cs →
      world_step (mkWorld s g (cbs1 ++ CallbackRead e :: cbs2)) (mkWorld s g (cbs1 ++ CallbackCalls cs :: cbs2))
  | step_call s g cbs1 c cs cbs2 g' effs :
      gossip_call g c = Some (g', effs) →
      world_step (mkWorld s g (cbs1 ++ CallbackCalls (c :: cs) :: cbs2))
        (mkWorld s g' (cbs1 ++ CallbackCalls cs :: cbs2))
  | step_done s g cbs1 cbs2 :
      world_step (mkWorld s g (cbs1 ++ CallbackCalls [] :: cbs2)) (mkWorld s g (cbs1 ++ cbs2)).

(** ** Properties *)

(** The local endpoints are advertised: when every change of the local
    endpoints is followed by its callback, after any sequence of changes the
    node publishes an [endpoint:] key with the number of listeners for every
    endpoint that has some, and for no other, and nothing panics. *)
Theorem local_endpoints_advertised ops s g :
  counts (sy_cluster s) (λ _, 0) → localEndpointSubscribers (sy_cluster s) = [syncer_callback] →
  gossip_ok g → advertised (λ _, 0) g → (Z.of_nat (length ops) < 2 ^ 63 - 1)%Z →
  ∃ s' g', changes_and_publish ops s g = Some (s', g') ∧
    ∀ e, published g' !! (endpointPrefix +:+ e) =
      (l ← LocalEndpointListeners (sy_cluster s') e; if decide (l = 0%Z) then None else Some (Itoa l)).
Proof.
  intros Hc Hsub Hg Ha Hlen.
  assert (∀ ops s g c m, counts (sy_cluster s) c → (∀ e, c e ≤ m) → (Z.of_nat (m + length ops) < 2 ^ 63 - 1)%Z →
    localEndpointSubscribers (sy_cluster s) = [syncer_callback] → gossip_ok g → advertised c g →
    ∃ s' g', changes_and_publish ops s g = Some (s', g') ∧ counts (sy_cluster s') (foldl count_op c ops) ∧
      advertised (foldl count_op c ops) g') as Hloop.
  { clear. intros ops. induction ops as [|op ops IH]; intros s g c m Hc Hm Hlen Hsub Hg Ha; simpl in *.
    { exists s, g. done. }
    destruct (change_and_publish_ok op s g c Hc) as (s1&g1&->&Hc1&Hs1&Hg1&Ha1);
      [intros e; specialize (Hm e); lia|done..|]. simpl.
    apply (IH s1 g1 (count_op c op) (S m)); [done|by apply count_op_bound|lia|done..]. }
  destruct (Hloop ops s g (λ _, 0) 0 Hc) as (s'&g'&Hrun&(n&Hn&Hes)&Hadv); [done|done|done|done|done|].
  exists s', g'. split; [done|]. intros e. rewrite Hadv. unfold LocalEndpointListeners. rewrite Hn. simpl.
  rewrite Hes. destruct (decide (foldl count_op (λ _, 0) ops e = 0)) as [H0|H0]; simpl; [done|].
  by rewrite decide_False by lia.
Qed.

Definition ex_syncer : syncer :=
  mkSyncer ∅ (OnLocalEndpointUpdate (NewState (mkCNode "n1" "" "10.0.0.1:8000" "10.0.0.1:8002" ∅)).1 syncer_callback).

Definition ex_gossip : clusterState := newClusterState "n1" "10.0.0.1:8003".

Lemma ex_gossip_ok : gossip_ok ex_gossip.
Proof.
  exists (newNode "n1" "10.0.0.1:8003"). split; [by vm_compute|].
  split_and!; intros k e; simpl; by rewrite lookup_empty.
Qed.

(** The state and the gossip after some steps of the interleaving below. *)
Definition after_call (c : gossiper_call) (g : clusterState) : clusterState :=
  match gossip_call g c with Some (g', _) => g' | None => g end.

Lemma step_call_after s g cbs1 c cs cbs2 :
  is_Some (gossip_call g c) →
  world_step (mkWorld s g (cbs1 ++ CallbackCalls (c :: cs) :: cbs2))
    (mkWorld s (after_call c g) (cbs1 ++ CallbackCalls cs :: cbs2)).
Proof. intros [[g' w] Hg]. unfold after_call. rewrite Hg. by eapply step_call. Qed.

Definition after_op (op : endpoint_op) (s : syncer) : syncer :=
  match run_endpoint op (sy_cluster s) with
  | Some (c, _) => mkSyncer (pendingNodes s) c
  | None => s
  end.

Lemma step_change_after op s g cbs e :
  run_endpoint op (sy_cluster s) = Some (sy_cluster (after_op op s), [CallLocal syncer_callback e]) →
  pendingNodes (after_op op s) = pendingNodes s →
  world_step (mkWorld s g cbs) (mkWorld (after_op op s) g (cbs ++ [CallbackRead e])).
Proof.
  intros Hrun Hp. pose proof (step_change op s g cbs _ _ Hrun) as Hstep. simpl in Hstep.
  rewrite <-Hp in Hstep. by destruct (after_op op s).
Qed.

(** Interleaved callbacks could leave a stale advertisement: when an endpoint
    is added and removed, and the callback of the addition read the listeners
    before the removal but makes its call after the callback of the removal,
    the node ends with no listener and no callback in flight, and still
    publishes one.  The cluster's own mutex does not exclude this; the
    manager's does ([endpoints_advertised]). *)
Theorem stale_advertisement_reachable :
  ∃ w, rtc world_step (mkWorld ex_syncer ex_gossip []) w ∧ w_callbacks w = [] ∧
    LocalEndpointListeners (sy_cluster (w_syncer w)) "a" = Some 0%Z ∧
    published (w_gossip w) !! (endpointPrefix +:+ "a") = Some "1".
Proof.
  set (add := UpsertLocalCall (endpointPrefix +:+ "a") "1").
  set (del := DeleteLocalCall (endpointPrefix +:+ "a")).
  set (s1 := after_op (EAdd "a") ex_syncer). set (s2 := after_op (ERemove "a") s1).
  set (g1 := after_call del ex_gossip). set (g2 := after_call add g1).
  exists (mkWorld s2 g2 []). split; [|by vm_compute].
  eapply (rtc_l _ _ (mkWorld s1 ex_gossip [CallbackRead "a"])).
  { by apply (step_change_after (EAdd "a") ex_syncer ex_gossip [] "a"); vm_compute. }
  eapply (rtc_l _ _ (mkWorld s1 ex_gossip [CallbackCalls [add]])).
  { by eapply (step_read s1 ex_gossip [] "a" []). }
  eapply (rtc_l _ _ (mkWorld s2 ex_gossip [CallbackCalls [add]; CallbackRead "a"])).
  { by apply (step_change_after (ERemove "a") s1 ex_gossip [CallbackCalls [add]] "a"); vm_compute. }
  eapply (rtc_l _ _ (mkWorld s2 ex_gossip [CallbackCalls [add]; CallbackCalls [del]])).
  { by eapply (step_read s2 ex_gossip [CallbackCalls [add]] "a" []). }
  eapply (rtc_l _ _ (mkWorld s2 g1 [CallbackCalls [add]; CallbackCalls []])).
  { apply (step_call_after s2 ex_gossip [CallbackCalls [add]] del [] []). by eexists. }
  eapply (rtc_l _ _ (mkWorld s2 g1 [CallbackCalls [add]])).
  { apply (step_done s2 g1 [CallbackCalls [add]] []). }
  eapply (rtc_l _ _ (mkWorld s2 g2 [CallbackCalls []])).
  { apply (step_call_after s2 g1 [] add [] []). by eexists. }
  eapply rtc_l; [apply (step_done s2 g2 [] [])|]. apply rtc_refl.
Qed.

(** ** Witnesses *)

Definition ex_changes : list endpoint_op := [EAdd "a"; EAdd "a"; EAdd "b"; ERemove "a"; ERemove "b"].

Lemma ex_changes_listeners :
  (sg ← changes_and_publish ex_changes ex_syncer ex_gossip; LocalEndpointListeners (sy_cluster sg.1) "a") = Some 1%Z.
Proof. by vm_compute. Qed.

Lemma local_endpoints_advertised_witness :
  ∃ s' g', changes_and_publish ex_changes ex_syncer ex_gossip = Some (s', g') ∧
    published g' !! (endpointPrefix +:+ "a") = Some "1".
Proof.
  destruct (local_endpoints_advertised ex_changes ex_syncer ex_gossip) as (s'&g'&Hrun&Hp).
  - eexists. split; [by vm_compute|]. done.
  - done.
  - apply ex_gossip_ok.
  - intros e. done.
  - done.
  - exists s', g'. split; [exact Hrun|]. rewrite Hp.
    pose proof ex_changes_listeners as Hl. rewrite Hrun in Hl. simpl in Hl. by rewrite Hl.
Defined.
