(* ===== verification/SyncerGossip.v ===== *)
(** * The syncer over the gossip state

    What the calls of [clusterState] look like when every entry is one a Piko
    node publishes, and that a syncer that handles them holds what the gossip
    state knows.  The syncer ignores the deletion of a key that is not an
    endpoint: it keeps an address the gossip state lost for a while (a
    compaction can reach a node before the rewritten address does), so it
    mirrors the peers up to such addresses ([sticky]). *)

From S2P Require Import Prelude GoLib GossipState GossipReplica GossipMembership Protocol GossipExchange GossipNet Cluster Syncer.

(** ** Definitions *)

(** What a node is configured with: where it gossips and the addresses it
    advertises. *)
Record node_conf := mkNodeConf {
  nc_gossip : string;
  nc_proxy : string;
  nc_admin : string;
}.

Section conf.
Context (conf : string → node_conf).

(** The keys node [x] publishes, with their values. *)
Definition conf_key (x key value : string) : Prop :=
  key = proxyKey ∧ value = nc_proxy (conf x) ∨ key = adminKey ∧ value = nc_admin (conf x) ∨
  HasPrefix key endpointPrefix = true ∧ is_Some (Atoi value).

Definition conforming (x : string) (e : Entry) : Prop :=
  e_Internal e = false → e_Deleted e = false → conf_key x (e_Key e) (e_Value e).

Definition conforming_node (x : string) (st : nodeState) : Prop :=
  ∀ k e, ns_Entries st !! k = Some e → conforming x e.

Definition conforming_state (s : clusterState) : Prop :=
  ∀ x st, nodes s !! x = Some st → conforming_node x st.

Definition conforming_delta (dl : delta) : Prop :=
  ∀ de e, de ∈ dl → e ∈ dl_Entries de → conforming (dl_ID de) e.

(** A call that agrees with the known peers. *)
Definition fits (local : string) (m : gmap string peer) (c : watcher_call) : Prop :=
  match c with
  | OnJoin id => id ≠ local ∧ m !! id = None
  | OnLeave id => id ≠ local ∧ is_Some (m !! id)
  | OnReachable id | OnUnreachable id => id ≠ local ∧ ∃ p, m !! id = Some p ∧ p_left p = false
  | OnUpsertKey id key value => id ≠ local ∧ is_Some (m !! id) ∧ conf_key id key value
  | OnDeleteKey id _ => id ≠ local ∧ is_Some (m !! id)
  | OnExpired id => id ≠ local ∧ is_Some (m !! id)
  end.

Fixpoint fits_all (local : string) (m : gmap string peer) (cs : list watcher_call) : Prop :=
  match cs with
  | [] => True
  | c :: cs' => fits local m c ∧ fits_all local (watch_call m c) cs'
  end.

(** [p'] is peer [p] of node [x] up to addresses that [p] lost. *)
Record sticky_peer (x : string) (p p' : peer) : Prop := {
  st_left : p_left p' = p_left p;
  st_unreachable : p_unreachable p' = p_unreachable p;
  st_endpoint : ∀ k, HasPrefix k endpointPrefix = true → p_view p' !! k = p_view p !! k;
  st_addr : ∀ k v, k = proxyKey ∨ k = adminKey → p_view p !! k = Some v → p_view p' !! k = Some v;
  st_proxy : ∀ v, p_view p' !! proxyKey = Some v → v = nc_proxy (conf x);
  st_admin : ∀ v, p_view p' !! adminKey = Some v → v = nc_admin (conf x);
}.

Definition sticky (m m' : gmap string peer) : Prop :=
  ∀ x, option_Forall2 (sticky_peer x) (m !! x) (m' !! x).

(** ** The handlers keep the syncer in step *)

Lemma fits_app local m cs1 cs2 :
  fits_all local m (cs1 ++ cs2) ↔ fits_all local m cs1 ∧ fits_all local (foldl watch_call m cs1) cs2.
Proof. revert m. induction cs1 as [|c cs1 IH]; intros m; simpl; [tauto|]. rewrite IH. tauto. Qed.

Lemma sticky_Some m m' x p : sticky m m' → m !! x = Some p → ∃ p', m' !! x = Some p' ∧ sticky_peer x p p'.
Proof. intros Hs Hp. specialize (Hs x). rewrite Hp in Hs. inversion Hs. eauto. Qed.

Lemma sticky_None m m' x : sticky m m' → m !! x = None → m' !! x = None.
Proof. intros Hs Hp. specialize (Hs x). rewrite Hp in Hs. by inversion Hs. Qed.

Lemma sticky_alter m m' id f f' :
  sticky m m' → (∀ p p', sticky_peer id p p' → sticky_peer id (f p) (f' p')) →
  sticky (alter f id m) (alter f' id m').
Proof.
  intros Hs Hf x. specialize (Hs x). destruct (decide (x = id)) as [->|Hne].
  - rewrite !lookup_alter_eq. destruct Hs; simpl; constructor. by apply Hf.
  - by rewrite !lookup_alter_ne.
Qed.

Lemma sticky_alter_l m m' id f :
  sticky m m' → (∀ p p', sticky_peer id p p' → sticky_peer id (f p) p') → sticky (alter f id m) m'.
Proof.
  intros Hs Hf x. specialize (Hs x). destruct (decide (x = id)) as [->|Hne].
  - rewrite !lookup_alter_eq. destruct Hs; simpl; constructor. by apply Hf.
  - by rewrite !lookup_alter_ne.
Qed.

Lemma sticky_peer_view x p p' v v' :
  sticky_peer x p p' → sticky_peer x (mkPeer v (p_left p) (p_unreachable p)) (mkPeer v' (p_left p') (p_unreachable p')) ↔
  (∀ k, HasPrefix k endpointPrefix = true → v' !! k = v !! k) ∧
  (∀ k w, k = proxyKey ∨ k = adminKey → v !! k = Some w → v' !! k = Some w) ∧
  (∀ w, v' !! proxyKey = Some w → w = nc_proxy (conf x)) ∧ (∀ w, v' !! adminKey = Some w → w = nc_admin (conf x)).
Proof. intros [? ? _ _ _ _]. split; [by intros []|]. by intros (?&?&?&?). Qed.

Lemma sticky_upsert x p p' key value :
  sticky_peer x p p' → conf_key x key value →
  sticky_peer x (mkPeer (<[key := value]> (p_view p)) (p_left p) (p_unreachable p))
    (mkPeer (<[key := value]> (p_view p')) (p_left p') (p_unreachable p')).
Proof.
  intros Hp Hk. apply sticky_peer_view; [done|]. destruct Hp as [_ _ He Ha Hpr Had].
  split_and!.
  - intros k Hpre. rewrite !lookup_insert. case_decide; [done|by apply He].
  - intros k w Hkk. rewrite !lookup_insert. case_decide; [done|by apply Ha].
  - intros w. rewrite lookup_insert. case_decide as Hkp; [|apply Hpr]. intros [= <-]. rewrite Hkp in Hk.
    by destruct Hk as [[_ ->]|[[[=] _]|[[=] _]]].
  - intros w. rewrite lookup_insert. case_decide as Hkp; [|apply Had]. intros [= <-]. rewrite Hkp in Hk.
    by destruct Hk as [[[=] _]|[[_ ->]|[[=] _]]].
Qed.

Lemma sticky_delete x p p' key :
  sticky_peer x p p' →
  sticky_peer x (mkPeer (delete key (p_view p)) (p_left p) (p_unreachable p))
    (mkPeer (delete key (p_view p')) (p_left p') (p_unreachable p')).
Proof.
  intros Hp. apply sticky_peer_view; [done|]. destruct Hp as [_ _ He Ha Hpr Had]. split_and!.
  - intros k Hpre. rewrite !lookup_delete. case_decide; [done|by apply He].
  - intros k w Hkk. rewrite !lookup_delete. case_decide; [done|by apply Ha].
  - intros w. rewrite lookup_delete. by case_decide; [|apply Hpr].
  - intros w. rewrite lookup_delete. by case_decide; [|apply Had].
Qed.

(** The gossip state lost an address, which the syncer keeps. *)
Lemma sticky_lose x p p' key :
  sticky_peer x p p' → HasPrefix key endpointPrefix = false →
  sticky_peer x (mkPeer (delete key (p_view p)) (p_left p) (p_unreachable p)) p'.
Proof.
  intros [Hl Hu He Ha Hpr Had] Hkey. split; simpl; try done.
  - intros k Hpre. rewrite lookup_delete_ne; [by apply He|]. intros ->. congruence.
  - intros k w Hkk [_ Hv]%lookup_delete_Some. by apply Ha.
Qed.

Context (conf_ok : ∀ x, nc_proxy (conf x) ≠ "" ∧ nc_admin (conf x) ≠ "").

Lemma conf_key_ok x p p' key value :
  sticky_peer x p p' → conf_key x key value → key_ok (p_view p') key value.
Proof using conf_ok.
  intros Hp. destruct (conf_ok x) as [? ?]. intros [[-> ->]|[[-> ->]|[? ?]]]; [left..|by right].
  - split_and!; [by left|done|]. by apply (st_proxy _ _ _ Hp).
  - split_and!; [by right|done|]. by apply (st_admin _ _ _ Hp).
Qed.

Lemma handle_call_sticky m m' s c :
  Syncer.synced m' s → sticky m m' → fits (cs_localID (sy_cluster s)) m c →
  ∃ m'', Syncer.synced m'' (handle_call s c).1 ∧ sticky (watch_call m c) m''.
Proof using conf_ok.
  intros Hs Hst Hf.
  assert (∀ id p, m !! id = Some p → is_Some (m' !! id)) as Hknown.
  { intros id p Hp. by destruct (sticky_Some _ _ _ _ Hst Hp) as (?&?&_). }
  assert (call_ok (cs_localID (sy_cluster s)) m' c → sticky (watch_call m c) (watch_call m' c) →
    ∃ m'', Syncer.synced m'' (handle_call s c).1 ∧ sticky (watch_call m c) m'') as Hboth.
  { intros Hok Hw. exists (watch_call m' c). split; [by apply handle_call_synced|done]. }
  destruct c as [id|id|id|id|id key value|id key|id]; simpl in Hf.
  - destruct Hf. apply Hboth; [split; [done|by eapply sticky_None]|].
    intros x. simpl. destruct (decide (x = id)) as [->|Hne]; [|by rewrite !lookup_insert_ne].
    rewrite !lookup_insert_eq. constructor. split; try done; simpl; intros *; by rewrite ?lookup_empty.
  - destruct Hf as [? [p Hp]]. apply Hboth; [split; eauto|].
    apply sticky_alter; [done|]. intros ?? []. by split.
  - destruct Hf as (?&p&Hp&Hl). destruct (sticky_Some _ _ _ _ Hst Hp) as (p'&Hp'&[]).
    apply Hboth; [split; [done|]; exists p'; split; [done|congruence]|].
    apply sticky_alter; [done|]. intros ?? []. by split.
  - destruct Hf as (?&p&Hp&Hl). destruct (sticky_Some _ _ _ _ Hst Hp) as (p'&Hp'&[]).
    apply Hboth; [split; [done|]; exists p'; split; [done|congruence]|].
    apply sticky_alter; [done|]. intros ?? []. by split.
  - destruct Hf as (?&[p Hp]&Hk). destruct (sticky_Some _ _ _ _ Hst Hp) as (p'&Hp'&Hpp).
    apply Hboth; [split; [done|]; exists p'; split; [done|]; by eapply conf_key_ok|].
    apply sticky_alter; [done|]. intros ???. by apply sticky_upsert.
  - destruct Hf as [Hne [p Hp]]. destruct (HasPrefix key endpointPrefix) eqn:Hpre.
    + apply Hboth; [split_and!; eauto|]. apply sticky_alter; [done|]. intros ??. apply sticky_delete.
    + exists m'. simpl. unfold syncer_OnDeleteKey. rewrite decide_False, Hpre by done. split; [done|].
      apply sticky_alter_l; [done|]. intros ???. by apply sticky_lose.
  - destruct Hf as [Hne [p Hp]]. apply Hboth; [split; eauto|].
    intros x. simpl. destruct (decide (x = id)) as [->|]; [rewrite !lookup_delete_eq; constructor|].
    by rewrite !lookup_delete_ne.
Qed.

Lemma handle_calls_sticky cs m m' s :
  Syncer.synced m' s → sticky m m' → fits_all (cs_localID (sy_cluster s)) m cs →
  ∃ m'', Syncer.synced m'' (handle_calls s cs).1 ∧ sticky (foldl watch_call m cs) m''.
Proof using conf_ok.
  unfold handle_calls. revert m m' s. induction cs as [|c cs IH]; intros m m' s Hs Hst Hf; [by exists m'|].
  destruct Hf as [Hc Hf]. destruct (handle_call_sticky m m' s c Hs Hst Hc) as (m1&Hs1&Hst1).
  rewrite fold_emit_fst. simpl. rewrite <-fold_emit_fst.
  eapply IH; [exact Hs1|exact Hst1|]. by rewrite handle_call_local.
Qed.
End conf.

(** ** The handlers leave the local node and the subscribers alone *)

Record keeps_local (c c' : State) : Prop := {
  kl_id : cs_localID c' = cs_localID c;
  kl_node : cs_nodes c' !! cs_localID c = cs_nodes c !! cs_localID c;
  kl_subscribers : localEndpointSubscribers c' = localEndpointSubscribers c;
}.

Lemma keeps_refl c : keeps_local c c.
Proof. done. Qed.

Lemma keeps_trans c1 c2 c3 : keeps_local c1 c2 → keeps_local c2 c3 → keeps_local c1 c3.
Proof. intros [E1 N1 S1] [E2 N2 S2]. split; rewrite ?E1 in *; congruence. Qed.

Lemma keeps_set_cnode c id n : id ≠ cs_localID c → keeps_local c (set_cnode id n c).
Proof. intros Hne. split; [done| |done]. simpl. by rewrite lookup_insert_ne. Qed.

Lemma promote_keeps s id n : keeps_local (sy_cluster s) (sy_cluster (promote s id n).1).
Proof.
  unfold promote, AddNode. case_decide; [|apply keeps_refl]. case_decide; [apply keeps_refl|].
  simpl. by apply keeps_set_cnode.
Qed.

Lemma upsert_pending_keeps s id key value :
  keeps_local (sy_cluster s) (sy_cluster (upsert_pending s id key value).1).
Proof.
  unfold upsert_pending. destruct (pendingNodes s !! id); [|apply keeps_refl].
  repeat (case_decide; [apply promote_keeps|]).
  destruct (HasPrefix _ _); [|apply keeps_refl]. destruct (Atoi _); [apply promote_keeps|apply keeps_refl].
Qed.

Lemma update_status_keeps s id st : keeps_local (sy_cluster s) (sy_cluster (update_status s id st).1).
Proof.
  unfold update_status. case_decide; [apply keeps_refl|]. unfold UpdateRemoteStatus. rewrite decide_False by done.
  destruct (cs_nodes _ !! id); simpl; [by apply keeps_set_cnode|]. by destruct (pendingNodes s !! id).
Qed.

Lemma handle_call_keeps s c : keeps_local (sy_cluster s) (sy_cluster (handle_call s c).1).
Proof.
  destruct c as [id|id|id|id|id key value|id key|id]; simpl.
  - unfold syncer_OnJoin. case_decide; [apply keeps_refl|]. destruct (State_Node _ _); [done|].
    by destruct (pendingNodes s !! id).
  - unfold syncer_OnLeave. case_decide; [apply keeps_refl|]. unfold UpdateRemoteStatus. rewrite decide_False by done.
    destruct (cs_nodes _ !! id); simpl; [by apply keeps_set_cnode|done].
  - apply update_status_keeps.
  - apply update_status_keeps.
  - unfold syncer_OnUpsertKey. case_decide; [apply keeps_refl|]. case_decide; [apply keeps_refl|].
    destruct (HasPrefix _ _); [|apply upsert_pending_keeps]. destruct (Atoi value); [|apply keeps_refl].
    unfold UpdateRemoteEndpoint, updateRemoteEndpointLocked. rewrite decide_False by done.
    destruct (cs_nodes _ !! id); simpl; [by apply keeps_set_cnode|apply upsert_pending_keeps].
  - unfold syncer_OnDeleteKey. case_decide; [apply keeps_refl|]. destruct (HasPrefix _ _); [|apply keeps_refl]. simpl.
    unfold RemoveRemoteEndpoint, removeRemoteEndpointLocked. rewrite decide_False by done.
    destruct (cs_nodes _ !! id); simpl; [by apply keeps_set_cnode|]. by destruct (pendingNodes s !! id).
  - unfold syncer_OnExpired. case_decide; [apply keeps_refl|]. unfold RemoveNode. rewrite decide_False by done.
    destruct (cs_nodes _ !! id); simpl; [|done]. split; [done| |done]. simpl. by rewrite lookup_delete_ne.
Qed.

Lemma handle_calls_keeps cs s : keeps_local (sy_cluster s) (sy_cluster (handle_calls s cs).1).
Proof.
  apply (fold_emit_ind (λ s1, keeps_local (sy_cluster s) (sy_cluster s1))); [apply keeps_refl|].
  intros s1 c _ Hs. eapply keeps_trans; [exact Hs|apply handle_call_keeps].
Qed.

(** A synced syncer keeps the cluster well formed. *)
Lemma synced_cluster_wf m s c :
  Syncer.synced m s → cluster_wf c → keeps_local c (sy_cluster s) → cluster_wf (sy_cluster s).
Proof.
  intros Hs [Hids Hloc] [El En _]. split.
  - intros id n Hn. destruct (decide (id = cs_localID (sy_cluster s))) as [->|Hne].
    + apply Hids. rewrite El, En in Hn. by rewrite El.
    + by eapply synced_wf.
  - by rewrite El, En.
Qed.

(** ** The calls of the gossip operations *)

Section operations.
Context `{MapIter} (conf : string → node_conf).

(** What an operation guarantees when what it is given conforms. *)
Definition well_called (s s' : clusterState) (effs : list effect) : Prop :=
  state_wf s → conforming_state conf s →
  tracked s s' effs ∧ conforming_state conf s' ∧ fits_all conf (localID s) (peers s) (calls effs).

Lemma well_called_refl s : well_called s s [].
Proof. intros _ ?. split_and!; [apply tracked_refl|done|done]. Qed.

Lemma well_called_trans s1 s2 s3 w1 w2 :
  well_called s1 s2 w1 → well_called s2 s3 w2 → well_called s1 s3 (w1 ++ w2).
Proof.
  intros H1 H2 Hw Hc. destruct (H1 Hw Hc) as (T1&C1&F1). destruct (T1 Hw) as (E1&W1&P1).
  destruct (H2 W1 C1) as (T2&C2&F2). split_and!; [by eapply tracked_trans|done|].
  rewrite calls_app. apply fits_app. split; [done|]. unfold watch in P1. by rewrite P1, <-E1.
Qed.

(** The calls of one delta entry. *)
Definition entry_fits (id : string) (c : watcher_call) : Prop :=
  match c with
  | OnLeave id' | OnDeleteKey id' _ => id' = id
  | OnUpsertKey id' key value => id' = id ∧ conf_key conf id key value
  | _ => False
  end.

Lemma entry_fits_all local m id cs :
  id ≠ local → is_Some (m !! id) → Forall (entry_fits id) cs → fits_all conf local m cs.
Proof.
  intros Hne. revert m. induction cs as [|c cs IH]; intros m Hm Hcs; [done|].
  apply Forall_cons in Hcs as [Hc Hcs]. split.
  - destruct c; simpl in *; try done; [by subst|destruct Hc as [-> ?]; done|by subst].
  - apply IH; [|done]. destruct c; simpl in *; try done; destruct_and?; subst;
      rewrite lookup_alter_eq; by apply fmap_is_Some.
Qed.

Lemma applyEntries_fits now id st es :
  (∀ e, e ∈ es → conforming conf id e) → Forall (entry_fits id) (calls (applyEntries now id st es).2).
Proof.
  apply (applyEntries_case now id (λ _ es _ w, (∀ e, e ∈ es → conforming conf id e) →
    Forall (entry_fits id) (calls w))).
  - constructor.
  - intros st0 e0 es0 st' w _ IH Hes. apply IH. set_solver.
  - intros ?? es0 ? w w1 Hm _ _ IH Hes. rewrite calls_app, Hm. constructor; [done|]. apply IH. set_solver.
  - intros ?? es0 w1 -> _ _. constructor.
  - intros ?? es0 ?? w w1 w2 Hm _ Hd IH Hes. rewrite !calls_app, Hm. simpl. apply Forall_app. split.
    + eapply Forall_impl; [done|]. by intros ? [k ->].
    + apply IH. set_solver.
  - intros ?? es0 ? w w1 Hm _ IH Hes. rewrite calls_app, Hm. apply IH. set_solver.
  - intros ? e0 es0 ? w w1 c Hm HI Hc IH Hes. rewrite calls_app, Hm. constructor; [|apply IH; set_solver].
    destruct Hc as [-> | [Hd ->]]; [done|]. split; [done|]. apply Hes; [left|done|done].
Qed.

(** The entries of a delta that a node of the network sends. *)
Definition delta_parses (dl : delta) : Prop :=
  ∀ de e, de ∈ dl → e ∈ dl_Entries de → entry_ok e ∧ (is_Some (ParseUint (e_Value e)) ∨ e_Key e ≠ compactKey).

Lemma applyEntries_conforming now id st es :
  keys_ok (ns_Entries st) → (∀ x, x ∈ es → is_Some (ParseUint (e_Value x)) ∨ e_Key x ≠ compactKey) →
  conforming_node conf id st → (∀ e, e ∈ es → conforming conf id e) →
  conforming_node conf id (applyEntries now id st es).1.
Proof.
  intros Hk Hp Hst Hes k e He. destruct (applyEntries_from _ _ _ _ _ _ Hk Hp He) as [?|[? _]]; [by eapply Hst|by apply Hes].
Qed.

Lemma conforming_put s id st tombs :
  conforming_state conf s → conforming_node conf id st →
  conforming_state conf (mkState (localID s) (<[id := st]> (nodes s)) tombs).
Proof.
  intros Hs Hst x R. simpl. rewrite lookup_insert. case_decide; [|apply Hs]. intros [= <-]. by subst.
Qed.

Lemma newNode_conforming id addr : conforming_node conf id (newNode id addr).
Proof. intros k e He. by apply new_node_empty in He. Qed.

Lemma peers_unknown s id : id ≠ localID s → nodes s !! id = None → peers s !! id = None.
Proof. intros Hne Hn. by rewrite lookup_peers, Hn. Qed.

Lemma applyDigestEntry_called sender s entry :
  well_called s (applyDigestEntry sender s entry).1 (applyDigestEntry sender s entry).2.
Proof.
  intros Hw Hc. split; [apply applyDigestEntry_tracked|]. unfold applyDigestEntry.
  destruct (nodes s !! dg_ID entry) eqn:Hn; [done|]. destruct (dg_Left entry); [done|].
  destruct (tombstoned _ _ _) as [[] tombs]; [done|]. simpl.
  pose proof (lookup_ne_local _ _ Hw Hn) as Hne. split.
  - apply conforming_put; [done|apply newNode_conforming].
  - split; [|done]. split; [done|by apply peers_unknown].
Qed.

Lemma ApplyDigest_called sender s dg : well_called s (ApplyDigest s sender dg).1 (ApplyDigest s sender dg).2.
Proof.
  apply (fold_emit_rel well_called); [apply well_called_refl|apply well_called_trans|].
  intros. apply applyDigestEntry_called.
Qed.

Lemma applyDeltaEntry_called now sender s entry :
  (0 ≤ now)%Z → (∀ e, e ∈ dl_Entries entry → entry_ok e) →
  (∀ x, x ∈ dl_Entries entry → is_Some (ParseUint (e_Value x)) ∨ e_Key x ≠ compactKey) →
  (∀ e, e ∈ dl_Entries entry → conforming conf (dl_ID entry) e) →
  well_called s (applyDeltaEntry now sender s entry).1 (applyDeltaEntry now sender s entry).2.
Proof.
  intros Hnow Hok Hp Hes Hw Hc. split; [by apply applyDeltaEntry_tracked|]. unfold applyDeltaEntry.
  case_decide as Hne; [done|].
  pose proof (λ st, applyEntries_fits now (dl_ID entry) st _ Hes) as Hf.
  pose proof (λ st Hk Hst, applyEntries_conforming now (dl_ID entry) st _ Hk Hp Hst Hes) as Hcon.
  destruct (nodes s !! dl_ID entry) as [st|] eqn:Hn.
  - specialize (Hf st). specialize (Hcon st (wf_key _ (swf_nodes _ Hw _ _ Hn)) (Hc _ _ Hn)).
    destruct (applyEntries _ _ st _) as [st' w]. simpl in *. split; [by apply conforming_put|].
    apply (entry_fits_all _ _ (dl_ID entry)); [done| |done]. rewrite lookup_peers, Hn by done. by eexists.
  - destruct (tombstoned _ _ _) as [[] tombs]; [done|].
    specialize (Hf (newNode (dl_ID entry) (dl_Addr entry))).
    specialize (Hcon (newNode (dl_ID entry) (dl_Addr entry)) ltac:(by intros ?? ?%new_node_empty) (newNode_conforming _ _)).
    destruct (applyEntries _ _ (newNode _ _) _) as [st' w]. simpl in *. split; [by apply conforming_put|].
    split; [split; [done|by apply peers_unknown]|].
    apply (entry_fits_all _ _ (dl_ID entry)); [done| |done]. rewrite lookup_insert_eq. by eexists.
Qed.

Lemma ApplyDelta_called now sender s dl :
  (0 ≤ now)%Z → delta_parses dl → conforming_delta conf dl →
  well_called s (ApplyDelta now s sender dl).1 (ApplyDelta now s sender dl).2.
Proof.
  intros Hnow Hp Hc. apply (fold_emit_rel well_called); [apply well_called_refl|apply well_called_trans|].
  intros s0 de Hde. apply applyDeltaEntry_called; [done|intros; by eapply Hp..|intros; by apply Hc].
Qed.

Section liveness.
Context `{FailureDetector D} (now : time) (thr : float64) (Hnow : (0 ≤ now)%Z).

Lemma updateNodeLiveness_called s d key node s' d' effs :
  nodes s !! key = Some node → updateNodeLiveness now thr s d key node = Some (s', d', effs) →
  well_called s s' effs.
Proof using Hnow.
  intros Hk Hu Hw Hc. destruct (updateNodeLiveness_tracked now thr Hnow _ _ _ _ _ _ _ Hk Hu) as [Ht _].
  split; [done|]. unfold updateNodeLiveness in Hu. case_decide as Hskip; [by simplify_eq|].
  apply Decidable.not_or in Hskip as [Hlocal Hleft%not_true_is_false].
  pose proof (swf_ids _ Hw _ _ Hk) as Hid. rewrite Hid in *.
  assert (fits conf (localID s) (peers s) (OnReachable key) ∧ fits conf (localID s) (peers s) (OnUnreachable key)) as [Hf1 Hf2].
  { split; (split; [done|]); rewrite lookup_peers, Hk by done; by eexists. }
  destruct (SuspicionLevel _ _ _) as [[lvl d1]|]; [|done]. simpl in Hu.
  destruct (flt thr lvl), (n_Unreachable (ns_meta node)); simplify_eq; try done.
  all: split; [apply (conforming_put s _ _ (tombstones s) Hc); exact (Hc _ _ Hk)|by split].
Qed.

Lemma updateLiveness_loop_called l s d s' d' effs :
  NoDup l.*1 → Forall (λ p, nodes s !! p.1 = Some p.2) l →
  updateLiveness_loop now thr s d l = Some (s', d', effs) → well_called s s' effs.
Proof using Hnow.
  revert s d s' d' effs. induction l as [|[key node] l IH]; intros s d s' d' effs Hnd Hl Hu; simpl in Hu.
  { simplify_eq. apply well_called_refl. }
  apply NoDup_cons in Hnd as [Hnin Hnd]. apply Forall_cons in Hl as [Hk Hl].
  destruct (updateNodeLiveness _ _ _ _ _ _) as [[[s1 d1] e1]|] eqn:H1; [|done]. simpl in Hu.
  destruct (updateLiveness_loop _ _ _ _ _) as [[[s2 d2] e2]|] eqn:H2; [|done]. simplify_eq/=.
  pose proof (updateNodeLiveness_called _ _ _ _ _ _ _ Hk H1) as Hcall.
  apply updateNodeLiveness_tracked in H1 as [_ Hother]; [|done..].
  eapply well_called_trans; [done|]. eapply IH; [done| |done].
  rewrite Forall_forall in Hl |- *. intros p Hp. rewrite Hother; [by apply Hl|].
  intros <-. apply Hnin. by apply list_elem_of_fmap_2.
Qed.

Lemma UpdateLiveness_called s d s' d' effs :
  UpdateLiveness now s d thr = Some (s', d', effs) → well_called s s' effs.
Proof using Hnow.
  apply updateLiveness_loop_called; [apply NoDup_map_range_fst|].
  rewrite Forall_forall. intros [k st]. by rewrite elem_of_map_range.
Qed.
End liveness.

(** ** The operations of the owner *)

(** An entry after an operation was there before but for its version, or is the
    entry the operation writes, or is internal. *)
Definition same_but_version (e e' : Entry) : Prop :=
  e_Key e' = e_Key e ∧ e_Value e' = e_Value e ∧ e_Internal e' = e_Internal e ∧ e_Deleted e' = e_Deleted e.

Lemma conforming_same x e e' : same_but_version e e' → conforming conf x e → conforming conf x e'.
Proof. intros (Hk&Hv&Hi&Hd). unfold conforming. by rewrite Hk, Hv, Hi, Hd. Qed.

Definition from_entries (es : gmap string Entry) (e' : Entry) : Prop :=
  (∃ k e, es !! k = Some e ∧ same_but_version e e') ∨ e_Internal e' = true ∧ e_Deleted e' = false.

Lemma fold_reversion_from es0 l st :
  (∀ e, e ∈ l → ∃ k, es0 !! k = Some e) →
  (∀ k e, ns_Entries st !! k = Some e → from_entries es0 e) →
  ∀ k e, ns_Entries (fold_emit reversionEntry st l).1 !! k = Some e → from_entries es0 e.
Proof.
  intros Hl Hst. apply (fold_emit_ind (λ st, ∀ k e, ns_Entries st !! k = Some e → from_entries es0 e)); [done|].
  intros st1 e1 He1 Hst1 k e. unfold reversionEntry. destruct (e_Deleted e1) eqn:Hd; [apply Hst1|].
  case_decide; [apply Hst1|]. simpl. rewrite lookup_insert. case_decide; [|apply Hst1]. intros [= <-].
  destruct (Hl _ He1) as [k1 Hk1]. left. exists k1, e1. split; [done|]. unfold same_but_version. by simpl.
Qed.

(** Leaving and compacting write no key of a user. *)
Lemma quiet_op_entries op O O' effs k e :
  op = OpLeave ∨ (∃ t, op = OpCompact t) → run_op op O = Some (O', effs) →
  ns_Entries O' !! k = Some e → from_entries (ns_Entries O) e.
Proof.
  assert (∀ k e, ns_Entries O !! k = Some e → from_entries (ns_Entries O) e) as Hold.
  { intros k0 e0 He0. left. exists k0, e0. done. }
  intros [-> |[t ->]]; simpl.
  - unfold leaveNode. destruct (n_Left (ns_meta O)); intros [= <- <-]; [apply Hold|].
    simpl. rewrite lookup_insert. case_decide; [|apply Hold]. intros [= <-]. by right.
  - unfold compactNode. case_decide; [intros [= <- <-]; apply Hold|].
    destruct (last _) as [x|]; [|done]. simpl.
    pose proof (fold_reversion_from (ns_Entries O) (sort_by e_Version (map_range (ns_Entries O)).*2)
      (set_Entries ∅ O)) as Hf.
    destruct (fold_emit _ _ _) as [st1 w1]. simpl in *. intros [= <- <-]. simpl.
    rewrite lookup_insert. case_decide; [intros [= <-]; by right|]. apply Hf.
    + intros y Hy%elem_of_sort_by%elem_of_map_range_snd. done.
    + intros k' y. by rewrite lookup_empty.
Qed.

Lemma leaveNode_view O O' effs :
  owner_wf O → leaveNode O = Some (O', effs) → view (ns_Entries O') = view (ns_Entries O).
Proof.
  intros Hw. unfold leaveNode. destruct (n_Left (ns_meta O)) eqn:Hl; intros [= <- <-]; [done|]. simpl.
  apply map_eq. intros k. unfold view. rewrite !lookup_omap, lookup_insert. case_decide as Hk; [|done]. subst k.
  destruct (ns_Entries O !! leftKey) as [e|] eqn:He; [|done].
  assert (n_Left (ns_meta O) = true) by (apply (own_left _ Hw); by eexists). congruence.
Qed.

Lemma quiet_op_view op O O' effs :
  owner_wf O → room O → op = OpLeave ∨ (∃ t, op = OpCompact t) → run_op op O = Some (O', effs) →
  view (ns_Entries O') = view (ns_Entries O).
Proof.
  intros Hw Hroom [-> |[t ->]]; simpl; [by apply leaveNode_view|].
  intros [-> | ->]%compactNode_result; [done| |done]. by apply compacted_view.
Qed.

(** A write of a conforming key. *)
Lemma upsertNode_conforming x key value O O' effs :
  conforming_node conf x O → conf_key conf x key value → upsertNode key value O = Some (O', effs) →
  conforming_node conf x O'.
Proof.
  intros HO Hk. unfold upsertNode. case_decide; intros [= <- <-]; [done|].
  intros k e. simpl. rewrite lookup_insert. case_decide; [|apply HO]. by intros [= <-] _ _.
Qed.

Lemma deleteNode_conforming x key O O' effs :
  conforming_node conf x O → deleteNode key O = Some (O', effs) → conforming_node conf x O'.
Proof.
  intros HO. unfold deleteNode. destruct (ns_Entries O !! key) as [e0|]; [|by intros [= <- <-]].
  destruct (e_Deleted e0); intros [= <- <-]; [done|].
  intros k e. simpl. rewrite lookup_insert. case_decide; [|apply HO]. by intros [= <-].
Qed.

Lemma quiet_op_conforming x op O O' effs :
  op = OpLeave ∨ (∃ t, op = OpCompact t) → run_op op O = Some (O', effs) →
  conforming_node conf x O → conforming_node conf x O'.
Proof.
  intros Hop Hrun HO k e He. destruct (quiet_op_entries _ _ _ _ _ _ Hop Hrun He) as [(k0&e0&He0&Hs)|[Hi _]].
  - eapply conforming_same; [done|]. by eapply HO.
  - unfold conforming. by rewrite Hi.
Qed.

(** What a delta carries conforms when the state does. *)
Lemma deltaEntry_conforming x st v e :
  conforming_node conf x st → e ∈ dl_Entries (deltaEntry_from st v) → conforming conf x e.
Proof.
  intros Hst. simpl. rewrite elem_of_sort_by, list_elem_of_filter, elem_of_map_range_snd.
  intros [_ [k Hk]]. by eapply Hst.
Qed.

Lemma LocalDelta_conforming s dl :
  state_wf s → conforming_state conf s → LocalDelta s = Some dl → conforming_delta conf dl.
Proof.
  intros Hw Hs. unfold LocalDelta. destruct (nodes s !! localID s) as [st|] eqn:Hst; [|done].
  intros [= <-] de e ->%list_elem_of_singleton. rewrite (deltaEntry_ID _ _ _ _ Hw Hst).
  apply deltaEntry_conforming. by eapply Hs.
Qed.

Lemma Delta_conforming s dg full : state_wf s → conforming_state conf s → conforming_delta conf (Delta s dg full).
Proof.
  intros Hw Hs de e Hde He.
  assert (∃ x st v, nodes s !! x = Some st ∧ de = deltaEntry_from st v) as (x&st&v&Hst&->).
  { assert (de ∈ Delta s dg false ∨ ∃ X st, (X ∉ dg_ID <$> dg) ∧ nodes s !! X = Some st ∧ de = deltaEntry_from st 0)
      as [Hin|(x&st&_&?&->)]; [destruct full; [by apply elem_of_Delta_full|by left]| |by eauto].
    apply elem_of_Delta in Hin as (en&st&_&?&->&_); [|done]. by eauto. }
  rewrite (deltaEntry_ID _ _ _ _ Hw Hst). eapply deltaEntry_conforming; [|done]. by eapply Hs.
Qed.

Lemma truncated_conforming dl' dl :
  truncated dl' dl → conforming_delta conf dl → conforming_delta conf dl'.
Proof.
  intros Ht Hdl de e Hde He. destruct (truncated_entry _ _ _ Ht Hde) as (de0&rest&Hin&Hid&Hes).
  rewrite <-Hid. eapply Hdl; [done|]. rewrite Hes. set_solver.
Qed.

End operations.
