(* ===== verification/Upstream.v ===== *)
(** * server/upstream/manager.go and upstream.go: routing to upstreams

    [LoadBalancedManager] keeps, for each endpoint, the upstreams connected to
    the local node, in a round-robin load balancer, and counts them in the
    cluster state.  An upstream is a pointer: [u_ptr] is its identity.  [None]
    is a panic. *)

From S2P Require Import Prelude GoLib Cluster.

(** ** Data *)

Record ConnMetadata := mkConnMetadata {
  conn_Name : string;
  conn_Addr : string;
  conn_ConnectedAt : Z;
}.

(** [Upstream] with its two implementations. *)
Inductive upstream :=
  | ConnUpstream (ptr : nat) (endpointID name addr : string) (connectedAt : time)
  | NodeUpstream (ptr : nat) (endpointID : string) (node : cnode).

#[global] Instance upstream_eq_dec : EqDecision upstream.
Proof. solve_decision. Defined.

Definition u_ptr (u : upstream) : nat :=
  match u with ConnUpstream p _ _ _ _ | NodeUpstream p _ _ => p end.

Definition EndpointID (u : upstream) : string :=
  match u with ConnUpstream _ e _ _ _ | NodeUpstream _ e _ => e end.

Definition Forward (u : upstream) : bool :=
  match u with ConnUpstream _ _ _ _ _ => false | NodeUpstream _ _ _ => true end.

(** [ConnUpstream.Metadata]: the time in milliseconds. *)
Definition conn_metadata (u : upstream) : option ConnMetadata :=
  match u with
  | ConnUpstream _ _ name addr connectedAt => Some (mkConnMetadata name addr (connectedAt / Millisecond))
  | NodeUpstream _ _ _ => None
  end.

(** How [Dial] fails: the session's [OpenStream] or the network is the
    environment. *)
Inductive dial_error := ErrGone | ErrDial.

Inductive stream_result := StreamOpened | RemoteGoAway | StreamFailed.

(** [ConnUpstream.Dial] for the result of [OpenStream]. *)
Definition conn_dial (r : stream_result) : option dial_error :=
  match r with StreamOpened => None | RemoteGoAway => Some ErrGone | StreamFailed => Some ErrDial end.

(** [NodeUpstream.Dial]: the address dialed, and whether with TLS. *)
Definition node_dial (tls : bool) (u : upstream) : option (string * bool) :=
  match u with
  | NodeUpstream _ _ node => Some (cn_ProxyAddr node, tls)
  | ConnUpstream _ _ _ _ _ => None
  end.

(** ** The load balancer *)

Record loadBalancer := mkLB {
  upstreams : list upstream;
  nextIndex : nat;
}.

Definition lb_Add (lb : loadBalancer) (u : upstream) : loadBalancer :=
  mkLB (upstreams lb ++ [u]) (nextIndex lb).

(** The loop of [Remove], from index [i]: the list without the first upstream
    that is [u], [None] when there is none. *)
Fixpoint remove_ptr (u : upstream) (l : list upstream) : option (list upstream) :=
  match l with
  | [] => None
  | x :: l' => if decide (u_ptr x = u_ptr u) then Some l' else (x ::.) <$> remove_ptr u l'
  end.

(** [loadBalancer.Remove]: whether no upstream is left. *)
Definition lb_Remove (lb : loadBalancer) (u : upstream) : loadBalancer * bool :=
  match remove_ptr u (upstreams lb) with
  | Some l' =>
      match l' with
      | [] => (mkLB [] (nextIndex lb), true)
      | _ => (mkLB l' (nextIndex lb `mod` length l'), false)
      end
  | None => (lb, bool_decide (upstreams lb = []))
  end.

(** [loadBalancer.Next]: [Some (_, None)] is nil, [None] an index out of range. *)
Definition lb_Next (lb : loadBalancer) : option (loadBalancer * option upstream) :=
  match upstreams lb with
  | [] => Some (lb, None)
  | l =>
      u ← l !! nextIndex lb;
      Some (mkLB l (S (nextIndex lb) `mod` length l), Some u)
  end.

(** ** The manager *)

Record manager := mkManager {
  localUpstreams : gmap string loadBalancer;
  m_cluster : State;
}.

Inductive manager_effect :=
  | UpstreamRequestsTotalInc
  | RemoteRequestsTotalInc (nodeID : string)
  | RegisteredEndpointsInc
  | RegisteredEndpointsDec
  | ConnectedUpstreamsInc
  | ConnectedUpstreamsDec
  | ClusterEffect (e : cluster_effect).

Definition NewLoadBalancedManager (c : State) : manager := mkManager ∅ c.

Section manager.
Context `{MapIter}.

(** [Select]; [ptr] is the identity of a new [NodeUpstream]. *)
Definition Select (ptr : nat) (m : manager) (endpointID : string) (allowRemote : bool) :
    option (manager * list manager_effect * option upstream * bool) :=
  match localUpstreams m !! endpointID with
  | Some lb =>
      '(lb', u) ← lb_Next lb;
      Some (mkManager (<[endpointID := lb']> (localUpstreams m)) (m_cluster m),
            [UpstreamRequestsTotalInc], u, true)
  | None =>
      if negb allowRemote then Some (m, [], None, false)
      else
        match LookupEndpoint (m_cluster m) endpointID with
        | None => Some (m, [], None, false)
        | Some node => Some (m, [RemoteRequestsTotalInc (cn_ID node)],
                             Some (NodeUpstream ptr endpointID node), true)
        end
  end.

Definition AddConn (m : manager) (u : upstream) : option (manager * list manager_effect) :=
  let '(lb, effs1) :=
    match localUpstreams m !! EndpointID u with
    | Some lb => (lb, [])
    | None => (mkLB [] 0, [RegisteredEndpointsInc])
    end in
  '(c, effs2) ← AddLocalEndpoint (m_cluster m) (EndpointID u);
  Some (mkManager (<[EndpointID u := lb_Add lb u]> (localUpstreams m)) c,
        effs1 ++ (ClusterEffect <$> effs2) ++ [ConnectedUpstreamsInc]).

Definition RemoveConn (m : manager) (u : upstream) : option (manager * list manager_effect) :=
  match localUpstreams m !! EndpointID u with
  | None => Some (m, [])
  | Some lb =>
      let '(lb', empty) := lb_Remove lb u in
      let '(local, effs1) :=
        if empty then (delete (EndpointID u) (localUpstreams m), [RegisteredEndpointsDec])
        else (<[EndpointID u := lb']> (localUpstreams m), []) in
      '(c, effs2) ← RemoveLocalEndpoint (m_cluster m) (EndpointID u);
      Some (mkManager local c, effs1 ++ (ClusterEffect <$> effs2) ++ [ConnectedUpstreamsDec])
  end.

Definition Endpoints (m : manager) : gmap string Z :=
  (λ lb, Z.of_nat (length (upstreams lb))) <$> localUpstreams m.

Definition Upstreams (m : manager) (endpointID : string) : list ConnMetadata :=
  match localUpstreams m !! endpointID with
  | None => []
  | Some lb => omap conn_metadata (upstreams lb)
  end.
End manager.

(** ** Specification *)

Record lb_wf (endpointID : string) (lb : loadBalancer) : Prop := {
  lb_nonempty : upstreams lb ≠ [];
  lb_index : nextIndex lb < length (upstreams lb);
  lb_endpoint : ∀ u, u ∈ upstreams lb → EndpointID u = endpointID;
  lb_distinct : NoDup (u_ptr <$> upstreams lb);
}.

(** The upstreams connected for an endpoint. *)
Definition connected (m : manager) (endpointID : string) : list upstream :=
  match localUpstreams m !! endpointID with Some lb => upstreams lb | None => [] end.

(** Every load balancer is well formed and the cluster counts [c e] listeners
    of each endpoint. *)
Record manager_counts (c : string → nat) (m : manager) : Prop := {
  mwf_cluster : cluster_wf (m_cluster m);
  mwf_lbs : ∀ e lb, localUpstreams m !! e = Some lb → lb_wf e lb;
  mwf_counts : counts (m_cluster m) c;
}.

(** The invariant: the cluster counts exactly the connected upstreams. *)
Definition manager_wf (m : manager) : Prop := manager_counts (λ e, length (connected m e)) m.

(** The gauges the effects move. *)
Definition registered_delta (e : manager_effect) : Z :=
  match e with RegisteredEndpointsInc => 1 | RegisteredEndpointsDec => -1 | _ => 0 end%Z.
Definition connected_delta (e : manager_effect) : Z :=
  match e with ConnectedUpstreamsInc => 1 | ConnectedUpstreamsDec => -1 | _ => 0 end%Z.

Definition total_connected (m : manager) : Z :=
  Zsum ((λ lb, Z.of_nat (length (upstreams lb))) <$> (map_to_list (localUpstreams m)).*2).

(** ** Lemmas *)

Lemma counts_ext s c c' : (∀ e, c e = c' e) → counts s c → counts s c'.
Proof. intros Heq (n&Hn&Hc). exists n. split; [done|]. intros e. by rewrite Hc, Heq. Qed.

Lemma remove_ptr_spec u l :
  NoDup (u_ptr <$> l) → u ∈ l →
  ∃ l1 l2, l = l1 ++ u :: l2 ∧ remove_ptr u l = Some (l1 ++ l2).
Proof.
  induction l as [|x l IH]; intros Hnd Hin; [set_solver|]. simpl.
  apply NoDup_cons in Hnd as [Hx Hnd]. apply elem_of_cons in Hin as [->|Hin].
  - rewrite decide_True by done. by exists [], l.
  - rewrite decide_False.
    + destruct (IH Hnd Hin) as (l1&l2&->&->). by exists (x :: l1), l2.
    + intros Heq. apply Hx. rewrite Heq. by apply list_elem_of_fmap_2.
Qed.

Lemma remove_ptr_None u l : u_ptr u ∉ (u_ptr <$> l) → remove_ptr u l = None.
Proof.
  induction l as [|x l IH]; intros Hin; [done|]. simpl. rewrite decide_False by set_solver.
  by rewrite IH by set_solver.
Qed.

(** The first upstreams [n] calls of [Next] return. *)
Fixpoint next_run (n : nat) (lb : loadBalancer) : option (loadBalancer * list (option upstream)) :=
  match n with
  | 0 => Some (lb, [])
  | S n' =>
      '(lb1, u) ← lb_Next lb;
      '(lb2, us) ← next_run n' lb1;
      Some (lb2, u :: us)
  end.

Lemma lb_Next_spec lb :
  upstreams lb ≠ [] → nextIndex lb < length (upstreams lb) →
  ∃ u, upstreams lb !! nextIndex lb = Some u ∧
    lb_Next lb = Some (mkLB (upstreams lb) (S (nextIndex lb) `mod` length (upstreams lb)), Some u).
Proof.
  intros Hne Hlt. destruct (lookup_lt_is_Some_2 _ _ Hlt) as [u Hu]. exists u. split; [done|].
  unfold lb_Next. destruct (upstreams lb) as [|x l] eqn:Hl; [done|]. by rewrite Hu.
Qed.

Lemma next_run_spec n lb :
  upstreams lb ≠ [] → nextIndex lb < length (upstreams lb) →
  next_run n lb = Some (mkLB (upstreams lb) ((nextIndex lb + n) `mod` length (upstreams lb)),
    (λ i, upstreams lb !! ((nextIndex lb + i) `mod` length (upstreams lb))) <$> seq 0 n).
Proof.
  intros Hne. revert lb Hne. induction n as [|n IH]; intros lb Hne Hlt.
  { simpl. rewrite Nat.add_0_r, Nat.mod_small by done. by destruct lb. }
  cbn [next_run]. destruct (lb_Next_spec lb Hne Hlt) as (u&Hu&->). cbn [mbind option_bind].
  set (k := length (upstreams lb)) in *. assert (k ≠ 0) as Hk by lia.
  rewrite IH; cbn [upstreams nextIndex]; [|done|by apply Nat.mod_upper_bound]. cbn [mbind option_bind]. fold k.
  do 2 f_equal.
  - f_equal. rewrite Nat.Div0.add_mod_idemp_l. f_equal. lia.
  - cbn [seq]. rewrite fmap_cons, Nat.add_0_r, (Nat.mod_small _ _ Hlt), Hu. f_equal.
    rewrite <-fmap_S_seq, <-list_fmap_compose. apply list_fmap_ext. intros _ i _. simpl.
    rewrite Nat.Div0.add_mod_idemp_l. do 2 f_equal. lia.
Qed.

Lemma run_endpoint_wf op s s' effs :
  cluster_wf s → run_endpoint op s = Some (s', effs) → cluster_wf s'.
Proof.
  intros Hs Hrun. destruct op as [e|e]; simpl in Hrun.
  - destruct (AddLocalEndpoint_good s e Hs) as (s1&w&H1&Hg). rewrite H1 in Hrun. injection Hrun as <- _. apply Hg.
  - destruct (RemoveLocalEndpoint_good s e Hs) as (s1&w&H1&Hg). rewrite H1 in Hrun. injection Hrun as <- _. apply Hg.
Qed.

(** Room for one more listener of any endpoint. *)
Definition manager_room (m : manager) : Prop := ∀ e, (Z.of_nat (length (connected m e)) < 2 ^ 63 - 1)%Z.

Lemma lb_Add_wf e lb u :
  lb_wf e lb ∨ lb = mkLB [] 0 → EndpointID u = e → u_ptr u ∉ (u_ptr <$> upstreams lb) → lb_wf e (lb_Add lb u).
Proof.
  intros Hlb He Hnin.
  assert (nextIndex lb < length (upstreams lb ++ [u])) as Hi.
  { rewrite length_app. simpl. destruct Hlb as [Hlb| ->]; [pose proof (lb_index _ _ Hlb)|simpl]; lia. }
  split; simpl; [by destruct (upstreams lb)|done|..].
  - intros x [Hx|Hx]%elem_of_app; [|by apply list_elem_of_singleton in Hx as ->].
    destruct Hlb as [Hlb| ->]; [by apply (lb_endpoint _ _ Hlb)|by apply not_elem_of_nil in Hx].
  - rewrite fmap_app. apply NoDup_app. split_and!.
    + destruct Hlb as [Hlb| ->]; [apply (lb_distinct _ _ Hlb)|constructor].
    + intros x Hx ->%list_elem_of_singleton. done.
    + apply NoDup_singleton.
Qed.

Lemma manager_counts_ext c c' m : (∀ e, c e = c' e) → manager_counts c m → manager_counts c' m.
Proof. intros Heq [Hc Hl Hn]. split; [done|done|by eapply counts_ext]. Qed.

Definition count_room (c : string → nat) : Prop := ∀ e, (Z.of_nat (c e) < 2 ^ 63 - 1)%Z.

(** Connecting an upstream, whatever the cluster counts. *)
Lemma AddConn_gen c m u :
  manager_counts c m → count_room c → u_ptr u ∉ (u_ptr <$> connected m (EndpointID u)) →
  ∃ m' effs, AddConn m u = Some (m', effs) ∧ manager_counts (count_op c (EAdd (EndpointID u))) m' ∧
    connected m' (EndpointID u) = connected m (EndpointID u) ++ [u] ∧
    ∀ e, e ≠ EndpointID u → connected m' e = connected m e.
Proof.
  intros Hm Hroom Hnin.
  destruct (run_endpoint_counts _ _ (EAdd (EndpointID u)) (mwf_counts _ _ Hm) Hroom) as (s&Hrun&Hc&_).
  unfold AddConn. simpl in Hrun.
  set (p := match localUpstreams m !! EndpointID u with
            | Some lb => (lb, []) | None => (mkLB [] 0, [RegisteredEndpointsInc]) end).
  assert (lb_wf (EndpointID u) (lb_Add p.1 u)) as Hlb.
  { apply lb_Add_wf; [|done|].
    - unfold p. destruct (localUpstreams m !! EndpointID u) eqn:Hl; [left; by apply (mwf_lbs _ _ Hm)|by right].
    - unfold p, connected in *. by destruct (localUpstreams m !! EndpointID u). }
  assert (upstreams p.1 = connected m (EndpointID u)) as Hup.
  { unfold p, connected. by destruct (localUpstreams m !! EndpointID u). }
  destruct p as [lb effs1]. simpl in *. rewrite Hrun. cbn [mbind option_bind].
  eexists _, _. split; [done|]. split_and!.
  - split; simpl; [by apply (run_endpoint_wf (EAdd (EndpointID u)) _ _ _ (mwf_cluster _ _ Hm) Hrun)| |done].
    intros e x. rewrite lookup_insert. case_decide; [intros [= <-]; by subst|apply (mwf_lbs _ _ Hm)].
  - unfold connected at 1. simpl. rewrite lookup_insert_eq. simpl. by rewrite Hup.
  - intros e Hne. unfold connected. simpl. by rewrite lookup_insert_ne.
Qed.

Lemma AddConn_ok m u :
  manager_wf m → manager_room m → u_ptr u ∉ (u_ptr <$> connected m (EndpointID u)) →
  ∃ m' effs, AddConn m u = Some (m', effs) ∧ manager_wf m' ∧
    connected m' (EndpointID u) = connected m (EndpointID u) ++ [u] ∧
    ∀ e, e ≠ EndpointID u → connected m' e = connected m e.
Proof.
  intros Hm Hroom Hnin. destruct (AddConn_gen _ m u Hm Hroom Hnin) as (m'&effs&Hrun&Hm'&Hself&Hother).
  exists m', effs. split_and!; [done| |done|done]. eapply manager_counts_ext; [|exact Hm'].
  intros e. simpl. destruct (decide (e = EndpointID u)) as [->|He]; [|by rewrite (Hother e)].
  rewrite Hself, length_app. simpl. lia.
Qed.

Lemma lb_Remove_ok e lb u :
  lb_wf e lb → u ∈ upstreams lb →
  ∃ l1 l2 lb', upstreams lb = l1 ++ u :: l2 ∧ upstreams lb' = l1 ++ l2 ∧
    lb_Remove lb u = (lb', bool_decide (l1 ++ l2 = [])) ∧ (l1 ++ l2 ≠ [] → lb_wf e lb').
Proof.
  intros Hlb Hin. destruct (remove_ptr_spec u (upstreams lb) (lb_distinct _ _ Hlb) Hin) as (l1&l2&Hl&Hr).
  exists l1, l2. unfold lb_Remove. rewrite Hr. destruct (l1 ++ l2) as [|x l] eqn:Hl12.
  { exists (mkLB [] (nextIndex lb)). split_and!; [done|done|done|]. intros Hne. by destruct Hne. }
  exists (mkLB (x :: l) (nextIndex lb `mod` length (x :: l))). split_and!; [done|done|done|]. intros _. split; cbn [upstreams nextIndex]; [done|by apply Nat.mod_upper_bound|..].
  - intros y Hy. apply (lb_endpoint _ _ Hlb). rewrite Hl. rewrite <-Hl12 in Hy. set_solver.
  - pose proof (lb_distinct _ _ Hlb) as Hnd. rewrite Hl, fmap_app, fmap_cons in Hnd.
    change (NoDup (u_ptr <$> x :: l)). rewrite <-Hl12, fmap_app.
    apply NoDup_app in Hnd as (H1&H2&H3). apply NoDup_cons in H3 as [_ H3]. apply NoDup_app. set_solver.
Qed.

(** Disconnecting an upstream that is connected. *)
Lemma RemoveConn_gen c m u :
  manager_counts c m → count_room c → u ∈ connected m (EndpointID u) →
  ∃ m' effs l1 l2, RemoveConn m u = Some (m', effs) ∧
    manager_counts (count_op c (ERemove (EndpointID u))) m' ∧
    connected m (EndpointID u) = l1 ++ u :: l2 ∧ connected m' (EndpointID u) = l1 ++ l2 ∧
    ∀ e, e ≠ EndpointID u → connected m' e = connected m e.
Proof.
  intros Hm Hroom Hin.
  destruct (run_endpoint_counts _ _ (ERemove (EndpointID u)) (mwf_counts _ _ Hm) Hroom) as (s&Hrun&Hc&_).
  unfold RemoveConn. simpl in Hrun. unfold connected in Hin.
  destruct (localUpstreams m !! EndpointID u) as [lb|] eqn:Hl; [|set_solver].
  destruct (lb_Remove_ok _ lb u (mwf_lbs _ _ Hm _ _ Hl) Hin) as (l1&l2&lb'&Hsplit&Hup&->&Hwf).
  set (local := if bool_decide (l1 ++ l2 = []) then delete (EndpointID u) (localUpstreams m)
                else <[EndpointID u := lb']> (localUpstreams m)).
  assert (∃ effs1, (if bool_decide (l1 ++ l2 = []) then (delete (EndpointID u) (localUpstreams m), [RegisteredEndpointsDec])
    else (<[EndpointID u := lb']> (localUpstreams m), [])) = (local, effs1)) as [effs1 ->].
  { unfold local. case_bool_decide; by eexists. }
  rewrite Hrun. cbn [mbind option_bind]. eexists _, _, l1, l2. split; [done|]. split_and!.
  - split; simpl; [by apply (run_endpoint_wf (ERemove (EndpointID u)) _ _ _ (mwf_cluster _ _ Hm) Hrun)| |done].
    intros e x. unfold local. case_bool_decide as He.
    + intros Hx. apply lookup_delete_Some in Hx as [_ Hx]. by apply (mwf_lbs _ _ Hm).
    + intros [[<- <-]|[_ Hx]]%lookup_insert_Some; [by apply Hwf|by apply (mwf_lbs _ _ Hm)].
  - unfold connected. by rewrite Hl.
  - unfold connected, local. simpl. case_bool_decide as He; [by rewrite lookup_delete_eq|by rewrite lookup_insert_eq].
  - intros e Hne. unfold connected, local. simpl. by case_bool_decide; rewrite ?lookup_delete_ne, ?lookup_insert_ne.
Qed.

(** Disconnecting one that is not. *)
Lemma RemoveConn_absent c m u :
  manager_counts c m → count_room c → u_ptr u ∉ (u_ptr <$> connected m (EndpointID u)) →
  ∃ m' effs, RemoveConn m u = Some (m', effs) ∧ (∀ e, connected m' e = connected m e) ∧
    manager_counts (if decide (connected m (EndpointID u) = []) then c else count_op c (ERemove (EndpointID u))) m'.
Proof.
  intros Hm Hroom Hnin. unfold RemoveConn.
  destruct (localUpstreams m !! EndpointID u) as [lb|] eqn:Hl.
  2:{ exists m, []. split_and!; [done|done|]. rewrite decide_True; [done|]. unfold connected. by rewrite Hl. }
  assert (connected m (EndpointID u) = upstreams lb) as Hup by (unfold connected; by rewrite Hl).
  pose proof (lb_nonempty _ _ (mwf_lbs _ _ Hm _ _ Hl)) as Hne. rewrite Hup in *. rewrite decide_False by done.
  unfold lb_Remove. rewrite remove_ptr_None, bool_decide_false by done.
  destruct (run_endpoint_counts _ _ (ERemove (EndpointID u)) (mwf_counts _ _ Hm) Hroom) as (s&Hrun&Hc&_).
  simpl in Hrun. rewrite Hrun. cbn [mbind option_bind]. eexists _, _. split; [done|]. rewrite insert_id by done.
  split; [done|]. split; simpl; [|apply (mwf_lbs _ _ Hm)|done].
  by apply (run_endpoint_wf (ERemove (EndpointID u)) _ _ _ (mwf_cluster _ _ Hm) Hrun).
Qed.

Lemma RemoveConn_ok m u :
  manager_wf m → manager_room m → u ∈ connected m (EndpointID u) →
  ∃ m' effs l1 l2, RemoveConn m u = Some (m', effs) ∧ manager_wf m' ∧
    connected m (EndpointID u) = l1 ++ u :: l2 ∧ connected m' (EndpointID u) = l1 ++ l2 ∧
    ∀ e, e ≠ EndpointID u → connected m' e = connected m e.
Proof.
  intros Hm Hroom Hin.
  destruct (RemoveConn_gen _ m u Hm Hroom Hin) as (m'&effs&l1&l2&Hrun&Hm'&Hold&Hself&Hother).
  exists m', effs, l1, l2. split_and!; [done| |done|done|done]. eapply manager_counts_ext; [|exact Hm'].
  intros e. simpl. destruct (decide (e = EndpointID u)) as [->|He]; [|by rewrite (Hother e)].
  rewrite Hself, Hold, !length_app. simpl. lia.
Qed.

Lemma Select_local `{MapIter} c ptr m e allow lb :
  manager_counts c m → localUpstreams m !! e = Some lb →
  ∃ m' u, Select ptr m e allow = Some (m', [UpstreamRequestsTotalInc], Some u, true) ∧
    u ∈ connected m e ∧ manager_counts c m' ∧ (∀ e', connected m' e' = connected m e') ∧ m_cluster m' = m_cluster m.
Proof.
  intros Hm Hl. pose proof (mwf_lbs _ _ Hm _ _ Hl) as Hlb.
  destruct (lb_Next_spec lb (lb_nonempty _ _ Hlb) (lb_index _ _ Hlb)) as (u&Hu&Hnext).
  unfold Select. rewrite Hl, Hnext. cbn [mbind option_bind]. eexists _, u. split; [done|].
  split_and!; [unfold connected; rewrite Hl; by eapply list_elem_of_lookup_2| | |done].
  - split; simpl; [apply Hm| |apply Hm].
    intros e' x. rewrite lookup_insert. case_decide; [|apply (mwf_lbs _ _ Hm)]. intros [= <-]. subst.
    destruct Hlb as [Hne _ Hend Hnd]. split; simpl; [done| |done|done].
    apply Nat.mod_upper_bound. by destruct (upstreams lb).
  - intros e'. unfold connected. simpl. rewrite lookup_insert. case_decide; [|done]. subst. by rewrite Hl.
Qed.

Lemma connected_None c m e : manager_counts c m → connected m e = [] ↔ localUpstreams m !! e = None.
Proof.
  intros Hm. unfold connected. destruct (localUpstreams m !! e) as [lb|] eqn:Hl; [|done].
  split; [|done]. intros Hup. by destruct (lb_nonempty _ _ (mwf_lbs _ _ Hm _ _ Hl)).
Qed.

Lemma connected_NoDup c m e : manager_counts c m → NoDup (u_ptr <$> connected m e).
Proof.
  intros Hm. unfold connected. destruct (localUpstreams m !! e) eqn:Hl; [|constructor].
  apply (lb_distinct _ _ (mwf_lbs _ _ Hm _ _ Hl)).
Qed.

Lemma connected_endpoint c m e u : manager_counts c m → u ∈ connected m e → EndpointID u = e.
Proof.
  intros Hm. unfold connected. destruct (localUpstreams m !! e) eqn:Hl; [|by intros ?%not_elem_of_nil].
  apply (lb_endpoint _ _ (mwf_lbs _ _ Hm _ _ Hl)).
Qed.

(** ** Properties *)

(** The manager counts what is connected: connecting a new upstream and
    disconnecting a connected one change the upstreams of their endpoint by
    exactly that upstream and no other endpoint, and after each the local node
    of the cluster lists every endpoint with the number of its connected
    upstreams, the load balancers are well formed, and nothing panics. *)
Theorem manager_counts_connected m u :
  manager_wf m → manager_room m →
  (u_ptr u ∉ (u_ptr <$> connected m (EndpointID u)) →
   ∃ m' effs, AddConn m u = Some (m', effs) ∧ manager_wf m' ∧
     connected m' (EndpointID u) = connected m (EndpointID u) ++ [u] ∧
     ∀ e, e ≠ EndpointID u → connected m' e = connected m e) ∧
  (u ∈ connected m (EndpointID u) →
   ∃ m' effs l1 l2, RemoveConn m u = Some (m', effs) ∧ manager_wf m' ∧
     connected m (EndpointID u) = l1 ++ u :: l2 ∧ connected m' (EndpointID u) = l1 ++ l2 ∧
     ∀ e, e ≠ EndpointID u → connected m' e = connected m e).
Proof. intros Hm Hroom. split; [by apply AddConn_ok|by apply RemoveConn_ok]. Qed.

(** Selection prefers local upstreams and never forwards when it must not:
    with an upstream connected for the endpoint [Select] returns one of those;
    without, it returns nothing unless forwarding is allowed, and then a remote
    node that is active and lists the endpoint, if there is one.  It never
    panics, and changes neither what is connected nor the cluster. *)
Theorem select_prefers_local `{MapIter} ptr m e allow :
  manager_wf m →
  ∃ m' effs u ok, Select ptr m e allow = Some (m', effs, u, ok) ∧ manager_wf m' ∧
    (∀ e', connected m' e' = connected m e') ∧ m_cluster m' = m_cluster m ∧
    (connected m e ≠ [] → ok = true ∧ ∃ x, u = Some x ∧ x ∈ connected m e) ∧
    (connected m e = [] → allow = false → u = None ∧ ok = false) ∧
    (connected m e = [] → allow = true →
       match LookupEndpoint (m_cluster m) e with
       | Some n => u = Some (NodeUpstream ptr e n) ∧ ok = true
       | None => u = None ∧ ok = false
       end).
Proof.
  intros Hm. destruct (localUpstreams m !! e) as [lb|] eqn:Hl.
  - destruct (Select_local _ ptr m e allow lb Hm Hl) as (m'&u&Hsel&Hin&Hm'&Hsame&Hc).
    assert (manager_wf m') by (eapply manager_counts_ext; [|exact Hm']; intros e'; by rewrite Hsame).
    assert (connected m e ≠ []) as Hne by (rewrite (connected_None _ _ _ Hm); congruence).
    exists m', [UpstreamRequestsTotalInc], (Some u), true. split_and!; try done; by eauto.
  - pose proof (proj2 (connected_None _ m e Hm) Hl) as Hempty. unfold Select. rewrite Hl.
    destruct allow; simpl; [destruct (LookupEndpoint (m_cluster m) e) as [n|]|];
      eexists _, _, _, _; split_and!; done.
Qed.

(** Load balancing is round-robin: any number of requests in a row for an
    endpoint go to its upstreams in turn, starting after the last one used. *)
Theorem round_robin e lb n :
  lb_wf e lb →
  ∃ lb' us, next_run n lb = Some (lb', us) ∧ upstreams lb' = upstreams lb ∧ length us = n ∧
    ∀ i, i < n → us !! i = Some (upstreams lb !! ((nextIndex lb + i) `mod` length (upstreams lb))).
Proof.
  intros Hlb. rewrite (next_run_spec n lb (lb_nonempty _ _ Hlb) (lb_index _ _ Hlb)).
  eexists _, _. split_and!; [done|done|by rewrite length_fmap, length_seq|].
  intros i Hi. rewrite list_lookup_fmap, lookup_seq_lt by done. done.
Qed.

(** Disconnecting an upstream twice loses a listener: when the upstream is
    no longer connected but another is, [RemoveConn] keeps the upstreams and
    still takes one listener from the cluster, so the cluster lists one less
    than is connected, and none when one is. *)
Theorem double_remove_desynchronizes m u :
  manager_wf m → manager_room m →
  connected m (EndpointID u) ≠ [] → u_ptr u ∉ (u_ptr <$> connected m (EndpointID u)) →
  ∃ m' effs, RemoveConn m u = Some (m', effs) ∧
    (∀ e, connected m' e = connected m e) ∧
    LocalEndpointListeners (m_cluster m') (EndpointID u) =
      Some (Z.of_nat (length (connected m (EndpointID u))) - 1)%Z ∧ ¬ manager_wf m'.
Proof.
  intros Hm Hroom Hne Hnin. destruct (RemoveConn_absent _ m u Hm Hroom Hnin) as (m'&effs&Hrun&Hsame&Hm').
  rewrite decide_False in Hm' by done. exists m', effs.
  assert (0 < length (connected m (EndpointID u))) by (destruct (connected m (EndpointID u)); [done|simpl; lia]).
  assert (∃ n, cs_nodes (m_cluster m') !! cs_localID (m_cluster m') = Some n ∧
    default 0%Z (cn_Endpoints n !! EndpointID u) = (Z.of_nat (length (connected m (EndpointID u))) - 1)%Z) as (n&Hn&Hl).
  { destruct (mwf_counts _ _ Hm') as (n&Hn&Hes). exists n. split; [done|]. rewrite Hes. simpl.
    rewrite (decide_True (P := EndpointID u = EndpointID u)) by done.
    destruct (decide (Init.Nat.pred (length (connected m (EndpointID u))) = 0)); simpl; lia. }
  split_and!; [done|done|unfold LocalEndpointListeners; rewrite Hn; simpl; by rewrite Hl|].
  intros Hwf. destruct (mwf_counts _ _ Hwf) as (n'&Hn'&Hes). rewrite Hn in Hn'. injection Hn' as <-.
  rewrite Hes, Hsame in Hl. destruct (decide (length (connected m (EndpointID u)) = 0)); simpl in Hl; lia.
Qed.

(** ** Witnesses *)

#[local] Existing Instance canonical_iter.

Definition ex_u1 : upstream := ConnUpstream 1 "a" "laptop" "10.1.1.1" 5000000.
Definition ex_u2 : upstream := ConnUpstream 2 "a" "" "10.1.1.2" 7000000.

Definition add_conn (u : upstream) (m : manager) : manager :=
  match AddConn m u with Some (m', _) => m' | None => m end.

Definition ex_manager : manager := add_conn ex_u2 (add_conn ex_u1 (NewLoadBalancedManager (NewState ex_local).1)).

Lemma new_manager_wf n : cn_Endpoints n = ∅ → manager_wf (NewLoadBalancedManager (NewState n).1).
Proof.
  intros Hn. split; simpl; [apply NewState_wf|by intros e lb; rewrite lookup_empty|].
  eexists. split; [apply lookup_singleton_eq|]. intros e. simpl. rewrite Hn. unfold connected. simpl.
  by rewrite !lookup_empty.
Qed.

Lemma add_conn_wf m u :
  manager_wf m → manager_room m → u_ptr u ∉ (u_ptr <$> connected m (EndpointID u)) → manager_wf (add_conn u m).
Proof. intros Hm Hr Hu. unfold add_conn. by destruct (AddConn_ok m u Hm Hr Hu) as (m'&effs&->&?&_). Qed.

(** Few upstreams always leave room. *)
Lemma manager_room_dec m :
  map_Forall (λ _ lb, Z.of_nat (length (upstreams lb)) < 2 ^ 63 - 1)%Z (localUpstreams m) → manager_room m.
Proof.
  intros Hall e. unfold connected. destruct (localUpstreams m !! e) as [lb|] eqn:Hl; [by apply (Hall e)|done].
Qed.

Lemma ex_manager_wf : manager_wf ex_manager ∧ manager_room ex_manager.
Proof.
  split; [|apply manager_room_dec; apply (bool_decide_unpack _); by vm_compute].
  apply add_conn_wf; [apply add_conn_wf; [by apply new_manager_wf| |]| |].
  1, 3: apply manager_room_dec; apply (bool_decide_unpack _); by vm_compute.
  all: apply (bool_decide_unpack _); by vm_compute.
Qed.

Lemma manager_counts_connected_witness :
  ∃ m' effs l1 l2, RemoveConn ex_manager ex_u1 = Some (m', effs) ∧ manager_wf m' ∧
    connected ex_manager "a" = l1 ++ ex_u1 :: l2 ∧ connected m' "a" = l1 ++ l2.
Proof.
  destruct (manager_counts_connected ex_manager ex_u1 (proj1 ex_manager_wf) (proj2 ex_manager_wf)) as [_ Hr].
  destruct Hr as (m'&effs&l1&l2&Hrun&Hm'&Hold&Hnew&_); [apply (bool_decide_unpack _); by vm_compute|].
  exists m', effs, l1, l2. split_and!; [exact Hrun|exact Hm'|exact Hold|exact Hnew].
Defined.

Lemma select_prefers_local_witness :
  ∃ m' effs u, Select 9 ex_manager "a" true = Some (m', effs, Some u, true) ∧ u ∈ connected ex_manager "a".
Proof.
  destruct (select_prefers_local 9 ex_manager "a" true (proj1 ex_manager_wf))
    as (m'&effs&u&ok&Hsel&_&_&_&Hlocal&_).
  destruct Hlocal as (->&x&->&Hx); [by vm_compute|]. exists m', effs, x. split; [exact Hsel|exact Hx].
Defined.

Lemma round_robin_witness :
  ∃ lb' us, next_run 5 (mkLB [ex_u1; ex_u2] 1) = Some (lb', us) ∧ us !! 4 = Some (Some ex_u2).
Proof.
  destruct (round_robin "a" (mkLB [ex_u1; ex_u2] 1) 5) as (lb'&us&Hrun&_&_&Hi).
  - split; simpl; [done|lia| |].
    + intros u. rewrite !elem_of_cons. intros [->|[->|Hn%not_elem_of_nil]]; done.
    + apply (bool_decide_unpack _). by vm_compute.
  - exists lb', us. split; [exact Hrun|]. rewrite (Hi 4) by lia. by vm_compute.
Defined.

Lemma double_remove_desynchronizes_witness :
  ∃ m' effs, RemoveConn ex_manager (ConnUpstream 3 "a" "" "" 0) = Some (m', effs) ∧
    LocalEndpointListeners (m_cluster m') "a" = Some 1%Z.
Proof.
  destruct (double_remove_desynchronizes ex_manager (ConnUpstream 3 "a" "" "" 0)
    (proj1 ex_manager_wf) (proj2 ex_manager_wf)) as (m'&effs&Hrun&_&Hl&_).
  - by vm_compute.
  - apply (bool_decide_unpack _). by vm_compute.
  - exists m', effs. split; [exact Hrun|]. etrans; [exact Hl|by vm_compute].
Defined.
