(* ===== verification/PikoNet.v ===== *)
(** * A network of Piko nodes

    Every node with its gossip state, syncer, cluster state and upstream
    manager, over the unreliable network of [GossipNet].  The step relation has
    the connections of upstreams, the update of the gossip that a change of the
    local endpoints starts, and every gossip step, whose watcher calls the
    syncer handles.  The manager holds its mutex from a change of the local
    endpoints until the subscribers of the cluster have returned ([pn_update]
    is what is left of that), while the gossip goes on. *)

From S2P Require Import Prelude GoLib GossipState GossipReplica GossipMembership Protocol GossipExchange GossipNet Cluster Syncer Advertise SyncerGossip Upstream.

(** ** Definitions *)

Record piko_node := mkPiko {
  pn_gossip : clusterState;
  pn_pending : gmap string cnode;
  pn_manager : manager;
  pn_update : list callback;
}.

(** The syncer of a node: it has the cluster state of the manager. *)
Definition pn_syncer (n : piko_node) : syncer := mkSyncer (pn_pending n) (m_cluster (pn_manager n)).

Record piko_net := mkPikoNet {
  pk_nodes : gmap string piko_node;
  pk_soup : list message;
}.

Definition empty_piko : piko_net := mkPikoNet ∅ [].

Definition set_piko (a : string) (n : piko_node) (P : piko_net) : piko_net :=
  mkPikoNet (<[a := n]> (pk_nodes P)) (pk_soup P).

Definition piko_post (m : message) (P : piko_net) : piko_net := mkPikoNet (pk_nodes P) (m :: pk_soup P).

(** The gossip of the network. *)
Definition proj (P : piko_net) : network := mkNetwork (pn_gossip <$> pk_nodes P) (pk_soup P).

(** A gossip operation with its effects: the syncer handles the calls. *)
Definition with_gossip (n : piko_node) (r : clusterState * list effect) : piko_node :=
  let s := (handle_calls (pn_syncer n) (calls r.2)).1 in
  mkPiko r.1 (pendingNodes s) (mkManager (localUpstreams (pn_manager n)) (sy_cluster s)) (pn_update n).

Definition with_manager (n : piko_node) (m : manager) : piko_node :=
  mkPiko (pn_gossip n) (pn_pending n) m (pn_update n).

Definition with_update (n : piko_node) (cbs : list callback) : piko_node :=
  mkPiko (pn_gossip n) (pn_pending n) (pn_manager n) cbs.

(** The subscribers a change calls, in order. *)
Definition callbacks (effs : list manager_effect) : list callback :=
  omap (λ eff, match eff with ClusterEffect (CallLocal _ e) => Some (CallbackRead e) | _ => None end) effs.

(** A change of the connections: the manager is locked until the callbacks
    have returned. *)
Definition change_manager (n : piko_node) (r : manager * list manager_effect) : piko_node :=
  mkPiko (pn_gossip n) (pn_pending n) r.1 (callbacks r.2).

Section net.
Context `{MapIter, DetectorLaws D} (conf : string → node_conf).

Definition gossip_calls (g : clusterState) (cs : list gossiper_call) : option clusterState :=
  foldl (λ og c, g ← og; fst <$> gossip_call g c) (Some g) cs.

(** A node after [NewServer] and [NewGossip]: the syncer has published the
    local node. *)
Definition new_piko (id : string) : option piko_node :=
  let local := mkCNode id "" (nc_proxy (conf id)) (nc_admin (conf id)) ∅ in
  '(s, cs) ← Sync (newSyncer (NewState local).1);
  g ← gossip_calls (newClusterState id (nc_gossip (conf id))) cs;
  Some (mkPiko g (pendingNodes s) (NewLoadBalancedManager (sy_cluster s)) []).

(** Room for the next versions of the node's own state. *)
Definition has_room (g : clusterState) : Prop := ∀ O, nodes g !! localID g = Some O → room O.

(** Leaving and compacting. *)
Definition quiet_op (op : owner_op) : Prop := op = OpLeave ∨ ∃ t, op = OpCompact t ∧ (0 < t)%Z.

(** The steps of the network.  A digest or a delta may go from any node to any
    other, while the program sends them only to the addresses a node is
    configured to join and to nodes it knows: the steps include the program's.
    Which of them the program can take on its own is [known_step] of
    [PikoSync]. *)
Inductive piko_step : piko_net → piko_net → Prop :=
  | pk_start id n P :
      pk_nodes P !! id = None → new_piko id = Some n → piko_step P (set_piko id n P)
  (** [AddConn], [RemoveConn] and [Select] take the manager's mutex; the
      upstream server adds connections only *)
  | pk_add a n u r P :
      pk_nodes P !! a = Some n → pn_update n = [] → Forward u = false →
      u_ptr u ∉ (u_ptr <$> connected (pn_manager n) (EndpointID u)) →
      AddConn (pn_manager n) u = Some r → manager_room r.1 → piko_step P (set_piko a (change_manager n r) P)
  | pk_remove a n u r P :
      pk_nodes P !! a = Some n → pn_update n = [] →
      u ∈ connected (pn_manager n) (EndpointID u) ∨
        u_ptr u ∉ (u_ptr <$> connected (pn_manager n) (EndpointID u)) →
      RemoveConn (pn_manager n) u = Some r → piko_step P (set_piko a (change_manager n r) P)
  | pk_select a n ptr e allow m effs u ok P :
      pk_nodes P !! a = Some n → pn_update n = [] →
      Select ptr (pn_manager n) e allow = Some (m, effs, u, ok) →
      piko_step P (set_piko a (with_manager n m) P)
  (** the syncer's callback reads the listeners, calls the gossiper, returns *)
  | pk_read a n e cs k P :
      pk_nodes P !! a = Some n → pn_update n = CallbackRead e :: k →
      onLocalEndpointUpdate (pn_syncer n) e = Some cs →
      piko_step P (set_piko a (with_update n (CallbackCalls cs :: k)) P)
  | pk_call a n c cs k r P :
      pk_nodes P !! a = Some n → pn_update n = CallbackCalls (c :: cs) :: k →
      has_room (pn_gossip n) → gossip_call (pn_gossip n) c = Some r →
      piko_step P (set_piko a (with_update (with_gossip n r) (CallbackCalls cs :: k)) P)
  | pk_return a n k P :
      pk_nodes P !! a = Some n → pn_update n = CallbackCalls [] :: k →
      piko_step P (set_piko a (with_update n k) P)
  (** the gossip of the node: [LeaveLocal] and [CompactLocal] *)
  | pk_quiet a n op r P :
      pk_nodes P !! a = Some n → quiet_op op →
      has_room (pn_gossip n) → run_local op (pn_gossip n) = Some r →
      piko_step P (set_piko a (with_gossip n r) P)
  | pk_gossip a b n dg P :
      pk_nodes P !! a = Some n → dg ⊆ Digest (pn_gossip n) →
      piko_step P (piko_post (mkMessage a b (PDigest dg)) P)
  | pk_push a b n dl P :
      pk_nodes P !! a = Some n → LocalDelta (pn_gossip n) = Some dl →
      piko_step P (piko_post (mkMessage a b (PDelta dl)) P)
  | pk_digest a b n dg full dl P :
      pk_nodes P !! b = Some n → mkMessage a b (PDigest dg) ∈ pk_soup P →
      let n1 := with_gossip n (ApplyDigest (pn_gossip n) a dg) in
      truncated dl (Delta (pn_gossip n1) dg full) →
      piko_step P (piko_post (mkMessage b a (PDelta dl)) (set_piko b n1 P))
  | pk_delta a b n now dl P :
      pk_nodes P !! b = Some n → mkMessage a b (PDelta dl) ∈ pk_soup P → (0 ≤ now)%Z →
      piko_step P (set_piko b (with_gossip n (ApplyDelta now (pn_gossip n) a dl)) P)
  | pk_liveness b n now (d : D) thr s' d' effs P :
      pk_nodes P !! b = Some n → (0 ≤ now)%Z →
      UpdateLiveness now (pn_gossip n) d thr = Some (s', d', effs) →
      piko_step P (set_piko b (with_gossip n (s', effs)) P).

Definition piko_reachable (P : piko_net) : Prop := rtc piko_step empty_piko P.

(** ** Specification *)

(** What is published about endpoint [e], for a count of listeners. *)
Definition advertised_at (c : string → nat) (g : clusterState) (e : string) : Prop :=
  published g !! (endpointPrefix +:+ e) = if decide (c e = 0) then None else Some (Itoa (Z.of_nat (c e))).

(** The call that publishes an endpoint. *)
Definition publish_endpoint (c : string → nat) (e : string) : gossiper_call :=
  if decide (c e = 0) then DeleteLocalCall (endpointPrefix +:+ e)
  else UpsertLocalCall (endpointPrefix +:+ e) (Itoa (Z.of_nat (c e))).

(** With an update going on, its endpoint is the only one that may not be
    advertised. *)
Definition update_inv (c : string → nat) (g : clusterState) (cbs : list callback) : Prop :=
  match cbs with
  | [] => ∀ e, advertised_at c g e
  | [cb] => ∃ e, (∀ x, x ≠ e → advertised_at c g x) ∧
      match cb with
      | CallbackRead e' => e' = e
      | CallbackCalls [] => advertised_at c g e
      | CallbackCalls [call] => call = publish_endpoint c e
      | CallbackCalls _ => False
      end
  | _ => False
  end.

(** The cluster counts at most the connected upstreams of each endpoint (fewer
    when an upstream was removed twice), and advertises what it counts. *)
Record owner_inv (a : string) (n : piko_node) : Prop := {
  oi_gossip : gossip_ok (pn_gossip n);
  oi_proxy : published (pn_gossip n) !! proxyKey = Some (nc_proxy (conf a));
  oi_admin : published (pn_gossip n) !! adminKey = Some (nc_admin (conf a));
  oi_counts : ∃ c, manager_counts c (pn_manager n) ∧ (∀ e, c e ≤ length (connected (pn_manager n) e)) ∧
    update_inv c (pn_gossip n) (pn_update n);
  oi_room : manager_room (pn_manager n);
  oi_subscribers : localEndpointSubscribers (m_cluster (pn_manager n)) = [syncer_callback];
}.

Record node_inv (a : string) (n : piko_node) : Prop := {
  ni_owner : owner_inv a n;
  ni_local : cs_localID (m_cluster (pn_manager n)) = a;
  ni_synced : ∃ m, Syncer.synced m (pn_syncer n) ∧ sticky conf (peers (pn_gossip n)) m;
  ni_conforming : conforming_state conf (pn_gossip n);
}.

Record piko_inv (P : piko_net) : Prop := {
  pi_net : net_inv (proj P);
  pi_node : ∀ a n, pk_nodes P !! a = Some n → node_inv a n;
  pi_soup : ∀ m, m ∈ pk_soup P → match m_payload m with PDelta dl => conforming_delta conf dl | _ => True end;
}.


(** ** Local operations of the gossip *)

Definition op_of_call (c : gossiper_call) : owner_op :=
  match c with UpsertLocalCall key value => OpUpsert key value | DeleteLocalCall key => OpDelete key end.

Lemma gossip_call_run g c : gossip_call g c = run_local (op_of_call c) g.
Proof. by destruct c. Qed.

Lemma gossiper_call_op_ok c : gossiper_call_ok c → op_ok (op_of_call c).
Proof. destruct c; [by intros []|done]. Qed.

(** A local operation only changes the local node and calls no watcher. *)
Lemma local_op op g g' effs :
  state_wf g → run_local op g = Some (g', effs) →
  ∃ O O', nodes g !! localID g = Some O ∧ owner_wf O ∧ run_op op O = Some (O', effs) ∧
    g' = set_node (localID g) O' g ∧ calls effs = [].
Proof.
  intros Hw. rewrite run_local_with. unfold with_local. destruct (swf_local _ Hw) as (O&HO&Hown&_). rewrite HO. simpl.
  destruct (run_op op O) as [[O' w]|] eqn:Hop; [|done]. simpl. intros [= <- <-]. exists O, O'.
  split_and!; try done. by destruct (run_op_quiet _ _ _ _ Hop).
Qed.

Lemma local_op_peers id O' g : peers (set_node (localID g) O' g) = peers g ∧ localID (set_node id O' g) = localID g.
Proof. unfold peers. simpl. by rewrite delete_insert_eq. Qed.

Lemma local_op_published g O' : published (set_node (localID g) O' g) = view (ns_Entries O').
Proof. unfold published. simpl. by rewrite lookup_insert_eq. Qed.

Lemma published_local g O : nodes g !! localID g = Some O → published g = view (ns_Entries O).
Proof. unfold published. by intros ->. Qed.

Lemma local_op_conforming g O' :
  conforming_state conf g → conforming_node conf (localID g) O' → conforming_state conf (set_node (localID g) O' g).
Proof. intros Hg HO. apply (conforming_put conf g _ _ (tombstones g) Hg HO). Qed.

Lemma with_gossip_quiet n r :
  calls r.2 = [] → with_gossip n r = mkPiko r.1 (pn_pending n) (pn_manager n) (pn_update n).
Proof. intros Hc. unfold with_gossip. rewrite Hc. by destruct n as [g p [l c] u]. Qed.

(** ** What a change of the gossip keeps *)

Lemma counts_keeps s s' c : keeps_local s s' → counts s c → counts s' c.
Proof. intros [El En _] (n&Hn&Hc). exists n. by rewrite El, En. Qed.

Lemma update_inv_published c g g' cbs : published g' = published g → update_inv c g cbs → update_inv c g' cbs.
Proof. unfold update_inv, advertised_at. by intros ->. Qed.

Lemma owner_inv_gossip a n g p c :
  owner_inv a n → gossip_ok g → published g = published (pn_gossip n) →
  cluster_wf c → keeps_local (m_cluster (pn_manager n)) c →
  owner_inv a (mkPiko g p (mkManager (localUpstreams (pn_manager n)) c) (pn_update n)).
Proof.
  intros [Hg Hp Ha (k&[Hw Hl Hc]&Hle&Hu) Hr Hs] Hg' Hpub Hw' Hk. split; simpl; rewrite ?Hpub; try done.
  - exists k. split_and!; [|done|by eapply update_inv_published].
    split; [done|done|by eapply counts_keeps].
  - rewrite (kl_subscribers _ _ Hk). done.
Qed.

(** An operation on what other nodes said. *)
Lemma node_inv_remote a n g effs :
  (∀ x, nc_proxy (conf x) ≠ "" ∧ nc_admin (conf x) ≠ "") →
  node_inv a n → state_wf (pn_gossip n) → localID (pn_gossip n) = a →
  well_called conf (pn_gossip n) g effs → nodes g !! a = nodes (pn_gossip n) !! a → node_inv a (with_gossip n (g, effs)).
Proof.
  intros Hconf [Ho Hloc (m&Hm&Hst) Hcon] Hw Hl Hcall Hown.
  destruct (Hcall Hw Hcon) as (Ht&Hcon'&Hf). destruct (Ht Hw) as (Hl'&_&Hpeers).
  destruct (handle_calls_sticky conf Hconf (calls effs) _ _ _ Hm Hst) as (m'&Hm'&Hst').
  { simpl. by rewrite Hloc, <-Hl. }
  pose proof (handle_calls_keeps (calls effs) (pn_syncer n)) as Hk. unfold watch in Hpeers. rewrite Hpeers in Hst'.
  unfold with_gossip. simpl. set (s := (handle_calls _ _).1) in *.
  assert (published g = published (pn_gossip n)) as Hpub by (unfold published; by rewrite Hl', Hl, Hown).
  split; simpl.
  - apply owner_inv_gossip; [done| |done| |done].
    + destruct (oi_gossip _ _ Ho) as (O&HO&HOk). exists O. rewrite Hl', Hl, Hown, <-Hl. done.
    + destruct (oi_counts _ _ Ho) as (c&Hc&_). eapply synced_cluster_wf; [exact Hm'|apply Hc|exact Hk].
  - by rewrite (kl_id _ _ Hk).
  - exists m'. by destruct s.
  - done.
Qed.

(** What leaves the local node with [O']. *)
Lemma node_inv_local a n O' effs :
  node_inv a n → localID (pn_gossip n) = a → calls effs = [] →
  let g := set_node a O' (pn_gossip n) in
  owner_inv a (mkPiko g (pn_pending n) (pn_manager n) (pn_update n)) → conforming_node conf a O' →
  node_inv a (with_gossip n (g, effs)).
Proof.
  intros [Ho Hloc (m&Hm&Hst) Hcon] <- Hcalls g Ho' HO'. rewrite with_gossip_quiet by done.
  split; [done|done| |by apply local_op_conforming]. exists m. split; [done|].
  simpl. unfold g. by rewrite (proj1 (local_op_peers (localID (pn_gossip n)) O' (pn_gossip n))).
Qed.

Lemma quiet_op_weaken op : quiet_op op → op = OpLeave ∨ ∃ t, op = OpCompact t.
Proof. intros [->|(t&->&_)]; [by left|right; eauto]. Qed.

Lemma quiet_op_ok op : quiet_op op → op_ok op.
Proof. by intros [->|(t&->&?)]. Qed.

(** Leaving and compacting publish nothing new. *)
Lemma node_inv_quiet a n op g effs :
  node_inv a n → state_wf (pn_gossip n) → localID (pn_gossip n) = a → quiet_op op → has_room (pn_gossip n) →
  run_local op (pn_gossip n) = Some (g, effs) → node_inv a (with_gossip n (g, effs)).
Proof.
  intros Hn Hw Hl Hop Hroom Hrun. pose proof (ni_owner _ _ Hn) as Ho.
  destruct (local_op _ _ _ _ Hw Hrun) as (O&O'&HO&Hown&Hrop&->&Hcalls).
  destruct (oi_gossip _ _ Ho) as (O1&HO1&_&_&Hd). assert (O1 = O) as -> by congruence.
  destruct (run_op_step op O O' effs Hown (quiet_op_ok _ Hop) (Hroom _ HO) Hrop) as [[[] _ _ _] _].
  pose proof (quiet_op_weaken _ Hop) as Hop'.
  assert (published (set_node (localID (pn_gossip n)) O' (pn_gossip n)) = published (pn_gossip n)) as Hpub.
  { rewrite local_op_published, (published_local _ _ HO).
    eapply quiet_op_view; [exact Hown|by apply Hroom|exact Hop'|exact Hrop]. }
  rewrite Hl in *. apply node_inv_local; [done|done|done| |].
  - pose proof (owner_inv_gossip a n (set_node a O' (pn_gossip n)) (pn_pending n) (m_cluster (pn_manager n)) Ho) as Hoi.
    assert (cluster_wf (m_cluster (pn_manager n))) as Hcw by (destruct (oi_counts _ _ Ho) as (k&[]&_); done).
    destruct (pn_manager n) as [lus c]. apply Hoi; [|done|done|apply keeps_refl].
    exists O'. simpl. rewrite Hl, lookup_insert_eq. split_and!; [done..|].
    intros k e He HD. destruct (quiet_op_entries _ _ _ _ _ _ Hop' Hrop He) as [(k0&e0&He0&_&Hv&_&Hdel)|[_ ?]]; [|congruence].
    rewrite Hv. by apply (Hd k0); [|congruence].
  - eapply quiet_op_conforming; [exact Hop'|exact Hrop|]. by apply (ni_conforming _ _ Hn).
Qed.

(** ** Changes of the connections *)

(** A change of the local endpoints keeps the remote nodes. *)
Record remote_same (c c' : State) : Prop := {
  rs_id : cs_localID c' = cs_localID c;
  rs_nodes : ∀ id, id ≠ cs_localID c → cs_nodes c' !! id = cs_nodes c !! id;
  rs_subscribers : localEndpointSubscribers c' = localEndpointSubscribers c;
}.

Lemma remote_same_synced m p c c' :
  remote_same c c' → Syncer.synced m (mkSyncer p c) → Syncer.synced m (mkSyncer p c').
Proof.
  intros [El En _] [Hl Hs]. split; simpl in *; rewrite El; [done|]. intros id Hne. rewrite En by done. by apply Hs.
Qed.

Lemma run_endpoint_remote op s s' effs : run_endpoint op s = Some (s', effs) → remote_same s s'.
Proof.
  destruct op as [e|e]; simpl; unfold AddLocalEndpoint, RemoveLocalEndpoint;
    (destruct (cs_nodes s !! cs_localID s) as [n|]; [|done]); simpl.
  - intros [= <- _]. split; [done| |done]. intros id Hne. simpl. by rewrite lookup_insert_ne.
  - destruct (cn_Endpoints n !! e); [|by intros [= <- _]]. case_decide; [by intros [= <- _]|].
    intros [= <- _]. split; [done| |done]. intros id Hne. simpl. by rewrite lookup_insert_ne.
Qed.

(** The callbacks of a change are one for each changed endpoint. *)
Lemma change_callbacks s c op s' effs pre post :
  counts s c → count_room c → localEndpointSubscribers s = [syncer_callback] →
  run_endpoint op s = Some (s', effs) → callbacks pre = [] → callbacks post = [] →
  callbacks (pre ++ (ClusterEffect <$> effs) ++ post) = CallbackRead <$> changed c op.
Proof.
  intros Hc Hroom Hsub Hrun Hpre Hpost. destruct (run_endpoint_counts s c op Hc Hroom) as (s1&Hrun1&_).
  assert (effs = changed c op ≫= call_local s) as -> by congruence.
  unfold callbacks in *. rewrite !omap_app, Hpre, Hpost, app_nil_r. simpl. unfold call_local. rewrite Hsub.
  clear. induction (changed c op) as [|e l IH]; [done|]. exact (f_equal (cons (CallbackRead e)) IH).
Qed.

Lemma AddConn_endpoint m u r :
  AddConn m u = Some r → ∃ effs pre, run_endpoint (EAdd (EndpointID u)) (m_cluster m) = Some (m_cluster r.1, effs) ∧
    r.2 = pre ++ (ClusterEffect <$> effs) ++ [ConnectedUpstreamsInc] ∧ callbacks pre = [].
Proof.
  unfold AddConn. intros Hr.
  destruct (match localUpstreams m !! EndpointID u with Some lb => (lb, []) | None => (mkLB [] 0, [RegisteredEndpointsInc]) end)
    as [lb pre] eqn:Hp. simpl.
  destruct (AddLocalEndpoint _ _) as [[c effs]|]; [|done]. injection Hr as <-. exists effs, pre. split_and!; [done|done|].
  destruct (localUpstreams m !! EndpointID u); by injection Hp as <- <-.
Qed.

Lemma RemoveConn_endpoint m u r :
  RemoveConn m u = Some r →
  localUpstreams m !! EndpointID u = None ∧ r = (m, []) ∨
  is_Some (localUpstreams m !! EndpointID u) ∧
  ∃ effs pre, run_endpoint (ERemove (EndpointID u)) (m_cluster m) = Some (m_cluster r.1, effs) ∧
    r.2 = pre ++ (ClusterEffect <$> effs) ++ [ConnectedUpstreamsDec] ∧ callbacks pre = [].
Proof.
  unfold RemoveConn. destruct (localUpstreams m !! EndpointID u) as [lb|]; [|intros [= <-]; by left]. right.
  split; [by eexists|]. destruct (lb_Remove lb u) as [lb' []]; simpl in *;
    (destruct (RemoveLocalEndpoint _ _) as [[c effs]|]; [|done]); simplify_eq/=;
    exists effs; [by exists [RegisteredEndpointsDec]|by exists []].
Qed.

Lemma advertised_at_ext c c' g e : c' e = c e → advertised_at c g e → advertised_at c' g e.
Proof. unfold advertised_at. by intros ->. Qed.

Lemma update_inv_change c g op :
  update_inv c g [] → update_inv (count_op c op) g (CallbackRead <$> changed c op).
Proof.
  intros Hadv.
  assert (∀ e, e ∉ changed c op → advertised_at (count_op c op) g e) as Hsame.
  { intros e He. apply (advertised_at_ext c); [|apply Hadv]. destruct op as [x|x]; simpl in *.
    - rewrite decide_False; [done|set_solver].
    - destruct (decide (e = x)) as [->|]; [|done]. destruct (decide (c x = 0)); [lia|set_solver]. }
  assert (changed c op = [] ∨ ∃ e, changed c op = [e]) as [Hch|[e Hch]].
  { destruct op; simpl; [eauto|]. case_decide; eauto. }
  - rewrite Hch in *. intros e. apply Hsame. set_solver.
  - rewrite Hch in *. exists e. split; [|done]. intros x Hx. apply Hsame. set_solver.
Qed.

(** A change of the connections starts an update of its endpoint. *)
Lemma node_inv_change a n op m' effs c :
  node_inv a n → pn_update n = [] → manager_counts c (pn_manager n) →
  update_inv c (pn_gossip n) [] →
  manager_counts (count_op c op) m' → (∀ e, count_op c op e ≤ length (connected m' e)) → manager_room m' →
  remote_same (m_cluster (pn_manager n)) (m_cluster m') → callbacks effs = CallbackRead <$> changed c op →
  node_inv a (change_manager n (m', effs)).
Proof.
  intros [[Hg Hp Ha _ _ Hs] Hloc (m&Hm&Hst) Hcon] Hu Hc Hadv Hc' Hle Hroom Hrs Hcb. split; simpl.
  - split; simpl; [done..| |done|].
    + exists (count_op c op). split_and!; [done|done|]. rewrite Hcb. by apply update_inv_change.
    + by rewrite (rs_subscribers _ _ Hrs).
  - by rewrite (rs_id _ _ Hrs).
  - exists m. split; [|done]. by eapply remote_same_synced.
  - done.
Qed.

Lemma room_counts m (c : string → nat) : manager_room m → (∀ e, c e ≤ length (connected m e)) → count_room c.
Proof. intros Hr Hle e. specialize (Hr e). specialize (Hle e). lia. Qed.

Lemma node_inv_add a n u r :
  node_inv a n → pn_update n = [] → u_ptr u ∉ (u_ptr <$> connected (pn_manager n) (EndpointID u)) →
  AddConn (pn_manager n) u = Some r → manager_room r.1 → node_inv a (change_manager n r).
Proof.
  intros Hn Hu Hnin Hr Hroom. pose proof (ni_owner _ _ Hn) as Ho.
  destruct (oi_counts _ _ Ho) as (c&Hc&Hle&Hupd). pose proof (room_counts _ _ (oi_room _ _ Ho) Hle) as Hcr.
  destruct (AddConn_gen c _ u Hc Hcr Hnin) as (m'&effs&Hrun&Hc'&Hself&Hother).
  assert (r = (m', effs)) as -> by congruence.
  destruct (AddConn_endpoint _ _ _ Hr) as (ceffs&pre&Hep&Heffs&Hpre). simpl in *. rewrite Hu in Hupd.
  apply (node_inv_change a n (EAdd (EndpointID u)) m' effs c); try done.
  - intros e. simpl. case_decide as He; [subst|by rewrite Hother].
    rewrite Hself, length_app. simpl. specialize (Hle (EndpointID u)). lia.
  - by eapply (run_endpoint_remote (EAdd _)).
  - rewrite Heffs. eapply change_callbacks; [apply Hc|done|apply Ho|exact Hep|done|done].
Qed.

Lemma node_inv_remove a n u r :
  node_inv a n → pn_update n = [] →
  u ∈ connected (pn_manager n) (EndpointID u) ∨ u_ptr u ∉ (u_ptr <$> connected (pn_manager n) (EndpointID u)) →
  RemoveConn (pn_manager n) u = Some r → node_inv a (change_manager n r).
Proof.
  intros Hn Hu Hin Hr. pose proof (ni_owner _ _ Hn) as Ho.
  destruct (oi_counts _ _ Ho) as (c&Hc&Hle&Hupd). pose proof (room_counts _ _ (oi_room _ _ Ho) Hle) as Hcr.
  destruct (RemoveConn_endpoint _ _ _ Hr) as [[_ ->]|(Hlb&ceffs&pre&Hep&Heffs&Hpre)].
  { unfold change_manager. simpl. destruct n as [g p m u0]. simpl in *. by rewrite Hu in Hn. }
  assert (manager_counts (count_op c (ERemove (EndpointID u))) r.1 ∧
    (∀ e, connected r.1 e = connected (pn_manager n) e ∨ e = EndpointID u ∧
       S (length (connected r.1 e)) = length (connected (pn_manager n) e))) as [Hc' Hcon].
  { destruct Hin as [Hin|Hnin].
    - destruct (RemoveConn_gen c _ u Hc Hcr Hin) as (m'&effs&l1&l2&Hrun&Hc'&Hold&Hself&Hother).
      assert (r = (m', effs)) as -> by congruence. split; [done|]. intros e.
      destruct (decide (e = EndpointID u)) as [->|He]; [right|left; by apply Hother].
      split; [done|]. simpl. rewrite Hold, Hself, !length_app. simpl. lia.
    - destruct (RemoveConn_absent c _ u Hc Hcr Hnin) as (m'&effs&Hrun&Hsame&Hc').
      assert (r = (m', effs)) as -> by congruence. split; [|intros e; left; apply Hsame].
      rewrite decide_False in Hc'; [done|]. intros Hnil. apply (connected_None c) in Hnil; [|done].
      destruct Hlb as [? ?]. congruence. }
  rewrite Hu in Hupd. destruct r as [m' effs]. simpl in *.
  apply (node_inv_change a n (ERemove (EndpointID u)) m' effs c); try done.
  - intros e. specialize (Hle e). simpl. destruct (Hcon e) as [->|[-> Hl]]; case_decide; try done; lia.
  - intros e. pose proof (oi_room _ _ Ho e). destruct (Hcon e) as [->|[-> Hl]]; [done|lia].
  - by eapply (run_endpoint_remote (ERemove _)).
  - rewrite Heffs. eapply change_callbacks; [apply Hc|done|apply Ho|exact Hep|done|done].
Qed.

Lemma node_inv_select a n ptr e allow m effs u ok :
  node_inv a n → Select ptr (pn_manager n) e allow = Some (m, effs, u, ok) → node_inv a (with_manager n m).
Proof.
  intros Hn Hsel. pose proof (ni_owner _ _ Hn) as Ho. destruct (oi_counts _ _ Ho) as (c&Hc&Hle&Hupd).
  destruct (localUpstreams (pn_manager n) !! e) as [lb|] eqn:Hlb.
  - destruct (Select_local c ptr _ e allow lb Hc Hlb) as (m'&u'&Hsel'&_&Hc'&Hcon&Hcl).
    assert (m' = m) as -> by congruence. destruct Hn as [[Hg Hp Ha _ Hr Hs] Hloc (mm&Hm&Hst) Hconf].
    split; simpl; [|by rewrite Hcl| |done].
    + split; simpl; [done..| | |by rewrite Hcl]; [|intros x; by rewrite Hcon].
      exists c. split_and!; [done|intros x; by rewrite Hcon|done].
    + exists mm. split; [|done]. unfold pn_syncer. simpl. by rewrite Hcl.
  - assert (m = pn_manager n) as ->.
    { unfold Select in Hsel. rewrite Hlb in Hsel. destruct (negb allow); [by simplify_eq|].
      destruct (LookupEndpoint _ _); by simplify_eq. }
    by destruct n.
Qed.

(** ** The callback of the syncer *)

Lemma node_inv_update a n cbs :
  node_inv a n →
  (∀ c, manager_counts c (pn_manager n) → update_inv c (pn_gossip n) (pn_update n) → update_inv c (pn_gossip n) cbs) →
  node_inv a (with_update n cbs).
Proof.
  intros [[Hg Hp Ha (c&Hc&Hle&Hu) Hr Hs] Hloc Hm Hcon] Hcbs. split; [|done..]. split; [done..| |done|done].
  exists c. split_and!; [done|done|by apply Hcbs].
Qed.

(** The callback that reads finds what to publish. *)
Lemma read_calls s c e cs :
  counts (sy_cluster s) c → onLocalEndpointUpdate s e = Some cs → cs = [publish_endpoint c e].
Proof. intros Hc. rewrite (onLocalEndpointUpdate_calls s e c Hc). by intros [= <-]. Qed.

Lemma node_inv_read a n e cs k :
  node_inv a n → pn_update n = CallbackRead e :: k → onLocalEndpointUpdate (pn_syncer n) e = Some cs →
  node_inv a (with_update n (CallbackCalls cs :: k)).
Proof.
  intros Hn Hu Hread. apply node_inv_update; [done|]. intros c Hc. rewrite Hu.
  destruct k as [|]; [|done]. intros (e'&Hother&->).
  rewrite (read_calls (pn_syncer n) c _ _ (mwf_counts _ _ Hc) Hread). by exists e'.
Qed.

Lemma node_inv_return a n k :
  node_inv a n → pn_update n = CallbackCalls [] :: k → node_inv a (with_update n k).
Proof.
  intros Hn Hu. apply node_inv_update; [done|]. intros c Hc. rewrite Hu.
  destruct k as [|]; [|done]. intros (e&Hother&He) x. destruct (decide (x = e)) as [->|]; [done|by apply Hother].
Qed.

Lemma publish_endpoint_ok c e : count_room c → gossiper_call_ok (publish_endpoint c e).
Proof.
  intros Hroom. unfold publish_endpoint. specialize (Hroom e). pose proof (endpoint_user_key e).
  case_decide; [done|]. split; [done|]. apply Itoa_nonempty. unfold is_i64. lia.
Qed.

Lemma publish_endpoint_at c e g g' :
  published g' = publish_call (published g) (publish_endpoint c e) →
  advertised_at c g' e ∧ (∀ x, x ≠ e → advertised_at c g x → advertised_at c g' x) ∧
  ∀ k, HasPrefix k endpointPrefix = false → published g' !! k = published g !! k.
Proof.
  unfold advertised_at, publish_endpoint. intros ->. case_decide; simpl; split_and!.
  - apply lookup_delete_eq.
  - intros x Hx. rewrite lookup_delete_ne; [done|]. intros ?%endpointPrefix_inj. congruence.
  - intros k Hk. rewrite lookup_delete_ne; [done|]. intros <-. by rewrite HasPrefix_app in Hk.
  - apply lookup_insert_eq.
  - intros x Hx. rewrite lookup_insert_ne; [done|]. intros ?%endpointPrefix_inj. congruence.
  - intros k Hk. rewrite lookup_insert_ne; [done|]. intros <-. by rewrite HasPrefix_app in Hk.
Qed.

Lemma publish_endpoint_conf c e x :
  count_room c → match publish_endpoint c e with UpsertLocalCall k v => conf_key conf x k v | _ => True end.
Proof.
  intros Hroom. unfold publish_endpoint. specialize (Hroom e). case_decide; [done|]. right; right.
  split; [apply HasPrefix_app|]. rewrite Atoi_Itoa by (unfold is_i64; lia). by eexists.
Qed.

(** A gossiper call of a conforming key. *)
Lemma call_conforming x c O O' effs :
  match c with UpsertLocalCall k v => conf_key conf x k v | _ => True end →
  run_op (op_of_call c) O = Some (O', effs) → conforming_node conf x O → conforming_node conf x O'.
Proof.
  destruct c as [k v|k]; simpl; intros Hc Hrun HO; [by eapply upsertNode_conforming|by eapply deleteNode_conforming].
Qed.

Lemma node_inv_call a n call cs k r :
  node_inv a n → state_wf (pn_gossip n) → localID (pn_gossip n) = a →
  pn_update n = CallbackCalls (call :: cs) :: k → gossip_call (pn_gossip n) call = Some r →
  op_ok (op_of_call call) ∧ node_inv a (with_update (with_gossip n r) (CallbackCalls cs :: k)).
Proof.
  intros Hn Hw Hl Hu Hcall. pose proof (ni_owner _ _ Hn) as Ho.
  destruct (oi_counts _ _ Ho) as (c&Hc&Hle&Hupd). pose proof (room_counts _ _ (oi_room _ _ Ho) Hle) as Hcr.
  rewrite Hu in Hupd. destruct k as [|]; [|done]. destruct Hupd as (e&Hother&Hce). destruct cs as [|]; [subst call|done].
  pose proof (publish_endpoint_ok c e Hcr) as Hok. split; [by apply gossiper_call_op_ok|].
  destruct (gossip_call_publishes _ _ (oi_gossip _ _ Ho) Hok) as (g&effs&Hrun&Hg&Hgl&Hpub).
  assert (r = (g, effs)) as -> by congruence. rewrite gossip_call_run in Hrun.
  destruct (local_op _ _ _ _ Hw Hrun) as (O&O'&HO&Hown&Hrop&->&Hcalls).
  destruct (publish_endpoint_at c e _ _ Hpub) as (Hat&Hrest&Hkeys). rewrite Hl in *.
  rewrite with_gossip_quiet by done. unfold with_update. simpl.
  destruct Hn as [_ Hcl (m&Hm&Hst) Hcon].
  split; simpl; [|done| |].
  - destruct Ho as [_ Hp Ha _ Hr Hs]. split; simpl; [done|by rewrite Hkeys|by rewrite Hkeys| |done|done].
    exists c. split_and!; [done|done|]. exists e. split; [|done]. intros x Hx. by apply Hrest, Hother.
  - exists m. split; [done|]. rewrite <-Hl. by rewrite (proj1 (local_op_peers (localID (pn_gossip n)) O' (pn_gossip n))).
  - rewrite <-Hl. apply local_op_conforming; [done|]. rewrite Hl.
    eapply call_conforming; [by apply publish_endpoint_conf|exact Hrop|]. by apply Hcon.
Qed.

(** ** A new node *)

Definition first_state (id : string) : clusterState := newClusterState id (nc_gossip (conf id)).

Lemma first_gossip_ok id : gossip_ok (first_state id).
Proof.
  exists (newNode id (nc_gossip (conf id))). split; [apply lookup_singleton_eq|].
  split_and!; intros k e; simpl; by rewrite lookup_empty.
Qed.

(** A node publishes its two addresses when it starts. *)
Lemma first_publish id :
  nc_proxy (conf id) ≠ "" → nc_admin (conf id) ≠ "" →
  ∃ g1 e1 g2 e2, run_local (OpUpsert proxyKey (nc_proxy (conf id))) (first_state id) = Some (g1, e1) ∧
    run_local (OpUpsert adminKey (nc_admin (conf id))) g1 = Some (g2, e2) ∧
    has_room (first_state id) ∧ has_room g1 ∧
    gossip_ok g2 ∧ published g2 = <[adminKey := nc_admin (conf id)]> {[proxyKey := nc_proxy (conf id)]} ∧
    peers g2 = ∅ ∧ localID g2 = id ∧ conforming_state conf g2.
Proof.
  intros Hp Ha. assert (user_key proxyKey ∧ user_key adminKey) as [Hup Hua] by done.
  destruct (gossip_call_publishes (first_state id) (UpsertLocalCall proxyKey (nc_proxy (conf id))))
    as (g1&e1&Hrun1&Hg1&Hl1&Hp1); [apply first_gossip_ok|done|].
  destruct (gossip_call_publishes g1 (UpsertLocalCall adminKey (nc_admin (conf id)))) as (g2&e2&Hrun2&Hg2&Hl2&Hp2); [done..|].
  rewrite gossip_call_run in Hrun1, Hrun2. exists g1, e1, g2, e2.
  pose proof (state_wf_new id (nc_gossip (conf id))) as Hw0. fold (first_state id) in Hw0.
  destruct (local_op _ _ _ _ Hw0 Hrun1) as (O0&O1&HO0&Hown0&Hop1&->&_).
  simpl in HO0. rewrite lookup_singleton_eq in HO0. injection HO0 as <-.
  assert (has_room (first_state id)) as Hroom0.
  { intros O. simpl. rewrite lookup_singleton_eq. intros [= <-]. by apply (bool_decide_unpack _). }
  simpl in Hop1. unfold upsertNode in Hop1. simpl in Hop1. rewrite lookup_empty in Hop1. simpl in Hop1.
  injection Hop1 as <- _. set (O1 := put_entry _ _) in *.
  destruct (run_local_tracked (OpUpsert proxyKey (nc_proxy (conf id))) _ _ _ (conj Hup Hroom0) Hrun1 Hw0) as (_&Hw1&_).
  destruct (local_op _ _ _ _ Hw1 Hrun2) as (O1'&O2&HO1&_&Hop2&->&_).
  simpl in HO1. rewrite lookup_insert_eq in HO1. injection HO1 as <-.
  assert (conforming_node conf id O1) as Hc1.
  { intros k e. simpl. rewrite lookup_insert. case_decide; [|by rewrite lookup_empty]. intros [= <-] _ _. by left. }
  split_and!; [done|done|done| |done| |..].
  - intros O. simpl. rewrite lookup_insert_eq. intros [= <-]. unfold room. simpl.
    rewrite map_size_insert_None, map_size_empty by apply lookup_empty. done.
  - rewrite Hp2, Hp1. simpl. f_equal. unfold published. simpl. rewrite lookup_singleton_eq. simpl.
    unfold view. by rewrite omap_empty, insert_empty.
  - rewrite (proj1 (local_op_peers id O2 _)), (proj1 (local_op_peers id O1 (first_state id))).
    unfold peers. simpl. by rewrite delete_singleton_eq.
  - done.
  - apply local_op_conforming.
    + apply local_op_conforming; [|done]. intros x st. simpl. intros [<- <-]%lookup_singleton_Some. apply newNode_conforming.
    + eapply upsertNode_conforming; [exact Hc1| |exact Hop2]. right; by left.
Qed.

Lemma new_piko_ok id :
  nc_proxy (conf id) ≠ "" → nc_admin (conf id) ≠ "" →
  ∃ n g1 e1 e2, new_piko id = Some n ∧
    run_local (OpUpsert proxyKey (nc_proxy (conf id))) (first_state id) = Some (g1, e1) ∧
    run_local (OpUpsert adminKey (nc_admin (conf id))) g1 = Some (pn_gossip n, e2) ∧
    has_room (first_state id) ∧ has_room g1 ∧ node_inv id n.
Proof.
  intros Hp Ha. destruct (first_publish id Hp Ha) as (g1&e1&g2&e2&Hrun1&Hrun2&Hr0&Hr1&Hg&Hpub&Hpeers&Hl&Hcon).
  unfold new_piko, Sync, State_LocalNode. simpl. rewrite lookup_singleton_eq. simpl.
  assert (map_range (∅ : gmap string Z) = []) as Hnil.
  { apply Permutation_nil_r. rewrite map_range_perm. by rewrite map_to_list_empty. }
  unfold gossip_calls. rewrite Hnil. simpl.
  unfold first_state in Hrun1. simpl in Hrun1. rewrite Hrun1. simpl in *. rewrite Hrun2. simpl.
  eexists _, g1, e1, e2. split_and!; [done..|]. split; simpl; [|done| |done].
  - split; simpl; [done|rewrite Hpub; by simplify_map_eq|rewrite Hpub; by simplify_map_eq| |intros e; done|done].
    exists (λ _, 0). split_and!; [|intros; lia|].
    + split; simpl.
      * destruct (NewState_wf (mkCNode id "" (nc_proxy (conf id)) (nc_admin (conf id)) ∅)). by split.
      * intros e lb. by rewrite lookup_empty.
      * eexists. split; [apply lookup_singleton_eq|]. intros e. simpl. by rewrite lookup_empty.
    + intros e. unfold advertised_at. rewrite Hpub. simpl. by rewrite lookup_insert_ne, lookup_singleton_ne.
  - exists ∅. split.
    + exact (synced_new (mkCNode id "" (nc_proxy (conf id)) (nc_admin (conf id)) ∅)).
    + rewrite Hpeers. intros x. rewrite !lookup_empty. constructor.
Qed.

(** ** Every step is a step of the gossip network and keeps the invariant *)

Context (conf_ok : ∀ x, nc_proxy (conf x) ≠ "" ∧ nc_admin (conf x) ≠ "").

Lemma proj_set a n P : proj (set_piko a n P) = set_member a (pn_gossip n) (proj P).
Proof using. unfold proj, set_member. simpl. by rewrite fmap_insert. Qed.

Lemma proj_member a n P : pk_nodes P !! a = Some n → members (proj P) !! a = Some (pn_gossip n).
Proof using. intros Hn. simpl. by rewrite lookup_fmap, Hn. Qed.

Lemma proj_same a n n' P :
  pk_nodes P !! a = Some n → pn_gossip n' = pn_gossip n → proj (set_piko a n' P) = proj P.
Proof using.
  intros Hn Heq. rewrite proj_set, Heq. unfold set_member. rewrite insert_id by by apply proj_member.
  by destruct P.
Qed.

Lemma member_wf a n P : piko_inv P → pk_nodes P !! a = Some n → localID (pn_gossip n) = a ∧ state_wf (pn_gossip n).
Proof using. intros HP Hn. apply (ni_member _ (pi_net _ HP)). by apply proj_member. Qed.

Lemma local_net_step a n op r P :
  pk_nodes P !! a = Some n → op_ok op → has_room (pn_gossip n) → run_local op (pn_gossip n) = Some r →
  net_step (proj P) (set_member a r.1 (proj P)).
Proof using H1.
  intros Hn Hop Hroom Hrun. destruct r as [g effs]. eapply net_local; [by apply proj_member| |exact Hrun]. by split.
Qed.

Lemma pk_call_op a n c cs k r P :
  piko_inv P → pk_nodes P !! a = Some n → pn_update n = CallbackCalls (c :: cs) :: k →
  gossip_call (pn_gossip n) c = Some r →
  op_ok (op_of_call c) ∧ node_inv a (with_update (with_gossip n r) (CallbackCalls cs :: k)).
Proof using H.
  intros HP Hn Hu Hcall. destruct (member_wf _ _ _ HP Hn) as [Hl Hw].
  by apply (node_inv_call a n c cs k r (pi_node _ HP _ _ Hn) Hw Hl Hu).
Qed.

Lemma piko_simulates P P' : piko_inv P → piko_step P P' → rtc net_step (proj P) (proj P').
Proof using conf_ok H1.
  intros HP Hstep. destruct Hstep as
    [id n P Hid Hnew|a n u r P Hn Hu Hfwd Hnin Hr Hroom|a n u r P Hn Hu Hin Hr|a n ptr e allow m effs u ok P Hn Hu Hsel
    |a n e cs k P Hn Hu Hread|a n c cs k r P Hn Hu Hroom Hcall|a n k P Hn Hu|a n op r P Hn Hop Hroom Hrun
    |a b n dg P Hn Hdg|a b n dl P Hn Hdl|a b n dg full dl P Hn Hm n1 Ht|a b n now dl P Hn Hm Hnow
    |b n now d thr s' d' effs P Hn Hnow Hlive].
  - destruct (conf_ok id) as [Hp Ha].
    destruct (new_piko_ok id Hp Ha) as (n'&g1&e1&e2&Hnew'&Hrun1&Hrun2&Hr0&Hr1&_).
    assert (n' = n) as -> by congruence. rewrite proj_set.
    eapply rtc_l. { apply (net_start id (nc_gossip (conf id))). simpl. by rewrite lookup_fmap, Hid. }
    eapply rtc_l.
    { eapply (net_local id (OpUpsert proxyKey (nc_proxy (conf id))) (first_state id) g1); [apply lookup_insert_eq| |exact Hrun1].
      by split. }
    assert (set_member id (pn_gossip n) (proj P) =
      set_member id (pn_gossip n) (set_member id g1 (set_member id (first_state id) (proj P)))) as ->.
    { unfold set_member. simpl. by rewrite !insert_insert_eq. }
    apply rtc_once. eapply (net_local id (OpUpsert adminKey (nc_admin (conf id))) g1); [apply lookup_insert_eq| |exact Hrun2].
    by split.
  - by rewrite (proj_same a n).
  - by rewrite (proj_same a n).
  - by rewrite (proj_same a n).
  - by rewrite (proj_same a n).
  - destruct (pk_call_op _ _ _ _ _ _ _ HP Hn Hu Hcall) as [Hop _]. rewrite gossip_call_run in Hcall.
    rewrite proj_set. apply rtc_once. by eapply local_net_step.
  - by rewrite (proj_same a n).
  - rewrite proj_set. apply rtc_once. eapply local_net_step; [done|by apply quiet_op_ok|done|done].
  - apply rtc_once. by apply (net_gossip a b (pn_gossip n)); [apply proj_member|].
  - apply rtc_once. by apply (net_push a b (pn_gossip n)); [apply proj_member|].
  - apply rtc_once.
    change (net_step (proj P) (post (mkMessage b a (PDelta dl)) (proj (set_piko b n1 P)))). rewrite proj_set.
    by apply (net_digest a b (pn_gossip n) dg full); [apply proj_member|..].
  - rewrite proj_set. apply rtc_once. by apply (net_delta a b (pn_gossip n) now dl); [apply proj_member|..].
  - rewrite proj_set. apply rtc_once. by eapply (net_liveness b (pn_gossip n) now d thr); [apply proj_member|..].
Qed.

Lemma inv_set a n P : piko_inv P → net_inv (proj (set_piko a n P)) → node_inv a n → piko_inv (set_piko a n P).
Proof using.
  intros HP Hnet Hn. split; [done| |by apply (pi_soup _ HP)]. intros b nb. simpl.
  rewrite lookup_insert. case_decide; [|by apply (pi_node _ HP)]. intros [= <-]. by subst.
Qed.

Lemma inv_posted m P :
  piko_inv P → net_inv (proj (piko_post m P)) →
  match m_payload m with PDelta dl => conforming_delta conf dl | _ => True end → piko_inv (piko_post m P).
Proof using.
  intros HP Hnet Hm. split; [done|apply (pi_node _ HP)|]. intros m' [->|Hm']%elem_of_cons; [done|by apply (pi_soup _ HP)].
Qed.

Lemma soup_parses a b dl P :
  piko_inv P → mkMessage a b (PDelta dl) ∈ pk_soup P → delta_parses dl ∧ conforming_delta conf dl ∧ delta_ok (proj P) b dl.
Proof using.
  intros HP Hm. pose proof (ni_soup _ (pi_net _ HP) _ Hm) as Hok. unfold message_ok in Hok. simpl in Hok.
  split_and!; [|exact (pi_soup _ HP _ Hm)|done]. intros de e Hde He.
  destruct (Hok de Hde) as (O&f&_&_&Hg&_). split; [by apply (gd_ok _ _ _ Hg)|].
  destruct (decide (e_Key e = compactKey)) as [Hk|]; [left|by right].
  destruct (gd_compact _ _ _ Hg e He Hk) as (cv&?&_). by exists cv.
Qed.

Lemma node_digest a b n dg P :
  piko_inv P → pk_nodes P !! b = Some n → mkMessage a b (PDigest dg) ∈ pk_soup P →
  node_inv b (with_gossip n (ApplyDigest (pn_gossip n) a dg)).
Proof using conf_ok.
  intros HP Hn Hm. destruct (member_wf _ _ _ HP Hn) as [Hl Hw].
  pose proof (ni_soup _ (pi_net _ HP) _ Hm) as Hdg. unfold message_ok in Hdg. simpl in Hdg.
  pose proof (digest_receives (proj P) a b _ dg (pi_net _ HP) (proj_member _ _ _ Hn) Hdg) as Hr.
  pose proof (ApplyDigest_called conf a (pn_gossip n) dg) as Hcall.
  destruct (ApplyDigest _ _ _) as [g effs]. apply node_inv_remote; [done|by apply (pi_node _ HP)|done..|].
  rewrite <-Hl. apply (rcv_own _ _ _ Hr).
Qed.

Lemma node_delta a b n now dl P :
  piko_inv P → pk_nodes P !! b = Some n → mkMessage a b (PDelta dl) ∈ pk_soup P → (0 ≤ now)%Z →
  node_inv b (with_gossip n (ApplyDelta now (pn_gossip n) a dl)).
Proof using conf_ok.
  intros HP Hn Hm Hnow. destruct (member_wf _ _ _ HP Hn) as [Hl Hw].
  destruct (soup_parses _ _ _ _ HP Hm) as (Hp&Hc&Hok).
  pose proof (delta_receives (proj P) a b _ now dl (pi_net _ HP) (proj_member _ _ _ Hn) Hnow Hok) as Hr.
  pose proof (ApplyDelta_called conf now a (pn_gossip n) dl Hnow Hp Hc) as Hcall.
  destruct (ApplyDelta _ _ _ _) as [g effs]. apply node_inv_remote; [done|by apply (pi_node _ HP)|done..|].
  rewrite <-Hl. apply (rcv_own _ _ _ Hr).
Qed.

Lemma node_liveness b n now (d : D) thr s' d' effs P :
  piko_inv P → pk_nodes P !! b = Some n → (0 ≤ now)%Z → UpdateLiveness now (pn_gossip n) d thr = Some (s', d', effs) →
  node_inv b (with_gossip n (s', effs)).
Proof using conf_ok H1.
  intros HP Hn Hnow Hu. destruct (member_wf _ _ _ HP Hn) as [Hl Hw].
  pose proof (liveness_receives (proj P) b _ now d thr s' d' effs (pi_net _ HP) (proj_member _ _ _ Hn) Hnow Hu) as Hr.
  apply node_inv_remote; [done|by apply (pi_node _ HP)|done..| |].
  - by eapply UpdateLiveness_called.
  - rewrite <-Hl. apply (rcv_own _ _ _ Hr).
Qed.

Lemma piko_step_inv P P' : piko_inv P → piko_step P P' → piko_inv P'.
Proof using conf_ok H1.
  intros HP Hstep. pose proof (steps_inv _ _ (pi_net _ HP) (piko_simulates _ _ HP Hstep)) as Hnet.
  destruct Hstep as
    [id n P Hid Hnew|a n u r P Hn Hu Hfwd Hnin Hr Hroom|a n u r P Hn Hu Hin Hr|a n ptr e allow m effs u ok P Hn Hu Hsel
    |a n e cs k P Hn Hu Hread|a n c cs k r P Hn Hu Hroom Hcall|a n k P Hn Hu|a n op r P Hn Hop Hroom Hrun
    |a b n dg P Hn Hdg|a b n dl P Hn Hdl|a b n dg full dl P Hn Hm n1 Ht|a b n now dl P Hn Hm Hnow
    |b n now d thr s' d' effs P Hn Hnow Hlive].
  - destruct (conf_ok id) as [Hp Ha]. destruct (new_piko_ok id Hp Ha) as (n'&g1&e1&e2&Hnew'&_&_&_&_&Hinv).
    apply inv_set; [done|done|]. congruence.
  - apply inv_set; [done|done|]. apply (node_inv_add a n u); [by apply (pi_node _ HP)|done..].
  - apply inv_set; [done|done|]. apply (node_inv_remove a n u); [by apply (pi_node _ HP)|done..].
  - apply inv_set; [done|done|]. eapply node_inv_select; [by apply (pi_node _ HP)|done].
  - apply inv_set; [done|done|]. eapply node_inv_read; [by apply (pi_node _ HP)|done..].
  - apply inv_set; [done|done|]. by eapply pk_call_op.
  - apply inv_set; [done|done|]. apply node_inv_return; [by apply (pi_node _ HP)|done].
  - apply inv_set; [done|done|]. destruct (member_wf _ _ _ HP Hn) as [Hl Hw], r as [g effs].
    eapply node_inv_quiet; [by apply (pi_node _ HP)|done..].
  - by apply inv_posted.
  - apply inv_posted; [done|done|]. simpl. destruct (member_wf _ _ _ HP Hn) as [_ Hw].
    eapply LocalDelta_conforming; [exact Hw| |exact Hdl]. by apply (ni_conforming _ _ (pi_node _ HP _ _ Hn)).
  - pose proof (node_digest _ _ _ _ _ HP Hn Hm) as Hn1. fold n1 in Hn1.
    pose proof (ni_soup _ (pi_net _ HP) _ Hm) as Hdg. unfold message_ok in Hdg. simpl in Hdg.
    assert (net_inv (proj (set_piko b n1 P))) as Hnet1.
    { rewrite proj_set. apply (inv_advance _ (pi_net _ HP) b (pn_gossip n)); [by apply proj_member|].
      apply receives_advances. by apply (digest_receives _ a b); [apply HP|apply proj_member|]. }
    pose proof (inv_set b n1 P HP Hnet1 Hn1) as HP1. apply inv_posted; [done|done|].
    eapply truncated_conforming; [exact Ht|]. apply Delta_conforming; [|apply (ni_conforming _ _ Hn1)].
    apply (member_wf b n1 _ HP1). apply lookup_insert_eq.
  - apply inv_set; [done|done|]. by apply (node_delta a b n now dl P).
  - apply inv_set; [done|done|]. by eapply node_liveness.
Qed.

Lemma proj_empty : proj empty_piko = empty_network.
Proof using. unfold proj. simpl. by rewrite fmap_empty. Qed.

Lemma empty_piko_inv : piko_inv empty_piko.
Proof using.
  split; [|by intros a n; simpl; rewrite lookup_empty|intros m Hm; by apply not_elem_of_nil in Hm].
  rewrite proj_empty. apply empty_inv.
Qed.

Lemma piko_steps_inv P P' : piko_inv P → rtc piko_step P P' → piko_inv P'.
Proof using conf_ok H1. intros HP Hr. revert HP. induction Hr; eauto using piko_step_inv. Qed.

Lemma piko_reachable_inv P : piko_reachable P → piko_inv P.
Proof using conf_ok H1. apply piko_steps_inv, empty_piko_inv. Qed.
End net.
