(* ===== verification/PikoSync.v ===== *)
(** * Getting a network of Piko nodes in sync

    The steps of [PikoNet] in which every message goes where a node sends one:
    a digest to a node that its sender knows and does not know left, and the
    delta that answers a digest.  From every reachable network whose nodes are
    linked by having met (one of each two knows the other), these steps bring
    every node's copies of the others up to date. *)

From S2P Require Import Prelude GoLib GossipState GossipReplica GossipMembership FailureDetector Protocol GossipExchange GossipNet Cluster Syncer Advertise SyncerGossip Upstream PikoNet.

(** ** Definitions *)

(** Whether a node has left, as it knows itself. *)
Definition own_left (n : piko_node) : option bool :=
  n_Left ∘ ns_meta <$> nodes (pn_gossip n) !! localID (pn_gossip n).

Definition left_at (P : piko_net) (x : string) : Prop :=
  ∃ n, pk_nodes P !! x = Some n ∧ own_left n = Some true.

(** Node [a] holds a copy of the state of [b]. *)
Definition knows (P : piko_net) (a b : string) : Prop :=
  ∃ n, pk_nodes P !! a = Some n ∧ is_Some (nodes (pn_gossip n) !! b).

(** Two nodes that have not left, of which one knows the other, as after a join. *)
Definition met (P : piko_net) (a b : string) : Prop :=
  ¬ left_at P a ∧ ¬ left_at P b ∧ (knows P a b ∨ knows P b a).

(** The nodes that have not left are one cluster. *)
Definition linked (P : piko_net) : Prop :=
  ∀ a b, is_Some (pk_nodes P !! a) → is_Some (pk_nodes P !! b) → ¬ left_at P a → ¬ left_at P b → rtc (met P) a b.

(** What a node holds of a node that left says so. *)
Definition heard_leaving (P : piko_net) : Prop :=
  ∀ a n x R, pk_nodes P !! a = Some n → ¬ left_at P a → left_at P x →
    nodes (pn_gossip n) !! x = Some R → n_Left (ns_meta R) = true.

(** ** What a digest and a delta do to the nodes a node knows *)

Section copies.
Context `{MapIter}.

Lemma ApplyDigest_untombed s sender d : tombstones s = ∅ → tombstones (ApplyDigest s sender d).1 = ∅.
Proof.
  intros Hs. unfold ApplyDigest. apply (fold_emit_ind (λ s, tombstones s = ∅)); [done|].
  intros s1 e _ Hs1. unfold applyDigestEntry, tombstoned. rewrite Hs1, lookup_empty. by repeat case_match.
Qed.

Lemma ApplyDelta_untombed now s sender d : tombstones s = ∅ → tombstones (ApplyDelta now s sender d).1 = ∅.
Proof.
  intros Hs. unfold ApplyDelta. apply (fold_emit_ind (λ s, tombstones s = ∅)); [done|].
  intros s1 e _ Hs1. unfold applyDeltaEntry, tombstoned. rewrite Hs1, lookup_empty.
  by repeat (case_decide || case_match); simplify_eq/=.
Qed.

Lemma ApplyDigest_learns s sender d e :
  tombstones s = ∅ → e ∈ d → dg_Left e = false → is_Some (nodes (ApplyDigest s sender d).1 !! dg_ID e).
Proof.
  unfold ApplyDigest. revert s. induction d as [|x d IH]; intros s Hs Hin He; [set_solver|].
  rewrite fold_emit_cons_fst. apply elem_of_cons in Hin as [<-|Hin].
  - assert (is_Some (nodes (applyDigestEntry sender s e).1 !! dg_ID e)) as [R HR].
    { unfold applyDigestEntry, tombstoned. rewrite Hs, He, lookup_empty.
      destruct (nodes s !! dg_ID e) eqn:Hn; simpl; [by eexists|]. rewrite lookup_insert_eq. by eexists. }
    exists R. by apply (ApplyDigest_known sender).
  - apply IH; [|done..]. apply (ApplyDigest_untombed s sender [x]) in Hs. unfold ApplyDigest in Hs.
    by rewrite fold_emit_cons_fst in Hs.
Qed.

Lemma ApplyDigest_new s sender d x R :
  nodes (ApplyDigest s sender d).1 !! x = Some R →
  nodes s !! x = Some R ∨ ∃ e, e ∈ d ∧ dg_ID e = x ∧ dg_Left e = false.
Proof.
  unfold ApplyDigest.
  apply (fold_emit_ind (λ s1, nodes s1 !! x = Some R →
    nodes s !! x = Some R ∨ ∃ e, e ∈ d ∧ dg_ID e = x ∧ dg_Left e = false)); [by left|].
  intros s1 e He IH. unfold applyDigestEntry. destruct (nodes s1 !! dg_ID e); [done|].
  destruct (dg_Left e) eqn:Hl; [done|]. destruct (tombstoned _ _ _) as [[] tombs]; [done|]. simpl.
  rewrite lookup_insert. case_decide; [|done]. intros _. right. by exists e.
Qed.

Lemma applyEntries_left now id st es :
  n_Left (ns_meta st) = true → n_Left (ns_meta (applyEntries now id st es).1) = true.
Proof.
  revert st. induction es as [|e es IH]; intros st Hl; simpl; [done|]. case_decide; [by apply IH|].
  destruct (e_Internal e); [case_decide; [|case_decide; [destruct (ParseUint _); [|done];
    destruct (discardCompacted _ _ _ _)|]]|];
    match goal with |- context [applyEntries now id ?st' es] => specialize (IH st') end;
    destruct (applyEntries now id _ es); by apply IH.
Qed.

Lemma ApplyDelta_left now s sender d x R :
  nodes s !! x = Some R → n_Left (ns_meta R) = true →
  ∃ R', nodes (ApplyDelta now s sender d).1 !! x = Some R' ∧ n_Left (ns_meta R') = true.
Proof.
  intros HR Hl. unfold ApplyDelta.
  apply (fold_emit_ind (λ s, ∃ R', nodes s !! x = Some R' ∧ n_Left (ns_meta R') = true)); [by exists R|].
  intros s1 de _ (R1&HR1&Hl1). destruct (applyDeltaEntry_nodes now sender s1 de) as [->|[_ ->]]; [by exists R1|].
  rewrite lookup_insert. case_decide; [|by exists R1]. subst x. eexists. split; [done|].
  apply applyEntries_left. by rewrite HR1.
Qed.
End copies.

Section sync.
Context `{MapIter, DetectorLaws D} (conf : string → node_conf).
Context (conf_ok : ∀ x, nc_proxy (conf x) ≠ "" ∧ nc_admin (conf x) ≠ "").

(** The messages a node sends in a gossip round, in packets that hold them
    whole: its digest, to a node it knows and does not know left ([LiveNodes]
    and [UnreachableNodes]), and the delta that answers a digest. *)
Inductive sent (P : piko_net) : message → Prop :=
  | sent_gossip a b n R :
      pk_nodes P !! a = Some n → b ≠ a → nodes (pn_gossip n) !! b = Some R → n_Left (ns_meta R) = false →
      sent P (mkMessage a b (PDigest (Digest (pn_gossip n))))
  | sent_answer a b n dg :
      pk_nodes P !! a = Some n → mkMessage b a (PDigest dg) ∈ pk_soup P →
      sent P (mkMessage a b (PDelta (Delta (pn_gossip n) dg false))).

(** A step of the network in which nothing else is sent. *)
Definition known_step (P P' : piko_net) : Prop :=
  piko_step conf P P' ∧ ∀ m, m ∈ pk_soup P' → m ∈ pk_soup P ∨ sent P' m.

Lemma known_quiet P P' : piko_step conf P P' → pk_soup P' = pk_soup P → known_step P P'.
Proof using. intros Hs He. split; [done|]. rewrite He. by left. Qed.

Lemma known_steps P P' : rtc known_step P P' → rtc (piko_step conf) P P'.
Proof using. apply rtc_subrel. by intros ?? []. Qed.

(** ** What catching up leaves alone *)

(** What the steps below leave alone: the upstreams of a node, what it counts
    of its own, and whether it left. *)
Record same_upstreams (n n' : piko_node) : Prop := {
  su_local : localUpstreams (pn_manager n') = localUpstreams (pn_manager n);
  su_cluster : keeps_local (m_cluster (pn_manager n)) (m_cluster (pn_manager n'));
  su_left : own_left n' = own_left n;
}.

Definition same_net (P P' : piko_net) : Prop :=
  ∀ a, option_Forall2 same_upstreams (pk_nodes P !! a) (pk_nodes P' !! a).

Lemma same_upstreams_refl n : same_upstreams n n.
Proof using. split; [done|apply keeps_refl|done]. Qed.

Lemma same_upstreams_trans n1 n2 n3 : same_upstreams n1 n2 → same_upstreams n2 n3 → same_upstreams n1 n3.
Proof using. intros [L1 C1 F1] [L2 C2 F2]. split; [congruence|by eapply keeps_trans|congruence]. Qed.

Lemma same_net_refl P : same_net P P.
Proof using. intros a. destruct (pk_nodes P !! a); constructor. apply same_upstreams_refl. Qed.

Lemma same_net_trans P1 P2 P3 : same_net P1 P2 → same_net P2 P3 → same_net P1 P3.
Proof using.
  intros S1 S2 a. specialize (S1 a). specialize (S2 a).
  destruct S1; inversion S2; constructor. by eapply same_upstreams_trans.
Qed.

Lemma same_net_set P a n n' : pk_nodes P !! a = Some n → same_upstreams n n' → same_net P (set_piko a n' P).
Proof using.
  intros Hn Hs b. simpl. rewrite lookup_insert. case_decide as Hb; [subst; rewrite Hn; by constructor|].
  destruct (pk_nodes P !! b); constructor. apply same_upstreams_refl.
Qed.

Lemma same_net_Some P P' a n : same_net P P' → pk_nodes P !! a = Some n →
  ∃ n', pk_nodes P' !! a = Some n' ∧ same_upstreams n n'.
Proof using. intros Hs Hn. specialize (Hs a). rewrite Hn in Hs. inversion Hs. eauto. Qed.

Lemma same_net_Some_r P P' a n' : same_net P P' → pk_nodes P' !! a = Some n' →
  ∃ n, pk_nodes P !! a = Some n ∧ same_upstreams n n'.
Proof using. intros Hs Hn. specialize (Hs a). rewrite Hn in Hs. inversion Hs. eauto. Qed.

Lemma with_gossip_same n r :
  localID r.1 = localID (pn_gossip n) →
  (n_Left ∘ ns_meta <$> nodes r.1 !! localID (pn_gossip n)) = own_left n → same_upstreams n (with_gossip n r).
Proof using.
  intros Hl Hleft. split; [done| |]; simpl.
  - apply (handle_calls_keeps (calls r.2) (pn_syncer n)).
  - unfold own_left at 1. simpl. by rewrite Hl.
Qed.

(** Publishing an endpoint does not leave. *)
Lemma call_left c O O' effs : run_op (op_of_call c) O = Some (O', effs) → n_Left (ns_meta O') = n_Left (ns_meta O).
Proof using.
  destruct c as [k v|k]; simpl.
  - unfold upsertNode. case_decide; by intros [= <- _].
  - unfold deleteNode. destruct (ns_Entries O !! k) as [e|]; [|by intros [= <- _]].
    destruct (e_Deleted e); by intros [= <- _].
Qed.

Lemma call_same n c r :
  state_wf (pn_gossip n) → gossip_call (pn_gossip n) c = Some r → same_upstreams n (with_gossip n r).
Proof using H.
  rewrite gossip_call_run. destruct r as [g effs]. intros Hw Hrun.
  destruct (local_op _ _ _ _ Hw Hrun) as (O&O'&HO&_&Hop&->&_).
  apply with_gossip_same; [done|]. simpl. unfold own_left. rewrite lookup_insert_eq, HO. simpl.
  f_equal. by eapply call_left.
Qed.

Lemma set_piko_id a n P : pk_nodes P !! a = Some n → set_piko a n P = P.
Proof using. intros Hn. unfold set_piko. rewrite insert_id by done. by destruct P. Qed.

Lemma set_piko_twice a n n' P : set_piko a n' (set_piko a n P) = set_piko a n' P.
Proof using. unfold set_piko. simpl. by rewrite insert_insert_eq. Qed.

Lemma left_same P P' x : same_net P P' → left_at P' x → left_at P x.
Proof using.
  intros Hs (n'&Hn'&Hl). destruct (same_net_Some_r _ _ _ _ Hs Hn') as (n&Hn&[_ _ Hleft]).
  exists n. split; [done|congruence].
Qed.

Lemma left_back P P' x : same_net P P' → left_at P x → left_at P' x.
Proof using.
  intros Hs (n&Hn&Hl). destruct (same_net_Some _ _ _ _ Hs Hn) as (n'&Hn'&[_ _ Hleft]).
  exists n'. split; [done|congruence].
Qed.

(** What a node comes to hold of the others: nothing is forgotten, and no copy
    is new or has changed its left flag. *)
Record same_view (a : string) (n n' : piko_node) : Prop := {
  sv_known : ∀ x, is_Some (nodes (pn_gossip n) !! x) → is_Some (nodes (pn_gossip n') !! x);
  sv_left : ∀ x R', x ≠ a → nodes (pn_gossip n') !! x = Some R' →
    ∃ R, nodes (pn_gossip n) !! x = Some R ∧ n_Left (ns_meta R') = n_Left (ns_meta R);
}.

Lemma same_view_refl a n n' : pn_gossip n' = pn_gossip n → same_view a n n'.
Proof using. intros He. split; rewrite He; eauto. Qed.

Lemma same_view_trans a n1 n2 n3 : same_view a n1 n2 → same_view a n2 n3 → same_view a n1 n3.
Proof using.
  intros [K1 L1] [K2 L2]. split; [by eauto|]. intros x R3 Hx (R2&H2&E2)%L2; [|done].
  destruct (L1 _ _ Hx H2) as (R1&?&?). exists R1. split; [done|congruence].
Qed.

Definition view_kept (P P' : piko_net) : Prop :=
  (∀ a b, knows P a b → knows P' a b) ∧ (heard_leaving P → heard_leaving P').

Lemma view_kept_refl P : view_kept P P.
Proof using. done. Qed.

Lemma view_kept_trans P1 P2 P3 : view_kept P1 P2 → view_kept P2 P3 → view_kept P1 P3.
Proof using. intros [K1 L1] [K2 L2]. split; eauto. Qed.

Lemma view_kept_set P a n n' :
  pk_nodes P !! a = Some n → same_upstreams n n' → same_view a n n' → view_kept P (set_piko a n' P).
Proof using.
  intros Hn Hs [Hk Hl]. pose proof (same_net_set P a n n' Hn Hs) as Hnet. split.
  - intros b x (nb&Hnb&Hx). unfold knows. simpl. rewrite lookup_insert. case_decide; [|by exists nb].
    subst b. exists n'. split; [done|]. apply Hk. by assert (nb = n) as <- by congruence.
  - intros Hh b nb x R Hb Hbl Hx HR.
    assert (¬ left_at P b) as Hbl' by (intros Hbl1; by apply Hbl, (left_back _ _ _ Hnet)).
    pose proof (left_same _ _ _ Hnet Hx) as Hx'.
    simpl in Hb. rewrite lookup_insert in Hb. case_decide; [|by eapply Hh]. injection Hb as <-. subst b.
    destruct (Hl x R) as (R0&HR0&->); [by intros ->|done|]. by eapply Hh.
Qed.

(** *** An update that is going on can always finish *)

Lemma call_view a n c r :
  state_wf (pn_gossip n) → localID (pn_gossip n) = a → gossip_call (pn_gossip n) c = Some r →
  same_view a n (with_gossip n r).
Proof using H.
  rewrite gossip_call_run. destruct r as [g effs]. intros Hw <- Hrun.
  destruct (local_op _ _ _ _ Hw Hrun) as (O&O'&HO&_&Hop&->&_). split; simpl.
  - intros x Hx. rewrite lookup_insert. case_decide; [by eexists|done].
  - intros x R' Hx. rewrite lookup_insert_ne by done. eauto.
Qed.

Lemma same_with_update n n' cbs : same_upstreams n n' → same_upstreams n (with_update n' cbs).
Proof using. by intros []. Qed.

Lemma finish_calls a n call P :
  piko_inv conf P → pk_nodes P !! a = Some n → has_room (pn_gossip n) → pn_update n = [CallbackCalls [call]] →
  ∃ n', rtc known_step P (set_piko a n' P) ∧ same_upstreams n n' ∧ same_view a n n' ∧ pn_update n' = [].
Proof using.
  intros HP Hn Hroom Hu. pose proof (pi_node _ _ HP _ _ Hn) as Hi. pose proof (ni_owner _ _ _ Hi) as Ho.
  destruct (oi_counts _ _ _ Ho) as (c&Hc&Hle&Hupd). rewrite Hu in Hupd. destruct Hupd as (e&_&->).
  pose proof (room_counts _ _ (oi_room _ _ _ Ho) Hle) as Hcr.
  destruct (gossip_call_publishes _ _ (oi_gossip _ _ _ Ho) (publish_endpoint_ok c e Hcr)) as (g&effs&Hcall&_).
  set (n1 := with_update (with_gossip n (g, effs)) [CallbackCalls []]).
  destruct (member_wf _ _ _ _ HP Hn) as [Hloc Hw]. exists (with_update n1 []).
  split_and!; [|by eapply same_with_update, same_with_update, call_same| |done].
  2:{ eapply same_view_trans; [by eapply call_view|]. by apply same_view_refl. }
  eapply rtc_l; [by apply known_quiet; [eapply (pk_call conf a n)|]|]. fold n1. apply rtc_once.
  rewrite <-(set_piko_twice a n1 (with_update n1 []) P).
  apply known_quiet; [|done]. by apply (pk_return conf a n1); [apply lookup_insert_eq|].
Qed.

Lemma finish_update a n P :
  piko_inv conf P → pk_nodes P !! a = Some n → has_room (pn_gossip n) →
  ∃ n', rtc known_step P (set_piko a n' P) ∧ same_upstreams n n' ∧ same_view a n n' ∧ pn_update n' = [].
Proof using conf_ok H1.
  intros HP Hn Hroom. pose proof (pi_node _ _ HP _ _ Hn) as Hi. pose proof (ni_owner _ _ _ Hi) as Ho.
  destruct (oi_counts _ _ _ Ho) as (c&Hc&Hle&Hupd).
  destruct (pn_update n) as [|cb [|]] eqn:Hu; [| |done].
  { exists n. rewrite set_piko_id by done. split_and!; [done|apply same_upstreams_refl|by apply same_view_refl|done]. }
  destruct Hupd as (e&_&Hcb). destruct cb as [e'|[|call [|]]]; [| | |done].
  - set (n1 := with_update n [CallbackCalls [publish_endpoint c e']]).
    assert (piko_step conf P (set_piko a n1 P)) as Hstep.
    { eapply (pk_read conf a n); [done|done|]. apply (onLocalEndpointUpdate_calls (pn_syncer n) e' c), Hc. }
    destruct (finish_calls a n1 (publish_endpoint c e') (set_piko a n1 P)) as (n'&Hr&Hs&Hv&Hu').
    + by eapply piko_step_inv.
    + apply lookup_insert_eq.
    + done.
    + done.
    + rewrite set_piko_twice in Hr. exists n'. split_and!; [by eapply rtc_l; [apply known_quiet|]|..|done].
      * eapply same_upstreams_trans; [|exact Hs]. apply same_with_update, same_upstreams_refl.
      * eapply same_view_trans; [|exact Hv]. by apply same_view_refl.
  - exists (with_update n []). split_and!; [|apply same_with_update, same_upstreams_refl|by apply same_view_refl|done].
    apply rtc_once, known_quiet; [by eapply pk_return|done].
  - by eapply finish_calls.
Qed.

(** Every node finishes its update. *)
Lemma finish_updates l P :
  NoDup l → piko_inv conf P →
  (∀ a, a ∈ l → ∃ n, pk_nodes P !! a = Some n ∧ has_room (pn_gossip n)) →
  ∃ P', rtc known_step P P' ∧ same_net P P' ∧ view_kept P P' ∧
    (∀ a n, a ∉ l → pk_nodes P' !! a = Some n → pk_nodes P !! a = Some n) ∧
    ∀ a n, a ∈ l → pk_nodes P' !! a = Some n → pn_update n = [].
Proof using conf_ok H1.
  revert P. induction l as [|a l IH]; intros P Hnd HP Hl.
  { exists P. split_and!; [done|apply same_net_refl|apply view_kept_refl|done|set_solver]. }
  apply NoDup_cons in Hnd as [Ha Hnd]. destruct (Hl a ltac:(left)) as (n&Hn&Hroom).
  destruct (finish_update a n P HP Hn Hroom) as (n'&Hr&Hs&Hv&Hu).
  destruct (IH (set_piko a n' P)) as (P'&Hr'&Hs'&Hv'&Hother&Hdone).
  - done.
  - by eapply piko_steps_inv, known_steps.
  - intros b Hb. destruct (Hl b ltac:(by right)) as (nb&Hnb&?). exists nb. split; [|done].
    simpl. rewrite lookup_insert_ne; [done|]. intros ->. done.
  - exists P'. split_and!; [by etrans|eapply same_net_trans; [by eapply same_net_set|done]
      |eapply view_kept_trans; [by eapply view_kept_set|done]|..].
    + intros b nb Hb Hnb. apply Hother in Hnb; [|set_solver]. simpl in Hnb.
      rewrite lookup_insert_ne in Hnb; [done|]. set_solver.
    + intros b nb [->|Hb]%elem_of_cons Hnb; [|by eapply Hdone].
      apply Hother in Hnb; [|done]. simpl in Hnb. rewrite lookup_insert_eq in Hnb. congruence.
Qed.

(** What the exchanges below keep of every node but its copies of the others. *)
Definition same_owners (P P' : piko_net) : Prop :=
  same_net P P' ∧ (∀ x, owner (proj P') x = owner (proj P) x) ∧
  ∀ a n', pk_nodes P' !! a = Some n' → ∃ n, pk_nodes P !! a = Some n ∧ pn_update n' = pn_update n.

Lemma same_owners_refl P : same_owners P P.
Proof using. split_and!; [apply same_net_refl|done|eauto]. Qed.

Lemma same_owners_trans P1 P2 P3 : same_owners P1 P2 → same_owners P2 P3 → same_owners P1 P3.
Proof using.
  intros (S1&O1&U1) (S2&O2&U2). split_and!; [by eapply same_net_trans|intros x; by rewrite O2|].
  intros a n3 (n2&Hn2&->)%U2. by apply U1.
Qed.

(** *** A pass over the nodes that finds them reachable *)

(** Node [a] takes no node that it does not know left for unreachable. *)
Definition finds_reachable (a : string) (g : clusterState) : Prop :=
  ∀ x R, x ≠ a → nodes g !! x = Some R → n_Left (ns_meta R) = false → n_Unreachable (ns_meta R) = false.

Section calm.
Context (now : time) (thr : float64) (Hnow : (0 ≤ now)%Z) (calm : D → Prop).
Context (calm_level : ∀ d id, calm d →
  ∃ lvl d', SuspicionLevel d id now = Some (lvl, d') ∧ flt thr lvl = false ∧ calm d').

Lemma calm_loop l s d :
  calm d → ∃ s' d' effs, updateLiveness_loop now thr s d l = Some (s', d', effs).
Proof using calm_level.
  revert s d. induction l as [|[key node] l IH]; intros s d Hd; simpl; [eauto|].
  assert (∃ s1 d1 e1, updateNodeLiveness now thr s d key node = Some (s1, d1, e1) ∧ calm d1) as (s1&d1&e1&->&Hd1).
  { unfold updateNodeLiveness. case_decide; [eauto|].
    destruct (calm_level d (n_ID (ns_meta node)) Hd) as (lvl&d'&->&Hl&Hd'). simpl. rewrite Hl.
    destruct (n_Unreachable (ns_meta node)); eauto. }
  simpl. destruct (IH s1 d1 Hd1) as (s2&d2&e2&->). simpl. eauto.
Qed.

Lemma calm_liveness s d :
  state_wf s → calm d →
  ∃ s' d' effs, UpdateLiveness now s d thr = Some (s', d', effs) ∧ localID s' = localID s ∧
    nodes s' !! localID s = nodes s !! localID s ∧
    (∀ x R, nodes s !! x = Some R → ∃ R', nodes s' !! x = Some R' ∧ ns_Entries R' = ns_Entries R ∧
      version R' = version R ∧ n_Left (ns_meta R') = n_Left (ns_meta R)) ∧ (∀ x, nodes s !! x = None → nodes s' !! x = None) ∧
    finds_reachable (localID s) s'.
Proof using Hnow calm_level H1.
  intros Hw Hd. destruct (calm_loop (map_range (nodes s)) s d Hd) as (s'&d'&effs&Hu). exists s', d', effs.
  pose proof (λ x, UpdateLiveness_node s now d thr s' d' effs x Hw Hu) as Hnode.
  destruct (UpdateLiveness_tracked now s d thr s' d' effs Hnow Hu Hw) as (Hl&_).
  split_and!; [done|done| | |intros x HR; specialize (Hnode x); by rewrite HR in Hnode|].
  - specialize (Hnode (localID s)). destruct (nodes s !! localID s) as [R|]; [|done].
    destruct Hnode as (R'&->&HR'&_). by rewrite HR'.
  - intros x R HR. specialize (Hnode x). rewrite HR in Hnode. destruct Hnode as (R'&HR'&_&Hc).
    exists R'. split; [done|]. destruct Hc as [->|[u ->]]; [done|apply relive_core].
  - intros x R' Hne HR' Hleft. specialize (Hnode x). destruct (nodes s !! x) as [R|] eqn:HR; [|congruence].
    destruct Hnode as (R1&HR1&_&Hc). assert (R1 = R') as -> by congruence.
    assert (n_Left (ns_meta R) = false) as HleftR.
    { destruct Hc as [->|[u ->]]; [done|]. destruct (relive_core now u R) as (_&_&Hcore). congruence. }
    destruct (updateLiveness_loop_exact now thr (map_range (nodes s)) s d s' d' effs x R) as [_ Hn];
      [by apply elem_of_map_range| |apply NoDup_map_range_fst|done|].
    { apply Forall_forall. intros [k st] Hk%elem_of_map_range. split; [done|by eapply swf_ids]. }
    destruct Hn as (lvl&Hlvl&Hx&_).
    { unfold skipped. rewrite (swf_ids _ Hw _ _ HR), HleftR. intros [?|?]; done. }
    destruct (calm_level d x Hd) as (lvl'&d1&Hs&Hf&_). rewrite Hs in Hlvl. simpl in Hlvl. injection Hlvl as <-.
    rewrite Hf in Hx. assert (R' = relive now false R) as -> by congruence.
    unfold relive. by case_decide as Heq; [rewrite <-Heq|].
Qed.

Lemma live_pass d l P :
  calm d → NoDup l → piko_inv conf P → (∀ a, a ∈ l → is_Some (pk_nodes P !! a)) →
  ∃ P', rtc known_step P P' ∧ same_owners P P' ∧ view_kept P P' ∧
    (∀ a b, GossipNet.synced (proj P) a b → GossipNet.synced (proj P') a b) ∧
    (∀ a, a ∉ l → pk_nodes P' !! a = pk_nodes P !! a) ∧
    ∀ a n, a ∈ l → pk_nodes P' !! a = Some n → finds_reachable a (pn_gossip n).
Proof using calm_level conf_ok Hnow H1.
  intros Hd. revert P. induction l as [|a l IH]; intros P Hnd HP Hl.
  { exists P. split_and!; [done|apply same_owners_refl|apply view_kept_refl|done|done|set_solver]. }
  apply NoDup_cons in Hnd as [Ha Hnd]. destruct (Hl a ltac:(left)) as [n Hn].
  destruct (member_wf _ _ _ _ HP Hn) as [Hloc Hw].
  destruct (calm_liveness _ d Hw Hd) as (s'&d'&effs&Hu&Hl'&Hown&Hcore&Hnone&Hreach). rewrite Hloc in *.
  set (n' := with_gossip n (s', effs)). set (P1 := set_piko a n' P).
  assert (piko_step conf P P1) as Hstep by by eapply pk_liveness.
  assert (∀ x, owner (proj P1) x = owner (proj P) x) as Howner.
  { intros x. unfold owner, P1. rewrite proj_set. simpl. rewrite lookup_insert. case_decide; [|done]. subst x.
    by rewrite lookup_fmap, Hn. }
  assert (same_upstreams n n') as Hsu.
  { apply with_gossip_same; simpl; [congruence|]. unfold own_left. by rewrite Hloc, Hown. }
  destruct (IH P1) as (P'&Hr&Hs&Hview&Hsync&Hother&Hdone).
  - done.
  - by eapply piko_step_inv.
  - intros b Hb. simpl. rewrite lookup_insert_ne; [apply Hl; by right|]. by intros ->.
  - exists P'. split_and!.
    + eapply rtc_l; [by apply known_quiet|done].
    + eapply same_owners_trans; [|exact Hs]. split_and!; [by eapply same_net_set|done|].
      intros c nc. simpl. rewrite lookup_insert. case_decide; [|by eauto]. intros [= <-]. subst. by exists n.
    + eapply view_kept_trans; [|exact Hview]. apply view_kept_set with n; [done|done|]. split; simpl.
      * intros x [R HR]. destruct (Hcore _ _ HR) as (R'&HR'&_). by exists R'.
      * intros x R' _ HR'. destruct (nodes (pn_gossip n) !! x) as [R|] eqn:HR; [|by rewrite Hnone in HR'].
        destruct (Hcore _ _ HR) as (R1&HR1&_&_&HL). exists R. split; [done|congruence].
    + intros a' b' Hab. apply Hsync. intros s2 O2 Hs2. rewrite Howner. intros HO2. unfold P1 in Hs2.
      rewrite proj_set in Hs2. simpl in Hs2. rewrite lookup_insert in Hs2. case_decide; [|by apply Hab].
      injection Hs2 as <-. subst a'. destruct (Hab (pn_gossip n) O2) as (R&HR&He&Hv&HL); [by apply proj_member|done|].
      destruct (Hcore _ _ HR) as (R'&HR'&He'&Hv'&HL'). exists R'. split_and!; [done|congruence..].
    + intros b Hb. rewrite Hother by set_solver. simpl. rewrite lookup_insert_ne; [done|]. set_solver.
    + intros b nb [->|Hb]%elem_of_cons Hnb; [|by eapply Hdone].
      rewrite Hother in Hnb by done. simpl in Hnb. rewrite lookup_insert_eq in Hnb. injection Hnb as <-. exact Hreach.
Qed.
End calm.


(** *** One node pulls the state of another *)

(** No node holds a tombstone: the steps of the network expire nobody. *)
Definition untombed (P : piko_net) : Prop := ∀ a n, pk_nodes P !! a = Some n → tombstones (pn_gossip n) = ∅.

Lemma updateLiveness_untombed now thr l s (d : D) s' d' effs :
  tombstones s = ∅ → updateLiveness_loop now thr s d l = Some (s', d', effs) → tombstones s' = ∅.
Proof using.
  revert s d s' d' effs. induction l as [|[key node] l IH]; intros s d s' d' effs Hs; simpl; [by intros [= <- _ _]|].
  destruct (updateNodeLiveness now thr s d key node) as [[[s1 d1] e1]|] eqn:Hu; simpl; [|done].
  destruct (updateLiveness_loop now thr s1 d1 l) as [[[s2 d2] e2]|] eqn:Hl; simpl; [|done].
  intros [= <- _ _]. eapply IH; [|exact Hl]. unfold updateNodeLiveness in Hu.
  case_decide; [by injection Hu as <- _ _|].
  destruct (SuspicionLevel d (n_ID (ns_meta node)) now) as [[lvl d3]|]; simpl in Hu; [|done].
  destruct (flt thr lvl), (n_Unreachable (ns_meta node)); by simplify_eq/=.
Qed.

Lemma untombed_set P a n : untombed P → tombstones (pn_gossip n) = ∅ → untombed (set_piko a n P).
Proof using.
  intros HP Hn b nb. simpl. rewrite lookup_insert. case_decide; [|by apply HP]. by intros [= <-].
Qed.

Lemma run_local_untombed op g r : state_wf g → run_local op g = Some r → tombstones r.1 = tombstones g.
Proof using.
  destruct r as [g' effs]. intros Hw Hrun. by destruct (local_op _ _ _ _ Hw Hrun) as (O&O'&_&_&_&->&_).
Qed.

Lemma step_untombed P P' : piko_inv conf P → untombed P → piko_step conf P P' → untombed P'.
Proof using conf_ok.
  intros HP Hu Hstep. destruct Hstep as
    [id n P Hid Hnew|a n u r P Hn|a n u r P Hn|a n ptr e allow m effs u ok P Hn
    |a n e cs k P Hn|a n c cs k r P Hn Hup Hroom Hcall|a n k P Hn|a n op r P Hn Hop Hroom Hrun
    |a b n dg P Hn Hdg|a b n dl P Hn Hdl|a b n dg full dl P Hn Hm n1 Ht|a b n now dl P Hn Hm Hnow
    |b n now d thr s' d' effs P Hn Hnow Hlive];
    try (by apply untombed_set; [done|apply (Hu _ _ Hn)]); try exact Hu.
  - apply untombed_set; [done|]. destruct (conf_ok id) as [Hp Ha].
    destruct (new_piko_ok conf id Hp Ha) as (n'&g1&e1&e2&Hnew'&Hrun1&Hrun2&Hr0&Hr1&_).
    assert (n' = n) as -> by congruence. pose proof (state_wf_new id (nc_gossip (conf id))) as Hw0.
    assert (user_key proxyKey) as Hk by done.
    destruct (run_local_tracked (OpUpsert proxyKey (nc_proxy (conf id))) _ _ _ (conj Hk Hr0) Hrun1 Hw0) as (_&Hw1&_).
    pose proof (run_local_untombed _ _ _ Hw0 Hrun1) as E1. pose proof (run_local_untombed _ _ _ Hw1 Hrun2) as E2.
    simpl in E1, E2. by rewrite E2, E1.
  - apply untombed_set; [done|]. simpl. rewrite gossip_call_run in Hcall.
    rewrite (run_local_untombed _ _ _ (proj2 (member_wf _ _ _ _ HP Hn)) Hcall). by apply (Hu _ _ Hn).
  - apply untombed_set; [done|]. simpl.
    rewrite (run_local_untombed _ _ _ (proj2 (member_wf _ _ _ _ HP Hn)) Hrun). by apply (Hu _ _ Hn).
  - apply (untombed_set P b n1); [done|]. by apply ApplyDigest_untombed, (Hu _ _ Hn).
  - apply untombed_set; [done|]. by apply ApplyDelta_untombed, (Hu _ _ Hn).
  - apply untombed_set; [done|]. by eapply updateLiveness_untombed; [apply (Hu _ _ Hn)|].
Qed.

Lemma steps_untombed P P' : piko_inv conf P → untombed P → rtc (piko_step conf) P P' → untombed P'.
Proof using conf_ok H1.
  intros HP Hu Hr. revert HP Hu. induction Hr as [|P P1 P2 Hs _ IH]; [done|]. intros HP Hu.
  apply IH; [by eapply piko_step_inv|by eapply step_untombed].
Qed.

Lemma reachable_untombed P : piko_reachable conf P → untombed P.
Proof using conf_ok H1. apply steps_untombed; [apply empty_piko_inv|]. intros a n. simpl. by rewrite lookup_empty. Qed.

(** A node that was told nothing but the truth ends at least as far. *)
Lemma synced_further P P' a b :
  piko_inv conf P → piko_inv conf P' → (∀ x, owner (proj P') x = owner (proj P) x) →
  (∀ n', pk_nodes P' !! a = Some n' → ∃ n, pk_nodes P !! a = Some n ∧
     ∀ R, nodes (pn_gossip n) !! b = Some R →
       ∃ R', nodes (pn_gossip n') !! b = Some R' ∧ (version R ≤ version R')%N) →
  GossipNet.synced (proj P) a b → GossipNet.synced (proj P') a b.
Proof using.
  intros HP HP' Howner Hver Hs s O Hs' HO. simpl in Hs'. rewrite lookup_fmap in Hs'.
  destruct (pk_nodes P' !! a) as [n'|] eqn:Hn'; [|done]. injection Hs' as <-.
  destruct (Hver n' eq_refl) as (n&Hn&Hle). rewrite Howner in HO.
  destruct (Hs _ _ (proj_member _ _ _ Hn) HO) as (R&HR&_&Hv&_).
  destruct (Hle R HR) as (R'&HR'&Hv').
  destruct (ni_copy _ (pi_net _ _ HP') a _ b R' (proj_member _ _ _ Hn') HR') as (O'&HO'&Hrep).
  rewrite Howner in HO'. assert (O' = O) as -> by congruence.
  destruct (owner_own_wf _ _ _ (pi_net _ _ HP) HO) as [Hown _]. pose proof (rep_version _ _ Hrep).
  assert (version R' = version O) as Heq by lia.
  exists R'. split_and!; [done|by apply replica_caught_up|done|by apply replica_caught_up_left].
Qed.

Section pull.
Context (P : piko_net) (HP : piko_inv conf P) (a b : string) (na nb : piko_node) (R : nodeState).
Context (Ha : pk_nodes P !! a = Some na) (Hb : pk_nodes P !! b = Some nb) (Hne : a ≠ b).
Context (HR : nodes (pn_gossip na) !! b = Some R) (HRl : n_Left (ns_meta R) = false).

Let dg := Digest (pn_gossip na).
Let P1 := piko_post (mkMessage a b (PDigest dg)) P.
Let nb' := with_gossip nb (ApplyDigest (pn_gossip nb) a dg).
Let dl := Delta (pn_gossip nb') dg false.
Let P2 := piko_post (mkMessage b a (PDelta dl)) (set_piko b nb' P1).
Let na' := with_gossip na (ApplyDelta 0 (pn_gossip na) b dl).
Let P3 := set_piko a na' P2.

Lemma pull_first : known_step P P1.
Proof using All.
  split; [by apply (pk_gossip conf a b na)|]. intros m [->|Hm]%elem_of_cons; [right|by left].
  by apply (sent_gossip _ a b na R).
Qed.

Lemma pull_second : known_step P1 P2.
Proof using All.
  split.
  - apply (pk_digest conf a b nb dg false dl P1); [done|left|]. fold nb'. clear. subst dl.
    induction (Delta (pn_gossip nb') dg false); by constructor.
  - intros m [->|Hm]%elem_of_cons; [right|by left].
    apply (sent_answer _ b a nb' dg); [apply lookup_insert_eq|]. right. left.
Qed.

Lemma pull_third : known_step P2 P3.
Proof using All.
  apply known_quiet; [|done]. apply (pk_delta conf b a na 0 dl P2); [|left|done].
  simpl. by rewrite lookup_insert_ne.
Qed.

Lemma pull_inv1 : piko_inv conf P1.
Proof using All. eapply piko_step_inv; [done..|]. apply pull_first. Qed.

Lemma pull_inv2 : piko_inv conf P2.
Proof using All. eapply piko_step_inv; [done|apply pull_inv1|]. apply pull_second. Qed.

Lemma pull_inv3 : piko_inv conf P3.
Proof using All. eapply piko_step_inv; [done|apply pull_inv2|]. apply pull_third. Qed.

Lemma pull_lookup x n :
  pk_nodes P3 !! x = Some n ↔ x = a ∧ n = na' ∨ x = b ∧ n = nb' ∨ x ≠ a ∧ x ≠ b ∧ pk_nodes P !! x = Some n.
Proof using All. simpl. rewrite !lookup_insert. repeat case_decide; naive_solver. Qed.

(** The receiver of the digest keeps what it has. *)
Lemma pull_b x S : nodes (pn_gossip nb) !! x = Some S → nodes (pn_gossip nb') !! x = Some S.
Proof using All. apply ApplyDigest_known. Qed.

(** The receiver of the delta keeps its own state and loses nothing. *)
Lemma pull_a_own : nodes (pn_gossip na') !! a = nodes (pn_gossip na) !! a.
Proof using All. destruct (member_wf _ _ _ _ HP Ha) as [<- _]. apply ApplyDelta_own. Qed.

Lemma pull_a x S :
  nodes (pn_gossip na) !! x = Some S → ∃ S', nodes (pn_gossip na') !! x = Some S' ∧ (version S ≤ version S')%N.
Proof using All.
  apply (rcv_known (proj P2) (pn_gossip na) (pn_gossip na')).
  apply (delta_receives (proj P2) b a (pn_gossip na) 0 dl (pi_net _ _ pull_inv2)); [|done|].
  - apply proj_member. simpl. by rewrite lookup_insert_ne.
  - assert (mkMessage b a (PDelta dl) ∈ soup (proj P2)) as Hm by left. exact (ni_soup _ (pi_net _ _ pull_inv2) _ Hm).
Qed.

Lemma pull_owner x : owner (proj P3) x = owner (proj P) x.
Proof using All.
  destruct (member_wf _ _ _ _ HP Hb) as [Hlb Hwb]. unfold owner. simpl. rewrite !lookup_fmap, !lookup_insert.
  repeat case_decide; [subst x|subst x|done].
  - rewrite Ha. simpl. by apply pull_a_own.
  - rewrite Hb. simpl. destruct (swf_local_ID _ Hwb) as [O HO]. rewrite Hlb in HO. rewrite HO. by apply pull_b.
Qed.

Lemma pull_same_owners : same_owners P P3.
Proof using All.
  destruct (member_wf _ _ _ _ HP Ha) as [Hla Hwa], (member_wf _ _ _ _ HP Hb) as [Hlb Hwb].
  split_and!; [|apply pull_owner|].
  - assert (same_net P (set_piko b nb' P)) as H2.
    { eapply same_net_set; [done|]. apply with_gossip_same; [by apply ApplyDigest_local|]. unfold own_left.
      destruct (swf_local_ID _ Hwb) as [O HO]. rewrite HO. f_equal. by apply pull_b. }
    eapply same_net_trans; [exact H2|]. apply (same_net_set (set_piko b nb' P1) a na na').
    { simpl. by rewrite lookup_insert_ne. }
    apply with_gossip_same; [by apply ApplyDelta_local|]. unfold own_left. f_equal. rewrite Hla. by apply pull_a_own.
  - intros c n' Hc%pull_lookup. destruct Hc as [[-> ->]|[[-> ->]|(_&_&?)]]; eauto.
Qed.

Lemma pull_b_wf : state_wf (pn_gossip nb').
Proof using All. apply ApplyDigest_wf. by apply (member_wf _ _ _ _ HP Hb). Qed.

(** The delta is about nodes the digest names. *)
Lemma pull_delta_known x : x ∈ dl_ID <$> dl → is_Some (nodes (pn_gossip na) !! x).
Proof using All.
  destruct (member_wf _ _ _ _ HP Ha) as [_ Hwa].
  intros (de&->&Hde)%list_elem_of_fmap. apply elem_of_Delta in Hde as (e&st&Hin&Hst&->&_); [|apply pull_b_wf].
  rewrite (deltaEntry_ID _ _ _ _ pull_b_wf Hst). apply elem_of_Digest in Hin as (S&HS&_); [by exists S|done].
Qed.

(** The copy of [b] at [a] ends up to date, and no other falls behind. *)
Lemma pull_synced : GossipNet.synced (proj P3) a b.
Proof using All.
  destruct (member_wf _ _ _ _ HP Ha) as [Hla Hwa], (member_wf _ _ _ _ HP Hb) as [Hlb Hwb].
  intros s O Hs HO. rewrite pull_owner in HO. simpl in Hs. rewrite lookup_fmap, lookup_insert_eq in Hs. injection Hs as <-.
  destruct (ni_copy _ (pi_net _ _ HP) a _ b R (proj_member _ _ _ Ha) HR) as (O'&HO'&Hrep).
  assert (O' = O) as -> by congruence. destruct (owner_own_wf _ _ _ (pi_net _ _ HP) HO) as [Hown HID].
  set (entry := mkDigestEntry b (n_Addr (ns_meta R)) (version R) (n_Left (ns_meta R))).
  apply (pull_in_sync 0 b (pn_gossip na) dl b O R); [done|done|done|congruence|done|].
  apply (Delta_carries (pn_gossip nb') dg b O entry); [apply pull_b_wf|by apply NoDup_Digest| |done|].
  - apply elem_of_Digest; [done|]. by exists R.
  - apply pull_b. apply owner_Some in HO as (s&Hs&HsO). simpl in Hs. rewrite lookup_fmap, Hb in Hs. by injection Hs as <-.
Qed.

Lemma pull_keeps x y : GossipNet.synced (proj P) x y → GossipNet.synced (proj P3) x y.
Proof using All.
  apply synced_further; [done|apply pull_inv3|apply pull_owner|]. intros n' Hn'%pull_lookup.
  destruct Hn' as [[-> ->]|[[-> ->]|(_&_&Hn')]].
  - exists na. split; [done|]. intros S HS. by apply pull_a.
  - exists nb. split; [done|]. intros S HS. exists S. split; [by apply pull_b|done].
  - exists n'. split; [done|]. eauto.
Qed.

Lemma pull_knows x y : knows P x y → knows P3 x y.
Proof using All.
  intros (n&Hn&[S HS]). unfold knows. destruct (decide (x = a)) as [->|Hxa].
  { exists na'. split; [by apply pull_lookup; left|]. assert (n = na) as -> by congruence.
    destruct (pull_a _ _ HS) as (S'&?&_). by exists S'. }
  destruct (decide (x = b)) as [->|Hxb].
  { exists nb'. split; [apply pull_lookup; by right; left|]. assert (n = nb) as -> by congruence.
    exists S. by apply pull_b. }
  exists n. split; [|by exists S]. apply pull_lookup. by right; right.
Qed.

(** [b] hears of every node of which [a] has a copy that has not left. *)
Lemma pull_learns x S :
  untombed P → nodes (pn_gossip na) !! x = Some S → n_Left (ns_meta S) = false → knows P3 b x.
Proof using All.
  intros Hu HS HSl. exists nb'. split; [apply pull_lookup; by right; left|].
  set (entry := mkDigestEntry x (n_Addr (ns_meta S)) (version S) (n_Left (ns_meta S))).
  apply (ApplyDigest_learns _ a dg entry); [by apply (Hu b)| |done].
  apply elem_of_Digest; [apply (member_wf _ _ _ _ HP Ha)|]. by exists S.
Qed.

Lemma pull_heard : ¬ left_at P a → heard_leaving P → heard_leaving P3.
Proof using All.
  intros Hal Hh c n x S Hc Hcl Hx HS. destruct pull_same_owners as (Hnet&_).
  assert (left_at P x) as Hx' by by eapply left_same.
  apply pull_lookup in Hc as [[-> ->]|[[-> ->]|(Hca&Hcb&Hc)]].
  - destruct (decide (x ∈ dl_ID <$> dl)) as [Hin|Hin].
    + destruct (pull_delta_known _ Hin) as [S0 HS0].
      destruct (ApplyDelta_left 0 (pn_gossip na) b dl x S0 HS0) as (S1&HS1&?); [exact (Hh _ _ _ _ Ha Hal Hx' HS0)|].
      simpl in HS. congruence.
    + simpl in HS. destruct (ApplyDelta_other 0 b (pn_gossip na) dl x Hin) as [Hsame _].
      rewrite Hsame in HS. exact (Hh _ _ _ _ Ha Hal Hx' HS).
  - simpl in HS. apply ApplyDigest_new in HS as [HS|(e&He&<-&Hel)].
    + apply (Hh b nb x S Hb); [|done|done]. intros Hbl. apply Hcl. by eapply left_back.
    + apply elem_of_Digest in He as (S0&HS0&Heq); [|apply (member_wf _ _ _ _ HP Ha)].
      rewrite Heq in Hel. simpl in Hel. by rewrite (Hh _ _ _ _ Ha Hal Hx' HS0) in Hel.
  - apply (Hh c n x S); [done| |done|done]. intros Hl. apply Hcl. by eapply left_back.
Qed.
End pull.

(** *** Everybody comes to know everybody *)

(** A run of the network that changes nothing but what nodes hold of each
    other, of which nothing is lost. *)
Record gets_on (P P' : piko_net) : Prop := {
  go_steps : rtc known_step P P';
  go_owners : same_owners P P';
  go_view : view_kept P P';
  go_synced : ∀ a b, GossipNet.synced (proj P) a b → GossipNet.synced (proj P') a b;
}.

Lemma gets_on_refl P : gets_on P P.
Proof using. split; [done|apply same_owners_refl|apply view_kept_refl|done]. Qed.

Lemma gets_on_trans P1 P2 P3 : gets_on P1 P2 → gets_on P2 P3 → gets_on P1 P3.
Proof using.
  intros [S1 O1 V1 Y1] [S2 O2 V2 Y2].
  split; [by etrans|by eapply same_owners_trans|by eapply view_kept_trans|eauto].
Qed.

Record sound_net (P : piko_net) : Prop := {
  sn_inv : piko_inv conf P;
  sn_untombed : untombed P;
  sn_heard : heard_leaving P;
}.

Lemma sound_kept P P' : rtc known_step P P' → view_kept P P' → sound_net P → sound_net P'.
Proof using conf_ok H1.
  intros Hr%known_steps [_ Hh] [HP Hu Hl]. split; [by eapply piko_steps_inv|by eapply steps_untombed|auto].
Qed.

Lemma sound_gets_on P P' : gets_on P P' → sound_net P → sound_net P'.
Proof using conf_ok H1. intros [Hr _ Hv _]. by apply sound_kept. Qed.

Lemma left_gets_on P P' x : gets_on P P' → left_at P' x → left_at P x.
Proof using. intros [_ [Hs _] _ _]. by apply left_same. Qed.

Lemma left_at_dec P x : {left_at P x} + {¬ left_at P x}.
Proof using.
  destruct (pk_nodes P !! x) as [n|] eqn:Hn; [|right; intros (?&?&_); congruence].
  destruct (decide (own_left n = Some true)); [left; by exists n|right; intros (?&?&?); congruence].
Defined.

Lemma knows_self P a : piko_inv conf P → is_Some (pk_nodes P !! a) → knows P a a.
Proof using.
  intros HP [n Hn]. exists n. split; [done|]. destruct (member_wf _ _ _ _ HP Hn) as [<- Hw]. by apply swf_local_ID.
Qed.

(** Of a node that has not left, nobody holds a copy that has. *)
Lemma copy_not_left P a n x R :
  piko_inv conf P → pk_nodes P !! a = Some n → nodes (pn_gossip n) !! x = Some R → ¬ left_at P x →
  is_Some (pk_nodes P !! x) ∧ n_Left (ns_meta R) = false.
Proof using.
  intros HP Hn HR Hx. destruct (ni_copy _ (pi_net _ _ HP) a _ x R (proj_member _ _ _ Hn) HR) as (O&HO&Hrep).
  apply owner_Some in HO as (s&Hs&HsO). simpl in Hs. rewrite lookup_fmap in Hs.
  destruct (pk_nodes P !! x) as [nx|] eqn:Hnx; [|done]. injection Hs as <-. split; [by eexists|].
  apply not_true_is_false. intros HRl%(rep_left_owner _ _ Hrep). apply Hx. exists nx. split; [done|].
  unfold own_left. rewrite (proj1 (member_wf _ _ _ _ HP Hnx)), HsO. simpl. by rewrite HRl.
Qed.

Lemma pull_pair P a b :
  sound_net P → a ≠ b → ¬ left_at P a → ¬ left_at P b → knows P a b →
  ∃ P', gets_on P P' ∧ GossipNet.synced (proj P') a b ∧ ∀ x, ¬ left_at P x → knows P a x → knows P' b x.
Proof using conf_ok H1.
  intros [HP Hu Hh] Hne Hal Hbl (na&Ha&[R HR]).
  destruct (copy_not_left P a na b R HP Ha HR Hbl) as [[nb Hb] HRl]. eexists. split; [split|split].
  - eapply rtc_l; [exact (pull_first P HP a b na nb R Ha Hb Hne HR HRl)|].
    eapply rtc_l; [exact (pull_second P HP a b na nb R Ha Hb Hne HR HRl)|].
    exact (rtc_once _ _ (pull_third P HP a b na nb R Ha Hb Hne HR HRl)).
  - by eapply pull_same_owners.
  - split; [intros x y; by eapply pull_knows|by eapply pull_heard].
  - intros x y. by eapply pull_keeps.
  - by eapply pull_synced.
  - intros x Hx (n&Hn&[S HS]). assert (n = na) as -> by congruence.
    eapply pull_learns; try done. by eapply copy_not_left.
Qed.

(** A round in each direction tells two nodes what either knew. *)
Lemma exchange P a b :
  sound_net P → a ≠ b → met P a b →
  ∃ P', gets_on P P' ∧ ∀ x, ¬ left_at P x → knows P a x ∨ knows P b x → knows P' a x ∧ knows P' b x.
Proof using conf_ok H1.
  intros HP Hne (Hal&Hbl&Hk).
  assert (∀ a b, a ≠ b → ¬ left_at P a → ¬ left_at P b → knows P a b →
    ∃ P', gets_on P P' ∧ ∀ x, ¬ left_at P x → knows P a x ∨ knows P b x → knows P' a x ∧ knows P' b x) as Hex.
  { clear a b Hne Hal Hbl Hk. intros a b Hne Hal Hbl Hk.
    destruct (pull_pair P a b HP Hne Hal Hbl Hk) as (P1&Hg1&_&Hl1).
    assert (knows P a a) as Haa by (apply knows_self; [apply HP|]; destruct Hk as (n&?&_); by eexists).
    destruct (pull_pair P1 b a) as (P2&Hg2&_&Hl2); [by eapply sound_gets_on|done| | |by apply Hl1|].
    { by intros ?%(left_gets_on _ _ _ Hg1). }
    { by intros ?%(left_gets_on _ _ _ Hg1). }
    exists P2. split; [by eapply gets_on_trans|]. intros x Hx Hkx.
    assert (knows P1 b x) as Hbx by (destruct Hkx; [by apply Hl1|by apply (go_view _ _ Hg1)]).
    split; [|by apply (go_view _ _ Hg2)]. apply Hl2; [|done]. by intros ?%(left_gets_on _ _ _ Hg1). }
  destruct Hk as [Hk|Hk]; [by apply Hex|]. destruct (Hex b a) as (P'&Hg&Hl); [done..|].
  exists P'. split; [done|]. intros x Hx Hkx. destruct (Hl x Hx); [tauto|done].
Qed.

Lemma met_gets_on P P' a b : gets_on P P' → met P a b → met P' a b.
Proof using.
  intros Hg (Ha&Hb&Hk). split_and!; [by intros ?%(left_gets_on _ _ _ Hg)..|].
  destruct (go_view _ _ Hg) as [Hkk _]. destruct Hk; auto.
Qed.

(** What a node knows travels along the nodes that have met. *)
Lemma path_knows P a b :
  sound_net P → is_Some (pk_nodes P !! b) → ¬ left_at P b → rtc (met P) a b → ∃ P', gets_on P P' ∧ knows P' a b.
Proof using conf_ok H1.
  intros HP Hb Hbl Hr. induction Hr as [b|a y b Hay _ IH].
  { exists P. split; [apply gets_on_refl|]. by apply knows_self; [apply HP|]. }
  destruct (IH Hb Hbl) as (P1&Hg1&Hk1). destruct (decide (a = y)) as [->|Hne]; [by exists P1|].
  destruct (exchange P1 a y) as (P2&Hg2&Hl2); [by eapply sound_gets_on|done|by eapply met_gets_on|].
  exists P2. split; [by eapply gets_on_trans|]. apply Hl2; [by intros ?%(left_gets_on _ _ _ Hg1)|by right].
Qed.

(** Doing something for every pair of nodes that have not left. *)
Lemma for_pairs (Q : piko_net → string → string → Prop) (l : list (string * string)) P :
  (∀ P P' a b, gets_on P P' → Q P a b → Q P' a b) →
  (∀ P' a b, gets_on P P' → (a, b) ∈ l → ¬ left_at P a → ¬ left_at P b → ∃ P'', gets_on P' P'' ∧ Q P'' a b) →
  ∃ P', gets_on P P' ∧ ∀ a b, (a, b) ∈ l → ¬ left_at P a → ¬ left_at P b → Q P' a b.
Proof using conf_ok H1.
  intros Hkeep Hdo.
  assert (∀ l', l' ⊆ l → ∃ P', gets_on P P' ∧ ∀ a b, (a, b) ∈ l' → ¬ left_at P a → ¬ left_at P b → Q P' a b) as Hall.
  { induction l' as [|[a b] l' IH]; intros Hsub; [exists P; split; [apply gets_on_refl|set_solver]|].
    destruct IH as (P1&Hg1&H1'); [set_solver|].
    destruct (left_at_dec P a) as [Ha|Ha]; [|destruct (left_at_dec P b) as [Hb|Hb]].
    1,2: exists P1; split; [done|]; intros a' b' [[= -> ->]|Hin]%elem_of_cons; [done|by apply H1'].
    destruct (Hdo P1 a b) as (P2&Hg2&HQ); [done|set_solver|done..|]. exists P2. split; [by eapply gets_on_trans|].
    intros a' b' [[= -> ->]|Hin]%elem_of_cons ??; [done|]. eapply Hkeep; [done|by apply H1']. }
  by apply Hall.
Qed.

(** Every two nodes of a cluster come to know each other, and then get in sync. *)
Lemma pull_all P :
  sound_net P → linked P →
  ∃ P', gets_on P P' ∧ ∀ a b, is_Some (pk_nodes P !! a) → is_Some (pk_nodes P !! b) →
    ¬ left_at P a → ¬ left_at P b → GossipNet.synced (proj P') a b.
Proof using conf_ok H1.
  intros HP Hlinked. set (ids := elements (dom (pk_nodes P))).
  assert (∀ a b, (a, b) ∈ list_prod ids ids ↔ is_Some (pk_nodes P !! a) ∧ is_Some (pk_nodes P !! b)) as Hids.
  { intros a b. unfold ids. rewrite list_elem_of_In, in_prod_iff, <-!list_elem_of_In, !elem_of_elements.
    by rewrite !elem_of_dom. }
  destruct (for_pairs knows (list_prod ids ids) P) as (P1&Hg1&Hk1).
  { intros ?? a b Hg. apply (go_view _ _ Hg). }
  { intros P1 a b Hg1 [Ha Hb]%Hids Hal Hbl. apply path_knows.
    - by eapply sound_gets_on.
    - destruct Hb as [nb Hb]. destruct (go_owners _ _ Hg1) as [Hs _].
      destruct (same_net_Some _ _ _ _ Hs Hb) as (?&?&_). by eexists.
    - by intros ?%(left_gets_on _ _ _ Hg1).
    - eapply (rtc_subrel (met P)); [|by apply Hlinked]. intros x y. by apply met_gets_on. }
  destruct (for_pairs (λ P, GossipNet.synced (proj P)) (list_prod ids ids) P1) as (P2&Hg2&Hk2).
  { intros ?? a b Hg. apply (go_synced _ _ Hg). }
  { intros P2 a b Hg2 Hin Hal Hbl. pose proof (sound_gets_on _ _ Hg2 (sound_gets_on _ _ Hg1 HP)) as HP2.
    destruct (decide (a = b)) as [->|Hne].
    { exists P2. split; [apply gets_on_refl|]. apply synced_self, HP2. }
    destruct (pull_pair P2 a b) as (P3&Hg3&Hs3&_); [done..| | | |by exists P3].
    - by intros ?%(left_gets_on _ _ _ Hg2).
    - by intros ?%(left_gets_on _ _ _ Hg2).
    - apply (go_view _ _ Hg2), Hk1; [done|..]; intros Hl; [apply Hal|apply Hbl];
        by eapply left_back; [apply (go_owners _ _ Hg1)|]. }
  exists P2. split; [by eapply gets_on_trans|]. intros a b Ha Hb Hal Hbl.
  apply Hk2; [by apply Hids|by intros ?%(left_gets_on _ _ _ Hg1)..].
Qed.

Lemma same_net_dom P P' a : same_net P P' → is_Some (pk_nodes P' !! a) → is_Some (pk_nodes P !! a).
Proof using. intros Hs [n' Hn']. destruct (same_net_Some_r _ _ _ _ Hs Hn') as (n&?&_). by exists n. Qed.

Lemma linked_kept P P' : same_net P P' → view_kept P P' → linked P → linked P'.
Proof using.
  intros Hs [Hk _] Hl a b Ha Hb Hal Hbl. apply (rtc_subrel (met P)).
  - intros x y (Hx&Hy&Hxy). split_and!; [by intros ?%(left_same _ _ _ Hs)..|]. destruct Hxy; auto.
  - apply Hl; [by eapply same_net_dom..|by intros ?%(left_back _ _ _ Hs)|by intros ?%(left_back _ _ _ Hs)].
Qed.

(** Every node catches up with every other: the updates that are going on
    finish, the nodes gossip, and a pass over the nodes finds them reachable. *)
Lemma catch_up now thr calm d P :
  (0 ≤ now)%Z →
  (∀ d id, calm d → ∃ lvl d', SuspicionLevel d id now = Some (lvl, d') ∧ flt thr lvl = false ∧ calm d') → calm d →
  sound_net P → linked P → (∀ a n, pk_nodes P !! a = Some n → has_room (pn_gossip n)) →
  ∃ P', rtc known_step P P' ∧ same_net P P' ∧ heard_leaving P' ∧
    (∀ a b, is_Some (pk_nodes P' !! a) → is_Some (pk_nodes P' !! b) → ¬ left_at P' a → ¬ left_at P' b →
       GossipNet.synced (proj P') a b) ∧
    ∀ a n, pk_nodes P' !! a = Some n → pn_update n = [] ∧ finds_reachable a (pn_gossip n).
Proof using conf_ok H1.
  intros Hnow Hcalm Hd HP Hlinked Hroom. set (ids := elements (dom (pk_nodes P))).
  assert (∀ a, a ∈ ids ↔ is_Some (pk_nodes P !! a)) as Hids.
  { intros a. unfold ids. by rewrite elem_of_elements, elem_of_dom. }
  destruct (finish_updates ids P (NoDup_elements _) (sn_inv _ HP)) as (P1&Hr1&Hs1&Hv1&_&Hu1).
  { intros a [n Hn]%Hids. exists n. split; [done|by eapply Hroom]. }
  pose proof (sound_kept _ _ Hr1 Hv1 HP) as HP1.
  destruct (pull_all P1 HP1) as (P2&Hg2&Hsync2); [by eapply linked_kept|].
  pose proof (sound_gets_on _ _ Hg2 HP1) as HP2. destruct Hg2 as [Hr2 (Hs2&_&Hu2) Hv2 _].
  pose proof (same_net_trans _ _ _ Hs1 Hs2) as Hs12.
  destruct (live_pass now thr Hnow calm Hcalm d ids P2 Hd (NoDup_elements _) (sn_inv _ HP2))
    as (P3&Hr3&(Hs3&_&Hu3)&Hv3&Hsync3&_&Hlive).
  { intros a [n Hn]%Hids. destruct (same_net_Some _ _ _ _ Hs12 Hn) as (n'&?&_). by exists n'. }
  pose proof (same_net_trans _ _ _ Hs2 Hs3) as Hs23.
  exists P3. split_and!; [by etrans; [|etrans]|by eapply same_net_trans|by apply Hv3, (sn_heard _ HP2)|..].
  - intros a b Ha Hb Hal Hbl.
    apply Hsync3, Hsync2; [by eapply same_net_dom..|by intros ?%(left_back _ _ _ Hs23)|by intros ?%(left_back _ _ _ Hs23)].
  - intros a n Hn. assert (a ∈ ids) as Ha by (apply Hids, (same_net_dom _ P2), (same_net_dom _ P3); [done|done|by exists n]).
    split; [|by eapply Hlive].
    destruct (Hu3 _ _ Hn) as (n2&Hn2&->). destruct (Hu2 _ _ Hn2) as (n1&Hn1&->). by eapply Hu1.
Qed.

(** The network a run of the program reaches is sound when nobody is taken for
    a member that has left. *)
Lemma reachable_sound P : piko_reachable conf P → heard_leaving P → sound_net P.
Proof using conf_ok H1. intros HP. split; [by apply piko_reachable_inv|by apply reachable_untombed|done]. Qed.

End sync.
