(* ===== verification/PikoRouting.v ===== *)
(** * Routing in a network of Piko nodes

    What a node forwards a request to, in every reachable network of [PikoNet],
    and that from every reachable network whose nodes are linked they can come
    to know all the endpoints of each other, by steps of [PikoSync]. *)

From S2P Require Import Prelude GoLib GossipState GossipReplica GossipMembership FailureDetector Protocol GossipExchange GossipNet Cluster Syncer Advertise SyncerGossip Upstream PikoNet PikoSync.

Section routing.
Context `{MapIter, DetectorLaws D} (conf : string → node_conf).
Context (conf_ok : ∀ x, nc_proxy (conf x) ≠ "" ∧ nc_admin (conf x) ≠ "").

(** ** What a node knows of the others *)

(** The local selection of an endpoint with a connected upstream. *)
Lemma select_connected n a ptr e allow :
  node_inv conf a n → connected (pn_manager n) e ≠ [] →
  ∃ m effs u, Select ptr (pn_manager n) e allow = Some (m, effs, Some u, true) ∧ u ∈ connected (pn_manager n) e.
Proof using.
  intros Hn Hne. destruct (oi_counts _ _ _ (ni_owner _ _ _ Hn)) as (c&Hc&_).
  destruct (localUpstreams (pn_manager n) !! e) as [lb|] eqn:Hlb.
  - destruct (Select_local c ptr _ e allow lb Hc Hlb) as (m&u&Hsel&Hin&_). eauto.
  - by apply (connected_None c) in Hlb.
Qed.

(** A published endpoint has a connected upstream, unless it is being updated. *)
Lemma published_connected n a e v l :
  node_inv conf a n → pn_update n = [] →
  published (pn_gossip n) !! (endpointPrefix +:+ e) = Some v → Atoi v = Some l →
  connected (pn_manager n) e ≠ [] ∧ LocalEndpointListeners (m_cluster (pn_manager n)) e = Some l.
Proof using.
  intros Hn Hu Hv Hl. pose proof (ni_owner _ _ _ Hn) as Ho. destruct (oi_counts _ _ _ Ho) as (c&Hc&Hle&Hupd).
  pose proof (room_counts _ _ (oi_room _ _ _ Ho) Hle e) as Hroom.
  rewrite Hu in Hupd. specialize (Hupd e). unfold advertised_at in Hupd. rewrite Hv in Hupd.
  case_decide as Hce; [done|]. injection Hupd as ->.
  rewrite Atoi_Itoa in Hl by (unfold is_i64; lia). injection Hl as <-. split.
  - intros Hnil. specialize (Hle e). rewrite Hnil in Hle. simpl in Hle. lia.
  - destruct (mwf_counts _ _ Hc) as (nd&Hnd&Hes). unfold LocalEndpointListeners. rewrite Hnd. simpl.
    by rewrite Hes, decide_False.
Qed.

(** What a node in the cluster says about the copy of its gossip state. *)
Lemma cluster_node_known a n x node :
  node_inv conf a n → x ≠ a → localID (pn_gossip n) = a → cs_nodes (m_cluster (pn_manager n)) !! x = Some node →
  ∃ R, nodes (pn_gossip n) !! x = Some R ∧ cn_ProxyAddr node = nc_proxy (conf x) ∧
    cn_AdminAddr node = nc_admin (conf x) ∧ cn_Status node = peer_status (peer_of R) ∧
    endpoints_match (view (ns_Entries R)) (cn_Endpoints node).
Proof using.
  intros Hn Hne Hl Hx. destruct (ni_synced _ _ _ Hn) as (m&[Hml Hm]&Hst). simpl in *.
  rewrite (ni_local _ _ _ Hn) in *. specialize (Hm x Hne). rewrite Hx in Hm.
  inversion Hm as [|p node' Hid Hstat Hpa Haa Hpn Han Hes Ep| |]; subst node'.
  specialize (Hst x). rewrite <-Ep in Hst. inversion Hst as [p0 p' Hpp Ep0|]; subst p'.
  rewrite lookup_peers in Ep0 by congruence. destruct (nodes (pn_gossip n) !! x) as [R|] eqn:HR; [|done].
  simpl in Ep0. injection Ep0 as ->. exists R. destruct Hpp as [Hsl Hsu Hse Hsa Hsp Hsd]. split_and!; [done|..].
  - rewrite Hpa. apply Hsp. unfold addr_of in *. destruct (p_view p !! proxyKey); [done|]. by rewrite Hpa in Hpn.
  - rewrite Haa. apply Hsd. unfold addr_of in *. destruct (p_view p !! adminKey); [done|]. by rewrite Haa in Han.
  - rewrite Hstat. unfold peer_status. by rewrite Hsl, Hsu.
  - intros e. rewrite Hes, Hse; [done|]. apply HasPrefix_app.
Qed.

Lemma member_known P a n x R :
  piko_inv conf P → pk_nodes P !! a = Some n → nodes (pn_gossip n) !! x = Some R →
  ∃ nx O, pk_nodes P !! x = Some nx ∧ owner (proj P) x = Some O ∧ nodes (pn_gossip nx) !! x = Some O ∧
    owner_wf O ∧ replica_of O R ∧ published (pn_gossip nx) = view (ns_Entries O).
Proof using.
  intros HP Hn HR. destruct (ni_copy _ (pi_net _ _ HP) a _ x R (proj_member _ _ _ Hn) HR) as (O&HO&Hrep).
  destruct (owner_own_wf _ _ _ (pi_net _ _ HP) HO) as [Hown _].
  pose proof HO as (s&Hs&HsO)%owner_Some. simpl in Hs. rewrite lookup_fmap in Hs.
  destruct (pk_nodes P !! x) as [nx|] eqn:Hnx; [|done]. injection Hs as <-.
  exists nx, O. split_and!; try done. apply published_local.
  by rewrite (proj1 (member_wf _ _ _ _ HP Hnx)).
Qed.

(** A node that lists [x] active with a listener, at the version of [x]. *)
Lemma listed_upstream P a n x node e l :
  piko_inv conf P → pk_nodes P !! a = Some n → x ≠ a →
  cs_nodes (m_cluster (pn_manager n)) !! x = Some node → cn_Endpoints node !! e = Some l →
  ∃ nx, pk_nodes P !! x = Some nx ∧
    (copy_version (pn_gossip n) x = copy_version (pn_gossip nx) x → pn_update nx = [] →
     connected (pn_manager nx) e ≠ [] ∧ LocalEndpointListeners (m_cluster (pn_manager nx)) e = Some l).
Proof using.
  intros HP Hn Hne Hx He. destruct (member_wf _ _ _ _ HP Hn) as [Hl _].
  destruct (cluster_node_known a n x node (pi_node _ _ HP _ _ Hn) Hne Hl Hx) as (R&HR&_&_&_&Hes).
  destruct (member_known P a n x R HP Hn HR) as (nx&O&Hnx&HO&HnO&Hown&Hrep&Hpub).
  exists nx. split; [done|]. intros Hv Hu. rewrite (copy_version_known _ _ _ HR), (copy_version_known _ _ _ HnO) in Hv.
  specialize (Hes e). rewrite He in Hes.
  destruct (view (ns_Entries R) !! (endpointPrefix +:+ e)) as [v|] eqn:Hvw; [|done]. simpl in Hes.
  apply (published_connected nx x e v); [by apply (pi_node _ _ HP)|done| |done].
  by rewrite Hpub, <-(replica_caught_up _ _ Hown Hrep Hv).
Qed.

Lemma LookupEndpoint_listed a n e node :
  node_inv conf a n → LookupEndpoint (m_cluster (pn_manager n)) e = Some node →
  cn_ID node ≠ a ∧ cs_nodes (m_cluster (pn_manager n)) !! cn_ID node = Some node ∧
  cn_Status node = NodeStatusActive ∧ ∃ l, cn_Endpoints node !! e = Some l ∧ (0 < l)%Z.
Proof using.
  intros Hn (Hin&Hne&Hst&Hes)%lookup_loop_Some. destruct (oi_counts _ _ _ (ni_owner _ _ _ Hn)) as (c&[Hcw _ _]&_).
  apply elem_of_values in Hin as [k Hk]. pose proof (cwf_ids _ Hcw _ _ Hk) as <-.
  rewrite (ni_local _ _ _ Hn) in Hne. split_and!; [done|done|done|].
  destruct (cn_Endpoints node !! e) as [l|]; [by exists l|done].
Qed.

(** *** A node that caught up lists what the others have *)

Lemma caught_up_lists P a n x nx e l :
  piko_inv conf P → pk_nodes P !! a = Some n → pk_nodes P !! x = Some nx → x ≠ a →
  GossipNet.synced (proj P) a x → ¬ left_at P x → finds_reachable a (pn_gossip n) → pn_update nx = [] →
  LocalEndpointListeners (m_cluster (pn_manager nx)) e = Some l → (0 < l)%Z →
  ∃ node, cs_nodes (m_cluster (pn_manager n)) !! x = Some node ∧ serves (m_cluster (pn_manager n)) e node.
Proof using conf_ok.
  intros HP Hn Hnx Hne Hsync Hleft Hreach Hu Hl Hpos.
  destruct (member_wf _ _ _ _ HP Hn) as [Hloc _], (member_wf _ _ _ _ HP Hnx) as [Hlocx _].
  destruct (member_owner _ _ _ (pi_net _ _ HP) (proj_member _ _ _ Hnx)) as [O HO].
  destruct (Hsync _ _ (proj_member _ _ _ Hn) HO) as (R&HR&He&_&HL).
  assert (nodes (pn_gossip nx) !! x = Some O) as HnO.
  { apply owner_Some in HO as (s&Hs&HsO). simpl in Hs. rewrite lookup_fmap, Hnx in Hs. by injection Hs as <-. }
  assert (n_Left (ns_meta O) = false) as HOl.
  { apply not_true_is_false. intros HOl. apply Hleft. exists nx. split; [done|]. unfold own_left.
    rewrite Hlocx, HnO. simpl. by rewrite HOl. }
  pose proof (pi_node _ _ HP _ _ Hnx) as Hi. pose proof (ni_owner _ _ _ Hi) as Ho.
  assert (published (pn_gossip nx) = view (ns_Entries R)) as Hpub.
  { rewrite He. apply published_local. by rewrite Hlocx. }
  destruct (oi_counts _ _ _ Ho) as (c&Hc&Hle&Hupd). rewrite Hu in Hupd. specialize (Hupd e). unfold advertised_at in Hupd.
  pose proof (room_counts _ _ (oi_room _ _ _ Ho) Hle e) as Hroom.
  destruct (mwf_counts _ _ Hc) as (nd&Hnd&Hes). unfold LocalEndpointListeners in Hl. rewrite Hnd in Hl. simpl in Hl.
  rewrite Hes in Hl. case_decide as Hce; simpl in Hl; [injection Hl as <-; lia|]. injection Hl as <-.
  rewrite Hpub in Hupd. pose proof (oi_proxy _ _ _ Ho) as Hproxy. pose proof (oi_admin _ _ _ Ho) as Hadmin.
  rewrite Hpub in Hproxy, Hadmin. destruct (conf_ok x) as [Hpne Hane].
  destruct (ni_synced _ _ _ (pi_node _ _ HP _ _ Hn)) as (m&[_ Hm]&Hst). simpl in Hm.
  rewrite (ni_local _ _ _ (pi_node _ _ HP _ _ Hn)) in Hm. specialize (Hm x Hne).
  destruct (sticky_Some conf _ _ x (peer_of R) Hst) as (p&Hp&[Hsl Hsu Hse Hsa _ _]).
  { by rewrite lookup_peers, HR by congruence. }
  rewrite Hp in Hm. simpl in Hsl, Hsu, Hse, Hsa.
  assert (addr_of (p_view p) proxyKey = nc_proxy (conf x) ∧ addr_of (p_view p) adminKey = nc_admin (conf x)) as [Hap Haa].
  { unfold addr_of. by rewrite (Hsa proxyKey _ ltac:(by left) Hproxy), (Hsa adminKey _ ltac:(by right) Hadmin). }
  assert (n_Left (ns_meta R) = false) as HRl by congruence.
  specialize (Hreach x R Hne HR HRl).
  inversion Hm as [|? node Hid Hstat Hpa Hda _ _ Hends Ep En|? ? _ _ _ Hpa Hda Hempty| ? Hpl]; simplify_eq; try congruence.
  - exists node. split; [done|]. unfold serves. rewrite (ni_local _ _ _ (pi_node _ _ HP _ _ Hn)). split_and!; [congruence| |].
    + rewrite Hstat. unfold peer_status. by rewrite Hsl, Hsu, HRl, Hreach.
    + rewrite Hends, Hse, Hupd by apply HasPrefix_app. simpl. rewrite Atoi_Itoa by (unfold is_i64; lia). lia.
  - destruct Hempty as [Hx|Hx]; congruence.
Qed.

Lemma serves_found s e node k :
  cs_nodes s !! k = Some node → serves s e node → is_Some (LookupEndpoint s e).
Proof using.
  intros Hk Hs. unfold LookupEndpoint. destruct (lookup_loop s e _) as [n|] eqn:Hl; [by eexists|].
  rewrite lookup_loop_None in Hl. exfalso. apply (Hl node); [|done]. apply elem_of_values. by exists k.
Qed.

(** When every node has caught up, every node selects an upstream for every
    endpoint that a node listens on. *)
Lemma caught_up_routes P a n b nb e l ptr :
  piko_inv conf P →
  (∀ a b, is_Some (pk_nodes P !! a) → is_Some (pk_nodes P !! b) → ¬ left_at P a → ¬ left_at P b →
     GossipNet.synced (proj P) a b) → heard_leaving P →
  (∀ a n, pk_nodes P !! a = Some n → pn_update n = [] ∧ finds_reachable a (pn_gossip n)) →
  pk_nodes P !! a = Some n → pk_nodes P !! b = Some nb → ¬ left_at P a → ¬ left_at P b →
  LocalEndpointListeners (m_cluster (pn_manager nb)) e = Some l → (0 < l)%Z →
  ∃ m effs u, Select ptr (pn_manager n) e true = Some (m, effs, Some u, true) ∧
    (u ∈ connected (pn_manager n) e ∨
     ∃ node nx, u = NodeUpstream ptr e node ∧ cn_ID node ≠ a ∧ pk_nodes P !! cn_ID node = Some nx ∧
       (∀ tls, node_dial tls u = Some (nc_proxy (conf (cn_ID node)), tls)) ∧ connected (pn_manager nx) e ≠ []).
Proof using conf_ok.
  intros HP Hsync Hheard Hdone Ha Hb Hal Hleft Hl Hpos. pose proof (pi_node _ _ HP _ _ Ha) as Hi.
  destruct (Hdone _ _ Ha) as [_ Hreach], (Hdone _ _ Hb) as [Hub _].
  destruct (decide (connected (pn_manager n) e = [])) as [Hnil|Hcon].
  2:{ destruct (select_connected n a ptr e true Hi Hcon) as (m&effs&u&Hsel&Hin). eexists _, _, u. eauto. }
  assert (b ≠ a) as Hne.
  { intros ->. assert (nb = n) as -> by congruence. destruct (oi_counts _ _ _ (ni_owner _ _ _ Hi)) as (c&Hc&Hle&_).
    destruct (mwf_counts _ _ Hc) as (nd&Hnd&Hes). unfold LocalEndpointListeners in Hl. rewrite Hnd in Hl. simpl in Hl.
    specialize (Hle e). rewrite Hnil in Hle. simpl in Hle. rewrite Hes, decide_True in Hl by lia.
    simpl in Hl. injection Hl as <-. lia. }
  destruct (caught_up_lists P a n b nb e l HP Ha Hb Hne) as (node0&Hnode0&Hserves); try done.
  { by apply Hsync; [eexists|eexists|..]. }
  destruct (serves_found _ _ _ _ Hnode0 Hserves) as [node Hlook].
  destruct (LookupEndpoint_listed a n e node Hi Hlook) as (Hnx&Hx&Hact&l'&Hl'&_).
  destruct (member_wf _ _ _ _ HP Ha) as [Hloc _].
  destruct (cluster_node_known a n _ node Hi Hnx Hloc Hx) as (R&HR&Hproxy&_&Hstat&_).
  assert (¬ left_at P (cn_ID node)) as Hxl.
  { intros Hxl. rewrite Hact in Hstat. unfold peer_status in Hstat. simpl in Hstat.
    by rewrite (Hheard a n _ R Ha Hal Hxl HR) in Hstat. }
  destruct (listed_upstream P a n _ node e l' HP Ha Hnx Hx Hl') as (nx&Hpx&Hup).
  assert (localUpstreams (pn_manager n) !! e = None) as Hnone.
  { destruct (oi_counts _ _ _ (ni_owner _ _ _ Hi)) as (c&Hc&_). by apply (connected_None c). }
  unfold Select. rewrite Hnone. simpl. rewrite Hlook. eexists _, _, _. split; [done|]. right.
  exists node, nx. split_and!; [done|done|done|intros tls; simpl; by rewrite Hproxy|].
  destruct (Hdone _ _ Hpx) as [Hux _]. apply Hup; [|done].
  destruct (member_owner _ _ _ (pi_net _ _ HP) (proj_member _ _ _ Hpx)) as [O HO].
  destruct (Hsync a (cn_ID node) ltac:(by eexists) ltac:(by eexists) Hal Hxl _ _ (proj_member _ _ _ Ha) HO) as (R'&HR'&_&Hv&_).
  rewrite (copy_version_known _ _ _ HR'), Hv. apply owner_Some in HO as (s&Hs'&HsO). simpl in Hs'.
  rewrite lookup_fmap, Hpx in Hs'. injection Hs' as <-. by rewrite (copy_version_known _ _ _ HsO).
Qed.

End routing.

(** ** Properties *)

(** C12. The network of nodes refines the network of their gossip states: whatever
    the upstreams, the callbacks and the syncers do, the gossip of a reachable
    network of Piko nodes is a reachable network of [GossipNet], so what holds
    of those (replication, getting in sync) holds of it. *)
Theorem piko_refines_gossip `{MapIter, DetectorLaws D} conf P :
  (∀ x, nc_proxy (conf x) ≠ "" ∧ nc_admin (conf x) ≠ "") →
  piko_reachable conf P → reachable (proj P).
Proof.
  intros Hconf Hr. assert (piko_inv conf P ∧ reachable (proj P)) as [_ ?]; [|done]. revert P Hr.
  apply (rtc_ind_r (λ P, piko_inv conf P ∧ reachable (proj P))); [|intros P1 P2 _ Hstep [HP1 IH]].
  - split; [apply empty_piko_inv|]. rewrite proj_empty. apply rtc_refl.
  - split; [by eapply piko_step_inv|]. unfold reachable in *. etrans; [exact IH|by eapply piko_simulates].
Qed.

(** C7. What a node advertises: in every reachable network of nodes, a node whose
    manager is not changing its endpoints publishes its own addresses and, for
    every endpoint, the number of listeners its cluster state counts, which is
    at most the number of connected upstreams; the manager's mutex, held until
    the callbacks have returned, is what keeps an older number from replacing
    a newer one.  A change that is going on can finish while the node has room
    for the versions of its updates. *)
Theorem endpoints_advertised `{MapIter, DetectorLaws D} conf P a n :
  (∀ x, nc_proxy (conf x) ≠ "" ∧ nc_admin (conf x) ≠ "") →
  piko_reachable conf P → pk_nodes P !! a = Some n →
  published (pn_gossip n) !! proxyKey = Some (nc_proxy (conf a)) ∧
  published (pn_gossip n) !! adminKey = Some (nc_admin (conf a)) ∧
  (∀ e, ∃ l, LocalEndpointListeners (m_cluster (pn_manager n)) e = Some l ∧
    (0 ≤ l ≤ Z.of_nat (length (connected (pn_manager n) e)))%Z ∧
    (pn_update n = [] → published (pn_gossip n) !! (endpointPrefix +:+ e) =
       if decide (l = 0%Z) then None else Some (Itoa l))) ∧
  (has_room (pn_gossip n) → ∃ n', rtc (piko_step conf) P (set_piko a n' P) ∧ pn_update n' = []).
Proof.
  intros Hconf HP%piko_reachable_inv Hn; [|done]. pose proof (pi_node _ _ HP _ _ Hn) as Hi.
  pose proof (ni_owner _ _ _ Hi) as Ho. split_and!; [apply Ho..| |].
  - intros e. destruct (oi_counts _ _ _ Ho) as (c&Hc&Hle&Hu). destruct (mwf_counts _ _ Hc) as (nd&Hnd&Hes).
    exists (Z.of_nat (c e)). unfold LocalEndpointListeners. rewrite Hnd. simpl. rewrite Hes. split_and!.
    + case_decide as Hz; simpl; [by rewrite Hz|done].
    + lia.
    + specialize (Hle e). lia.
    + intros Hnil. rewrite Hnil in Hu. specialize (Hu e). unfold advertised_at in Hu. rewrite Hu.
      repeat case_decide; done || lia.
  - intros Hroom. destruct (finish_update conf Hconf a n P HP Hn Hroom) as (n'&Hr%known_steps&_&_&Hu). by exists n'.
Qed.

(** C2. Requests are forwarded to the right node: in every reachable network of
    nodes, the node that [LookupEndpoint] returns at [a] for endpoint [e] is
    another node of the network, at the proxy address that node is configured
    with; and unless the copy [a] has of its gossip state is out of date, or its
    endpoints are being changed, that node has a connected upstream of [e] for
    the request. *)
Theorem forwards_to_upstream `{MapIter, DetectorLaws D} conf P a n e node :
  (∀ x, nc_proxy (conf x) ≠ "" ∧ nc_admin (conf x) ≠ "") →
  piko_reachable conf P → pk_nodes P !! a = Some n → LookupEndpoint (m_cluster (pn_manager n)) e = Some node →
  let x := cn_ID node in
  x ≠ a ∧ cn_ProxyAddr node = nc_proxy (conf x) ∧
  ∃ nx, pk_nodes P !! x = Some nx ∧
    (copy_version (pn_gossip n) x = copy_version (pn_gossip nx) x → pn_update nx = [] →
     ∀ ptr, ∃ m effs u, Select ptr (pn_manager nx) e false = Some (m, effs, Some u, true) ∧
       u ∈ connected (pn_manager nx) e).
Proof.
  intros Hconf HP%piko_reachable_inv Hn Hlook x; [|done]. pose proof (pi_node _ _ HP _ _ Hn) as Hi.
  destruct (LookupEndpoint_listed conf a n e node Hi Hlook) as (Hne&Hx&_&l&Hl&_).
  destruct (member_wf _ _ _ _ HP Hn) as [Hloc _].
  destruct (cluster_node_known conf a n x node Hi Hne Hloc Hx) as (R&_&Hproxy&_).
  split_and!; [done|done|]. destruct (listed_upstream conf P a n x node e l HP Hn Hne Hx Hl) as (nx&Hnx&Hup).
  exists nx. split; [done|]. intros Hv Hu ptr. destruct (Hup Hv Hu) as [Hcon _].
  eapply select_connected; [|done]. by apply (pi_node _ _ HP).
Qed.

(** C6. Endpoints are discovered: from every reachable network whose nodes that
    have not left are linked by having met (one of each two knows the other),
    and have heard of those that left, whatever was lost or is in flight, there
    are steps that change no upstream, in which digests go to nodes their
    sender knows and deltas answer digests, each in a packet that holds it
    whole, and after which every node that has not left can route to every
    endpoint that such a node listens on: its [Select] returns an upstream of
    its own or a node of the network, to be dialed at that node's proxy
    address, that has a connected upstream.  The nodes have room for the
    versions of the updates that are going on, and a failure detector at the
    time [now] suspects nobody. *)
Theorem endpoints_discovered `{MapIter, DetectorLaws D} conf P now thr calm (d : D) :
  (∀ x, nc_proxy (conf x) ≠ "" ∧ nc_admin (conf x) ≠ "") → piko_reachable conf P →
  linked P → heard_leaving P →
  (∀ a n, pk_nodes P !! a = Some n → has_room (pn_gossip n)) → (0 ≤ now)%Z → calm d →
  (∀ d id, calm d → ∃ lvl d', SuspicionLevel d id now = Some (lvl, d') ∧ flt thr lvl = false ∧ calm d') →
  ∃ P', rtc (known_step conf) P P' ∧ same_net P P' ∧
    ∀ a n b nb e l ptr,
      pk_nodes P' !! a = Some n → pk_nodes P' !! b = Some nb → ¬ left_at P a → ¬ left_at P b →
      LocalEndpointListeners (m_cluster (pn_manager nb)) e = Some l → (0 < l)%Z →
      ∃ m effs u, Select ptr (pn_manager n) e true = Some (m, effs, Some u, true) ∧
        (u ∈ connected (pn_manager n) e ∨
         ∃ node nx, u = NodeUpstream ptr e node ∧ cn_ID node ≠ a ∧ pk_nodes P' !! cn_ID node = Some nx ∧
           (∀ tls, node_dial tls u = Some (nc_proxy (conf (cn_ID node)), tls)) ∧ connected (pn_manager nx) e ≠ []).
Proof.
  intros Hconf HP Hlinked Hheard Hroom Hnow Hd Hcalm. pose proof (reachable_sound conf Hconf P HP Hheard) as HPs.
  destruct (catch_up conf Hconf now thr calm d P Hnow Hcalm Hd HPs Hlinked Hroom) as (P'&Hr&Hs&Hh&Hsync&Hdone).
  exists P'. split_and!; [done|done|]. intros a n b nb e l ptr Ha Hb Hal Hleft Hl Hpos.
  eapply (caught_up_routes conf Hconf P'); try done; [|by intros ?%(left_same _ _ _ Hs)..].
  by eapply piko_steps_inv; [|apply HPs|apply known_steps].
Qed.

(** ** Witnesses *)

#[local] Existing Instance canonical_iter.

Definition ex_conf (id : string) : node_conf := mkNodeConf (id +:+ ":8003") (id +:+ ":8000") (id +:+ ":8002").

Lemma ex_conf_ok x : nc_proxy (ex_conf x) ≠ "" ∧ nc_admin (ex_conf x) ≠ "".
Proof. by destruct x. Qed.

(** Two nodes, of which [b] has an upstream for [web] that it has not
    advertised yet. *)
Definition ex_none : piko_node :=
  mkPiko (newClusterState "" "") ∅ (NewLoadBalancedManager (NewState (mkCNode "" "" "" "" ∅)).1) [].
Definition ex_node (id : string) : piko_node := default ex_none (new_piko ex_conf id).
Definition ex_web : upstream := ConnUpstream 1 "web" "laptop" "10.1.1.1" 5000000.
Definition ex_b1 : piko_node :=
  default ex_none (change_manager (ex_node "b") <$> AddConn (pn_manager (ex_node "b")) ex_web).
Definition ex_two : piko_net := set_piko "b" (ex_node "b") (set_piko "a" (ex_node "a") empty_piko).
Definition ex_added : piko_net := set_piko "b" ex_b1 ex_two.

(** [b] advertises it and [a] learns of it. *)
Definition ex_call : gossiper_call := UpsertLocalCall "endpoint:web" "1".
Definition ex_b2 : piko_node := with_update ex_b1 [CallbackCalls [ex_call]].
Definition ex_b3 : piko_node :=
  default ex_none ((λ r, with_update (with_gossip ex_b2 r) [CallbackCalls []]) <$> gossip_call (pn_gossip ex_b2) ex_call).
Definition ex_b4 : piko_node := with_update ex_b3 [].
Definition ex_push : delta := default [] (LocalDelta (pn_gossip ex_b4)).
Definition ex_a1 : piko_node := with_gossip (ex_node "a") (ApplyDelta 5 (pn_gossip (ex_node "a")) "b" ex_push).
Definition ex_told : piko_net :=
  set_piko "a" ex_a1 (piko_post (mkMessage "b" "a" (PDelta ex_push))
    (set_piko "b" ex_b4 (set_piko "b" ex_b3 (set_piko "b" ex_b2 ex_added)))).

Abbreviation ex_reach := (piko_reachable (D:=accrualFailureDetector) ex_conf).

Lemma ex_added_reachable : ex_reach ex_added.
Proof.
  eapply rtc_l; [by apply (pk_start ex_conf "a" (ex_node "a")); vm_compute|].
  eapply rtc_l; [by apply (pk_start ex_conf "b" (ex_node "b")); vm_compute|]. apply rtc_once.
  destruct (AddConn (pn_manager (ex_node "b")) ex_web) as [r|] eqn:Hr; [|by vm_compute in Hr].
  assert (ex_b1 = change_manager (ex_node "b") r) as Heq by (unfold ex_b1; by rewrite Hr).
  unfold ex_added. rewrite Heq. apply (pk_add ex_conf "b" (ex_node "b") ex_web r); [by vm_compute|by vm_compute|done| |done|].
  - by apply (bool_decide_unpack _); vm_compute.
  - apply manager_room_dec. vm_compute in Hr. injection Hr as <-. by apply (bool_decide_unpack _); vm_compute.
Qed.

Lemma ex_told_reachable : ex_reach ex_told.
Proof.
  unfold piko_reachable. etrans; [exact ex_added_reachable|].
  destruct (gossip_call (pn_gossip ex_b2) ex_call) as [r|] eqn:Hr; [|by vm_compute in Hr].
  assert (ex_b3 = with_update (with_gossip ex_b2 r) [CallbackCalls []]) as Hb3 by (unfold ex_b3; by rewrite Hr).
  eapply rtc_l.
  { apply (pk_read ex_conf "b" ex_b1 "web" [ex_call] []); [apply lookup_insert_eq|by vm_compute|by vm_compute]. }
  eapply rtc_l.
  { apply (pk_call ex_conf "b" ex_b2 ex_call [] [] r); [apply lookup_insert_eq|done| |exact Hr].
    intros O HO. vm_compute in HO. injection HO as <-. by apply (bool_decide_unpack _); vm_compute. }
  rewrite <-Hb3. eapply rtc_l.
  { apply (pk_return ex_conf "b" ex_b3 []); [apply lookup_insert_eq|by vm_compute]. }
  eapply rtc_l.
  { apply (pk_push ex_conf "b" "a" ex_b4 ex_push); [apply lookup_insert_eq|by vm_compute]. }
  apply rtc_once. unfold ex_told, ex_a1. apply pk_delta; [by vm_compute|left|done].
Qed.

Lemma piko_refines_gossip_witness : reachable (D:=accrualFailureDetector) (proj ex_told).
Proof. apply (piko_refines_gossip ex_conf ex_told ex_conf_ok ex_told_reachable). Defined.

Lemma endpoints_advertised_witness :
  published (pn_gossip ex_b4) !! "endpoint:web" = Some "1" ∧
  ∃ n', rtc (piko_step (D:=accrualFailureDetector) ex_conf) ex_told (set_piko "b" n' ex_told) ∧ pn_update n' = [].
Proof.
  destruct (endpoints_advertised ex_conf ex_told "b" ex_b4 ex_conf_ok ex_told_reachable) as (_&_&Hes&Hfin);
    [by vm_compute|]. split.
  - destruct (Hes "web") as (l&Hl&_&Hp). vm_compute in Hl. injection Hl as <-. exact (Hp eq_refl).
  - apply Hfin. intros O HO. vm_compute in HO. injection HO as <-. by apply (bool_decide_unpack _); vm_compute.
Defined.

Lemma forwards_to_upstream_witness :
  ∃ m effs, Select 7 (pn_manager ex_b4) "web" false = Some (m, effs, Some ex_web, true).
Proof.
  destruct (LookupEndpoint (m_cluster (pn_manager ex_a1)) "web") as [node|] eqn:Hl; [|by vm_compute in Hl].
  destruct (forwards_to_upstream ex_conf ex_told "a" ex_a1 "web" node ex_conf_ok ex_told_reachable)
    as (_&_&nx&Hnx&Hup); [by vm_compute|exact Hl|].
  vm_compute in Hl. injection Hl as <-. assert (Some nx = Some ex_b4) as [= ->] by (rewrite <-Hnx; by vm_compute).
  destruct (Hup ltac:(by vm_compute) ltac:(by vm_compute) 7) as (m&effs&u&Hsel&Hin).
  vm_compute in Hin. apply list_elem_of_singleton in Hin as ->. by exists m, effs.
Defined.

(** A detector that has heard of nobody takes everybody for reachable. *)
Definition ex_window : arrivalWindow :=
  default (newArrivalWindow Second 50) (AddArrival 1000 (newArrivalWindow Second 50)).

Definition ex_calm (d : accrualFailureDetector) : Prop :=
  bootstrapInterval d = Second ∧ sampleSize d = 50 ∧ ∀ id w, windows d !! id = Some w → w = ex_window.

Definition ex_threshold : float64 := float64_of_int 20.

Lemma ex_calm_level d id :
  ex_calm d → ∃ lvl d', SuspicionLevel d id 1000 = Some (lvl, d') ∧ flt ex_threshold lvl = false ∧ ex_calm d'.
Proof.
  intros (Hb&Hs&Hw). change (SuspicionLevel d id 1000) with (SuspicionLevelAt d id 1000). unfold SuspicionLevelAt.
  assert (AddArrival 1000 (newArrivalWindow Second 50) = Some ex_window) as Hadd by by vm_compute.
  assert (∃ lvl, Phi ex_window 1000 = Some lvl ∧ flt ex_threshold lvl = false) as (lvl&Hphi&Hlvl).
  { eexists. split; by vm_compute. }
  exists lvl. destruct (windows d !! id) as [w|] eqn:Hid.
  - rewrite (Hw _ _ Hid). cbn [mbind option_bind]. rewrite Hphi. exists d. exact (conj eq_refl (conj Hlvl (conj Hb (conj Hs Hw)))).
  - rewrite Hb, Hs, Hadd. cbn [mbind option_bind]. rewrite Hphi. eexists. split_and!; [done|done|]. split_and!; [done|done|].
    intros i w. simpl. rewrite lookup_insert. case_decide; [congruence|apply Hw].
Qed.

(** [b] joined [a], which has not heard of its upstream. *)
Definition ex_join : delta := default [] (LocalDelta (pn_gossip ex_b1)).
Definition ex_a0 : piko_node := with_gossip (ex_node "a") (ApplyDelta 5 (pn_gossip (ex_node "a")) "b" ex_join).
Definition ex_joined : piko_net := set_piko "a" ex_a0 (piko_post (mkMessage "b" "a" (PDelta ex_join)) ex_added).

Lemma ex_joined_reachable : ex_reach ex_joined.
Proof.
  unfold piko_reachable. etrans; [exact ex_added_reachable|].
  eapply rtc_l; [by apply (pk_push ex_conf "b" "a" ex_b1 ex_join); vm_compute|].
  apply rtc_once. unfold ex_joined, ex_a0. apply pk_delta; [by vm_compute|left|done].
Qed.

Lemma ex_joined_nodes x n : pk_nodes ex_joined !! x = Some n → x = "a" ∧ n = ex_a0 ∨ x = "b" ∧ n = ex_b1.
Proof.
  simpl. rewrite !lookup_insert, lookup_empty. repeat case_decide; subst; intros [= <-]; auto; by left.
Qed.

Lemma ex_joined_left x : ¬ left_at ex_joined x.
Proof. intros (n&[[-> ->]|[-> ->]]%ex_joined_nodes&Hl); by vm_compute in Hl. Qed.

Lemma ex_joined_linked : linked ex_joined.
Proof.
  assert (knows ex_joined "a" "b") as Hab by (exists ex_a0; split; [by vm_compute|by eexists; vm_compute]).
  assert (∀ x y, (x = "a" ∧ y = "b" ∨ x = "b" ∧ y = "a") → met ex_joined x y) as Hmet.
  { intros x y Hxy. split_and!; [apply ex_joined_left..|]. destruct Hxy as [[-> ->]|[-> ->]]; auto. }
  intros x y [nx Hx] [ny Hy] _ _. apply ex_joined_nodes in Hx, Hy.
  destruct Hx as [[-> _]|[-> _]], Hy as [[-> _]|[-> _]]; try apply rtc_refl; apply rtc_once; auto.
Qed.

Lemma ex_joined_heard : heard_leaving ex_joined.
Proof. intros a n x R _ _ Hx. by apply ex_joined_left in Hx. Qed.

Lemma ex_joined_room a n : pk_nodes ex_joined !! a = Some n → has_room (pn_gossip n).
Proof.
  intros [[_ ->]|[_ ->]]%ex_joined_nodes O HO; vm_compute in HO; injection HO as <-; by apply (bool_decide_unpack _); vm_compute.
Qed.

Lemma endpoints_discovered_witness :
  LookupEndpoint (m_cluster (pn_manager ex_a0)) "web" = None ∧
  ∃ P' n m effs u, rtc (known_step (D:=accrualFailureDetector) ex_conf) ex_joined P' ∧
    pk_nodes P' !! "a" = Some n ∧ Select 7 (pn_manager n) "web" true = Some (m, effs, Some u, true).
Proof.
  split; [by vm_compute|].
  destruct (endpoints_discovered ex_conf ex_joined 1000 ex_threshold ex_calm (newAccrualFailureDetector Second 50)
    ex_conf_ok ex_joined_reachable ex_joined_linked ex_joined_heard ex_joined_room) as (P'&Hr&Hs&Hsel).
  - done.
  - by split_and!.
  - apply ex_calm_level.
  - destruct (same_net_Some _ _ "a" ex_a0 Hs ltac:(by vm_compute)) as (na&Hna&_).
    destruct (same_net_Some _ _ "b" ex_b1 Hs ltac:(by vm_compute)) as (nb&Hnb&[_ [El En _] _]).
    destruct (Hsel "a" na "b" nb "web" 1%Z 7 Hna Hnb) as (m&effs&u&Hsel'&_).
    + apply ex_joined_left.
    + apply ex_joined_left.
    + unfold LocalEndpointListeners. rewrite El, En. by vm_compute.
    + done.
    + by exists P', na, m, effs, u.
Defined.
