(* ===== verification/HttpLib.v ===== *)
(** * The parts of Go's net/http and strings packages the program uses

    Headers with case-insensitive names, requests, the responses the handlers
    write, and the headers of the requests a reverse proxy sends. *)

From S2P Require Import Prelude GoLib NetLib.

Local Open Scope string_scope.

(** ** Headers *)

Definition lower_char (c : Ascii.ascii) : Ascii.ascii :=
  let n := Ascii.nat_of_ascii c in
  if decide (65 ≤ n ∧ n ≤ 90)%nat then Ascii.ascii_of_nat (n + 32)%nat else c.

Fixpoint ToLower (s : string) : string :=
  match s with EmptyString => EmptyString | String c s' => String (lower_char c) (ToLower s') end.

(** A header is a list of fields; a name is compared without case, as the
    canonical form does for the names the program uses. *)
Abbreviation header := (list (string * string)).

(** [Header.Get]: the first value, or the empty string. *)
Fixpoint header_Get (h : header) (name : string) : string :=
  match h with
  | [] => ""
  | (k, v) :: h' => if decide (ToLower k = ToLower name) then v else header_Get h' name
  end.

(** [Header.Set]: the only value. *)
Definition header_Set (h : header) (name value : string) : header :=
  (name, value) :: filter (λ p, ToLower p.1 ≠ ToLower name) h.

(** [Header.Del]. *)
Definition header_Del (h : header) (name : string) : header :=
  filter (λ p, ToLower p.1 ≠ ToLower name) h.

Record request := mkRequest {
  r_Method : string;
  r_Host : string;
  r_Path : string;
  r_Header : header;
}.

(** A JSON response with an error message, or the response of the network. *)
Record response := mkResponse {
  resp_status : nat;
  resp_error : string;
}.

Definition StatusBadRequest : nat := 400.
Definition StatusUnauthorized : nat := 401.
Definition StatusInternalServerError : nat := 500.
Definition StatusBadGateway : nat := 502.
Definition StatusGatewayTimeout : nat := 504.

(** Every value of a name. *)
Definition header_Values (h : header) (name : string) : list string :=
  (filter (λ p, ToLower p.1 = ToLower name) h).*2.

(** ** The requests [httputil.ReverseProxy] sends

    The hop-by-hop headers are removed: those the [Connection] header lists, and
    the standard ones.  An upgrade is asked for again. *)

Definition is_blank (c : Ascii.ascii) : bool := bool_decide (c = " "%char ∨ c = "009"%char).

Fixpoint trim_blanks_left (s : string) : string :=
  match s with
  | EmptyString => EmptyString
  | String c s' => if is_blank c then trim_blanks_left s' else s
  end.

Fixpoint trim_blanks_right (s : string) : string :=
  match s with
  | EmptyString => EmptyString
  | String c s' =>
      match trim_blanks_right s' with
      | EmptyString => if is_blank c then EmptyString else String c EmptyString
      | t => String c t
      end
  end.

Definition trim_blanks (s : string) : string := trim_blanks_right (trim_blanks_left s).

(** The names the [Connection] header lists. *)
Definition connection_tokens (h : header) : list string :=
  filter (λ t, t ≠ "") (trim_blanks <$> (header_Values h "Connection" ≫= λ v, Split v ",")).

Definition hopHeaders : list string :=
  ["Connection"; "Proxy-Connection"; "Keep-Alive"; "Proxy-Authenticate"; "Proxy-Authorization"; "Te";
   "Trailer"; "Transfer-Encoding"; "Upgrade"].

Definition removeHopByHopHeaders (h : header) : header :=
  foldl header_Del h (connection_tokens h ++ hopHeaders).

(** [upgradeType]: the protocol, when the [Connection] header has the token
    [Upgrade]. *)
Definition upgradeType (h : header) : string :=
  if decide ("upgrade" ∈ ToLower <$> connection_tokens h) then header_Get h "Upgrade" else "".

Definition proxy_headers (h : header) : header :=
  let h1 := removeHopByHopHeaders h in
  if decide (upgradeType h = "") then h1
  else header_Set (header_Set h1 "Connection" "Upgrade") "Upgrade" (upgradeType h).

(** ** Lemmas *)

Lemma header_Get_Set h name value name' :
  header_Get (header_Set h name value) name' =
    if decide (ToLower name = ToLower name') then value else header_Get h name'.
Proof.
  unfold header_Set. cbn [header_Get].
  destruct (decide (ToLower name = ToLower name')) as [|Hne]; [done|].
  induction h as [|[k v] h IH]; [done|]. rewrite filter_cons.
  destruct (decide (ToLower (k, v).1 ≠ ToLower name)) as [Hk|Hk]; cbn [fst header_Get] in *.
  - by rewrite IH.
  - rewrite decide_False; [done|]. apply dec_stable in Hk. congruence.
Qed.

Lemma header_Get_Del h name name' :
  header_Get (header_Del h name) name' =
    if decide (ToLower name = ToLower name') then "" else header_Get h name'.
Proof.
  unfold header_Del. induction h as [|[k v] h IH]; [by case_decide|]. rewrite filter_cons.
  destruct (decide (ToLower (k, v).1 ≠ ToLower name)) as [Hk|Hk]; cbn [fst header_Get] in *; rewrite IH.
  - destruct (decide (ToLower k = ToLower name')) as [Hk'|Hk']; [|done].
    rewrite decide_False; [done|]. intros Heq. apply Hk. congruence.
  - apply dec_stable in Hk. destruct (decide (ToLower name = ToLower name')) as [|Hne]; [done|].
    rewrite decide_False by congruence. done.
Qed.

Lemma header_Get_Dels names h name :
  ToLower name ∉ ToLower <$> names → header_Get (foldl header_Del h names) name = header_Get h name.
Proof.
  revert h. induction names as [|n names IH]; intros h Hn; [done|]. simpl.
  rewrite fmap_cons, not_elem_of_cons in Hn. destruct Hn as [Hne Hn].
  rewrite IH, header_Get_Del by done. by rewrite decide_False by congruence.
Qed.

Lemma header_Get_Dels_gone names h name :
  ToLower name ∈ ToLower <$> names → header_Get (foldl header_Del h names) name = "".
Proof.
  revert h. induction names as [|n names IH]; intros h Hn; [by apply not_elem_of_nil in Hn|]. simpl.
  destruct (decide (ToLower name ∈ ToLower <$> names)) as [Hin|Hnin]; [by apply IH|].
  rewrite fmap_cons, elem_of_cons in Hn. destruct Hn as [Heq|]; [|done].
  rewrite header_Get_Dels, header_Get_Del by done. by rewrite decide_True.
Qed.

(** A name that is neither hop-by-hop nor listed by the client is kept. *)
Lemma header_Get_proxy h name :
  ToLower name ∉ ToLower <$> hopHeaders → ToLower name ∉ ToLower <$> connection_tokens h →
  header_Get (proxy_headers h) name = header_Get h name.
Proof.
  intros Hhop Hcon. unfold proxy_headers, removeHopByHopHeaders.
  assert (ToLower name ∉ ToLower <$> (connection_tokens h ++ hopHeaders)%list) as Hn.
  { rewrite fmap_app, not_elem_of_app. done. }
  assert (ToLower "Connection" ≠ ToLower name ∧ ToLower "Upgrade" ≠ ToLower name) as [H1 H2].
  { split; intros Heq; apply Hhop; rewrite <-Heq; apply (bool_decide_unpack _); by vm_compute. }
  case_decide; [by apply header_Get_Dels|].
  rewrite !header_Get_Set, !decide_False by done. by apply header_Get_Dels.
Qed.
