(* ===== verification/Auth.v ===== *)
(** * pkg/auth and pkg/middleware/auth.go: tokens and their verification

    JWT parsing and signatures are golang-jwt's: [ParseWithClaims],
    [GetExpirationTime] and the parsing of keys are parameters ([JWT],
    [KeyLoader]); [JWTLaws] states what golang-jwt documents of a token it
    accepts. *)

From S2P Require Import Prelude GoLib NetLib HttpLib.

(** ** Tokens *)

Record Token := mkToken {
  Expiry : time;
  tok_Endpoints : list string;
  TenantID : string;
}.

Definition EndpointPermitted (t : Token) (endpointID : string) : bool :=
  match tok_Endpoints t with
  | [] => true
  | _ => bool_decide (endpointID ∈ tok_Endpoints t)
  end.

Inductive auth_error :=
  | ErrInvalidToken
  | ErrExpiredToken
  | ErrUnknownTenant
  | ErrMissingEndpoints (claims : list string)
  | ErrOther.

(** ** Claims *)

(** A decoded JSON value; the keys of an object are distinct.  [CStrings] is a
    [[]string], which JSON decoding does not produce. *)
Inductive claim :=
  | CNull
  | CBool (b : bool)
  | CNumber (n : float64)
  | CString (s : string)
  | CStrings (l : list string)
  | CArray (l : list claim)
  | CObject (o : list (string * claim)).

Abbreviation claims := (list (string * claim)).

Fixpoint claim_get (o : claims) (key : string) : option claim :=
  match o with
  | [] => None
  | (k, v) :: o' => if decide (k = key) then Some v else claim_get o' key
  end.

Definition endpointIDFromClaim (value : string) : string :=
  match Cut value "." with
  | None => value
  | Some (name, _) => if decide (name = "") then value else name
  end.

(** The loop of [extractEndpoints] that follows the path; every iteration cuts
    the path, so its length bounds the iterations. *)
Fixpoint walk (fuel : nat) (cur : claim) (path : string) : option claim :=
  match fuel with
  | 0 => None
  | S fuel' =>
      match cur with
      | CObject obj =>
          match Cut path "." with
          | None => claim_get obj path
          | Some (key, rest) => next ← claim_get obj key; walk fuel' next rest
          end
      | _ => None
      end
  end.

Definition claim_string (c : claim) : option string :=
  match c with CString s => Some s | _ => None end.

Definition extractEndpoints (c : claims) (path : string) : list string :=
  match walk (S (String.length path)) (CObject c) path with
  | None => []
  | Some cur =>
      let values :=
        match cur with
        | CString s => [s]
        | CStrings l => l
        | CArray l => omap claim_string l
        | _ => []
        end in
      endpointIDFromClaim <$> filter (λ v, v ≠ "") values
  end.

(** The loops of [Verify] over the claims and the endpoints found at each. *)
Definition add_endpoint (endpoints : list string) (endpoint : string) : list string :=
  if decide (endpoint ∈ endpoints) then endpoints else endpoints ++ [endpoint].

Definition combine_endpoints (c : claims) (paths : list string) : list string :=
  foldl (λ acc path, foldl add_endpoint acc (extractEndpoints c path)) [] paths.

(** ** golang-jwt *)

Record jwt_token := mkJwtToken {
  Alg : string;
  Kid : string;
}.

(** What a key function returns: the secret, or a public key that may be nil. *)
Inductive key :=
  | KeySecret (secret : string)
  | KeyRSA (k : option string)
  | KeyECDSA (k : option string).

(** The options the verifier passes; no valid methods is no check. *)
Record parser_options := mkOptions {
  WithValidMethods : list string;
  WithAudience : option string;
  WithIssuer : option string;
}.

Inductive parse_result :=
  | Parsed (c : claims) (valid : bool)
  | ParseFailed (expired : bool).

Class JWT := {
  ParseWithClaims : time → string → (jwt_token → option key) → parser_options → parse_result;
  GetExpirationTime : claims → option (option time);
}.

(** ** JWTVerifier *)

Record LoadedConfig := mkLoadedConfig {
  lc_HMACSecretKey : string;
  lc_RSAPublicKey : option string;
  lc_ECDSAPublicKey : option string;
  lc_Audience : string;
  lc_Issuer : string;
  lc_DisableDisconnectOnExpiry : bool;
  lc_EndpointsClaim : list string;
  lc_RequireEndpoints : bool;
  lc_JWKS : option (jwt_token → option key);
}.

Record JWTVerifier := mkVerifier {
  hmacSecretKey : string;
  rsaPublicKey : option string;
  ecdsaPublicKey : option string;
  keyFunc : option (jwt_token → option key);
  audience : string;
  issuer : string;
  disableDisconnectOnExpiry : bool;
  requireEndpoints : bool;
  endpointsClaim : list string;
  methods : list string;
}.

Definition DefaultEndpointsClaim : list string := ["piko.endpoints"].

Definition NewJWTVerifier (conf : LoadedConfig) : JWTVerifier :=
  mkVerifier (lc_HMACSecretKey conf) (lc_RSAPublicKey conf) (lc_ECDSAPublicKey conf) (lc_JWKS conf)
    (lc_Audience conf) (lc_Issuer conf) (lc_DisableDisconnectOnExpiry conf) (lc_RequireEndpoints conf)
    (match lc_EndpointsClaim conf with [] => DefaultEndpointsClaim | l => l end)
    ((if decide (lc_HMACSecretKey conf = "") then [] else ["HS256"; "HS384"; "HS512"]) ++
     (match lc_RSAPublicKey conf with None => [] | Some _ => ["RS256"; "RS384"; "RS512"] end) ++
     (match lc_ECDSAPublicKey conf with None => [] | Some _ => ["ES256"; "ES384"; "ES512"] end)).

(** The key function [Verify] passes to the parser. *)
Definition verifier_key (v : JWTVerifier) (token : jwt_token) : option key :=
  match keyFunc v with
  | Some f => f token
  | None =>
      if decide (Alg token ∈ ["HS256"; "HS384"; "HS512"]) then Some (KeySecret (hmacSecretKey v))
      else if decide (Alg token ∈ ["RS256"; "RS384"; "RS512"]) then Some (KeyRSA (rsaPublicKey v))
      else if decide (Alg token ∈ ["ES256"; "ES384"; "ES512"]) then Some (KeyECDSA (ecdsaPublicKey v))
      else None
  end.

Definition verifier_options (v : JWTVerifier) : parser_options :=
  mkOptions (methods v)
    (if decide (audience v = "") then None else Some (audience v))
    (if decide (issuer v = "") then None else Some (issuer v)).

Section verify.
Context `{JWT}.

Definition jwt_Verify (now : time) (v : JWTVerifier) (tokenString : string) : auth_error + Token :=
  match ParseWithClaims now tokenString (verifier_key v) (verifier_options v) with
  | ParseFailed expired => inl (if expired then ErrExpiredToken else ErrInvalidToken)
  | Parsed c valid =>
      if negb valid then inl ErrInvalidToken
      else
        let endpoints := combine_endpoints c (endpointsClaim v) in
        if requireEndpoints v && bool_decide (endpoints = []) then inl (ErrMissingEndpoints (endpointsClaim v))
        else
          let expiry :=
            if disableDisconnectOnExpiry v then zero_time
            else match GetExpirationTime c with Some (Some exp) => exp | _ => zero_time end in
          inr (mkToken expiry endpoints "")
  end.
End verify.

(** ** MultiTenantVerifier *)

(** A [Verifier] is its [Verify]; the map of tenants may be nil. *)
Record MultiTenantVerifier := mkMulti {
  defaultVerifier : string → auth_error + Token;
  tenantVerifiers : option (gmap string (string → auth_error + Token));
}.

Definition NewMultiTenantVerifier (d : string → auth_error + Token)
    (ts : option (gmap string (string → auth_error + Token))) : MultiTenantVerifier := mkMulti d ts.

Definition multi_Verify (v : MultiTenantVerifier) (token tenantID : string) : auth_error + Token :=
  if decide (tenantID = "") then
    if decide (size (default ∅ (tenantVerifiers v)) ≠ 0) then inl ErrUnknownTenant
    else defaultVerifier v token
  else
    match tenantVerifiers v with
    | None => inl ErrUnknownTenant
    | Some ts =>
        match ts !! tenantID with
        | None => inl ErrUnknownTenant
        | Some verifier =>
            match verifier token with
            | inl err => inl err
            | inr t => inr (mkToken (Expiry t) (tok_Endpoints t) tenantID)
            end
        end
    end.

(** ** The middleware *)

Definition unauthorized (message : string) : response := mkResponse StatusUnauthorized message.

Definition parseToken (h : header) : response + string :=
  let authorization :=
    if decide (header_Get h "x-piko-authorization" = "")
    then header_Get h "Authorization" else header_Get h "x-piko-authorization" in
  if decide (authorization = "") then inl (unauthorized "missing authorization")
  else
    match Cut authorization " " with
    | None => inl (unauthorized "invalid authorization")
    | Some (authType, tokenString) =>
        if decide (authType ≠ "Bearer") then inl (unauthorized "unsupported auth type")
        else inr tokenString
    end.

Definition parseTenant (h : header) : string := header_Get h "x-piko-tenant-id".

(** The response for each error of the verifier. *)
Definition verify_response (err : auth_error) : response :=
  match err with
  | ErrInvalidToken => unauthorized "invalid token"
  | ErrExpiredToken => unauthorized "expired token"
  | ErrMissingEndpoints _ => unauthorized "token missing endpoints"
  | ErrUnknownTenant => unauthorized "unknown tenant"
  | ErrOther => mkResponse StatusInternalServerError ""
  end.

(** [Auth.Verify]: the response that aborts the request, or the token put in
    the context of the next handler. *)
Definition middleware_Verify (v : MultiTenantVerifier) (h : header) : response + Token :=
  match parseToken h with
  | inl resp => inl resp
  | inr tokenString =>
      match multi_Verify v tokenString (parseTenant h) with
      | inl err => inl (verify_response err)
      | inr token => inr token
      end
  end.

(** The routers install the middleware only when there is a verifier. *)
Definition authenticate (v : option MultiTenantVerifier) (h : header) : response + option Token :=
  match v with
  | None => inr None
  | Some v => match middleware_Verify v h with inl resp => inl resp | inr t => inr (Some t) end
  end.

(** A handler's check of the token in its context. *)
Definition token_permits (token : option Token) (endpointID : string) : bool :=
  match token with None => true | Some t => EndpointPermitted t endpointID end.

(** ** Configuration *)

Record JWKSConfig := mkJWKS {
  jwks_Endpoint : string;
  CacheTTL : Z;
  jwks_Timeout : Z;
}.

Record AuthConfig := mkAuthConfig {
  HMACSecretKey : string;
  RSAPublicKey : string;
  ECDSAPublicKey : string;
  Audience : string;
  Issuer : string;
  DisableDisconnectOnExpiry : bool;
  EndpointsClaim : list string;
  RequireEndpoints : bool;
  JWKS : JWKSConfig;
}.

Inductive load_error :=
  | ParseRSAError | ParseECDSAError
  | ParseEndpointError | UnsupportedScheme (scheme : string) | ReadFileError | ParseJWKSError | LoadRemoteError
  | OtherKeysWithJWKS.

(** The parsing of keys and the loading of key sets: golang-jwt, keyfunc, the
    file system and net/url. *)
Class KeyLoader := {
  ParseRSAPublicKeyFromPEM : string → option string;
  ParseECPublicKeyFromPEM : string → option string;
  ParseURL : string → option (string * string);
  ReadFile : string → option string;
  NewJWKSetJSON : string → option (jwt_token → option key);
  LoadRemote : string → Z → Z → option (jwt_token → option key);
}.

Definition Enabled (c : AuthConfig) : bool :=
  bool_decide (HMACSecretKey c ≠ "") || bool_decide (RSAPublicKey c ≠ "")
  || bool_decide (ECDSAPublicKey c ≠ "") || bool_decide (jwks_Endpoint (JWKS c) ≠ "").

Section load.
Context `{KeyLoader}.

Definition loadLocal (path : string) : load_error + (jwt_token → option key) :=
  match ReadFile path with
  | None => inl ReadFileError
  | Some contents =>
      match NewJWKSetJSON contents with None => inl ParseJWKSError | Some f => inr f end
  end.

Definition loadRemote (j : JWKSConfig) : load_error + (jwt_token → option key) :=
  match LoadRemote (jwks_Endpoint j) (CacheTTL j) (jwks_Timeout j) with
  | None => inl LoadRemoteError
  | Some f => inr f
  end.

Definition jwks_Load (j : JWKSConfig) : load_error + (jwt_token → option key) :=
  match ParseURL (jwks_Endpoint j) with
  | None => inl ParseEndpointError
  | Some (scheme, path) =>
      if decide (scheme = "http" ∨ scheme = "https") then loadRemote j
      else if decide (scheme = "file") then loadLocal path
      else inl (UnsupportedScheme scheme)
  end.

(** A key given as PEM, when it is given. *)
Definition load_pem (parse : string → option string) (err : load_error) (pem : string) :
    load_error + option string :=
  if decide (pem = "") then inr None
  else match parse pem with None => inl err | Some k => inr (Some k) end.

Definition auth_Load (c : AuthConfig) : load_error + LoadedConfig :=
  match load_pem ParseRSAPublicKeyFromPEM ParseRSAError (RSAPublicKey c) with
  | inl err => inl err
  | inr rsa =>
      match load_pem ParseECPublicKeyFromPEM ParseECDSAError (ECDSAPublicKey c) with
      | inl err => inl err
      | inr ecdsa =>
          let loaded := mkLoadedConfig (HMACSecretKey c) rsa ecdsa (Audience c) (Issuer c)
            (DisableDisconnectOnExpiry c) (EndpointsClaim c) (RequireEndpoints c) in
          if decide (jwks_Endpoint (JWKS c) = "") then inr (loaded None)
          else
            match jwks_Load (JWKS c) with
            | inl err => inl err
            | inr f =>
                if decide (HMACSecretKey c ≠ "" ∨ RSAPublicKey c ≠ "" ∨ ECDSAPublicKey c ≠ "")
                then inl OtherKeysWithJWKS
                else inr (loaded (Some f))
            end
      end
  end.
End load.

(** ** Specification *)

(** What golang-jwt documents of a token it accepts: the claims are those of the
    token, its signature verifies with the key of the key function, its
    algorithm is one of the valid methods, the audience and the issuer match
    when they are required, and it has not expired. *)
Class JWTLaws `{JWT} := {
  token_header : string → option jwt_token;
  token_claims : string → claims;
  signed_by : key → string → Prop;
  audiences : claims → list string;
  issued_by : claims → string;
  accepted_signed now ts kf opts c :
    ParseWithClaims now ts kf opts = Parsed c true →
    ∃ tok k, token_header ts = Some tok ∧ kf tok = Some k ∧ signed_by k ts ∧ c = token_claims ts ∧
      (WithValidMethods opts ≠ [] → Alg tok ∈ WithValidMethods opts);
  accepted_claims now ts kf opts c :
    ParseWithClaims now ts kf opts = Parsed c true →
    (∀ a, WithAudience opts = Some a → a ∈ audiences c) ∧
    (∀ i, WithIssuer opts = Some i → issued_by c = i) ∧
    (∀ exp, GetExpirationTime c = Some (Some exp) → (now < exp)%Z);
}.

(** The keys a configuration accepts for a token. *)
Inductive configured_key `{KeyLoader} (conf : AuthConfig) (tok : jwt_token) : key → Prop :=
  | configured_hmac :
      Alg tok ∈ ["HS256"; "HS384"; "HS512"] → HMACSecretKey conf ≠ "" →
      configured_key conf tok (KeySecret (HMACSecretKey conf))
  | configured_rsa k :
      Alg tok ∈ ["RS256"; "RS384"; "RS512"] → RSAPublicKey conf ≠ "" →
      ParseRSAPublicKeyFromPEM (RSAPublicKey conf) = Some k →
      configured_key conf tok (KeyRSA (Some k))
  | configured_ecdsa k :
      Alg tok ∈ ["ES256"; "ES384"; "ES512"] → ECDSAPublicKey conf ≠ "" →
      ParseECPublicKeyFromPEM (ECDSAPublicKey conf) = Some k →
      configured_key conf tok (KeyECDSA (Some k))
  | configured_jwks f k :
      jwks_Endpoint (JWKS conf) ≠ "" → jwks_Load (JWKS conf) = inr f → f tok = Some k →
      configured_key conf tok k.

(** A claim path as a list of keys. *)
Fixpoint walk_keys (cur : claim) (keys : list string) : option claim :=
  match keys with
  | [] => Some cur
  | k :: keys' =>
      match cur with
      | CObject obj => next ← claim_get obj k; walk_keys next keys'
      | _ => None
      end
  end.

(** The authorization header the middleware reads. *)
Definition authorization (h : header) : string :=
  if decide (header_Get h "x-piko-authorization" = "")
  then header_Get h "Authorization" else header_Get h "x-piko-authorization".

(** ** Lemmas *)

Lemma Split_Cut_None s sep : Cut s sep = None → Split s sep = [s].
Proof.
  induction s as [|c s IH]; simpl; [done|]. case_decide; [done|].
  destruct (Cut s sep) as [[]|]; [done|]. intros _. by rewrite IH.
Qed.

Lemma Split_Cut_Some s sep a b : Cut s sep = Some (a, b) → Split s sep = a :: Split b sep.
Proof.
  revert a. induction s as [|c s IH]; intros a; simpl; [done|]. case_decide; [by intros [= <- <-]|].
  destruct (Cut s sep) as [[a' b']|]; [|done]. intros [= <- <-]. by rewrite (IH a' eq_refl).
Qed.

Lemma Cut_shorter s sep a b : Cut s sep = Some (a, b) → String.length b < String.length s.
Proof.
  intros ->%Cut_Some. induction a as [|c a IH]; simpl in *; [lia|].
  change (String.length b < S (String.length (a +:+ String sep b))). lia.
Qed.

Lemma walk_enough fuel cur path :
  String.length path < fuel → walk fuel cur path = walk_keys cur (Split path ".").
Proof.
  revert cur path. induction fuel as [|fuel IH]; intros cur path Hf; [lia|]. simpl.
  destruct (Cut path ".") as [[k rest]|] eqn:Hc.
  - rewrite (Split_Cut_Some _ _ _ _ Hc). pose proof (Cut_shorter _ _ _ _ Hc). simpl.
    destruct cur; try done. destruct (claim_get o k); [|done]. simpl. apply IH. lia.
  - rewrite (Split_Cut_None _ _ Hc). simpl. destruct cur; try done. by destruct (claim_get o path).
Qed.

Lemma elem_of_add_endpoint l x e : e ∈ add_endpoint l x ↔ e ∈ l ∨ e = x.
Proof. unfold add_endpoint. case_decide; set_solver. Qed.

Lemma elem_of_add_endpoints xs l e : e ∈ foldl add_endpoint l xs ↔ e ∈ l ∨ e ∈ xs.
Proof.
  revert l. induction xs as [|x xs IH]; intros l; simpl; [set_solver|].
  rewrite IH, elem_of_add_endpoint. set_solver.
Qed.

Lemma NoDup_add_endpoints xs l : NoDup l → NoDup (foldl add_endpoint l xs).
Proof.
  intros Hl. apply foldl_ind; [done|]. intros k x _ Hk. unfold add_endpoint. case_decide; [done|].
  apply NoDup_app. split_and!; [done|set_solver|apply NoDup_singleton].
Qed.

Lemma elem_of_combine c paths e :
  e ∈ combine_endpoints c paths ↔ ∃ path, path ∈ paths ∧ e ∈ extractEndpoints c path.
Proof.
  unfold combine_endpoints.
  assert (∀ l, e ∈ foldl (λ acc path, foldl add_endpoint acc (extractEndpoints c path)) l paths ↔
    e ∈ l ∨ ∃ path, path ∈ paths ∧ e ∈ extractEndpoints c path) as Hgen.
  { induction paths as [|p paths IH]; intros l; simpl; [set_solver|].
    rewrite IH, elem_of_add_endpoints. set_solver. }
  rewrite Hgen. set_solver.
Qed.

Lemma NoDup_combine c paths : NoDup (combine_endpoints c paths).
Proof. unfold combine_endpoints. apply (foldl_ind NoDup); [constructor|]. intros l p _. apply NoDup_add_endpoints. Qed.

Lemma EndpointPermitted_spec t e :
  EndpointPermitted t e = true ↔ tok_Endpoints t = [] ∨ e ∈ tok_Endpoints t.
Proof.
  unfold EndpointPermitted. destruct (tok_Endpoints t) as [|x l]; [by split; [left|]|].
  rewrite bool_decide_eq_true. split; [by right|]. by intros [|].
Qed.

Lemma parseToken_bearer h ts :
  parseToken h = inr ts ↔ authorization h = "Bearer " +:+ ts.
Proof.
  unfold parseToken. fold (authorization h).
  destruct (decide (authorization h = "")) as [->|Hne]; [by split|].
  destruct (Cut (authorization h) " ") as [[ty t]|] eqn:Hc.
  - pose proof (Cut_Some _ _ _ _ Hc) as Heq. destruct (decide (ty ≠ "Bearer")) as [Hty|Hty].
    + split; [done|]. intros Hb. rewrite Hb in Hc. by injection Hc as <- _.
    + apply dec_stable in Hty as ->. rewrite Heq. split; [by intros [= ->]|].
      intros Hb. by injection Hb as ->.
  - split; [done|]. intros Hb. by rewrite Hb in Hc.
Qed.

Lemma load_pem_Some parse err pem k :
  load_pem parse err pem = inr (Some k) → pem ≠ "" ∧ parse pem = Some k.
Proof. unfold load_pem. case_decide; [done|]. destruct (parse pem); [|done]. by intros [= ->]. Qed.

Lemma load_pem_given parse err pem r : load_pem parse err pem = inr r → pem ≠ "" → is_Some r.
Proof. unfold load_pem. case_decide; [done|]. destruct (parse pem); [|done]. intros [= <-] _. by eexists. Qed.

(** What loading keeps of the configuration. *)
Lemma auth_Load_spec `{KeyLoader} conf loaded :
  auth_Load conf = inr loaded →
  lc_HMACSecretKey loaded = HMACSecretKey conf ∧ lc_Audience loaded = Audience conf ∧
  lc_Issuer loaded = Issuer conf ∧
  lc_DisableDisconnectOnExpiry loaded = DisableDisconnectOnExpiry conf ∧
  load_pem ParseRSAPublicKeyFromPEM ParseRSAError (RSAPublicKey conf) = inr (lc_RSAPublicKey loaded) ∧
  load_pem ParseECPublicKeyFromPEM ParseECDSAError (ECDSAPublicKey conf) = inr (lc_ECDSAPublicKey loaded) ∧
  match lc_JWKS loaded with
  | None => jwks_Endpoint (JWKS conf) = ""
  | Some f => jwks_Endpoint (JWKS conf) ≠ "" ∧ jwks_Load (JWKS conf) = inr f
  end.
Proof.
  unfold auth_Load.
  destruct (load_pem ParseRSAPublicKeyFromPEM _ _) as [|rsa] eqn:Hrsa; [done|].
  destruct (load_pem ParseECPublicKeyFromPEM _ _) as [|ecdsa] eqn:Hec; [done|].
  destruct (decide (jwks_Endpoint (JWKS conf) = "")) as [|He]; [by intros [= <-]|].
  destruct (jwks_Load (JWKS conf)) as [|f]; [done|].
  case_decide; [done|]. by intros [= <-].
Qed.

(** A loaded configuration that is enabled checks the method or has a key set. *)
Lemma methods_nonempty `{KeyLoader} conf loaded :
  auth_Load conf = inr loaded → Enabled conf = true → lc_JWKS loaded = None →
  methods (NewJWTVerifier loaded) ≠ [].
Proof.
  intros Hload Hen Hj. destruct (auth_Load_spec _ _ Hload) as (Hh&_&_&_&Hrsa&Hec&Hjwks).
  rewrite Hj in Hjwks. unfold Enabled in Hen. rewrite !orb_true_iff, !bool_decide_eq_true in Hen. simpl.
  rewrite Hh. destruct Hen as [[[Hx|Hx]|Hx]|Hx]; [|..|done].
  - by rewrite decide_False.
  - destruct (load_pem_given _ _ _ _ Hrsa Hx) as [k ->]. by case_decide.
  - destruct (load_pem_given _ _ _ _ Hec Hx) as [k ->]. case_decide; by destruct (lc_RSAPublicKey loaded).
Qed.

Lemma alg_disjoint (l1 l2 : list string) (a : string) :
  bool_decide (Forall (λ x, x ∉ l2) l1) = true → a ∈ l1 → a ∈ l2 → False.
Proof. rewrite bool_decide_eq_true, Forall_forall. intros Hd H1 H2. by apply (Hd a). Qed.

(** An algorithm is not in two families, nor in none. *)
Ltac alg_clash :=
  match goal with
  | H1 : ?a ∈ ?l1, H2 : ?a ∈ ?l2 |- _ =>
      exfalso; refine (alg_disjoint l1 l2 a _ H1 H2); reflexivity
  | H : ?a ∈ [] |- _ => by apply not_elem_of_nil in H
  | _ => done
  end.

(** A family is among the methods only when its key is configured. *)
Lemma methods_families loaded tok :
  Alg tok ∈ methods (NewJWTVerifier loaded) →
  (Alg tok ∈ ["HS256"; "HS384"; "HS512"] ∧ lc_HMACSecretKey loaded ≠ "") ∨
  (Alg tok ∈ ["RS256"; "RS384"; "RS512"] ∧ is_Some (lc_RSAPublicKey loaded)) ∨
  (Alg tok ∈ ["ES256"; "ES384"; "ES512"] ∧ is_Some (lc_ECDSAPublicKey loaded)).
Proof.
  simpl. rewrite !elem_of_app. intros [H|[H|H]].
  - case_decide; [alg_clash|by left].
  - right; left. destruct (lc_RSAPublicKey loaded); [by eauto|alg_clash].
  - right; right. destruct (lc_ECDSAPublicKey loaded); [by eauto|alg_clash].
Qed.

Lemma configured_keys `{KeyLoader} conf loaded tok k :
  auth_Load conf = inr loaded → Enabled conf = true →
  verifier_key (NewJWTVerifier loaded) tok = Some k →
  (methods (NewJWTVerifier loaded) ≠ [] → Alg tok ∈ methods (NewJWTVerifier loaded)) →
  configured_key conf tok k.
Proof.
  intros Hload Hen Hk Hm. pose proof (methods_nonempty _ _ Hload Hen) as Hne.
  destruct (auth_Load_spec _ _ Hload) as (Hh&_&_&_&Hrsa&Hec&Hjwks).
  unfold verifier_key in Hk. cbn [keyFunc NewJWTVerifier] in Hk.
  destruct (lc_JWKS loaded) as [f|].
  { destruct Hjwks. by eapply configured_jwks. }
  apply methods_families in Hm; [|by apply Hne]. simpl in Hk. rewrite Hh in Hk, Hm.
  destruct Hm as [[Hin Hkey]|[[Hin [r Hkey]]|[Hin [r Hkey]]]].
  - rewrite decide_True in Hk by done. injection Hk as <-. by constructor.
  - rewrite Hkey in Hrsa. apply load_pem_Some in Hrsa as [??].
    rewrite decide_False, decide_True, Hkey in Hk by (done || intros ?; alg_clash).
    injection Hk as <-. by constructor.
  - rewrite Hkey in Hec. apply load_pem_Some in Hec as [??].
    rewrite !decide_False, decide_True, Hkey in Hk by (done || intros ?; alg_clash).
    injection Hk as <-. by constructor.
Qed.

(** The statuses the middleware answers with, and the token it leaves. *)
Lemma middleware_status v h resp :
  middleware_Verify v h = inl resp →
  resp_status resp = StatusUnauthorized ∨ resp_status resp = StatusInternalServerError.
Proof.
  unfold middleware_Verify, parseToken.
  repeat case_decide; try (intros [= <-]; by left).
  all: destruct (Cut _ " ") as [[ty ts]|]; [|intros [= <-]; by left].
  all: case_decide; [intros [= <-]; by left|].
  all: destruct (multi_Verify v ts (parseTenant h)) as [[]|]; intros [= <-]; simpl; auto.
Qed.

Lemma authenticate_status v h resp :
  authenticate v h = inl resp →
  resp_status resp = StatusUnauthorized ∨ resp_status resp = StatusInternalServerError.
Proof.
  unfold authenticate. destruct v as [v|]; [|done].
  destruct (middleware_Verify v h) eqn:Hm; [|done]. intros [= <-]. by eapply middleware_status.
Qed.

Lemma authenticate_token v h : authenticate (Some v) h ≠ inr None.
Proof. unfold authenticate. by destruct (middleware_Verify v h). Qed.

(** The expiry a verified token carries, at which its connections are closed:
    the claim's, unless the configuration does not disconnect on expiry. *)
Definition token_expiry `{JWT} (conf : AuthConfig) (c : claims) : time :=
  if DisableDisconnectOnExpiry conf then zero_time
  else match GetExpirationTime c with Some (Some exp) => exp | _ => zero_time end.

(** What is true of a token that a configuration's verifier accepts. *)
Definition authentic `{JWTLaws, KeyLoader} (now : time) (conf : AuthConfig) (ts : string) (t : Token) : Prop :=
  (∃ tok k, token_header ts = Some tok ∧ signed_by k ts ∧ configured_key conf tok k) ∧
  (Audience conf ≠ "" → Audience conf ∈ audiences (token_claims ts)) ∧
  (Issuer conf ≠ "" → issued_by (token_claims ts) = Issuer conf) ∧
  (∀ exp, GetExpirationTime (token_claims ts) = Some (Some exp) → (now < exp)%Z) ∧
  Expiry t = token_expiry conf (token_claims ts).

Lemma verify_authentic `{JWTLaws, KeyLoader} now conf loaded ts t :
  Enabled conf = true → auth_Load conf = inr loaded →
  jwt_Verify now (NewJWTVerifier loaded) ts = inr t → authentic now conf ts t.
Proof.
  intros Hen Hload Hv. unfold jwt_Verify in Hv.
  destruct (ParseWithClaims _ _ _ _) as [c valid|] eqn:Hp; [|done]. destruct valid; [|done]. simpl in Hv.
  destruct (accepted_signed _ _ _ _ _ Hp) as (tok&k&Hhd&Hk&Hsig&->&Hmeth).
  destruct (accepted_claims _ _ _ _ _ Hp) as (Haud&Hiss&Hexp).
  destruct (auth_Load_spec _ _ Hload) as (_&Ha&Hi&Hd&_). simpl in Haud, Hiss. rewrite Ha in Haud. rewrite Hi in Hiss.
  split_and!.
  - exists tok, k. split_and!; [done|done|]. by eapply configured_keys.
  - intros Hne. apply Haud. by rewrite decide_False.
  - intros Hne. apply Hiss. by rewrite decide_False.
  - exact Hexp.
  - destruct (_ && _); [done|]. injection Hv as <-. unfold token_expiry. by rewrite <-Hd.
Qed.

(** ** Properties *)

(** C15. A verified token is authentic: when authentication is enabled and the
    configuration loads, the verifier accepts only a token signed with a
    configured key of the token's own algorithm (never an HMAC token against a
    public key, nor an empty secret), for the configured audience and issuer,
    and whose expiration claim, when it has one, is later than now, whether or
    not expiry disconnects; the token's expiry is that claim, or zero when it
    has none or the configuration does not disconnect on expiry. *)
Theorem verified_token_authentic `{JWTLaws, KeyLoader} now conf loaded ts t :
  Enabled conf = true → auth_Load conf = inr loaded →
  jwt_Verify now (NewJWTVerifier loaded) ts = inr t →
  (∃ tok k, token_header ts = Some tok ∧ signed_by k ts ∧ configured_key conf tok k) ∧
  (Audience conf ≠ "" → Audience conf ∈ audiences (token_claims ts)) ∧
  (Issuer conf ≠ "" → issued_by (token_claims ts) = Issuer conf) ∧
  (∀ exp, GetExpirationTime (token_claims ts) = Some (Some exp) → (now < exp)%Z) ∧
  Expiry t = token_expiry conf (token_claims ts).
Proof. exact (verify_authentic now conf loaded ts t). Qed.

(** C36. A verified token permits exactly the endpoints its claims name: those
    at any of the configured claim paths, reduced to endpoint IDs and listed
    once each; every endpoint when it names none, which is refused when
    endpoints are required. *)
Theorem verified_token_scope `{JWT} now v ts t :
  jwt_Verify now v ts = inr t →
  ∃ c, ParseWithClaims now ts (verifier_key v) (verifier_options v) = Parsed c true ∧
    NoDup (tok_Endpoints t) ∧
    (∀ e, EndpointPermitted t e = true ↔
      (∃ path, path ∈ endpointsClaim v ∧ e ∈ extractEndpoints c path) ∨
      (requireEndpoints v = false ∧ ∀ path, path ∈ endpointsClaim v → extractEndpoints c path = [])).
Proof.
  intros Hv. unfold jwt_Verify in Hv.
  destruct (ParseWithClaims _ _ _ _) as [c valid|] eqn:Hp; [|done]. destruct valid; [|done]. simpl in Hv.
  exists c. split; [done|]. destruct (requireEndpoints v && _) eqn:Hreq; [done|]. injection Hv as <-.
  split; [apply NoDup_combine|]. intros e. rewrite EndpointPermitted_spec. simpl.
  rewrite elem_of_combine. split; [intros [Hnil|]; [right|by left]|intros [|[_ Hall]]; [by right|left]].
  - split.
    + rewrite andb_false_iff, bool_decide_eq_false in Hreq. by destruct Hreq as [|[]].
    + intros path Hpath. apply elem_of_nil_inv. intros x Hx.
      assert (x ∈ combine_endpoints c (endpointsClaim v)) as Hin by (apply elem_of_combine; eauto).
      rewrite Hnil in Hin. by apply not_elem_of_nil in Hin.
  - apply elem_of_nil_inv. intros x (path&Hpath&Hx)%elem_of_combine.
    rewrite (Hall path Hpath) in Hx. by apply not_elem_of_nil in Hx.
Qed.

(** The claim path loop reads the claim at the keys between the dots: it
    ends, and finds what following the split path finds. *)
Theorem claim_path_reference c path :
  extractEndpoints c path =
    match walk_keys (CObject c) (Split path ".") with
    | Some (CString s) => endpointIDFromClaim <$> filter (λ v, v ≠ "") [s]
    | Some (CStrings l) => endpointIDFromClaim <$> filter (λ v, v ≠ "") l
    | Some (CArray l) => endpointIDFromClaim <$> filter (λ v, v ≠ "") (omap claim_string l)
    | _ => []
    end.
Proof.
  unfold extractEndpoints. rewrite walk_enough by lia.
  by destruct (walk_keys (CObject c) (Split path ".")) as [[]|].
Qed.

(** Nothing passes the middleware unauthenticated: a request goes on with a
    token exactly when its authorization header is a bearer token that the
    verifier of its tenant accepts (of no tenant when none is configured), the
    token then carries that tenant; any other request is answered with a 401,
    or a 500 for an error the verifiers do not document. *)
Theorem middleware_gate v h :
  (∀ t, authenticate (Some v) h = inr (Some t) ↔
    ∃ ts t0, authorization h = "Bearer " +:+ ts ∧
      ((parseTenant h = "" ∧ default ∅ (tenantVerifiers v) = ∅ ∧ defaultVerifier v ts = inr t0 ∧ t = t0) ∨
       (parseTenant h ≠ "" ∧ ∃ verifier, default ∅ (tenantVerifiers v) !! parseTenant h = Some verifier ∧
          verifier ts = inr t0 ∧ t = mkToken (Expiry t0) (tok_Endpoints t0) (parseTenant h)))) ∧
  authenticate (Some v) h ≠ inr None ∧
  (∀ resp, authenticate (Some v) h = inl resp →
    resp_status resp = StatusUnauthorized ∨ resp_status resp = StatusInternalServerError).
Proof.
  split_and!.
  - intros t. unfold authenticate, middleware_Verify.
    transitivity (∃ ts, parseToken h = inr ts ∧ multi_Verify v ts (parseTenant h) = inr t).
    { destruct (parseToken h) as [|ts]; [by split; [|intros (?&?&?)]|].
      destruct (multi_Verify v ts (parseTenant h)) eqn:Hm; split;
        [done|intros (ts'&[= <-]&?); congruence|intros [= <-]; by exists ts|].
      intros (ts'&[= <-]&Ht). congruence. }
    setoid_rewrite parseToken_bearer. unfold multi_Verify.
    destruct (decide (parseTenant h = "")) as [Hn|Hn].
    + destruct (decide (size (default ∅ (tenantVerifiers v)) ≠ 0)) as [Hs|Hs].
      * rewrite map_size_ne_0_lookup in Hs. destruct Hs as [x [y Hxy]]. split; [naive_solver|].
        intros (ts&t0&_&[(_&He&_)|[? _]]); [|done]. by rewrite He in Hxy.
      * apply dec_stable, map_size_empty_inv in Hs. naive_solver.
    + destruct (tenantVerifiers v) as [m|]; simpl; [|naive_solver].
      destruct (m !! parseTenant h) as [ver|]; [|naive_solver].
      split; [intros (ts&Hb&Hv)|intros (ts&t0&Hb&[[? _]|(_&?&[= <-]&Hv&->)])].
      * destruct (ver ts) as [|t0] eqn:Ht; [done|]. injection Hv as <-. eauto 10.
      * done.
      * exists ts. by rewrite Hv.
  - apply authenticate_token.
  - apply authenticate_status.
Qed.

(** ** Witnesses *)

(** An example of a parser: a token [alg.secret.endpoint] is signed with the
    secret and names the endpoint. *)
Definition ex_header (ts : string) : option jwt_token := '(a, _) ← Cut ts "."; Some (mkJwtToken a "").

Definition ex_secret (ts : string) : option (string * string) := '(_, r) ← Cut ts "."; Cut r ".".

Definition ex_claims (ts : string) : claims :=
  match ex_secret ts with
  | Some (_, e) => [("piko", CObject [("endpoints", CArray [CString e])])]
  | None => []
  end.

Definition ex_signed (k : key) (ts : string) : bool :=
  match k, ex_secret ts with
  | KeySecret s, Some (s', _) => bool_decide (s = s')
  | _, _ => false
  end.

Definition ex_parse (now : time) (ts : string) (kf : jwt_token → option key) (opts : parser_options) :
    parse_result :=
  match ex_header ts with
  | None => ParseFailed false
  | Some tok =>
      match kf tok with
      | None => ParseFailed false
      | Some k =>
          if ex_signed k ts && (bool_decide (WithValidMethods opts = []) || bool_decide (Alg tok ∈ WithValidMethods opts))
             && bool_decide (WithAudience opts = None) && bool_decide (WithIssuer opts = None)
          then Parsed (ex_claims ts) true else ParseFailed false
      end
  end.

#[local] Instance ex_jwt : JWT := {| ParseWithClaims := ex_parse; GetExpirationTime _ := Some None |}.

#[local, refine] Instance ex_jwt_laws : JWTLaws := {|
  token_header := ex_header; token_claims := ex_claims; signed_by k ts := ex_signed k ts = true;
  audiences _ := []; issued_by _ := ""
|}.
Proof.
  all: intros now ts kf opts c; simpl; unfold ex_parse.
  all: destruct (ex_header ts) as [tok|]; [|done]; destruct (kf tok) as [k|] eqn:Hk; [|done].
  all: destruct (_ && _) eqn:Hb; [|done]; intros [= <-].
  all: rewrite !andb_true_iff, orb_true_iff, !bool_decide_eq_true in Hb; destruct Hb as [[[? Hm] Ha] Hi].
  - exists tok, k. split_and!; [done..|]. by destruct Hm.
  - by rewrite Ha, Hi.
Defined.

#[local] Instance ex_loader : KeyLoader := {|
  ParseRSAPublicKeyFromPEM _ := None; ParseECPublicKeyFromPEM _ := None; ParseURL _ := None;
  ReadFile _ := None; NewJWKSetJSON _ := None; LoadRemote _ _ _ := None
|}.

Definition ex_auth : AuthConfig := mkAuthConfig "s3cret" "" "" "" "" false [] true (mkJWKS "" 0 0).

Definition ex_loaded : LoadedConfig := mkLoadedConfig "s3cret" None None "" "" false [] true None.

Definition ex_token : string := "HS256.s3cret.my-endpoint.example.com".

Lemma verified_token_authentic_witness :
  ∃ tok k, token_header ex_token = Some tok ∧ signed_by k ex_token ∧ configured_key ex_auth tok k.
Proof.
  destruct (verified_token_authentic 0 ex_auth ex_loaded ex_token (mkToken 0 ["my-endpoint"] "")) as [H _].
  - reflexivity.
  - vm_compute. reflexivity.
  - vm_compute. reflexivity.
  - exact H.
Defined.

Lemma verified_token_scope_witness :
  EndpointPermitted (mkToken 0 ["my-endpoint"] "") "my-endpoint" = true.
Proof.
  destruct (verified_token_scope 0 (NewJWTVerifier ex_loaded) ex_token (mkToken 0 ["my-endpoint"] ""))
    as (c&Hc&_&H).
  - vm_compute. reflexivity.
  - apply (H "my-endpoint"). left. exists "piko.endpoints".
    vm_compute in Hc. injection Hc as <-.
    split; apply (bool_decide_unpack _); vm_compute; exact I.
Defined.
