(* ===== verification/Utf8.v ===== *)
(** * Runes and UTF-8: the part of Go's strings the program relies on

    Converting a string to runes replaces every invalid byte by
    [RuneError]; converting runes to a string encodes them. *)

From S2P Require Import Prelude GoLib.

Local Open Scope N_scope.

Abbreviation rune := N.
Definition RuneError : rune := 0xFFFD.

Definition byte_in (lo hi : N) (c : Ascii.ascii) : bool :=
  let n := Ascii.N_of_ascii c in bool_decide (lo ≤ n) && bool_decide (n ≤ hi).

Definition is_cont : Ascii.ascii → bool := byte_in 0x80 0xBF.

(** The low six bits of a continuation byte. *)
Definition cont (c : Ascii.ascii) : N := Ascii.N_of_ascii c - 0x80.

(** The second byte a first byte allows, for sequences of three and four. *)
Definition second3 (c0 c1 : Ascii.ascii) : bool :=
  let n := Ascii.N_of_ascii c0 in
  if decide (n = 0xE0) then byte_in 0xA0 0xBF c1
  else if decide (n = 0xED) then byte_in 0x80 0x9F c1
  else is_cont c1.

Definition second4 (c0 c1 : Ascii.ascii) : bool :=
  let n := Ascii.N_of_ascii c0 in
  if decide (n = 0xF0) then byte_in 0x90 0xBF c1
  else if decide (n = 0xF4) then byte_in 0x80 0x8F c1
  else is_cont c1.

(** [[]rune(s)]. *)
Fixpoint runes (s : string) : list rune :=
  match s with
  | EmptyString => []
  | String c0 s0 =>
      let n := Ascii.N_of_ascii c0 in
      if decide (n < 0x80) then n :: runes s0
      else if byte_in 0xC2 0xDF c0 then
        match s0 with
        | String c1 s1 =>
            if is_cont c1 then ((n - 0xC0) * 64 + cont c1) :: runes s1 else RuneError :: runes s0
        | EmptyString => [RuneError]
        end
      else if byte_in 0xE0 0xEF c0 then
        match s0 with
        | String c1 (String c2 s2) =>
            if second3 c0 c1 && is_cont c2
            then ((n - 0xE0) * 4096 + cont c1 * 64 + cont c2) :: runes s2 else RuneError :: runes s0
        | _ => RuneError :: runes s0
        end
      else if byte_in 0xF0 0xF4 c0 then
        match s0 with
        | String c1 (String c2 (String c3 s3)) =>
            if second4 c0 c1 && is_cont c2 && is_cont c3
            then ((n - 0xF0) * 262144 + cont c1 * 4096 + cont c2 * 64 + cont c3) :: runes s3
            else RuneError :: runes s0
        | _ => RuneError :: runes s0
        end
      else RuneError :: runes s0
  end.

Definition chr (n : N) : Ascii.ascii := Ascii.ascii_of_N n.

(** A Unicode scalar value. *)
Definition valid_rune (r : rune) : Prop := r < 0xD800 ∨ 0xE000 ≤ r ≤ 0x10FFFF.

(** [utf8.AppendRune], before the string [s]. *)
Definition put_rune (r : rune) (s : string) : string :=
  let enc (r : rune) :=
    if decide (r < 0x80) then String (chr r) s
    else if decide (r < 0x800) then String (chr (0xC0 + r / 64)) (String (chr (0x80 + r mod 64)) s)
    else if decide (r < 0x10000) then
      String (chr (0xE0 + r / 4096)) (String (chr (0x80 + (r / 64) mod 64)) (String (chr (0x80 + r mod 64)) s))
    else
      String (chr (0xF0 + r / 262144)) (String (chr (0x80 + (r / 4096) mod 64))
        (String (chr (0x80 + (r / 64) mod 64)) (String (chr (0x80 + r mod 64)) s))) in
  if decide (r < 0xD800 ∨ (0xE000 ≤ r ∧ r ≤ 0x10FFFF)) then enc r else enc RuneError.

(** [string(rs)]. *)
Definition of_runes (rs : list rune) : string := foldr put_rune EmptyString rs.

(** ** Lemmas *)

Lemma N_of_chr n : n < 256 → Ascii.N_of_ascii (chr n) = n.
Proof. apply Ascii.N_ascii_embedding. Qed.

Lemma byte_in_chr lo hi n : n < 256 → byte_in lo hi (chr n) = bool_decide (lo ≤ n ∧ n ≤ hi).
Proof. intros Hn. unfold byte_in. rewrite N_of_chr by done. by rewrite bool_decide_and. Qed.

Lemma cont_chr n : n < 64 → is_cont (chr (0x80 + n)) = true ∧ cont (chr (0x80 + n)) = n.
Proof.
  intros Hn. unfold is_cont, cont. rewrite byte_in_chr, bool_decide_eq_true, N_of_chr by lia. lia.
Qed.

Lemma runes2 a b s :
  2 ≤ a < 32 → b < 64 →
  runes (String (chr (0xC0 + a)) (String (chr (0x80 + b)) s)) = (a * 64 + b) :: runes s.
Proof.
  intros Ha Hb. cbn [runes]. rewrite N_of_chr by lia. rewrite decide_False by lia.
  rewrite byte_in_chr, bool_decide_true by lia. destruct (cont_chr b Hb) as [-> ->].
  f_equal. lia.
Qed.

Lemma runes3 a b c s :
  a < 16 → b < 64 → c < 64 → (a = 0 → 32 ≤ b) → (a = 13 → b < 32) →
  runes (String (chr (0xE0 + a)) (String (chr (0x80 + b)) (String (chr (0x80 + c)) s))) =
    (a * 4096 + b * 64 + c) :: runes s.
Proof.
  intros Ha Hb Hc H0 H13. cbn [runes]. rewrite N_of_chr by lia. rewrite decide_False by lia.
  rewrite byte_in_chr, bool_decide_false by lia. rewrite byte_in_chr, bool_decide_true by lia.
  destruct (cont_chr b Hb) as [Hcb ->], (cont_chr c Hc) as [-> ->].
  assert (second3 (chr (0xE0 + a)) (chr (0x80 + b)) = true) as ->.
  { unfold second3. rewrite N_of_chr by lia. case_decide; [|case_decide; [|done]];
      rewrite byte_in_chr, bool_decide_eq_true by lia; lia. }
  simpl. f_equal. lia.
Qed.

Lemma runes4 a b c d s :
  a ≤ 4 → b < 64 → c < 64 → d < 64 → (a = 0 → 16 ≤ b) → (a = 4 → b < 16) →
  runes (String (chr (0xF0 + a)) (String (chr (0x80 + b)) (String (chr (0x80 + c)) (String (chr (0x80 + d)) s)))) =
    (a * 262144 + b * 4096 + c * 64 + d) :: runes s.
Proof.
  intros Ha Hb Hc Hd H0 H4. cbn [runes]. rewrite N_of_chr by lia. rewrite decide_False by lia.
  rewrite byte_in_chr, bool_decide_false by lia. rewrite byte_in_chr, bool_decide_false by lia.
  rewrite byte_in_chr, bool_decide_true by lia.
  destruct (cont_chr b Hb) as [Hcb ->], (cont_chr c Hc) as [-> ->], (cont_chr d Hd) as [-> ->].
  assert (second4 (chr (0xF0 + a)) (chr (0x80 + b)) = true) as ->.
  { unfold second4. rewrite N_of_chr by lia. case_decide; [|case_decide; [|done]];
      rewrite byte_in_chr, bool_decide_eq_true by lia; lia. }
  simpl. f_equal. lia.
Qed.

Ltac nlia := zify; Z.to_euclidean_division_equations; lia.

(** Decoding an encoded scalar value gives it back. *)
Lemma runes_put r s : valid_rune r → runes (put_rune r s) = r :: runes s.
Proof.
  intros Hr. unfold put_rune, valid_rune in *. rewrite decide_True by lia. cbv zeta.
  destruct (decide (r < 0x80)); [|destruct (decide (r < 0x800)); [|destruct (decide (r < 0x10000))]].
  - cbn [runes]. rewrite N_of_chr by lia. by rewrite decide_True.
  - rewrite runes2; [f_equal; nlia|nlia|nlia].
  - rewrite runes3; [f_equal; nlia|nlia..].
  - rewrite runes4; [f_equal; nlia|nlia..].
Qed.

Lemma runes_of_runes rs : Forall valid_rune rs → runes (of_runes rs) = rs.
Proof. induction 1 as [|r rs Hr _ IH]; [done|]. simpl. by rewrite runes_put, IH. Qed.

Lemma byte_in_spec lo hi c : byte_in lo hi c = true → lo ≤ Ascii.N_of_ascii c ≤ hi.
Proof. unfold byte_in. rewrite andb_true_iff, !bool_decide_eq_true. done. Qed.

Lemma cont_bound c : is_cont c = true → cont c < 64.
Proof. intros H%byte_in_spec. unfold cont. lia. Qed.

Lemma valid_RuneError : valid_rune RuneError.
Proof. unfold valid_rune, RuneError. lia. Qed.

Lemma second3_value c0 c1 c2 :
  byte_in 0xE0 0xEF c0 = true → second3 c0 c1 = true → is_cont c2 = true →
  valid_rune ((Ascii.N_of_ascii c0 - 0xE0) * 4096 + cont c1 * 64 + cont c2).
Proof.
  intros H0%byte_in_spec H1 H2%cont_bound. unfold second3 in H1. unfold valid_rune.
  repeat case_decide; apply byte_in_spec in H1; unfold cont in *; lia.
Qed.

Lemma second4_value c0 c1 c2 c3 :
  byte_in 0xF0 0xF4 c0 = true → second4 c0 c1 = true → is_cont c2 = true → is_cont c3 = true →
  valid_rune ((Ascii.N_of_ascii c0 - 0xF0) * 262144 + cont c1 * 4096 + cont c2 * 64 + cont c3).
Proof.
  intros H0%byte_in_spec H1 H2%cont_bound H3%cont_bound. unfold second4 in H1. unfold valid_rune.
  repeat case_decide; apply byte_in_spec in H1; unfold cont in *; lia.
Qed.

(** Decoding gives scalar values only. *)
Lemma runes_valid s : Forall valid_rune (runes s).
Proof.
  remember (String.length s) as n eqn:Hn. assert (String.length s ≤ n)%nat as Hle by lia. clear Hn.
  revert s Hle. induction n as [|n IH]; intros s Hle.
  { destruct s; simpl in Hle; [constructor|lia]. }
  destruct s as [|c0 s0]; [constructor|]. simpl in Hle. cbn [runes].
  assert (Forall valid_rune (runes s0)) as H0 by (apply IH; lia).
  pose proof valid_RuneError as Herr.
  case_decide; [constructor; [unfold valid_rune; lia|done]|].
  destruct (byte_in 0xC2 0xDF c0) eqn:E2.
  { destruct s0 as [|c1 s1]; [by constructor|]. simpl in Hle.
    destruct (is_cont c1) eqn:Hc1; constructor; [|apply IH; lia|done..].
    apply byte_in_spec in E2. apply cont_bound in Hc1. unfold valid_rune. lia. }
  destruct (byte_in 0xE0 0xEF c0) eqn:E3.
  { destruct s0 as [|c1 [|c2 s2]]; [by constructor..|]. simpl in Hle.
    destruct (second3 c0 c1 && is_cont c2) eqn:Hc; constructor; [|apply IH; lia|done..].
    apply andb_true_iff in Hc as [??]. by apply second3_value. }
  destruct (byte_in 0xF0 0xF4 c0) eqn:E4; [|by constructor].
  destruct s0 as [|c1 [|c2 [|c3 s3]]]; [by constructor..|]. simpl in Hle.
  destruct (second4 c0 c1 && is_cont c2 && is_cont c3) eqn:Hc; constructor; [|apply IH; lia|done..].
  rewrite !andb_true_iff in Hc. destruct Hc as [[??]?]. by apply second4_value.
Qed.
