(* ===== verification/UpstreamServer.v ===== *)
(** * server/upstream/server.go: connections from upstream services

    An upstream service holds a WebSocket to the server; the handler of the
    connection registers it, waits until it ends, and cleans up.  [running] are
    the upstreams of the handlers that have registered and not yet cleaned up:
    the goroutines, which the code does not list.  A session is the identity of
    its upstream. *)

From S2P Require Import Prelude GoLib FloatLib Utf8 Cluster Upstream HttpLib Auth.

(** ** Names *)

Definition maxNameLen : nat := 64.

(** [unicode.IsControl] *)
Definition IsControl (r : rune) : bool :=
  bool_decide (r < 0x20)%N || (bool_decide (0x7F ≤ r)%N && bool_decide (r < 0xA0)%N).

(** [unicode.IsSpace] *)
Definition IsSpace (r : rune) : bool :=
  bool_decide (r ∈ [0x09; 0x0A; 0x0B; 0x0C; 0x0D; 0x20; 0x85; 0xA0; 0x1680; 0x2028; 0x2029; 0x202F; 0x205F; 0x3000])%N
  || (bool_decide (0x2000 ≤ r)%N && bool_decide (r ≤ 0x200A)%N).

Fixpoint trim_left (rs : list rune) : list rune :=
  match rs with
  | [] => []
  | r :: rs' => if IsSpace r then trim_left rs' else rs
  end.

(** [strings.TrimSpace] of valid UTF-8. *)
Definition TrimSpace (s : string) : string := of_runes (reverse (trim_left (reverse (trim_left (runes s))))).

(** [strings.Map]: a negative result, here [None], drops the rune. *)
Definition strings_Map (mapping : rune → option rune) (s : string) : string := of_runes (omap mapping (runes s)).

Definition sanitizeName (name : string) : string :=
  let name := strings_Map (λ r, if decide (r = RuneError) then None
                                else if IsControl r then None else Some r) name in
  let name := TrimSpace name in
  let rs := runes name in
  if decide (maxNameLen < length rs) then of_runes (take maxNameLen rs) else name.

(** ** The server *)

Record RebalanceConfig := mkRebalance {
  Threshold : float64;
  ShedRate : float64;
  MinConns : Z;
}.

(** The server with its manager and its handlers: those that have added their
    session ([entering]), those that have added their upstream to the manager
    too ([running]), and those that have removed it again ([leaving]). *)
Record server := mkServer {
  sessions : gset nat;
  sv_manager : manager;
  entering : list upstream;
  running : list upstream;
  leaving : list upstream;
}.

Definition NewServer (m : manager) : server := mkServer ∅ m [] [] [].

Definition with_manager (m : manager) (s : server) : server :=
  mkServer (sessions s) m (entering s) (running s) (leaving s).

Definition addSession (sess : nat) (s : server) : server :=
  mkServer (sessions s ∪ {[sess]}) (sv_manager s) (entering s) (running s) (leaving s).

Definition removeSession (sess : nat) (s : server) : server :=
  mkServer (sessions s ∖ {[sess]}) (sv_manager s) (entering s) (running s) (leaving s).

Definition openSessions (s : server) : nat := size (sessions s).

(** [registerRoutes]: the endpoint of the upstream route, when a request takes
    it. *)
Definition upstreamPrefix : string := "/piko/v1/upstream/".

Definition upstream_registerRoutes (r : request) : option string :=
  let e := CutPrefix (r_Path r) upstreamPrefix in
  if decide (r_Method r = "GET" ∧ HasPrefix (r_Path r) upstreamPrefix = true ∧ e ≠ "" ∧ Contains e "/" = false)
  then Some e else None.

(** [upstreamRoute] up to the registration of the upstream, for the token the
    middleware left in the context: a response, a failed upgrade, or the
    upstream with the deadline of its connection.  [sess] is the new session. *)
Inductive route_result :=
  | RouteUnauthorized (resp : response)
  | RouteUpgradeFailed
  | RouteConnected (u : upstream) (deadline : option time).

Definition upstreamRoute (token : option Token) (upgraded : bool) (sess : nat)
    (endpointID nameQuery clientIP : string) (now : time) : route_result :=
  if negb (token_permits token endpointID)
  then RouteUnauthorized (unauthorized "endpoint not permitted")
  else
    let name := sanitizeName nameQuery in
    if negb upgraded then RouteUpgradeFailed
    else
      let deadline :=
        match token with
        | Some t => if time_IsZero (Expiry t) then None else Some (Expiry t)
        | None => None
        end in
      RouteConnected (ConnUpstream sess endpointID name clientIP now) deadline.

(** The handlers but [u]. *)
Definition others (u : upstream) (l : list upstream) : list upstream := filter (λ x, u_ptr x ≠ u_ptr u) l.

(** The handler adds its session, and then its upstream to the manager; other
    goroutines run in between. *)
Definition enter (u : upstream) (s : server) : server :=
  let s1 := addSession (u_ptr u) s in
  mkServer (sessions s1) (sv_manager s1) (u :: entering s1) (running s1) (leaving s1).

Definition register (u : upstream) (s : server) : option (server * list manager_effect) :=
  '(m, effs) ← AddConn (sv_manager s) u;
  Some (mkServer (sessions s) m (others u (entering s)) (u :: running s) (leaving s), effs).

(** The deferred calls, last first: the upstream is removed from the manager,
    and then the session. *)
Definition unregister (u : upstream) (s : server) : option (server * list manager_effect) :=
  '(m, effs) ← RemoveConn (sv_manager s) u;
  Some (mkServer (sessions s) m (entering s) (others u (running s)) (u :: leaving s), effs).

Definition cleanup (u : upstream) (s : server) : server :=
  let s1 := removeSession (u_ptr u) s in
  mkServer (sessions s1) (sv_manager s1) (entering s1) (running s1) (others u (leaving s1)).

(** The loop of the handler, over what accepting a stream returns: streams are
    ignored, any error ends it. *)
Inductive accept := AcceptStream | AcceptClosed | AcceptCanceled | AcceptDeadline | AcceptShutdown | AcceptError.

Inductive route_log := LogNothing | LogTokenExpired | LogClosedUnexpectedly.

Fixpoint accept_loop (l : list accept) : option route_log :=
  match l with
  | [] => None
  | AcceptStream :: l' => accept_loop l'
  | AcceptDeadline :: _ => Some LogTokenExpired
  | AcceptError :: _ => Some LogClosedUnexpectedly
  | _ :: _ => Some LogNothing
  end.

(** ** Rebalancing *)

Section rebalance.
Context `{MapIter}.
(** The order the sessions are visited in, and conversions out of range. *)
Context (range : gset nat → list nat) (oob : float64 → Z).

Fixpoint shed_loop (n : Z) (shedding l : list nat) : list nat :=
  match l with
  | [] => shedding
  | sess :: l' =>
      let shedding' := shedding ++ [sess] in
      if decide (n ≤ Z.of_nat (length shedding'))%Z then shedding' else shed_loop n shedding' l'
  end.

(** The sessions [shedSessions] closes; the set changes as the handlers end. *)
Definition shedSessions (n : Z) (s : server) : list nat := shed_loop n [] (range (sessions s)).

(** The number of sessions [Rebalance] decides to shed, when it does. *)
Definition shedding (conf : RebalanceConfig) (localConns avgConns : Z) : option Z :=
  let balance := fdiv (float64_of_int (i64 (localConns - avgConns))) (float64_of_int avgConns) in
  if flt balance (Threshold conf) then None
  else
    let n := fmul (float64_of_int localConns) balance in
    let cap := fmul (float64_of_int avgConns) (ShedRate conf) in
    Some (int_of_float oob (if flt cap n then Ceil cap else n)).

(** The sessions [Rebalance] closes; [None] is a panic. *)
Definition Rebalance (conf : RebalanceConfig) (s : server) : option (list nat) :=
  let cluster := m_cluster (sv_manager s) in
  if decide (length (State_Nodes cluster) ≤ 1) then Some []
  else
    let localConns := Z.of_nat (openSessions s) in
    if decide (localConns = 0 ∨ localConns < i64 (MinConns conf))%Z then Some []
    else
      avgConns ← AvgConns cluster;
      match shedding conf localConns avgConns with
      | None => Some []
      | Some n => Some (shedSessions n s)
      end.
End rebalance.

(** ** The server as a transition system

    The steps of the goroutines of a node: handlers that add and remove their
    session and their upstream, requests that select an upstream, dials that
    find an upstream gone (only when [gone]), and gossip that changes the other
    nodes of the cluster. *)

(** The handlers of the server, from adding to removing their session. *)
Definition handlers (s : server) : list upstream := running s ++ entering s ++ leaving s.

Inductive server_step `{MapIter} (gone : bool) : server → server → Prop :=
  | step_enter token endpointID name clientIP now sess u deadline s :
      upstreamRoute token true sess endpointID name clientIP now = RouteConnected u deadline →
      sess ∉ u_ptr <$> handlers s → (Z.of_nat (length (handlers s)) < 2 ^ 62)%Z →
      server_step gone s (enter u s)
  | step_register u s s' effs :
      u ∈ entering s → register u s = Some (s', effs) → server_step gone s s'
  | step_unregister u s s' effs :
      u ∈ running s → unregister u s = Some (s', effs) → server_step gone s s'
  | step_cleanup u s :
      u ∈ leaving s → server_step gone s (cleanup u s)
  | step_select ptr e allow s m effs u ok :
      Select ptr (sv_manager s) e allow = Some (m, effs, u, ok) →
      server_step gone s (with_manager m s)
  | step_gone u s m effs :
      gone = true → u ∈ running s ∨ u_ptr u ∉ u_ptr <$> running s →
      RemoveConn (sv_manager s) u = Some (m, effs) →
      server_step gone s (with_manager m s)
  | step_gossip s c :
      cluster_wf c → cs_localID c = cs_localID (m_cluster (sv_manager s)) →
      cs_nodes c !! cs_localID c = cs_nodes (m_cluster (sv_manager s)) !! cs_localID c →
      server_step gone s (with_manager (mkManager (localUpstreams (sv_manager s)) c) s).

Inductive server_reachable `{MapIter} (gone : bool) (n : cnode) : server → Prop :=
  | reach_new : server_reachable gone n (NewServer (NewLoadBalancedManager (NewState n).1))
  | reach_step s s' : server_reachable gone n s → server_step gone s s' → server_reachable gone n s'.

(** The running upstreams of an endpoint. *)
Definition running_on (s : server) (e : string) : list upstream := filter (λ u, EndpointID u = e) (running s).

(** The invariant, for the listeners [c] the cluster counts: the sessions are
    those of the handlers, and only running upstreams are connected. *)
Record server_inv (c : string → nat) (s : server) : Prop := {
  inv_manager : manager_counts c (sv_manager s);
  inv_distinct : NoDup (u_ptr <$> handlers s);
  inv_sessions : sessions s = list_to_set (u_ptr <$> handlers s);
  inv_connected : ∀ e, connected (sv_manager s) e ⊆+ running_on s e;
  inv_counted : ∀ e, c e ≤ length (connected (sv_manager s) e);
  inv_bound : (Z.of_nat (length (handlers s)) ≤ 2 ^ 62)%Z;
}.

(** When no dial has found an upstream gone, nothing is missing. *)
Definition server_exact (c : string → nat) (s : server) : Prop :=
  server_inv c s ∧ (∀ e, connected (sv_manager s) e ≡ₚ running_on s e) ∧
  ∀ e, c e = length (connected (sv_manager s) e).

(** ** Lemmas *)

Lemma running_on_cons u s e m sess ent lv :
  running_on (mkServer sess m ent (u :: running s) lv) e =
    if decide (EndpointID u = e) then u :: running_on s e else running_on s e.
Proof. unfold running_on. simpl. rewrite filter_cons. by destruct (decide (EndpointID u = e)). Qed.

(** An upstream is determined by its identity. *)
Lemma running_ptr_inj (l : list upstream) u v :
  NoDup (u_ptr <$> l) → u ∈ l → v ∈ l → u_ptr u = u_ptr v → u = v.
Proof.
  induction l as [|x l IH]; intros Hnd Hu Hv Heq; [by apply not_elem_of_nil in Hu|].
  rewrite fmap_cons in Hnd. apply NoDup_cons in Hnd as [Hx Hnd].
  apply elem_of_cons in Hu as [->|Hu], Hv as [->|Hv]; try done.
  - exfalso. apply Hx. rewrite Heq. by apply list_elem_of_fmap_2.
  - exfalso. apply Hx. rewrite <-Heq. by apply list_elem_of_fmap_2.
  - by apply IH.
Qed.

Lemma remove_running (l : list upstream) u :
  NoDup (u_ptr <$> l) → u ∈ l → l ≡ₚ u :: others u l.
Proof.
  unfold others.
  induction l as [|x l IH]; intros Hnd Hu; [by apply not_elem_of_nil in Hu|].
  rewrite fmap_cons in Hnd. apply NoDup_cons in Hnd as [Hx Hnd]. rewrite filter_cons.
  apply elem_of_cons in Hu as [->|Hu].
  - rewrite decide_False by (intros []; done). f_equiv. clear IH Hnd. induction l as [|y l IH]; [done|].
    rewrite fmap_cons, not_elem_of_cons in Hx. destruct Hx as [Hy Hx]. rewrite filter_cons, decide_True by done.
    by rewrite <-IH.
  - rewrite decide_True; [etrans; [|apply Permutation_swap]; f_equiv; by apply IH|].
    intros Heq. apply Hx. rewrite Heq. by apply list_elem_of_fmap_2.
Qed.

Lemma running_on_elem s e u : u ∈ running_on s e ↔ EndpointID u = e ∧ u ∈ running s.
Proof. unfold running_on. by rewrite list_elem_of_filter. Qed.

Lemma running_distinct c s : server_inv c s → NoDup (u_ptr <$> running s).
Proof. intros Hs. pose proof (inv_distinct _ _ Hs) as Hnd. unfold handlers in Hnd. rewrite fmap_app, NoDup_app in Hnd. apply Hnd. Qed.

(** A handler that changes its phase stays one handler. *)
Lemma handlers_same c c' s s' :
  server_inv c s → handlers s' ≡ₚ handlers s → sessions s' = sessions s → manager_counts c' (sv_manager s') →
  (∀ e, connected (sv_manager s') e ⊆+ running_on s' e) → (∀ e, c' e ≤ length (connected (sv_manager s') e)) →
  server_inv c' s'.
Proof.
  intros Hs Hp He Hm Hc Hle. split; try done.
  - rewrite Hp. apply (inv_distinct _ _ Hs).
  - rewrite He, (inv_sessions _ _ Hs). by apply list_to_set_perm_L; rewrite Hp.
  - rewrite Hp. apply (inv_bound _ _ Hs).
Qed.

Lemma server_count_room c s : server_inv c s → count_room c.
Proof.
  intros Hs e. pose proof (inv_counted _ _ Hs e). pose proof (inv_bound _ _ Hs).
  pose proof (submseteq_length _ _ (inv_connected _ _ Hs e)) as Hle.
  pose proof (length_filter (λ u, EndpointID u = e) (running s)) as Hf. unfold running_on in Hle.
  unfold handlers in *. rewrite length_app in *. lia.
Qed.

Lemma connected_not_running c s e u :
  server_inv c s → u_ptr u ∉ u_ptr <$> running s → u_ptr u ∉ u_ptr <$> connected (sv_manager s) e.
Proof.
  intros Hs Hn Hin. apply Hn. apply list_elem_of_fmap in Hin as (v&->&Hv). apply list_elem_of_fmap_2.
  eapply elem_of_submseteq, running_on_elem in Hv as [_ Hv]; [done|apply (inv_connected _ _ Hs)].
Qed.

Lemma upstreamRoute_ptr token sess e name ip now u d :
  upstreamRoute token true sess e name ip now = RouteConnected u d → u_ptr u = sess ∧ EndpointID u = e.
Proof. unfold upstreamRoute. destruct (negb (token_permits token e)); [done|]. by intros [= <- _]. Qed.

Lemma entering_perm (l ent lv : list upstream) u :
  NoDup (u_ptr <$> l ++ ent ++ lv) → u ∈ ent →
  (u :: l) ++ others u ent ++ lv ≡ₚ l ++ ent ++ lv ∧ u_ptr u ∉ u_ptr <$> l.
Proof.
  rewrite !fmap_app. intros (Hl&Hd&(He&_)%NoDup_app)%NoDup_app Hu. split.
  - rewrite (remove_running ent u He Hu) at 2. simpl. by rewrite <-Permutation_middle.
  - intros Hin. apply (Hd _ Hin). apply elem_of_app. left. by apply list_elem_of_fmap_2.
Qed.

Lemma register_inv c s u :
  server_inv c s → u ∈ entering s →
  ∃ s' effs, register u s = Some (s', effs) ∧ server_inv (count_op c (EAdd (EndpointID u))) s' ∧
    running s' = u :: running s ∧
    connected (sv_manager s') (EndpointID u) = connected (sv_manager s) (EndpointID u) ++ [u] ∧
    ∀ e, e ≠ EndpointID u → connected (sv_manager s') e = connected (sv_manager s) e.
Proof.
  intros Hs Hu. destruct (entering_perm _ _ _ u (inv_distinct _ _ Hs) Hu) as [Hp Hn].
  pose proof (connected_not_running c s (EndpointID u) u Hs Hn) as Hnc.
  destruct (AddConn_gen c (sv_manager s) u (inv_manager _ _ Hs) (server_count_room _ _ Hs) Hnc)
    as (m&effs&Hrun&Hm&Hself&Hother).
  unfold register. rewrite Hrun. simpl. eexists _, _. split; [done|]. split_and!; [|done..].
  apply (handlers_same c _ s); simpl; try done.
  - intros e. rewrite running_on_cons. destruct (decide (EndpointID u = e)) as [<-|Hne].
    + rewrite Hself, Permutation_app_comm. simpl. apply submseteq_skip, (inv_connected _ _ Hs).
    + rewrite (Hother e) by done. apply (inv_connected _ _ Hs).
  - intros e. pose proof (inv_counted _ _ Hs e). destruct (decide (e = EndpointID u)) as [->|Hne].
    + rewrite Hself, length_app. simpl. lia.
    + by rewrite (Hother e).
Qed.

(** Adding and removing a session leave the manager alone. *)
Lemma enter_inv c s u :
  server_inv c s → u_ptr u ∉ u_ptr <$> handlers s → (Z.of_nat (length (handlers s)) < 2 ^ 62)%Z →
  server_inv c (enter u s).
Proof.
  intros Hs Hn Hb. assert (handlers (enter u s) ≡ₚ u :: handlers s) as Hp.
  { unfold handlers. simpl. by rewrite <-Permutation_middle. }
  split; try apply Hs; rewrite Hp.
  - rewrite fmap_cons. apply NoDup_cons. split; [done|apply (inv_distinct _ _ Hs)].
  - simpl. rewrite (inv_sessions _ _ Hs). apply (comm_L (∪)).
  - simpl. lia.
Qed.

Lemma cleanup_inv c s u : server_inv c s → u ∈ leaving s → server_inv c (cleanup u s).
Proof.
  intros Hs Hu. pose proof (inv_distinct _ _ Hs) as Hnd.
  assert (handlers s ≡ₚ u :: handlers (cleanup u s)) as Hp.
  { unfold handlers in *. simpl. rewrite !fmap_app, !NoDup_app in Hnd. destruct Hnd as (_&_&_&_&Hnd).
    rewrite (remove_running (leaving s) u Hnd Hu) at 1. by rewrite <-!Permutation_middle. }
  rewrite Hp, fmap_cons, NoDup_cons in Hnd. destruct Hnd as [Hn Hnd]. split; try apply Hs; try done.
  - unfold cleanup at 1. simpl sessions. rewrite (inv_sessions _ _ Hs).
    assert (list_to_set (C:=gset nat) (u_ptr <$> handlers s) = list_to_set (u_ptr <$> u :: handlers (cleanup u s))) as ->.
    { by apply list_to_set_perm_L; rewrite Hp. }
    apply set_eq. intros p. rewrite elem_of_difference, !elem_of_list_to_set, elem_of_singleton, fmap_cons, elem_of_cons.
    naive_solver.
  - pose proof (inv_bound _ _ Hs) as Hb. rewrite Hp in Hb. simpl in Hb. lia.
Qed.

(** Disconnecting an upstream that runs, or that never did. *)
Lemma RemoveConn_any c s u :
  server_inv c s → u ∈ running s ∨ u_ptr u ∉ u_ptr <$> running s →
  ∃ m effs c', RemoveConn (sv_manager s) u = Some (m, effs) ∧ manager_counts c' m ∧
    (∀ e, c' e ≤ length (connected m e)) ∧
    (∀ e x, x ∈ connected m e ↔ x ∈ connected (sv_manager s) e ∧ x ≠ u) ∧
    ((∀ e, c e = length (connected (sv_manager s) e)) → u ∈ connected (sv_manager s) (EndpointID u) →
     ∀ e, c' e = length (connected m e)).
Proof.
  intros Hs Hu. pose proof (inv_manager _ _ Hs) as Hm. pose proof (server_count_room _ _ Hs) as Hroom.
  assert (∀ e, u ∈ connected (sv_manager s) e → e = EndpointID u) as Hend.
  { intros e Hin. symmetry. by eapply connected_endpoint. }
  destruct (decide (u ∈ connected (sv_manager s) (EndpointID u))) as [Hin|Hnin].
  - destruct (RemoveConn_gen c _ u Hm Hroom Hin) as (m&effs&l1&l2&Hrun&Hm'&Hold&Hself&Hother).
    exists m, effs, (count_op c (ERemove (EndpointID u))).
    assert (∀ e, length (connected (sv_manager s) e) =
      if decide (e = EndpointID u) then S (length (connected m e)) else length (connected m e)) as Hlen.
    { intros e. destruct (decide (e = EndpointID u)) as [->|Hne]; [|by rewrite (Hother e)].
      rewrite Hself, Hold, !length_app. simpl. lia. }
    split_and!; [done|done|..].
    + intros e. pose proof (inv_counted _ _ Hs e) as Hc. rewrite Hlen in Hc. simpl.
      destruct (decide (e = EndpointID u)); lia.
    + intros e x. destruct (decide (e = EndpointID u)) as [->|Hne].
      * pose proof (connected_NoDup _ _ (EndpointID u) Hm) as Hnd. apply NoDup_fmap_1 in Hnd.
        rewrite Hself, Hold in *. apply NoDup_app in Hnd as (_&Hl1&Hl2). apply NoDup_cons in Hl2 as [Hl2 _].
        split; [|set_solver]. intros Hx. split; [set_solver|]. intros ->.
        apply elem_of_app in Hx as [Hx|Hx]; [|done]. apply (Hl1 u Hx). left.
      * rewrite (Hother e) by done. split; [|by intros [? _]]. intros Hx. split; [done|]. intros ->.
        by apply Hne, Hend.
    + intros Hex _ e. simpl. rewrite Hex, Hlen. by destruct (decide (e = EndpointID u)).
  - assert (u_ptr u ∉ u_ptr <$> connected (sv_manager s) (EndpointID u)) as Hn.
    { destruct Hu as [Hu|Hu]; [|by eapply connected_not_running].
      intros (v&Heq&Hv)%list_elem_of_fmap. assert (v ∈ running s) as Hvr.
      { eapply elem_of_submseteq, running_on_elem in Hv as [_ Hv]; [done|apply (inv_connected _ _ Hs)]. }
      pose proof (running_ptr_inj (running s) u v (running_distinct _ _ Hs) Hu Hvr Heq). by subst v. }
    destruct (RemoveConn_absent c _ u Hm Hroom Hn) as (m&effs&Hrun&Hsame&Hm').
    eexists m, effs, _. split_and!; [done|exact Hm'|..].
    + intros e. rewrite Hsame. pose proof (inv_counted _ _ Hs e).
      destruct (decide (connected (sv_manager s) (EndpointID u) = [])); [done|]. simpl.
      destruct (decide (e = EndpointID u)); lia.
    + intros e x. rewrite Hsame. split; [|by intros [? _]]. intros Hx. split; [done|]. intros ->.
      by rewrite (Hend e Hx) in Hx.
    + done.
Qed.

Lemma connected_submseteq c m e (l : list upstream) :
  manager_counts c m → (∀ x, x ∈ connected m e → x ∈ l) → connected m e ⊆+ l.
Proof. intros Hm Hin. apply NoDup_submseteq; [|done]. eapply NoDup_fmap_1, connected_NoDup, Hm. Qed.

Lemma running_on_others s u e :
  filter (λ x, EndpointID x = e) (others u (running s)) = others u (running_on s e).
Proof.
  unfold running_on, others. rewrite !list_filter_filter. apply list_filter_iff. intros x. apply and_comm.
Qed.

Lemma unregister_inv c s u :
  server_inv c s → u ∈ running s →
  ∃ s' effs c', unregister u s = Some (s', effs) ∧ server_inv c' s' ∧
    running s' = others u (running s) ∧
    (∀ e x, x ∈ connected (sv_manager s') e ↔ x ∈ connected (sv_manager s) e ∧ x ≠ u) ∧
    ((∀ e, c e = length (connected (sv_manager s) e)) → u ∈ connected (sv_manager s) (EndpointID u) →
     ∀ e, c' e = length (connected (sv_manager s') e)).
Proof.
  intros Hs Hu. destruct (RemoveConn_any c s u Hs (or_introl Hu)) as (m&effs&c'&Hrun&Hm&Hle&Hin&Hex).
  unfold unregister. rewrite Hrun. simpl. eexists _, _, c'. split; [done|]. split_and!; [|done..].
  pose proof (running_distinct _ _ Hs) as Hnd. apply (handlers_same c _ s); simpl; try done.
  - unfold handlers. simpl. rewrite (remove_running _ _ Hnd Hu) at 2. simpl. by rewrite <-!Permutation_middle.
  - intros e. eapply connected_submseteq; [done|]. intros x [Hx Hne]%Hin. unfold running_on. simpl.
    rewrite running_on_others. eapply elem_of_submseteq in Hx; [|apply (inv_connected _ _ Hs)].
    apply list_elem_of_filter. split; [|done]. intros Heq. apply running_on_elem in Hx as [_ Hx].
    apply Hne. by apply (running_ptr_inj (running s)).
Qed.

Lemma Select_any `{MapIter} c ptr m e allow m' effs u ok :
  manager_counts c m → Select ptr m e allow = Some (m', effs, u, ok) →
  manager_counts c m' ∧ ∀ e', connected m' e' = connected m e'.
Proof.
  intros Hm Hsel. destruct (localUpstreams m !! e) as [lb|] eqn:Hl.
  - destruct (Select_local c ptr m e allow lb Hm Hl) as (m1&u1&H1&_&Hm1&Hsame&_).
    rewrite H1 in Hsel. by injection Hsel as <- _ _ _.
  - unfold Select in Hsel. rewrite Hl in Hsel.
    destruct allow; simpl in Hsel; [destruct (LookupEndpoint _ _)|]; by injection Hsel as <- _ _ _.
Qed.

Section steps.
Context `{MapIter}.

(** Selecting and gossip leave the connections of the node alone. *)
Lemma with_manager_inv c s m :
  server_inv c s → manager_counts c m → (∀ e, connected m e = connected (sv_manager s) e) →
  server_inv c (with_manager m s).
Proof using.
  intros Hs Hm Hsame. apply (handlers_same c _ s); simpl; try done; intros e; rewrite Hsame; by apply Hs.
Qed.

Lemma gossip_counts c (s : server) cl :
  manager_counts c (sv_manager s) → cluster_wf cl → cs_localID cl = cs_localID (m_cluster (sv_manager s)) →
  cs_nodes cl !! cs_localID cl = cs_nodes (m_cluster (sv_manager s)) !! cs_localID cl →
  manager_counts c (mkManager (localUpstreams (sv_manager s)) cl).
Proof using.
  intros Hm Hcl Hid Hlocal. split; simpl; [done|apply Hm|].
  destruct (mwf_counts _ _ Hm) as (n&Hn&Hes). exists n. by rewrite Hlocal, Hid.
Qed.

Lemma server_step_inv gone c s s' : server_inv c s → server_step gone s s' → ∃ c', server_inv c' s'.
Proof.
  intros Hs Hstep. revert Hs.
  destruct Hstep as [token e name ip now sess u d s0 Hroute Hsess Hb|u s0 s1 effs Hu Hreg|u s0 s1 effs Hu Hcl|u s0 Hu|
    ptr e allow s0 m effs u ok Hsel|u s0 m effs _ Hu Hrun|s0 cl Hcl Hid Hlocal]; intros Hs.
  - exists c. apply enter_inv; [done| |done]. by destruct (upstreamRoute_ptr _ _ _ _ _ _ _ _ Hroute) as [-> _].
  - destruct (register_inv c s0 u Hs Hu) as (s2&effs2&Hreg2&Hs2&_).
    rewrite Hreg in Hreg2. injection Hreg2 as <- _. by eexists.
  - destruct (unregister_inv c s0 u Hs Hu) as (s2&effs2&c'&Hcl2&Hs2&_).
    rewrite Hcl in Hcl2. injection Hcl2 as <- _. by eexists.
  - exists c. by apply cleanup_inv.
  - destruct (Select_any _ _ _ _ _ _ _ _ _ (inv_manager _ _ Hs) Hsel) as [Hm Hsame]. exists c.
    by apply with_manager_inv.
  - destruct (RemoveConn_any c s0 u Hs Hu) as (m2&effs2&c'&Hrun2&Hm&Hle&Hin&_).
    rewrite Hrun in Hrun2. injection Hrun2 as <- _. exists c'. apply (handlers_same c _ s0); simpl; try done.
    intros e. eapply connected_submseteq; [done|]. intros x [Hx _]%Hin.
    eapply elem_of_submseteq; [done|apply (inv_connected _ _ Hs)].
  - exists c. apply with_manager_inv; [done| |done]. apply gossip_counts; [apply (inv_manager _ _ Hs)|done..].
Qed.

Lemma step_exact c s s' : server_exact c s → server_step false s s' → ∃ c', server_exact c' s'.
Proof.
  intros Hs Hstep. revert Hs.
  destruct Hstep as [token e name ip now sess u d s0 Hroute Hsess Hb|u s0 s1 effs Hu Hreg|u s0 s1 effs Hu Hcl|u s0 Hu|
    ptr e allow s0 m effs u ok Hsel|u s0 m effs Hf _ _|s0 cl Hcl Hid Hlocal]; [..|done|]; intros (Hs&Hall&Hc).
  - exists c. split; [|by split]. apply enter_inv; [done| |done].
    by destruct (upstreamRoute_ptr _ _ _ _ _ _ _ _ Hroute) as [-> _].
  - destruct (register_inv c s0 u Hs Hu) as (s2&effs2&Hreg2&Hs2&Hrunning&Hself&Hother).
    rewrite Hreg in Hreg2. injection Hreg2 as <- _. eexists. split; [done|]. split.
    + intros x. destruct s1 as [ss m ent r lv]. simpl in Hrunning. subst r. rewrite running_on_cons.
      destruct (decide (EndpointID u = x)) as [<-|Hne]; [|by rewrite (Hother x)].
      rewrite Hself, Permutation_app_comm. simpl. by rewrite Hall.
    + intros x. simpl. destruct (decide (x = EndpointID u)) as [->|Hne]; [|by rewrite (Hother x)].
      rewrite Hself, length_app, Hc. simpl. lia.
  - destruct (unregister_inv c s0 u Hs Hu) as (s2&effs2&c'&Hcl2&Hs2&Hrunning&Hin&Hex).
    rewrite Hcl in Hcl2. injection Hcl2 as <- _. exists c'. split; [done|].
    assert (u ∈ connected (sv_manager s0) (EndpointID u)) as Hcu by (rewrite Hall; by apply running_on_elem).
    split; [|by apply Hex]. intros e. apply NoDup_Permutation.
    + eapply NoDup_fmap_1, connected_NoDup, (inv_manager _ _ Hs2).
    + apply NoDup_filter. eapply NoDup_fmap_1, (running_distinct _ _ Hs2).
    + intros x. unfold running_on at 1. rewrite Hin, Hrunning, running_on_others. unfold others.
      rewrite list_elem_of_filter, Hall.
      split; [|naive_solver]. intros [Hx Hne]. split; [|done]. intros Heq. apply Hne.
      apply running_on_elem in Hx as [_ Hx]. apply (running_ptr_inj (running s0)); try done. apply (running_distinct _ _ Hs).
  - exists c. split; [by apply cleanup_inv|by split].
  - destruct (Select_any _ _ _ _ _ _ _ _ _ (inv_manager _ _ Hs) Hsel) as [Hm Hsame].
    exists c. split; [by apply with_manager_inv|]. split; intros x; simpl; rewrite Hsame; [apply Hall|apply Hc].
  - exists c. split; [|split; [apply Hall|apply Hc]]. apply with_manager_inv; [done| |done].
    apply gossip_counts; [apply (inv_manager _ _ Hs)|done..].
Qed.

Lemma new_server_exact n :
  cn_Endpoints n = ∅ → server_exact (λ _, 0) (NewServer (NewLoadBalancedManager (NewState n).1)).
Proof.
  intros Hn. assert (∀ e, connected (NewLoadBalancedManager (NewState n).1) e = []) as Hnil.
  { intros e. unfold connected. simpl. by rewrite lookup_empty. }
  split; [|split; intros e; cbn [NewServer sv_manager]; by rewrite Hnil].
  split; cbn [NewServer sv_manager running sessions]; try done; [|constructor|..].
  - eapply manager_counts_ext; [|apply new_manager_wf, Hn]. intros e. cbv beta. by rewrite Hnil.
Qed.

Lemma server_reachable_inv gone n s : cn_Endpoints n = ∅ → server_reachable gone n s → ∃ c, server_inv c s.
Proof.
  intros Hn. induction 1 as [|s s' _ [c IH] Hstep]; [eexists; by apply new_server_exact|by eapply server_step_inv].
Qed.

Lemma reachable_exact n s : cn_Endpoints n = ∅ → server_reachable false n s → ∃ c, server_exact c s.
Proof.
  intros Hn. induction 1 as [|s s' _ [c IH] Hstep]; [eexists; by apply new_server_exact|by eapply step_exact].
Qed.
End steps.

Lemma listeners_counts c s e : counts s c → LocalEndpointListeners s e = Some (Z.of_nat (c e)).
Proof.
  intros (n&Hn&Hes). unfold LocalEndpointListeners. rewrite Hn. simpl. rewrite Hes.
  by destruct (decide (c e = 0)) as [->|].
Qed.

(** *** Sanitizing *)

Lemma trim_left_suffix rs : ∃ l, rs = l ++ trim_left rs.
Proof.
  induction rs as [|r rs [l IH]]; [by exists []|]. simpl. destruct (IsSpace r); [|by exists []].
  exists (r :: l). simpl. by rewrite <-IH.
Qed.

Lemma trim_left_head rs r rs' : trim_left rs = r :: rs' → IsSpace r = false.
Proof.
  induction rs as [|x rs IH]; simpl; [done|]. destruct (IsSpace x) eqn:Hx; [done|]. by intros [= <- _].
Qed.

(** Trimming keeps a piece of the runes, whose ends are not spaces. *)
Lemma trim_infix rs :
  ∃ l1 l2, rs = l1 ++ reverse (trim_left (reverse (trim_left rs))) ++ l2.
Proof.
  destruct (trim_left_suffix rs) as [l1 H1], (trim_left_suffix (reverse (trim_left rs))) as [l2 H2].
  exists l1, (reverse l2). rewrite <-reverse_app, <-H2, reverse_involutive. done.
Qed.

Lemma trim_head rs r rs' :
  reverse (trim_left (reverse (trim_left rs))) = r :: rs' → IsSpace r = false.
Proof.
  intros Hr. destruct (trim_left_suffix (reverse (trim_left rs))) as [l2 H2].
  apply (f_equal reverse) in H2. rewrite reverse_involutive, reverse_app, Hr in H2. by eapply trim_left_head.
Qed.

Lemma sublist_Forall {A} (P : A → Prop) l1 l2 : l1 `sublist_of` l2 → Forall P l2 → Forall P l1.
Proof. intros Hs. rewrite !Forall_forall. intros H x Hx. apply H. by eapply elem_of_sublist. Qed.

(** The runes of a sanitized name. *)
Definition sanitized (name : string) : list rune :=
  let a := filter (λ r, r ≠ RuneError ∧ IsControl r = false) (runes name) in
  take maxNameLen (reverse (trim_left (reverse (trim_left a)))).

Lemma sanitize_map (rs : list rune) :
  omap (λ r, if decide (r = RuneError) then None else if IsControl r then None else Some r) rs =
  filter (λ r, r ≠ RuneError ∧ IsControl r = false) rs.
Proof.
  induction rs as [|r rs IH]; [done|]. csimpl. rewrite filter_cons, IH.
  destruct (decide (r = RuneError)); [by rewrite decide_False by naive_solver|].
  destruct (IsControl r); [by rewrite decide_False by naive_solver|by rewrite decide_True].
Qed.

Lemma trimmed_sublist rs : reverse (trim_left (reverse (trim_left rs))) `sublist_of` rs.
Proof.
  destruct (trim_infix rs) as (l1&l2&H). rewrite H at 2. apply sublist_inserts_l, sublist_inserts_r. done.
Qed.

Lemma sanitized_sublist name : sanitized name `sublist_of` runes name.
Proof.
  unfold sanitized. etrans; [apply sublist_take|]. etrans; [apply trimmed_sublist|]. apply sublist_filter.
Qed.

Lemma sanitizeName_runes name : sanitizeName name = of_runes (sanitized name) ∧ runes (sanitizeName name) = sanitized name.
Proof.
  pose proof (runes_valid name) as Hv.
  assert (runes (of_runes (sanitized name)) = sanitized name) as Hs.
  { apply runes_of_runes. eapply sublist_Forall; [apply sanitized_sublist|done]. }
  assert (sanitizeName name = of_runes (sanitized name)) as ->; [|done].
  unfold sanitizeName, strings_Map, TrimSpace, sanitized. rewrite sanitize_map.
  set (a := filter _ (runes name)).
  assert (Forall valid_rune a) as Ha by (eapply sublist_Forall; [apply sublist_filter|done]).
  rewrite (runes_of_runes a Ha). set (b := reverse (trim_left (reverse (trim_left a)))).
  assert (Forall valid_rune b) as Hb by (eapply sublist_Forall; [apply trimmed_sublist|done]).
  rewrite (runes_of_runes b Hb). case_decide; [done|]. by rewrite take_ge by lia.
Qed.

(** *** Shedding *)

Section shed.
Context (range : gset nat → list nat) (range_elements : ∀ X, range X ≡ₚ elements X).

Lemma shed_loop_prefix n acc l :
  ∃ k, shed_loop n acc l = acc ++ take k l ∧
    k = match l with [] => 0 | _ => length l `min` (1 `max` (Z.to_nat n - length acc)) end.
Proof.
  revert acc. induction l as [|x l IH]; intros acc; cbn [shed_loop]; [exists 0; by rewrite app_nil_r|].
  rewrite length_app. cbn [length]. case_decide as Hn.
  - exists 1. split; [done|]. lia.
  - destruct (IH (acc ++ [x])) as (k&->&Hk). exists (S k). rewrite <-(assoc_L (++)). split; [done|].
    rewrite length_app in Hk. cbn [length] in *. destruct l as [|y l]; cbn [length] in *; lia.
Qed.

Lemma shedSessions_spec n s :
  NoDup (shedSessions range n s) ∧ (∀ x, x ∈ shedSessions range n s → x ∈ sessions s) ∧
  length (shedSessions range n s) = openSessions s `min` (1 `max` Z.to_nat n).
Proof.
  unfold shedSessions, openSessions. destruct (shed_loop_prefix n [] (range (sessions s))) as (k&->&Hk). cbn [app].
  pose proof (range_elements (sessions s)) as Hp. split_and!.
  - eapply sublist_NoDup; [|apply sublist_take]. rewrite Hp. apply NoDup_elements.
  - intros x Hx. apply elem_of_elements. rewrite <-Hp. eapply elem_of_sublist; [done|apply sublist_take].
  - rewrite length_take. change (size (sessions s)) with (length (elements (sessions s))). rewrite <-Hp.
    destruct (range (sessions s)); cbn [length] in *; lia.
Qed.
End shed.

Lemma shedding_overloaded oob conf localConns avgConns n :
  positive (Threshold conf) → (0 < localConns < 2 ^ 63)%Z → (0 ≤ avgConns < 2 ^ 63)%Z →
  shedding oob conf localConns avgConns = Some n → (avgConns < localConns)%Z.
Proof.
  intros Ht Hl Ha. unfold shedding. destruct (decide (avgConns < localConns)%Z) as [|Hle]; [done|].
  rewrite flt_nonpositive; [done| |done].
  rewrite i64_small by (unfold is_i64; lia).
  destruct (float64_of_int_nonpositive (localConns - avgConns)) as [Hn Hf]; [lia|].
  apply fdiv_nonpositive; [done|done|]. apply float64_of_int_positive. lia.
Qed.

Lemma flt_infinity t : flt (S754_infinity false) t = false.
Proof. by destruct t as [|[]| |[]]. Qed.

Lemma shedding_average_zero oob conf localConns :
  (0 < localConns < 2 ^ 63)%Z → ¬ infinite (ShedRate conf) → ShedRate conf ≠ S754_nan →
  shedding oob conf localConns 0 = Some 0%Z.
Proof.
  intros Hl Hr Hn. unfold shedding. rewrite Z.sub_0_r, i64_small by (unfold is_i64; lia).
  assert (fdiv (float64_of_int localConns) (float64_of_int 0) = S754_infinity false) as ->.
  { pose proof (float64_of_int_positive localConns) as Hp.
    destruct (float64_of_int localConns) as [|[]| |[]]; try (exfalso; apply Hp; lia); done. }
  rewrite flt_infinity.
  assert (fmul (float64_of_int localConns) (S754_infinity false) = S754_infinity false) as ->.
  { pose proof (float64_of_int_positive localConns) as Hp.
    destruct (float64_of_int localConns) as [|[]| |[]]; try (exfalso; apply Hp; lia); done. }
  destruct (ShedRate conf) as [s|s| |s m e]; simpl in *; [by destruct s|done|done|by destruct s].
Qed.

(** ** Properties *)

(** C13. Nothing leaks and nothing is lost: in every state the server reaches
    while no dial finds an upstream gone, whatever the interleaving of its
    goroutines, the sessions are exactly those of the handlers that have added
    theirs and not removed it again, the connected upstreams of an endpoint are
    those of the handlers that have registered with the manager, and the
    cluster lists the endpoint with their number; every handler can take its
    next step without a panic. *)
Theorem server_tracks_connections `{MapIter} n s :
  cn_Endpoints n = ∅ → server_reachable false n s →
  manager_wf (sv_manager s) ∧ NoDup (u_ptr <$> handlers s) ∧
  sessions s = list_to_set (u_ptr <$> handlers s) ∧
  (∀ e, connected (sv_manager s) e ≡ₚ running_on s e ∧
     LocalEndpointListeners (m_cluster (sv_manager s)) e = Some (Z.of_nat (length (running_on s e)))) ∧
  (∀ u, u ∈ entering s → is_Some (register u s)) ∧ (∀ u, u ∈ running s → is_Some (unregister u s)).
Proof.
  intros Hn Hr. destruct (reachable_exact n s Hn Hr) as (c&Hs&Hall&Hc).
  pose proof (inv_manager _ _ Hs) as Hm. split_and!; [| | | | |].
  - by eapply manager_counts_ext.
  - apply (inv_distinct _ _ Hs).
  - apply (inv_sessions _ _ Hs).
  - intros e. split; [apply Hall|]. by rewrite (listeners_counts c), Hc, (Hall e) by apply Hm.
  - intros u Hu. destruct (register_inv c s u Hs Hu) as (s'&effs&->&_). by eexists.
  - intros u Hu. destruct (unregister_inv c s u Hs Hu) as (s'&effs&c'&->&_). by eexists.
Qed.

(** C22. The node never advertises an upstream it does not have: in every state
    the server reaches, whatever dials find gone, the cluster lists at most as
    many listeners of an endpoint as it has running handlers, and one it lists
    has a running upstream with an open session. *)
Theorem no_phantom_endpoints `{MapIter} gone n s e :
  cn_Endpoints n = ∅ → server_reachable gone n s →
  ∃ l, LocalEndpointListeners (m_cluster (sv_manager s)) e = Some l ∧
    (0 ≤ l ≤ Z.of_nat (length (running_on s e)))%Z ∧
    ((0 < l)%Z → ∃ u, u ∈ running s ∧ EndpointID u = e ∧ u_ptr u ∈ sessions s).
Proof.
  intros Hn Hr. destruct (server_reachable_inv gone n s Hn Hr) as (c&Hs). exists (Z.of_nat (c e)).
  pose proof (inv_counted _ _ Hs e). pose proof (submseteq_length _ _ (inv_connected _ _ Hs e)).
  split_and!; [apply listeners_counts, (inv_manager _ _ Hs)|lia|lia|]. intros Hl.
  destruct (running_on s e) as [|u us] eqn:Hon; simpl in *; [lia|].
  assert (u ∈ running_on s e) as [He Hu]%running_on_elem by (rewrite Hon; left).
  exists u. split_and!; [done|done|]. rewrite (inv_sessions _ _ Hs). apply elem_of_list_to_set.
  apply list_elem_of_fmap_2. unfold handlers. apply elem_of_app. by left.
Qed.

(** C33. Rebalancing only sheds from an overloaded node: with a positive
    threshold it closes sessions only when there is another node, the node has
    the minimum of connections, and more than the average; and it closes
    distinct open sessions, at most the decided number (but at least one). *)
Theorem rebalance_only_overloaded `{MapIter} range oob conf s closed :
  (∀ X, range X ≡ₚ elements X) → positive (Threshold conf) → (Z.of_nat (openSessions s) < 2 ^ 63)%Z →
  (∀ avg, AvgConns (m_cluster (sv_manager s)) = Some avg → (0 ≤ avg < 2 ^ 63)%Z) →
  Rebalance range oob conf s = Some closed → closed ≠ [] →
  1 < length (State_Nodes (m_cluster (sv_manager s))) ∧
  (i64 (MinConns conf) ≤ Z.of_nat (openSessions s))%Z ∧
  NoDup closed ∧ (∀ x, x ∈ closed → x ∈ sessions s) ∧
  ∃ avg n, AvgConns (m_cluster (sv_manager s)) = Some avg ∧ (avg < Z.of_nat (openSessions s))%Z ∧
    shedding oob conf (Z.of_nat (openSessions s)) avg = Some n ∧
    length closed = openSessions s `min` (1 `max` Z.to_nat n).
Proof.
  intros Hrange Hthr Hb Havg Hreb Hne. unfold Rebalance in Hreb.
  case_decide as H1; [by injection Hreb as <-|].
  case_decide as H2; [by injection Hreb as <-|].
  destruct (AvgConns _) as [avg|] eqn:Ha; [|done]. simpl in Hreb. specialize (Havg avg eq_refl).
  destruct (shedding oob conf _ avg) as [n|] eqn:Hsh; [|by injection Hreb as <-]. injection Hreb as <-.
  destruct (shedSessions_spec range Hrange n s) as (Hnd&Hin&Hlen).
  split_and!; [lia|lia|done|done|]. exists avg, n. split_and!; [done| |done|done].
  eapply shedding_overloaded; [done| |done|exact Hsh]. lia.
Qed.

(** When the average rounds down to zero connections a node with another
    one and the minimum of connections closes one of its sessions at every
    tick, whatever the threshold: the balance is a division by zero, the shed
    rate of zero is zero, and shedding no session closes one. *)
Theorem rebalance_average_zero `{MapIter} range oob conf s :
  (∀ X, range X ≡ₚ elements X) →
  1 < length (State_Nodes (m_cluster (sv_manager s))) →
  AvgConns (m_cluster (sv_manager s)) = Some 0%Z →
  (0 < Z.of_nat (openSessions s) < 2 ^ 63)%Z → (i64 (MinConns conf) ≤ Z.of_nat (openSessions s))%Z →
  ¬ infinite (ShedRate conf) → ShedRate conf ≠ S754_nan →
  ∃ x, Rebalance range oob conf s = Some [x] ∧ x ∈ sessions s.
Proof.
  intros Hrange Hnodes Havg Hopen Hmin Hr Hn. unfold Rebalance.
  rewrite decide_False by lia. rewrite decide_False by lia. rewrite Havg. simpl.
  rewrite shedding_average_zero by done.
  destruct (shedSessions_spec range Hrange 0 s) as (_&Hin&Hlen).
  destruct (shedSessions range 0 s) as [|x [|y l]]; simpl in Hlen; [lia| |lia].
  exists x. split; [done|]. apply Hin. left.
Qed.

(** C39. A sanitized name is safe to echo: it is valid UTF-8 of at most 64
    runes, none of them a control character or the replacement character, it
    does not start with a space, and its runes are runes of the client's name
    in their order. *)
Theorem sanitized_name_safe name :
  of_runes (runes (sanitizeName name)) = sanitizeName name ∧
  length (runes (sanitizeName name)) ≤ maxNameLen ∧
  Forall (λ r, r ≠ RuneError ∧ IsControl r = false) (runes (sanitizeName name)) ∧
  runes (sanitizeName name) `sublist_of` runes name ∧
  (∀ r, head (runes (sanitizeName name)) = Some r → IsSpace r = false).
Proof.
  destruct (sanitizeName_runes name) as [Hof Hrs]. rewrite Hrs. split_and!.
  - done.
  - unfold sanitized. rewrite length_take. lia.
  - unfold sanitized. eapply sublist_Forall; [apply sublist_take|].
    eapply sublist_Forall; [apply trimmed_sublist|]. apply Forall_forall. intros r [Hr _]%list_elem_of_filter. done.
  - apply sanitized_sublist.
  - unfold sanitized. intros r. destruct (reverse _) as [|x l] eqn:Hb; [done|]. simpl. intros [= <-].
    by eapply trim_head.
Qed.

(** ** Witnesses *)

#[local] Existing Instance canonical_iter.

Definition ex_connect (sess : nat) (e : string) : upstream := ConnUpstream sess e (sanitizeName "laptop") "10.1.1.1" 0.

Definition ex_server : server := NewServer (NewLoadBalancedManager (NewState ex_local).1).

Definition ex_server1 : server :=
  match register (ex_connect 1 "a") (enter (ex_connect 1 "a") ex_server) with Some (s, _) => s | None => ex_server end.

Lemma ex_server1_reachable gone : server_reachable gone ex_local ex_server1.
Proof.
  assert (server_reachable gone ex_local (enter (ex_connect 1 "a") ex_server)) as Henter.
  { eapply reach_step; [apply reach_new|].
    by apply (step_enter gone None "a" "laptop" "10.1.1.1" 0 1 (ex_connect 1 "a") None); [|apply not_elem_of_nil|]. }
  eapply reach_step; [exact Henter|]. eapply (step_register gone (ex_connect 1 "a")); [left|by vm_compute].
Qed.

(** A second handler has added its session and not its upstream yet. *)
Definition ex_server2 : server := enter (ex_connect 2 "a") ex_server1.

Lemma ex_server2_reachable gone : server_reachable gone ex_local ex_server2.
Proof.
  eapply reach_step; [apply ex_server1_reachable|].
  apply (step_enter gone None "a" "laptop" "10.1.1.1" 0 2 (ex_connect 2 "a") None); [done| |done].
  by apply (bool_decide_unpack _); vm_compute.
Qed.

Lemma server_tracks_connections_witness :
  LocalEndpointListeners (m_cluster (sv_manager ex_server2)) "a" = Some 1%Z ∧ openSessions ex_server2 = 2.
Proof.
  destruct (server_tracks_connections ex_local ex_server2 eq_refl (ex_server2_reachable false)) as (_&_&Hs&H&_).
  split; [destruct (H "a") as [_ ->]; vm_compute; reflexivity|]. unfold openSessions. rewrite Hs. vm_compute. reflexivity.
Defined.

Lemma no_phantom_endpoints_witness :
  ∃ l, LocalEndpointListeners (m_cluster (sv_manager ex_server1)) "a" = Some l ∧ (0 ≤ l ≤ 1)%Z.
Proof.
  destruct (no_phantom_endpoints true ex_local ex_server1 "a" eq_refl (ex_server1_reachable true)) as (l&Hl&Hb&_).
  exists l. split; [exact Hl|]. exact Hb.
Defined.

(** Three nodes with one connection between them, on the local node. *)
Definition ex_idle : server :=
  mkServer {[1]} (mkManager (localUpstreams (sv_manager ex_server1))
    (AddNode (AddNode (m_cluster (sv_manager ex_server1)) (mkCNode "n2" NodeStatusActive "" "" ∅)).1
       (mkCNode "n3" NodeStatusActive "" "" ∅)).1) [] [ex_connect 1 "a"] [].

Definition ex_rebalance : RebalanceConfig := mkRebalance (float64_of_int 1) (fdiv (float64_of_int 1) (float64_of_int 200)) 0.

Lemma rebalance_average_zero_witness :
  ∃ x, Rebalance elements (λ _, 0%Z) ex_rebalance ex_idle = Some [x] ∧ x ∈ sessions ex_idle.
Proof.
  apply rebalance_average_zero; [intros X; reflexivity|apply (bool_decide_unpack _); vm_compute; exact I|..].
  - vm_compute. reflexivity.
  - vm_compute. split; reflexivity.
  - vm_compute. discriminate.
  - vm_compute. intros [].
  - vm_compute. discriminate.
Defined.

Lemma rebalance_only_overloaded_witness :
  Rebalance elements (λ _, 0%Z) ex_rebalance ex_idle = Some [1] ∧
  (i64 (MinConns ex_rebalance) ≤ Z.of_nat (openSessions ex_idle))%Z.
Proof.
  assert (Rebalance elements (λ _, 0%Z) ex_rebalance ex_idle = Some [1]) as Hreb by (vm_compute; reflexivity).
  split; [exact Hreb|].
  apply (rebalance_only_overloaded elements (λ _, 0%Z) ex_rebalance ex_idle [1]).
  - intros X. reflexivity.
  - vm_compute. exact I.
  - vm_compute. reflexivity.
  - intros avg Havg. assert (Some 0%Z = Some avg) as [= <-]; [|split; [discriminate|reflexivity]].
    rewrite <-Havg. vm_compute. reflexivity.
  - exact Hreb.
  - discriminate.
Defined.
