(* ===== verification/Proxy.v ===== *)
(** * server/proxy: proxying requests to upstreams

    The routes of the proxy server, the HTTP reverse proxy and the TCP proxy,
    over the upstream manager.  Dialing and the exchange with the upstream are
    the environment [ProxyEnv]; [httputil.ReverseProxy] is what it does with
    the headers of a request ([proxy_headers]) and the order in which it calls
    the dialer and the error handler.  [None] is a panic of the code here, a nil
    that is dereferenced; the panic of the reverse proxy for a response that
    breaks off is the result [Aborted], which the recovery of the router ends. *)

From S2P Require Import Prelude GoLib NetLib Cluster Upstream HttpLib Auth.

(** ** Routing *)

(** [net.ParseIP] and the rest of the host are in [NetLib]. *)
Definition EndpointIDFromRequest (r : request) : string :=
  if decide (header_Get (r_Header r) "x-piko-endpoint" ≠ "") then header_Get (r_Header r) "x-piko-endpoint"
  else
    let host := match SplitHostPort (r_Host r) with Some (host, _) => host | None => r_Host r end in
    if decide (host = "") then ""
    else if ParseIP host then ""
    else if Contains host "." then match Split host "." with e :: _ => e | [] => "" end
    else "".

(** The route of a request: the TCP route has the endpoint in the path, every
    other request takes the HTTP route. *)
Inductive route := RouteTCP (endpointID : string) | RouteHTTP.

Definition tcpPrefix : string := "/_piko/v1/tcp/".

Definition registerRoutes (r : request) : route :=
  let e := CutPrefix (r_Path r) tcpPrefix in
  if decide (r_Method r = "GET" ∧ HasPrefix (r_Path r) tcpPrefix = true ∧ e ≠ "" ∧ Contains e "/" = false)
  then RouteTCP e else RouteHTTP.

(** ** The environment *)

Inductive dial_outcome := Dialed | DialFailed (e : dial_error) | DialDeadline.

(** A response whose body breaks off has begun, with its length or not. *)
Inductive round_trip :=
  | Response (status : nat)
  | BrokenOff (status : nat) (declared : bool)
  | RoundTripDeadline
  | RoundTripFailed.

(** [RoundTrip u r deadline] sends the request over the dialed connection. *)
Class ProxyEnv := {
  Dial : upstream → dial_outcome;
  RoundTrip : upstream → request → option Z → round_trip;
  UpgradeOk : request → bool;
}.

(** What a request ends with: a response of the proxy, the response of an
    upstream to the request it was sent, one that broke off, for which the
    reverse proxy panics with [http.ErrAbortHandler] when it has relayed what
    there was of it, a failed upgrade, or a tunnel. *)
Inductive proxy_result :=
  | Respond (resp : response)
  | Relayed (u : upstream) (sent : request) (deadline : option Z) (status : nat)
  | Aborted (u : upstream) (sent : request) (deadline : option Z) (status : nat) (declared : bool)
  | UpgradeFailed (u : upstream)
  | Tunnel (u : upstream).

(** What a request does: changes of the manager, and dials. *)
Inductive proxy_effect :=
  | ManagerEffect (e : manager_effect)
  | DialUpstream (u : upstream).

Definition errorResponse (statusCode : nat) (message : string) : proxy_result :=
  Respond (mkResponse statusCode message).

Section proxy.
Context `{MapIter, ProxyEnv}.

(** ** HTTPProxy *)

(** [dialUpstream]: an upstream that is gone is removed. *)
Definition dialUpstream (m : manager) (u : upstream) : option (manager * list proxy_effect * dial_outcome) :=
  match Dial u with
  | DialFailed ErrGone =>
      '(m', effs) ← RemoveConn m u;
      Some (m', DialUpstream u :: (ManagerEffect <$> effs), DialFailed ErrGone)
  | d => Some (m, [DialUpstream u], d)
  end.

(** [errorHandler], for an error that is a deadline or not. *)
Definition errorHandler (deadlineExceeded : bool) : proxy_result :=
  if deadlineExceeded then errorResponse StatusGatewayTimeout "upstream timeout"
  else errorResponse StatusBadGateway "upstream unreachable".

(** The request the reverse proxy sends: the Director changes only the URL. *)
Definition outgoing (r : request) : request :=
  mkRequest (r_Method r) (r_Host r) (r_Path r)
    (proxy_headers (header_Set (r_Header r) "x-piko-forward" "true")).

Definition ServeHTTPWithUpstream (timeout : Z) (m : manager) (r : request) (u : upstream) :
    option (manager * list proxy_effect * proxy_result) :=
  let deadline :=
    if decide (timeout ≠ 0%Z ∧ header_Get (r_Header r) "upgrade" ≠ "websocket") then Some timeout else None in
  '(m', effs, d) ← dialUpstream m u;
  Some (m', effs,
    match d with
    | DialFailed _ => errorHandler false
    | DialDeadline => errorHandler true
    | Dialed =>
        match RoundTrip u (outgoing r) deadline with
        | Response status => Relayed u (outgoing r) deadline status
        | BrokenOff status declared => Aborted u (outgoing r) deadline status declared
        | RoundTripDeadline => errorHandler true
        | RoundTripFailed => errorHandler false
        end
    end).

Definition forwarded (r : request) : bool := bool_decide (header_Get (r_Header r) "x-piko-forward" = "true").

(** [HTTPProxy.ServeHTTP]; [ptr] is the identity of a new node upstream, and a
    nil upstream is dereferenced, hence a panic. *)
Definition http_ServeHTTP (timeout : Z) (ptr : nat) (m : manager) (r : request) (endpointID : string) :
    option (manager * list proxy_effect * proxy_result) :=
  '(m1, effs1, u, ok) ← Select ptr m endpointID (negb (forwarded r));
  if negb ok then
    Some (m1, ManagerEffect <$> effs1, errorResponse StatusBadGateway "no available upstreams")
  else
    u ← u;
    '(m2, effs2, res) ← ServeHTTPWithUpstream timeout m1 r u;
    Some (m2, (ManagerEffect <$> effs1) ++ effs2, res).

(** ** TCPProxy *)

Definition tcp_ServeHTTP (timeout : Z) (ptr : nat) (m : manager) (r : request) (endpointID : string) :
    option (manager * list proxy_effect * proxy_result) :=
  '(m1, effs1, u, ok) ← Select ptr m endpointID (negb (forwarded r));
  if negb ok then
    Some (m1, ManagerEffect <$> effs1, errorResponse StatusBadGateway "no available upstreams")
  else
    u ← u;
    if Forward u then
      '(m2, effs2, res) ← ServeHTTPWithUpstream timeout m1 r u;
      Some (m2, (ManagerEffect <$> effs1) ++ effs2, res)
    else
      '(m2, effs2, d) ← dialUpstream m1 u;
      Some (m2, (ManagerEffect <$> effs1) ++ effs2,
        match d with
        | Dialed => if UpgradeOk r then Tunnel u else UpgradeFailed u
        | _ => errorResponse StatusBadGateway "upstream unreachable"
        end).

(** ** The server *)

Definition proxyHTTPRoute (timeout : Z) (ptr : nat) (m : manager) (token : option Token) (r : request) :
    option (manager * list proxy_effect * proxy_result) :=
  let endpointID := EndpointIDFromRequest r in
  if decide (endpointID = "") then Some (m, [], errorResponse StatusBadRequest "missing endpoint id")
  else if negb (token_permits token endpointID)
  then Some (m, [], Respond (unauthorized "endpoint not permitted"))
  else http_ServeHTTP timeout ptr m r endpointID.

Definition proxyTCPRoute (timeout : Z) (ptr : nat) (m : manager) (token : option Token) (r : request)
    (endpointID : string) : option (manager * list proxy_effect * proxy_result) :=
  if negb (token_permits token endpointID)
  then Some (m, [], Respond (unauthorized "endpoint not permitted"))
  else tcp_ServeHTTP timeout ptr m r endpointID.

(** The proxy server's router: the middleware, then the route. *)
Definition serve (verifier : option MultiTenantVerifier) (timeout : Z) (ptr : nat) (m : manager) (r : request) :
    option (manager * list proxy_effect * proxy_result) :=
  match authenticate verifier (r_Header r) with
  | inl resp => Some (m, [], Respond resp)
  | inr token =>
      match registerRoutes r with
      | RouteTCP endpointID => proxyTCPRoute timeout ptr m token r endpointID
      | RouteHTTP => proxyHTTPRoute timeout ptr m token r
      end
  end.
End proxy.

(** ** Specification *)

(** The endpoint a request is for. *)
Definition target (r : request) : string :=
  match registerRoutes r with RouteTCP e => e | RouteHTTP => EndpointIDFromRequest r end.

(** The upstreams a request dials. *)
Definition dials (effs : list proxy_effect) : list upstream :=
  omap (λ e, match e with DialUpstream u => Some u | _ => None end) effs.

(** The response of the proxy itself. *)
Definition status_of (res : proxy_result) : option nat :=
  match res with Respond resp => Some (resp_status resp) | _ => None end.

(** The proxy refuses the request before it dials anything. *)
Definition refused (effs : list proxy_effect) (res : proxy_result) : Prop :=
  dials effs = [] ∧ ∃ resp, res = Respond resp ∧
    resp_status resp ∈ [StatusBadRequest; StatusUnauthorized; StatusInternalServerError].

(** ** Lemmas *)

Section lemmas.
Context `{MapIter, ProxyEnv}.

Lemma dials_manager (effs : list manager_effect) : dials (ManagerEffect <$> effs) = [].
Proof. induction effs as [|e effs IH]; [done|]. by csimpl. Qed.

Lemma dials_app effs1 effs2 : dials (effs1 ++ effs2) = dials effs1 ++ dials effs2.
Proof. apply omap_app. Qed.

Lemma dialUpstream_dials m u m' effs d : dialUpstream m u = Some (m', effs, d) → dials effs = [u].
Proof.
  unfold dialUpstream. destruct (Dial u) as [|[]|]; try (by intros [= <- <- <-]).
  destruct (RemoveConn m u) as [[m1 e1]|]; simpl; [|done]. intros [= <- <- <-]. csimpl.
  change (u :: dials (ManagerEffect <$> e1) = [u]). by rewrite dials_manager.
Qed.

(** Dialing never panics. *)
Lemma dialUpstream_total m u :
  manager_wf m → manager_room m → u ∈ connected m (EndpointID u) ∨ Forward u = true ∧ Dial u ≠ DialFailed ErrGone →
  ∃ m' effs, dialUpstream m u = Some (m', effs, Dial u) ∧ manager_wf m' ∧
    (Dial u = DialFailed ErrGone → ∃ l1 l2, connected m (EndpointID u) = l1 ++ u :: l2 ∧
       connected m' (EndpointID u) = l1 ++ l2) ∧
    (Dial u ≠ DialFailed ErrGone → m' = m) ∧
    (∀ e, e ≠ EndpointID u → connected m' e = connected m e).
Proof.
  intros Hm Hroom Hu. unfold dialUpstream. destruct (Dial u) as [|[]|] eqn:Hd.
  1, 3, 4: eexists m, _; by split_and!.
  destruct Hu as [Hu|[_ ?]]; [|done].
  destruct (RemoveConn_ok m u Hm Hroom Hu) as (m'&effs&l1&l2&->&Hm'&Hold&Hnew&Hother). simpl.
  eexists m', _. split_and!; try done. intros _. by exists l1, l2.
Qed.

Lemma ServeHTTPWithUpstream_dials timeout m r u m' effs res :
  ServeHTTPWithUpstream timeout m r u = Some (m', effs, res) →
  dials effs = [u] ∧
  match res with
  | Respond resp => resp_status resp = StatusBadGateway ∨ resp_status resp = StatusGatewayTimeout
  | Relayed u' sent _ _ => u' = u ∧ sent = outgoing r
  | Aborted u' sent deadline status declared =>
      u' = u ∧ sent = outgoing r ∧ RoundTrip u' sent deadline = BrokenOff status declared
  | _ => False
  end.
Proof.
  unfold ServeHTTPWithUpstream. destruct (dialUpstream m u) as [[[m1 e1] d]|] eqn:Hd; simpl; [|done].
  intros [= <- <- <-]. split; [by eapply dialUpstream_dials|].
  destruct d as [|[]|]; simpl; auto. destruct (RoundTrip _ _ _) eqn:Hrt; simpl; auto.
Qed.

(** The handler panics only as the reverse proxy does, for a response that
    breaks off. *)
Lemma serve_aborted verifier timeout ptr m r m' effs u sent deadline status declared :
  serve verifier timeout ptr m r = Some (m', effs, Aborted u sent deadline status declared) →
  sent = outgoing r ∧ dials effs = [u] ∧ RoundTrip u sent deadline = BrokenOff status declared.
Proof.
  assert (∀ m1 m2 x effs1 effs2 res, ServeHTTPWithUpstream timeout m1 r x = Some (m2, effs2, res) →
    Some (m2, (ManagerEffect <$> effs1) ++ effs2, res) = Some (m', effs, Aborted u sent deadline status declared) →
    sent = outgoing r ∧ dials effs = [u] ∧ RoundTrip u sent deadline = BrokenOff status declared) as Hup.
  { intros m1 m2 x effs1 effs2 res [Hd Hres]%ServeHTTPWithUpstream_dials [= <- <- ->].
    destruct Hres as (->&->&?). by rewrite dials_app, dials_manager, Hd. }
  unfold serve, proxyTCPRoute, proxyHTTPRoute, tcp_ServeHTTP, http_ServeHTTP.
  destruct (authenticate _ _) as [|token]; [done|]. destruct (registerRoutes r) as [e|]; [|case_decide; [done|]];
    (destruct (negb (token_permits token _)); [done|]);
    destruct (Select _ _ _ _) as [[[[m1 effs1] [x|]] []]|]; simpl; try done.
  - destruct (Forward x).
    + destruct (ServeHTTPWithUpstream _ _ _ _) as [[[m2 e2] res]|] eqn:Hs; simpl; [|done]. by eapply Hup.
    + destruct (dialUpstream _ _) as [[[m2 e2] []]|]; simpl; [|done..]. by destruct (UpgradeOk r).
  - destruct (ServeHTTPWithUpstream _ _ _ _) as [[[m2 e2] res]|] eqn:Hs; simpl; [|done]. by eapply Hup.
Qed.

(** What selecting can return, whatever the cluster counts. *)
Lemma Select_gen c ptr m e allow :
  manager_counts c m →
  ∃ m' effs u ok, Select ptr m e allow = Some (m', effs, u, ok) ∧ manager_counts c m' ∧
    (∀ e', connected m' e' = connected m e') ∧
    ((ok = false ∧ u = None ∧ connected m e = []) ∨
     (ok = true ∧ ∃ x, u = Some x ∧ EndpointID x = e ∧
        (x ∈ connected m e ∨ (allow = true ∧ connected m e = [] ∧ ∃ n, LookupEndpoint (m_cluster m) e = Some n ∧ x = NodeUpstream ptr e n)))).
Proof.
  intros Hm. destruct (localUpstreams m !! e) as [lb|] eqn:Hl.
  - destruct (Select_local c ptr m e allow lb Hm Hl) as (m'&u&Hsel&Hin&Hm'&Hsame&_).
    eexists m', _, _, _. split; [exact Hsel|]. split_and!; [done|done|].
    right. split; [done|]. exists u. split_and!; [done|exact (connected_endpoint c m e u Hm Hin)|by left].
  - pose proof (proj2 (connected_None c m e Hm) Hl) as Hnil. unfold Select. rewrite Hl.
    destruct allow; simpl; [destruct (LookupEndpoint (m_cluster m) e) as [n|]|].
    + eexists m, _, _, _. split_and!; [done|done|done|]. right. split; [done|]. eexists. split_and!; [done|done|].
      right. eauto.
    + eexists m, _, _, _. split_and!; [done|done|done|]. by left.
    + eexists m, _, _, _. split_and!; [done|done|done|]. by left.
Qed.

(** What selecting can return, for a well-formed manager. *)
Lemma Select_cases ptr m e allow :
  manager_wf m →
  ∃ m' effs u ok, Select ptr m e allow = Some (m', effs, u, ok) ∧ manager_wf m' ∧
    (∀ e', connected m' e' = connected m e') ∧
    ((ok = false ∧ u = None ∧ connected m e = []) ∨
     (ok = true ∧ ∃ x, u = Some x ∧ EndpointID x = e ∧
        (x ∈ connected m e ∨ (allow = true ∧ connected m e = [] ∧ ∃ n, LookupEndpoint (m_cluster m) e = Some n ∧ x = NodeUpstream ptr e n)))).
Proof.
  intros Hm. destruct (Select_gen _ ptr m e allow Hm) as (m'&effs&u&ok&Hsel&Hm'&Hsame&Hcase).
  exists m', effs, u, ok. split_and!; [done| |done|done].
  eapply manager_counts_ext; [|exact Hm']. intros e'. by rewrite Hsame.
Qed.
End lemmas.

Section properties.
Context `{MapIter, ProxyEnv}.

(** What either proxy does for an endpoint: it selects at most one upstream of
    that endpoint, dials only that one, and a marked request only a local one. *)
Definition proxied (m : manager) (r : request) (e : string) (effs : list proxy_effect) (res : proxy_result) : Prop :=
  (dials effs = [] ∧ connected m e = [] ∧ status_of res = Some StatusBadGateway) ∨
  ∃ u, dials effs = [u] ∧ EndpointID u = e ∧
    (u ∈ connected m e ∨ (forwarded r = false ∧ connected m e = [] ∧
       ∃ ptr n, LookupEndpoint (m_cluster m) e = Some n ∧ u = NodeUpstream ptr e n)) ∧
    match res with
    | Respond resp => resp_status resp = StatusBadGateway ∨ resp_status resp = StatusGatewayTimeout
    | Relayed u' sent _ _ => u' = u ∧ sent = outgoing r
    | Aborted u' sent deadline status declared =>
        u' = u ∧ sent = outgoing r ∧ RoundTrip u' sent deadline = BrokenOff status declared
    | UpgradeFailed u' | Tunnel u' => u' = u ∧ Forward u = false
    end.

(** Nodes are reached over the network, so a dial of one is never [ErrGone]. *)
Definition nodes_not_gone : Prop := ∀ u, Forward u = true → Dial u ≠ DialFailed ErrGone.

Lemma Select_dialable m ptr e allow u :
  EndpointID u = e →
  u ∈ connected m e ∨ (allow = true ∧ connected m e = [] ∧
    ∃ n, LookupEndpoint (m_cluster m) e = Some n ∧ u = NodeUpstream ptr e n) →
  nodes_not_gone → u ∈ connected m (EndpointID u) ∨ Forward u = true ∧ Dial u ≠ DialFailed ErrGone.
Proof.
  intros He [Hu|(_&_&n&_&->)] Hgone; [left; by rewrite He|right]. split; [done|]. by apply Hgone.
Qed.

Lemma room_same m m' : (∀ e, connected m' e = connected m e) → manager_room m → manager_room m'.
Proof. intros Hsame Hroom e. rewrite Hsame. apply Hroom. Qed.

Lemma http_ServeHTTP_ok timeout ptr m r e :
  manager_wf m → manager_room m → nodes_not_gone →
  ∃ m' effs res, http_ServeHTTP timeout ptr m r e = Some (m', effs, res) ∧ manager_wf m' ∧ proxied m r e effs res.
Proof.
  intros Hm Hroom Hgone. unfold http_ServeHTTP.
  destruct (Select_cases ptr m e (negb (forwarded r)) Hm) as (m1&effs1&u&ok&->&Hm1&Hsame&Hcase). simpl.
  destruct Hcase as [(->&->&Hnil)|(->&x&->&He&Hx)]; simpl.
  { eexists _, _, _. split; [done|]. split; [done|]. left. by rewrite dials_manager. }
  assert (x ∈ connected m1 (EndpointID x) ∨ Forward x = true ∧ Dial x ≠ DialFailed ErrGone) as Hdial.
  { rewrite Hsame. by eapply Select_dialable. }
  destruct (dialUpstream_total m1 x Hm1 (room_same _ _ Hsame Hroom) Hdial) as (m2&effs2&Hd&Hm2&_).
  unfold ServeHTTPWithUpstream. rewrite Hd. simpl. eexists _, _, _. split; [done|]. split; [done|].
  right. exists x. rewrite dials_app, dials_manager, (dialUpstream_dials _ _ _ _ _ Hd). split_and!; [done|done|..].
  - destruct Hx as [|(Hf&Hnil&n&Hn&->)]; [by left|]. right. rewrite negb_true_iff in Hf. eauto 10.
  - destruct (Dial x) as [|[]|]; simpl; auto. destruct (RoundTrip _ _ _) eqn:Hrt; simpl; auto.
Qed.

Lemma tcp_ServeHTTP_ok timeout ptr m r e :
  manager_wf m → manager_room m → nodes_not_gone →
  ∃ m' effs res, tcp_ServeHTTP timeout ptr m r e = Some (m', effs, res) ∧ manager_wf m' ∧ proxied m r e effs res.
Proof.
  intros Hm Hroom Hgone. unfold tcp_ServeHTTP.
  destruct (Select_cases ptr m e (negb (forwarded r)) Hm) as (m1&effs1&u&ok&->&Hm1&Hsame&Hcase). simpl.
  destruct Hcase as [(->&->&Hnil)|(->&x&->&He&Hx)]; simpl.
  { eexists _, _, _. split; [done|]. split; [done|]. left. by rewrite dials_manager. }
  assert (x ∈ connected m1 (EndpointID x) ∨ Forward x = true ∧ Dial x ≠ DialFailed ErrGone) as Hdial.
  { rewrite Hsame. by eapply Select_dialable. }
  destruct (dialUpstream_total m1 x Hm1 (room_same _ _ Hsame Hroom) Hdial) as (m2&effs2&Hd&Hm2&_).
  assert (x ∈ connected m e ∨ forwarded r = false ∧ connected m e = [] ∧
    ∃ ptr n, LookupEndpoint (m_cluster m) e = Some n ∧ x = NodeUpstream ptr e n) as Hx'.
  { destruct Hx as [|(Hf&Hnil&n&Hn&->)]; [by left|]. right. rewrite negb_true_iff in Hf. eauto 10. }
  unfold ServeHTTPWithUpstream. rewrite Hd.
  destruct (Forward x) eqn:Hfw; simpl; eexists _, _, _; (split; [done|]); (split; [done|]); right; exists x;
    rewrite dials_app, dials_manager, (dialUpstream_dials _ _ _ _ _ Hd); (split_and!; [done|done|done|]).
  - destruct (Dial x) as [|[]|]; simpl; auto. destruct (RoundTrip _ _ _) eqn:Hrt; simpl; auto.
  - destruct (Dial x) as [|[]|]; simpl; auto. by destruct (UpgradeOk r).
Qed.

(** *** The proxy's requests *)

Lemma outgoing_route r : registerRoutes (outgoing r) = registerRoutes r.
Proof. done. Qed.

Lemma outgoing_header r name :
  ToLower name ∉ ToLower <$> hopHeaders → ToLower name ∉ ToLower <$> connection_tokens (r_Header r) →
  ToLower name ≠ "x-piko-forward" → header_Get (r_Header (outgoing r)) name = header_Get (r_Header r) name.
Proof.
  intros Hhop Hcon Hne. cbn [outgoing r_Header]. rewrite header_Get_proxy; [|done|].
  - rewrite header_Get_Set. rewrite decide_False; [done|]. intros Heq. apply Hne. by rewrite <-Heq.
  - unfold connection_tokens, header_Values, header_Set in *. rewrite filter_cons, decide_False by done.
    rewrite list_filter_filter_l; [done|]. intros p Hp Hp'. rewrite Hp in Hp'. done.
Qed.

Lemma connection_tokens_marked h : connection_tokens (header_Set h "x-piko-forward" "true") = connection_tokens h.
Proof.
  unfold connection_tokens, header_Values, header_Set. rewrite filter_cons, decide_False by done.
  rewrite list_filter_filter_l; [done|]. intros p Hp Hp'. rewrite Hp in Hp'. done.
Qed.

Lemma outgoing_forwarded r :
  "x-piko-forward" ∉ ToLower <$> connection_tokens (r_Header r) → forwarded (outgoing r) = true.
Proof.
  intros Hcon. unfold forwarded. apply bool_decide_eq_true. cbn [outgoing r_Header]. rewrite header_Get_proxy.
  - by rewrite header_Get_Set, decide_True.
  - apply (bool_decide_unpack _). by vm_compute.
  - by rewrite connection_tokens_marked.
Qed.

Lemma outgoing_target r :
  "x-piko-endpoint" ∉ ToLower <$> connection_tokens (r_Header r) → target (outgoing r) = target r.
Proof.
  intros Hcon. unfold target. rewrite outgoing_route. destruct (registerRoutes r); [done|].
  unfold EndpointIDFromRequest.
  rewrite outgoing_header; [done|apply (bool_decide_unpack _); by vm_compute|done|done].
Qed.

(** ** Properties *)

(** C14. The proxy enforces the token's scope: over a well-formed manager with
    room, when no dial of another node is [ErrGone], serving a request
    dereferences no nil and leaves the manager well-formed, and the request
    either dials nothing and is answered by the proxy (unauthenticated, not
    permitted, without an endpoint), or its target is not empty, its token,
    when there is a verifier, is accepted and permits the target, and at most
    one upstream is dialed, one of that endpoint: connected locally, or a node
    of the cluster when none is and the request is not marked as forwarded.
    The handler panics ([Aborted]) only as the reverse proxy does when the
    response of that upstream breaks off. *)
Theorem proxy_enforces_scope verifier timeout ptr m r :
  manager_wf m → manager_room m → nodes_not_gone →
  ∃ m' effs res, serve verifier timeout ptr m r = Some (m', effs, res) ∧ manager_wf m' ∧
    ((m' = m ∧ refused effs res) ∨
     (target r ≠ "" ∧
      (∀ v, verifier = Some v → ∃ t, authenticate (Some v) (r_Header r) = inr (Some t) ∧
         EndpointPermitted t (target r) = true) ∧
      proxied m r (target r) effs res)).
Proof.
  intros Hm Hroom Hgone. unfold serve, target.
  destruct (authenticate verifier (r_Header r)) as [resp|token] eqn:Ha.
  { eexists _, _, _. split; [done|]. split; [done|]. left. split; [done|]. split; [done|]. eexists. split; [done|].
    apply authenticate_status in Ha as [-> | ->]; set_solver. }
  assert (∀ e, token_permits token e = true → ∀ v, verifier = Some v → ∃ t,
    authenticate (Some v) (r_Header r) = inr (Some t) ∧ EndpointPermitted t e = true) as Htok.
  { intros e He v ->. destruct token as [t|]; [by exists t|]. by apply authenticate_token in Ha. }
  assert (refused [] (Respond (unauthorized "endpoint not permitted"))) as Hdeny.
  { split; [done|]. eexists. split; [done|]. set_solver. }
  destruct (registerRoutes r) as [e|] eqn:Hroute.
  - unfold proxyTCPRoute. destruct (token_permits token e) eqn:Hp; simpl.
    + destruct (tcp_ServeHTTP_ok timeout ptr m r e Hm Hroom Hgone) as (m'&effs&res&->&Hm'&Hpr).
      eexists _, _, _. split; [done|]. split; [done|]. right. split_and!; [|by apply Htok|done].
      unfold registerRoutes in Hroute. case_decide as Hr; [|done]. injection Hroute as <-. apply Hr.
    + eexists _, _, _. split; [done|]. split; [done|]. by left.
  - unfold proxyHTTPRoute. case_decide as He.
    { eexists _, _, _. split; [done|]. split; [done|]. left. split; [done|]. split; [done|].
      eexists. split; [done|]. set_solver. }
    destruct (token_permits token (EndpointIDFromRequest r)) eqn:Hp; simpl.
    + destruct (http_ServeHTTP_ok timeout ptr m r (EndpointIDFromRequest r) Hm Hroom Hgone) as (m'&effs&res&->&Hm'&Hpr).
      eexists _, _, _. split; [done|]. split; [done|]. right. split_and!; [done|by apply Htok|done].
    + eexists _, _, _. split; [done|]. split; [done|]. by left.
Qed.

(** Requests make one hop: unless the client lists the proxy's headers in
    its [Connection] header, the request the proxy sends to an upstream is
    marked as forwarded and has the same target, so the node that receives it
    dials only its own upstreams of that endpoint. *)
Theorem forwarded_request_served_locally verifier timeout ptr m r m' effs res u :
  "x-piko-forward" ∉ ToLower <$> connection_tokens (r_Header r) →
  "x-piko-endpoint" ∉ ToLower <$> connection_tokens (r_Header r) →
  manager_wf m → manager_room m → nodes_not_gone →
  serve verifier timeout ptr m (outgoing r) = Some (m', effs, res) → u ∈ dials effs →
  u ∈ connected m (target r).
Proof.
  intros Hfwd Hend Hm Hroom Hgone Hserve Hu.
  pose proof (outgoing_forwarded r Hfwd) as Hmark. pose proof (outgoing_target r Hend) as Ht.
  assert (∀ e effs res, proxied m (outgoing r) e effs res → u ∈ dials effs → u ∈ connected m e) as Hpr.
  { intros e effs0 res0 [(->&_)|(x&->&_&Hx&_)] Hin; [by apply not_elem_of_nil in Hin|].
    apply list_elem_of_singleton in Hin as ->. destruct Hx as [|(Hf&_)]; [done|]. by rewrite Hmark in Hf. }
  unfold serve in Hserve. destruct (authenticate _ _) as [resp|token].
  { injection Hserve as <- <- <-. by apply not_elem_of_nil in Hu. }
  rewrite <-Ht. unfold target. destruct (registerRoutes (outgoing r)) as [e|].
  - unfold proxyTCPRoute in Hserve. destruct (token_permits token e); simpl in Hserve.
    + destruct (tcp_ServeHTTP_ok timeout ptr m (outgoing r) e Hm Hroom Hgone) as (m1&effs1&res1&Hs&_&Hp).
      rewrite Hs in Hserve. injection Hserve as <- <- <-. by eapply Hpr.
    + injection Hserve as <- <- <-. by apply not_elem_of_nil in Hu.
  - unfold proxyHTTPRoute in Hserve. case_decide; [injection Hserve as <- <- <-; by apply not_elem_of_nil in Hu|].
    destruct (token_permits token _); simpl in Hserve.
    + destruct (http_ServeHTTP_ok timeout ptr m (outgoing r) (EndpointIDFromRequest (outgoing r)) Hm Hroom Hgone)
        as (m1&effs1&res1&Hs&_&Hp).
      rewrite Hs in Hserve. injection Hserve as <- <- <-. by eapply Hpr.
    + injection Hserve as <- <- <-. by apply not_elem_of_nil in Hu.
Qed.

(** A token that names a hostname permits the endpoint requests for that
    hostname reach: the endpoint of a request that has no endpoint header is the
    endpoint ID the verifier reads from its host. *)
Theorem hostname_claim_names_endpoint r :
  header_Get (r_Header r) "x-piko-endpoint" = "" → EndpointIDFromRequest r ≠ "" →
  EndpointIDFromRequest r =
    endpointIDFromClaim (match SplitHostPort (r_Host r) with Some (host, _) => host | None => r_Host r end).
Proof.
  intros Hh. unfold EndpointIDFromRequest. rewrite Hh, decide_False by (intros []; done).
  set (host := match SplitHostPort (r_Host r) with Some (h, _) => h | None => r_Host r end).
  case_decide; [done|]. destruct (ParseIP host); [done|].
  destruct (Contains host ".") eqn:Hc; [|done]. apply Contains_Cut in Hc as [[a b] Hcut].
  rewrite (Split_Cut_Some _ _ _ _ Hcut). unfold endpointIDFromClaim. rewrite Hcut. intros Ha.
  by rewrite decide_False.
Qed.
End properties.

(** ** Witnesses *)

#[local] Existing Instance canonical_iter.

(** An environment where dialing and exchanging always work. *)
Definition ex_env : ProxyEnv := {| Dial _ := Dialed; RoundTrip _ _ _ := Response 200; UpgradeOk _ := true |}.

#[local] Existing Instance ex_env.

Definition ex_request (h : header) : request := mkRequest "GET" "a.example.com:8000" "/index.html" h.

(** The local node has an upstream for the endpoint [a]. *)
Lemma proxy_enforces_scope_witness :
  ∃ m' effs res, serve None 0 9 ex_manager (ex_request []) = Some (m', effs, res) ∧ manager_wf m' ∧ dials effs = [ex_u1].
Proof.
  destruct (proxy_enforces_scope None 0 9 ex_manager (ex_request []) (proj1 ex_manager_wf) (proj2 ex_manager_wf))
    as (m'&effs&res&Hs&Hm'&_).
  - intros u _. discriminate.
  - exists m', effs, res. split; [exact Hs|]. split; [exact Hm'|].
    vm_compute in Hs. injection Hs as <- <- <-. vm_compute. reflexivity.
Defined.

Lemma forwarded_request_served_locally_witness :
  ∃ m' effs res, serve None 0 9 ex_manager (outgoing (ex_request [])) = Some (m', effs, res) ∧
    ex_u1 ∈ dials effs ∧ ex_u1 ∈ connected ex_manager "a".
Proof.
  destruct (serve None 0 9 ex_manager (outgoing (ex_request []))) as [[[m' effs] res]|] eqn:Hs; [|vm_compute in Hs; discriminate].
  exists m', effs, res. split; [reflexivity|].
  assert (ex_u1 ∈ dials effs) as Hu.
  { vm_compute in Hs. injection Hs as <- <- <-. apply (bool_decide_unpack _). vm_compute. exact I. }
  split; [exact Hu|].
  apply (forwarded_request_served_locally None 0 9 ex_manager (ex_request []) m' effs res ex_u1).
  - apply (bool_decide_unpack _). vm_compute. exact I.
  - apply (bool_decide_unpack _). vm_compute. exact I.
  - exact (proj1 ex_manager_wf).
  - exact (proj2 ex_manager_wf).
  - intros u _. discriminate.
  - exact Hs.
  - exact Hu.
Defined.

Lemma hostname_claim_names_endpoint_witness : endpointIDFromClaim "a.example.com" = EndpointIDFromRequest (ex_request []).
Proof.
  symmetry. apply (hostname_claim_names_endpoint (ex_request [])); [vm_compute; reflexivity|vm_compute; discriminate].
Defined.

(** The mark can be stripped: a client that lists the proxy's header in its
    [Connection] header makes the reverse proxy remove it, so the node that
    receives the request forwards it to another node. *)
Theorem forward_mark_strippable :
  ∃ m r m' effs res, serve None 0 9 m (outgoing r) = Some (m', effs, res) ∧
    ∃ n, dials effs = [NodeUpstream 9 (target r) n].
Proof.
  exists (NewLoadBalancedManager ex_cluster),
    (mkRequest "GET" "a.example.com" "/" [("Connection", "x-piko-forward")]).
  eexists _, _, _. split; [vm_compute; reflexivity|]. eexists. vm_compute. reflexivity.
Qed.
