(* ===== verification/PikoProxy.v ===== *)
(** * Requests through a network of Piko nodes

    The proxies of the nodes of [PikoNet]: a request that a node forwards is
    served by the proxy of the node it dials, on that node's manager.  A
    request sees the network as it is when it is served.  What happens to it in
    every reachable network, and that from every reachable network whose nodes
    are linked every endpoint can come to be reached through every node. *)

From S2P Require Import Prelude GoLib GossipState GossipReplica GossipMembership FailureDetector Protocol GossipExchange GossipNet Cluster Syncer Advertise SyncerGossip Upstream PikoNet PikoSync PikoRouting NetLib HttpLib Auth Proxy.

(** ** The environment *)

(** The network between the proxies and to the upstreams, for each node: the
    node whose proxy listens at an address, the result of dialing an upstream's
    session or an address, the upstream's answer, whether the deadline of a
    forwarded request passes before the other node's answer, and whether that
    answer breaks off on the way, declaring its length or not. *)
Class Fabric := {
  ListensAt : string → option string;
  DialConn : string → upstream → dial_outcome;
  DialNode : string → string → dial_outcome;
  Answer : string → upstream → request → option Z → round_trip;
  Slow : string → request → Z → bool;
  Breaks : string → request → option bool;
  UpgradesOk : string → request → bool;
  UpgradeError : nat;
}.

(** What a node's proxy is configured with. *)
Record proxy_conf := mkProxyConf {
  pc_verifier : option MultiTenantVerifier;
  pc_timeout : Z;
}.

Definition StatusSwitchingProtocols : nat := 101.

(** ** Definitions *)

Section fabric.
Context `{MapIter, Fabric} (pconf : string → proxy_conf) (ptr : nat).

(** The response that a node forwarding the request gets for its result.  The
    recovery middleware ends the panic for a response that broke off, so the
    server ends that response as if it were whole: only when its length was
    declared is the connection closed. *)
Definition response_to (res : proxy_result) : round_trip :=
  match res with
  | Respond resp => Response (resp_status resp)
  | Relayed _ _ _ status => Response status
  | Aborted _ _ _ status declared => if declared then BrokenOff status true else Response status
  | Tunnel _ => Response StatusSwitchingProtocols
  | UpgradeFailed _ => Response UpgradeError
  end.

(** A nil that is dereferenced is a panic the recovery answers with a 500. *)
Definition answer (res : option (manager * list proxy_effect * proxy_result)) : round_trip :=
  match res with
  | None => Response StatusInternalServerError
  | Some (_, _, res) => response_to res
  end.

(** Whether the deadline passes. *)
Definition late (a : string) (r : request) (deadline : option Z) : bool :=
  match deadline with None => false | Some t => Slow a r t end.

(** What node [a] gets of the other node's answer. *)
Definition arrives (a : string) (r : request) (deadline : option Z) (res : round_trip) : round_trip :=
  if late a r deadline then RoundTripDeadline
  else match Breaks a r, res with Some declared, Response status => BrokenOff status declared | _, _ => res end.

(** The environment of the proxy of node [a], for requests of at most [hops]
    hops: the transport dials the upstream the proxy selected, a session of an
    agent or the proxy address of another node, which serves what it is sent. *)
Fixpoint node_env (hops : nat) (P : piko_net) (a : string) : ProxyEnv := {|
  Dial u :=
    match u with
    | ConnUpstream _ _ _ _ _ => DialConn a u
    | NodeUpstream _ _ node => DialNode a (cn_ProxyAddr node)
    end;
  RoundTrip u r deadline :=
    match u with
    | ConnUpstream _ _ _ _ _ => Answer a u r deadline
    | NodeUpstream _ _ node =>
        match hops, ListensAt (cn_ProxyAddr node) with
        | S hops', Some x =>
            match pk_nodes P !! x with
            | Some nx =>
                arrives a r deadline
                  (answer (@serve _ (node_env hops' P x) (pc_verifier (pconf x)) (pc_timeout (pconf x)) ptr (pn_manager nx) r))
            | None => RoundTripFailed
            end
        | _, _ => RoundTripFailed
        end
    end;
  UpgradeOk := UpgradesOk a;
|}.

(** A request to the proxy of node [a]. *)
Definition serve_at (hops : nat) (P : piko_net) (a : string) (r : request) :
    option (manager * list proxy_effect * proxy_result) :=
  n ← pk_nodes P !! a;
  @serve _ (node_env hops P a) (pc_verifier (pconf a)) (pc_timeout (pconf a)) ptr (pn_manager n) r.

(** ** Specification *)

(** The upstreams whose sessions are dialed for a request, each with its node. *)
Fixpoint reached (hops : nat) (P : piko_net) (a : string) (r : request) : list (string * upstream) :=
  match serve_at hops P a r with
  | None => []
  | Some (_, effs, _) =>
      dials effs ≫= λ u,
        match u with
        | ConnUpstream _ _ _ _ _ => [(a, u)]
        | NodeUpstream _ _ node =>
            match hops, ListensAt (cn_ProxyAddr node) with
            | S hops', Some x => reached hops' P x (outgoing r)
            | _, _ => []
            end
        end
  end.

(** The proxy of node [a] accepts the request's credentials for its target. *)
Definition admits (a : string) (r : request) : Prop :=
  ∃ token, authenticate (pc_verifier (pconf a)) (r_Header r) = inr token ∧ token_permits token (target r) = true.

(** The client lists none of the headers the proxies read in [Connection]. *)
Definition read_headers : list string :=
  ["x-piko-forward"; "x-piko-endpoint"; "x-piko-authorization"; "authorization"; "x-piko-tenant-id"].

Definition clean (r : request) : Prop :=
  ∀ name, name ∈ read_headers → name ∉ ToLower <$> connection_tokens (r_Header r).

Definition request_deadline (timeout : Z) (r : request) : option Z :=
  if decide (timeout ≠ 0%Z ∧ header_Get (r_Header r) "upgrade" ≠ "websocket") then Some timeout else None.

(** What the client gets of an exchange with [u]. *)
Definition relay (u : upstream) (r : request) (deadline : option Z) (res : round_trip) : proxy_result :=
  match res with
  | Response status => Relayed u (outgoing r) deadline status
  | BrokenOff status declared => Aborted u (outgoing r) deadline status declared
  | RoundTripDeadline => errorHandler true
  | RoundTripFailed => errorHandler false
  end.

(** Node [x] hands the request to its upstream [u], which was dialed. *)
Definition handed (x : string) (u : upstream) (r : request) : proxy_result :=
  match registerRoutes r with
  | RouteTCP _ => if UpgradesOk x r then Tunnel u else UpgradeFailed u
  | RouteHTTP =>
      let deadline := request_deadline (pc_timeout (pconf x)) r in
      relay u r deadline (Answer x u (outgoing r) deadline)
  end.
End fabric.

(** ** Lemmas *)

(** *** One proxy *)

Section one.
Context `{MapIter, ProxyEnv}.

(** Serving an admitted request is proxying it for its target. *)
Lemma serve_admitted verifier timeout ptr m r token :
  authenticate verifier (r_Header r) = inr token → token_permits token (target r) = true → target r ≠ "" →
  serve verifier timeout ptr m r =
    match registerRoutes r with
    | RouteTCP e => tcp_ServeHTTP timeout ptr m r e
    | RouteHTTP => http_ServeHTTP timeout ptr m r (EndpointIDFromRequest r)
    end.
Proof.
  unfold serve, target. intros -> Hp Ht. unfold proxyTCPRoute, proxyHTTPRoute.
  destruct (registerRoutes r); [by rewrite Hp|]. by rewrite decide_False, Hp.
Qed.

Lemma serve_refused verifier timeout ptr m r :
  (∃ token, authenticate verifier (r_Header r) = inr token ∧ token_permits token (target r) = true) ∧ target r ≠ "" ∨
  ∃ resp, serve verifier timeout ptr m r = Some (m, [], Respond resp).
Proof.
  unfold serve, target. destruct (authenticate verifier (r_Header r)) as [resp|token]; [by right; eexists|].
  unfold proxyTCPRoute, proxyHTTPRoute. destruct (registerRoutes r) as [e|] eqn:Hr.
  - destruct (token_permits token e) eqn:Hp; [left|by right; eexists]. split; [by exists token|].
    unfold registerRoutes in Hr. case_decide as He; [|done]. injection Hr as <-. apply He.
  - case_decide; [by right; eexists|]. destruct (token_permits token _) eqn:Hp; [left|by right; eexists]. eauto.
Qed.

(** What becomes of a request whose upstream was dialed with result [d]. *)
Definition outcome (timeout : Z) (u : upstream) (r : request) (d : dial_outcome) : proxy_result :=
  match registerRoutes r, Forward u, d with
  | RouteTCP _, false, Dialed => if UpgradeOk r then Tunnel u else UpgradeFailed u
  | RouteTCP _, false, _ => errorResponse StatusBadGateway "upstream unreachable"
  | _, _, DialFailed _ => errorHandler false
  | _, _, DialDeadline => errorHandler true
  | _, _, Dialed =>
      let deadline := request_deadline timeout r in
      relay u r deadline (RoundTrip u (outgoing r) deadline)
  end.

(** Removing an upstream that was selected never panics. *)
Lemma dialUpstream_some c m u :
  manager_counts c m → count_room c → u ∈ connected m (EndpointID u) ∨ connected m (EndpointID u) = [] →
  ∃ m' effs, dialUpstream m u = Some (m', effs, Dial u).
Proof.
  intros Hm Hroom Hu. unfold dialUpstream. destruct (Dial u) as [|[]|]; [by eauto| |by eauto..].
  destruct Hu as [Hu|Hnil].
  - destruct (RemoveConn_gen c m u Hm Hroom Hu) as (m'&effs&?&?&->&_). simpl. eauto.
  - apply (connected_None c) in Hnil; [|done]. unfold RemoveConn. rewrite Hnil. simpl. eauto.
Qed.

Lemma ServeHTTPWithUpstream_outcome timeout m r u m' effs :
  dialUpstream m u = Some (m', effs, Dial u) → registerRoutes r = RouteHTTP ∨ Forward u = true →
  ServeHTTPWithUpstream timeout m r u = Some (m', effs, outcome timeout u r (Dial u)).
Proof.
  unfold ServeHTTPWithUpstream, outcome. intros -> Hr. simpl. do 2 f_equal. fold (request_deadline timeout r).
  destruct (registerRoutes r), (Forward u), (Dial u); try done; by destruct Hr.
Qed.

(** An admitted request is answered: without an upstream to dial, or with one
    of its target, a connected one or a node for a request that is not marked. *)
Lemma serve_select c verifier timeout ptr m r token :
  manager_counts c m → count_room c →
  authenticate verifier (r_Header r) = inr token → token_permits token (target r) = true → target r ≠ "" →
  ∃ m1 effs1 ou ok, Select ptr m (target r) (negb (forwarded r)) = Some (m1, effs1, ou, ok) ∧
    (∀ e, connected m1 e = connected m e) ∧
    ((ou = None ∧ connected m (target r) = [] ∧
      serve verifier timeout ptr m r =
        Some (m1, ManagerEffect <$> effs1, errorResponse StatusBadGateway "no available upstreams")) ∨
     ∃ u m2 effs2, ou = Some u ∧ ok = true ∧ EndpointID u = target r ∧
       (u ∈ connected m (target r) ∨
        forwarded r = false ∧ connected m (target r) = [] ∧
          ∃ n, LookupEndpoint (m_cluster m) (target r) = Some n ∧ u = NodeUpstream ptr (target r) n) ∧
       dialUpstream m1 u = Some (m2, effs2, Dial u) ∧
       serve verifier timeout ptr m r = Some (m2, (ManagerEffect <$> effs1) ++ effs2, outcome timeout u r (Dial u))).
Proof.
  intros Hm Hroom Ha Hp Ht. rewrite (serve_admitted _ _ _ _ _ _ Ha Hp Ht).
  destruct (Select_gen c ptr m (target r) (negb (forwarded r)) Hm) as (m1&effs1&ou&ok&Hsel&Hm1&Hsame&Hcase).
  exists m1, effs1, ou, ok. split_and!; [done..|].
  unfold http_ServeHTTP, tcp_ServeHTTP, target in *.
  destruct Hcase as [(->&->&Hnil)|(->&u&->&He&Hu)].
  { left. split_and!; [done|done|]. destruct (registerRoutes r); by rewrite Hsel. }
  right. destruct (dialUpstream_some c m1 u Hm1 Hroom) as (m2&effs2&Hd).
  { rewrite Hsame, He. destruct Hu as [|(_&?&_)]; auto. }
  exists u, m2, effs2. split_and!; [done|done|done| |done|].
  { destruct Hu as [|(Hf&?&?)]; [by left|right]. by rewrite negb_true_iff in Hf. }
  pose proof (ServeHTTPWithUpstream_outcome timeout m1 r u _ _ Hd) as Hserve.
  destruct (registerRoutes r) eqn:Hr; rewrite Hsel; simpl.
  - destruct (Forward u) eqn:Hf; [by rewrite Hserve by auto|]. rewrite Hd. simpl. unfold outcome.
    rewrite Hr, Hf. by destruct (Dial u).
  - by rewrite Hserve by auto.
Qed.
End one.

(** A response without a declared length that breaks off at the node that was
    forwarded the request reaches the other as if it were whole. *)
Lemma broken_response_passes `{Fabric} u sent deadline status :
  response_to (Aborted u sent deadline status false) = response_to (Relayed u sent deadline status).
Proof. done. Qed.

(** *** The requests the proxies send *)

Lemma clean_header r name :
  clean r → ToLower name ∈ read_headers → ToLower name ∉ ToLower <$> hopHeaders → ToLower name ≠ "x-piko-forward" →
  header_Get (r_Header (outgoing r)) name = header_Get (r_Header r) name.
Proof. intros Hc Hin Hhop Hne. apply outgoing_header; [done|by apply Hc|done]. Qed.

Lemma clean_forwarded r : clean r → forwarded (outgoing r) = true.
Proof. intros Hc. apply outgoing_forwarded, Hc. by left. Qed.

Lemma clean_target r : clean r → target (outgoing r) = target r.
Proof. intros Hc. apply outgoing_target, Hc. right. by left. Qed.

Lemma clean_authenticate v r : clean r → authenticate v (r_Header (outgoing r)) = authenticate v (r_Header r).
Proof.
  intros Hc. unfold authenticate, middleware_Verify, parseToken, parseTenant.
  by rewrite !(clean_header r) by (done || by apply (bool_decide_unpack _); vm_compute).
Qed.

Lemma clean_admits pconf a r : clean r → admits pconf a (outgoing r) ↔ admits pconf a r.
Proof. intros Hc. unfold admits. by rewrite clean_authenticate, clean_target. Qed.

(** *** The connections of the nodes *)

Definition conns_only (m : manager) : Prop := ∀ e u, u ∈ connected m e → Forward u = false.

Lemma AddConn_connected `{MapIter} m u m' effs e x :
  AddConn m u = Some (m', effs) → x ∈ connected m' e → x ∈ connected m e ∨ x = u.
Proof.
  unfold AddConn, connected. destruct (localUpstreams m !! EndpointID u) as [lb|] eqn:Hl;
    destruct (AddLocalEndpoint _ _) as [[c ce]|]; [|done| |done]; intros [= <- _]; simpl;
    (destruct (decide (e = EndpointID u)) as [->|He]; [rewrite lookup_insert_eq|rewrite lookup_insert_ne by done; by left]);
    simpl; rewrite ?Hl; set_solver.
Qed.

Lemma remove_ptr_subset u l l' x : remove_ptr u l = Some l' → x ∈ l' → x ∈ l.
Proof.
  revert l'. induction l as [|y l IH]; intros l'; simpl; [done|]. case_decide; [intros [= <-]; by right|].
  destruct (remove_ptr u l) as [l1|]; [|done]. intros [= <-] [->|Hx]%elem_of_cons; [by left|right; by eapply IH].
Qed.

Lemma RemoveConn_connected `{MapIter} m u m' effs e x :
  RemoveConn m u = Some (m', effs) → x ∈ connected m' e → x ∈ connected m e.
Proof.
  unfold RemoveConn, connected. destruct (localUpstreams m !! EndpointID u) as [lb|] eqn:Hl; [|by intros [= <- _]].
  assert (∀ y, y ∈ upstreams (lb_Remove lb u).1 → y ∈ upstreams lb) as Hsub.
  { intros y. unfold lb_Remove. destruct (remove_ptr u (upstreams lb)) as [[|z l']|] eqn:Hr; simpl; [set_solver| |done].
    by apply remove_ptr_subset with u. }
  destruct (lb_Remove lb u) as [lb' empty]. simpl in Hsub.
  destruct empty; destruct (RemoveLocalEndpoint _ _) as [[c ce]|]; [|done| |done]; intros [= <- _]; simpl;
    (destruct (decide (e = EndpointID u)) as [->|He]; [|by rewrite ?lookup_delete_ne, ?lookup_insert_ne]).
  - rewrite lookup_delete_eq. set_solver.
  - rewrite lookup_insert_eq, Hl. apply Hsub.
Qed.

Lemma Select_connected `{MapIter} ptr m e allow m' effs u ok e' :
  Select ptr m e allow = Some (m', effs, u, ok) → connected m' e' = connected m e'.
Proof.
  unfold Select, connected. destruct (localUpstreams m !! e) as [lb|] eqn:Hl.
  - destruct (lb_Next lb) as [[lb' u']|] eqn:Hn; simpl; [|done]. intros [= <- _ _ _]. simpl.
    rewrite lookup_insert. case_decide; [subst; rewrite Hl|done].
    unfold lb_Next in Hn. destruct (upstreams lb) as [|y l] eqn:Hu; [by simplify_eq|].
    destruct ((y :: l) !! nextIndex lb); simpl in Hn; [|done]. by injection Hn as <- _.
  - destruct (negb allow); [by intros [= <- _ _ _]|]. by destruct (LookupEndpoint _ _); intros [= <- _ _ _].
Qed.

Section network.
Context `{MapIter, DetectorLaws D} (conf : string → node_conf).
Context (conf_ok : ∀ x, nc_proxy (conf x) ≠ "" ∧ nc_admin (conf x) ≠ "").

Definition net_conns (P : piko_net) : Prop := ∀ a n, pk_nodes P !! a = Some n → conns_only (pn_manager n).

Lemma net_conns_set P a n :
  net_conns P → conns_only (pn_manager n) → net_conns (set_piko a n P).
Proof using.
  intros HP Hn b nb. simpl. rewrite lookup_insert. case_decide; [by intros [= <-]|apply HP].
Qed.

(** Only sessions are connected. *)
Lemma step_conns P P' : net_conns P → piko_step conf P P' → net_conns P'.
Proof using.
  intros HP Hstep. destruct Hstep as
    [id n P Hid Hnew|a n u r P Hn Hu Hfwd Hnin Hr Hroom|a n u r P Hn Hu Hin Hr|a n ptr e allow m effs u ok P Hn Hu Hsel
    |a n e cs k P Hn Hu Hread|a n c cs k r P Hn Hu Hroom Hcall|a n k P Hn Hu|a n op r P Hn Hop Hroom Hrun
    |a b n dg P Hn Hdg|a b n dl P Hn Hdl|a b n dg full dl P Hn Hm n1 Ht|a b n now dl P Hn Hm Hnow
    |b n now d thr s' d' effs P Hn Hnow Hlive]; try (apply net_conns_set; [done|]); try exact (HP _ _ Hn); try done.
  - unfold new_piko in Hnew. destruct (Sync _) as [[s cs]|]; simpl in Hnew; [|done].
    destruct (gossip_calls _ _); simpl in Hnew; [|done]. injection Hnew as <-. intros e u Hu. by apply not_elem_of_nil in Hu.
  - intros e x Hx. destruct r as [m effs]. destruct (AddConn_connected _ _ _ _ _ _ Hr Hx) as [Hold| ->]; [|done].
    by eapply (HP a n).
  - intros e x Hx. destruct r as [m effs]. eapply (HP a n Hn). by eapply RemoveConn_connected.
  - intros e0 x. simpl. rewrite (Select_connected _ _ _ _ _ _ _ _ _ Hsel). by apply (HP a n).
Qed.

Lemma reachable_conns P : piko_reachable conf P → net_conns P.
Proof using.
  revert P. apply rtc_ind_r; [done|]. intros P1 P2 _ Hstep HP. by eapply step_conns.
Qed.

(** What the proxy needs of a node's manager. *)
Lemma reachable_counts P a n :
  piko_reachable conf P → pk_nodes P !! a = Some n →
  ∃ c, manager_counts c (pn_manager n) ∧ count_room c.
Proof using conf_ok H1.
  intros HP%piko_reachable_inv Hn; [|done]. pose proof (ni_owner _ _ _ (pi_node _ _ HP _ _ Hn)) as Ho.
  destruct (oi_counts _ _ _ Ho) as (c&Hc&Hle&_). exists c. split; [done|]. by eapply room_counts, Hle; apply Ho.
Qed.
End network.

(** The environment matters only for the upstream that may be selected. *)
Lemma serve_ext `{MapIter} (E1 E2 : ProxyEnv) c verifier timeout ptr m r :
  manager_counts c m → count_room c →
  (∀ u, @Dial E1 u = @Dial E2 u) → @UpgradeOk E1 r = @UpgradeOk E2 r →
  (∀ u d, u ∈ connected m (target r) ∨ forwarded r = false → @RoundTrip E1 u (outgoing r) d = @RoundTrip E2 u (outgoing r) d) →
  @serve _ E1 verifier timeout ptr m r = @serve _ E2 verifier timeout ptr m r.
Proof.
  intros Hm Hroom Hdial Hup Hrt.
  destruct (authenticate verifier (r_Header r)) as [resp|token] eqn:Ha; [unfold serve; by rewrite Ha|].
  destruct (token_permits token (target r)) eqn:Hp.
  2:{ unfold serve, target, proxyTCPRoute, proxyHTTPRoute in *. rewrite Ha. destruct (registerRoutes r); by rewrite Hp. }
  destruct (decide (target r = "")) as [Ht|Ht].
  { unfold serve, target in *. rewrite Ha. destruct (registerRoutes r) eqn:Hr.
    - unfold registerRoutes in Hr. case_decide as He; [|done]. injection Hr as <-. by destruct He as (_&_&?&_).
    - unfold proxyHTTPRoute. by rewrite !decide_True. }
  destruct (@serve_select _ E1 c verifier timeout ptr m r token Hm Hroom Ha Hp Ht) as (m1&e1&ou&ok&Hsel&Hsame&H1).
  destruct (@serve_select _ E2 c verifier timeout ptr m r token Hm Hroom Ha Hp Ht) as (m1'&e1'&ou'&ok'&Hsel'&_&H2).
  rewrite Hsel in Hsel'. injection Hsel' as <- <- <- <-.
  destruct H1 as [(->&_&->)|(u&m2&e2&->&->&_&Hu&Hd&->)], H2 as [(Ho&_&->)|(u'&m2'&e2'&Ho&_&_&_&Hd'&->)]; try done.
  injection Ho as <-. unfold dialUpstream in Hd, Hd'. rewrite <-Hdial, Hd in Hd'. injection Hd' as <- <-.
  unfold outcome. rewrite <-Hdial, Hup, Hrt; [done|]. destruct Hu as [|(?&_)]; auto.
Qed.

Section proxies.
Context `{MapIter, DetectorLaws D, Fabric} (conf : string → node_conf) (pconf : string → proxy_conf) (ptr : nat).
Context (conf_ok : ∀ x, nc_proxy (conf x) ≠ "" ∧ nc_admin (conf x) ≠ "").

Lemma node_env_Dial h P a u :
  @Dial (node_env pconf ptr h P a) u =
    match u with
    | ConnUpstream _ _ _ _ _ => DialConn a u
    | NodeUpstream _ _ node => DialNode a (cn_ProxyAddr node)
    end.
Proof using. by destruct h. Qed.

Lemma node_env_conn h P a u r d : Forward u = false → @RoundTrip (node_env pconf ptr h P a) u r d = Answer a u r d.
Proof using. by destruct h, u. Qed.

(** A marked request goes no further. *)
Lemma marked_hops h1 h2 P x nx r :
  piko_reachable conf P → pk_nodes P !! x = Some nx → forwarded r = true →
  serve_at pconf ptr h1 P x r = serve_at pconf ptr h2 P x r.
Proof using conf_ok H1.
  intros HP Hx Hf. unfold serve_at. rewrite Hx. simpl.
  destruct (reachable_counts conf conf_ok P x nx HP Hx) as (c&Hc&Hroom).
  apply (serve_ext _ _ c); [done|done|intros u; by rewrite !node_env_Dial|by destruct h1, h2|].
  intros u d [Hu|?]; [|congruence]. by rewrite !node_env_conn by by eapply (reachable_conns conf P HP).
Qed.

(** A client's request makes at most one hop. *)
Lemma clean_hops h1 h2 P a n r :
  piko_reachable conf P → pk_nodes P !! a = Some n → clean r →
  serve_at pconf ptr (S h1) P a r = serve_at pconf ptr (S h2) P a r.
Proof using conf_ok H1.
  intros HP Ha Hr. unfold serve_at. rewrite Ha. simpl.
  destruct (reachable_counts conf conf_ok P a n HP Ha) as (c&Hc&Hroom).
  apply (serve_ext _ _ c); [done|done|done|done|]. intros u d _. simpl. destruct u as [|p e node]; [done|].
  destruct (ListensAt (cn_ProxyAddr node)) as [x|]; [|done]. destruct (pk_nodes P !! x) as [nx|] eqn:Hx; [|done].
  apply (f_equal (λ res, arrives a (outgoing r) d (answer res))).
  pose proof (marked_hops h1 h2 P x nx (outgoing r) HP Hx (clean_forwarded r Hr)) as Hm.
  unfold serve_at in Hm. by rewrite Hx in Hm.
Qed.

(** What a proxy does to its manager are steps of the network, and it always
    answers. *)
Lemma serve_steps h P a n r :
  piko_reachable conf P → pk_nodes P !! a = Some n →
  ∃ m effs res, serve_at pconf ptr h P a r = Some (m, effs, res) ∧
    (pn_update n = [] → ∃ n', rtc (piko_step conf) P (set_piko a n' P) ∧ pn_manager n' = m).
Proof using conf_ok H1.
  intros HP Ha. unfold serve_at. rewrite Ha. simpl.
  destruct (reachable_counts conf conf_ok P a n HP Ha) as (c&Hc&Hroom).
  assert (∃ n', rtc (piko_step conf) P (set_piko a n' P) ∧ pn_manager n' = pn_manager n) as Hrefl.
  { exists n. rewrite set_piko_id by done. by split. }
  set (E := node_env pconf ptr h P a).
  destruct (@serve_refused _ E (pc_verifier (pconf a)) (pc_timeout (pconf a)) ptr (pn_manager n) r)
    as [[(token&Hau&Hp) Ht]|(resp&->)]; [|by eauto 10].
  destruct (@serve_select _ E c _ (pc_timeout (pconf a)) ptr _ r token Hc Hroom Hau Hp Ht)
    as (m1&e1&ou&ok&Hsel&Hsame&Hcase).
  assert (pn_update n = [] → piko_step conf P (set_piko a (with_manager n m1) P)) as Hstep.
  { intros Hu. by eapply pk_select. }
  destruct Hcase as [(->&_&->)|(u&m2&e2&->&->&He&Hu&Hd&->)].
  { eexists _, _, _. split; [done|]. intros Hup. exists (with_manager n m1). split; [by apply rtc_once, Hstep|done]. }
  eexists _, _, _. split; [done|]. intros Hup. unfold dialUpstream in Hd.
  assert (m2 = m1 ∨ ∃ effs, RemoveConn m1 u = Some (m2, effs)) as [->|[effs Hrem]].
  { destruct (Dial u) as [|[]|]; [by left; simplify_eq| |by left; simplify_eq..].
    destruct (RemoveConn m1 u) as [[m3 e3]|]; simpl in Hd; [|done]. right. exists e3. by simplify_eq. }
  { exists (with_manager n m1). split; [by apply rtc_once, Hstep|done]. }
  exists (change_manager (with_manager n m1) (m2, effs)). split; [|done].
  eapply rtc_l; [by apply Hstep|]. apply rtc_once. rewrite <-(set_piko_twice a (with_manager n m1) (change_manager (with_manager n m1) (m2, effs)) P).
  apply (pk_remove conf a _ u); [by apply lookup_insert_eq|done| |done].
  simpl. rewrite !Hsame, He. destruct Hu as [|(_&->&_)]; [by left|right; apply not_elem_of_nil].
Qed.

(** A node with a connected upstream, which can be dialed, hands it the request. *)
Lemma serve_handed h P x nx r m effs u :
  piko_reachable conf P → pk_nodes P !! x = Some nx → admits pconf x r → target r ≠ "" →
  Select ptr (pn_manager nx) (target r) (negb (forwarded r)) = Some (m, effs, Some u, true) →
  u ∈ connected (pn_manager nx) (target r) → DialConn x u = Dialed →
  ∃ m' effs', serve_at pconf ptr h P x r = Some (m', effs', handed pconf x u r).
Proof using conf_ok H1.
  intros HP Hx (token&Hau&Hp) Ht Hsel Hu Hd. unfold serve_at. rewrite Hx. simpl.
  destruct (reachable_counts conf conf_ok P x nx HP Hx) as (c&Hc&Hroom).
  pose proof (reachable_conns conf P HP _ _ Hx _ _ Hu) as Hf.
  destruct (@serve_select _ (node_env pconf ptr h P x) c _ (pc_timeout (pconf x)) ptr _ r token Hc Hroom Hau Hp Ht)
    as (m1&e1&ou&ok&Hsel'&_&Hcase).
  rewrite Hsel in Hsel'. injection Hsel' as <- <- <- <-. destruct Hcase as [[? _]|(u'&m2&e2&[= <-]&_&_&_&_&->)]; [done|].
  eexists _, _. f_equal. f_equal. unfold outcome, handed. rewrite node_env_Dial, Hf, node_env_conn by done.
  destruct u; [|done]. rewrite Hd. destruct (registerRoutes r); [|done]. by destruct h.
Qed.

(** A node that selects another, which can be dialed, relays what it answers. *)
Lemma serve_relayed h P a n x nx r m effs node :
  piko_reachable conf P → pk_nodes P !! a = Some n → admits pconf a r → target r ≠ "" →
  Select ptr (pn_manager n) (target r) (negb (forwarded r)) = Some (m, effs, Some (NodeUpstream ptr (target r) node), true) →
  DialNode a (cn_ProxyAddr node) = Dialed → ListensAt (cn_ProxyAddr node) = Some x → pk_nodes P !! x = Some nx →
  let deadline := request_deadline (pc_timeout (pconf a)) r in
  ∃ m' effs', serve_at pconf ptr (S h) P a r =
    Some (m', effs', relay (NodeUpstream ptr (target r) node) r deadline
      (arrives a (outgoing r) deadline (answer (serve_at pconf ptr h P x (outgoing r))))).
Proof using conf_ok H1.
  intros HP Ha (token&Hau&Hp) Ht Hsel Hd Hl Hx deadline. unfold serve_at at 1. rewrite Ha. cbn [mbind option_bind].
  destruct (reachable_counts conf conf_ok P a n HP Ha) as (c&Hc&Hroom).
  destruct (@serve_select _ (node_env pconf ptr (S h) P a) c _ (pc_timeout (pconf a)) ptr _ r token Hc Hroom Hau Hp Ht)
    as (m1&e1&ou&ok&Hsel'&_&Hcase).
  rewrite Hsel in Hsel'. injection Hsel' as <- <- <- <-. destruct Hcase as [[? _]|(u'&m2&e2&[= <-]&_&_&_&_&->)]; [done|].
  eexists _, _. f_equal. f_equal. unfold outcome. rewrite node_env_Dial, Hd. unfold serve_at. rewrite Hx.
  cbn [Forward mbind option_bind]. fold deadline. cbn [node_env RoundTrip]. rewrite Hl, Hx.
  by destruct (registerRoutes r).
Qed.

(** The upstreams dialed for a request, one hop at a time. *)
Lemma reached_cases h P a n r :
  piko_reachable conf P → pk_nodes P !! a = Some n →
  reached pconf ptr h P a r = [] ∨
  admits pconf a r ∧
  ((∃ u, reached pconf ptr h P a r = [(a, u)] ∧ u ∈ connected (pn_manager n) (target r)) ∨
   (forwarded r = false ∧ ∃ h' x, h = S h' ∧ reached pconf ptr h P a r = reached pconf ptr h' P x (outgoing r))).
Proof using conf_ok H1.
  intros HP Ha. destruct (reachable_counts conf conf_ok P a n HP Ha) as (c&Hc&Hroom).
  assert (reached pconf ptr h P a r =
    match @serve _ (node_env pconf ptr h P a) (pc_verifier (pconf a)) (pc_timeout (pconf a)) ptr (pn_manager n) r with
    | None => []
    | Some (_, effs, _) =>
        dials effs ≫= λ u,
          match u with
          | ConnUpstream _ _ _ _ _ => [(a, u)]
          | NodeUpstream _ _ node =>
              match h, ListensAt (cn_ProxyAddr node) with
              | S h', Some x => reached pconf ptr h' P x (outgoing r)
              | _, _ => []
              end
          end
    end) as ->.
  { destruct h; simpl; unfold serve_at; rewrite Ha; done. }
  destruct (@serve_refused _ (node_env pconf ptr h P a) (pc_verifier (pconf a)) (pc_timeout (pconf a)) ptr (pn_manager n) r)
    as [[(token&Hau&Hp) Ht]|(resp&->)]; [|by left].
  destruct (@serve_select _ (node_env pconf ptr h P a) c _ (pc_timeout (pconf a)) ptr _ r token Hc Hroom Hau Hp Ht)
    as (m1&e1&ou&ok&_&_&[(_&_&->)|(u&m2&e2&_&_&_&Hu&Hd%dialUpstream_dials&->)]); [left; by rewrite dials_manager|].
  rewrite dials_app, dials_manager, Hd, app_nil_l, bind_singleton.
  destruct Hu as [Hu|(Hf&_&node&_&->)].
  - pose proof (reachable_conns conf P HP _ _ Ha _ _ Hu) as Hf. destruct u as [|]; [|done].
    right. split; [by exists token|]. left. by eexists.
  - destruct h as [|h']; [by left|]. destruct (ListensAt _) as [x|]; [|by left].
    right. split; [by exists token|]. right. split; [done|]. by exists h', x.
Qed.
End proxies.

(** ** Properties *)

(** C5. Requests are answered and make at most one hop: in every reachable
    network of nodes, whatever the fabric does, the proxy of a node serves
    every request whose client does not list the proxies' headers in its
    [Connection] header without dereferencing a nil, with a result that does
    not depend on how many hops are allowed once one is; its handler panics
    ([Aborted], which the recovery ends) only when the response of the one
    upstream it dialed broke off; and what serving does to the node's manager
    is steps of the network. *)
Theorem requests_answered `{MapIter, DetectorLaws D, Fabric} conf pconf ptr P a n r :
  (∀ x, nc_proxy (conf x) ≠ "" ∧ nc_admin (conf x) ≠ "") →
  piko_reachable conf P → pk_nodes P !! a = Some n → clean r →
  ∃ m effs res, (∀ hops, serve_at pconf ptr (S hops) P a r = Some (m, effs, res) ∧
    ∀ u sent deadline status declared, res = Aborted u sent deadline status declared →
      dials effs = [u] ∧ @RoundTrip (node_env pconf ptr (S hops) P a) u sent deadline = BrokenOff status declared) ∧
    (pn_update n = [] → ∃ n', rtc (piko_step conf) P (set_piko a n' P) ∧ pn_manager n' = m).
Proof.
  intros Hconf HP Ha Hr. destruct (serve_steps conf pconf ptr Hconf 1 P a n r HP Ha) as (m&effs&res&Hs&Hsteps).
  exists m, effs, res. split; [|done]. intros hops.
  rewrite (clean_hops conf pconf ptr Hconf hops 0 P a n r HP Ha Hr). split; [done|].
  intros u sent deadline status declared ->.
  rewrite <-(clean_hops conf pconf ptr Hconf hops 0 P a n r HP Ha Hr) in Hs. unfold serve_at in Hs. rewrite Ha in Hs.
  by apply (@serve_aborted _ (node_env pconf ptr (S hops) P a)) in Hs as (_&?&?).
Qed.

(** C4. Requests are isolated: in every reachable network of nodes, whatever the
    fabric does, the request of a client that does not list the proxies'
    headers in its [Connection] header ([clean]) reaches at most one upstream,
    which is connected, for the endpoint the request names, to the node the
    request was sent to or to one more node, and each of the nodes has accepted
    the request's credentials for that endpoint. *)
Theorem requests_isolated `{MapIter, DetectorLaws D, Fabric} conf pconf ptr hops P a r :
  (∀ x, nc_proxy (conf x) ≠ "" ∧ nc_admin (conf x) ≠ "") → piko_reachable conf P → clean r →
  length (reached pconf ptr hops P a r) ≤ 1 ∧
  ∀ x u, (x, u) ∈ reached pconf ptr hops P a r →
    (∃ nx, pk_nodes P !! x = Some nx ∧ u ∈ connected (pn_manager nx) (target r)) ∧
    admits pconf a r ∧ admits pconf x r ∧ (x ≠ a → forwarded r = false).
Proof.
  intros Hconf HP Hr. assert (∀ h b q, pk_nodes P !! b = None → reached pconf ptr h P b q = []) as Hnone.
  { intros h b q Hb. destruct h; simpl; unfold serve_at; by rewrite Hb. }
  assert (∀ l : list (string * upstream), l = [] → length l ≤ 1 ∧ ∀ x u, (x, u) ∈ l → False) as Hnil.
  { intros l ->. split; [simpl; lia|]. intros x u Hin. by apply not_elem_of_nil in Hin. }
  destruct (pk_nodes P !! a) as [n|] eqn:Ha.
  2:{ destruct (Hnil _ (Hnone hops a r Ha)). split; [done|]. intros x u Hin. exfalso. eauto. }
  destruct (reached_cases conf pconf ptr Hconf hops P a n r HP Ha)
    as [He|[Had [(u&->&Hu)|(Hf&h'&x&->&->)]]].
  { destruct (Hnil _ He). split; [done|]. intros x u Hin. exfalso. eauto. }
  { split; [done|]. intros x u' [= -> ->]%list_elem_of_singleton. split_and!; [by exists n|done|done|done]. }
  destruct (pk_nodes P !! x) as [nx|] eqn:Hx.
  2:{ destruct (Hnil _ (Hnone h' x (outgoing r) Hx)). split; [done|]. intros y u Hin. exfalso. eauto. }
  destruct (reached_cases conf pconf ptr Hconf h' P x nx (outgoing r) HP Hx)
    as [He|[Hadx [(u&->&Hu)|(Hf'&_)]]].
  { destruct (Hnil _ He). split; [done|]. intros y u Hin. exfalso. eauto. }
  2:{ by rewrite clean_forwarded in Hf'. }
  rewrite clean_admits in Hadx by done. rewrite clean_target in Hu by done.
  split; [done|]. intros y u' [= -> ->]%list_elem_of_singleton.
  split_and!; [by exists nx|done|done|done].
Qed.

(** C3. Endpoints are reached: from every reachable network whose nodes that have
    not left are linked by having met, and have heard of those that left, there
    are steps that change no upstream, in which digests go to nodes their
    sender knows and deltas answer digests, in packets that hold them whole,
    and after which, for every endpoint that a node that has not left listens
    on, a client's request for it to any such node is handed to an upstream
    connected for it, by that node or by the one it forwards to, when both can
    be dialed; the client gets what the upstream answers, or the timeout of the
    first node, or as much as arrives of an answer that breaks off.  The
    request is clean, not marked as forwarded and admitted by the nodes, whose
    proxies listen at their own addresses; the nodes have room for the versions
    of the updates that are going on, and a failure detector at the time [now]
    suspects nobody. *)
Theorem requests_reach_upstreams `{MapIter, DetectorLaws D, Fabric} conf pconf ptr P now thr calm (d : D) :
  (∀ x, nc_proxy (conf x) ≠ "" ∧ nc_admin (conf x) ≠ "") → piko_reachable conf P →
  linked P → heard_leaving P →
  (∀ a n, pk_nodes P !! a = Some n → has_room (pn_gossip n)) → (0 ≤ now)%Z → calm d →
  (∀ d id, calm d → ∃ lvl d', SuspicionLevel d id now = Some (lvl, d') ∧ flt thr lvl = false ∧ calm d') →
  (∀ x, is_Some (pk_nodes P !! x) → ListensAt (nc_proxy (conf x)) = Some x) →
  ∃ P', rtc (known_step conf) P P' ∧ same_net P P' ∧
    ∀ a n b nb l r,
      pk_nodes P' !! a = Some n → pk_nodes P' !! b = Some nb → ¬ left_at P a → ¬ left_at P b →
      LocalEndpointListeners (m_cluster (pn_manager nb)) (target r) = Some l → (0 < l)%Z →
      clean r → forwarded r = false → target r ≠ "" → (∀ x, is_Some (pk_nodes P !! x) → admits pconf x r) →
      ∃ x nx u, pk_nodes P' !! x = Some nx ∧ u ∈ connected (pn_manager nx) (target r) ∧
        (DialConn x u = Dialed → DialNode a (nc_proxy (conf x)) = Dialed → ∀ hops, ∃ m effs res,
          serve_at pconf ptr (S hops) P' a r = Some (m, effs, res) ∧
          (x = a ∧ res = handed pconf a u r ∨
           x ≠ a ∧ ∃ node, cn_ID node = x ∧
             let deadline := request_deadline (pc_timeout (pconf a)) r in
             res = relay (NodeUpstream ptr (target r) node) r deadline
               (arrives a (outgoing r) deadline (response_to (handed pconf x u (outgoing r)))))).
Proof.
  intros Hconf HP Hlinked Hheard Hroom Hnow Hd Hcalm Hlisten. pose proof (reachable_sound conf Hconf P HP Hheard) as HPs.
  destruct (catch_up conf Hconf now thr calm d P Hnow Hcalm Hd HPs Hlinked Hroom) as (P'&Hr&Hs&Hh&Hsync&Hdone).
  assert (piko_reachable conf P') as HP' by (unfold piko_reachable in *; etrans; [exact HP|by apply known_steps]).
  assert (∀ x nx, pk_nodes P' !! x = Some nx → is_Some (pk_nodes P !! x)) as Hdom.
  { intros x nx Hx. destruct (same_net_Some_r _ _ _ _ Hs Hx) as (?&?&_). by eexists. }
  exists P'. split_and!; [done|done|]. intros a n b nb l r Ha Hb Hal Hleft Hl Hpos Hclean Hfwd Ht Had.
  pose proof (piko_reachable_inv conf Hconf P' HP') as Hinv'.
  destruct (caught_up_routes conf Hconf P' a n b nb (target r) l ptr) as (m&effs&v&Hsel&Hv); try done.
  { by intros ?%(left_same _ _ _ Hs). }
  { by intros ?%(left_same _ _ _ Hs). }
  destruct Hv as [Hv|(node&nx&->&Hne&Hx&Haddr&Hcon)].
  { exists a, n, v. split_and!; [done|done|]. intros Hdial _ hops.
    destruct (serve_handed conf pconf ptr Hconf (S hops) P' a n r m effs v) as (m'&effs'&Hserve);
      [done|done|by eapply Had, Hdom|done|by rewrite Hfwd|done|done|]. eexists _, _, _. split; [done|]. by left. }
  destruct (select_connected conf nx (cn_ID node) ptr (target r) false) as (mx&effsx&u&Hselx&Hu);
    [by apply (pi_node _ _ Hinv')|done|].
  exists (cn_ID node), nx, u. split_and!; [done|done|]. intros Hdial Hdn hops.
  destruct (serve_handed conf pconf ptr Hconf hops P' (cn_ID node) nx (outgoing r) mx effsx u)
    as (m2&effs2&Hx2); [done|done|apply clean_admits; [done|by eapply Had, Hdom]|by rewrite clean_target| | |done|].
  { by rewrite clean_target, clean_forwarded. }
  { by rewrite clean_target. }
  specialize (Haddr false). simpl in Haddr. injection Haddr as Haddr. rewrite <-Haddr in Hdn.
  destruct (serve_relayed conf pconf ptr Hconf hops P' a n (cn_ID node) nx r m effs node) as (m1&effs1&->);
    [done|done|by eapply Had, Hdom|done|by rewrite Hfwd|done|rewrite Haddr; by eapply Hlisten, Hdom|done|].
  eexists _, _, _. split; [done|]. right. split; [done|]. exists node. split; [done|]. by rewrite Hx2.
Qed.

(** ** Witnesses *)

#[local] Existing Instance canonical_iter.

(** Every dial succeeds and the upstreams answer 200. *)
#[local] Instance ex_fabric : Fabric := {|
  ListensAt addr := fst <$> Cut addr ":";
  DialConn _ _ := Dialed;
  DialNode _ _ := Dialed;
  Answer _ _ _ _ := Response 200;
  Slow _ _ _ := false;
  Breaks _ _ := None;
  UpgradesOk _ _ := true;
  UpgradeError := StatusBadRequest;
|}.

Definition ex_pconf (id : string) : proxy_conf := mkProxyConf None (30 * Second).

Definition ex_web_request : request := mkRequest "GET" "web.example.com" "/" [].

Lemma ex_clean : clean ex_web_request.
Proof. intros name _. by apply not_elem_of_nil. Qed.

(** [a] has no upstream for [web]: [b] answers. *)
Lemma requests_answered_witness :
  ∃ m effs u deadline, serve_at ex_pconf 7 1 ex_told "a" ex_web_request =
    Some (m, effs, Relayed u (outgoing ex_web_request) deadline 200).
Proof.
  destruct (requests_answered ex_conf ex_pconf 7 ex_told "a" ex_a1 ex_web_request ex_conf_ok ex_told_reachable)
    as (m&effs&res&Hs&_); [by vm_compute|exact ex_clean|].
  destruct (Hs 0) as [Hs0 _]. rewrite Hs0. clear Hs. rename Hs0 into Hs. vm_compute in Hs. injection Hs as <- <- <-. eexists _, _, _, _. reflexivity.
Defined.

Lemma requests_isolated_witness :
  reached ex_pconf 7 1 ex_told "a" ex_web_request = [("b", ex_web)] ∧
  ∃ nx, pk_nodes ex_told !! "b" = Some nx ∧ ex_web ∈ connected (pn_manager nx) "web".
Proof.
  assert (reached ex_pconf 7 1 ex_told "a" ex_web_request = [("b", ex_web)]) as Heq by (vm_compute; reflexivity).
  split; [exact Heq|].
  destruct (requests_isolated ex_conf ex_pconf 7 1 ex_told "a" ex_web_request ex_conf_ok ex_told_reachable ex_clean)
    as [_ Hin].
  rewrite Heq in Hin. exact (proj1 (Hin "b" ex_web ltac:(left))).
Defined.

Lemma requests_reach_upstreams_witness :
  ∃ P' m effs res, rtc (known_step (D:=accrualFailureDetector) ex_conf) ex_joined P' ∧
    serve_at ex_pconf 7 1 P' "a" ex_web_request = Some (m, effs, res) ∧
    ∃ v sent deadline, res = Relayed v sent deadline 200.
Proof.
  destruct (requests_reach_upstreams ex_conf ex_pconf 7 ex_joined 1000 ex_threshold ex_calm
    (newAccrualFailureDetector Second 50) ex_conf_ok ex_joined_reachable ex_joined_linked ex_joined_heard ex_joined_room)
    as (P'&Hr&Hs&Hreach).
  - done.
  - by split_and!.
  - apply ex_calm_level.
  - by intros x [n [[-> _]|[-> _]]%ex_joined_nodes]; vm_compute.
  - destruct (same_net_Some _ _ "a" ex_a0 Hs ltac:(by vm_compute)) as (na&Hna&_).
    destruct (same_net_Some _ _ "b" ex_b1 Hs ltac:(by vm_compute)) as (nb&Hnb&[_ [El En _] _]).
    destruct (Hreach "a" na "b" nb 1%Z ex_web_request Hna Hnb) as (x&nx&u&_&_&Hserve).
    + apply ex_joined_left.
    + apply ex_joined_left.
    + unfold LocalEndpointListeners. rewrite El, En. by vm_compute.
    + done.
    + exact ex_clean.
    + by vm_compute.
    + by vm_compute.
    + intros y _. by exists None.
    + destruct (Hserve eq_refl eq_refl 0) as (m&effs&res&Hs'&Hres). exists P', m, effs, res. split_and!; [exact Hr|exact Hs'|].
      destruct Hres as [[_ ->]|(_&node&_&->)].
      * eexists _, _, _. reflexivity.
      * eexists _, _, _. reflexivity.
Defined.
