(* ===== verification/Transport.v ===== *)
(** * pkg/yamuxconn and pkg/websocket: the transport of the connections

    [yamux_conn] sends the header and the body of a yamux data frame in one
    write; [ws_conn] reads a stream of bytes out of WebSocket messages; [ws_Dial]
    opens a connection and says whether a failure may be retried.  The
    connection underneath, gorilla's WebSocket connection and its dialer are
    parameters. *)

From Stdlib Require Import Strings.Byte.
From S2P Require Import Prelude GoLib NetLib Protocol HttpLib.

(** ** yamuxconn *)

Definition headerSize : nat := 12.
Definition typeData : byte := x00.

Record yamux_conn := mkYamuxConn {
  pending : bytes;
  buf : bytes;
}.

Definition yamux_New : yamux_conn := mkYamuxConn [] [].

(** [binary.BigEndian.Uint32] *)
Definition BigEndian_Uint32 (b : bytes) : N :=
  foldl (λ n x, (n * 256 + Byte.to_N x)%N) 0%N (take 4 b).

Definition isDataHeader (b : bytes) : bool :=
  bool_decide (length b = headerSize ∧ b !! 1 = Some typeData ∧
    (0 < BigEndian_Uint32 (take 4 (drop 8 b)))%N).

Section yamux.
(** What [Write] of the connection underneath returns: the bytes written and
    an error. *)
Context {E : Type} (Conn_Write : bytes → nat * option E).

(** [Conn.Write]: the connection after it, the writes underneath, and the
    result. *)
Definition yamux_Write (c : yamux_conn) (b : bytes) : yamux_conn * list bytes * (nat * option E) :=
  if decide (length (pending c) = 0) then
    if isDataHeader b then (mkYamuxConn (pending c ++ b) (buf c), [], (length b, None))
    else (c, [b], Conn_Write b)
  else
    let out := pending c ++ b in
    let c' := mkYamuxConn [] out in
    match Conn_Write out with
    | (_, Some err) => (c', [out], (0, Some err))
    | (_, None) => (c', [out], (length b, None))
    end.

Fixpoint yamux_writes (c : yamux_conn) (l : list bytes) :
    yamux_conn * list bytes * list (nat * option E) :=
  match l with
  | [] => (c, [], [])
  | b :: l' =>
      let '(c1, out1, r1) := yamux_Write c b in
      let '(c2, out2, rs) := yamux_writes c1 l' in
      (c2, out1 ++ out2, r1 :: rs)
  end.

End yamux.

(** A frame as yamux writes it: the header, then the body of a data frame that
    has one. *)
Record frame := mkFrame { f_header : bytes; f_body : bytes }.

Definition frame_ok (f : frame) : Prop :=
  isDataHeader (f_header f) = negb (bool_decide (f_body f = [])).

Definition frame_writes (f : frame) : list bytes :=
  if decide (f_body f = []) then [f_header f] else [f_header f; f_body f].

(** ** websocket.Conn *)

Definition BinaryMessage : Z := 2.

(** An error of the connection: the peer closed it, the end of a message, or
    another one. *)
Inductive ws_error := CloseError | MessageEOF | OtherError.

Inductive conn_error := ErrNetClosed | ErrUnexpectedMessage (mt : Z) | ErrConn (e : ws_error).

(** gorilla's connection: the next message, reading the current one, writing a
    message, and closing. *)
Class WebSocket (W : Type) := {
  NextReader : W → W * (ws_error + Z);
  ReadMessage : W → nat → W * bytes * option ws_error;
  WriteMessage : W → Z → bytes → W * option ws_error;
}.

Record ws_conn (W : Type) := mkWsConn {
  wsConn : W;
  reader : bool;
}.
Arguments mkWsConn {W} _ _.
Arguments wsConn {W} _.
Arguments reader {W} _.

Section websocket.
Context `{WebSocket W}.

Definition ws_New (w : W) : ws_conn W := mkWsConn w false.

Definition closed_error (e : ws_error) : conn_error :=
  match e with CloseError => ErrNetClosed | _ => ErrConn e end.

(** The part of an iteration of [Conn.Read] after it has a reader: [inl] goes
    around the loop. *)
Definition ws_read_reader (w : W) (n : nat) : ws_conn W + ws_conn W * bytes * option conn_error :=
  let '(w1, b, err) := ReadMessage w n in
  if decide (0 < length b) then
    match err with
    | None => inr (mkWsConn w1 true, b, None)
    | Some MessageEOF => inr (mkWsConn w1 false, b, None)
    | Some e => inr (mkWsConn w1 false, b, Some (ErrConn e))
    end
  else
    match err with
    | None => inr (mkWsConn w1 true, [], None)
    | Some MessageEOF => inl (mkWsConn w1 false)
    | Some e => inr (mkWsConn w1 true, [], Some (closed_error e))
    end.

(** [Conn.Read] into a buffer of [n] bytes. *)
Fixpoint ws_Read (fuel : nat) (c : ws_conn W) (n : nat) : option (ws_conn W * bytes * option conn_error) :=
  match fuel with
  | 0 => None
  | S fuel' =>
      let next :=
        if reader c then inr (wsConn c)
        else
          match NextReader (wsConn c) with
          | (w1, inl e) => inl (mkWsConn w1 false, [], Some (closed_error e))
          | (w1, inr mt) =>
              if decide (mt ≠ BinaryMessage) then inl (mkWsConn w1 false, [], Some (ErrUnexpectedMessage mt))
              else inr w1
          end in
      match next with
      | inl res => Some res
      | inr w =>
          match ws_read_reader w n with
          | inl c' => ws_Read fuel' c' n
          | inr res => Some res
          end
      end
  end.

(** [Conn.Write] *)
Definition ws_Write (c : ws_conn W) (b : bytes) : ws_conn W * (nat * option conn_error) :=
  let '(w1, err) := WriteMessage (wsConn c) BinaryMessage b in
  (mkWsConn w1 (reader c),
   match err with
   | None => (length b, None)
   | Some e => (0, Some (closed_error e))
   end).

End websocket.

(** gorilla's documented behaviour for a connection that is closed after some
    messages: a message is read in parts, in order, until its end. *)
Class WebSocketLaws (W : Type) `{WebSocket W} := {
  current : W → bytes;
  messages : W → list (Z * bytes);
  next_message w mt m ms :
    messages w = (mt, m) :: ms → ∃ w', NextReader w = (w', inr mt) ∧ current w' = m ∧ messages w' = ms;
  next_close w : messages w = [] → ∃ w', NextReader w = (w', inl CloseError) ∧ messages w' = [];
  read_part w n :
    let '(w', b, err) := ReadMessage w n in
    length b ≤ n ∧ current w = b ++ current w' ∧ messages w' = messages w ∧
    (err = None ∧ (0 < n → b ≠ []) ∨ err = Some MessageEOF ∧ current w' = []);
}.

(** ** Dialing *)

Record dialOptions := mkDialOptions {
  do_token : string;
  do_tenantID : string;
  do_compression : bool;
}.

(** A handshake that failed: with no response, or with a status and the error
    message of its JSON body, when it has one. *)
Inductive handshake := Upgraded | NoResponse (err : string) | Refused (status : nat) (err : string) (message : option string).

Inductive dial_result := DialConnected | DialRetryable (err : string) | DialError (err : string).

Definition retryableStatusCodes : list nat := [408; 429; 500; 502; 503; 504].

Definition dial_header (o : dialOptions) : header :=
  let h := if decide (do_token o ≠ "") then header_Set [] "Authorization" ("Bearer " +:+ do_token o) else [] in
  if decide (do_tenantID o ≠ "") then header_Set h "x-piko-tenant-id" (do_tenantID o) else h.

(** A [url.URL]; the query is kept decoded. *)
Record URL := mkURL {
  Scheme : string;
  Host : string;
  Path : string;
  RawQuery : list (string * string);
}.

(** [websocket.Dial]: [DialContext] is gorilla's handshake with a URL, a header
    and compression offered or not. *)
Definition ws_Dial (DialContext : URL → header → bool → handshake) (u : URL) (o : dialOptions) : dial_result :=
  match DialContext u (dial_header o) (do_compression o) with
  | Upgraded => DialConnected
  | NoResponse err => DialRetryable err
  | Refused status err message =>
      let err' := Itoa (Z.of_nat status) +:+ ": " +:+ default err message in
      if decide (status ∈ retryableStatusCodes) then DialRetryable err' else DialError err'
  end.

(** ** Lemmas *)

Section yamux_lemmas.
Context {E : Type} (Conn_Write : bytes → nat * option E).
(** The connection underneath accepts every write, as [io.Writer] says. *)
Context (Hok : ∀ b, Conn_Write b = (length b, None)).

Lemma yamux_Write_ok c b :
  let '(c', out, r) := yamux_Write Conn_Write c b in
  concat out ++ pending c' = pending c ++ b ∧ r = (length b, None).
Proof using Hok.
  unfold yamux_Write. destruct (decide (length (pending c) = 0)) as [Hp|].
  - apply nil_length_inv in Hp. rewrite Hp. destruct (isDataHeader b); simpl; [done|].
    rewrite Hok, Hp. by rewrite !app_nil_r.
  - rewrite Hok. simpl. by rewrite !app_nil_r.
Qed.

Lemma yamux_writes_app c l1 l2 :
  yamux_writes Conn_Write c (l1 ++ l2) =
    let '(c1, out1, r1) := yamux_writes Conn_Write c l1 in
    let '(c2, out2, r2) := yamux_writes Conn_Write c1 l2 in (c2, out1 ++ out2, r1 ++ r2).
Proof.
  revert c. induction l1 as [|b l1 IH]; intros c; simpl.
  { by destruct (yamux_writes _ _ _) as [[? ?] ?]. }
  destruct (yamux_Write _ _ _) as [[c1 out1] r1]. rewrite IH.
  destruct (yamux_writes _ c1 l1) as [[c2 out2] r2], (yamux_writes _ c2 l2) as [[c3 out3] r3].
  by rewrite app_assoc.
Qed.

Lemma yamux_frame f b0 :
  frame_ok f → ∃ b1, (yamux_writes Conn_Write (mkYamuxConn [] b0) (frame_writes f)).1 =
    (mkYamuxConn [] b1, [f_header f ++ f_body f]).
Proof using Hok.
  unfold frame_ok, frame_writes. intros Hf. case_decide as Hb.
  - rewrite bool_decide_true in Hf by done. simpl. unfold yamux_Write. simpl. rewrite Hf, Hok, Hb.
    rewrite app_nil_r. by eexists.
  - rewrite bool_decide_false in Hf by done. simpl. unfold yamux_Write at 1. simpl. rewrite Hf. simpl.
    assert (length (f_header f) = 12) as Hlen by (unfold isDataHeader in Hf; by apply bool_decide_eq_true in Hf as [? _]).
    unfold yamux_Write. simpl. rewrite decide_False by lia. rewrite Hok. simpl. by eexists.
Qed.
End yamux_lemmas.

Section websocket_lemmas.
Context `{WebSocketLaws W}.

(** The bytes still to be read: the rest of the message being read, then the
    messages to come. *)
Definition stream (c : ws_conn W) : bytes :=
  (if reader c then current (wsConn c) else []) ++ concat (messages (wsConn c)).*2.

Definition all_binary (c : ws_conn W) : Prop := Forall (λ m, m.1 = BinaryMessage) (messages (wsConn c)).

(** What one iteration with a reader does. *)
Lemma ws_read_reader_spec w n :
  0 < n →
  match ws_read_reader w n with
  | inl c' => reader c' = false ∧ messages (wsConn c') = messages w ∧ current w = []
  | inr (c', b, err) => err = None ∧ b ≠ [] ∧ length b ≤ n ∧ messages (wsConn c') = messages w ∧
      current w = b ++ (if reader c' then current (wsConn c') else [])
  end.
Proof.
  intros Hn. unfold ws_read_reader. pose proof (read_part w n) as Hr.
  destruct (ReadMessage w n) as [[w1 b] err]. destruct Hr as (Hlen&Hcur&Hms&Herr).
  case_decide as Hb.
  - assert (b ≠ []) by (by destruct b; simpl in *; [lia|]).
    destruct Herr as [[-> _]|[-> Hend]]; simpl; split_and!; try done. by rewrite Hcur, Hend.
  - assert (b = []) as -> by (destruct b; simpl in *; [done|lia]).
    destruct Herr as [[-> Hne]|[-> Hend]]; simpl; [by specialize (Hne Hn)|].
    split_and!; [done..|by rewrite Hcur, Hend].
Qed.

End websocket_lemmas.

(** ** Properties *)

(** Coalescing leaves the bytes unchanged: over a connection that accepts
    every write, whatever is written comes out underneath in the same order,
    but for a data header that still waits for its body, and every write
    reports all its bytes. *)
Theorem yamux_stream_preserved {E} (Conn_Write : bytes → nat * option E) c l :
  (∀ b, Conn_Write b = (length b, None)) →
  let '(c', out, rs) := yamux_writes Conn_Write c l in
  concat out ++ pending c' = pending c ++ concat l ∧ rs = (λ b, (length b, None)) <$> l.
Proof.
  intros Hok. revert c. induction l as [|b l IH]; intros c; simpl; [by rewrite app_nil_r|].
  pose proof (yamux_Write_ok _ Hok c b) as Hw.
  destruct (yamux_Write _ _ _) as [[c1 out1] r1]. destruct Hw as [Hw ->].
  specialize (IH c1). destruct (yamux_writes _ c1 l) as [[c2 out2] rs]. destruct IH as [IH ->].
  split; [|done]. by rewrite concat_app, <-app_assoc, IH, !app_assoc, Hw.
Qed.

(** Every frame is one write: when yamux writes whole frames, each as its
    header and then its body, the connection underneath sees one write per
    frame, of the header and the body together, and nothing is held back. *)
Theorem yamux_frame_single_write {E} (Conn_Write : bytes → nat * option E) fs :
  (∀ b, Conn_Write b = (length b, None)) → Forall frame_ok fs →
  let '(c', out, _) := yamux_writes Conn_Write yamux_New (concat (frame_writes <$> fs)) in
  pending c' = [] ∧ out = (λ f, f_header f ++ f_body f) <$> fs.
Proof.
  intros Hok. unfold yamux_New. generalize (@nil byte) at 2 as b0.
  induction fs as [|f fs IH]; intros b0 Hfs; [done|].
  apply Forall_cons in Hfs as [Hf Hfs]. simpl. rewrite yamux_writes_app.
  destruct (yamux_frame _ Hok f b0 Hf) as [b1 Hone].
  destruct (yamux_writes _ (mkYamuxConn [] b0) (frame_writes f)) as [[c1 out1] r1]. simpl in Hone.
  injection Hone as -> ->. specialize (IH b1 Hfs).
  destruct (yamux_writes _ (mkYamuxConn [] b1) _) as [[c2 out2] r2]. destruct IH as [IH ->]. done.
Qed.

(** C26. A WebSocket connection is a stream: a read into a non-empty buffer
    returns, with the next bytes of the binary messages in their order, never
    none, whatever the messages are cut into and even when some are empty; once
    every message is read it returns the closed error, as [net.Conn] does. *)
Theorem websocket_reads_stream `{WebSocketLaws W} c n fuel :
  0 < n → all_binary c → length (messages (wsConn c)) + (if reader c then 1 else 0) < fuel →
  ∃ c' b err, ws_Read fuel c n = Some (c', b, err) ∧
    (stream c = [] ∧ b = [] ∧ err = Some ErrNetClosed ∨
     err = None ∧ b ≠ [] ∧ length b ≤ n ∧ stream c = b ++ stream c' ∧ all_binary c').
Proof.
  intros Hn. revert c. induction fuel as [|fuel IH]; intros c Hbin Hfuel; [lia|]. cbn [ws_Read].
  assert (∀ w, Forall (λ m, m.1 = BinaryMessage) (messages w) → length (messages w) < fuel →
    ∃ c' b err, match ws_read_reader w n with inl c' => ws_Read fuel c' n | inr res => Some res end = Some (c', b, err) ∧
    (current w ++ concat (messages w).*2 = [] ∧ b = [] ∧ err = Some ErrNetClosed ∨
     err = None ∧ b ≠ [] ∧ length b ≤ n ∧ current w ++ concat (messages w).*2 = b ++ stream c' ∧ all_binary c'))
    as Hread.
  { intros w Hw Hlen. pose proof (ws_read_reader_spec w n Hn) as Hr.
    destruct (ws_read_reader w n) as [c1|[[c1 b] err]].
    - destruct Hr as (Hr1&Hms&Hcur). rewrite Hcur.
      destruct (IH c1) as (c'&b&err&Heq&Hres); [by unfold all_binary; rewrite Hms|rewrite Hms, Hr1; lia|].
      unfold stream in Hres at 1 2. rewrite Hr1, Hms in Hres. eauto.
    - destruct Hr as (->&Hb&Hlen'&Hms&Hcur). exists c1, b, None. split; [done|right].
      unfold all_binary, stream. rewrite Hms, Hcur, <-app_assoc. done. }
  unfold all_binary in Hbin. unfold stream at 1 2. destruct (reader c) eqn:Hrd.
  { apply Hread; [done|lia]. }
  destruct (messages (wsConn c)) as [|[mt m] ms] eqn:Hms.
  - destruct (next_close _ Hms) as (w'&->&_). simpl. eexists _, _, _. split; [done|by left].
  - destruct (next_message _ _ _ _ Hms) as (w'&->&Hcur&Hms'). simpl in *.
    apply Forall_cons in Hbin as [Hmt Hbin]. simpl in Hmt. rewrite decide_False by (by intros ?).
    destruct (Hread w') as (c'&b&err&Heq&Hres); [by rewrite Hms'|rewrite Hms'; lia|].
    rewrite Hcur, Hms' in Hres. eauto.
Qed.

(** ** Witnesses *)

Definition ex_header (n : byte) : bytes := [x00; x00; x00; x00; x00; x00; x00; x01; x00; x00; x00; n].
Definition ex_ping : bytes := [x00; x02; x00; x01; x00; x00; x00; x00; x00; x00; x00; x07].
Definition ex_frames : list frame := [mkFrame (ex_header x02) [x41; x42]; mkFrame ex_ping []; mkFrame (ex_header x00) []].
Definition ex_write (b : bytes) : nat * option unit := (length b, None).

Lemma yamux_stream_preserved_witness :
  let '(c', out, rs) := yamux_writes ex_write yamux_New [ex_header x02; [x41; x42]; ex_ping; ex_header x01] in
  concat out ++ pending c' = ex_header x02 ++ [x41; x42] ++ ex_ping ++ ex_header x01 ∧
  rs = [(12, None); (2, None); (12, None); (12, None)].
Proof.
  exact (yamux_stream_preserved ex_write yamux_New [ex_header x02; [x41; x42]; ex_ping; ex_header x01]
    (λ b, eq_refl)).
Defined.

Lemma yamux_frame_single_write_witness :
  (yamux_writes ex_write yamux_New (concat (frame_writes <$> ex_frames))).1.2 =
    [ex_header x02 ++ [x41; x42]; ex_ping; ex_header x00].
Proof.
  apply (yamux_frame_single_write ex_write ex_frames (λ b, eq_refl)).
  repeat constructor; by vm_compute.
Defined.

(** A connection whose messages are read at most three bytes at a time, the
    end of a message on its own. *)
Record ex_ws := mkExWs { ex_current : bytes; ex_messages : list (Z * bytes) }.

#[local] Instance ex_websocket : WebSocket ex_ws := {|
  NextReader w :=
    match ex_messages w with
    | [] => (w, inl CloseError)
    | (mt, m) :: ms => (mkExWs m ms, inr mt)
    end;
  ReadMessage w n :=
    match ex_current w with
    | [] => (w, [], Some MessageEOF)
    | m => (mkExWs (drop (n `min` 3) m) (ex_messages w), take (n `min` 3) m, None)
    end;
  WriteMessage w mt b := (w, None);
|}.

#[local] Program Instance ex_websocket_laws : WebSocketLaws ex_ws := {|
  current := ex_current;
  messages := ex_messages;
|}.
Next Obligation. intros w mt m ms Hms. simpl in *. rewrite Hms. by eexists. Qed.
Next Obligation. intros w Hms. simpl in *. rewrite Hms. by eexists. Qed.
Next Obligation.
  intros w n. simpl. destruct (ex_current w) as [|x m] eqn:Hc; simpl.
  { split_and!; [lia|by rewrite Hc|done|by right]. }
  split_and!; [|by rewrite take_drop|done|left].
  - rewrite length_take. lia.
  - split; [done|]. intros Hn. destruct n; [lia|done].
Qed.

Definition ex_ws_conn : ws_conn ex_ws :=
  ws_New (mkExWs [] [(BinaryMessage, []); (BinaryMessage, [x41; x42; x43; x44]); (BinaryMessage, [x45])]).

Lemma websocket_reads_stream_witness :
  ∃ c' b, ws_Read 5 ex_ws_conn 10 = Some (c', b, None) ∧ b ++ stream c' = [x41; x42; x43; x44; x45].
Proof.
  destruct (websocket_reads_stream ex_ws_conn 10 5) as (c'&b&err&Hread&[(Hs&_)|(->&_&_&Hs&_)]).
  - lia.
  - repeat constructor.
  - by vm_compute; lia.
  - by vm_compute in Hs.
  - exists c', b. split; [exact Hread|]. by rewrite <-Hs.
Defined.
