(* ===== verification/Client.v ===== *)
(** * The client library: pkg/backoff and client

    Waiting between attempts, the URLs the client dials, connecting to the
    server with retries, the listener that reconnects, and forwarding.  The
    random numbers, the handshakes and the cancellations an attempt meets are
    arguments; the listener, whose methods run concurrently, is a step
    relation. *)

From S2P Require Import Prelude GoLib FloatLib HttpLib Transport Auth UpstreamServer Proxy.

Local Open Scope Z_scope.

(** ** pkg/backoff/backoff.go *)

Record Backoff := mkBackoff {
  retries : Z;
  minBackoff : Z;
  maxBackoff : Z;
  attempts : Z;
  lastBackoff : Z;
}.

(** [New] *)
Definition New (retries minBackoff maxBackoff : Z) : Backoff :=
  mkBackoff retries minBackoff maxBackoff 0 0.

Definition one : float64 := S754_finite false 4503599627370496 (-52).
(** 0.1 *)
Definition tenth : float64 := S754_finite false 7205759403792794 (-56).

Definition jitterMultiplier (r : float64) : float64 := fadd one (fmul r tenth).

(** [Backoff.nextWait], for the number [r] that [rand.Float64] returns; [oob]
    is the conversion of a [float64] that is not an [int64]. *)
Definition nextWait (oob : float64 → Z) (r : float64) (b : Backoff) : Z :=
  let backoff := if decide (lastBackoff b = 0) then minBackoff b else i64 (lastBackoff b * 2) in
  let backoff := if decide (maxBackoff b < backoff) then maxBackoff b else backoff in
  int_of_float oob (fmul (float64_of_int backoff) (jitterMultiplier r)).

(** [Backoff.Backoff] *)
Definition Backoff_Backoff (oob : float64 → Z) (r : float64) (b : Backoff) : Backoff * (Z * bool) :=
  if decide (retries b ≠ 0 ∧ retries b < attempts b) then (b, (0, false))
  else
    let b1 := mkBackoff (retries b) (minBackoff b) (maxBackoff b) (i64 (attempts b + 1)) (lastBackoff b) in
    let backoff := nextWait oob r b1 in
    (mkBackoff (retries b1) (minBackoff b1) (maxBackoff b1) (attempts b1) backoff, (backoff, true)).

(** ** client/dialer.go and the URLs of client/upstream.go *)

Definition websocket_scheme (s : string) : string :=
  if decide (s = "http") then "ws" else if decide (s = "https") then "wss" else s.

Record Dialer := mkDialer {
  d_URL : option URL;
  d_Token : string;
}.

Definition dialURL (d : Dialer) (endpointID : string) : URL :=
  let u := default (mkURL "http" "localhost:8000" "" []) (d_URL d) in
  mkURL (websocket_scheme (Scheme u)) (Host u) (Path u +:+ "/_piko/v1/tcp/" +:+ endpointID) (RawQuery u).

Definition Dialer_Dial (DialContext : URL → header → bool → handshake) (d : Dialer) (endpointID : string) :
    dial_result :=
  ws_Dial DialContext (dialURL d endpointID) (mkDialOptions (d_Token d) "" false).

Record Upstream := mkUpstream {
  u_URL : option URL;
  Token : string;
  TenantID : string;
  Name : string;
  MinReconnectBackoff : Z;
  MaxReconnectBackoff : Z;
  MaxWindowSize : Z;
  Compression : bool;
}.

(** [url.Values.Set] *)
Definition query_Set (q : list (string * string)) (k v : string) : list (string * string) :=
  (k, v) :: filter (λ p, p.1 ≠ k) q.

(** [url.Values.Get] *)
Fixpoint query_Get (q : list (string * string)) (k : string) : string :=
  match q with
  | [] => ""
  | (k', v) :: q' => if decide (k' = k) then v else query_Get q' k
  end.

Definition listenURL (up : Upstream) (endpointID : string) : URL :=
  let u := default (mkURL "http" "localhost:8001" "" []) (u_URL up) in
  mkURL (websocket_scheme (Scheme u)) (Host u) (Path u +:+ "/piko/v1/upstream/" +:+ endpointID)
    (if decide (Name up ≠ "") then query_Set (RawQuery u) "name" (Name up) else RawQuery u).

(** ** Upstream.connect *)

Definition defaultMaxWindowSize : Z := 256 * 1024.

(** What an attempt to connect meets: the handshake, whether the context is
    cancelled when it failed, the random number of the wait, and whether the
    context is cancelled during the wait. *)
Record attempt := mkAttempt {
  at_DialContext : URL → header → bool → handshake;
  at_failed_cancelled : bool;
  at_rand : float64;
  at_wait_cancelled : bool;
}.

(** A session with its window size, an error that is not retried, or the error
    of the context. *)
Inductive connect_result := Connected (window : Z) | ConnectError (err : string) | ConnectCancelled.

Section connect.
Context (oob : float64 → Z).

(** The loop over the attempts so far: the waits, and the result unless the
    next attempt is still to come. *)
Fixpoint connect_loop (up : Upstream) (endpointID : string) (b : Backoff) (l : list attempt) :
    list Z * option connect_result :=
  match l with
  | [] => ([], None)
  | a :: l' =>
      match ws_Dial (at_DialContext a) (listenURL up endpointID)
              (mkDialOptions (Token up) (TenantID up) (Compression up)) with
      | DialConnected =>
          ([], Some (Connected (if decide (MaxWindowSize up = 0) then defaultMaxWindowSize else MaxWindowSize up)))
      | res =>
          if at_failed_cancelled a then ([], Some ConnectCancelled)
          else
            match res with
            | DialRetryable _ =>
                let '(b', (backoff, _)) := Backoff_Backoff oob (at_rand a) b in
                if at_wait_cancelled a then ([backoff], Some ConnectCancelled)
                else let '(waits, r) := connect_loop up endpointID b' l' in (backoff :: waits, r)
            | DialError err => ([], Some (ConnectError err))
            | DialConnected => ([], None)
            end
      end
  end.

(** [Upstream.connect] *)
Definition connect (up : Upstream) (endpointID : string) (l : list attempt) : list Z * option connect_result :=
  let minReconnectBackoff :=
    if decide (MinReconnectBackoff up = 0) then 100 * Millisecond else MinReconnectBackoff up in
  let maxReconnectBackoff :=
    if decide (MaxReconnectBackoff up = 0) then 15 * Second else MaxReconnectBackoff up in
  connect_loop up endpointID (New 0 minReconnectBackoff maxReconnectBackoff) l.

End connect.

(** ** client/listener.go

    A listener holds one session.  [Accept] runs in one goroutine; [Close] and
    [Shutdown] may be called from another at any point of it.  [l_open] holds
    the sessions that were opened and not closed. *)

Inductive phase :=
  | Idle
  | Accepting
  | Connecting
  | Storing (sess : nat).

Record listener := mkListener {
  l_sess : option nat;
  l_cancelled : bool;
  l_open : gset nat;
  l_next : nat;
  l_phase : phase;
}.

Definition newListener : listener := mkListener None false ∅ 0 Connecting.

(** The end of [listener.connect]: the previous session is closed, then
    replaced. *)
Definition store_session (sess : nat) (l : listener) : listener :=
  mkListener (Some sess) (l_cancelled l)
    (match l_sess l with None => l_open l | Some old => l_open l ∖ {[old]} end) (l_next l) Accepting.

(** [Close]: new streams are refused, the session stays open. *)
Definition listener_Close (l : listener) : listener :=
  mkListener (l_sess l) true (l_open l) (l_next l) (l_phase l).

(** [Shutdown] *)
Definition listener_Shutdown (l : listener) : listener :=
  mkListener (l_sess l) true
    (match l_sess l with None => l_open l | Some sess => l_open l ∖ {[sess]} end) (l_next l) (l_phase l).

Definition set_phase (p : phase) (l : listener) : listener :=
  mkListener (l_sess l) (l_cancelled l) (l_open l) (l_next l) p.

(** What can happen to a listener: a call of [Accept] and its return, with a
    stream or an error, the failure of its session, the end of a reconnect, and
    the calls of [Close] and [Shutdown]. *)
Inductive listener_event := LCall | LReturn | LDisconnect | LConnectFail | LConnect | LStore | LClose | LShutdown.

(** The context of [connect] is [closeCtx], which the dial and the waits between
    two attempts look at; once the dial has succeeded nobody looks at it again,
    so a session may be opened although the listener was closed meanwhile. *)
Inductive listener_step : listener_event → listener → listener → Prop :=
  | step_call l : l_phase l = Idle → is_Some (l_sess l) → listener_step LCall l (set_phase Accepting l)
  (** a stream, the error of the caller's context, or [ErrClosed] *)
  | step_return l : l_phase l = Accepting → listener_step LReturn l (set_phase Idle l)
  (** the session failed, and was not closed here *)
  | step_disconnected l sess :
      l_phase l = Accepting → l_sess l = Some sess → sess ∈ l_open l → listener_step LDisconnect l (set_phase Connecting l)
  | step_connect_failed l : l_phase l = Connecting → listener_step LConnectFail l (set_phase Idle l)
  | step_connected l :
      l_phase l = Connecting →
      listener_step LConnect l
        (mkListener (l_sess l) (l_cancelled l) ({[l_next l]} ∪ l_open l) (S (l_next l)) (Storing (l_next l)))
  | step_store l sess : l_phase l = Storing sess → listener_step LStore l (store_session sess l)
  | step_close l : listener_step LClose l (listener_Close l)
  | step_shutdown l : listener_step LShutdown l (listener_Shutdown l).

Definition listener_next (l l' : listener) : Prop := ∃ e, listener_step e l l'.

(** A step in which [Shutdown] is not called and the session does not fail. *)
Definition unattended (l l' : listener) : Prop := ∃ e, e ≠ LShutdown ∧ e ≠ LDisconnect ∧ listener_step e l l'.

(** ** The waits of a backoff *)

(** A number that [rand.Float64] returns: in [0, 1). *)
Definition unit_float (r : float64) : Prop :=
  match r with
  | S754_zero false => True
  | S754_finite false m e => -1074 ≤ e < 0 ∧ Zpos m < 2 ^ (- e)
  | _ => False
  end.

Lemma tenth_of_unit r :
  unit_float r →
  match fmul r tenth with
  | S754_zero false => True
  | S754_finite false p e => -1200 ≤ e ≤ -55 ∧ Zpos p * 16 ≤ 7205759403792795 * 2 ^ (-52 - e)
  | _ => False
  end.
Proof.
  destruct r as [[]| | |[] m e]; try done. intros [He Hm].
  unfold fmul, tenth, SFmul. cbn [xorb]. set (M := (m * 7205759403792794)%positive).
  assert (Zpos M < 7205759403792794 * 2 ^ (- e)) as HM by lia.
  pose proof (dropped_spec (Zpos M) (e + -56)) as Hg. pose proof (dropped_nonneg (Zpos M) (e + -56)) as Hd.
  assert (Zdigits2 (Zpos M) ≤ 53 - e) as HD.
  { apply digits_le; [lia|]. replace (53 - e) with (53 + - e) by lia.
    rewrite Z.pow_add_r by lia. pose proof (Z.pow_pos_nonneg 2 (- e)). lia. }
  destruct (binary_round_aux_grid (Zpos M) (e + -56) loc_Exact) as (m1&Hm1&Hr); [lia|lia|].
  set (G := e + -56 + dropped (Zpos M) (e + -56)) in *.
  assert (m1 * 2 ^ dropped (Zpos M) (e + -56) ≤ Zpos M + 2 ^ dropped (Zpos M) (e + -56)) as Hle.
  { pose proof (Z.mul_div_le (Zpos M) (2 ^ dropped (Zpos M) (e + -56)) ltac:(apply Z.pow_pos_nonneg; lia)).
    pose proof (Z.pow_pos_nonneg 2 (dropped (Zpos M) (e + -56))). nia. }
  destruct (binary_round_aux _ _ _ _ _ _) as [[]| | |[] p e2]; try done. destruct Hr as [He2 Hp].
  assert (G ≤ -56) as HG by lia.
  split; [lia|].
  (* the value, at the exponent of the factor *)
  assert (m1 ≤ 7205759403792795 * 2 ^ (-56 - G)) as Hm1'.
  { apply (Z.mul_le_mono_pos_r _ _ (2 ^ dropped (Zpos M) (e + -56))); [apply Z.pow_pos_nonneg; lia|].
    rewrite <-Z.mul_assoc, <-Z.pow_add_r by lia. replace (-56 - G + dropped (Zpos M) (e + -56)) with (- e) by lia.
    assert (2 ^ dropped (Zpos M) (e + -56) ≤ 2 ^ (- e)); [|lia]. apply Z.pow_le_mono_r; lia. }
  apply (Z.mul_le_mono_pos_r _ _ (2 ^ (e2 - G))); [apply Z.pow_pos_nonneg; lia|].
  replace (Zpos p * 16 * 2 ^ (e2 - G)) with (m1 * 16) by lia.
  rewrite <-Z.mul_assoc, <-Z.pow_add_r by lia. replace (-52 - e2 + (e2 - G)) with (4 + (-56 - G)) by lia.
  rewrite Z.pow_add_r by lia. lia.
Qed.

(** The multiplier is between 1 and 1.1, up to the last place: [j] / 2^52. *)
Definition multiplier_ok (f : float64) (j : Z) : Prop :=
  match f with
  | S754_finite false p e => -52 ≤ e ≤ -51 ∧ Zpos p * 2 ^ (e + 52) = j ∧ 2 ^ 52 ≤ j ∧ 10 * j ≤ 11 * 2 ^ 52 + 10
  | _ => False
  end.

Lemma jitterMultiplier_ok r : unit_float r → ∃ j, multiplier_ok (jitterMultiplier r) j.
Proof.
  intros Hr. pose proof (tenth_of_unit r Hr) as Ht. unfold jitterMultiplier.
  destruct (fmul r tenth) as [[]| | |[] p e]; try done.
  { exists (2 ^ 52). split_and!; by vm_compute. }
  destruct Ht as [He Hp]. unfold fadd, one, SFadd. cbv zeta. rewrite Z.min_r by lia.
  destruct (shl_align_spec 4503599627370496 (-52) e) as (k1&Hk1&Hm1&He1).
  destruct (shl_align_spec p e e) as (k2&Hk2&Hm2&He2). cbv zeta in *.
  assert (shl_align p e e = (p, e)) as Hpe by (unfold shl_align; by rewrite Z.sub_diag).
  assert (shl_align 4503599627370496 (-52) e = ((shift_pos (Z.to_pos (-52 - e)) 4503599627370496)%positive, e)) as Hone.
  { unfold shl_align. destruct (e - -52) as [|q|q] eqn:Hq; [exfalso; lia..|]. f_equal. by replace (-52 - e) with (Zpos q) by lia. }
  rewrite Hpe. rewrite Hone in Hm1, He1 |- *. cbn [fst snd] in *. assert (k1 = -52 - e) as -> by lia.
  set (a := shift_pos _ _) in *. cbn [cond_Zopp]. rewrite <-Pos2Z.inj_add.
  assert (Zpos (a + p) = 2 ^ (- e) + Zpos p) as Hs.
  { rewrite Pos2Z.inj_add, Hm1. change 4503599627370496 with (2 ^ 52). rewrite <-Z.pow_add_r by lia.
    by replace (52 + (-52 - e)) with (- e) by lia. }
  set (s := (a + p)%positive) in *. set (d := -52 - e).
  assert (2 ^ (- e) = 2 ^ 52 * 2 ^ d) as Hpow by (rewrite <-Z.pow_add_r by lia; f_equal; lia).
  pose proof (Z.pow_pos_nonneg 2 d ltac:(lia) ltac:(lia)) as Hd0. fold d in Hp.
  assert (Zdigits2 (Zpos s) = - e + 1) as Hdig.
  { apply Z.le_antisymm; [apply digits_le; [lia|]|pose proof (digits_ge (Zpos s) (- e)); lia].
    rewrite Z.pow_add_r by lia. lia. }
  unfold binary_normalize, binary_round. rewrite fexp_spec. change (Zpos (digits2_pos s)) with (Zdigits2 (Zpos s)).
  assert (shl_align s e (Z.max (Zdigits2 (Zpos s) + e - 53) (-1074)) = (s, e)) as ->.
  { unfold shl_align. rewrite Hdig. destruct (Z.max _ _ - e) as [|q|q] eqn:Hq; [done|done|exfalso; lia]. }
  pose proof (dropped_spec (Zpos s) e) as Hg.
  assert (dropped (Zpos s) e = d) as Hdd by lia.
  destruct (binary_round_aux_grid (Zpos s) e loc_Exact) as (m1&Hmm&Hr'); [lia|lia|].
  rewrite Hdd in Hmm, Hr'. replace (e + d) with (-52) in Hr' by lia.
  assert (2 ^ 52 ≤ Zpos s / 2 ^ d) as Hlo by (apply Z.div_le_lower_bound; lia).
  assert (10 * (Zpos s / 2 ^ d) ≤ 11 * 2 ^ 52) as Hhi.
  { pose proof (Z.mul_div_le (Zpos s) (2 ^ d) ltac:(lia)).
    assert (160 * (Zpos s / 2 ^ d) * 2 ^ d ≤ (160 * 2 ^ 52 + 10 * 7205759403792795) * 2 ^ d) as Hx by nia.
    apply Z.mul_le_mono_pos_r in Hx; lia. }
  exists m1. destruct (binary_round_aux _ _ _ _ _ _) as [[]| | |[] q e2]; try (done || (exfalso; lia)).
  destruct Hr' as [He2' Hq]. split; [lia|].
  split; [by replace (e2 + 52) with (e2 - -52) by lia|lia].
Qed.

(** The wait for a backoff [b] is between [b] and a tenth more. *)
Lemma jittered_bounds oob r b :
  unit_float r → 0 < b < 2 ^ 48 →
  let w := int_of_float oob (fmul (float64_of_int b) (jitterMultiplier r)) in b ≤ w ∧ 10 * w ≤ 11 * b + 11.
Proof.
  intros Hr Hb. destruct (jitterMultiplier_ok r Hr) as [j Hj].
  destruct (jitterMultiplier r) as [| | |[] mj ej]; try done. destruct Hj as (Hej&Hmj&Hlo&Hhi).
  destruct b as [|p|]; try lia. destruct (float64_of_int_exact p) as (q&k&Hk&->&Hq&_); [lia|].
  unfold fmul, SFmul. cbn [xorb]. set (M := (q * mj)%positive). set (e := - k + ej).
  assert (Zpos M * 2 ^ (ej + 52) = Zpos p * j * 2 ^ k) as HM by (unfold M; rewrite Pos2Z.inj_mul, Hq; lia).
  (* M * 2^e is p * j / 2^52 *)
  assert (Zpos p * 2 ^ (- e) ≤ Zpos M) as HMlo.
  { apply (Z.mul_le_mono_pos_r _ _ (2 ^ (ej + 52))); [apply Z.pow_pos_nonneg; lia|].
    rewrite HM, <-Z.mul_assoc, <-Z.pow_add_r by lia. replace (- e + (ej + 52)) with (52 + k) by lia.
    rewrite Z.pow_add_r by lia. pose proof (Z.pow_pos_nonneg 2 k). nia. }
  assert (10 * Zpos M ≤ (11 * Zpos p + 1) * 2 ^ (- e)) as HMhi.
  { apply (Z.mul_le_mono_pos_r _ _ (2 ^ (ej + 52))); [apply Z.pow_pos_nonneg; lia|].
    rewrite <-!Z.mul_assoc, HM, <-Z.pow_add_r by lia. replace (- e + (ej + 52)) with (52 + k) by lia.
    rewrite Z.pow_add_r by lia. pose proof (Z.pow_pos_nonneg 2 k ltac:(lia) ltac:(lia)).
    assert (10 * (Zpos p * j) ≤ (11 * Zpos p + 1) * 2 ^ 52) by nia. nia. }
  pose proof (dropped_spec (Zpos M) e) as Hg. pose proof (dropped_nonneg (Zpos M) e) as Hd0.
  assert (Zdigits2 (Zpos M) + e ≤ 53) as HD.
  { assert (Zdigits2 (Zpos M) ≤ 53 + - e); [|lia]. apply digits_le; [lia|]. rewrite Z.pow_add_r by lia.
    pose proof (Z.pow_pos_nonneg 2 (- e)). nia. }
  destruct (binary_round_aux_grid (Zpos M) e loc_Exact) as (m1&Hm1&Hres); [lia|lia|].
  set (d := dropped (Zpos M) e) in *. set (g := - (e + d)).
  assert (0 ≤ g) as Hg0 by lia. pose proof (Z.pow_pos_nonneg 2 g ltac:(lia) Hg0) as Hpg.
  pose proof (Z.pow_pos_nonneg 2 d ltac:(lia) Hd0) as Hpd.
  assert (2 ^ (- e) = 2 ^ g * 2 ^ d) as Hsplit by (rewrite <-Z.pow_add_r by lia; f_equal; lia).
  assert (Zpos p * 2 ^ g ≤ Zpos M / 2 ^ d) as Hq1 by (apply Z.div_le_lower_bound; [lia|nia]).
  assert (10 * (Zpos M / 2 ^ d) ≤ (11 * Zpos p + 1) * 2 ^ g) as Hq2.
  { pose proof (Z.mul_div_le (Zpos M) (2 ^ d) Hpd). apply (Z.mul_le_mono_pos_r _ _ (2 ^ d)); [done|]. nia. }
  assert (Zpos p ≤ m1 / 2 ^ g) as Hw1 by (apply Z.div_le_lower_bound; lia).
  assert (10 * (m1 / 2 ^ g) ≤ 11 * Zpos p + 11) as Hw2.
  { assert (m1 / 2 ^ g * 2 ^ g ≤ m1) by (pose proof (Z.mul_div_le m1 (2 ^ g) Hpg); lia).
    apply (Z.mul_le_mono_pos_r _ _ (2 ^ g)); [done|]. nia. }
  assert (float_trunc (binary_round_aux 53 1024 false (Zpos M) e loc_Exact) = Some (m1 / 2 ^ g)) as Htr.
  { destruct (binary_round_aux _ _ _ _ _ _) as [[]| | |[] p0 e2]; try done; [exfalso; nia|].
    destruct Hres as [? <-]. apply grid_trunc; lia. }
  unfold int_of_float. rewrite Htr, decide_True; [done|]. unfold is_i64. lia.
Qed.

(** The waits of a sequence of calls. *)
Fixpoint run_backoffs (oob : float64 → Z) (rs : list float64) (b : Backoff) : list (Z * bool) :=
  match rs with
  | [] => []
  | r :: rs' => let '(b', res) := Backoff_Backoff oob r b in res :: run_backoffs oob rs' b'
  end.

(** What the next wait is computed from. *)
Definition next_base (b : Backoff) : Z :=
  if decide (lastBackoff b = 0) then minBackoff b else lastBackoff b * 2.

Definition backoff_wf (b : Backoff) : Prop :=
  retries b = 0 ∧ 0 < minBackoff b ≤ maxBackoff b ∧ maxBackoff b < 2 ^ 47 ∧ 0 ≤ lastBackoff b ∧
  10 * lastBackoff b ≤ 11 * maxBackoff b + 11.

Lemma Backoff_step oob r b :
  unit_float r → backoff_wf b →
  let '(b', (w, ok)) := Backoff_Backoff oob r b in
  ok = true ∧ Z.min (next_base b) (maxBackoff b) ≤ w ∧ 10 * w ≤ 11 * maxBackoff b + 11 ∧
  backoff_wf b' ∧ maxBackoff b' = maxBackoff b ∧ next_base b' = w * 2.
Proof.
  intros Hr (Hret&Hmin&Hmax&Hl0&Hl). unfold Backoff_Backoff. rewrite decide_False by lia. cbv zeta.
  set (b1 := mkBackoff _ _ _ _ _).
  assert (0 < next_base b) as Hnb by (unfold next_base; case_decide; lia).
  assert (nextWait oob r b1 = int_of_float oob
    (fmul (float64_of_int (Z.min (next_base b) (maxBackoff b))) (jitterMultiplier r))) as ->.
  { unfold nextWait, next_base, b1. cbn [lastBackoff minBackoff maxBackoff].
    destruct (decide (lastBackoff b = 0)); [|rewrite (i64_small (lastBackoff b * 2)) by (unfold is_i64; lia)].
    all: do 3 f_equal; case_decide; lia. }
  destruct (jittered_bounds oob r (Z.min (next_base b) (maxBackoff b)) Hr) as [H1 H2]; [lia|].
  cbv zeta in H1, H2. set (w := int_of_float _ _) in *. clearbody w.
  split_and!; [done|done|lia| |done|].
  - unfold backoff_wf, b1. cbn [retries minBackoff maxBackoff lastBackoff]. lia.
  - unfold next_base. cbn [lastBackoff]. rewrite decide_False by lia. done.
Qed.

Lemma run_backoffs_bounds oob rs b i w ok :
  Forall unit_float rs → backoff_wf b → run_backoffs oob rs b !! i = Some (w, ok) →
  ok = true ∧ Z.min (next_base b * 2 ^ Z.of_nat i) (maxBackoff b) ≤ w ∧ 10 * w ≤ 11 * maxBackoff b + 11.
Proof.
  revert b i. induction rs as [|r rs IH]; intros b i Hrs Hb Hi; [done|].
  apply Forall_cons in Hrs as [Hr Hrs]. pose proof (Backoff_step oob r b Hr Hb) as Hs.
  assert (0 < next_base b ∧ 0 < maxBackoff b) as [Hnb Hmx].
  { destruct Hb as (_&?&_&?&_). unfold next_base. case_decide; lia. }
  simpl in Hi. destruct (Backoff_Backoff oob r b) as [b' [w1 ok1]]. destruct Hs as (->&Hlo&Hhi&Hb'&Hmax&Hnext).
  destruct i as [|i]; simpl in Hi.
  { injection Hi as <- <-. rewrite Z.mul_1_r. done. }
  destruct (IH b' i Hrs Hb' Hi) as (->&Hlo'&Hhi'). rewrite Hmax, Hnext in *. split_and!; [done| |done].
  rewrite Nat2Z.inj_succ, Z.pow_succ_r by lia. pose proof (Z.pow_pos_nonneg 2 (Z.of_nat i)). nia.
Qed.

(** ** Connecting *)

Section connect_lemmas.
Context (oob : float64 → Z) (up : Upstream) (endpointID : string).

Definition at_dial (a : attempt) : dial_result :=
  ws_Dial (at_DialContext a) (listenURL up endpointID) (mkDialOptions (Token up) (TenantID up) (Compression up)).

(** The attempt failed, may be retried, and nothing was cancelled. *)
Definition retried (a : attempt) : Prop :=
  (∃ err, at_dial a = DialRetryable err) ∧ at_failed_cancelled a = false ∧ at_wait_cancelled a = false.

(** What the first attempt that is not retried ends with. *)
Definition outcome (a : attempt) : connect_result :=
  match at_dial a with
  | DialConnected => Connected (if decide (MaxWindowSize up = 0) then defaultMaxWindowSize else MaxWindowSize up)
  | DialError err => if at_failed_cancelled a then ConnectCancelled else ConnectError err
  | DialRetryable _ => ConnectCancelled
  end.

Lemma connect_loop_split b l :
  ∃ l1 l2, l = l1 ++ l2 ∧ Forall retried l1 ∧
    match l2 with
    | [] => (connect_loop oob up endpointID b l).2 = None
    | a :: _ => ¬ retried a ∧ (connect_loop oob up endpointID b l).2 = Some (outcome a)
    end.
Proof.
  revert b. induction l as [|a l IH]; intros b; [by exists [], []|]. cbn [connect_loop].
  fold (at_dial a). unfold retried, outcome. destruct (at_dial a) as [|err|err] eqn:Ha.
  - exists [], (a :: l). rewrite Ha. split_and!; [done|done|by intros [[? ?] _]|done].
  - destruct (at_failed_cancelled a) eqn:Hf.
    { exists [], (a :: l). rewrite Ha, Hf. split_and!; [done|done|by intros (_&?&_)|done]. }
    destruct (Backoff_Backoff oob (at_rand a) b) as [b' [w ok]].
    destruct (at_wait_cancelled a) eqn:Hc.
    { exists [], (a :: l). rewrite Ha, Hf, Hc. split_and!; [done|done|by intros (_&_&?)|done]. }
    destruct (IH b') as (l1&l2&->&Hl1&Hl2). exists (a :: l1), l2. split_and!; [done| |].
    + constructor; [|done]. split; [by eexists|done].
    + destruct (connect_loop oob up endpointID b' (l1 ++ l2)) as [ws res]. exact Hl2.
  - exists [], (a :: l). rewrite Ha. destruct (at_failed_cancelled a); split_and!; try done; by intros [[? ?] _].
Qed.

(** The waits are those of the backoff. *)
Lemma connect_loop_waits b l i w :
  (connect_loop oob up endpointID b l).1 !! i = Some w →
  ∃ ok, run_backoffs oob (at_rand <$> l) b !! i = Some (w, ok).
Proof.
  revert b i. induction l as [|a l IH]; intros b i Hi; [done|]. cbn [connect_loop] in Hi.
  fold (at_dial a) in Hi. simpl. destruct (at_dial a) as [|err|err]; [done| |by destruct (at_failed_cancelled a)].
  destruct (at_failed_cancelled a); [done|].
  destruct (Backoff_Backoff oob (at_rand a) b) as [b' [w1 ok1]]. destruct (at_wait_cancelled a).
  - destruct i as [|i]; simpl in Hi; [injection Hi as ->; by exists ok1|done].
  - destruct (connect_loop oob up endpointID b' l) as [ws res] eqn:Hl. simpl in Hi.
    destruct i as [|i]; simpl in Hi; [injection Hi as ->; by exists ok1|].
    apply (IH b' i). by rewrite Hl.
Qed.

End connect_lemmas.

(** ** The headers of a handshake *)

Section handshake.
Context (o : dialOptions) (h : header).

(** The handshake sends the headers it is given and adds none the server reads
    a token or a tenant from. *)
Definition sends_dial_header : Prop :=
  ∀ k, k ∈ ["x-piko-authorization"; "Authorization"; "x-piko-tenant-id"] → header_Get h k = header_Get (dial_header o) k.

Context (Hsends : sends_dial_header).

Lemma dial_header_Get k :
  header_Get (dial_header o) k =
    if decide (do_tenantID o ≠ "" ∧ "x-piko-tenant-id" = ToLower k) then do_tenantID o
    else if decide (do_token o ≠ "" ∧ "authorization" = ToLower k) then "Bearer " +:+ do_token o else "".
Proof.
  assert (ToLower "x-piko-tenant-id" = "x-piko-tenant-id") as E1 by by vm_compute.
  assert (ToLower "Authorization" = "authorization") as E2 by by vm_compute.
  unfold dial_header. destruct (decide (do_tenantID o ≠ "")), (decide (do_token o ≠ ""));
    rewrite ?header_Get_Set, ?E1, ?E2; repeat case_decide; tauto.
Qed.

Lemma dial_authorization : do_token o ≠ "" → authorization h = "Bearer " +:+ do_token o.
Proof using Hsends.
  intros Ht. unfold authorization. rewrite !Hsends, !dial_header_Get by set_solver.
  assert (ToLower "x-piko-authorization" = "x-piko-authorization") as -> by by vm_compute.
  assert (ToLower "Authorization" = "authorization") as -> by by vm_compute.
  rewrite !(decide_False (P := _ ∧ "x-piko-tenant-id" = _)) by (by intros [_ ?]).
  rewrite (decide_False (P := _ ∧ _ = "x-piko-authorization")) by (by intros [_ ?]). by rewrite !decide_True.
Qed.

Lemma dial_tenant : parseTenant h = do_tenantID o.
Proof using Hsends.
  unfold parseTenant. rewrite Hsends, dial_header_Get by set_solver.
  assert (ToLower "x-piko-tenant-id" = "x-piko-tenant-id") as -> by by vm_compute.
  destruct (decide (do_tenantID o ≠ "" ∧ _)) as [|Hn]; [done|]. rewrite decide_False by (by intros [_ ?]).
  symmetry. destruct (decide (do_tenantID o = "")); tauto.
Qed.
End handshake.

(** ** The listener *)

Definition listener_reachable (l : listener) : Prop := rtc listener_next newListener l.

(** Every open session is the listener's, or the one it is about to store. *)
Definition listener_ok (l : listener) : Prop :=
  (∀ x, x ∈ l_open l → x < l_next l)%nat ∧
  (∀ x, l_sess l = Some x → x < l_next l)%nat ∧
  match l_phase l with
  | Storing sess => (sess < l_next l)%nat ∧ l_sess l ≠ Some sess ∧ ∀ x, x ∈ l_open l → l_sess l = Some x ∨ x = sess
  | _ => ∀ x, x ∈ l_open l → l_sess l = Some x
  end.

Lemma listener_step_ok l l' : listener_ok l → listener_next l l' → listener_ok l'.
Proof.
  intros (Hop&Hsess&Hph) [e Hstep].
  destruct Hstep as [l Hp Hs|l Hp|l sess Hp Hs Hin|l Hp|l Hp|l sess Hp|l|l]; unfold listener_ok; simpl.
  - rewrite Hp in Hph. done.
  - rewrite Hp in Hph. done.
  - rewrite Hp in Hph. done.
  - rewrite Hp in Hph. done.
  - rewrite Hp in Hph. split_and!.
    + intros x [->%elem_of_singleton|?%Hop]%elem_of_union; lia.
    + intros x ?%Hsess. lia.
    + lia.
    + intros ?%Hsess. lia.
    + intros x [->%elem_of_singleton|?%Hph]%elem_of_union; [by right|by left].
  - rewrite Hp in Hph. destruct Hph as (Hlt&Hne&Hph). split_and!.
    + destruct (l_sess l); set_solver.
    + by intros x [= <-].
    + intros x. destruct (l_sess l) as [old|]; [|intros Hx; by destruct (Hph x Hx) as [?| ->]].
      rewrite elem_of_difference, not_elem_of_singleton. intros [Hx Ho].
      destruct (Hph x Hx) as [[= ->]| ->]; done.
  - split_and!; [done..|]. by destruct (l_phase l).
  - split_and!; [|done|].
    + destruct (l_sess l); set_solver.
    + destruct (l_phase l); destruct (l_sess l); set_solver.
Qed.

Lemma listener_reachable_ok l : listener_reachable l → listener_ok l.
Proof.
  assert (listener_ok newListener) as Hnew by (split_and!; simpl; [set_solver|done|set_solver]).
  unfold listener_reachable. intros Hr. revert Hnew. induction Hr; eauto using listener_step_ok.
Qed.

(** A session of the listener's may be under way. *)
Definition connecting (l : listener) : Prop := l_phase l = Connecting ∨ ∃ x, l_phase l = Storing x.

(** A listener that was shut down while it was not connecting holds no session,
    and stays so. *)
Definition released (l : listener) : Prop := l_open l = ∅ ∧ ¬ connecting l.

Lemma released_step l l' : released l → listener_next l l' → released l'.
Proof.
  intros (Ho&Hp) [e Hstep]. unfold released, connecting in *.
  destruct Hstep; simpl; try (split; [done|]; intros [?|[??]]; first [done|apply Hp; eauto]).
  - set_solver.
  - exfalso. apply Hp. by left.
  - exfalso. apply Hp. eauto.
  - split; [|done]. rewrite Ho. destruct (l_sess l); set_solver.
Qed.

(** A session that was closed stays closed. *)
Definition closed_session (x : nat) (l : listener) : Prop := (x < l_next l)%nat ∧ (x ∉ l_open l) ∧ l_phase l ≠ Storing x.

Lemma closed_session_step x l l' : closed_session x l → listener_next l l' → closed_session x l'.
Proof.
  intros (Hlt&Ho&Hp) [e Hstep]. unfold closed_session. destruct Hstep; simpl; try by split_and!.
  - split_and!; [lia| |intros [= <-]; lia]. rewrite elem_of_union, elem_of_singleton. intros [->|]; [lia|done].
  - split_and!; [done| |done]. destruct (l_sess l); set_solver.
  - split_and!; [done| |done]. destruct (l_sess l); set_solver.
Qed.

(** The session that is being stored while [Shutdown] runs, or was stored after
    it. *)
Definition missed (x : nat) (l : listener) : Prop :=
  x ∈ l_open l ∧
  (l_phase l = Storing x ∧ l_sess l ≠ Some x ∨ (l_phase l = Idle ∨ l_phase l = Accepting) ∧ l_sess l = Some x).

Lemma missed_step x l l' : missed x l → unattended l l' → missed x l'.
Proof.
  intros (Ho&Hx) (e&Hns&Hnd&Hstep). unfold missed.
  destruct Hstep as [l Hp Hs|l Hp|l sess Hp Hs Hin|l Hp|l Hp|l sess Hp|l|l]; simpl; try done.
  - split; [done|]. right. destruct Hx as [[? _]|[_ ?]]; [congruence|]. by split; [right|].
  - split; [done|]. right. destruct Hx as [[? _]|[_ ?]]; [congruence|]. by split; [left|].
  - destruct Hx as [[? _]|[[?|?] _]]; congruence.
  - destruct Hx as [[? _]|[[?|?] _]]; congruence.
  - destruct Hx as [[Hst Hne]|[[?|?] _]]; [|congruence..]. assert (sess = x) as -> by congruence.
    split; [|right; split; [by right|done]]. destruct (l_sess l); [|done]. set_solver.
Qed.

(** ** Properties *)

(** Connecting retries exactly what may be retried: it goes on while an
    attempt fails with an error that may be retried and nothing is cancelled, and
    stops at the first other attempt, with a session when its handshake
    succeeds, the error when it may not be retried, or the cancellation; while
    it goes on, the waits back off within the configured bounds. *)
Theorem connect_retries oob up endpointID l :
  let minB := if decide (MinReconnectBackoff up = 0) then 100 * Millisecond else MinReconnectBackoff up in
  let maxB := if decide (MaxReconnectBackoff up = 0) then 15 * Second else MaxReconnectBackoff up in
  let '(waits, res) := connect oob up endpointID l in
  (∃ l1 l2, l = l1 ++ l2 ∧ Forall (retried up endpointID) l1 ∧
     match l2 with
     | [] => res = None
     | a :: _ => ¬ retried up endpointID a ∧ res = Some (outcome up endpointID a)
     end) ∧
  (0 < minB ≤ maxB → maxB < 2 ^ 47 → Forall unit_float (at_rand <$> l) →
   ∀ i w, waits !! i = Some w → Z.min (minB * 2 ^ Z.of_nat i) maxB ≤ w ∧ 10 * w ≤ 11 * maxB + 11).
Proof.
  intros minB maxB. unfold connect. fold minB maxB.
  pose proof (connect_loop_split oob up endpointID (New 0 minB maxB) l) as Hsplit.
  pose proof (connect_loop_waits oob up endpointID (New 0 minB maxB) l) as Hwaits.
  destruct (connect_loop _ _ _ _ _) as [waits res]. simpl in *. split; [done|].
  intros Hmin Hmax Hr i w [ok Hi]%Hwaits.
  apply (run_backoffs_bounds oob _ (New 0 minB maxB)) in Hi as (_&Hlo&Hhi); [done|done|].
  unfold backoff_wf, New. simpl. lia.
Qed.

(** C27. A client reaches the endpoint it dials: the request of a dialer without
    a base path takes the TCP route of the proxy for its endpoint, the request
    of a listener takes the upstream route of its endpoint with its name, and
    the server reads from either the token it was given, and from the second
    its tenant. *)
Theorem client_requests_routed d up endpointID host dh lh :
  endpointID ≠ "" → Contains endpointID "/" = false →
  (∀ u, d_URL d = Some u → Path u = "") → (∀ u, u_URL up = Some u → Path u = "") →
  sends_dial_header (mkDialOptions (d_Token d) "" false) dh →
  sends_dial_header (mkDialOptions (Token up) (TenantID up) (Compression up)) lh →
  let dreq := mkRequest "GET" host (Path (dialURL d endpointID)) dh in
  let lreq := mkRequest "GET" host (Path (listenURL up endpointID)) lh in
  registerRoutes dreq = RouteTCP endpointID ∧
  (d_Token d ≠ "" → parseToken (r_Header dreq) = inr (d_Token d)) ∧
  upstream_registerRoutes lreq = Some endpointID ∧
  (Token up ≠ "" → parseToken (r_Header lreq) = inr (Token up)) ∧
  parseTenant (r_Header lreq) = TenantID up ∧
  (Name up ≠ "" → query_Get (RawQuery (listenURL up endpointID)) "name" = Name up).
Proof.
  intros Hne Hslash Hd Hu Hdh Hlh dreq lreq.
  assert (Path (dialURL d endpointID) = tcpPrefix +:+ endpointID) as Hdp.
  { unfold dialURL. destruct (d_URL d) as [u|]; simpl; [by rewrite (Hd u)|done]. }
  assert (Path (listenURL up endpointID) = upstreamPrefix +:+ endpointID) as Hlp.
  { unfold listenURL. destruct (u_URL up) as [u|]; simpl; [by rewrite (Hu u)|done]. }
  split_and!.
  - unfold registerRoutes. cbn [r_Path r_Method dreq]. rewrite Hdp, CutPrefix_app, HasPrefix_app.
    by rewrite decide_True.
  - intros Ht. apply parseToken_bearer. by apply (dial_authorization _ _ Hdh).
  - unfold upstream_registerRoutes. cbn [r_Path r_Method lreq]. rewrite Hlp, CutPrefix_app, HasPrefix_app.
    by rewrite decide_True.
  - intros Ht. apply parseToken_bearer. by apply (dial_authorization _ _ Hlh).
  - exact (dial_tenant _ _ Hlh).
  - intros Hn. unfold listenURL. simpl. rewrite decide_True by done. done.
Qed.

(** C28. Reconnecting does not leak: at any point a listener holds at most the
    session it uses and the one it is about to use; [Shutdown] closes the
    session in use for good; and a listener that is shut down while it is not
    connecting holds no session from then on, so that what stays open after a
    [Shutdown] can only come from a connect that was under way. *)
Theorem listener_sessions l :
  listener_reachable l →
  (∀ x, x ∈ l_open l → l_sess l = Some x ∨ l_phase l = Storing x) ∧
  ∀ l', rtc listener_next (listener_Shutdown l) l' →
    (∀ x, l_sess l = Some x → x ∉ l_open l') ∧ (¬ connecting l → l_open l' = ∅).
Proof.
  intros (_&Hsess&Hph)%listener_reachable_ok. split.
  { intros x Hx. destruct (l_phase l); try by left; apply Hph.
    destruct Hph as (_&_&Hph). by destruct (Hph x Hx) as [?| ->]; [left|right]. }
  intros l' Hr. split.
  - intros x Hx. assert (closed_session x (listener_Shutdown l)) as Hcl.
    { split_and!; [by apply Hsess| |]; simpl; [rewrite Hx; set_solver|]. intros Hst. rewrite Hst in Hph. tauto. }
    assert (closed_session x l') as (_&?&_); [|done]. clear -Hr Hcl. induction Hr; eauto using closed_session_step.
  - intros Hns. assert (released (listener_Shutdown l)) as Hrel.
    { split; [|done]. assert (∀ x, x ∈ l_open l → l_sess l = Some x) as Hone.
      { destruct (l_phase l) eqn:Hp; try done. destruct Hns. right. by eexists. }
      simpl. destruct (l_sess l) as [s|]; set_solver. }
    assert (released l') as [? _]; [|done]. clear -Hr Hrel. induction Hr; eauto using released_step.
Qed.

(** C40. A shutdown can miss a session: a listener can be storing a new session
    while the one it replaces is still its own, and when [Shutdown] runs there
    the new session is open after it and stays open, about to be stored or in
    use by the listener, for as long as [Shutdown] is not called again and the
    session does not fail. *)
Theorem shutdown_race_leaks :
  (∃ l, listener_reachable l ∧ l_phase l = Storing 1 ∧ l_sess l = Some 0%nat ∧ l_cancelled l = false) ∧
  ∀ l x, listener_reachable l → l_phase l = Storing x → x ∈ l_open l →
    ∀ l', rtc unattended (listener_Shutdown l) l' →
      x ∈ l_open l' ∧ (l_phase l' = Storing x ∨ l_sess l' = Some x).
Proof.
  split.
  - eexists. split.
    + eapply rtc_l; [eexists; by apply step_connected|]. eapply rtc_l; [eexists; by apply step_store|].
      eapply rtc_l; [eexists; by eapply step_disconnected; [done|done|set_solver]|].
      apply rtc_once. eexists. by apply step_connected.
    + done.
  - intros l x (_&_&Hph)%listener_reachable_ok Hp Ho l' Hr. rewrite Hp in Hph. destruct Hph as (_&Hne&_).
    assert (missed x (listener_Shutdown l)) as Hm.
    { split; [|by left]. simpl. destruct (l_sess l); [|done]. set_solver. }
    assert (missed x l') as [? [[? _]|[_ ?]]]; [|by eauto..]. clear -Hr Hm. induction Hr; eauto using missed_step.
Qed.

(** C38. The waits back off and stay bounded: for a minimum above zero, at most
    the maximum, and a maximum below 2^47 nanoseconds (39 hours), a backoff
    that retries forever always allows the next attempt, the wait before it is
    at least the minimum doubled with every attempt up to the maximum, and at
    most a tenth more than the maximum and one nanosecond of rounding (11 for
    ten waits), for every outcome of the jitter. *)
Theorem backoff_bounded oob rs min max i w ok :
  0 < min ≤ max → max < 2 ^ 47 → Forall unit_float rs →
  run_backoffs oob rs (New 0 min max) !! i = Some (w, ok) →
  ok = true ∧ Z.min (min * 2 ^ Z.of_nat i) max ≤ w ∧ 10 * w ≤ 11 * max + 11.
Proof.
  intros Hmin Hmax Hrs Hi. apply (run_backoffs_bounds oob rs (New 0 min max) i w ok Hrs); [|done].
  unfold backoff_wf, New. simpl. lia.
Qed.

(** A limited backoff allows one attempt more than its limit: of the calls
    of a backoff made with [retries] above zero, the first [retries + 1] allow
    an attempt and every later one refuses. *)
Theorem backoff_attempts_exact oob rs retries min max i res :
  0 < retries < 2 ^ 62 → run_backoffs oob rs (New retries min max) !! i = Some res →
  res.2 = bool_decide (Z.of_nat i ≤ retries).
Proof.
  intros Hret.
  assert (∀ k b, attempts b = k → Client.retries b = retries → 0 ≤ k ≤ retries + 1 →
    run_backoffs oob rs b !! i = Some res → res.2 = bool_decide (k + Z.of_nat i ≤ retries)) as Hgen; [|intros Hi; apply (Hgen 0) in Hi; [done|done|done|lia]].
  revert i. induction rs as [|r rs IH]; intros i k b Hk Hr Hle Hi; [done|]. simpl in Hi.
  unfold Backoff_Backoff in Hi. rewrite Hk, Hr in Hi. case_decide as Hd.
  - destruct i as [|i]; simpl in Hi.
    + injection Hi as <-. simpl. symmetry. apply bool_decide_eq_false. lia.
    + rewrite (IH _ k b Hk Hr Hle Hi). apply bool_decide_ext. lia.
  - destruct i as [|i]; simpl in Hi.
    + injection Hi as <-. simpl. symmetry. apply bool_decide_eq_true. lia.
    + eapply (IH _ (k + 1)) in Hi; [rewrite Hi; apply bool_decide_ext; lia| |done|lia].
      simpl. apply i64_small. unfold is_i64. lia.
Qed.

(** ** Witnesses *)

Definition ex_oob (f : float64) : Z := 0.
Definition ex_rands : list float64 := [S754_zero false; S754_finite false 1 (-1); S754_zero false; S754_finite false 3 (-2)].
Definition ex_waits : list (Z * bool) := run_backoffs ex_oob ex_rands (New 0 100 400).

Lemma ex_rands_ok : Forall unit_float ex_rands.
Proof. repeat constructor; simpl; lia. Qed.

Lemma backoff_bounded_witness :
  ∃ w, run_backoffs ex_oob ex_rands (New 0 100 400) !! 1%nat = Some (w, true) ∧ 200 ≤ w ∧ 10 * w ≤ 4411.
Proof.
  destruct (run_backoffs ex_oob ex_rands (New 0 100 400) !! 1%nat) as [[w ok]|] eqn:Hi; [|by vm_compute in Hi].
  destruct (backoff_bounded ex_oob ex_rands 100 400 1 w ok) as (->&Hlo&Hhi); [lia|lia|apply ex_rands_ok|exact Hi|].
  exists w. split; [done|]. simpl in Hlo. lia.
Defined.

Lemma backoff_attempts_exact_witness :
  snd <$> run_backoffs ex_oob ex_rands (New 1 100 400) !! 2%nat = Some false.
Proof.
  destruct (run_backoffs ex_oob ex_rands (New 1 100 400) !! 2%nat) as [res|] eqn:Hi; [|by vm_compute in Hi].
  simpl. f_equal. apply (backoff_attempts_exact ex_oob ex_rands 1 100 400 2 res); [lia|exact Hi].
Defined.

Definition ex_upstream : Upstream := mkUpstream None "secret" "acme" "host" 0 0 0 false.
Definition ex_dialer : Dialer := mkDialer (Some (mkURL "https" "piko.example.com" "" [])) "secret".

(** Two attempts that are retried, then one that succeeds. *)
Definition ex_attempts : list attempt :=
  [mkAttempt (λ _ _ _, NoResponse "refused") false (S754_zero false) false;
   mkAttempt (λ _ _ _, Refused 503 "bad handshake" None) false (S754_zero false) false;
   mkAttempt (λ _ _ _, Upgraded) false (S754_zero false) false].

Lemma connect_retries_witness :
  ∃ waits, connect ex_oob ex_upstream "my-endpoint" ex_attempts = (waits, Some (Connected 262144)) ∧
    ∀ i w, waits !! i = Some w → Z.min (100 * Millisecond * 2 ^ Z.of_nat i) (15 * Second) ≤ w.
Proof.
  pose proof (connect_retries ex_oob ex_upstream "my-endpoint" ex_attempts) as Hc. cbv zeta in Hc.
  destruct (connect ex_oob ex_upstream "my-endpoint" ex_attempts) as [waits res] eqn:Hconn.
  assert (res = Some (Connected 262144)) as ->.
  { assert ((connect ex_oob ex_upstream "my-endpoint" ex_attempts).2 = Some (Connected 262144)) as Hres by by vm_compute.
    by rewrite Hconn in Hres. }
  exists waits. split; [done|]. intros i w Hi. destruct Hc as [_ Hw].
  change (MinReconnectBackoff ex_upstream) with 0 in Hw. change (MaxReconnectBackoff ex_upstream) with 0 in Hw.
  rewrite (decide_True (P := (0 = 0)) _ _ eq_refl) in Hw. rewrite (decide_True (P := (0 = 0)) _ _ eq_refl) in Hw.
  apply (Hw ltac:(done) ltac:(done)); [|done]. by repeat constructor.
Defined.

Lemma client_requests_routed_witness :
  registerRoutes (mkRequest "GET" "piko.example.com" (Path (dialURL ex_dialer "my-endpoint"))
    (dial_header (mkDialOptions "secret" "" false))) = RouteTCP "my-endpoint".
Proof.
  apply (client_requests_routed ex_dialer ex_upstream "my-endpoint" "piko.example.com"
    (dial_header (mkDialOptions "secret" "" false)) (dial_header (mkDialOptions "secret" "acme" false))).
  - done.
  - by vm_compute.
  - by intros u [= <-].
  - done.
  - by intros k _.
  - by intros k _.
Defined.

Lemma listener_sessions_witness :
  ∃ l, listener_reachable l ∧ l_open l ≠ ∅ ∧ ∀ l', rtc listener_next (listener_Shutdown l) l' → l_open l' = ∅.
Proof.
  exists (store_session 0 (mkListener None false ({[0%nat]} ∪ ∅) 1 (Storing 0))).
  assert (listener_reachable (store_session 0 (mkListener None false ({[0%nat]} ∪ ∅) 1 (Storing 0)))) as Hr.
  { eapply rtc_l; [eexists; by apply step_connected|]. apply rtc_once. eexists. by apply step_store. }
  split; [exact Hr|]. split; [simpl; set_solver|]. intros l' Hl'.
  destruct (listener_sessions _ Hr) as [_ Hs]. apply (Hs l' Hl'). by intros [?|[??]].
Defined.

Lemma shutdown_race_leaks_witness :
  let l := mkListener (Some 0%nat) true {[1%nat]} 2 (Storing 1) in
  1%nat ∈ l_open (store_session 1 l) ∧ l_sess (store_session 1 l) = Some 1%nat.
Proof.
  set (l1 := mkListener (Some 0%nat) false ({[1%nat]} ∪ ({[0%nat]} ∪ ∅)) 2 (Storing 1)).
  assert (listener_reachable l1) as Hr.
  { eapply rtc_l; [eexists; by apply step_connected|]. eapply rtc_l; [eexists; by apply step_store|].
    eapply rtc_l; [eexists; by eapply step_disconnected; [done|done|set_solver]|].
    apply rtc_once. eexists. by apply step_connected. }
  assert (listener_Shutdown l1 = mkListener (Some 0%nat) true {[1%nat]} 2 (Storing 1)) as Hl by by vm_compute.
  intros l. destruct shutdown_race_leaks as [_ Hrace].
  destruct (Hrace l1 1%nat Hr eq_refl ltac:(set_solver) (store_session 1 l)) as [Ho [Hp|Hs]]; [|done|by split].
  rewrite Hl. apply rtc_once. exists LStore. split_and!; [done|done|]. by apply step_store.
Defined.
