(* ===== verification/Admin.v ===== *)
(** * server/admin: the admin server

    Password sessions, the gate in front of the admin routes, and the
    forwarding of a request to another node.  HMAC-SHA256 is a parameter; a
    key, a message and a digest are strings of bytes. *)

From S2P Require Import Prelude GoLib NetLib Cluster HttpLib Auth.

Local Open Scope string_scope.

(** ** encoding/hex *)

Definition hex_digit (n : nat) : Ascii.ascii :=
  if decide (n < 10) then Ascii.ascii_of_nat (48 + n) else Ascii.ascii_of_nat (87 + n).

(** [hex.EncodeToString] *)
Fixpoint EncodeToString (s : string) : string :=
  match s with
  | EmptyString => EmptyString
  | String c s' =>
      let n := Ascii.nat_of_ascii c in
      String (hex_digit (n / 16)) (String (hex_digit (n mod 16)) (EncodeToString s'))
  end.

(** ** time: seconds since 1970 *)

Definition unixToInternal : Z := 62135596800.

(** [time.Unix(sec, 0)]; the seconds wrap. *)
Definition time_Unix (sec : Z) : time := (i64 (sec + unixToInternal) * Second)%Z.

(** [t.Unix()] *)
Definition Unix (t : time) : Z := (t / Second - unixToInternal)%Z.

(** ** password.go *)

Definition sessionCookie : string := "piko_admin".
Definition sessionTTL : Z := (12 * Hour)%Z.

Record passwordAuth := mkPasswordAuth {
  password : string;
  key : string;
}.

Section admin.
Context (HMAC : string → string → string).

Definition newPasswordAuth (password : string) : passwordAuth :=
  mkPasswordAuth password (HMAC password "piko-admin-session-key/v1").

Definition sign (a : passwordAuth) (id : string) (expiry : Z) : string :=
  let body := id +:+ "." +:+ Itoa expiry in
  body +:+ "." +:+ EncodeToString (HMAC (key a) body).

(** [newSession]; [rand] is what [rand.Read] fills the 16 bytes with, [None]
    when it fails. *)
Definition newSession (rand : option string) (a : passwordAuth) (expiry : Z) : option string :=
  (λ id, sign a (EncodeToString id) expiry) <$> rand.

Definition valid (now : time) (a : passwordAuth) (token : string) : bool :=
  match Cut token "." with
  | None => false
  | Some (id, rest) =>
      match Cut rest "." with
      | None => false
      | Some (expiryStr, _) =>
          match Atoi expiryStr with
          | None => false
          | Some expiry =>
              if time_After now (time_Unix expiry) then false
              else bool_decide (token = sign a id expiry)
          end
      end
  end.

Record cookie := mkCookie {
  ck_value : string;
  ck_maxAge : Z;
  ck_secure : bool;
}.

Inductive login_result :=
  | LoginResponse (resp : response)
  | LoginSession (c : cookie) (expires_at : Z).

(** The fields of a request to the admin server: the part the proxy shares, its
    [forward] query, its session cookie, whether it arrived over TLS, and the
    password of its JSON body. *)
Record admin_request := mkAdminRequest {
  ar_request : request;
  ar_forward : option string;
  ar_cookie : option string;
  ar_tls : bool;
  ar_password : option string;
}.

Definition setCookie (r : admin_request) (value : string) (maxAge : Z) : cookie :=
  let secure := ar_tls r || bool_decide (ToLower (header_Get (r_Header (ar_request r)) "X-Forwarded-Proto") = "https") in
  mkCookie value maxAge secure.

Definition loginRoute (now : time) (rand : option string) (a : passwordAuth) (r : admin_request) : login_result :=
  match ar_password r with
  | None => LoginResponse (mkResponse StatusBadRequest "invalid request")
  | Some p =>
      if decide (p ≠ password a) then LoginResponse (mkResponse StatusUnauthorized "incorrect password")
      else
        let expiry := (now + sessionTTL)%Z in
        match newSession rand a (Unix expiry) with
        | None => LoginResponse (mkResponse StatusInternalServerError "")
        | Some session => LoginSession (setCookie r session (sessionTTL / Second)) (Unix expiry)
        end
  end.

Definition logoutRoute (r : admin_request) : cookie := setCookie r "" (-1).

(** [passwordAuth.Verify]: [None] lets the request through. *)
Definition password_Verify (now : time) (a : passwordAuth) (r : admin_request) : option response :=
  match ar_cookie r with
  | Some c => if valid now a c then None else Some (unauthorized "missing authorization")
  | None => Some (unauthorized "missing authorization")
  end.

(** ** server.go *)

Record adminServer := mkAdminServer {
  clusterState : option State;
  ready : bool;
  verifier : option MultiTenantVerifier;
  passwords : option passwordAuth;
}.

Definition NewServer (clusterState : option State) (verifier : option MultiTenantVerifier) (password : string) :
    adminServer :=
  mkAdminServer clusterState false verifier
    (if decide (password = "") then None else Some (newPasswordAuth password)).

Definition SetReady (b : bool) (s : adminServer) : adminServer :=
  mkAdminServer (clusterState s) b (verifier s) (passwords s).

Inductive admin_result :=
  | Page
  | Status (status : nat)
  | Login (l : login_result)
  | Logout (c : option cookie)
  | Reject (resp : response)
  | ForwardTo (adminAddr : string)
  | Local.

Definition StatusOK : nat := 200.
Definition StatusNoContent : nat := 204.
Definition StatusNotFound : nat := 404.
Definition StatusServiceUnavailable : nat := 503.

Definition healthRoute : admin_result := Status StatusOK.

Definition readyRoute (s : adminServer) : admin_result :=
  if negb (ready s) then Status StatusServiceUnavailable else Status StatusOK.

(** The middleware in front of the routes: [None] lets the request through. *)
Definition admin_gate (now : time) (s : adminServer) (r : admin_request) : option response :=
  let h := r_Header (ar_request r) in
  let tokens v := match middleware_Verify v h with inl resp => Some resp | inr _ => None end in
  match verifier s, passwords s with
  | Some v, Some p =>
      if decide (header_Get h "Authorization" ≠ "" ∨ header_Get h "x-piko-authorization" ≠ "")
      then tokens v else password_Verify now p r
  | Some v, None => tokens v
  | None, Some p => password_Verify now p r
  | None, None => None
  end.

Definition forwardInterceptor (cluster : State) (r : admin_request) : admin_result :=
  match ar_forward r with
  | None => Local
  | Some forward =>
      if decide (forward = cs_localID cluster) then Local
      else
        match State_Node cluster forward with
        | None => Status StatusNotFound
        | Some node => ForwardTo (cn_AdminAddr node)
        end
  end.

(** The routes of the server in the order [NewServer] registers them; [Local]
    stands for the routes behind the middleware, and for a path that has no
    route, which takes the middleware too. *)
Definition admin_serve (now : time) (rand : option string) (s : adminServer) (r : admin_request) : admin_result :=
  let path := r_Path (ar_request r) in
  let get := bool_decide (r_Method (ar_request r) = "GET") in
  let post := bool_decide (r_Method (ar_request r) = "POST") in
  if get && bool_decide (path = "/health") then healthRoute
  else if get && bool_decide (path = "/ready") then readyRoute s
  else if get && bool_decide (path = "/" ∨ path = "/dashboard") then Page
  else if post && bool_decide (path = "/login") then
    match passwords s with
    | None => Status StatusNotFound
    | Some p => Login (loginRoute now rand p r)
    end
  else if post && bool_decide (path = "/logout") then
    match passwords s with
    | None => Status StatusNoContent
    | Some _ => Logout (Some (logoutRoute r))
    end
  else
    match admin_gate now s r with
    | Some resp => Reject resp
    | None =>
        match clusterState s with
        | None => Local
        | Some cluster => forwardInterceptor cluster r
        end
    end.

(** ** Lemmas *)

(** A token this server issues for some identifier, that has not expired. *)
Definition issued (now : time) (a : passwordAuth) (token : string) : Prop :=
  ∃ id expiry, Contains id "." = false ∧ is_i64 expiry ∧ token = sign a id expiry ∧ (now ≤ time_Unix expiry)%Z.

Lemma Cut_first id rest : Contains id "." = false → Cut (id +:+ String "." rest) "." = Some (id, rest).
Proof.
  intros Hid. apply Cut_no_sep. destruct (Cut id ".") as [p|] eqn:Hc; [|done].
  assert (Contains id "." = true) by (apply Contains_Cut; by eexists). congruence.
Qed.

Lemma sign_parts a id expiry :
  sign a id expiry = id +:+ String "." (Itoa expiry +:+ String "." (EncodeToString (HMAC (key a) (id +:+ "." +:+ Itoa expiry)))).
Proof. unfold sign. rewrite !string_app_assoc. done. Qed.

Lemma valid_spec now a token : valid now a token = true ↔ issued now a token.
Proof.
  unfold valid, issued. split.
  - destruct (Cut token ".") as [[id rest]|] eqn:H1; [|done].
    destruct (Cut rest ".") as [[es tail]|] eqn:H2; [|done]. destruct (Atoi es) as [expiry|] eqn:H3; [|done].
    unfold time_After. case_bool_decide as Hnow; [done|]. intros Htok%bool_decide_eq_true.
    exists id, expiry. split_and!; [by eapply Cut_before|by eapply Atoi_range|done|lia].
  - intros (id&expiry&Hid&He&->&Hnow). rewrite sign_parts, Cut_first by done.
    rewrite Cut_first by by apply Itoa_no_dot. rewrite Atoi_Itoa by done. unfold time_After.
    rewrite bool_decide_false by lia. apply bool_decide_eq_true. by rewrite sign_parts.
Qed.

(** A session identifier has no dot. *)
Lemma hex_digit_no_dot n : n < 16 → hex_digit n ≠ "."%char.
Proof. intros Hn. do 16 (destruct n as [|n]; [by vm_compute|]). lia. Qed.

Lemma EncodeToString_no_dot s : Contains (EncodeToString s) "." = false.
Proof.
  induction s as [|c s IH]; [done|]. cbn [EncodeToString Contains]. rewrite IH.
  pose proof (Ascii.nat_ascii_bounded c). assert (Ascii.nat_of_ascii c / 16 < 16) by (apply Nat.Div0.div_lt_upper_bound; lia).
  rewrite !bool_decide_false by (apply hex_digit_no_dot; first [done|apply Nat.mod_upper_bound; lia]). done.
Qed.

(** A session is valid exactly until it expires. *)
Lemma valid_session now a id expiry :
  is_i64 expiry → valid now a (sign a (EncodeToString id) expiry) = bool_decide (now ≤ time_Unix expiry)%Z.
Proof.
  intros He. unfold valid. rewrite sign_parts, Cut_first by apply EncodeToString_no_dot.
  rewrite Cut_first by apply Itoa_no_dot. rewrite Atoi_Itoa by done. unfold time_After.
  rewrite <-sign_parts. destruct (decide (now ≤ time_Unix expiry)%Z).
  - rewrite (bool_decide_false (time_Unix expiry < now)%Z) by lia. rewrite !bool_decide_true by done. done.
  - rewrite (bool_decide_true (time_Unix expiry < now)%Z) by lia. by rewrite bool_decide_false.
Qed.

(** Seconds and back. *)
Lemma time_Unix_Unix t : (0 ≤ t < 2 ^ 62 * Second)%Z → (time_Unix (Unix t) = t / Second * Second)%Z.
Proof.
  intros Ht. unfold time_Unix, Unix.
  assert (0 ≤ t / Second < 2 ^ 62)%Z by (unfold Second, Millisecond in *; split; [apply Z.div_pos|apply Z.div_lt_upper_bound]; lia).
  rewrite i64_small by (unfold is_i64; lia). f_equal. lia.
Qed.

Lemma password_Verify_spec now a r :
  password_Verify now a r = None ↔ ∃ c, ar_cookie r = Some c ∧ issued now a c.
Proof.
  unfold password_Verify. destruct (ar_cookie r) as [c|]; [|by split; [|intros (?&?&_)]].
  destruct (valid now a c) eqn:Hv.
  - apply valid_spec in Hv. split; [by exists c|done].
  - split; [done|]. intros (c'&[= <-]&Hi%valid_spec). congruence.
Qed.

(** What a request must show to reach the routes behind the gate. *)
Definition admitted (now : time) (s : adminServer) (r : admin_request) : Prop :=
  (verifier s = None ∧ passwords s = None) ∨
  (∃ v t, verifier s = Some v ∧ middleware_Verify v (r_Header (ar_request r)) = inr t) ∨
  (∃ p c, passwords s = Some p ∧ ar_cookie r = Some c ∧ issued now p c).

Lemma admin_gate_admitted now s r : admin_gate now s r = None → admitted now s r.
Proof.
  unfold admin_gate, admitted.
  assert (∀ v, match middleware_Verify v (r_Header (ar_request r)) with inl resp => Some resp | inr _ => None end = None →
    ∃ t, middleware_Verify v (r_Header (ar_request r)) = inr t) as Htok.
  { intros v. destruct (middleware_Verify v _) as [|t]; [done|by exists t]. }
  destruct (verifier s) as [v|], (passwords s) as [p|]; [case_decide|..].
  - intros [t Ht]%Htok. right; left; eauto.
  - intros (c&?&?)%password_Verify_spec. right; right; eauto.
  - intros [t Ht]%Htok. right; left; eauto.
  - intros (c&?&?)%password_Verify_spec. right; right; eauto.
  - by left.
Qed.

(** A request that reaches the interceptor was admitted. *)
Lemma admin_serve_behind now rand s r res :
  admin_serve now rand s r = res → (res = Local ∨ ∃ addr, res = ForwardTo addr) →
  admitted now s r ∧ match clusterState s with None => res = Local | Some c => forwardInterceptor c r = res end.
Proof.
  intros Hs Hres. unfold admin_serve in Hs. cbv zeta in Hs.
  assert (∀ x, x = res → match x with Local | ForwardTo _ => True | _ => False end) as Hb.
  { intros x ->. by destruct Hres as [-> | [? ->]]. }
  repeat match type of Hs with (if ?b then _ else _) = _ =>
    match type of b with bool => destruct b; [exfalso|] end end.
  - by apply Hb in Hs.
  - unfold readyRoute in Hs. by destruct (negb (ready s)); apply Hb in Hs.
  - by apply Hb in Hs.
  - by destruct (passwords s); apply Hb in Hs.
  - by destruct (passwords s); apply Hb in Hs.
  - destruct (admin_gate now s r) eqn:Hg; [by apply Hb in Hs|].
    split; [by apply admin_gate_admitted|]. by destruct (clusterState s).
Qed.

End admin.

(** ** Properties *)

(** C32. Only issued sessions are accepted: a cookie is valid exactly when it is
    the session token this password signs for some identifier and expiry that
    has not passed; so a token signed with another key is accepted only where
    the two keys give the same digest of its body. *)
Theorem session_authentic HMAC now a token :
  (valid HMAC now a token = true ↔
   ∃ id expiry, Contains id "." = false ∧ is_i64 expiry ∧ token = sign HMAC a id expiry ∧ (now ≤ time_Unix expiry)%Z) ∧
  (∀ b id expiry, Contains id "." = false → is_i64 expiry → token = sign HMAC b id expiry →
   valid HMAC now a token = true →
   EncodeToString (HMAC (key a) (id +:+ "." +:+ Itoa expiry)) = EncodeToString (HMAC (key b) (id +:+ "." +:+ Itoa expiry))).
Proof.
  split; [apply valid_spec|]. intros b id expiry Hid He -> (id'&expiry'&Hid'&He'&Heq&_)%valid_spec.
  rewrite !sign_parts in Heq. pose proof (f_equal (λ s, Cut s ".") Heq) as Hc. cbv beta in Hc.
  rewrite !Cut_first in Hc by done. injection Hc as <- Hrest.
  pose proof (f_equal (λ s, Cut s ".") Hrest) as Hc. cbv beta in Hc. rewrite !Cut_first in Hc by apply Itoa_no_dot.
  injection Hc as Hexp Hmac. apply Itoa_inj in Hexp as <-; [|done..]. done.
Qed.

(** A login lasts its time: the right password gives a session cookie that
    is valid until the second its twelve hours end in, and at no later time;
    any other password, or none, gives no session. *)
Theorem login_session_lifetime HMAC now rand password r t :
  (0 ≤ now)%Z → (now + sessionTTL < 2 ^ 62 * Second)%Z →
  let a := newPasswordAuth HMAC password in
  (ar_password r = Some password → rand ≠ None →
   ∃ c, loginRoute HMAC now rand a r = LoginSession c (Unix (now + sessionTTL)) ∧
     ck_maxAge c = 43200%Z ∧
     (valid HMAC t a (ck_value c) = true ↔ (t ≤ (now + sessionTTL) / Second * Second)%Z)) ∧
  (∀ c e, loginRoute HMAC now rand a r = LoginSession c e → ar_password r = Some password).
Proof.
  intros Hnow Hbig a. unfold loginRoute. split.
  - intros -> Hr. simpl. rewrite decide_False by (by intros []). destruct rand as [id|]; [|done]. simpl.
    eexists. split_and!; [done|done|]. simpl. unfold sessionTTL, Hour, Minute in *.
    rewrite valid_session, time_Unix_Unix by (unfold is_i64, Unix, unixToInternal, Second, Millisecond in *;
      try lia; pose proof (Z.div_pos (now + 12 * (60 * (60 * (1000 * 1000000)))) (1000 * 1000000));
      pose proof (Z.div_lt_upper_bound (now + 12 * (60 * (60 * (1000 * 1000000)))) (1000 * 1000000) (2 ^ 62)); lia).
    apply bool_decide_eq_true.
  - intros c e. destruct (ar_password r) as [p|]; [|done]. simpl.
    destruct (decide (p = password)) as [->|Hp]; [done|]. by rewrite decide_True.
Qed.

(** C19. The admin server is closed without a credential: a request reaches the
    metrics, profiling and status routes, or is forwarded to another node, only
    when the server asks for no credential, or its token is accepted, or its
    cookie is a session the password signed that has not expired; it is
    forwarded only to the node it names, which handles it itself. *)
Theorem admin_requires_credential HMAC now rand s r :
  (admin_serve HMAC now rand s r = Local ∨ (∃ addr, admin_serve HMAC now rand s r = ForwardTo addr)) →
  admitted HMAC now s r ∧
  (∀ addr, admin_serve HMAC now rand s r = ForwardTo addr →
   ∃ c id node, clusterState s = Some c ∧ ar_forward r = Some id ∧ id ≠ cs_localID c ∧
     cs_nodes c !! id = Some node ∧ addr = cn_AdminAddr node ∧
     ∀ now' rand' s' c', clusterState s' = Some c' → cs_localID c' = id →
       ∀ addr', admin_serve HMAC now' rand' s' r ≠ ForwardTo addr').
Proof.
  intros Hres. destruct (admin_serve_behind HMAC now rand s r _ eq_refl Hres) as [Hadm Hfw]. split; [done|].
  intros addr Heq. rewrite Heq in Hfw. destruct (clusterState s) as [c|]; [|done]. unfold forwardInterceptor in Hfw.
  destruct (ar_forward r) as [id|] eqn:Hf; [|done]. case_decide as Hne; [done|].
  unfold State_Node in Hfw. destruct (cs_nodes c !! id) as [node|] eqn:Hn; [|done].
  exists c, id, node. injection Hfw as <-. split_and!; try done.
  intros now' rand' s' c' Hs' Hid addr' Heq'.
  destruct (admin_serve_behind HMAC now' rand' s' r _ eq_refl ltac:(right; by eexists)) as [_ Hfw'].
  rewrite Hs', Heq' in Hfw'. unfold forwardInterceptor in Hfw'. by rewrite Hf, decide_True in Hfw'.
Qed.

(** ** Witnesses *)

(** A digest for the examples: the length of the key and the message. *)
Definition ex_HMAC (k m : string) : string := k +:+ m.

Definition ex_auth : passwordAuth := newPasswordAuth ex_HMAC "secret".
Definition ex_token : string := sign ex_HMAC ex_auth (EncodeToString "0123456789abcdef") 1700000000.
Definition ex_now : time := time_Unix 1699999999.

Lemma session_authentic_witness : valid ex_HMAC ex_now ex_auth ex_token = true.
Proof.
  apply (session_authentic ex_HMAC ex_now ex_auth ex_token).
  exists (EncodeToString "0123456789abcdef"), 1700000000%Z.
  split_and!; [by vm_compute|by split; vm_compute|done|by vm_compute].
Defined.

Definition ex_request (path : string) (forward cookie password : option string) : admin_request :=
  mkAdminRequest (mkRequest "GET" "10.0.0.1:8002" path []) forward cookie false password.

Lemma login_session_lifetime_witness :
  ∃ c, loginRoute ex_HMAC ex_now (Some "0123456789abcdef") ex_auth (ex_request "/login" None None (Some "secret")) =
      LoginSession c (Unix (ex_now + sessionTTL)) ∧
    valid ex_HMAC (ex_now + sessionTTL) ex_auth (ck_value c) = true ∧
    valid ex_HMAC (ex_now + sessionTTL + 1) ex_auth (ck_value c) = false.
Proof.
  destruct (login_session_lifetime ex_HMAC ex_now (Some "0123456789abcdef") "secret"
    (ex_request "/login" None None (Some "secret")) (ex_now + sessionTTL)) as [Hl _]; [by vm_compute|by vm_compute|].
  destruct (Hl eq_refl ltac:(done)) as (c&Hc&_&Hv). exists c. split; [exact Hc|].
  split; [apply Hv; by vm_compute|]. vm_compute in Hc. injection Hc as <-. by vm_compute.
Defined.

Definition ex_cluster : State :=
  (AddNode (NewState (mkCNode "n1" NodeStatusActive "10.0.0.1:8000" "10.0.0.1:8002" ∅)).1
     (mkCNode "n2" NodeStatusActive "10.0.0.2:8000" "10.0.0.2:8002" ∅)).1.

Lemma admin_requires_credential_witness :
  let s := NewServer ex_HMAC (Some ex_cluster) None "secret" in
  let r := ex_request "/status/cluster/nodes" (Some "n2") (Some ex_token) None in
  admin_serve ex_HMAC ex_now None s r = ForwardTo "10.0.0.2:8002" ∧ admitted ex_HMAC ex_now s r.
Proof.
  assert (admin_serve ex_HMAC ex_now None (NewServer ex_HMAC (Some ex_cluster) None "secret")
    (ex_request "/status/cluster/nodes" (Some "n2") (Some ex_token) None) = ForwardTo "10.0.0.2:8002") as Hs by by vm_compute.
  split; [exact Hs|]. apply (admin_requires_credential ex_HMAC ex_now None). right. eexists. exact Hs.
Defined.
