(* ===== verification/ConfigLib.v ===== *)
(** * pkg/config and command line flags

    Pointers to the fields of a configuration, the calls that register flags,
    and loading a YAML file with its environment variables expanded.  pflag, the
    YAML decoder and the file system are third party or outside: a flag is the
    call that registers it, and decoding and reading are parameters. *)

From coqutil Require Import Datatypes.RecordSetters.
From S2P Require Import Prelude GoLib NetLib.

Local Open Scope string_scope.

(** An [error] is its message; [%w] puts a prefix in front of it. *)
Abbreviation error := string (only parsing).

Definition Errorf (prefix : string) (err : option error) : option error :=
  (λ e, prefix +:+ ": " +:+ e) <$> err.

(** The error of the first check that fails. *)
Fixpoint first_error (l : list (option error)) : option error :=
  match l with
  | [] => None
  | None :: l' => first_error l'
  | Some e :: _ => Some e
  end.

(** [if cond { return fmt.Errorf(msg) }] *)
Definition check (P : Prop) `{Decision P} (msg : error) : option error :=
  if decide P then Some msg else None.

(** ** Pointers *)

(** A pointer to an [A] in a memory [S]. *)
Record ptr (S A : Type) := mkPtr {
  deref : S → A;
  store : (A → A) → S → S;
}.
Arguments mkPtr {S A} _ _.
Arguments deref {S A} _ _.
Arguments store {S A} _ _ _.

(** [&p.getter] *)
Definition field {S R E} (p : ptr S R) (getter : R → E) {set : Setter getter} : ptr S E :=
  mkPtr (λ s, getter (deref p s)) (λ f, store p (set f)).

Definition whole {S} : ptr S S := mkPtr (λ s, s) (λ f s, f s).

(** ** Flags *)

(** A call such as [fs.StringVar(&c.Field, name, value, usage)]. *)
Inductive flag (S : Type) :=
  | Var (A : Type) (p : ptr S A) (name : string) (value : A).
Arguments Var {S A} _ _ _.

Definition flag_name {S} (f : flag S) : string := let 'Var _ name _ := f in name.

(** Defining a flag stores its default value. *)
Definition define {S} (s : S) (f : flag S) : S := let 'Var p _ value := f in store p (λ _, value) s.

(** [fs.StringVar(&c.Field, name, c.Field, usage)]: the default is what the
    field holds. *)
Definition FieldVar {S R E} (s : S) (c : ptr S R) (getter : R → E) {set : Setter getter} (name : string) : flag S :=
  Var (field c getter) name (getter (deref c s)).

(** Storing through a flag is read back from it. *)
Definition stores {S} (f : flag S) : Prop :=
  let 'Var p _ _ := f in ∀ v s, deref p (store p (λ _, v) s) = v.

(** Storing through [f] leaves what [g] points to. *)
Definition separate {S} (f g : flag S) : Prop :=
  let 'Var p _ _ := f in let 'Var q _ _ := g in ∀ v s, deref q (store p (λ _, v) s) = deref q s.

(** What registering a list of flags asks for: pflag panics when a name is
    defined twice. *)
Record flags_ok {S} (s : S) (l : list (flag S)) : Prop := {
  flags_names : NoDup (flag_name <$> l);
  flags_keep : foldl define s l = s;
  flags_store : Forall stores l;
  flags_separate : ∀ i j f g, i ≠ j → l !! i = Some f → l !! j = Some g → separate f g;
}.

(** ** pkg/config/config.go *)

Record load_config := mkLoadConfig {
  lo_Path : string;
  lo_ExpandEnv : bool;
}.

Definition load_RegisterFlags {S} (c : ptr S load_config) : list (flag S) :=
  [Var (field c lo_Path) "config.path" ""; Var (field c lo_ExpandEnv) "config.expand-env" false].

(** ** os.Expand *)

Definition isShellSpecialVar (c : Ascii.ascii) : bool :=
  bool_decide (c ∈ ["*"; "#"; "$"; "@"; "!"; "?"; "-"; "0"; "1"; "2"; "3"; "4"; "5"; "6"; "7"; "8"; "9"]%char).

Definition isAlphaNum (c : Ascii.ascii) : bool :=
  let n := Ascii.nat_of_ascii c in
  bool_decide (c = "_"%char ∨ 48 ≤ n ≤ 57 ∨ 97 ≤ n ≤ 122 ∨ 65 ≤ n ≤ 90)%nat.

Fixpoint span_alphanum (s : string) : string :=
  match s with
  | String c s' => if isAlphaNum c then String c (span_alphanum s') else ""
  | EmptyString => ""
  end.

(** [os.getShellName]: the name and the number of bytes it takes. *)
Definition getShellName (s : string) : string * nat :=
  match s with
  | String "{" s1 =>
      match s1 with
      | String c (String "}" _) => if isShellSpecialVar c then (String c "", 3) else
          match Cut s1 "}" with
          | Some ("", _) => ("", 2)
          | Some (name, _) => (name, String.length name + 2)%nat
          | None => ("", 1)
          end
      | _ =>
          match Cut s1 "}" with
          | Some ("", _) => ("", 2)
          | Some (name, _) => (name, String.length name + 2)%nat
          | None => ("", 1)
          end
      end
  | String c _ =>
      if isShellSpecialVar c then (String c "", 1)
      else (span_alphanum s, String.length (span_alphanum s))
  | EmptyString => ("", 0)
  end.

(** [os.Expand]; [skip] counts the bytes of a name that are still to be passed
    over. *)
Fixpoint Expand (mapping : string → string) (skip : nat) (s : string) : string :=
  match s with
  | EmptyString => ""
  | String c s' =>
      match skip with
      | S skip' => Expand mapping skip' s'
      | 0 =>
          if decide (c = "$"%char ∧ s' ≠ "") then
            let '(name, w) := getShellName s' in
            (if decide (name = "") then if decide (0 < w)%nat then "" else "$" else mapping name) +:+
            Expand mapping w s'
          else String c (Expand mapping 0 s')
      end
  end.

Section load.
(** [os.Getenv], [os.ReadFile], and decoding YAML into a configuration. *)
Context {C : Type} (Getenv : string → string) (ReadFile : string → error + string) (Decode : string → C → error + C).

(** The function [expandEnv] maps a variable with. *)
Definition env_value (v : string) : string :=
  match Cut v ":" with
  | Some (key, dflt) => if decide (Getenv key = "") then dflt else Getenv key
  | None => Getenv v
  end.

Definition expandEnv (s : string) : string := Expand env_value 0 s.

Definition Load (conf : C) (path : string) (expand : bool) : error + C :=
  if decide (path = "") then inr conf
  else
    match ReadFile path with
    | inl err => inl ("read file: " +:+ path +:+ ": " +:+ err)
    | inr buf =>
        match Decode (if expand then expandEnv buf else buf) conf with
        | inl err => inl ("parse config: " +:+ path +:+ ": " +:+ err)
        | inr conf' => inr conf'
        end
    end.

End load.

(** ** Loading TLS files *)

(** [crypto/tls] and [crypto/x509] over the files of the host: a key pair and a
    pool of certificates are opaque. *)
Class TLSEnv := {
  LoadX509KeyPair : string → string → error + string;
  os_ReadFile : string → error + string;
  AppendCertsFromPEM : string → bool;
}.

(** ** Lemmas *)

Lemma first_error_None l : first_error l = None ↔ Forall (λ o, o = None) l.
Proof.
  induction l as [|[e|] l IH]; simpl.
  - by split; [constructor|].
  - split; [done|]. by intros [? _]%Forall_cons.
  - rewrite IH, Forall_cons. by intuition.
Qed.

Lemma check_None (P : Prop) `{Decision P} msg : check P msg = None ↔ ¬ P.
Proof. unfold check. by case_decide. Qed.

Lemma Errorf_None prefix err : Errorf prefix err = None ↔ err = None.
Proof. by destruct err. Qed.

(** Turn "no check fails" into the facts that were checked. *)
Ltac validated H :=
  repeat first
    [ rewrite first_error_None in H | rewrite Forall_app in H | rewrite Forall_cons in H
    | rewrite check_None in H | rewrite Errorf_None in H ].

Lemma app_String c a b : String c a +:+ b = String c (a +:+ b).
Proof. done. Qed.

Lemma app_empty_r s : s +:+ "" = s.
Proof. induction s as [|c s IH]; [done|]. by rewrite app_String, IH. Qed.

(** Passing over a name. *)
Lemma Expand_skip m a b : Expand m (String.length a) (a +:+ b) = Expand m 0 b.
Proof. induction a as [|c a IH]; [done|]. exact IH. Qed.

Lemma Expand_plain m a b : Contains a "$" = false → Expand m 0 (a +:+ b) = a +:+ Expand m 0 b.
Proof.
  induction a as [|c a IH]; [done|]. rewrite !app_String. cbn [Contains Expand]. intros [Hc Ha]%orb_false_iff.
  apply bool_decide_eq_false in Hc. rewrite decide_False by tauto. by rewrite IH.
Qed.

Lemma string_length_app a b : String.length (a +:+ b) = (String.length a + String.length b)%nat.
Proof. induction a as [|c a IH]; [done|]. rewrite app_String. simpl. by rewrite IH. Qed.

(** A name in braces. *)
Lemma getShellName_braces name post :
  name ≠ "" → Contains name "}" = false →
  getShellName (String "{" (name +:+ String "}" post)) = (name, String.length name + 2)%nat.
Proof.
  intros Hn Hc. assert (Cut (name +:+ String "}" post) "}" = Some (name, post)) as Hcut.
  { apply Cut_no_sep. destruct (Cut name "}") as [p|] eqn:E; [|done].
    assert (Contains name "}" = true) by (apply Contains_Cut; by eexists). congruence. }
  destruct name as [|c [|c2 name]]; [done|..].
  - rewrite !app_String in *. unfold getShellName. rewrite Hcut. by destruct (isShellSpecialVar c).
  - rewrite !app_String in *. unfold getShellName. rewrite Hcut.
    cbn [Contains] in Hc. rewrite !orb_false_iff, !bool_decide_eq_false in Hc. destruct Hc as (_&Hc&_).
    destruct c2 as [[] [] [] [] [] [] [] []]; done.
Qed.

Lemma Expand_braces m name post :
  name ≠ "" → Contains name "}" = false →
  Expand m 0 ("${" +:+ name +:+ "}" +:+ post) = m name +:+ Expand m 0 post.
Proof.
  intros Hn Hc. change ("${" +:+ name +:+ "}" +:+ post) with (String "$" (String "{" (name +:+ String "}" post))).
  cbn [Expand]. rewrite decide_True by done. rewrite getShellName_braces by done.
  rewrite decide_False by done. f_equal. replace (String.length name + 2)%nat with (S (String.length name + 1))%nat by lia.
  replace (name +:+ String "}" post) with ((name +:+ "}") +:+ post) by by rewrite string_app_assoc.
  replace (String.length name + 1)%nat with (String.length (name +:+ "}")) by by rewrite string_length_app.
  apply Expand_skip.
Qed.

(** A name without braces ends at the first other character. *)
Definition shell_name (name post : string) : Prop :=
  name ≠ "" ∧ span_alphanum (name +:+ post) = name ∧
  match name with String c _ => isShellSpecialVar c = false | "" => True end.

Lemma Expand_name m name post :
  shell_name name post → Expand m 0 (String "$" (name +:+ post)) = m name +:+ Expand m 0 post.
Proof.
  intros (Hn&Hspan&Hsp). destruct name as [|c name]; [done|]. rewrite !app_String in *. cbn [Expand].
  rewrite decide_True by done.
  assert (getShellName (String c (name +:+ post)) = (String c name, String.length (String c name))) as ->.
  { unfold getShellName. rewrite Hspan, Hsp. destruct (decide (c = "{"%char)) as [->|Hb]; [by vm_compute in Hspan|].
    destruct c as [[] [] [] [] [] [] [] []]; done. }
  rewrite decide_False by done. f_equal. exact (Expand_skip m (String c name) post).
Qed.

(** ** Pointers that do not overlap *)

Section pointers.
Context {S : Type}.

(** Updating through a pointer updates what it points to. *)
Definition lawful {A} (p : ptr S A) : Prop := ∀ f s, deref p (store p f s) = f (deref p s).

(** Updating through [p] leaves what [q] points to. *)
Definition keeps {A B} (p : ptr S A) (q : ptr S B) : Prop := ∀ f s, deref q (store p f s) = deref q s.

Definition apart {A B} (p : ptr S A) (q : ptr S B) : Prop := keeps p q ∧ keeps q p.

(** The setter of a field, and of two fields of a record. *)
Definition set_law {R E} (g : R → E) {sg : Setter g} : Prop := ∀ (f : E → E) r, g (sg f r) = f (g r).
Definition sets_apart {R E E'} (g : R → E) {sg : Setter g} (h : R → E') {sh : Setter h} : Prop :=
  (∀ (f : E → E) r, h (sg f r) = h r) ∧ (∀ (f : E' → E') r, g (sh f r) = g r).

Lemma lawful_whole : lawful (whole (S:=S)).
Proof. done. Qed.

Lemma lawful_field {R E} (p : ptr S R) (g : R → E) {sg : Setter g} :
  lawful p → set_law g → lawful (field p g).
Proof. intros Hp Hg f s. simpl. by rewrite Hp, Hg. Qed.

Lemma apart_fields {R E E'} (p : ptr S R) (g : R → E) {sg : Setter g} (h : R → E') {sh : Setter h} :
  lawful p → sets_apart g h → apart (field p g) (field p h).
Proof. intros Hp [Hg Hh]. split; intros f s; simpl; by rewrite Hp, ?Hg, ?Hh. Qed.

(** Whatever is apart from a record is apart from its fields. *)
Lemma apart_field {A R E} (q : ptr S A) (p : ptr S R) (g : R → E) {sg : Setter g} :
  apart p q → apart (field p g) q.
Proof. intros [Hpq Hqp]. split; intros f s; simpl; [apply Hpq|by rewrite Hqp]. Qed.

(** ** Lists of flags below a pointer *)

(** The flags that are apart from a pointer. *)
Definition free {A} (q : ptr S A) (l : list (flag S)) : Prop :=
  Forall (λ f, let 'Var p _ _ := f in apart p q) l.

(** Flags that store below [p], each into its own place. *)
Record below {R} (p : ptr S R) (l : list (flag S)) : Prop := {
  below_free {A} (q : ptr S A) : apart p q → free q l;
  below_stores : Forall stores l;
  below_separate : ForallOrdPairs (λ f g, separate f g ∧ separate g f) l;
}.

Lemma below_nil {R} (p : ptr S R) : below p [].
Proof. split; by constructor. Qed.

Lemma free_separate {A} (q : ptr S A) name v l :
  free q l → Forall (λ g, separate (Var q name v) g ∧ separate g (Var q name v)) l.
Proof.
  intros Hl. eapply Forall_impl; [exact Hl|]. intros [B p n w] [Hpq Hqp]. simpl.
  split; intros u s; [apply Hqp|apply Hpq].
Qed.

Lemma below_cons {R E} (p : ptr S R) (g : R → E) {sg : Setter g} name value l :
  lawful p → set_law g → free (field p g) l → below p l → below p (Var (field p g) name value :: l).
Proof.
  intros Hp Hg Hf [Hb1 Hb2 Hb3]. split.
  - intros A q Hq. constructor; [by apply apart_field|by apply Hb1].
  - constructor; [|done]. intros v s'. exact (lawful_field p g Hp Hg (λ _, v) s').
  - constructor; [|done]. apply List.Forall_forall. intros f Hin.
    pose proof (free_separate _ name value _ Hf) as Hs. rewrite Forall_forall in Hs.
    apply Hs. by apply list_elem_of_In.
Qed.

Lemma ForallOrdPairs_app {A} (P : A → A → Prop) l1 l2 :
  ForallOrdPairs P l1 → ForallOrdPairs P l2 → (∀ x y, x ∈ l1 → y ∈ l2 → P x y) → ForallOrdPairs P (l1 ++ l2).
Proof.
  intros H1 H2 Hx. induction H1 as [|x l1 Hl H1 IH]; [done|]. simpl. constructor.
  - apply List.Forall_app. split; [done|]. apply List.Forall_forall. intros y Hy%list_elem_of_In. apply Hx; [by left|done].
  - apply IH. intros. apply Hx; [by right|done].
Qed.

Lemma below_app {R E} (p : ptr S R) (g : R → E) {sg : Setter g} l1 l2 :
  below (field p g) l1 → free (field p g) l2 → below p l2 → below p (l1 ++ l2).
Proof.
  intros [Ha1 Ha2 Ha3] Hf [Hb1 Hb2 Hb3]. split.
  - intros A q Hq. apply Forall_app. split; [|by apply Hb1]. by apply Ha1, apart_field.
  - by apply Forall_app.
  - apply ForallOrdPairs_app; [done..|]. intros [A p1 n1 v1] [B p2 n2 v2] H1 H2.
    assert (apart (field p g) p2) as H12.
    { unfold free in Hf. rewrite Forall_forall in Hf. specialize (Hf _ H2). simpl in Hf. by destruct Hf. }
    pose proof (Ha1 _ _ H12) as Hl1. unfold free in Hl1. rewrite Forall_forall in Hl1. specialize (Hl1 _ H1). simpl in Hl1.
    destruct Hl1 as [H H']. split; intros u s; [apply H|apply H'].
Qed.

Lemma free_cons {R E E'} (p : ptr S R) (g : R → E) {sg : Setter g} (h : R → E') {sh : Setter h} name value l :
  lawful p → sets_apart g h → free (field p g) l → free (field p g) (Var (field p h) name value :: l).
Proof. intros Hp Hgh Hl. constructor; [|done]. destruct (apart_fields p g h Hp Hgh). by split. Qed.

Lemma free_app {R E E'} (p : ptr S R) (g : R → E) {sg : Setter g} (h : R → E') {sh : Setter h} l1 l2 :
  below (field p h) l1 → lawful p → sets_apart g h → free (field p g) l2 → free (field p g) (l1 ++ l2).
Proof.
  intros Hl1 Hp Hgh Hl2. apply Forall_app. split; [|done]. apply (below_free _ _ Hl1).
  destruct (apart_fields p g h Hp Hgh). by split.
Qed.

Lemma below_last {R E} (p : ptr S R) (g : R → E) {sg : Setter g} l : below (field p g) l → below p l.
Proof. intros Hl. rewrite <-(app_nil_r l). apply (below_app _ _ _ _ Hl); [constructor|apply below_nil]. Qed.

Lemma free_last {R E E'} (p : ptr S R) (g : R → E) {sg : Setter g} (h : R → E') {sh : Setter h} l :
  below (field p h) l → lawful p → sets_apart g h → free (field p g) l.
Proof. intros. rewrite <-(app_nil_r l). eapply free_app; [done..|constructor]. Qed.

Lemma ForallOrdPairs_lookup {A} (P : A → A → Prop) l i j x y :
  ForallOrdPairs P l → (i < j)%nat → l !! i = Some x → l !! j = Some y → P x y.
Proof.
  intros H. revert i j. induction H as [|z l Hz _ IH]; intros i j Hij Hi Hj; [done|].
  destruct j as [|j]; [lia|]. destruct i as [|i]; simpl in *.
  - injection Hi as ->. rewrite List.Forall_forall in Hz. apply Hz. by apply list_elem_of_In, (list_elem_of_lookup_2 _ j).
  - by apply (IH i j); [lia|..].
Qed.

Lemma below_flags_ok {R} (p : ptr S R) s l :
  below p l → NoDup (flag_name <$> l) → foldl define s l = s → flags_ok s l.
Proof.
  intros Hb Hn Hd. split; [done|done|by apply (below_stores _ _ Hb)|].
  intros i j f g Hij Hi Hj. pose proof (below_separate _ _ Hb) as Hs. destruct (decide (i < j)%nat).
  - by apply (ForallOrdPairs_lookup _ _ _ _ _ _ Hs ltac:(eassumption) Hi Hj).
  - by apply (ForallOrdPairs_lookup _ _ j i _ _ Hs ltac:(lia) Hj Hi).
Qed.

End pointers.

(** [flags] holds the facts of the registration functions. *)
Create HintDb flags.
#[export] Hint Resolve lawful_whole lawful_field below_nil : flags.
#[export] Hint Extern 1 (set_law _) => (intros ??; reflexivity) : flags.
#[export] Hint Extern 1 (sets_apart _ _) => (split; intros ??; reflexivity) : flags.

(** Prove [below] of a registration function: its flags in order, the nested
    functions by their own facts. *)
Ltac solve_free :=
  lazymatch goal with
  | |- free _ [] => constructor
  | |- free _ (_ :: _) => apply free_cons; [auto with flags|auto with flags|solve_free]
  | |- free _ (_ ++ _) => eapply free_app; [solve [eauto with flags]|auto with flags|auto with flags|solve_free]
  | |- free _ _ => eapply free_last; [solve [eauto with flags]|auto with flags|auto with flags]
  end.

Ltac solve_below :=
  lazymatch goal with
  | |- below _ [] => apply below_nil
  | |- below _ (_ :: _) => apply below_cons; [auto with flags|auto with flags|solve_free|solve_below]
  | |- below _ (_ ++ _) => eapply below_app; [solve [eauto with flags]|solve_free|solve_below]
  | |- below _ _ => eapply below_last; solve [eauto with flags]
  end.

Lemma span_alphanum_no_colon s : Contains (span_alphanum s) ":" = false.
Proof.
  induction s as [|c s IH]; [done|]. cbn [span_alphanum]. destruct (isAlphaNum c) eqn:Hc; [|done].
  cbn [Contains]. rewrite IH, orb_false_r. apply bool_decide_eq_false. by intros ->.
Qed.

Lemma env_value_plain Getenv key : Contains key ":" = false → env_value Getenv key = Getenv key.
Proof.
  intros Hk. unfold env_value. destruct (Cut key ":") as [[a b]|] eqn:E; [|done].
  assert (Contains key ":" = true) by (apply Contains_Cut; by eexists). congruence.
Qed.

Lemma env_value_default Getenv key dflt :
  Contains key ":" = false →
  env_value Getenv (key +:+ ":" +:+ dflt) = if decide (Getenv key = "") then dflt else Getenv key.
Proof.
  intros Hk. unfold env_value. change (key +:+ ":" +:+ dflt) with (key +:+ String ":" dflt).
  rewrite Cut_no_sep; [done|]. destruct (Cut key ":") as [p|] eqn:E; [|done].
  assert (Contains key ":" = true) by (apply Contains_Cut; by eexists). congruence.
Qed.

Lemma below_load {S} (c : ptr S load_config) : lawful c → below c (load_RegisterFlags c).
Proof. intros Hc. unfold load_RegisterFlags. solve_below. Qed.
#[export] Hint Resolve below_load : flags.

(** ** Properties *)

(** The variables of a configuration file are replaced as documented: text
    without a dollar stays, [${KEY}] and [$KEY] become the variable's value,
    [${KEY:default}] its value or, when it is unset or empty, the default, and
    the rest of the text is expanded the same way; a value is never expanded
    again. *)
Theorem expandEnv_exact Getenv :
  let E := expandEnv Getenv in
  (∀ s, Contains s "$" = false → E s = s) ∧
  (∀ pre key post, Contains pre "$" = false → key ≠ "" → Contains key "}" = false → Contains key ":" = false →
   E (pre +:+ "${" +:+ key +:+ "}" +:+ post) = pre +:+ Getenv key +:+ E post) ∧
  (∀ pre key dflt post, Contains pre "$" = false → Contains key "}" = false → Contains key ":" = false →
   Contains dflt "}" = false →
   E (pre +:+ "${" +:+ (key +:+ ":" +:+ dflt) +:+ "}" +:+ post) =
     pre +:+ (if decide (Getenv key = "") then dflt else Getenv key) +:+ E post) ∧
  (∀ pre key post, Contains pre "$" = false → shell_name key post →
   E (pre +:+ "$" +:+ key +:+ post) = pre +:+ Getenv key +:+ E post).
Proof.
  intros E. unfold E, expandEnv. split_and!.
  - intros s Hs. pose proof (Expand_plain (env_value Getenv) s "" Hs) as H. by rewrite !app_empty_r in H.
  - intros pre key post Hpre Hk Hb Hc. rewrite Expand_plain, Expand_braces by done. by rewrite env_value_plain.
  - intros pre key dflt post Hpre Hb Hc Hd. rewrite Expand_plain by done. rewrite Expand_braces; [by rewrite env_value_default| |].
    + by destruct key.
    + rewrite Contains_app. change (":" +:+ dflt) with (String ":" dflt). cbn [Contains]. by rewrite Hb, Hd.
  - intros pre key post Hpre Hn. rewrite Expand_plain by done. f_equal.
    change ("$" +:+ key +:+ post) with (String "$" (key +:+ post)). rewrite Expand_name by done.
    rewrite env_value_plain; [done|]. destruct Hn as (_&<-&_). apply span_alphanum_no_colon.
Qed.

(** ** Witnesses *)

Definition ex_env (v : string) : string := if decide (v = "HOST") then "10.0.0.1" else "".

Lemma expandEnv_exact_witness :
  expandEnv ex_env "addr: ${HOST}:${PORT:8000}" = "addr: 10.0.0.1:8000".
Proof.
  destruct (expandEnv_exact ex_env) as (_&Hvar&_).
  pose proof (Hvar "addr: " "HOST" ":${PORT:8000}" eq_refl ltac:(done) eq_refl eq_refl) as H1.
  change (expandEnv ex_env "addr: ${HOST}:${PORT:8000}" =
    "addr: " +:+ ex_env "HOST" +:+ expandEnv ex_env ":${PORT:8000}") in H1.
  rewrite H1. by vm_compute.
Defined.
