(* ===== verification/Logging.v ===== *)
(** * pkg/log and pkg/middleware/logger.go: logs and the access log

    The log configuration, the logger that filters by level or subsystem, and
    the middleware that logs requests with their headers filtered.  A zap core
    is a parameter: a logger returns the records it writes. *)

From coqutil Require Import Datatypes.RecordSetters.
From S2P Require Import Prelude GoLib NetLib ConfigLib.

Local Open Scope string_scope.

(** ** pkg/log/logger.go: levels *)

(** The levels of zap, by their value. *)
Definition DebugLevel : Z := -1.
Definition InfoLevel : Z := 0.
Definition WarnLevel : Z := 1.
Definition ErrorLevel : Z := 2.
Definition DPanicLevel : Z := 3.

Definition ZapLevelFromString (s : string) : error + Z :=
  if decide (s = "debug") then inr DebugLevel
  else if decide (s = "info") then inr InfoLevel
  else if decide (s = "warn") then inr WarnLevel
  else if decide (s = "error") then inr ErrorLevel
  else inl ("unsupported level: " +:+ s).

Definition level_error (s : string) : option error :=
  match ZapLevelFromString s with inl e => Some e | inr _ => None end.

(** ** pkg/log/config.go *)

Record log_config := mkLogConfig {
  lg_Level : string;
  lg_Subsystems : list string;
}.

Definition log_Validate (c : log_config) : option error :=
  first_error [check (lg_Level c = "") "missing level"; level_error (lg_Level c)].

Record AccessLogHeaderConfig := mkHeaderConfig {
  BlockList : list string;
  AllowList : list string;
}.

Definition header_Validate (c : AccessLogHeaderConfig) : option error :=
  check (0 < length (AllowList c) ∧ 0 < length (BlockList c))%nat "cannot define both allow list and block list".

Record AccessLogConfig := mkAccessLogConfig {
  al_Level : string;
  RequestHeaders : AccessLogHeaderConfig;
  ResponseHeaders : AccessLogHeaderConfig;
  Disable : bool;
}.

Definition access_Validate (c : AccessLogConfig) : option error :=
  if Disable c then None
  else
    first_error
      [check (al_Level c = "") "missing level";
       level_error (al_Level c);
       Errorf "request headers" (header_Validate (RequestHeaders c));
       Errorf "response headers" (header_Validate (ResponseHeaders c))].

Section flags.
Context {S : Type} (s : S).

Definition log_RegisterFlags (c : ptr S log_config) : list (flag S) :=
  [FieldVar s c lg_Level "log.level"; FieldVar s c lg_Subsystems "log.subsystems"].

Definition header_RegisterFlags (c : ptr S AccessLogHeaderConfig) (prefix : string) : list (flag S) :=
  [FieldVar s c BlockList (prefix +:+ "block-list"); FieldVar s c AllowList (prefix +:+ "allow-list")].

Definition access_RegisterFlags (c : ptr S AccessLogConfig) (prefix : string) : list (flag S) :=
  let prefix := if decide (0 < String.length prefix)%nat then prefix +:+ ".access-log." else "access-log." in
  [FieldVar s c al_Level (prefix +:+ "level")] ++
  header_RegisterFlags (field c RequestHeaders) (prefix +:+ "request-headers.") ++
  header_RegisterFlags (field c ResponseHeaders) (prefix +:+ "response-headers.") ++
  [FieldVar s c Disable (prefix +:+ "disable")].

End flags.

(** ** pkg/log/logger.go: the logger *)

(** [zapcore.NewCore] over an atomic level: whether a level is enabled. *)
Class ZapCore := { core_Enabled : Z → Z → bool }.

Class ZapCoreLaws `{ZapCore} := {
  core_enabled lvl l : core_Enabled lvl l = bool_decide (lvl ≤ l)%Z;
}.

Section logger.
Context {F : Type} `{ZapCore}.

(** A record: its subsystem, level, message and fields. *)
Record entry := mkEntry {
  LoggerName : string;
  en_Level : Z;
  Message : string;
  Fields : list F;
}.

(** The core is its level and the fields [With] added to it. *)
Record logger := mkLogger {
  core_level : Z;
  core_fields : list F;
  subsystem : string;
  subsystemEnabled : bool;
  enabledSubsystems : list string;
}.

Definition subsystemMatch (subsystem : string) (enabled : list string) : bool := bool_decide (subsystem ∈ enabled).

Definition NewLogger (lvl : string) (enabledSubsystems : list string) : error + logger :=
  match ZapLevelFromString lvl with
  | inl err => inl err
  | inr zapLevel => inr (mkLogger zapLevel [] "main" (subsystemMatch "main" enabledSubsystems) enabledSubsystems)
  end.

Definition WithSubsystem (l : logger) (s : string) : logger :=
  if decide (s = subsystem l) then l
  else mkLogger (core_level l) (core_fields l) s (subsystemMatch s (enabledSubsystems l)) (enabledSubsystems l).

Definition With (l : logger) (fields : list F) : logger :=
  if decide (length fields = 0) then l
  else mkLogger (core_level l) (core_fields l ++ fields) (subsystem l) (subsystemEnabled l) (enabledSubsystems l).

(** [logger.check]: the entry to write; [core.Check] adds the core whatever the
    level. *)
Definition logger_check (l : logger) (lvl : Z) (msg : string) : option entry :=
  if negb (subsystemEnabled l) && (bool_decide (lvl < DPanicLevel)%Z && negb (core_Enabled (core_level l) lvl)) then None
  else Some (mkEntry (subsystem l) lvl msg (core_fields l)).

Definition Log (l : logger) (lvl : Z) (msg : string) (fields : list F) : list entry :=
  match logger_check l lvl msg with
  | None => []
  | Some ce => [mkEntry (LoggerName ce) (en_Level ce) (Message ce) (Fields ce ++ fields)]
  end.

Definition logger_Debug (l : logger) : string → list F → list entry := Log l DebugLevel.
Definition logger_Info (l : logger) : string → list F → list entry := Log l InfoLevel.
Definition logger_Warn (l : logger) : string → list F → list entry := Log l WarnLevel.
Definition logger_Error (l : logger) : string → list F → list entry := Log l ErrorLevel.

(** The writer of a standard library logger, over [bytes.TrimSpace]: the records
    it writes and the number of bytes it says it wrote. *)
Definition loggerWriter_Write (TrimSpace : string → string) (logFunc : string → list entry) (p : string) :
    list entry * nat :=
  let p := TrimSpace p in (logFunc p, String.length p).

Definition StdLogger (TrimSpace : string → string) (l : logger) (lvl : Z) (p : string) : list entry * nat :=
  loggerWriter_Write TrimSpace (λ msg, match logger_check l lvl msg with None => [] | Some ce => [ce] end) p.

(** The interface [Logger]: its methods, over the records they write. *)
Class Logger (L : Type) := {
  logger_Subsystem : L → string;
  logger_WithSubsystem : L → string → L;
  logger_With : L → list F → L;
  logger_Log : L → Z → string → list F → list entry;
  logger_StdLogger : (string → string) → L → Z → string → list entry * nat;
}.

#[export] Instance filtering_logger : Logger logger := {
  logger_Subsystem := subsystem;
  logger_WithSubsystem := WithSubsystem;
  logger_With := With;
  logger_Log := Log;
  logger_StdLogger := StdLogger;
}.

(** [nopLogger]: nothing is written. *)
Inductive nopLogger := NewNopLogger.

#[export] Instance nop_logger : Logger nopLogger := {
  logger_Subsystem _ := "";
  logger_WithSubsystem l _ := l;
  logger_With l _ := l;
  logger_Log _ _ _ _ := [];
  logger_StdLogger TrimSpace _ _ p := loggerWriter_Write TrimSpace (λ _, []) p;
}.

(** What every logger promises: the loggers made from one with its own
    subsystem or with no fields write what it writes, and a standard library
    logger writes what [Log] does. *)
Class LoggerLaws (L : Type) `{Logger L} := {
  same_subsystem l : logger_WithSubsystem l (logger_Subsystem l) = l;
  no_fields l : logger_With l [] = l;
  std_logs TrimSpace l lvl p : (logger_StdLogger TrimSpace l lvl p).1 = logger_Log l lvl (TrimSpace p) [];
}.

(** The loggers made from one. *)
Inductive derived (l : logger) : logger → Prop :=
  | derived_root : derived l l
  | derived_subsystem l' s : derived l l' → derived l (WithSubsystem l' s)
  | derived_fields l' fields : derived l l' → derived l (With l' fields).

End logger.
Arguments entry F : clear implicits.
Arguments logger F : clear implicits.

(** ** net/textproto.CanonicalMIMEHeaderKey *)

Definition is_lower (c : Ascii.ascii) : bool := let n := Ascii.nat_of_ascii c in (97 <=? n)%nat && (n <=? 122)%nat.
Definition is_upper (c : Ascii.ascii) : bool := let n := Ascii.nat_of_ascii c in (65 <=? n)%nat && (n <=? 90)%nat.

(** The characters of a token. *)
Definition validHeaderFieldByte (c : Ascii.ascii) : bool :=
  is_lower c || is_upper c || is_digit c ||
  bool_decide (c ∈ ["!"; "#"; "$"; "%"; "&"; "'"; "*"; "+"; "-"; "."; "^"; "_"; "`"; "|"; "~"]%char).

(** The first letter and those after a hyphen are upper case, the others lower
    case. *)
Fixpoint canonical_case (upper : bool) (s : string) : string :=
  match s with
  | EmptyString => ""
  | String c s' =>
      let n := Ascii.nat_of_ascii c in
      let c' := if upper && is_lower c then Ascii.ascii_of_nat (n - 32)
                else if negb upper && is_upper c then Ascii.ascii_of_nat (n + 32) else c in
      String c' (canonical_case (bool_decide (c' = "-"%char)) s')
  end.

Definition CanonicalMIMEHeaderKey (s : string) : string :=
  if all_chars validHeaderFieldByte s then canonical_case true s else s.

(** ** pkg/middleware/logger.go *)

(** [http.Header]; its keys are in canonical form when the standard library set
    them. *)
Abbreviation Header := (gmap string (list string)).

Definition header_Del (h : Header) (key : string) : Header := delete (CanonicalMIMEHeaderKey key) h.

(** An empty set stands for a nil map: the code asks only for the length. *)
Record logHeaderFilter := mkFilter {
  allowList : gset string;
  blockList : gset string;
}.

Definition newLogHeaderFilter (allowList blockList : list string) : logHeaderFilter :=
  mkFilter (list_to_set (CanonicalMIMEHeaderKey <$> allowList)) (list_to_set (CanonicalMIMEHeaderKey <$> blockList)).

Section filter.
Context `{MapIter}.

(** The loop deletes from the map it iterates over: a key that is gone is not
    visited. *)
Definition filter_loop (drop : string → bool) (h : Header) : Header :=
  foldl (λ h name, if decide (is_Some (h !! name)) then if drop name then header_Del h name else h else h)
    h (map_range h).*1.

Definition Filter (l : logHeaderFilter) (h : Header) : Header :=
  if decide (allowList l ≠ ∅) then filter_loop (λ name, negb (bool_decide (name ∈ allowList l))) h
  else if decide (blockList l ≠ ∅) then filter_loop (λ name, bool_decide (name ∈ blockList l)) h
  else h.

Record loggedRequest := mkLoggedRequest {
  lr_Proto : string;
  lr_Method : string;
  lr_Host : string;
  lr_Path : string;
  lr_RequestHeaders : Header;
  lr_ResponseHeaders : Header;
  lr_Status : Z;
  lr_Duration : Z;
}.

(** A request when its handlers are done: the request, the headers and the
    status of its response, and the time it took. *)
Record served := mkServed {
  sv_Proto : string;
  sv_Method : string;
  sv_Host : string;
  sv_Path : string;
  sv_Header : Header;
  sv_ResponseHeader : Header;
  sv_Status : Z;
  sv_Duration : Z;
}.

(** [NewLogger] of the middleware: [None] is the panic on an invalid level; the
    handler returns the level and the record it logs. *)
Definition access_NewLogger (config : AccessLogConfig) : option (served → option (Z * loggedRequest)) :=
  let requestHeaderFilter := newLogHeaderFilter (AllowList (RequestHeaders config)) (BlockList (RequestHeaders config)) in
  let responseHeaderFilter := newLogHeaderFilter (AllowList (ResponseHeaders config)) (BlockList (ResponseHeaders config)) in
  match ZapLevelFromString (al_Level config) with
  | inl _ => None
  | inr level => Some (λ c,
      if Disable config then None
      else if HasPrefix (sv_Path c) "/_piko" then None
      else
        let requestHeaders := Filter requestHeaderFilter (sv_Header c) in
        let responseHeaders := Filter responseHeaderFilter (sv_ResponseHeader c) in
        let req := mkLoggedRequest (sv_Proto c) (sv_Method c) (sv_Host c) (sv_Path c)
                     requestHeaders responseHeaders (sv_Status c) (sv_Duration c) in
        let recordLevel := if decide (500 ≤ sv_Status c ∧ level < WarnLevel)%Z then WarnLevel else level in
        Some (recordLevel, req))
  end.

End filter.

(** ** Lemmas *)

(** A standard library logger records what [Log] would. *)
Lemma StdLogger_Log {F} `{ZapCore} TrimSpace (l : logger F) lvl p :
  (StdLogger TrimSpace l lvl p).1 = Log l lvl (TrimSpace p) [].
Proof.
  unfold StdLogger, loggerWriter_Write, Log. simpl. destruct (logger_check l lvl _) as [[]|]; [|done].
  by rewrite app_nil_r.
Qed.

Section flag_lemmas.
Context {S : Type} (s : S).

Lemma below_log (c : ptr S log_config) : lawful c → below c (log_RegisterFlags s c).
Proof. intros Hc. unfold log_RegisterFlags. solve_below. Qed.

Lemma below_header (c : ptr S AccessLogHeaderConfig) prefix : lawful c → below c (header_RegisterFlags s c prefix).
Proof. intros Hc. unfold header_RegisterFlags. solve_below. Qed.
Hint Resolve below_header : flags.

Lemma below_access (c : ptr S AccessLogConfig) prefix : lawful c → below c (access_RegisterFlags s c prefix).
Proof. intros Hc. unfold access_RegisterFlags. cbv zeta. cbn [app]. solve_below. Qed.

End flag_lemmas.
#[export] Hint Resolve below_log below_header below_access : flags.

Section logger_lemmas.
Context {F : Type} `{ZapCoreLaws}.

(** What every derived logger keeps. *)
Definition logger_ok (l0 l : logger F) : Prop :=
  core_level l = core_level l0 ∧ enabledSubsystems l = enabledSubsystems l0 ∧
  subsystemEnabled l = subsystemMatch (subsystem l) (enabledSubsystems l).

#[export] Instance filtering_logger_laws : @LoggerLaws F (logger F) _.
Proof using Type.
  split; [| |].
  - intros l. unfold logger_WithSubsystem, logger_Subsystem, filtering_logger, WithSubsystem. by rewrite decide_True.
  - done.
  - intros TrimSpace l lvl p. simpl. unfold Log. destruct (logger_check l lvl (TrimSpace p)) as [[]|]; simpl; [|done].
    by rewrite app_nil_r.
Qed.

#[export] Instance nop_logger_laws : @LoggerLaws F nopLogger _.
Proof using Type. by split. Qed.

Lemma derived_ok l0 l :
  subsystemEnabled l0 = subsystemMatch (subsystem l0) (enabledSubsystems l0) → derived l0 l → logger_ok l0 l.
Proof.
  intros Hl0. induction 1 as [|l s _ IH|l fs _ IH]; [done|..].
  - unfold WithSubsystem. case_decide; [done|]. destruct IH as (?&?&_). split_and!; [done|done|done].
  - unfold With. case_decide; [done|]. done.
Qed.

End logger_lemmas.

Section filter_lemmas.
Context `{MapIter}.

(** Every key is in canonical form. *)
Definition canonical (h : Header) : Prop := ∀ k, is_Some (h !! k) → CanonicalMIMEHeaderKey k = k.

(** An iteration of the loop. *)
Definition filter_step (drop : string → bool) (h : Header) (name : string) : Header :=
  if decide (is_Some (h !! name)) then if drop name then header_Del h name else h else h.

Lemma filter_step_lookup drop h name k :
  canonical h →
  filter_step drop h name !! k = if decide (k = name ∧ drop name = true) then None else h !! k.
Proof.
  intros Hc. unfold filter_step, header_Del. destruct (decide (is_Some (h !! name))) as [Hn|Hn].
  - destruct (drop name); [|by rewrite decide_False by (by intros [])]. rewrite (Hc name Hn).
    destruct (decide (k = name)) as [->|Hk].
    + by rewrite decide_True, lookup_delete_eq.
    + rewrite decide_False by (by intros []). by rewrite lookup_delete_ne.
  - case_decide as Hk; [|done]. destruct Hk as [-> _]. by apply eq_None_not_Some.
Qed.

Lemma filter_steps_lookup drop names h k :
  canonical h →
  foldl (filter_step drop) h names !! k = if decide (k ∈ names ∧ drop k = true) then None else h !! k.
Proof.
  revert h. induction names as [|n names IH]; intros h Hc.
  { rewrite decide_False; [done|]. by intros [?%not_elem_of_nil _]. }
  simpl. assert (canonical (filter_step drop h n)) as Hc'.
  { intros j Hj. apply Hc. rewrite filter_step_lookup in Hj by done. case_decide; [by destruct Hj|done]. }
  rewrite IH, filter_step_lookup by done.
  pose proof (elem_of_cons names k n). repeat case_decide; naive_solver.
Qed.

Lemma filter_loop_spec drop h :
  canonical h → filter_loop drop h = filter (λ p, drop p.1 = false) h.
Proof.
  intros Hc. apply map_eq. intros k. unfold filter_loop. fold (filter_step drop).
  rewrite filter_steps_lookup by done. pose proof (elem_of_map_range_fst h k) as Hkey. symmetry. case_decide as Hk.
  - apply map_lookup_filter_None_2. right. intros x _. simpl. destruct Hk as [_ ->]. by intros ?.
  - destruct (h !! k) as [v|] eqn:Hh; [|apply map_lookup_filter_None_2; by left].
    apply map_lookup_filter_Some_2; [done|]. simpl. destruct (drop k); [|done]. destruct Hk. split; [apply Hkey; by eexists|done].
Qed.

Lemma list_to_set_empty (l : list string) : (list_to_set l : gset string) ≠ ∅ ↔ l ≠ [].
Proof. destruct l; [done|]. split; [done|]. intros _. set_solver. Qed.

(** The headers a filter lets through. *)
Definition logs_header (c : AccessLogHeaderConfig) (k : string) : bool :=
  match AllowList c with
  | [] => bool_decide (k ∉ CanonicalMIMEHeaderKey <$> BlockList c)
  | l => bool_decide (k ∈ CanonicalMIMEHeaderKey <$> l)
  end.

Lemma Filter_spec c h :
  canonical h → Filter (newLogHeaderFilter (AllowList c) (BlockList c)) h = filter (λ p, logs_header c p.1 = true) h.
Proof.
  intros Hc. unfold Filter, newLogHeaderFilter, logs_header. cbn [allowList blockList].
  destruct (AllowList c) as [|a al].
  - rewrite decide_False by (rewrite list_to_set_empty; by intros ?).
    destruct (BlockList c) as [|b bl].
    + rewrite decide_False by (rewrite list_to_set_empty; by intros ?). symmetry. apply map_filter_id.
      intros i x Hx. by apply bool_decide_eq_true, not_elem_of_nil.
    + rewrite decide_True by (by rewrite list_to_set_empty). rewrite filter_loop_spec by done.
      apply map_filter_ext. intros i x _. cbn [fst]. rewrite bool_decide_eq_false, bool_decide_eq_true, elem_of_list_to_set. done.
  - rewrite decide_True by (by rewrite list_to_set_empty). rewrite filter_loop_spec by done.
    apply map_filter_ext. intros i x _. cbn [fst]. rewrite negb_false_iff, !bool_decide_eq_true, elem_of_list_to_set. done.
Qed.

End filter_lemmas.

Lemma access_Validate_level c :
  access_Validate c = None → Disable c = false → ∃ lvl, ZapLevelFromString (al_Level c) = inr lvl.
Proof.
  unfold access_Validate. intros Hv Hd. rewrite Hd in Hv. simpl in Hv. unfold check, level_error in Hv.
  case_decide; [done|]. destruct (ZapLevelFromString (al_Level c)) as [|lvl]; [done|]. by exists lvl.
Qed.

(** The levels a configuration can name are below the levels that are always
    logged. *)
Lemma ZapLevelFromString_range s lvl : ZapLevelFromString s = inr lvl → (DebugLevel ≤ lvl ≤ ErrorLevel)%Z.
Proof. unfold ZapLevelFromString. repeat case_decide; try done; intros [= <-]; by vm_compute. Qed.

(** ** Properties *)

(** A record is logged exactly when its level reaches the configured one or
    the subsystem of its logger is enabled, whatever loggers were derived on the
    way, with the logger's subsystem and the fields in their order. *)
Theorem log_records_exact {F} `{ZapCoreLaws} lvl subsystems (l0 l : logger F) level msg fields :
  NewLogger lvl subsystems = inr l0 → derived l0 l →
  ∃ min, ZapLevelFromString lvl = inr min ∧
    Log l level msg fields =
      if decide (min ≤ level ∨ subsystem l ∈ subsystems)%Z
      then [mkEntry (subsystem l) level msg (core_fields l ++ fields)] else [].
Proof.
  unfold NewLogger. destruct (ZapLevelFromString lvl) as [|min] eqn:Hlvl; [done|]. intros [= <-] Hd.
  apply derived_ok in Hd as (Hmin&Hsubs&Hen); [|done]. simpl in Hmin, Hsubs. exists min. split; [done|].
  apply ZapLevelFromString_range in Hlvl. unfold ErrorLevel in Hlvl.
  unfold Log, logger_check. rewrite Hen, Hsubs, Hmin. rewrite core_enabled. unfold subsystemMatch, DPanicLevel.
  destruct (decide (subsystem l ∈ subsystems)) as [Hs|Hs].
  - rewrite bool_decide_true, decide_True by auto. done.
  - rewrite (bool_decide_false (subsystem l ∈ _)) by done. simpl. destruct (decide (min ≤ level)%Z).
    + rewrite (bool_decide_true (min ≤ level)%Z), andb_false_r, decide_True by auto. done.
    + rewrite (bool_decide_false (min ≤ level)%Z), bool_decide_true, decide_False by (tauto || lia). done.
Qed.

(** The access log shows what it is configured to: nothing when disabled or
    for internal paths; otherwise the allowed headers, or all but the blocked
    ones when none are allowed, compared without case; a server error is logged
    as a warning at least. *)
Theorem access_log_exact `{MapIter} config m r :
  access_NewLogger config = Some m → canonical (sv_Header r) → canonical (sv_ResponseHeader r) →
  (m r = None ↔ Disable config = true ∨ HasPrefix (sv_Path r) "/_piko" = true) ∧
  ∀ lvl rec, m r = Some (lvl, rec) →
    lr_RequestHeaders rec = filter (λ p, logs_header (RequestHeaders config) p.1 = true) (sv_Header r) ∧
    lr_ResponseHeaders rec = filter (λ p, logs_header (ResponseHeaders config) p.1 = true) (sv_ResponseHeader r) ∧
    ∃ level, ZapLevelFromString (al_Level config) = inr level ∧
      lvl = if decide (500 ≤ sv_Status r)%Z then Z.max level WarnLevel else level.
Proof.
  unfold access_NewLogger. destruct (ZapLevelFromString _) as [|level] eqn:Hlevel; [done|].
  intros [= <-] Hreq Hresp. destruct (Disable config); [naive_solver|].
  destruct (HasPrefix _ _); [naive_solver|]. split; [naive_solver|].
  intros lvl rec [= <- <-]. cbn [lr_RequestHeaders lr_ResponseHeaders]. rewrite !Filter_spec by done.
  split_and!; [done|done|]. exists level. split; [done|]. unfold WarnLevel. repeat case_decide; lia.
Qed.

(** A validated access log starts, unless it is disabled with a level that
    does not exist: the middleware parses the level all the same, and panics. *)
Theorem access_log_boot_panic `{MapIter} config :
  access_Validate config = None →
  (access_NewLogger config = None ↔ Disable config = true ∧ level_error (al_Level config) ≠ None).
Proof.
  intros Hv. unfold access_NewLogger, level_error.
  destruct (ZapLevelFromString (al_Level config)) as [err|lvl] eqn:Hl; [|by split; [|intros [_ []]]].
  split; [|done]. intros _. split; [|done]. destruct (Disable config) eqn:Hd; [done|].
  destruct (access_Validate_level _ Hv Hd) as [lvl Hlvl]. congruence.
Qed.

(** ** Witnesses *)

#[local] Instance ex_zap : ZapCore := {| core_Enabled lvl l := bool_decide (lvl ≤ l)%Z |}.
#[local] Instance ex_zap_laws : @ZapCoreLaws ex_zap.
Proof. by constructor. Qed.

Definition ex_logger : logger string := mkLogger InfoLevel [] "main" false ["gossip"].

Lemma log_records_exact_witness :
  Log (With (WithSubsystem ex_logger "gossip") ["node"]) DebugLevel "round" ["peer"] =
    [mkEntry "gossip" DebugLevel "round" ["node"; "peer"]] ∧
  Log (WithSubsystem ex_logger "proxy") DebugLevel "dial" [] = [].
Proof.
  split.
  - destruct (log_records_exact "info" ["gossip"] ex_logger (With (WithSubsystem ex_logger "gossip") ["node"])
      DebugLevel "round" ["peer"]) as (min&Hmin&->); [done|by repeat constructor|].
    injection Hmin as <-. by vm_compute.
  - destruct (log_records_exact "info" ["gossip"] ex_logger (WithSubsystem ex_logger "proxy")
      DebugLevel "dial" []) as (min&Hmin&->); [done|by repeat constructor|].
    injection Hmin as <-. by vm_compute.
Defined.

Definition ex_access : AccessLogConfig :=
  mkAccessLogConfig "info" (mkHeaderConfig ["authorization"] []) (mkHeaderConfig [] []) false.

Definition ex_served : served :=
  mkServed "HTTP/1.1" "GET" "my-endpoint" "/"
    {["Authorization" := ["Bearer secret"]; "Accept" := ["*/*"]]} ∅ 502 1000.

Lemma access_log_exact_witness :
  ∃ m rec, @access_NewLogger canonical_iter ex_access = Some m ∧ m ex_served = Some (WarnLevel, rec) ∧
    lr_RequestHeaders rec !! "Authorization" = None ∧ lr_RequestHeaders rec !! "Accept" = Some ["*/*"].
Proof.
  eexists _, _. split; [reflexivity|]. split; [reflexivity|].
  match goal with |- lr_RequestHeaders ?r !! _ = _ ∧ _ =>
    destruct (@access_log_exact canonical_iter ex_access _ ex_served eq_refl) as [_ Hm];
    [..|destruct (Hm WarnLevel r eq_refl) as (Hreq&_)] end.
  - intros k [v Hk]. unfold ex_served in Hk. cbn [sv_Header] in Hk.
    destruct (decide (k = "Authorization")) as [->|]; [by vm_compute|].
    destruct (decide (k = "Accept")) as [->|]; [by vm_compute|]. by rewrite lookup_insert_ne, lookup_singleton_ne in Hk.
  - intros k [v Hk]. unfold ex_served in Hk. cbn [sv_ResponseHeader] in Hk. by rewrite lookup_empty in Hk.
  - rewrite Hreq. split; by vm_compute.
Defined.

Lemma access_log_boot_panic_witness :
  @access_NewLogger canonical_iter (mkAccessLogConfig "off" (mkHeaderConfig [] []) (mkHeaderConfig [] []) true) = None.
Proof. by apply access_log_boot_panic. Defined.
