(* ===== verification/ServerConfig.v ===== *)
(** * server/config: the configuration of a server node

    The configuration with its defaults, validation, flags and TLS loading, the
    flags of pkg/auth and pkg/gossip, and the steps of [piko server] before the
    node runs.  A duration is a number of nanoseconds. *)

From coqutil Require Import Datatypes.RecordSetters.
From S2P Require Import Prelude GoLib FloatLib GossipNode Cluster Auth UpstreamServer ConfigLib Logging.

Local Open Scope string_scope.

(** ** server/config/tls.go *)

(** [tls.Config]: the fields the program sets. *)
Record tls_Config := mkTLS {
  Certificates : list string;
  ClientCAs_pool : option string;
  RequireAndVerifyClientCert : bool;
  RootCAs_pool : option string;
  InsecureSkipVerify_set : bool;
  ServerName_set : string;
}.

Definition new_tls : tls_Config := mkTLS [] None false None false "".

Record ClientTLSConfig := mkClientTLSConfig {
  ct_Cert : string;
  ct_Key : string;
  ct_RootCAs : string;
  ct_InsecureSkipVerify : bool;
  ct_ServerName : string;
}.

Record TLSConfig := mkTLSConfig {
  tls_Cert : string;
  tls_Key : string;
  tls_ClientCAs : string;
  tls_Client : ClientTLSConfig;
}.

Section tls.
Context `{TLSEnv}.

(** Reading a pool of certificates; the parse error prints an error that is
    nil. *)
Definition load_pool (what path : string) : error + string :=
  match os_ReadFile path with
  | inl err => inl ("open " +:+ what +:+ ": " +:+ path +:+ ": " +:+ err)
  | inr caCert =>
      if AppendCertsFromPEM caCert then inr caCert
      else inl ("parse " +:+ what +:+ ": " +:+ path +:+ ": %!w(<nil>)")
  end.

(** Presenting a certificate and trusting roots, as every client does: the
    certificate, then the roots. *)
Definition client_tls_Load (cert key rootCAs : string) (skip : bool) (serverName : string) : error + tls_Config :=
  let certs :=
    if decide (cert = "") then inr []
    else match LoadX509KeyPair cert key with inl err => inl ("load key pair: " +:+ err) | inr c => inr [c] end in
  match certs with
  | inl err => inl err
  | inr certs =>
      let pool :=
        if decide (rootCAs = "") then inr None
        else match load_pool "root cas" rootCAs with inl err => inl err | inr p => inr (Some p) end in
      match pool with
      | inl err => inl err
      | inr pool => inr (mkTLS certs None false pool skip serverName)
      end
  end.

Definition ClientTLS_Load (c : ClientTLSConfig) : error + tls_Config :=
  client_tls_Load (ct_Cert c) (ct_Key c) (ct_RootCAs c) (ct_InsecureSkipVerify c) (ct_ServerName c).

Definition load_error_of {A} (r : error + A) : option error := match r with inl e => Some e | inr _ => None end.

Definition ClientTLS_Validate (c : ClientTLSConfig) : option error :=
  if decide (ct_Cert c ≠ "" ∧ ct_Key c = "") then Some "missing key" else load_error_of (ClientTLS_Load c).

Definition tls_enabled (c : TLSConfig) : bool := bool_decide (tls_Cert c ≠ "" ∨ tls_Key c ≠ "").

Definition TLS_Validate (c : TLSConfig) : option error :=
  if negb (tls_enabled c) then None
  else first_error [check (tls_Cert c = "") "missing cert"; check (tls_Key c = "") "missing key"].

(** [TLSConfig.Load]: [None] listens without TLS. *)
Definition TLS_Load (c : TLSConfig) : error + option tls_Config :=
  if negb (tls_enabled c) then inr None
  else
    match LoadX509KeyPair (tls_Cert c) (tls_Key c) with
    | inl err => inl ("load key pair: " +:+ err)
    | inr cert =>
        if decide (tls_ClientCAs c = "") then inr (Some (mkTLS [cert] None false None false ""))
        else
          match load_pool "client cas" (tls_ClientCAs c) with
          | inl err => inl err
          | inr pool => inr (Some (mkTLS [cert] (Some pool) true None false ""))
          end
    end.

End tls.

(** ** server/config/config.go: the data and its validation *)

Definition Rebalance_Validate (c : RebalanceConfig) : option error :=
  let zero := float64_of_int 0 in
  let one := float64_of_int 1 in
  if flt (Threshold c) zero then Some "threshold cannot be negative"
  else if flt (ShedRate c) zero then Some "shed-rate cannot be negative"
  else if flt one (ShedRate c) then Some "shed-rate cannot exceed 1"
  else None.

Definition minStreamWindowSize : N := 256 * 1024.

Record StreamConfig := mkStreamConfig { st_MaxWindowSize : N }.

Definition Stream_Validate (c : StreamConfig) : option error :=
  check (st_MaxWindowSize c < minStreamWindowSize)%N "max-window-size must be >= 262144".

Record HTTPConfig := mkHTTPConfig {
  ReadTimeout : Z;
  ReadHeaderTimeout : Z;
  WriteTimeout : Z;
  IdleTimeout : Z;
  MaxHeaderBytes : Z;
}.

Record TenantConfig := mkTenantConfig {
  tn_ID : string;
  tn_Auth : AuthConfig;
}.

Definition Tenant_Validate (c : TenantConfig) : option error :=
  first_error [check (tn_ID c = "") "missing tenant id"; check (Enabled (tn_Auth c) = false) "tenant auth disabled"].

Record ProxyConfig := mkProxyConfig {
  px_BindAddr : string;
  px_AdvertiseAddr : string;
  px_Timeout : Z;
  px_AccessLog : AccessLogConfig;
  px_Auth : AuthConfig;
  px_HTTP : HTTPConfig;
  px_TLS : TLSConfig;
}.

Definition Proxy_Validate (c : ProxyConfig) : option error :=
  first_error
    [check (px_BindAddr c = "") "missing bind addr";
     Errorf "tls" (TLS_Validate (px_TLS c));
     Errorf "access log" (access_Validate (px_AccessLog c))].

Record UpstreamConfig := mkUpstreamConfig {
  up_BindAddr : string;
  up_AdvertiseAddr : string;
  up_Auth : AuthConfig;
  up_Rebalance : RebalanceConfig;
  up_TLS : TLSConfig;
  up_Tenants : list TenantConfig;
}.

Definition Upstream_Validate (c : UpstreamConfig) : option error :=
  first_error
    ([check (up_BindAddr c = "") "missing bind addr";
      Errorf "rebalance" (Rebalance_Validate (up_Rebalance c));
      Errorf "tls" (TLS_Validate (up_TLS c))] ++
     ((λ tenant, Errorf "tenant" (Tenant_Validate tenant)) <$> up_Tenants c)).

Record AdminConfig := mkAdminConfig {
  ad_BindAddr : string;
  ad_AdvertiseAddr : string;
  ad_Auth : AuthConfig;
  ad_Password : string;
  ad_TLS : TLSConfig;
}.

Definition Admin_Validate (c : AdminConfig) : option error :=
  first_error [check (ad_BindAddr c = "") "missing bind addr"; Errorf "tls" (TLS_Validate (ad_TLS c))].

Record ClusterConfig := mkClusterConfig {
  cl_NodeID : string;
  cl_NodeIDPrefix : string;
  cl_Join : list string;
  cl_JoinTimeout : Z;
  cl_AbortIfJoinFails : bool;
  cl_Gossip : GossipNode.Config;
}.

(** The messages of [gossip.Config.Validate]. *)
Definition gossip_message (e : config_error) : error :=
  match e with
  | MissingBindAddr => "missing bind addr"
  | MissingInterval => "missing interval"
  | MissingMaxPacketSize => "missing max packet size"
  end.

Definition Cluster_Validate (c : ClusterConfig) : option error :=
  first_error
    [check (cl_NodeID c = "") "missing node id";
     check (cl_JoinTimeout c = 0%Z) "missing join timeout";
     Errorf "gossip" (gossip_message <$> GossipNode.Validate (cl_Gossip c))].

Record Config := mkServerConfig {
  cf_Proxy : ProxyConfig;
  cf_Upstream : UpstreamConfig;
  cf_Stream : StreamConfig;
  cf_Admin : AdminConfig;
  cf_Cluster : ClusterConfig;
  cf_Log : log_config;
  cf_GracePeriod : Z;
}.

Definition Validate (c : Config) : option error :=
  first_error
    [Errorf "cluster" (Cluster_Validate (cf_Cluster c));
     Errorf "proxy" (Proxy_Validate (cf_Proxy c));
     Errorf "upstream" (Upstream_Validate (cf_Upstream c));
     Errorf "stream" (Stream_Validate (cf_Stream c));
     Errorf "admin" (Admin_Validate (cf_Admin c));
     Errorf "log" (log_Validate (cf_Log c));
     check (cf_GracePeriod c = 0%Z) "missing grace period"].

(** ** Defaults *)

(** The zero values of the structs. *)
Definition zero_auth : AuthConfig := mkAuthConfig "" "" "" "" "" false [] false (mkJWKS "" 0 0).
Definition zero_tls : TLSConfig := mkTLSConfig "" "" "" (mkClientTLSConfig "" "" "" false "").

(** 0.005 in binary64. *)
Definition default_shed_rate : float64 := S754_finite false 5764607523034235 (-60).

Definition Default : Config :=
  mkServerConfig
    (mkProxyConfig ":8000" "" (30 * Second)
       (mkAccessLogConfig "info" (mkHeaderConfig [] []) (mkHeaderConfig [] []) false) zero_auth
       (mkHTTPConfig (10 * Second) (10 * Second) (10 * Second) (5 * Minute) (2 ^ 20)) zero_tls)
    (mkUpstreamConfig ":8001" "" zero_auth (mkRebalance (float64_of_int 0) default_shed_rate 50) zero_tls [])
    (mkStreamConfig minStreamWindowSize)
    (mkAdminConfig ":8002" "" zero_auth "" zero_tls)
    (mkClusterConfig "" "" [] Minute true (mkConfig ":8003" "" (100 * Millisecond) 1400))
    (mkLogConfig "info" [])
    Minute.

(** ** Flags *)

Section flags.
Context {S : Type} (s : S).

Definition Rebalance_RegisterFlags (c : ptr S RebalanceConfig) (prefix : string) : list (flag S) :=
  let prefix := if decide (prefix = "") then "rebalance." else prefix +:+ ".rebalance." in
  [FieldVar s c Threshold (prefix +:+ "threshold");
   FieldVar s c ShedRate (prefix +:+ "shed-rate");
   FieldVar s c MinConns (prefix +:+ "min-conns")].

Definition Stream_RegisterFlags (c : ptr S StreamConfig) : list (flag S) :=
  [FieldVar s c st_MaxWindowSize "stream.max-window-size"].

Definition HTTP_RegisterFlags (c : ptr S HTTPConfig) (prefix : string) : list (flag S) :=
  let prefix := if decide (prefix = "") then "http." else prefix +:+ ".http." in
  [FieldVar s c ReadTimeout (prefix +:+ "read-timeout");
   FieldVar s c ReadHeaderTimeout (prefix +:+ "read-header-timeout");
   FieldVar s c WriteTimeout (prefix +:+ "write-timeout");
   FieldVar s c IdleTimeout (prefix +:+ "idle-timeout");
   FieldVar s c MaxHeaderBytes (prefix +:+ "max-header-bytes")].

Definition JWKS_RegisterFlags (j : ptr S JWKSConfig) (prefix : string) : list (flag S) :=
  let prefix := prefix +:+ "jwks." in
  [FieldVar s j jwks_Endpoint (prefix +:+ "endpoint");
   FieldVar s j CacheTTL (prefix +:+ "cache-ttl");
   FieldVar s j jwks_Timeout (prefix +:+ "timeout")].

Definition auth_RegisterFlags (c : ptr S AuthConfig) (prefix : string) : list (flag S) :=
  let prefix := prefix +:+ ".auth." in
  [FieldVar s c HMACSecretKey (prefix +:+ "hmac-secret-key");
   FieldVar s c RSAPublicKey (prefix +:+ "rsa-public-key");
   FieldVar s c ECDSAPublicKey (prefix +:+ "ecdsa-public-key");
   FieldVar s c Audience (prefix +:+ "audience");
   FieldVar s c Issuer (prefix +:+ "issuer");
   FieldVar s c DisableDisconnectOnExpiry (prefix +:+ "disable-disconnect-on-expiry");
   FieldVar s c EndpointsClaim (prefix +:+ "endpoints-claim");
   FieldVar s c RequireEndpoints (prefix +:+ "require-endpoints")] ++
  JWKS_RegisterFlags (field c JWKS) prefix.

Definition ClientTLS_RegisterFlags (c : ptr S ClientTLSConfig) (prefix : string) : list (flag S) :=
  let prefix := prefix +:+ ".client." in
  [FieldVar s c ct_Cert (prefix +:+ "cert");
   FieldVar s c ct_Key (prefix +:+ "key");
   FieldVar s c ct_RootCAs (prefix +:+ "root-cas");
   FieldVar s c ct_InsecureSkipVerify (prefix +:+ "insecure-skip-verify");
   FieldVar s c ct_ServerName (prefix +:+ "server-name")].

(** The client's prefix is the server's without its last byte, the dot. *)
Definition TLS_RegisterFlags (c : ptr S TLSConfig) (prefix : string) : list (flag S) :=
  let prefix := prefix +:+ ".tls." in
  [FieldVar s c tls_Cert (prefix +:+ "cert");
   FieldVar s c tls_Key (prefix +:+ "key");
   FieldVar s c tls_ClientCAs (prefix +:+ "client-cas")] ++
  ClientTLS_RegisterFlags (field c tls_Client) (String.substring 0 (String.length prefix - 1) prefix).

Definition Proxy_RegisterFlags (c : ptr S ProxyConfig) : list (flag S) :=
  [FieldVar s c px_BindAddr "proxy.bind-addr";
   FieldVar s c px_AdvertiseAddr "proxy.advertise-addr";
   FieldVar s c px_Timeout "proxy.timeout"] ++
  access_RegisterFlags s (field c px_AccessLog) "proxy" ++
  HTTP_RegisterFlags (field c px_HTTP) "proxy" ++
  auth_RegisterFlags (field c px_Auth) "proxy" ++
  TLS_RegisterFlags (field c px_TLS) "proxy".

Definition Upstream_RegisterFlags (c : ptr S UpstreamConfig) : list (flag S) :=
  [FieldVar s c up_BindAddr "upstream.bind-addr";
   FieldVar s c up_AdvertiseAddr "upstream.advertise-addr"] ++
  auth_RegisterFlags (field c up_Auth) "upstream" ++
  Rebalance_RegisterFlags (field c up_Rebalance) "upstream" ++
  TLS_RegisterFlags (field c up_TLS) "upstream".

Definition Admin_RegisterFlags (c : ptr S AdminConfig) : list (flag S) :=
  [FieldVar s c ad_BindAddr "admin.bind-addr";
   FieldVar s c ad_AdvertiseAddr "admin.advertise-addr";
   FieldVar s c ad_Password "admin.auth.password"] ++
  auth_RegisterFlags (field c ad_Auth) "admin" ++
  TLS_RegisterFlags (field c ad_TLS) "admin".

Definition gossip_RegisterFlags (c : ptr S GossipNode.Config) (prefix : string) : list (flag S) :=
  let prefix := prefix +:+ ".gossip." in
  [FieldVar s c BindAddr (prefix +:+ "bind-addr");
   FieldVar s c AdvertiseAddr (prefix +:+ "advertise-addr");
   FieldVar s c Interval (prefix +:+ "interval");
   FieldVar s c MaxPacketSize (prefix +:+ "max-packet-size")].

Definition Cluster_RegisterFlags (c : ptr S ClusterConfig) : list (flag S) :=
  [FieldVar s c cl_NodeID "cluster.node-id";
   FieldVar s c cl_NodeIDPrefix "cluster.node-id-prefix";
   FieldVar s c cl_Join "cluster.join";
   FieldVar s c cl_JoinTimeout "cluster.join-timeout";
   FieldVar s c cl_AbortIfJoinFails "cluster.abort-if-join-fails"] ++
  gossip_RegisterFlags (field c cl_Gossip) "cluster".

Definition RegisterFlags (c : ptr S Config) : list (flag S) :=
  Cluster_RegisterFlags (field c cf_Cluster) ++
  Proxy_RegisterFlags (field c cf_Proxy) ++
  Upstream_RegisterFlags (field c cf_Upstream) ++
  Stream_RegisterFlags (field c cf_Stream) ++
  Admin_RegisterFlags (field c cf_Admin) ++
  log_RegisterFlags s (field c cf_Log) ++
  [FieldVar s c cf_GracePeriod "grace-period"].

End flags.

(** ** cli/server/command.go *)

(** The variables the flags of a command point to. *)
Record server_vars := mkServerVars {
  sv_conf : Config;
  sv_loadConf : load_config;
}.

Definition server_flags (s : server_vars) : list (flag server_vars) :=
  RegisterFlags s (field whole sv_conf) ++ load_RegisterFlags (field whole sv_loadConf).

Definition set_NodeID (id : string) (c : Config) : Config :=
  let cl := cf_Cluster c in
  mkServerConfig (cf_Proxy c) (cf_Upstream c) (cf_Stream c) (cf_Admin c)
    (mkClusterConfig id (cl_NodeIDPrefix cl) (cl_Join cl) (cl_JoinTimeout cl) (cl_AbortIfJoinFails cl) (cl_Gossip cl))
    (cf_Log c) (cf_GracePeriod c).

(** [PreRun] up to the logger, after the flags are parsed: [inl] prints the
    error and exits; [nodeID] is what [cluster.GenerateNodeID] returns. *)
Definition server_PreRun (Getenv : string → string) (ReadFile : string → error + string)
    (Decode : string → Config → error + Config) (nodeID : string) (s : server_vars) : error + Config :=
  match Load Getenv ReadFile Decode (sv_conf s) (lo_Path (sv_loadConf s)) (lo_ExpandEnv (sv_loadConf s)) with
  | inl err => inl err
  | inr conf =>
      let conf :=
        if decide (cl_NodeID (cf_Cluster conf) = "") then
          set_NodeID (if decide (cl_NodeIDPrefix (cf_Cluster conf) ≠ "")
                      then cl_NodeIDPrefix (cf_Cluster conf) +:+ nodeID else nodeID) conf
        else conf in
      match Validate conf with
      | Some err => inl ("config: " +:+ err)
      | None => inr conf
      end
  end.

(** ** Lemmas *)

(** Registration functions register below their pointer. *)
Ltac solve_register f := intros Hc; unfold f; cbv zeta; cbn [app]; solve_below.

Section flag_lemmas.
Context {S : Type} (s : S).

Lemma below_Rebalance (c : ptr S RebalanceConfig) prefix : lawful c → below c (Rebalance_RegisterFlags s c prefix).
Proof. solve_register (@Rebalance_RegisterFlags). Qed.

Lemma below_Stream (c : ptr S StreamConfig) : lawful c → below c (Stream_RegisterFlags s c).
Proof. solve_register (@Stream_RegisterFlags). Qed.

Lemma below_HTTP (c : ptr S HTTPConfig) prefix : lawful c → below c (HTTP_RegisterFlags s c prefix).
Proof. solve_register (@HTTP_RegisterFlags). Qed.

Lemma below_JWKS (c : ptr S JWKSConfig) prefix : lawful c → below c (JWKS_RegisterFlags s c prefix).
Proof. solve_register (@JWKS_RegisterFlags). Qed.
Hint Resolve below_Rebalance below_Stream below_HTTP below_JWKS : flags.

Lemma below_auth (c : ptr S AuthConfig) prefix : lawful c → below c (auth_RegisterFlags s c prefix).
Proof. solve_register (@auth_RegisterFlags). Qed.

Lemma below_ClientTLS (c : ptr S ClientTLSConfig) prefix : lawful c → below c (ClientTLS_RegisterFlags s c prefix).
Proof. solve_register (@ClientTLS_RegisterFlags). Qed.
Hint Resolve below_auth below_ClientTLS : flags.

Lemma below_TLS (c : ptr S TLSConfig) prefix : lawful c → below c (TLS_RegisterFlags s c prefix).
Proof. solve_register (@TLS_RegisterFlags). Qed.

Lemma below_gossip (c : ptr S GossipNode.Config) prefix : lawful c → below c (gossip_RegisterFlags s c prefix).
Proof. solve_register (@gossip_RegisterFlags). Qed.
Hint Resolve below_TLS below_gossip : flags.

Lemma below_Proxy (c : ptr S ProxyConfig) : lawful c → below c (Proxy_RegisterFlags s c).
Proof. solve_register (@Proxy_RegisterFlags). Qed.

Lemma below_Upstream (c : ptr S UpstreamConfig) : lawful c → below c (Upstream_RegisterFlags s c).
Proof. solve_register (@Upstream_RegisterFlags). Qed.

Lemma below_Admin (c : ptr S AdminConfig) : lawful c → below c (Admin_RegisterFlags s c).
Proof. solve_register (@Admin_RegisterFlags). Qed.

Lemma below_Cluster (c : ptr S ClusterConfig) : lawful c → below c (Cluster_RegisterFlags s c).
Proof. solve_register (@Cluster_RegisterFlags). Qed.
Hint Resolve below_Proxy below_Upstream below_Admin below_Cluster : flags.

Lemma below_server (c : ptr S Config) : lawful c → below c (RegisterFlags s c).
Proof. solve_register (@RegisterFlags). Qed.

End flag_lemmas.
#[export] Hint Resolve below_server : flags.

Lemma below_server_flags s : below whole (server_flags s).
Proof. unfold server_flags. pose proof (@lawful_whole server_vars) as Hc. solve_below. Qed.

(** Client certificates are asked for only with a server certificate: without
    one the pool is ignored. *)
Lemma client_cas_without_cert `{TLSEnv} cas client :
  TLS_Validate (mkTLSConfig "" "" cas client) = None ∧ TLS_Load (mkTLSConfig "" "" cas client) = inr None.
Proof. done. Qed.
