(* ===== verification/AgentConfig.v ===== *)
(** * agent/config, forward/config and the commands that use them

    The configuration of the agent and of the forwarder, the steps of [piko
    agent] and [piko forward] before they run, and the proxies the agent builds
    for its listeners.  [net/url] and the TLS files are parameters; the outer
    [None] is a panic. *)

From coqutil Require Import Datatypes.RecordSetters.
From S2P Require Import Prelude GoLib NetLib HttpLib Transport ConfigLib Logging ServerConfig Proxy.

Local Open Scope string_scope.

(** [url.Parse] *)
Class URLEnv := { url_Parse : string → option URL }.

(** [net.JoinHostPort] *)
Definition JoinHostPort (host port : string) : string :=
  if Contains host ":" then "[" +:+ host +:+ "]:" +:+ port else host +:+ ":" +:+ port.

(** ** Addresses *)

(** The address when it is only a port. *)
Definition port_only (addr : string) : bool :=
  match Atoi addr with Some port => bool_decide (0 ≤ port < 65535)%Z | None => false end.

(** [ListenerConfig.Host] and [PortConfig.Host]: [None] is [false]. *)
Definition Host (addr : string) : option string :=
  if port_only addr then Some ("localhost:" +:+ addr)
  else match SplitHostPort addr with Some _ => Some addr | None => None end.

(** [ListenerConfig.URL] *)
Definition listener_URL `{URLEnv} (addr : string) : option URL :=
  if port_only addr then Some (mkURL "http" ("localhost:" +:+ addr) "" [])
  else
    let host_port :=
      match SplitHostPort addr with
      | Some (host, port) => Some (mkURL "http" (JoinHostPort host port) "" [])
      | None => None
      end in
    match url_Parse addr with
    | Some u => if decide (Scheme u ≠ "" ∧ Transport.Host u ≠ "") then Some u else host_port
    | None => host_port
    end.

(** ** agent/config/config.go *)

Definition ListenerProtocolHTTP : string := "http".
Definition ListenerProtocolTCP : string := "tcp".

Record ListenerHTTPClientConfig := mkHTTPClient {
  KeepAliveTimeout : Z;
  IdleConnTimeout : Z;
  MaxIdleConns : Z;
  DisableCompression : bool;
}.

(** The TLS configuration of a client: [agent/config] and [forward/config] have
    the same. *)
Record agent_TLSConfig := mkAgentTLS {
  at_Cert : string;
  at_Key : string;
  at_RootCAs : string;
  at_InsecureSkipVerify : bool;
}.

Record ListenerConfig := mkListener {
  ln_EndpointID : string;
  ln_Addr : string;
  ln_Protocol : string;
  ln_AccessLog : AccessLogConfig;
  ln_Timeout : Z;
  ln_HTTPClient : ListenerHTTPClientConfig;
  ln_TLS : agent_TLSConfig;
}.

Record ConnectConfig := mkConnect {
  cn_URL : string;
  cn_Token : string;
  cn_TenantID : string;
  cn_Timeout : Z;
  cn_TLS : agent_TLSConfig;
  cn_ProxyURL : string;
}.

Record agent_StreamConfig := mkAgentStream { as_MaxWindowSize : N }.

Record ServerConfig := mkAgentServer {
  sr_Enabled : bool;
  sr_BindAddr : string;
}.

Record agent_Config := mkAgentConfig {
  ag_Name : string;
  ag_Listeners : list ListenerConfig;
  ag_Connect : ConnectConfig;
  ag_Stream : agent_StreamConfig;
  ag_Server : ServerConfig;
  ag_Log : log_config;
  ag_GracePeriod : Z;
}.

Definition zero_agent_tls : agent_TLSConfig := mkAgentTLS "" "" "" false.
Definition zero_http_client : ListenerHTTPClientConfig := mkHTTPClient 0 0 0 false.

Section agent_config.
Context `{TLSEnv} `{URLEnv}.

Definition agent_TLS_Load (c : agent_TLSConfig) : error + tls_Config :=
  client_tls_Load (at_Cert c) (at_Key c) (at_RootCAs c) (at_InsecureSkipVerify c) "".

Definition agent_TLS_Validate (c : agent_TLSConfig) : option error :=
  if decide (at_Cert c ≠ "" ∧ at_Key c = "") then Some "missing key" else load_error_of (agent_TLS_Load c).

Definition Listener_Validate (c : ListenerConfig) : option error :=
  first_error
    [check (ln_EndpointID c = "") "missing endpoint id";
     check (ln_Addr c = "") "missing addr";
     (if decide (ln_Protocol c = "" ∨ ln_Protocol c = ListenerProtocolHTTP) then
        check (listener_URL (ln_Addr c) = None) "invalid addr"
      else if decide (ln_Protocol c = ListenerProtocolTCP) then
        check (Host (ln_Addr c) = None) "invalid addr"
      else Some "unsupported protocol");
     check (ln_Timeout c = 0%Z) "missing timeout";
     Errorf "tls" (agent_TLS_Validate (ln_TLS c));
     Errorf "access log" (access_Validate (ln_AccessLog c))].

(** The message of [url.Parse] itself is left out. *)
Definition url_error (u : string) (msg : error) : option error :=
  match url_Parse u with Some _ => None | None => Some msg end.

Definition Connect_Validate (c : ConnectConfig) : option error :=
  first_error
    [check (cn_URL c = "") "missing url";
     url_error (cn_URL c) "invalid url";
     (if decide (cn_ProxyURL c ≠ "") then url_error (cn_ProxyURL c) "invalid proxy url" else None);
     check (cn_Timeout c = 0%Z) "missing timeout";
     Errorf "tls" (agent_TLS_Validate (cn_TLS c))].

Definition agent_Stream_Validate (c : agent_StreamConfig) : option error :=
  check (as_MaxWindowSize c < 256 * 1024)%N "max-window-size must be >= 262144".

Definition Server_Validate (c : ServerConfig) : option error :=
  if negb (sr_Enabled c) then None else check (sr_BindAddr c = "") "missing bind addr".

Definition agent_Validate (c : agent_Config) : option error :=
  first_error
    (((λ e, Errorf (if decide (ln_EndpointID e ≠ "") then "listener: " +:+ ln_EndpointID e else "listener")
              (Listener_Validate e)) <$> ag_Listeners c) ++
     [Errorf "connect" (Connect_Validate (ag_Connect c));
      Errorf "stream" (agent_Stream_Validate (ag_Stream c));
      Errorf "server" (Server_Validate (ag_Server c));
      Errorf "log" (log_Validate (ag_Log c));
      check (ag_GracePeriod c = 0%Z) "missing grace period"]).

End agent_config.

Definition agent_Default (hostname : string) : agent_Config :=
  mkAgentConfig hostname []
    (mkConnect "http://localhost:8001" "" "" (30 * Second) zero_agent_tls "")
    (mkAgentStream (256 * 1024)) (mkAgentServer false ":5000") (mkLogConfig "info" []) Minute.

Section agent_flags.
Context {S : Type} (s : S).

Definition agent_TLS_RegisterFlags (c : ptr S agent_TLSConfig) (prefix : string) : list (flag S) :=
  let prefix := prefix +:+ ".tls." in
  [FieldVar s c at_Cert (prefix +:+ "cert");
   FieldVar s c at_Key (prefix +:+ "key");
   FieldVar s c at_RootCAs (prefix +:+ "root-cas");
   FieldVar s c at_InsecureSkipVerify (prefix +:+ "insecure-skip-verify")].

Definition Connect_RegisterFlags (c : ptr S ConnectConfig) : list (flag S) :=
  [FieldVar s c cn_URL "connect.url";
   FieldVar s c cn_Token "connect.token";
   FieldVar s c cn_TenantID "connect.tenant-id";
   FieldVar s c cn_Timeout "connect.timeout"] ++
  agent_TLS_RegisterFlags (field c cn_TLS) "connect" ++
  [FieldVar s c cn_ProxyURL "connect.proxy-url"].

Definition agent_Stream_RegisterFlags (c : ptr S agent_StreamConfig) : list (flag S) :=
  [FieldVar s c as_MaxWindowSize "stream.max-window-size"].

Definition Server_RegisterFlags (c : ptr S ServerConfig) : list (flag S) :=
  [FieldVar s c sr_Enabled "server.enabled"; FieldVar s c sr_BindAddr "server.bind-addr"].

Definition agent_RegisterFlags (c : ptr S agent_Config) : list (flag S) :=
  [FieldVar s c ag_Name "name"] ++
  Connect_RegisterFlags (field c ag_Connect) ++
  agent_Stream_RegisterFlags (field c ag_Stream) ++
  Server_RegisterFlags (field c ag_Server) ++
  log_RegisterFlags s (field c ag_Log) ++
  [FieldVar s c ag_GracePeriod "grace-period"].

End agent_flags.

(** ** forward/config/config.go *)

Record PortConfig := mkPort {
  pt_Addr : string;
  pt_EndpointID : string;
}.

Record forward_ConnectConfig := mkForwardConnect {
  fc_URL : string;
  fc_Token : string;
  fc_Timeout : Z;
  fc_TLS : agent_TLSConfig;
}.

Record forward_Config := mkForwardConfig {
  fw_Ports : list PortConfig;
  fw_Connect : forward_ConnectConfig;
  fw_Log : log_config;
}.

(** [PortConfig.Host] reads an address as [ListenerConfig.Host] does. *)
Definition Port_Host (c : PortConfig) : option string := Host (pt_Addr c).

Definition forward_TLS_Load `{TLSEnv} (c : agent_TLSConfig) : error + tls_Config :=
  client_tls_Load (at_Cert c) (at_Key c) (at_RootCAs c) (at_InsecureSkipVerify c) "".

Definition forward_TLS_Validate `{TLSEnv} (c : agent_TLSConfig) : option error :=
  if decide (at_Cert c ≠ "" ∧ at_Key c = "") then Some "missing key" else load_error_of (forward_TLS_Load c).

Definition Port_Validate (c : PortConfig) : option error :=
  first_error
    [check (pt_Addr c = "") "missing addr";
     check (Port_Host c = None) "invalid addr";
     check (pt_EndpointID c = "") "missing endpoint id"].

Definition forward_Connect_Validate `{TLSEnv} `{URLEnv} (c : forward_ConnectConfig) : option error :=
  first_error
    [check (fc_URL c = "") "missing url";
     url_error (fc_URL c) "invalid url";
     check (fc_Timeout c = 0%Z) "missing timeout";
     Errorf "tls" (forward_TLS_Validate (fc_TLS c))].

Definition forward_Validate `{TLSEnv} `{URLEnv} (c : forward_Config) : option error :=
  first_error
    (((λ e, Errorf (if decide (pt_EndpointID e ≠ "") then "port: " +:+ pt_EndpointID e else "port")
              (Port_Validate e)) <$> fw_Ports c) ++
     [Errorf "connect" (forward_Connect_Validate (fw_Connect c)); Errorf "log" (log_Validate (fw_Log c))]).

Definition forward_Default : forward_Config :=
  mkForwardConfig [] (mkForwardConnect "http://localhost:8000" "" (30 * Second) zero_agent_tls) (mkLogConfig "info" []).

Definition forward_TLS_RegisterFlags {S} (s : S) (c : ptr S agent_TLSConfig) (prefix : string) : list (flag S) :=
  let prefix := prefix +:+ ".tls." in
  [FieldVar s c at_Cert (prefix +:+ "cert");
   FieldVar s c at_Key (prefix +:+ "key");
   FieldVar s c at_RootCAs (prefix +:+ "root-cas");
   FieldVar s c at_InsecureSkipVerify (prefix +:+ "insecure-skip-verify")].

Definition forward_Connect_RegisterFlags {S} (s : S) (c : ptr S forward_ConnectConfig) : list (flag S) :=
  [FieldVar s c fc_URL "connect.url";
   FieldVar s c fc_Token "connect.token";
   FieldVar s c fc_Timeout "connect.timeout"] ++
  forward_TLS_RegisterFlags s (field c fc_TLS) "connect".

Definition forward_RegisterFlags {S} (s : S) (c : ptr S forward_Config) : list (flag S) :=
  forward_Connect_RegisterFlags s (field c fw_Connect) ++ log_RegisterFlags s (field c fw_Log).

(** ** Lemmas *)

Section agent_flag_lemmas.
Context {S : Type} (s : S).

Lemma below_agent_TLS (c : ptr S agent_TLSConfig) prefix : lawful c → below c (agent_TLS_RegisterFlags s c prefix).
Proof. solve_register (@agent_TLS_RegisterFlags). Qed.
Hint Resolve below_agent_TLS : flags.

Lemma below_Connect (c : ptr S ConnectConfig) : lawful c → below c (Connect_RegisterFlags s c).
Proof. solve_register (@Connect_RegisterFlags). Qed.

Lemma below_agent_Stream (c : ptr S agent_StreamConfig) : lawful c → below c (agent_Stream_RegisterFlags s c).
Proof. solve_register (@agent_Stream_RegisterFlags). Qed.

Lemma below_Server (c : ptr S ServerConfig) : lawful c → below c (Server_RegisterFlags s c).
Proof. solve_register (@Server_RegisterFlags). Qed.
Hint Resolve below_Connect below_agent_Stream below_Server : flags.

Lemma below_agent (c : ptr S agent_Config) : lawful c → below c (agent_RegisterFlags s c).
Proof. solve_register (@agent_RegisterFlags). Qed.

Lemma below_forward_TLS (c : ptr S agent_TLSConfig) prefix : lawful c → below c (forward_TLS_RegisterFlags s c prefix).
Proof. solve_register (@forward_TLS_RegisterFlags). Qed.
Hint Resolve below_forward_TLS : flags.

Lemma below_forward_Connect (c : ptr S forward_ConnectConfig) : lawful c → below c (forward_Connect_RegisterFlags s c).
Proof. solve_register (@forward_Connect_RegisterFlags). Qed.
Hint Resolve below_forward_Connect : flags.

Lemma below_forward (c : ptr S forward_Config) : lawful c → below c (forward_RegisterFlags s c).
Proof. solve_register (@forward_RegisterFlags). Qed.

End agent_flag_lemmas.
#[export] Hint Resolve below_agent below_forward : flags.
