(* ===== verification/Middleware.v ===== *)
(** * The middleware around the routes: pkg/middleware/metrics.go,
      agent/reverseproxy/metrics.go and the chains of the servers

    gin runs the middleware in the order of [router.Use], each around the ones
    after it.  A handler is what it does to the response writer and to the
    metrics and logs, and whether it panics; the authentication is [Auth], the
    access log [Logging], and the route is an argument. *)

From S2P Require Import Prelude GoLib NetLib HttpLib Auth ConfigLib Logging AgentConfig.

Local Open Scope string_scope.

(** ** Handlers *)

(** The writer of the response: [gin.ResponseWriter]. *)
Record writer := mkWriter {
  wr_Status : Z;
  wr_Size : Z;
  wr_Written : bool;
  wr_Header : Header;
}.

(** What is counted and logged; the label of the agent's metrics is the
    endpoint, the server has none. *)
Inductive event :=
  | InFlightInc (label : option string)
  | InFlightDec (label : option string)
  | RequestsTotalInc (label : option string) (status method : string)
  | LatencyObserve (label : option string) (status method : string) (ms : Z)
  | RequestSizeObserve (label : option string) (size : Z)
  | ResponseSizeObserve (label : option string) (size : Z)
  | AccessLogged (level : Z) (req : loggedRequest)
  | PanicLogged.

(** What a handler does, the writer it leaves, and whether it panicked. *)
Definition handled : Type := list event * writer * bool.
Definition handler : Type := writer → handled.

(** The request as the middleware sees it. *)
Record http_request := mkHttpRequest {
  hr_URL : option string;
  hr_Method : string;
  hr_Proto : string;
  hr_Host : string;
  hr_Path : string;
  hr_Header : Header;
  hr_ContentLength : Z;
}.

(** [json_len] is the length of the body of a response of the middleware. *)
Section middleware.
Context `{MapIter} (json_len : response → Z).

(** ** The metrics *)

Definition sum (l : list Z) : Z := foldr Z.add 0%Z l.

Definition len (s : string) : Z := Z.of_nat (String.length s).

(** A server gives a content length of -1 when it is not known. *)
Definition computeApproximateRequestSize (r : http_request) : Z :=
  (match hr_URL r with Some u => len u | None => 0 end + len (hr_Method r) + len (hr_Proto r) +
   sum ((λ p, len p.1 + sum (len <$> p.2)) <$> map_range (hr_Header r)) + len (hr_Host r) +
   (if decide (hr_ContentLength r ≠ -1) then hr_ContentLength r else 0))%Z.

(** [Handler] with the time the request took, in milliseconds: only the deferred
    call runs when the rest of the chain panics. *)
Definition metrics_Handler (label : option string) (r : http_request) (ms : Z) (next : handler) : handler := λ w,
  let '(events, w', panicked) := next w in
  if panicked then ((InFlightInc label :: events ++ [InFlightDec label])%list, w', true)
  else
    let status := Itoa (wr_Status w') in
    ((InFlightInc label :: events ++
       [RequestsTotalInc label status (hr_Method r); LatencyObserve label status (hr_Method r) ms;
        RequestSizeObserve label (computeApproximateRequestSize r); ResponseSizeObserve label (wr_Size w');
        InFlightDec label])%list, w', false).

(** ** The chains *)

(** The access log: [logger] is what [access_NewLogger] returned. *)
Definition logger_Handler (logger : served → option (Z * loggedRequest)) (r : http_request) (duration : Z)
    (next : handler) : handler := λ w,
  let '(events, w', panicked) := next w in
  if panicked then (events, w', true)
  else
    match logger (mkServed (hr_Proto r) (hr_Method r) (hr_Host r) (hr_Path r) (hr_Header r) (wr_Header w')
                    (wr_Status w') duration) with
    | Some (level, req) => ((events ++ [AccessLogged level req])%list, w', false)
    | None => (events, w', false)
    end.

(** [c.AbortWithStatus] and [c.AbortWithStatusJSON]: a status that was written
    stays. *)
Definition abort (status size : Z) (w : writer) : writer :=
  if wr_Written w then w else mkWriter status size true (wr_Header w).

(** Authentication: the next handlers run with the token. *)
Definition auth_Handler (v : option MultiTenantVerifier) (h : header) (next : option Token → handler) : handler := λ w,
  match authenticate v h with
  | inl resp => ([], abort (Z.of_nat (resp_status resp)) (json_len resp) w, false)
  | inr token => next token w
  end.

(** gin's recovery with the server's [panicRoute]. *)
Definition recovery (next : handler) : handler := λ w,
  let '(events, w', panicked) := next w in
  if panicked then ((events ++ [PanicLogged])%list, abort (Z.of_nat StatusInternalServerError) 0 w', false)
  else (events, w', false).

(** [proxy.NewServer]: recovery, authentication, the access log, the metrics and
    then the route. *)
Definition proxy_chain (v : option MultiTenantVerifier) (logger : served → option (Z * loggedRequest)) (h : header)
    (r : http_request) (ms duration : Z) (route : option Token → handler) : handler :=
  recovery (auth_Handler v h (λ token, logger_Handler logger r duration (metrics_Handler None r ms (route token)))).

(** [upstream.NewServer]: nothing is counted or logged. *)
Definition upstream_chain (v : option MultiTenantVerifier) (h : header) (route : option Token → handler) : handler :=
  recovery (auth_Handler v h route).

(** The metrics of the agent have the endpoint of the listener as a label. *)
Definition agent_metrics_Handler (endpoint : string) : http_request → Z → handler → handler :=
  metrics_Handler (Some endpoint).

(** [reverseproxy.NewServer] of the agent: there is no token. *)
Definition agent_chain (conf : ListenerConfig) (logger : served → option (Z * loggedRequest)) (r : http_request)
    (ms duration : Z) (route : handler) : handler :=
  recovery (logger_Handler logger r duration (agent_metrics_Handler (ln_EndpointID conf) r ms route)).

(** [Serve] of an HTTP server, for what [Serve] or [ServeTLS] of net/http
    returned: no error when the server was shut down. *)
Inductive serve_error := ErrServerClosed | ServeError (err : error).

Definition server_Serve (tls : bool) (ServeTLS Serve : option serve_error) : option error :=
  match (if tls then ServeTLS else Serve) with
  | Some (ServeError err) => Some ("http serve: " +:+ err)
  | _ => None
  end.

End middleware.

(** ** Lemmas *)

(** The size does not depend on the order of the headers. *)
Lemma request_size_any_order (it1 it2 : MapIter) r :
  @computeApproximateRequestSize it1 r = @computeApproximateRequestSize it2 r.
Proof.
  unfold computeApproximateRequestSize.
  assert (∀ l1 l2 : list Z, l1 ≡ₚ l2 → sum l1 = sum l2) as Hs.
  { induction 1; simpl; lia. }
  do 3 f_equal. apply Hs, fmap_Permutation. by rewrite (@map_range_perm it1), (@map_range_perm it2).
Qed.

(** What an event does to the gauge of the requests in flight, and whether it
    counts a request or logs one. *)
Definition in_flight (e : event) : Z :=
  match e with InFlightInc _ => 1 | InFlightDec _ => -1 | _ => 0 end.

Definition counts (e : event) : Z := match e with RequestsTotalInc _ _ _ => 1 | _ => 0 end.

(** A route leaves the metrics of the requests alone. *)
Definition unmeasured (e : event) : Prop := in_flight e = 0%Z ∧ counts e = 0%Z.

#[local] Close Scope string_scope.

Lemma sum_app l1 l2 : sum (l1 ++ l2) = (sum l1 + sum l2)%Z.
Proof. induction l1 as [|x l1 IH]; simpl; [done|]. rewrite IH. lia. Qed.

Lemma sum_cons (f : event → Z) e l : sum (f <$> e :: l) = (f e + sum (f <$> l))%Z.
Proof. done. Qed.

Lemma unmeasured_sums l : Forall unmeasured l → sum (in_flight <$> l) = 0%Z ∧ sum (counts <$> l) = 0%Z.
Proof. induction 1 as [|e l [He Hc] _ [IH1 IH2]]; [done|]. rewrite !sum_cons, He, Hc, IH1, IH2. done. Qed.

Section measured.
Context `{MapIter} (json_len : response → Z).

Lemma metrics_Handler_sums label r ms next w events w' panicked :
  Forall unmeasured (next w).1.1 → metrics_Handler label r ms next w = (events, w', panicked) →
  sum (in_flight <$> events) = 0%Z ∧ sum (counts <$> events) = (if panicked then 0 else 1)%Z ∧
  panicked = (next w).2 ∧ w' = (next w).1.2 ∧
  ∀ l1 l2, events = l1 ++ l2 → (0 ≤ sum (in_flight <$> l1) ≤ 1)%Z.
Proof.
  unfold metrics_Handler. destruct (next w) as [[evs w1] p] eqn:Hn. simpl. intros Hu Hm.
  destruct (unmeasured_sums _ Hu) as [Hg Hc].
  assert (∀ rest, (∀ l, l `prefix_of` rest → (-1 ≤ sum (in_flight <$> l) ≤ 0)%Z) →
    ∀ l1 l2, InFlightInc label :: evs ++ rest = l1 ++ l2 → (0 ≤ sum (in_flight <$> l1) ≤ 1)%Z) as Hpre.
  { intros rest Hrest l1 l2 Hl. destruct l1 as [|e l1]; [done|]. injection Hl as <- Hl. rewrite sum_cons.
    enough (-1 ≤ sum (in_flight <$> l1) ≤ 0)%Z by (simpl; lia).
    apply app_eq_inv in Hl as [(k&->&->)|(k&->&->)].
    - apply Forall_app in Hu as [Hu1 _]. destruct (unmeasured_sums _ Hu1) as [-> _]. lia.
    - rewrite fmap_app, sum_app, Hg, Z.add_0_l. apply Hrest. by eexists. }
  assert (∀ e l, in_flight e = (-1)%Z → l `prefix_of` [e] → (-1 ≤ sum (in_flight <$> l) ≤ 0)%Z) as Hlast.
  { intros e l He Hl. destruct l as [|e' l]; [done|]. pose proof (prefix_cons_inv_1 _ _ _ _ Hl) as ->.
    apply prefix_cons_inv_2, prefix_nil_inv in Hl as ->. rewrite sum_cons, He. done. }
  assert (∀ e l rest, in_flight e = 0%Z → l `prefix_of` e :: rest →
    (∀ l, l `prefix_of` rest → (-1 ≤ sum (in_flight <$> l) ≤ 0)%Z) → (-1 ≤ sum (in_flight <$> l) ≤ 0)%Z) as Hnext.
  { intros e l rest He Hl Hrest. destruct l as [|e' l]; [done|]. pose proof (prefix_cons_inv_1 _ _ _ _ Hl) as ->.
    apply prefix_cons_inv_2 in Hl. rewrite sum_cons, He, Z.add_0_l. by apply Hrest. }
  destruct p; injection Hm as <- <- <-; rewrite !sum_cons, !fmap_app, !sum_app, Hg, Hc.
  - split_and!; [done..|]. apply Hpre. intros l. by apply Hlast.
  - split_and!; [done..|]. apply Hpre. intros l Hl.
    do 4 (refine (Hnext _ l _ _ Hl _); [done|clear l Hl; intros l Hl]). by apply (Hlast (InFlightDec label)).
Qed.

(** A chain answers every request and measures those that reach its route: for a
    route that leaves the metrics alone the request is in flight while it is
    handled and not after, and it is counted once unless the authentication
    answered it or the route panicked.  A request whose route panics is
    answered with a 500 when nothing was written, but it is neither counted nor
    logged. *)
Theorem proxy_chain_measures v logger h r ms duration route w events w' panicked :
  (∀ token w, Forall unmeasured (route token w).1.1) →
  proxy_chain json_len v logger h r ms duration route w = (events, w', panicked) →
  panicked = false ∧ sum (in_flight <$> events) = 0%Z ∧
  match authenticate v h with
  | inl resp => events = [] ∧ w' = abort (Z.of_nat (resp_status resp)) (json_len resp) w
  | inr token =>
      let '(_, w1, failed) := route token w in
      sum (counts <$> events) = (if failed then 0 else 1)%Z ∧
      w' = (if failed then abort 500 0 w1 else w1) ∧
      (failed = true → ∀ level req, AccessLogged level req ∈ events → AccessLogged level req ∈ (route token w).1.1)
  end.
Proof.
  intros Hroute. unfold proxy_chain, recovery, auth_Handler.
  destruct (authenticate v h) as [resp|token]; [by intros [= <- <- <-]|].
  unfold logger_Handler. pose proof (Hroute token w) as Hu.
  destruct (metrics_Handler None r ms (route token) w) as [[evs w1] p] eqn:Hm.
  pose proof Hm as Hm'. apply metrics_Handler_sums in Hm' as (Hg&Hc&->&->&_); [|done].
  destruct (route token w) as [[evs0 w0] failed] eqn:Hr. simpl in *. destruct failed.
  - intros [= <- <- <-]. rewrite !fmap_app, !sum_app, Hg, Hc. split_and!; [done..|].
    intros _ level req. unfold metrics_Handler in Hm. rewrite Hr in Hm. injection Hm as <-.
    rewrite !elem_of_app, !elem_of_cons, elem_of_app, list_elem_of_singleton, elem_of_nil. naive_solver.
  - destruct (logger _) as [[level req]|]; intros [= <- <- <-]; rewrite ?fmap_app, ?sum_app, Hg, Hc; done.
Qed.

End measured.
