(* ===== verification/Metrics.v ===== *)
(** * The metrics of a node and of an agent

    pkg/gossip/metrics.go, server/cluster/metrics.go, server/upstream/metrics.go,
    pkg/middleware/metrics.go and agent/reverseproxy/metrics.go: the metrics each
    part has, their registration, and the calls on them that stand for the
    effects of the parts' models.  Prometheus is a parameter with its documented
    behaviour: registering panics when a name is taken, and a labelled metric
    panics when it is given other labels than its own. *)

From Stdlib Require Import DecimalString.
From S2P Require Import Prelude GoLib NetLib Utf8 GossipState GossipNode Cluster Upstream HttpLib Logging Middleware.

Local Open Scope string_scope.

(** ** Prometheus *)

Record Opts := mkOpts {
  Namespace : string;
  Subsystem : string;
  Name : string;
  Help : string;
}.

(** The call that makes the buckets of a histogram. *)
Inductive buckets := DefBuckets | ExponentialBuckets (start factor count : Z).

(** [prometheus.Desc] *)
Record desc := mkDesc {
  fqName : string;
  desc_help : string;
  variableLabels : list string;
}.

(** The collectors the program makes, and those of Prometheus itself. *)
Inductive collector :=
  | Counter (o : Opts)
  | Gauge (o : Opts)
  | Histogram (o : Opts) (b : buckets)
  | CounterVec (o : Opts) (labels : list string)
  | GaugeVec (o : Opts) (labels : list string)
  | HistogramVec (o : Opts) (b : buckets) (labels : list string)
  | Library (descs : list desc).

(** The labels of a metric that has any. *)
Definition labels_of (c : collector) : option (list string) :=
  match c with
  | CounterVec _ ls | GaugeVec _ ls | HistogramVec _ _ ls => Some ls
  | _ => None
  end.

(** Prometheus: a registry and registering in it, the names it builds, what the
    collector of the Go runtime describes, and whether [With] gives a metric
    for the labels, rather than panicking. *)
Class Prometheus := {
  Registry : Type;
  NewRegistry : Registry;
  Registry_Register : collector → Registry → string + Registry;
  BuildFQName : string → string → string → string;
  GoCollector : list desc;
  With : collector → list (string * string) → bool;
}.

Section prometheus.
Context `{Prometheus}.

Definition describe (o : Opts) (labels : list string) : desc :=
  mkDesc (BuildFQName (Namespace o) (Subsystem o) (Name o)) (Help o) labels.

Definition Describe (c : collector) : list desc :=
  match c with
  | Counter o | Gauge o | Histogram o _ => [describe o []]
  | CounterVec o ls | GaugeVec o ls | HistogramVec o _ ls => [describe o ls]
  | Library ds => ds
  end.

Definition names_of (c : collector) : list string := fqName <$> Describe c.

(** [MustRegister]: a failed registration is a panic. *)
Fixpoint MustRegister (cs : list collector) (reg : Registry) : option Registry :=
  match cs with
  | [] => Some reg
  | c :: cs' => match Registry_Register c reg with inl _ => None | inr reg' => MustRegister cs' reg' end
  end.

End prometheus.

(** The data model: names are letters, digits and underscores, no digit first;
    names of labels do not begin with two underscores. *)
Definition name_char (c : Ascii.ascii) : bool := is_lower c || is_upper c || is_digit c || bool_decide (c = "_"%char).

Definition valid_name (s : string) : bool :=
  match s with
  | EmptyString => false
  | String c s' => negb (is_digit c) && name_char c && all_chars name_char s'
  end.

Definition valid_desc (d : desc) : Prop :=
  valid_name (fqName d) = true ∧ NoDup (variableLabels d) ∧
  Forall (λ l, valid_name l = true ∧ HasPrefix l "__" = false) (variableLabels d).

(** [utf8.ValidString] *)
Definition ValidString (s : string) : Prop := s = of_runes (runes s).

(** The documented behaviour. [collectors] is what is registered: a collector
    with valid descriptors whose names no other has can be registered. *)
Class PrometheusLaws `{Prometheus} (collectors : Registry → list collector) : Prop := {
  new_registry : collectors NewRegistry = [];
  register_fresh c reg :
    Forall valid_desc (Describe c) → NoDup (names_of c) →
    (∀ c', c' ∈ collectors reg → ∀ n, n ∈ names_of c → n ∉ names_of c') →
    ∃ reg', Registry_Register c reg = inr reg' ∧ collectors reg' = (collectors reg ++ [c])%list;
  build_fq_name ns sub name :
    ns ≠ "" → sub ≠ "" → name ≠ "" → BuildFQName ns sub name = ns +:+ "_" +:+ sub +:+ "_" +:+ name;
  go_collector : Forall valid_desc GoCollector ∧ NoDup (fqName <$> GoCollector) ∧
    ∀ d, d ∈ GoCollector → HasPrefix (fqName d) "go_" = true;
  with_own_labels c ls labels :
    labels_of c = Some ls → labels.*1 ≡ₚ ls → Forall ValidString labels.*2 → With c labels = true;
}.

(** ** The metrics *)

(** pkg/gossip/metrics.go *)
Record gossip_Metrics := mkGossipMetrics {
  gm_ConnectionsInbound : collector;
  gm_StreamBytesInbound : collector;
  gm_PacketBytesInbound : collector;
  gm_ConnectionsOutbound : collector;
  gm_StreamBytesOutbound : collector;
  gm_PacketBytesOutbound : collector;
  gm_DigestEntriesInbound : collector;
  gm_DeltaEntriesInbound : collector;
  gm_DigestEntriesOutbound : collector;
  gm_DeltaEntriesOutbound : collector;
  gm_Entries : collector;
}.

Definition newMetrics : gossip_Metrics :=
  mkGossipMetrics
    (Counter (mkOpts "piko" "gossip" "connections_inbound_total" "Total number of incoming stream connections"))
    (Counter (mkOpts "piko" "gossip" "stream_bytes_inbound_total" "Total number of read bytes via a stream connection"))
    (Counter (mkOpts "piko" "gossip" "packet_bytes_inbound_total" "Total number of read bytes via a packet connection"))
    (Counter (mkOpts "piko" "gossip" "connections_outbound_total" "Total number of outbound stream connections"))
    (Counter (mkOpts "piko" "gossip" "stream_bytes_outbound_total" "Total number of written bytes via a stream connection"))
    (Counter (mkOpts "piko" "gossip" "packet_bytes_outbound_total" "Total number of written bytes via a packet connection"))
    (Counter (mkOpts "piko" "gossip" "digest_entries_inbound_total" "Total number of inbound digest entries"))
    (Counter (mkOpts "piko" "gossip" "delta_entries_inbound_total" "Total number of inbound digest entries"))
    (Counter (mkOpts "piko" "gossip" "digest_entries_outbound_total" "Total number of outbound digest entries"))
    (Counter (mkOpts "piko" "gossip" "delta_entries_outbound_total" "Total number of outbound delta entries"))
    (GaugeVec (mkOpts "piko" "gossip" "entries" "Number of entries") ["node_id"; "deleted"; "internal"]).

(** server/cluster/metrics.go *)
Record cluster_Metrics := mkClusterMetrics { cm_Nodes : collector }.

Definition cluster_NewMetrics : cluster_Metrics :=
  mkClusterMetrics (GaugeVec (mkOpts "piko" "cluster" "nodes" "Number of nodes in the cluster state") ["status"]).

(** server/upstream/metrics.go *)
Record upstream_Metrics := mkUpstreamMetrics {
  um_ConnectedUpstreams : collector;
  um_RegisteredEndpoints : collector;
  um_UpstreamRequestsTotal : collector;
  um_RemoteRequestsTotal : collector;
}.

Definition upstream_NewMetrics : upstream_Metrics :=
  mkUpstreamMetrics
    (Gauge (mkOpts "piko" "upstreams" "connected_upstreams" "Number of upstreams connected to this node"))
    (Gauge (mkOpts "piko" "upstreams" "registered_endpoints" "Number of endpoints registered to this node"))
    (Counter (mkOpts "piko" "upstreams" "upstream_requests_total" "Number of requests sent to an upstream connected to the local node"))
    (CounterVec (mkOpts "piko" "upstreams" "remote_requests_total" "Number of requests sent to a remote node") ["node_id"]).

(** pkg/middleware/metrics.go and, with the endpoint as a label,
    agent/reverseproxy/metrics.go. *)
Record request_Metrics := mkRequestMetrics {
  rm_RequestsInFlight : collector;
  rm_RequestsTotal : collector;
  rm_RequestLatency : collector;
  rm_RequestSize : collector;
  rm_ResponseSize : collector;
}.

Definition sizeBuckets : buckets := ExponentialBuckets 256 4 8.

Definition middleware_NewMetrics (subsystem : string) : request_Metrics :=
  mkRequestMetrics
    (Gauge (mkOpts "piko" subsystem "requests_in_flight" "Number of requests currently handled by this server."))
    (CounterVec (mkOpts "piko" subsystem "requests_total" "Total requests.") ["status"; "method"])
    (HistogramVec (mkOpts "piko" subsystem "request_latency_seconds" "Request latency.") DefBuckets ["status"; "method"])
    (Histogram (mkOpts "piko" subsystem "request_size_bytes" "Request size") sizeBuckets)
    (Histogram (mkOpts "piko" subsystem "response_size_bytes" "Response size") sizeBuckets).

Definition agent_NewMetrics (subsystem : string) : request_Metrics :=
  mkRequestMetrics
    (GaugeVec (mkOpts "piko" subsystem "requests_in_flight" "Number of requests currently handled by this server.") ["endpoint"])
    (CounterVec (mkOpts "piko" subsystem "requests_total" "Total requests.") ["status"; "method"; "endpoint"])
    (HistogramVec (mkOpts "piko" subsystem "request_latency_seconds" "Request latency.") DefBuckets ["status"; "method"; "endpoint"])
    (HistogramVec (mkOpts "piko" subsystem "request_size_bytes" "Request size") sizeBuckets ["endpoint"])
    (HistogramVec (mkOpts "piko" subsystem "response_size_bytes" "Response size") sizeBuckets ["endpoint"]).

(** ** Registration *)

Section registration.
Context `{Prometheus}.

Definition gossip_collectors (m : gossip_Metrics) : list collector :=
  [gm_ConnectionsInbound m; gm_StreamBytesInbound m; gm_PacketBytesInbound m; gm_ConnectionsOutbound m;
   gm_StreamBytesOutbound m; gm_PacketBytesOutbound m; gm_DigestEntriesInbound m; gm_DeltaEntriesInbound m;
   gm_DigestEntriesOutbound m; gm_DeltaEntriesOutbound m; gm_Entries m].

Definition cluster_collectors (m : cluster_Metrics) : list collector := [cm_Nodes m].

Definition upstream_collectors (m : upstream_Metrics) : list collector :=
  [um_ConnectedUpstreams m; um_RegisteredEndpoints m; um_UpstreamRequestsTotal m; um_RemoteRequestsTotal m].

Definition request_collectors (m : request_Metrics) : list collector :=
  [rm_RequestsInFlight m; rm_RequestsTotal m; rm_RequestLatency m; rm_RequestSize m; rm_ResponseSize m].

Definition gossip_Metrics_Register (m : gossip_Metrics) : Registry → option Registry := MustRegister (gossip_collectors m).
Definition cluster_Metrics_Register (m : cluster_Metrics) : Registry → option Registry := MustRegister (cluster_collectors m).
Definition upstream_Metrics_Register (m : upstream_Metrics) : Registry → option Registry := MustRegister (upstream_collectors m).
Definition middleware_Metrics_Register (m : request_Metrics) : Registry → option Registry := MustRegister (request_collectors m).
Definition agent_Metrics_Register (m : request_Metrics) : Registry → option Registry := MustRegister (request_collectors m).

(** What [promhttp.HandlerFor] registers for its own errors. *)
Definition handler_errors : collector :=
  Library [mkDesc "promhttp_metric_handler_errors_total"
             "Total number of internal errors encountered by the promhttp metric handler." ["cause"]].

(** The handler of /metrics, which needs a registry. *)
Definition metricsHandler (reg : Registry) : option Registry := MustRegister [handler_errors] reg.

(** The metrics of a node, in the order [NewServer] and [Start] register them:
    of the Go runtime, the cluster, the upstreams, the proxy, the handler of
    the admin server and the gossip. *)
Definition node_registry : option Registry :=
  r0 ← MustRegister [Library GoCollector] NewRegistry;
  r1 ← cluster_Metrics_Register cluster_NewMetrics r0;
  r2 ← upstream_Metrics_Register upstream_NewMetrics r1;
  r3 ← middleware_Metrics_Register (middleware_NewMetrics "proxy") r2;
  r4 ← metricsHandler r3;
  gossip_Metrics_Register newMetrics r4.

(** [runAgent]: one set of metrics for every listener, and the handler of the
    agent's server when it is enabled. *)
Definition agent_registry (server : bool) : option Registry :=
  r0 ← agent_Metrics_Register (agent_NewMetrics "agent") NewRegistry;
  if server then metricsHandler r0 else Some r0.

End registration.

(** ** The calls on the metrics *)

(** A call on a metric, with the labels it is given if any. *)
Inductive metric_call :=
  | On (c : collector)
  | OnLabels (c : collector) (labels : list (string * string))
  | DeletePartialMatch (c : collector) (labels : list (string * string)).

Definition FormatBool (b : bool) : string := if b then "true" else "false".

Definition gossip_counter (m : gossip_Metrics) (x : metric) : collector :=
  match x with
  | ConnectionsInbound => gm_ConnectionsInbound m
  | PacketBytesInbound => gm_PacketBytesInbound m
  | ConnectionsOutbound => gm_ConnectionsOutbound m
  | PacketBytesOutbound => gm_PacketBytesOutbound m
  | DigestEntriesInbound => gm_DigestEntriesInbound m
  | DeltaEntriesInbound => gm_DeltaEntriesInbound m
  | DigestEntriesOutbound => gm_DigestEntriesOutbound m
  | DeltaEntriesOutbound => gm_DeltaEntriesOutbound m
  end.

Definition entry_labels (nodeID : string) (internal deleted : bool) : list (string * string) :=
  [("node_id", nodeID); ("internal", FormatBool internal); ("deleted", FormatBool deleted)].

Definition gossip_calls (m : gossip_Metrics) (e : node_effect) : list metric_call :=
  match e with
  | StateEffect (EntriesInc id i d) | StateEffect (EntriesDec id i d) => [OnLabels (gm_Entries m) (entry_labels id i d)]
  | StateEffect (EntriesDeletePartialMatch id) => [DeletePartialMatch (gm_Entries m) [("node_id", id)]]
  | Count x _ => [On (gossip_counter m x)]
  | _ => []
  end.

Definition cluster_calls (m : cluster_Metrics) (e : cluster_effect) : list metric_call :=
  match e with
  | NodesInc status | NodesDec status => [OnLabels (cm_Nodes m) [("status", status)]]
  | _ => []
  end.

Definition manager_calls (m : upstream_Metrics) (c : cluster_Metrics) (e : manager_effect) : list metric_call :=
  match e with
  | UpstreamRequestsTotalInc => [On (um_UpstreamRequestsTotal m)]
  | RemoteRequestsTotalInc nodeID => [OnLabels (um_RemoteRequestsTotal m) [("node_id", nodeID)]]
  | RegisteredEndpointsInc | RegisteredEndpointsDec => [On (um_RegisteredEndpoints m)]
  | ConnectedUpstreamsInc | ConnectedUpstreamsDec => [On (um_ConnectedUpstreams m)]
  | ClusterEffect e => cluster_calls c e
  end.

(** The calls of [Handler]: of the servers, and of the agent with the endpoint. *)
Definition request_calls (m : request_Metrics) (e : event) : list metric_call :=
  match e with
  | InFlightInc None | InFlightDec None => [On (rm_RequestsInFlight m)]
  | InFlightInc (Some ep) | InFlightDec (Some ep) => [OnLabels (rm_RequestsInFlight m) [("endpoint", ep)]]
  | RequestsTotalInc None status method => [OnLabels (rm_RequestsTotal m) [("status", status); ("method", method)]]
  | RequestsTotalInc (Some ep) status method =>
      [OnLabels (rm_RequestsTotal m) [("status", status); ("method", method); ("endpoint", ep)]]
  | LatencyObserve None status method _ => [OnLabels (rm_RequestLatency m) [("status", status); ("method", method)]]
  | LatencyObserve (Some ep) status method _ =>
      [OnLabels (rm_RequestLatency m) [("status", status); ("method", method); ("endpoint", ep)]]
  | RequestSizeObserve None _ => [On (rm_RequestSize m)]
  | RequestSizeObserve (Some ep) _ => [OnLabels (rm_RequestSize m) [("endpoint", ep)]]
  | ResponseSizeObserve None _ => [On (rm_ResponseSize m)]
  | ResponseSizeObserve (Some ep) _ => [OnLabels (rm_ResponseSize m) [("endpoint", ep)]]
  | AccessLogged _ _ | PanicLogged => []
  end.

(** ** Lemmas *)

#[local] Close Scope string_scope.

#[local] Instance ValidString_dec s : Decision (ValidString s).
Proof. unfold ValidString. apply _. Defined.

#[local] Instance valid_desc_dec d : Decision (valid_desc d).
Proof. unfold valid_desc. apply _. Defined.

(** Text in ASCII is valid. *)
Definition is_ascii (c : Ascii.ascii) : bool := bool_decide (Ascii.N_of_ascii c < 0x80)%N.

Lemma ascii_valid s : all_chars is_ascii s = true → ValidString s.
Proof.
  unfold ValidString. induction s as [|c s IH]; [done|]. intros [Hc Hs]%andb_true_iff.
  unfold is_ascii in Hc. apply bool_decide_eq_true in Hc. cbn [runes].
  rewrite decide_True by done. simpl. rewrite <-IH by done. unfold put_rune.
  rewrite decide_True by lia. rewrite decide_True by done. unfold chr. by rewrite Ascii.ascii_N_embedding.
Qed.

Lemma FormatBool_valid b : ValidString (FormatBool b).
Proof. by apply ascii_valid; destruct b. Qed.

Lemma string_of_uint_ascii u : all_chars is_ascii (NilEmpty.string_of_uint u) = true.
Proof. by induction u. Qed.

Lemma Itoa_valid z : ValidString (Itoa z).
Proof.
  apply ascii_valid. assert (∀ n, all_chars is_ascii (FormatUint n) = true) as Hu.
  { intros n. unfold FormatUint. destruct (N.to_uint n); [done|..]; apply string_of_uint_ascii. }
  unfold Itoa. case_decide; [|apply Hu]. simpl. apply Hu.
Qed.

(** What a collector with one descriptor describes. *)
Definition plain_name (o : Opts) : string := Namespace o +:+ "_" +:+ Subsystem o +:+ "_" +:+ Name o.

Definition opts_of (c : collector) : option Opts :=
  match c with
  | Counter o | Gauge o | Histogram o _ | CounterVec o _ | GaugeVec o _ | HistogramVec o _ _ => Some o
  | Library _ => None
  end.

Definition plain_desc (c : collector) : option desc :=
  match c with
  | Library [d] => Some d
  | Library _ => None
  | _ => (λ o, mkDesc (plain_name o) (Help o) (default [] (labels_of c))) <$> opts_of c
  end.

Definition named_parts (o : Opts) : Prop := Namespace o ≠ "" ∧ Subsystem o ≠ "" ∧ Name o ≠ "".

#[local] Instance named_parts_dec o : Decision (named_parts o).
Proof. unfold named_parts. apply _. Defined.

Definition plain_ok (c : collector) : bool :=
  match opts_of c with Some o => bool_decide (named_parts o) | None => true end &&
  match plain_desc c with Some d => bool_decide (valid_desc d) | None => false end.

Section laws.
Context `{PrometheusLaws}.

Lemma MustRegister_app cs1 cs2 reg : MustRegister (cs1 ++ cs2) reg = MustRegister cs1 reg ≫= MustRegister cs2.
Proof. revert reg. induction cs1 as [|c cs1 IH]; intros reg; simpl; [done|]. by destruct (Registry_Register c reg). Qed.

(** Collectors with names of their own can be registered. *)
Lemma MustRegister_fresh cs reg :
  Forall (λ c, Forall valid_desc (Describe c)) cs → NoDup (cs ≫= names_of) →
  (∀ c', c' ∈ collectors reg → ∀ n, n ∈ cs ≫= names_of → n ∉ names_of c') →
  ∃ reg', MustRegister cs reg = Some reg' ∧ collectors reg' = collectors reg ++ cs.
Proof.
  intros Hv. revert reg. induction Hv as [|c cs Hc _ IH]; intros reg Hnd Hfresh; [exists reg; by rewrite app_nil_r|].
  simpl in *. apply NoDup_app in Hnd as (Hnd1&Hdis&Hnd2).
  destruct (register_fresh c reg Hc Hnd1) as (r1&->&Hr1).
  { intros c' Hc' n Hn. apply Hfresh; [done|]. apply elem_of_app. by left. }
  destruct (IH r1 Hnd2) as (r2&Hr2&Hcs).
  { intros c' Hc' n Hn Hn'. rewrite Hr1 in Hc'. apply elem_of_app in Hc' as [Hc' | ->%list_elem_of_singleton].
    - eapply Hfresh; [done| |done]. apply elem_of_app. by right.
    - exact (Hdis n Hn' Hn). }
  exists r2. split; [done|]. by rewrite Hcs, Hr1, <-app_assoc.
Qed.

Lemma plain_Describe c d : plain_ok c = true → plain_desc c = Some d → Describe c = [d].
Proof.
  unfold plain_ok. intros [Ho _]%andb_prop Hd.
  assert (∀ o ls, named_parts o → describe o ls = mkDesc (plain_name o) (Help o) ls) as Hf.
  { intros o ls (?&?&?). unfold describe. by rewrite build_fq_name. }
  destruct c as [o|o|o b|o ls|o ls|o b ls|l]; [..|by destruct l as [|x l]; [|destruct l]; simplify_eq/=]; simpl in *; simplify_eq;
    by rewrite Hf by by apply bool_decide_eq_true in Ho.
Qed.

Lemma plain_valid cs : forallb plain_ok cs = true →
  Forall (λ c, Forall valid_desc (Describe c)) cs ∧ (cs ≫= names_of) = fqName <$> omap plain_desc cs.
Proof.
  induction cs as [|c cs IH]; [done|]. intros [Hc [Hv Hn]%IH]%andb_prop.
  assert (∃ d, plain_desc c = Some d ∧ valid_desc d) as (d&Hd&Hvd).
  { pose proof Hc as Hc'. apply andb_prop in Hc' as [_ Hd]. destruct (plain_desc c) as [d|]; [|done].
    exists d. split; [done|]. by apply bool_decide_eq_true in Hd. }
  pose proof (plain_Describe c d Hc Hd) as HD. csimpl. rewrite Hd. csimpl. split.
  - constructor; [|done]. rewrite HD. by constructor.
  - rewrite <-Hn. unfold names_of at 1. by rewrite HD.
Qed.

(** Plain collectors with different names, whose names no registered one has. *)
Lemma MustRegister_plain cs reg :
  forallb plain_ok cs = true → bool_decide (NoDup (fqName <$> omap plain_desc cs)) = true →
  (∀ c', c' ∈ collectors reg → ∀ n, n ∈ fqName <$> omap plain_desc cs → n ∉ names_of c') →
  ∃ reg', MustRegister cs reg = Some reg' ∧ collectors reg' = collectors reg ++ cs.
Proof.
  intros [Hv Hn]%plain_valid Hnd%bool_decide_eq_true Hfresh. apply MustRegister_fresh; by rewrite ?Hn.
Qed.

(** The collectors of a node and of an agent. *)
Definition node_collectors : list collector :=
  cluster_collectors cluster_NewMetrics ++ upstream_collectors upstream_NewMetrics ++
  request_collectors (middleware_NewMetrics "proxy") ++ [handler_errors] ++ gossip_collectors newMetrics.

Definition agent_collectors (server : bool) : list collector :=
  request_collectors (agent_NewMetrics "agent") ++ (if server then [handler_errors] else []).

Lemma node_registered : ∃ reg, node_registry = Some reg ∧ ∀ c, c ∈ node_collectors → c ∈ collectors reg.
Proof.
  destruct go_collector as (Hgv&Hgn&Hgp).
  destruct (MustRegister_fresh [Library GoCollector] NewRegistry) as (r0&Hr0&Hc0).
  { by repeat constructor. }
  { simpl. by rewrite app_nil_r. }
  { intros c'. by rewrite new_registry, elem_of_nil. }
  assert (node_registry = MustRegister node_collectors r0) as ->.
  { unfold node_registry. rewrite Hr0. unfold node_collectors, cluster_Metrics_Register, upstream_Metrics_Register,
      middleware_Metrics_Register, metricsHandler, gossip_Metrics_Register. cbn [mbind option_bind].
    rewrite MustRegister_app. destruct (MustRegister (cluster_collectors _) _); [cbn [mbind option_bind]|done].
    rewrite MustRegister_app. destruct (MustRegister (upstream_collectors _) _); [cbn [mbind option_bind]|done].
    rewrite MustRegister_app. destruct (MustRegister (request_collectors _) _); [cbn [mbind option_bind]|done].
    by rewrite MustRegister_app. }
  destruct (MustRegister_plain node_collectors r0) as (reg&Hr&Hcs); [by vm_compute|by vm_compute| |].
  - rewrite Hc0, new_registry. intros c' ->%list_elem_of_singleton n Hn (d&->&Hd)%list_elem_of_fmap.
    apply Hgp in Hd. assert (Forall (λ n, HasPrefix n "go_" = false) (fqName <$> omap plain_desc node_collectors)) as Hf.
    { apply (bool_decide_eq_true_1 _). by vm_compute. }
    rewrite Forall_forall in Hf. by rewrite (Hf _ Hn) in Hd.
  - exists reg. split; [done|]. intros c Hc. rewrite Hcs. apply elem_of_app. by right.
Qed.

Lemma agent_registered server :
  ∃ reg, agent_registry server = Some reg ∧ ∀ c, c ∈ agent_collectors server → c ∈ collectors reg.
Proof.
  destruct (MustRegister_plain (agent_collectors server) NewRegistry) as (reg&Hr&Hcs).
  - by destruct server; vm_compute.
  - by destruct server; vm_compute.
  - intros c'. by rewrite new_registry, elem_of_nil.
  - exists reg. split.
    + rewrite <-Hr. unfold agent_registry, agent_collectors, agent_Metrics_Register, metricsHandler.
      rewrite MustRegister_app. destruct (MustRegister (request_collectors _) _); [|done]. by destruct server.
    + intros c Hc. rewrite Hcs. apply elem_of_app. by right.
Qed.

(** ** Calls *)

(** A call does not panic: the metric is registered and has these labels. *)
Definition call_ok (reg : Registry) (x : metric_call) : Prop :=
  match x with
  | On c => c ∈ collectors reg ∧ labels_of c = None
  | OnLabels c labels => c ∈ collectors reg ∧ With c labels = true
  | DeletePartialMatch c labels => c ∈ collectors reg ∧ labels_of c ≠ None
  end.
(** The values of the labels are text in UTF-8, as far as they are not made by
    the program. *)
Definition gossip_text (e : node_effect) : Prop :=
  match e with
  | StateEffect (EntriesInc id _ _) | StateEffect (EntriesDec id _ _) => ValidString id
  | _ => True
  end.

Definition cluster_text (e : cluster_effect) : Prop :=
  match e with NodesInc status | NodesDec status => ValidString status | _ => True end.

Definition manager_text (e : manager_effect) : Prop :=
  match e with
  | RemoteRequestsTotalInc nodeID => ValidString nodeID
  | ClusterEffect e => cluster_text e
  | _ => True
  end.

(** The events of one [Handler]: its endpoint, if it has one, is the label. *)
Definition event_label (e : event) : option (option string) :=
  match e with
  | InFlightInc l | InFlightDec l | RequestsTotalInc l _ _ | LatencyObserve l _ _ _
  | RequestSizeObserve l _ | ResponseSizeObserve l _ => Some l
  | AccessLogged _ _ | PanicLogged => None
  end.

Definition request_text (label : option string) (e : event) : Prop :=
  (∀ l, event_label e = Some l → l = label) ∧
  match e with
  | RequestsTotalInc _ status method | LatencyObserve _ status method _ => ValidString status ∧ ValidString method
  | _ => True
  end.

Lemma with_labels reg c ls labels :
  c ∈ collectors reg → labels_of c = Some ls → labels.*1 ≡ₚ ls → Forall ValidString labels.*2 →
  call_ok reg (OnLabels c labels).
Proof. intros Hc Hl Hp Hv. split; [done|]. by eapply with_own_labels. Qed.

(** The metric of a call is one of those registered. *)
Ltac registered := match goal with Hreg : ∀ c, c ∈ _ → _ |- _ => solve [apply Hreg; repeat constructor] end.
Ltac labelled :=
  eapply with_labels; [registered|reflexivity|apply (bool_decide_eq_true_1 _); by vm_compute|
    csimpl; rewrite !Forall_cons, Forall_nil; split_and?; auto using FormatBool_valid].
Ltac metric_calls :=
  first [exact (List.Forall_nil _)|apply Forall_singleton; first [by split; [registered|]|labelled]].

Lemma gossip_calls_ok reg e :
  (∀ c, c ∈ gossip_collectors newMetrics → c ∈ collectors reg) → gossip_text e →
  Forall (call_ok reg) (gossip_calls newMetrics e).
Proof.
  intros Hreg. destruct e as [[id i d|id i d|id|cl|id]|addr p|x n]; simpl; intros He; try metric_calls.
  destruct x; metric_calls.
Qed.

Lemma cluster_calls_ok reg e :
  (∀ c, c ∈ cluster_collectors cluster_NewMetrics → c ∈ collectors reg) → cluster_text e →
  Forall (call_ok reg) (cluster_calls cluster_NewMetrics e).
Proof. intros Hreg. destruct e; simpl; intros He; metric_calls. Qed.

Lemma manager_calls_ok reg e :
  (∀ c, c ∈ upstream_collectors upstream_NewMetrics → c ∈ collectors reg) →
  (∀ c, c ∈ cluster_collectors cluster_NewMetrics → c ∈ collectors reg) → manager_text e →
  Forall (call_ok reg) (manager_calls upstream_NewMetrics cluster_NewMetrics e).
Proof.
  intros Hreg Hcl. destruct e; simpl; intros He; try metric_calls. by apply cluster_calls_ok.
Qed.

Lemma request_calls_ok reg label subsystem e :
  let m := match label with None => middleware_NewMetrics subsystem | Some _ => agent_NewMetrics subsystem end in
  (∀ c, c ∈ request_collectors m → c ∈ collectors reg) →
  match label with Some ep => ValidString ep | None => True end → request_text label e →
  Forall (call_ok reg) (request_calls m e).
Proof.
  intros m Hreg Hep [Hl He]. destruct label as [ep|]; subst m; destruct e as [l|l|l st mt|l st mt ms|l sz|l sz|lv rq|];
    try (specialize (Hl _ eq_refl) as ->); simpl in *; destruct_and?; metric_calls.
Qed.
End laws.

(** The events of the middleware, for a request whose method is text. *)
Lemma metrics_Handler_text `{MapIter} label r ms next w :
  ValidString (hr_Method r) → Forall (request_text label) (next w).1.1 →
  Forall (request_text label) (metrics_Handler label r ms next w).1.1.
Proof.
  intros Hm Hn. unfold metrics_Handler. destruct (next w) as [[events w'] panicked]. simpl in Hn.
  assert (∀ e, event_label e = Some label → match e with RequestsTotalInc _ status method |
    LatencyObserve _ status method _ => ValidString status ∧ ValidString method | _ => True end → request_text label e) as He.
  { intros e Hl. by split; [intros l Hl'; congruence|]. }
  destruct panicked; simpl; (constructor; [by apply He|]); apply Forall_app; (split; [done|]);
    repeat (apply Forall_cons; split; [apply He; [done|]; first [done|split; [apply Itoa_valid|done]]|]); by constructor.
Qed.

(** ** Properties *)

(** Measuring never stops a node or an agent: every metric is registered
    under a name of its own, so that no registration panics, whatever the
    collector of the Go runtime describes; and every call on a metric that the
    gossip, the cluster, the manager and the middleware make is on a registered
    one, with the labels it was made with, so that it does not panic either, for
    node identifiers, endpoints and methods that are valid text. *)
Theorem metrics_never_panic `{PrometheusLaws, MapIter} :
  (∃ reg, node_registry = Some reg ∧
    (∀ e, gossip_text e → Forall (call_ok (collectors := collectors) reg) (gossip_calls newMetrics e)) ∧
    (∀ e, manager_text e → Forall (call_ok (collectors := collectors) reg) (manager_calls upstream_NewMetrics cluster_NewMetrics e)) ∧
    ∀ r ms next w, ValidString (hr_Method r) → Forall (request_text None) (next w).1.1 →
      Forall (λ e, Forall (call_ok (collectors := collectors) reg) (request_calls (middleware_NewMetrics "proxy") e))
        (metrics_Handler None r ms next w).1.1) ∧
  ∀ server, ∃ reg, agent_registry server = Some reg ∧
    ∀ endpoint r ms next w, ValidString endpoint → ValidString (hr_Method r) →
      Forall (request_text (Some endpoint)) (next w).1.1 →
      Forall (λ e, Forall (call_ok (collectors := collectors) reg) (request_calls (agent_NewMetrics "agent") e))
        (agent_metrics_Handler endpoint r ms next w).1.1.
Proof.
  split.
  - destruct node_registered as (reg&Hreg&Hin). exists reg. split_and!; [done|..].
    + intros e He. apply gossip_calls_ok; [|done]. intros c Hc. apply Hin. unfold node_collectors. rewrite !elem_of_app. tauto.
    + intros e He. apply manager_calls_ok; [..|done]; intros c Hc; apply Hin; unfold node_collectors; rewrite !elem_of_app; tauto.
    + intros r ms next w Hm Hn. eapply Forall_impl; [exact (metrics_Handler_text None r ms next w Hm Hn)|]. intros e He.
      apply (request_calls_ok reg None "proxy"); [|done..]. intros c Hc. apply Hin. unfold node_collectors.
      rewrite !elem_of_app. tauto.
  - intros server. destruct (agent_registered server) as (reg&Hreg&Hin). exists reg. split; [done|].
    intros endpoint r ms next w Hep Hm Hn.
    eapply Forall_impl; [exact (metrics_Handler_text (Some endpoint) r ms next w Hm Hn)|]. intros e He.
    apply (request_calls_ok reg (Some endpoint) "agent"); [|done..]. intros c Hc. apply Hin. unfold agent_collectors.
    rewrite elem_of_app. tauto.
Qed.

(** ** Witnesses *)

(** A registry that keeps its collectors and refuses a name that is taken. *)
Definition ex_build (ns sub name : string) : string := ns +:+ "_" +:+ sub +:+ "_" +:+ name.

Definition ex_names (c : collector) : list string :=
  match opts_of c, c with
  | Some o, _ => [ex_build (Namespace o) (Subsystem o) (Name o)]
  | None, Library ds => fqName <$> ds
  | None, _ => []
  end.

Definition ex_taken (c : collector) (reg : list collector) : bool :=
  existsb (λ n, bool_decide (n ∈ reg ≫= ex_names)) (ex_names c).

#[local] Instance ex_prometheus : Prometheus := {
  Registry := list collector;
  NewRegistry := [];
  Registry_Register c reg := if ex_taken c reg then inl "duplicate metrics collector registration attempted" else inr (reg ++ [c]);
  BuildFQName := ex_build;
  GoCollector := [mkDesc "go_goroutines" "Number of goroutines that currently exist." [];
                  mkDesc "go_info" "Information about the Go environment." ["version"]];
  With c labels := bool_decide (labels.*1 ≡ₚ default [] (labels_of c)) && bool_decide (Forall ValidString labels.*2);
}.

Lemma ex_names_of c : ex_names c = names_of c.
Proof. by destruct c. Qed.

#[local] Existing Instance canonical_iter.

Definition ex_collectors : @Registry ex_prometheus → list collector := λ reg, reg.

#[local] Instance ex_prometheus_laws : PrometheusLaws ex_collectors.
Proof.
  split.
  - done.
  - intros c reg _ _ Hfresh. exists (reg ++ [c]). split; [|done].
    change (Registry_Register c reg) with
      (if ex_taken c reg then inl "duplicate metrics collector registration attempted" else inr (reg ++ [c])).
    destruct (ex_taken c reg) eqn:Ht; [|done]. unfold ex_taken in Ht. apply existsb_exists in Ht as (n&Hn&Hm).
    apply bool_decide_eq_true, list_elem_of_bind in Hm as (c'&Hn'&Hc'). apply list_elem_of_In in Hn.
    rewrite ex_names_of in Hn, Hn'. exfalso. exact (Hfresh c' Hc' n Hn Hn').
  - done.
  - split_and!; [by apply (bool_decide_eq_true_1 _); vm_compute|by apply (bool_decide_eq_true_1 _); vm_compute|].
    intros d Hd. repeat (apply elem_of_cons in Hd as [->|Hd]; [done|]). by apply elem_of_nil in Hd.
  - intros c ls labels Hl Hp Hv. simpl. rewrite Hl. by rewrite !bool_decide_true.
Qed.

Lemma metrics_never_panic_witness :
  ∃ reg, node_registry = Some reg ∧ length (ex_collectors reg) = 23 ∧
    Forall (call_ok (collectors := ex_collectors) reg) (gossip_calls newMetrics (StateEffect (EntriesInc "n1" false true))).
Proof.
  destruct (proj1 (metrics_never_panic (collectors := ex_collectors))) as (reg&Hreg&Hg&_).
  exists reg. split; [exact Hreg|]. split.
  - vm_compute in Hreg. injection Hreg as <-. reflexivity.
  - apply Hg. apply ascii_valid. reflexivity.
Defined.
