(* ===== verification/Commands.v ===== *)
(** * The commands: cli/agent, cli/forward and the proxies of the agent

    The steps of [piko agent] and [piko forward] in cobra's order (the parent's
    [PersistentPreRun], then [PreRun], then [Run]) and the proxies they start.
    [inl] prints an error and exits; the outer [None] is a panic. *)

From coqutil Require Import Datatypes.RecordSetters.
From S2P Require Import Prelude GoLib NetLib HttpLib Transport ConfigLib Logging ServerConfig AgentConfig Proxy.

Local Open Scope string_scope.

(** ** agent/reverseproxy *)

(** The transport [NewReverseProxy] builds. *)
Record Transport := mkTransport {
  tr_DialTimeout : Z;
  tr_KeepAlive : Z;
  tr_IdleConnTimeout : Z;
  tr_MaxIdleConns : Z;
  tr_DisableCompression : bool;
  tr_TLSClientConfig : tls_Config;
}.

Record ReverseProxy := mkReverseProxy {
  rp_target : URL;
  rp_transport : Transport;
  rp_timeout : Z;
}.

(** What a request to an agent ends with: the response of the target, the panic
    of the reverse proxy for one that breaks off, or an error. *)
Inductive agent_result :=
  | AgentRelayed (status : nat)
  | AgentAborted (status : nat) (declared : bool)
  | AgentError (statusCode : nat) (message : string).

Section agent.
Context `{TLSEnv} `{URLEnv} `{MapIter}.

Definition NewReverseProxy (conf : ListenerConfig) : option ReverseProxy :=
  match listener_URL (ln_Addr conf) with
  | None => None
  | Some u =>
      match agent_TLS_Load (ln_TLS conf) with
      | inl _ => None
      | inr tlsClientConfig =>
          let client := ln_HTTPClient conf in
          Some (mkReverseProxy u
            (mkTransport (ln_Timeout conf) (KeepAliveTimeout client) (IdleConnTimeout client)
               (MaxIdleConns client) (DisableCompression client) tlsClientConfig)
            (ln_Timeout conf))
      end
  end.

(** [ServeHTTP]: the timeout the request is given, if any; the request then
    goes to the target, and [errorHandler] answers when that fails. *)
Definition agent_deadline (p : ReverseProxy) (h : header) : option Z :=
  if decide (rp_timeout p ≠ 0%Z ∧ header_Get h "upgrade" ≠ "websocket") then Some (rp_timeout p) else None.

Definition agent_ServeHTTP (RoundTrip : URL → option Z → round_trip) (p : ReverseProxy) (h : header) : agent_result :=
  match RoundTrip (rp_target p) (agent_deadline p h) with
  | Response status => AgentRelayed status
  | BrokenOff status declared => AgentAborted status declared
  | RoundTripDeadline => AgentError StatusGatewayTimeout "upstream timeout"
  | RoundTripFailed => AgentError StatusBadGateway "upstream unreachable"
  end.

(** [reverseproxy.NewServer]: the proxy, then the access log. *)
Definition http_NewServer (conf : ListenerConfig) :
    option (ReverseProxy * (served → option (Z * loggedRequest))) :=
  match NewReverseProxy conf with
  | None => None
  | Some p =>
      match access_NewLogger (ln_AccessLog conf) with
      | None => None
      | Some m => Some (p, m)
      end
  end.

(** ** agent/tcpproxy *)

(** [serveConn]: the address dialed for a connection. *)
Definition tcp_serveConn (conf : ListenerConfig) : option string := Host (ln_Addr conf).

(** ** cli/agent/command.go *)


Definition set_Listeners (l : list ListenerConfig) (c : agent_Config) : agent_Config :=
  mkAgentConfig (ag_Name c) l (ag_Connect c) (ag_Stream c) (ag_Server c) (ag_Log c) (ag_GracePeriod c).

(** The variables the flags of the agent point to. *)
Record agent_vars := mkAgentVars {
  av_conf : agent_Config;
  av_loadConf : load_config;
}.

Definition agent_flags (s : agent_vars) : list (flag agent_vars) :=
  agent_RegisterFlags s (field whole av_conf) ++ load_RegisterFlags (field whole av_loadConf).


(** The logger every [PreRun] builds. *)
Definition setup_logger {A} (c : log_config) (a : A) : error + A :=
  match level_error (lg_Level c) with
  | Some err => inl ("failed to setup logger: " +:+ err)
  | None => inr a
  end.

(** [start]: the listeners of the configuration file. *)
Definition start_PreRun (conf : agent_Config) : error + agent_Config :=
  match setup_logger (ag_Log conf) conf with
  | inl err => inl err
  | inr conf => if decide (length (ag_Listeners conf) = 0) then inl "no listeners configured" else inr conf
  end.

(** [http] and [tcp]: one listener from the command line, with the flags of the
    command. *)
Definition http_PreRun (endpointID addr : string) (access : AccessLogConfig) (timeout : Z)
    (client : ListenerHTTPClientConfig) (conf : agent_Config) : error + agent_Config :=
  setup_logger (ag_Log conf)
    (set_Listeners [mkListener endpointID addr ListenerProtocolHTTP access timeout client zero_agent_tls] conf).

Definition tcp_PreRun (endpointID addr : string) (access : AccessLogConfig) (timeout : Z)
    (conf : agent_Config) : error + agent_Config :=
  setup_logger (ag_Log conf)
    (set_Listeners [mkListener endpointID addr ListenerProtocolTCP access timeout zero_http_client zero_agent_tls] conf).

Inductive agent_server :=
  | AgentHTTP (endpointID : string) (p : ReverseProxy) (m : served → option (Z * loggedRequest))
  | AgentTCP (conf : ListenerConfig).

(** The loop of [runAgent] over the listeners; [Listen] connects to Piko. *)
Fixpoint listen_loop (Listen : string → option error) (l : list ListenerConfig) : option (error + list agent_server) :=
  match l with
  | [] => Some (inr [])
  | c :: l' =>
      match Listen (ln_EndpointID c) with
      | Some err => Some (inl ("listen: " +:+ ln_EndpointID c +:+ ": " +:+ err))
      | None =>
          let server :=
            if decide (ln_Protocol c = ListenerProtocolHTTP) then
              '(p, m) ← http_NewServer c; Some (AgentHTTP (ln_EndpointID c) p m)
            else if decide (ln_Protocol c = ListenerProtocolTCP) then Some (AgentTCP c)
            else None in
          match server with
          | None => None
          | Some server =>
              match listen_loop Listen l' with
              | None => None
              | Some (inl err) => Some (inl err)
              | Some (inr servers) => Some (inr (server :: servers))
              end
          end
      end
  end.

(** [runAgent] up to running the servers. *)
Definition runAgent (Listen : string → option error) (conf : agent_Config) : option (error + list agent_server) :=
  match agent_TLS_Load (cn_TLS (ag_Connect conf)) with
  | inl err => Some (inl ("connect tls: " +:+ err))
  | inr _ =>
      match url_Parse (cn_URL (ag_Connect conf)) with
      | None => Some (inl "connect url")
      | Some _ =>
          if decide (cn_ProxyURL (ag_Connect conf) ≠ "" ∧ url_Parse (cn_ProxyURL (ag_Connect conf)) = None)
          then Some (inl "connect proxy url")
          else listen_loop Listen (ag_Listeners conf)
      end
  end.

(** ** cli/forward *)

Record forward_vars := mkForwardVars {
  fv_conf : forward_Config;
  fv_loadConf : load_config;
}.

Definition forward_flags (s : forward_vars) : list (flag forward_vars) :=
  forward_RegisterFlags s (field whole fv_conf) ++ load_RegisterFlags (field whole fv_loadConf).

Definition forward_PersistentPreRun (Getenv : string → string) (ReadFile : string → error + string)
    (Decode : string → forward_Config → error + forward_Config) (s : forward_vars) : error + forward_Config :=
  match Load Getenv ReadFile Decode (fv_conf s) (lo_Path (fv_loadConf s)) (lo_ExpandEnv (fv_loadConf s)) with
  | inl err => inl err
  | inr conf =>
      match forward_Validate conf with
      | Some err => inl ("config: " +:+ err)
      | None => inr conf
      end
  end.

Definition forward_tcp_PreRun (addr endpointID : string) (conf : forward_Config) : error + forward_Config :=
  setup_logger (fw_Log conf) (mkForwardConfig [mkPort addr endpointID] (fw_Connect conf) (fw_Log conf)).

(** The address [runForward] listens on for a port: the second result of [Host]
    is dropped. *)
Definition forward_listen_addr (c : PortConfig) : string := default "" (Port_Host c).

(** The forwarders: the address each listens on and its endpoint. *)
Fixpoint forward_loop (Listen : string → option error) (l : list PortConfig) : error + list (string * string) :=
  match l with
  | [] => inr []
  | c :: l' =>
      match Listen (forward_listen_addr c) with
      | Some err => inl ("listen: " +:+ forward_listen_addr c +:+ ": " +:+ err)
      | None =>
          match forward_loop Listen l' with
          | inl err => inl err
          | inr fs => inr ((forward_listen_addr c, pt_EndpointID c) :: fs)
          end
      end
  end.

(** [runForward] up to running the forwarders. *)
Definition runForward (Listen : string → option error) (conf : forward_Config) : error + list (string * string) :=
  match forward_TLS_Load (fc_TLS (fw_Connect conf)) with
  | inl err => inl ("connect tls: " +:+ err)
  | inr _ =>
      match url_Parse (fc_URL (fw_Connect conf)) with
      | None => inl "connect url"
      | Some _ => forward_loop Listen (fw_Ports conf)
      end
  end.

End agent.

(** ** Lemmas *)

Lemma below_agent_flags s : below whole (agent_flags s).
Proof. unfold agent_flags. pose proof (@lawful_whole agent_vars) as Hc. solve_below. Qed.

Lemma below_forward_flags s : below whole (forward_flags s).
Proof. unfold forward_flags. pose proof (@lawful_whole forward_vars) as Hc. solve_below. Qed.

(** A port is not split and is not an address of its own. *)
Lemma port_only_chars addr c :
  port_only addr = true → c = ":"%char ∨ c = "["%char ∨ c = "]"%char → Contains addr c = false.
Proof.
  unfold port_only. destruct (Atoi addr) as [z|] eqn:Ha; [|done]. intros _ Hc.
  eapply Atoi_only; [..|exact Ha]; try by destruct Hc as [-> |[-> | ->]].
  by destruct Hc as [-> |[-> | ->]]; apply (bool_decide_eq_false_1 _).
Qed.

Lemma Host_port addr : port_only addr = true → SplitHostPort ("localhost:" +:+ addr) = Some ("localhost", addr).
Proof.
  intros Hp. apply (SplitHostPort_join "localhost" addr). intros c Hc.
  split; [|by apply port_only_chars]. by destruct Hc as [-> |[-> | ->]].
Qed.

Lemma port_only_Itoa p : is_i64 p → port_only (Itoa p) = bool_decide (0 ≤ p < 65535)%Z.
Proof. intros Hp. unfold port_only. by rewrite Atoi_Itoa. Qed.

Section agent_lemmas.
Context `{TLSEnv} `{URLEnv} `{MapIter}.




(** The forwarder of an invalid address listens on the empty one, which is any
    port of every interface. *)
Lemma forward_invalid_listens_everywhere addr endpointID conf :
  Host addr = None → level_error (lg_Level (fw_Log conf)) = None → forward_Connect_Validate (fw_Connect conf) = None →
  ∃ conf', forward_tcp_PreRun addr endpointID conf = inr conf' ∧ runForward (λ _, None) conf' = inr [("", endpointID)].
Proof.
  intros Haddr Hlevel Hconn. unfold forward_tcp_PreRun, setup_logger. rewrite Hlevel. eexists. split; [done|].
  unfold forward_Connect_Validate in Hconn. validated Hconn. destruct Hconn as (_&Hurl&_&Htls&_).
  unfold runForward. cbn [fw_Connect fw_Ports]. unfold forward_TLS_Validate, load_error_of in Htls. case_decide; [done|].
  destruct (forward_TLS_Load _) as [|t]; [done|]. unfold url_error in Hurl.
  destruct (url_Parse (fc_URL _)) as [u|]; [|done]. simpl. unfold forward_listen_addr, Port_Host. simpl. by rewrite Haddr.
Qed.



(** With a validated connection only the listeners are left. *)
Lemma runAgent_connect Listen conf :
  Connect_Validate (ag_Connect conf) = None → runAgent Listen conf = listen_loop Listen (ag_Listeners conf).
Proof.
  unfold Connect_Validate. intros Hconn. validated Hconn. destruct Hconn as (_&Hurl&Hproxy&_&Htls&_).
  unfold runAgent. unfold agent_TLS_Validate, load_error_of in Htls. case_decide; [done|].
  destruct (agent_TLS_Load _) as [|t]; [done|]. unfold url_error in Hurl, Hproxy.
  destruct (url_Parse (cn_URL _)) as [u|]; [|done]. rewrite decide_False; [done|].
  intros [Hne Hnone]. rewrite Hnone in Hproxy. by rewrite decide_True in Hproxy.
Qed.

End agent_lemmas.

(** ** Properties *)

(** The flags of every command are well formed: no name is defined twice
    (pflag would panic), defining them leaves the defaults, and each flag
    stores into a field of its own, which no other flag of the command
    touches. *)
Theorem command_flags_ok hostname :
  let none := mkLoadConfig "" false in
  let server := mkServerVars ServerConfig.Default none in
  let agent := mkAgentVars (agent_Default hostname) none in
  let forward := mkForwardVars forward_Default none in
  flags_ok server (server_flags server) ∧ flags_ok agent (agent_flags agent) ∧
  flags_ok forward (forward_flags forward).
Proof.
  split_and!; eapply below_flags_ok.
  1: apply below_server_flags. 3: apply below_agent_flags. 5: apply below_forward_flags.
  all: first [reflexivity|apply (bool_decide_eq_true_1 _); vm_compute; reflexivity].
Qed.

(** A listener address is either a port of this host or an address with a
    port: the address used splits into a host and a port, and is the configured
    one unless that is a port.  The last port, 65535, is refused. *)
Theorem listener_addr_exact :
  (∀ p, (0 ≤ p < 65535)%Z → Host (Itoa p) = Some ("localhost:" +:+ Itoa p)) ∧
  Host (Itoa 65535) = None ∧
  (∀ addr h, Host addr = Some h → ∃ host port, SplitHostPort h = Some (host, port) ∧
     (h = addr ∨ host = "localhost" ∧ port = addr ∧ ∃ p, Atoi addr = Some p ∧ (0 ≤ p < 65535)%Z)).
Proof.
  split_and!.
  - intros p Hp. unfold Host. rewrite port_only_Itoa, bool_decide_true by (unfold is_i64; lia). done.
  - by vm_compute.
  - intros addr h. unfold Host. destruct (port_only addr) eqn:Hp.
    + intros [= <-]. exists "localhost", addr. split; [by apply Host_port|]. right. split_and!; [done|done|].
      unfold port_only in Hp. destruct (Atoi addr) as [p|]; [|done]. exists p. split; [done|]. by apply bool_decide_eq_true in Hp.
    + destruct (SplitHostPort addr) as [[host port]|] eqn:Hs; [|done]. intros [= <-]. exists host, port. by split; [|left].
Qed.


(** The arguments of [piko agent http] and [piko agent tcp] are not
    validated: with an address that is none, the commands are prepared, and
    then the HTTP agent panics on start, and the TCP agent on its first
    connection. *)
Theorem agent_arguments_unchecked `{TLSEnv, URLEnv, MapIter} endpointID addr access timeout client conf :
  listener_URL addr = None → level_error (lg_Level (ag_Log conf)) = None → Connect_Validate (ag_Connect conf) = None →
  (∃ conf', http_PreRun endpointID addr access timeout client conf = inr conf' ∧
     runAgent (λ _, None) conf' = None) ∧
  (∃ conf' c, tcp_PreRun endpointID addr access timeout conf = inr conf' ∧
     runAgent (λ _, None) conf' = Some (inr [AgentTCP c]) ∧ tcp_serveConn c = None).
Proof.
  intros Haddr Hlevel Hconn. unfold http_PreRun, tcp_PreRun, setup_logger. rewrite Hlevel.
  split; [eexists; split; [done|]; rewrite runAgent_connect by done|
          eexists _, _; split_and!; [done|rewrite runAgent_connect by done; reflexivity|]].
  - simpl. unfold http_NewServer, NewReverseProxy. simpl. by rewrite Haddr.
  - unfold tcp_serveConn, Host. simpl. unfold listener_URL in Haddr. destruct (port_only addr); [done|].
    destruct (SplitHostPort addr) as [[? ?]|]; [|done]. destruct (url_Parse addr); [|done]. by case_decide.
Qed.

(** ** Witnesses *)

(** A host whose files cannot be read, and a parser of URLs with a scheme. *)
#[local] Instance ex_tls_env : TLSEnv := {|
  LoadX509KeyPair cert key := inl "no such file";
  os_ReadFile path := inl "no such file";
  AppendCertsFromPEM pem := false;
|}.

#[local] Instance ex_url_env : URLEnv := {|
  url_Parse s :=
    Some match s with
         | String "h" (String "t" (String "t" (String "p" (String ":" (String "/" (String "/" host)))))) =>
             mkURL "http" host "" []
         | _ => mkURL "" "" s []
         end;
|}.

#[local] Existing Instance canonical_iter.




(** The port that is refused. *)
Lemma agent_arguments_unchecked_witness :
  ∃ conf', http_PreRun "my-endpoint" "65535" (mkAccessLogConfig "info" (mkHeaderConfig [] []) (mkHeaderConfig [] []) false)
      (10 * Second) zero_http_client (agent_Default "laptop") = inr conf' ∧ runAgent (λ _, None) conf' = None.
Proof. by apply (agent_arguments_unchecked "my-endpoint" "65535"); vm_compute. Defined.

Lemma listener_addr_exact_witness :
  Host "3000" = Some "localhost:3000" ∧ ∃ host port, SplitHostPort "10.0.0.1:3000" = Some (host, port).
Proof.
  destruct listener_addr_exact as (Hp&_&Hs). split; [exact (Hp 3000%Z ltac:(lia))|].
  destruct (Hs "10.0.0.1:3000" "10.0.0.1:3000" ltac:(by vm_compute)) as (host&port&Hsp&_). by exists host, port.
Defined.
