(* ===== verification/Bench.v ===== *)
(** * bench and cli/bench: the benchmark

    The configuration of [piko bench], the upstreams it registers, and the
    requests its clients send and how they check the responses.  Registering an
    upstream is [Client] and answering a request is [Proxy]; here they are what
    the loops meet, with the random numbers and bytes as arguments. *)

From coqutil Require Import Datatypes.RecordSetters.
From S2P Require Import Prelude GoLib NetLib HttpLib Transport ConfigLib Logging ServerConfig AgentConfig Commands.

Local Open Scope string_scope.

(** ** bench/config/config.go *)

Record bench_ConnectConfig := mkBenchConnect {
  bc_ProxyURL : string;
  bc_UpstreamURL : string;
  bc_Timeout : Z;
}.

Record bench_Config := mkBenchConfig {
  bn_Requests : Z;
  bn_Clients : Z;
  bn_Endpoints : Z;
  bn_Upstreams : Z;
  bn_Size : Z;
  bn_Connect : bench_ConnectConfig;
  bn_Log : log_config;
}.

Definition bench_Connect_Validate `{URLEnv} (c : bench_ConnectConfig) : option error :=
  first_error
    [check (bc_ProxyURL c = "") "missing proxy url";
     url_error (bc_ProxyURL c) "invalid proxy url";
     check (bc_UpstreamURL c = "") "missing upstream url";
     url_error (bc_UpstreamURL c) "invalid upstream url";
     check (bc_Timeout c = 0%Z) "missing timeout"].

Definition bench_Validate `{URLEnv} (c : bench_Config) : option error :=
  first_error
    [check (bn_Requests c = 0%Z) "missing requests";
     check (bn_Clients c = 0%Z) "missing clients";
     check (bn_Endpoints c = 0%Z) "missing endpoints";
     check (bn_Upstreams c = 0%Z) "missing upstreams";
     check (bn_Size c = 0%Z) "missing size";
     Errorf "server" (bench_Connect_Validate (bn_Connect c));
     Errorf "log" (log_Validate (bn_Log c))].

Definition bench_Default : bench_Config :=
  mkBenchConfig 100000 100 100 100 1024
    (mkBenchConnect "http://localhost:8000" "http://localhost:8001" (Second * 5)) (mkLogConfig "info" []).

Section bench_flags.
Context {S : Type} (s : S).

Definition bench_Connect_RegisterFlags (c : ptr S bench_ConnectConfig) : list (flag S) :=
  [FieldVar s c bc_ProxyURL "connect.proxy-url";
   FieldVar s c bc_UpstreamURL "connect.upstream-url";
   FieldVar s c bc_Timeout "connect.timeout"].

Definition bench_RegisterFlags (c : ptr S bench_Config) : list (flag S) :=
  [FieldVar s c bn_Requests "requests";
   FieldVar s c bn_Clients "clients";
   FieldVar s c bn_Endpoints "endpoints";
   FieldVar s c bn_Upstreams "upstreams";
   FieldVar s c bn_Size "size"] ++
  bench_Connect_RegisterFlags (field c bn_Connect) ++
  log_RegisterFlags s (field c bn_Log).

End bench_flags.

(** ** bench/http.go *)

(** [fmt.Sprintf("endpoint-%d", i)] *)
Definition endpoint_name (i : Z) : string := "endpoint-" +:+ Itoa i.

(** What comes of a call that may panic. *)
Inductive outcome (A : Type) := Panics | Fails (err : error) | Returns (a : A).
Arguments Panics {A}.
Arguments Fails {A} _.
Arguments Returns {A} _.

(** A request of a client. *)
Record bench_request := mkBenchRequest {
  br_URL : string;
  br_Header : header;
  br_Body : list Byte.byte;
}.

(** How a request ended: [Do] failed, the status was not 200, the body could
    not be read or was not the one that was sent, or all was well. *)
Inductive bench_result := RequestFailed | BadStatus (status : Z) | ReadFailed | UnexpectedBody | Echoed.

Section bench.
Context (c : bench_Config).

(** The first loop of [Run], from its [i]-th iteration: the endpoints of the
    upstreams it registers.  [Listen i] is the error of registering the [i]-th;
    the loop ends when [i] is exactly the number of upstreams, so that without
    enough fuel there is no outcome. *)
Fixpoint upstreams_loop (Listen : nat → option error) (fuel i : nat) (nextEndpointID : Z) : option (outcome (list string)) :=
  match fuel with
  | O => None
  | S fuel' =>
      if decide (Z.of_nat i = bn_Upstreams c) then Some (Returns [])
      else
        let endpointID := endpoint_name nextEndpointID in
        match Listen i with
        | Some err => Some (Fails ("http upstream: listen: " +:+ err))
        | None =>
            if decide (bn_Endpoints c = 0%Z) then Some Panics
            else
              match upstreams_loop Listen fuel' (S i) (Z.rem (i64 (nextEndpointID + 1)) (bn_Endpoints c)) with
              | Some (Returns ids) => Some (Returns (endpointID :: ids))
              | r => r
              end
        end
  end.

(** [requestsPerClient] *)
Definition requestsPerClient : outcome (list Z) :=
  if decide (bn_Clients c < 0)%Z then Panics
  else if decide (bn_Clients c = 0)%Z then Panics
  else
    let n := Z.to_nat (bn_Clients c) in
    let perClient := Z.quot (bn_Requests c) (bn_Clients c) in
    let counts := foldl (λ counts i, <[i:=perClient]> counts) (replicate n 0%Z) (seq 0 n) in
    let extra := Z.rem (bn_Requests c) (bn_Clients c) in
    Returns (foldl (λ counts i, alter (λ n, i64 (n + 1)) i counts) counts (seq 0 (Z.to_nat extra))).

(** [Run]: the endpoints of the upstreams, and the requests of each client. *)
Definition bench_Run (Listen : nat → option error) (fuel : nat) : option (outcome (list string * list Z)) :=
  match upstreams_loop Listen fuel 0 0 with
  | None => None
  | Some Panics => Some Panics
  | Some (Fails err) => Some (Fails err)
  | Some (Returns ids) =>
      match requestsPerClient with
      | Panics => Some Panics
      | Fails err => Some (Fails err)
      | Returns counts => Some (Returns (ids, counts))
      end
  end.

(** The handler of an upstream: it answers with the body of the request, and
    panics when it cannot read it; see [newHTTPUpstream]. *)
Definition echo (body : option (list Byte.byte)) : option (list Byte.byte) := body.

(** [request] up to sending it, for a random number and the bytes that
    [randomBytes] reads. *)
Definition bench_newRequest (r : Z) (random : nat → list Byte.byte) : option bench_request :=
  if decide (bn_Endpoints c = 0 ∨ bn_Size c < 0)%Z then None
  else Some (mkBenchRequest (bc_ProxyURL (bn_Connect c))
    (header_Set [] "x-piko-endpoint" (endpoint_name (Z.rem r (bn_Endpoints c))))
    (random (Z.to_nat (bn_Size c)))).

(** The rest of [request]: the check of the response, none when [Do] failed. *)
Definition check_response (reqBody : list Byte.byte) (resp : option (Z * option (list Byte.byte))) : bench_result :=
  match resp with
  | None => RequestFailed
  | Some (status, body) =>
      if decide (status ≠ 200%Z) then BadStatus status
      else
        match body with
        | None => ReadFailed
        | Some respBody =>
            if decide (length reqBody ≠ length respBody) then UnexpectedBody
            else if forallb (λ p, Byte.eqb p.1 p.2) (zip reqBody respBody) then Echoed
            else UnexpectedBody
        end
  end.

(** [httpClient.Run] sends requests until it has sent exactly that many. *)
Fixpoint client_Run (rands : nat → Z) (randoms : nat → nat → list Byte.byte) (fuel i : nat) (requests : Z) :
    option (list (option bench_request)) :=
  match fuel with
  | O => None
  | S fuel' =>
      if decide (Z.of_nat i = requests) then Some []
      else cons (bench_newRequest (rands i) (randoms i)) <$> client_Run rands randoms fuel' (S i) requests
  end.

End bench.

(** ** cli/bench/command.go *)

Record bench_vars := mkBenchVars {
  bv_conf : bench_Config;
  bv_loadConf : load_config;
}.

Definition bench_flags (s : bench_vars) : list (flag bench_vars) :=
  bench_RegisterFlags s (field whole bv_conf) ++ load_RegisterFlags (field whole bv_loadConf).

Definition bench_PersistentPreRun `{URLEnv} (Getenv : string → string) (ReadFile : string → error + string)
    (Decode : string → bench_Config → error + bench_Config) (s : bench_vars) : error + bench_Config :=
  match Load Getenv ReadFile Decode (bv_conf s) (lo_Path (bv_loadConf s)) (lo_ExpandEnv (bv_loadConf s)) with
  | inl err => inl err
  | inr conf =>
      match bench_Validate conf with
      | Some err => inl ("config: " +:+ err)
      | None => inr conf
      end
  end.

(** [newHTTPCommand]: its [PreRun]. *)
Definition bench_http_PreRun (conf : bench_Config) : error + bench_Config := setup_logger (bn_Log conf) conf.

(** ** Lemmas *)

Section bench_flag_lemmas.
Context {S : Type} (s : S).

Lemma below_bench_Connect (c : ptr S bench_ConnectConfig) : lawful c → below c (bench_Connect_RegisterFlags s c).
Proof. solve_register (@bench_Connect_RegisterFlags). Qed.
Hint Resolve below_bench_Connect : flags.

Lemma below_bench (c : ptr S bench_Config) : lawful c → below c (bench_RegisterFlags s c).
Proof. solve_register (@bench_RegisterFlags). Qed.

End bench_flag_lemmas.
#[export] Hint Resolve below_bench : flags.

(** The flags of [piko bench] store into fields of their own. *)
Lemma bench_flags_ok :
  let vars := mkBenchVars bench_Default (mkLoadConfig "" false) in flags_ok vars (bench_flags vars).
Proof.
  eapply below_flags_ok; [|first [reflexivity|apply (bool_decide_eq_true_1 _); vm_compute; reflexivity]..].
  unfold bench_flags. pose proof (@lawful_whole bench_vars) as Hc. solve_below.
Qed.

#[local] Close Scope string_scope.

(** A loop that changes the elements of a slice in their order. *)
Lemma foldl_seq_lookup {A} (g : list A → nat → list A) (f : A → A) :
  (∀ l i k, g l i !! k = if decide (i = k) then f <$> l !! k else l !! k) →
  ∀ n j l k, foldl g l (seq j n) !! k = if decide (j ≤ k < j + n) then f <$> l !! k else l !! k.
Proof.
  intros Hg n. induction n as [|n IH]; intros j l k; simpl; [by rewrite decide_False by lia|].
  rewrite IH, Hg. repeat case_decide; try done; lia.
Qed.

(** The requests are spread evenly: the first [Requests % Clients] clients send
    one more than the others. *)
Lemma requestsPerClient_spec c :
  (0 ≤ bn_Requests c < 2 ^ 63)%Z → (0 < bn_Clients c)%Z →
  let q := (bn_Requests c / bn_Clients c)%Z in
  let extra := Z.to_nat (bn_Requests c mod bn_Clients c) in
  requestsPerClient c = Returns (replicate extra (q + 1)%Z ++ replicate (Z.to_nat (bn_Clients c) - extra) q)%list.
Proof.
  intros Hr Hc q extra. unfold requestsPerClient. rewrite decide_False, decide_False by lia.
  rewrite Z.quot_div_nonneg, Z.rem_mod_nonneg by lia. fold q extra. f_equal. apply list_eq. intros k.
  pose proof (Z.mod_pos_bound (bn_Requests c) (bn_Clients c) Hc) as Hm.
  pose proof (Z.div_mod (bn_Requests c) (bn_Clients c)) as Hdm. fold q in Hdm.
  assert (0 ≤ q)%Z by (apply Z.div_pos; lia).
  rewrite (foldl_seq_lookup _ (λ n, i64 (n + 1))).
  2: { intros l i k'. case_decide as Hi; [subst; apply list_lookup_alter_eq|by apply list_lookup_alter_ne]. }
  rewrite (foldl_seq_lookup _ (λ _, q)).
  2: { intros l i k'. case_decide as Hi; [|by apply list_lookup_insert_ne]. subst.
       destruct (l !! k') as [x|] eqn:Hl; simpl.
       - apply list_lookup_insert_eq. by eapply lookup_lt_Some.
       - apply lookup_ge_None_2. rewrite length_insert. by apply lookup_ge_None_1. }
  assert (extra ≤ Z.to_nat (bn_Clients c)) as He by (unfold extra; lia).
  destruct (decide (k < extra)) as [Hk|Hk].
  - rewrite lookup_app_l by (rewrite length_replicate; lia). rewrite !lookup_replicate_2 by lia.
    rewrite !decide_True by lia. simpl. f_equal. apply i64_small. unfold is_i64, extra in *. nia.
  - rewrite lookup_app_r by (rewrite length_replicate; lia). rewrite length_replicate.
    rewrite (decide_False (P := 0 ≤ k < 0 + extra)) by lia. case_decide.
    + by rewrite !lookup_replicate_2 by lia.
    + rewrite !lookup_ge_None_2 by (rewrite length_replicate; lia). done.
Qed.

Lemma sum_replicate n q : foldr Z.add 0%Z (replicate n q) = (Z.of_nat n * q)%Z.
Proof. induction n as [|n IH]; cbn [replicate foldr]; [lia|]. rewrite IH. lia. Qed.

(** The upstreams are registered under the endpoints in turn. *)
Lemma upstreams_loop_spec c n i next fuel :
  (0 < bn_Endpoints c < 2 ^ 63)%Z → (0 ≤ next < bn_Endpoints c)%Z →
  (Z.of_nat (i + n) = bn_Upstreams c)%Z → n < fuel →
  upstreams_loop c (λ _, None) fuel i next =
    Some (Returns ((λ j, endpoint_name ((next + Z.of_nat j) mod bn_Endpoints c)) <$> seq 0 n)).
Proof.
  intros He. revert i next fuel. induction n as [|n IH]; intros i next [|fuel] Hn Hu Hf; try lia.
  - simpl. by rewrite decide_True by lia.
  - cbn [upstreams_loop]. rewrite decide_False by lia. rewrite decide_False by lia.
    assert (Z.rem (i64 (next + 1)) (bn_Endpoints c) = (next + 1) mod bn_Endpoints c)%Z as ->.
    { rewrite i64_small by (unfold is_i64; lia). apply Z.rem_mod_nonneg; lia. }
    rewrite IH; [|apply Z.mod_pos_bound; lia|lia|lia]. do 2 f_equal. cbn [seq fmap list_fmap]. f_equal.
    + f_equal. symmetry. rewrite Z.add_0_r. by apply Z.mod_small.
    + rewrite <-seq_shift, <-list_fmap_compose. apply list_fmap_ext. intros _ j _. simpl. f_equal.
      rewrite Zplus_mod_idemp_l. f_equal. lia.
Qed.

(** ** Properties *)

(** A benchmark sends what it was asked to: with positive numbers and
    upstreams that register it registers the given number of them under the
    endpoints in turn, and spreads exactly the given number of requests over the
    given number of clients, no client more than one ahead of another.  When
    there are at least as many upstreams as endpoints, every request names an
    endpoint that an upstream was registered for; when there are fewer, some do
    not. *)
Theorem benchmark_sends_requests c fuel :
  (0 < bn_Requests c < 2 ^ 63)%Z → (0 < bn_Clients c)%Z → (0 < bn_Endpoints c < 2 ^ 63)%Z → (0 < bn_Upstreams c)%Z →
  (0 ≤ bn_Size c)%Z → Z.to_nat (bn_Upstreams c) < fuel →
  ∃ ids counts, bench_Run c (λ _, None) fuel = Some (Returns (ids, counts)) ∧
    Z.of_nat (length ids) = bn_Upstreams c ∧ Z.of_nat (length counts) = bn_Clients c ∧
    foldr Z.add 0%Z counts = bn_Requests c ∧
    (∀ m n, m ∈ counts → n ∈ counts → (m ≤ n + 1)%Z) ∧
    ((∀ r random, (0 ≤ r)%Z → ∃ req e, bench_newRequest c r random = Some req ∧
        header_Get (br_Header req) "x-piko-endpoint"%string = e ∧ e ∈ ids) ↔
      (bn_Endpoints c ≤ bn_Upstreams c)%Z).
Proof.
  intros Hr Hc He Hu Hs Hf. unfold bench_Run.
  rewrite (upstreams_loop_spec c (Z.to_nat (bn_Upstreams c))) by lia.
  rewrite requestsPerClient_spec by lia. eexists _, _. split; [done|].
  pose proof (Z.mod_pos_bound (bn_Requests c) (bn_Clients c) Hc) as Hm.
  pose proof (Z.div_mod (bn_Requests c) (bn_Clients c)) as Hdm.
  split_and!.
  - rewrite length_fmap, length_seq. lia.
  - rewrite length_app, !length_replicate. lia.
  - rewrite foldr_app, sum_replicate. assert (∀ l z, foldr Z.add z l = foldr Z.add 0 l + z)%Z as Hfold.
    { intros l z. induction l as [|x l IH]; simpl; [done|]. rewrite IH. lia. }
    rewrite Hfold, sum_replicate. nia.
  - intros m n Hm' Hn'. rewrite elem_of_app, !elem_of_replicate in Hm', Hn'. lia.
  - assert (∀ r random, ∃ req, bench_newRequest c r random = Some req ∧
      header_Get (br_Header req) "x-piko-endpoint"%string = endpoint_name (Z.rem r (bn_Endpoints c))) as Hreq.
    { intros r random. unfold bench_newRequest. rewrite decide_False by lia. by eexists. }
    split.
    + intros Hall. destruct (decide (bn_Endpoints c ≤ bn_Upstreams c)%Z) as [|Hlt]; [done|]. exfalso.
      destruct (Hall (bn_Upstreams c) (λ _, [])) as (req&e&Hq&He'&Hin); [lia|].
      destruct (Hreq (bn_Upstreams c) (λ _, [])) as (req'&Hq'&He''). simplify_eq.
      rewrite He'' in Hin. apply list_elem_of_fmap in Hin as (j&Hj&Hjs). rewrite elem_of_seq in Hjs.
      unfold endpoint_name in Hj. apply (inj (String.append "endpoint-"%string)) in Hj.
      rewrite Z.rem_mod_nonneg, !Z.mod_small in Hj by lia. apply Itoa_inj in Hj; [lia|unfold is_i64; lia..].
    + intros Hle r random Hr0. destruct (Hreq r random) as (req&Hq&He'). exists req, (endpoint_name (Z.rem r (bn_Endpoints c))). split_and!; [done..|].
      rewrite Z.rem_mod_nonneg by lia. pose proof (Z.mod_pos_bound r (bn_Endpoints c)).
      apply list_elem_of_fmap. exists (Z.to_nat (r mod bn_Endpoints c)). split.
      * f_equal. rewrite Z.add_0_l, Z2Nat.id, Zmod_mod by lia. done.
      * rewrite elem_of_seq. lia.
Qed.

(** ** Witnesses *)

Lemma benchmark_sends_requests_witness :
  ∃ ids counts, bench_Run bench_Default (λ _, None) 101 = Some (Returns (ids, counts)) ∧
    foldr Z.add 0%Z counts = 100000%Z ∧ length ids = 100.
Proof.
  destruct (benchmark_sends_requests bench_Default 101) as (ids&counts&Hrun&Hlen&_&Hsum&_).
  1-6: vm_compute; try split; first [done|lia].
  exists ids, counts. split_and!; [exact Hrun|exact Hsum|]. apply Nat2Z.inj. exact Hlen.
Defined.
