(* ===== verification/ServerNode.v ===== *)
(** * server/server.go and server/gossip/gossip.go: a server node

    Building a node from its configuration, starting it, joining the cluster
    with retries, and shutting it down.  Listening, the host's addresses, files
    and keys are the environment; the outer [None] is a panic. *)

From S2P Require Import Prelude GoLib FloatLib NetLib GossipNode Cluster Upstream Auth UpstreamServer Client ConfigLib Logging ServerConfig.

Local Open Scope string_scope.

(** [net.Listen("tcp", addr)]: the address of the listener; and
    [sockaddr.GetPrivateIP]. *)
Class NodeEnv := {
  Listen : string → error + string;
  GetPrivateIP : error + string;
}.

(** ** Building a node *)

(** The servers of a node.  A verifier is kept as its loaded configuration, as
    it reads the time when it verifies. *)
Record node := mkNode {
  nd_conf : Config;
  nd_clusterState : State;
  nd_upstreams : manager;
  nd_clientTLS : option tls_Config;
  nd_proxyAuth : option LoadedConfig;
  nd_proxyTLS : option tls_Config;
  nd_accessLog : served → option (Z * loggedRequest);
  nd_upstreamAuth : option (LoadedConfig * gmap string LoadedConfig);
  nd_upstreamTLS : option tls_Config;
  nd_adminAuth : option LoadedConfig;
  nd_adminTLS : option tls_Config;
}.

(** Go on with the result unless it is a panic or an error. *)
Definition and_then {A B} (x : option (error + A)) (f : A → option (error + B)) : option (error + B) :=
  match x with
  | None => None
  | Some (inl err) => Some (inl err)
  | Some (inr a) => f a
  end.

(** [if err != nil { return nil, fmt.Errorf(prefix, err) }] *)
Definition wrap {A} (prefix : string) (x : error + A) : option (error + A) :=
  match x with
  | inl err => Some (inl (prefix +:+ ": " +:+ err))
  | inr a => Some (inr a)
  end.

Definition load_error_message (e : load_error) : error :=
  match e with
  | ParseRSAError => "parse rsa public key"
  | ParseECDSAError => "parse ecdsa public key"
  | OtherKeysWithJWKS => "no other verification key can be set when JWKS.Endpoint is set"
  | _ => "load JWKS configuration"
  end.

Section node.
Context `{NodeEnv} `{TLSEnv} `{KeyLoader} `{MapIter}.

Definition advertiseAddrFromListenAddr (bindAddr : string) : error + string :=
  let bindAddr := if HasPrefix bindAddr ":" then "0.0.0.0" +:+ bindAddr else bindAddr in
  match SplitHostPort bindAddr with
  | None => inl ("invalid bind addr: " +:+ bindAddr)
  | Some (host, port) =>
      if decide (host = "0.0.0.0" ∨ host = "::") then
        match GetPrivateIP with
        | inl err => inl ("get interface addr: " +:+ err)
        | inr ip => if decide (ip = "") then inl "no private ip found" else inr (ip +:+ ":" +:+ port)
        end
      else inr bindAddr
  end.

(** Listening on an address, and the address to advertise: the configured one,
    or one inferred from the listener. *)
Definition listen_advertise (bindAddr advertiseAddr : string) : option (error + string) :=
  match Listen bindAddr with
  | inl err => Some (inl ("listen: " +:+ bindAddr +:+ ": " +:+ err))
  | inr addr =>
      if decide (advertiseAddr = "") then
        match advertiseAddrFromListenAddr addr with
        | inl _ => None
        | inr a => Some (inr a)
        end
      else Some (inr advertiseAddr)
  end.

Definition set_Proxy (f : ProxyConfig → ProxyConfig) (c : Config) : Config :=
  mkServerConfig (f (cf_Proxy c)) (cf_Upstream c) (cf_Stream c) (cf_Admin c) (cf_Cluster c) (cf_Log c) (cf_GracePeriod c).
Definition set_Upstream (f : UpstreamConfig → UpstreamConfig) (c : Config) : Config :=
  mkServerConfig (cf_Proxy c) (f (cf_Upstream c)) (cf_Stream c) (cf_Admin c) (cf_Cluster c) (cf_Log c) (cf_GracePeriod c).
Definition set_Admin (f : AdminConfig → AdminConfig) (c : Config) : Config :=
  mkServerConfig (cf_Proxy c) (cf_Upstream c) (cf_Stream c) (f (cf_Admin c)) (cf_Cluster c) (cf_Log c) (cf_GracePeriod c).

Definition set_Cluster (f : ClusterConfig → ClusterConfig) (c : Config) : Config :=
  mkServerConfig (cf_Proxy c) (cf_Upstream c) (cf_Stream c) (cf_Admin c) (f (cf_Cluster c)) (cf_Log c) (cf_GracePeriod c).
Definition set_Gossip (f : GossipNode.Config → GossipNode.Config) : Config → Config :=
  set_Cluster (λ cl, mkClusterConfig (cl_NodeID cl) (cl_NodeIDPrefix cl) (cl_Join cl) (cl_JoinTimeout cl)
    (cl_AbortIfJoinFails cl) (f (cl_Gossip cl))).

Definition proxyListen (c : Config) : option (error + Config) :=
  and_then (listen_advertise (px_BindAddr (cf_Proxy c)) (px_AdvertiseAddr (cf_Proxy c))) (λ a,
  Some (inr (set_Proxy (λ p, mkProxyConfig (px_BindAddr p) a (px_Timeout p) (px_AccessLog p) (px_Auth p) (px_HTTP p) (px_TLS p)) c))).

Definition upstreamListen (c : Config) : option (error + Config) :=
  and_then (listen_advertise (up_BindAddr (cf_Upstream c)) (up_AdvertiseAddr (cf_Upstream c))) (λ a,
  Some (inr (set_Upstream (λ u, mkUpstreamConfig (up_BindAddr u) a (up_Auth u) (up_Rebalance u) (up_TLS u) (up_Tenants u)) c))).

Definition adminListen (c : Config) : option (error + Config) :=
  and_then (listen_advertise (ad_BindAddr (cf_Admin c)) (ad_AdvertiseAddr (cf_Admin c))) (λ a,
  Some (inr (set_Admin (λ d, mkAdminConfig (ad_BindAddr d) a (ad_Auth d) (ad_Password d) (ad_TLS d)) c))).

(** [Auth.Load] and its error. *)
Definition auth_load (c : AuthConfig) : error + LoadedConfig :=
  match auth_Load c with inl e => inl (load_error_message e) | inr l => inr l end.

Definition auth_if_enabled (prefix : string) (c : AuthConfig) : option (error + option LoadedConfig) :=
  if Enabled c then and_then (wrap prefix (auth_load c)) (λ l, Some (inr (Some l))) else Some (inr None).

(** The loop over the tenants: a later tenant replaces one with the same ID. *)
Fixpoint load_tenants (l : list TenantConfig) (verifiers : gmap string LoadedConfig) :
    option (error + gmap string LoadedConfig) :=
  match l with
  | [] => Some (inr verifiers)
  | tenantConf :: l' =>
      and_then (wrap ("upstream: tenant " +:+ tn_ID tenantConf +:+ ": load auth") (auth_load (tn_Auth tenantConf)))
        (λ loaded, load_tenants l' (<[tn_ID tenantConf := loaded]> verifiers))
  end.

Definition upstream_auth (c : UpstreamConfig) : option (error + option (LoadedConfig * gmap string LoadedConfig)) :=
  if Enabled (up_Auth c) || bool_decide (0 < length (up_Tenants c))%nat then
    and_then (wrap "upstream: load auth" (auth_load (up_Auth c))) (λ d,
    and_then (load_tenants (up_Tenants c) ∅) (λ ts, Some (inr (Some (d, ts)))))
  else Some (inr None).

(** [NewServer] *)
Definition NewServer (conf : Config) : option (error + node) :=
  and_then (match proxyListen conf with Some (inl e) => Some (inl ("proxy listen: " +:+ e)) | x => x end) (λ conf,
  and_then (match upstreamListen conf with Some (inl e) => Some (inl ("upstream listen: " +:+ e)) | x => x end) (λ conf,
  and_then (match adminListen conf with Some (inl e) => Some (inl ("admin listen: " +:+ e)) | x => x end) (λ conf,
  and_then (wrap "proxy tls" (TLS_Load (px_TLS (cf_Proxy conf)))) (λ proxyTLS,
  let clusterState := (NewState (mkCNode (cl_NodeID (cf_Cluster conf)) ""
    (px_AdvertiseAddr (cf_Proxy conf)) (ad_AdvertiseAddr (cf_Admin conf)) ∅)).1 in
  and_then
    (match proxyTLS with
     | None => Some (inr None)
     | Some _ => and_then (wrap "proxy client tls" (ClientTLS_Load (tls_Client (px_TLS (cf_Proxy conf))))) (λ t, Some (inr (Some t)))
     end) (λ clientTLS,
  let upstreams := NewLoadBalancedManager clusterState in
  and_then (auth_if_enabled "proxy: load auth" (px_Auth (cf_Proxy conf))) (λ proxyAuth,
  match access_NewLogger (px_AccessLog (cf_Proxy conf)) with
  | None => None
  | Some accessLog =>
      and_then (upstream_auth (cf_Upstream conf)) (λ upstreamAuth,
      and_then (wrap "upstream: load tls" (TLS_Load (up_TLS (cf_Upstream conf)))) (λ upstreamTLS,
      and_then (auth_if_enabled "admin: load auth" (ad_Auth (cf_Admin conf))) (λ adminAuth,
      and_then (wrap "admin tls" (TLS_Load (ad_TLS (cf_Admin conf)))) (λ adminTLS,
      Some (inr (mkNode conf clusterState upstreams clientTLS proxyAuth proxyTLS accessLog
        upstreamAuth upstreamTLS adminAuth adminTLS))))))
  end)))))).

(** [startGossip] up to starting the gossip: it listens on the address, then for
    packets on the address of that listener, and infers the address to
    advertise.  [ListenUDP] is the error of the second. *)
Definition startGossip (ListenUDP : string → option error) (c : Config) : option (error + Config) :=
  let g := cl_Gossip (cf_Cluster c) in
  match Listen (BindAddr g) with
  | inl err => Some (inl ("listen: " +:+ BindAddr g +:+ ": " +:+ err))
  | inr addr =>
      match ListenUDP addr with
      | Some err => Some (inl ("listen: " +:+ BindAddr g +:+ ": " +:+ err))
      | None =>
          if decide (AdvertiseAddr g = "") then
            match advertiseAddrFromListenAddr addr with
            | inl _ => None
            | inr a => Some (inr (set_Gossip (λ g, mkConfig (BindAddr g) a (Interval g) (MaxPacketSize g)) c))
            end
          else Some (inr c)
      end
  end.

End node.

(** The verifiers of the servers at a time. *)
Section verifiers.
Context `{JWT} (now : time).

Definition single_verifier (l : option LoadedConfig) : option MultiTenantVerifier :=
  (λ l, NewMultiTenantVerifier (jwt_Verify now (NewJWTVerifier l)) None) <$> l.

Definition upstream_verifier (n : node) : option MultiTenantVerifier :=
  (λ p, NewMultiTenantVerifier (jwt_Verify now (NewJWTVerifier p.1))
     (Some ((λ l, jwt_Verify now (NewJWTVerifier l)) <$> p.2))) <$> nd_upstreamAuth n.

End verifiers.

(** ** server/gossip/gossip.go: joining on start-up *)

(** What an attempt to join meets: the result of [Join], the random number of
    the wait, and whether the context is done during it. *)
Record join_attempt := mkJoinAttempt {
  ja_result : error + list string;
  ja_rand : float64;
  ja_done : bool;
}.

Section join_on_startup.
Context (oob : float64 → Z).

(** [inl] is the error, nil when there was none before. *)
Fixpoint join_startup_loop (b : Backoff) (lastErr : option error) (l : list join_attempt) :
    list Z * option (option error + list string) :=
  match l with
  | [] => ([], None)
  | a :: l' =>
      match ja_result a with
      | inr nodeIDs => ([], Some (inr nodeIDs))
      | inl err =>
          let '(b', (backoff, retry)) := Backoff_Backoff oob (ja_rand a) b in
          if negb retry then ([], Some (inl lastErr))
          else if ja_done a then ([backoff], Some (inl (Some err)))
          else let '(waits, r) := join_startup_loop b' (Some err) l' in (backoff :: waits, r)
      end
  end.

Definition JoinOnStartup (l : list join_attempt) : list Z * option (option error + list string) :=
  join_startup_loop (New 5 Second Minute) None l.

End join_on_startup.

(** ** Starting and shutting down *)

Inductive action :=
  | ServeAdmin
  | ListenGossip
  | JoinOnBoot
  | ServeUpstream
  | RunRebalance
  | ServeProxy
  | SetReady (b : bool)
  | JoinRetry
  | StopJWKS
  | CancelRebalance
  | ShutdownUpstream
  | ShutdownProxy
  | LeaveCluster
  | CloseGossip
  | ShutdownAdmin
  | WaitGoroutines.

(** [Start]: what it does, and its error.  [gossip] is the error of listening
    for gossip, [boot] the nodes the first join reached and [startup] the result
    of the retries. *)
Definition Start (conf : Config) (gossip : option error) (boot : list string) (startup : option error) :
    list action * option error :=
  match gossip with
  | Some err => ([ServeAdmin; ListenGossip], Some ("gossip: " +:+ err))
  | None =>
      let actions := ([ServeAdmin; ListenGossip; JoinOnBoot; ServeUpstream] ++
        (if feq (Threshold (up_Rebalance (cf_Upstream conf))) (float64_of_int 0) then [] else [RunRebalance]) ++
        [ServeProxy; SetReady true])%list in
      if decide (length boot = 0)%nat then
        ((actions ++ [JoinRetry])%list,
         match startup with
         | Some err => if cl_AbortIfJoinFails (cf_Cluster conf) then Some ("cluster join: " +:+ err) else None
         | None => None
         end)
      else (actions, None)
  end.

(** [Shutdown]; a second call does the same again. *)
Definition Shutdown : list action :=
  [StopJWKS; SetReady false; CancelRebalance; ShutdownUpstream; ShutdownProxy; LeaveCluster; CloseGossip;
   ShutdownAdmin; WaitGoroutines].

(** What a node does at a point of its life. *)
Record node_status := mkStatus {
  ns_admin : bool;
  ns_gossip : bool;
  ns_upstream : bool;
  ns_proxy : bool;
  ns_ready : bool;
  ns_joined : bool;
  ns_left : bool;
}.

Definition act (s : node_status) (a : action) : node_status :=
  let '(mkStatus admin gossip up px ready joined gone) := s in
  match a with
  | ServeAdmin => mkStatus true gossip up px ready joined gone
  | ListenGossip => mkStatus admin true up px ready joined gone
  | JoinOnBoot => mkStatus admin gossip up px ready true gone
  | ServeUpstream => mkStatus admin gossip true px ready joined gone
  | ServeProxy => mkStatus admin gossip up true ready joined gone
  | SetReady b => mkStatus admin gossip up px b joined gone
  | ShutdownUpstream => mkStatus admin gossip false px ready joined gone
  | ShutdownProxy => mkStatus admin gossip up false ready joined gone
  | LeaveCluster => mkStatus admin gossip up px ready joined true
  | CloseGossip => mkStatus admin false up px ready joined gone
  | ShutdownAdmin => mkStatus false gossip up px ready joined gone
  | _ => s
  end.

Definition new_status : node_status := mkStatus false false false false false false false.

Definition status_after (l : list action) : node_status := foldl act new_status l.

(** The life of a node: it starts, and is shut down once or more. *)
Definition life (conf : Config) (boot : list string) (startup : option error) (shutdowns : nat) : list action :=
  ((Start conf None boot startup).1 ++ concat (replicate shutdowns Shutdown))%list.

(** ** Lemmas *)

Lemma and_then_inr {A B} (x : option (error + A)) (f : A → option (error + B)) b :
  and_then x f = Some (inr b) → ∃ a, x = Some (inr a) ∧ f a = Some (inr b).
Proof. destruct x as [[e|a]|]; [done| |done]. intros Hf. by exists a. Qed.

Lemma wrap_inr {A} prefix (x : error + A) a : wrap prefix x = Some (inr a) → x = inr a.
Proof. destruct x; [done|]. by intros [= <-]. Qed.

Section node_lemmas.
Context `{NodeEnv} `{TLSEnv} `{KeyLoader} `{MapIter}.

(** What listening changes of a configuration: the advertised addresses. *)
Definition same_auth (c c' : Config) : Prop :=
  px_Auth (cf_Proxy c') = px_Auth (cf_Proxy c) ∧ up_Auth (cf_Upstream c') = up_Auth (cf_Upstream c) ∧
  up_Tenants (cf_Upstream c') = up_Tenants (cf_Upstream c) ∧ ad_Auth (cf_Admin c') = ad_Auth (cf_Admin c).

Lemma listen_same c c' :
  proxyListen c = Some (inr c') ∨ upstreamListen c = Some (inr c') ∨ adminListen c = Some (inr c') → same_auth c c'.
Proof.
  unfold proxyListen, upstreamListen, adminListen.
  intros [Hl|[Hl|Hl]]; apply and_then_inr in Hl as (a&_&[= <-]); done.
Qed.

Lemma auth_if_enabled_spec prefix c r :
  auth_if_enabled prefix c = Some (inr r) →
  match r with None => Enabled c = false | Some l => Enabled c = true ∧ auth_Load c = inr l end.
Proof.
  unfold auth_if_enabled. destruct (Enabled c) eqn:He; [|by intros [= <-]].
  intros (l&Hl%wrap_inr&[= <-])%and_then_inr. unfold auth_load in Hl. destruct (auth_Load c); [done|]. by injection Hl as ->.
Qed.

Lemma load_tenants_spec l m0 m id loaded :
  load_tenants l m0 = Some (inr m) → m !! id = Some loaded →
  m0 !! id = Some loaded ∨ ∃ tc, tc ∈ l ∧ tn_ID tc = id ∧ auth_Load (tn_Auth tc) = inr loaded.
Proof.
  revert m0. induction l as [|tc l IH]; intros m0; simpl; [intros [= <-] ?; by left|].
  intros (ld&Hld%wrap_inr&Hrest)%and_then_inr Hid.
  destruct (IH _ Hrest Hid) as [Hm|(tc'&?&?&?)]; [|right; exists tc'; split; [by right|done]].
  destruct (decide (tn_ID tc = id)) as [Heq|Hne].
  - right. exists tc. split; [by left|]. split; [done|]. rewrite Heq, lookup_insert_eq in Hm. injection Hm as ->.
    unfold auth_load in Hld. destruct (auth_Load _); [done|]. by injection Hld as ->.
  - left. by rewrite lookup_insert_ne in Hm.
Qed.

Lemma load_tenants_dom l m0 m : load_tenants l m0 = Some (inr m) → m = ∅ → l = [].
Proof.
  destruct l as [|tc l]; [done|]. simpl. intros (ld&_&Hrest)%and_then_inr ->. exfalso.
  assert (∀ l m1 m2, load_tenants l m1 = Some (inr m2) → m1 ≠ ∅ → m2 ≠ ∅) as Hne.
  { clear. induction l as [|tc l IH]; intros m1 m2; simpl; [by intros [= <-]|].
    intros (ld&_&Hrest)%and_then_inr _. eapply IH; [exact Hrest|apply insert_non_empty]. }
  by eapply Hne; [exact Hrest|apply insert_non_empty|].
Qed.

(** The verifiers of a node are loaded from the configuration. *)
Lemma NewServer_auth conf n :
  NewServer conf = Some (inr n) →
  auth_if_enabled "proxy: load auth" (px_Auth (cf_Proxy conf)) = Some (inr (nd_proxyAuth n)) ∧
  upstream_auth (cf_Upstream conf) = Some (inr (nd_upstreamAuth n)) ∧
  auth_if_enabled "admin: load auth" (ad_Auth (cf_Admin conf)) = Some (inr (nd_adminAuth n)).
Proof.
  unfold NewServer. intros (c1&Hl1&(c2&Hl2&(c3&Hl3&Hn)%and_then_inr)%and_then_inr)%and_then_inr.
  assert (same_auth conf c1 ∧ same_auth c1 c2 ∧ same_auth c2 c3) as (S1&S2&S3).
  { split_and!; apply listen_same.
    - left. by destruct (proxyListen conf) as [[]|].
    - right; left. by destruct (upstreamListen c1) as [[]|].
    - right; right. by destruct (adminListen c2) as [[]|]. }
  apply and_then_inr in Hn as (tls&_&Hn). apply and_then_inr in Hn as (ctls&_&Hn).
  apply and_then_inr in Hn as (pa&Hpa&Hn). destruct (access_NewLogger _); [|done].
  apply and_then_inr in Hn as (ua&Hua&Hn). apply and_then_inr in Hn as (utls&_&Hn).
  apply and_then_inr in Hn as (aa&Haa&Hn). apply and_then_inr in Hn as (atls&_&Hn). injection Hn as <-.
  destruct S1 as (P1&U1&T1&A1), S2 as (P2&U2&T2&A2), S3 as (P3&U3&T3&A3). simpl.
  rewrite P3, P2, P1 in Hpa. rewrite A3, A2, A1 in Haa. split_and!; [done| |done].
  unfold upstream_auth in *. by rewrite U3, U2, U1, T3, T2, T1 in Hua.
Qed.

(** Validated tenants are authenticated. *)
Lemma Validate_tenants conf tc :
  ServerConfig.Validate conf = None → tc ∈ up_Tenants (cf_Upstream conf) → Enabled (tn_Auth tc) = true ∧ tn_ID tc ≠ "".
Proof.
  unfold ServerConfig.Validate. intros Hv Hin. validated Hv. destruct Hv as (_&_&Hup&_).
  unfold Upstream_Validate in Hup. validated Hup. destruct Hup as (_&Htenants).
  rewrite Forall_fmap in Htenants. rewrite Forall_forall in Htenants. specialize (Htenants _ Hin). simpl in Htenants.
  unfold Tenant_Validate in Htenants. validated Htenants. destruct Htenants as (Hid&Hen&_).
  split; [by apply not_false_is_true|done].
Qed.

End node_lemmas.

(** A port has no colon and no bracket. *)
Lemma SplitHostPort_port s h p c :
  SplitHostPort s = Some (h, p) → c = ":"%char ∨ c = "["%char ∨ c = "]"%char → Contains p c = false.
Proof.
  unfold SplitHostPort. destruct (CutLast s ":") as [[before port]|] eqn:Hc; [|done].
  apply CutLast_Some in Hc as [Hs Hcolon]. simpl.
  assert (∀ x, Contains s x = false → Contains port x = false) as Hsub.
  { intros x Hx. rewrite Hs, Contains_app in Hx. cbn [Contains] in Hx. rewrite !orb_false_iff in Hx. tauto. }
  assert (∀ h0 p0, (guard (Contains before ":" = false);; guard (Contains s "[" = false);;
      guard (Contains s "]" = false);; Some (before, port)) = Some (h0, p0) →
    c = ":"%char ∨ c = "["%char ∨ c = "]"%char → Contains p0 c = false) as Hplain.
  { intros h0 p0 (_&_&(Ho&_&(Hb&_&[= _ <-])%bind_Some)%bind_Some)%bind_Some [-> |[-> | ->]]; auto. }
  destruct s as [|x inner]; [by apply Hplain|].
  destruct (decide (x = "["%char)) as [->|Hx]; [|destruct x as [[] [] [] [] [] [] [] []]; by (done || apply Hplain)].
  destruct (Cut inner "]") as [[host after]|] eqn:Hcut; [|done]. simpl.
  intros (Hafter&_&(Hopen&_&(Hclose&_&[= _ <-])%bind_Some)%bind_Some)%bind_Some.
  apply Cut_Some in Hcut. intros [-> |[-> | ->]]; [done| |].
  - rewrite Hcut, Hafter, Contains_app in Hopen. cbn [Contains] in Hopen. rewrite Contains_app in Hopen.
    rewrite !orb_false_iff in Hopen. tauto.
  - rewrite Hafter, Contains_app in Hclose. rewrite orb_false_iff in Hclose. tauto.
Qed.

(** ** Joining *)

(** The loop after [k] attempts. *)
Lemma join_startup_loop_spec oob b lastErr l k :
  retries b = 5%Z → attempts b = Z.of_nat k → (k ≤ 6)%nat →
  let '(waits, res) := join_startup_loop oob b lastErr l in
  (length waits ≤ 6 - k)%nat ∧
  ((7 - k ≤ length l)%nat → res ≠ None) ∧
  (∀ ids, res = Some (inr ids) →
     ja_result <$> l !! length waits = Some (inr ids) ∧
     ∀ j, (j < length waits)%nat → ∃ err, ja_result <$> l !! j = Some (inl err)) ∧
  (∀ e, res = Some (inl e) → ∀ j, (j < length waits)%nat → ∃ err, ja_result <$> l !! j = Some (inl err)).
Proof.
  revert b lastErr k. induction l as [|a l IH]; intros b lastErr k Hr Hk Hle; simpl.
  { split_and!; [lia|lia|done|done]. }
  destruct (ja_result a) as [err|ids] eqn:Ha.
  2: { split_and!; [simpl; lia|done| |done]. intros ids' [= <-]. simpl. rewrite Ha. split; [done|lia]. }
  unfold Backoff_Backoff. rewrite Hr, Hk. destruct (decide (5 ≠ 0 ∧ 5 < Z.of_nat k)%Z) as [Hstop|Hgo]; cbn [negb].
  { split_and!; [simpl; lia|done|done|]. intros e _ j Hj. simpl in Hj. lia. }
  destruct (ja_done a).
  { split_and!; [simpl; lia|done|done|]. intros e _ j Hj. simpl in Hj. replace j with 0%nat by lia. simpl. rewrite Ha. by eexists. }
  match goal with |- context [join_startup_loop oob ?b' ?e' l] => set (b1 := b') end.
  specialize (IH b1 (Some err) (S k) eq_refl). destruct (join_startup_loop oob b1 (Some err) l) as [waits res].
  destruct IH as (Hlen&Hres&Hok&Herr).
  { unfold b1. simpl. rewrite i64_small by (unfold is_i64; lia). lia. }
  { lia. }
  assert (∀ (P : nat → Prop), P 0%nat → (∀ j, (j < length waits)%nat → P (S j)) → ∀ j, (j < S (length waits))%nat → P j) as Hnat.
  { intros P H0' HS [|j] Hj; [done|]. apply HS. lia. }
  split_and!; [simpl; lia|intros ?; apply Hres; simpl in *; lia| |].
  - intros ids Hids. destruct (Hok ids Hids) as [Hlast Hprev]. split; [done|]. simpl. apply Hnat; simpl; [rewrite Ha; by eexists|done].
  - intros e He. simpl. apply Hnat; simpl; [rewrite Ha; by eexists|by apply (Herr e)].
Qed.

(** ** The life of a node *)

(** What holds at every point: a node is ready only while everything it needs
    serves, it takes upstreams only once it has tried to join, and it leaves
    only when it serves no more. *)
Definition life_ok (s : node_status) : bool :=
  implb (ns_ready s) (ns_admin s && ns_gossip s && ns_joined s && ns_upstream s && ns_proxy s && negb (ns_left s)) &&
  implb (ns_upstream s || ns_proxy s) (ns_gossip s && ns_joined s && negb (ns_left s)) &&
  implb (ns_left s) (negb (ns_ready s) && negb (ns_upstream s) && negb (ns_proxy s)).

Fixpoint always (P : node_status → bool) (s : node_status) (l : list action) : bool :=
  P s && match l with [] => true | a :: l' => always P (act s a) l' end.

Lemma always_prefix P s l1 l2 : always P s (l1 ++ l2) = true → P (foldl act s l1) = true.
Proof.
  revert s. induction l1 as [|a l1 IH]; intros s Hal; simpl in *.
  - destruct l2; simpl in Hal; apply andb_true_iff in Hal as [? _]; done.
  - apply andb_true_iff in Hal as [_ Hal]. by apply IH.
Qed.

Lemma always_app P s l1 l2 :
  always P s l1 = true → always P (foldl act s l1) l2 = true → always P s (l1 ++ l2) = true.
Proof.
  revert s. induction l1 as [|a l1 IH]; intros s H1 H2; simpl in *; [done|].
  apply andb_true_iff in H1 as [-> H1]. simpl. by apply IH.
Qed.

(** A node that was shut down stays so. *)
Lemma always_shutdowns n s :
  always life_ok s Shutdown = true → ns_left s = false ∨ s = foldl act s Shutdown →
  always life_ok s (concat (replicate n Shutdown)) = true.
Proof.
  revert s. induction n as [|n IH]; intros s Hs _; cbn [replicate concat].
  { simpl in Hs. apply andb_true_iff in Hs as [Hs _]. simpl. by rewrite Hs. }
  apply always_app; [done|].
  assert (foldl act (foldl act s Shutdown) Shutdown = foldl act s Shutdown) as Heq.
  { by destruct s as [[] [] [] [] [] [] []]. }
  apply IH; [|by right].
  revert Hs. destruct s as [[] [] [] [] [] [] []]; intros Hs; first [by vm_compute|by vm_compute in Hs].
Qed.

(** ** Properties *)

(** C16. A node authenticates its tenants: with a validated configuration the
    upstream server asks for no token only when neither a key nor a tenant is
    configured; a token of a tenant is accepted only when it is authentic for a
    tenant of that name, and a token of no tenant only when there are no
    tenants and it is authentic for the node's own keys. *)
Theorem node_authenticates_tenants `{JWTLaws, KeyLoader, NodeEnv, TLSEnv, MapIter} now conf n :
  ServerConfig.Validate conf = None → NewServer conf = Some (inr n) →
  (upstream_verifier now n = None ↔ Enabled (up_Auth (cf_Upstream conf)) = false ∧ up_Tenants (cf_Upstream conf) = []) ∧
  ∀ v ts tenantID t, upstream_verifier now n = Some v → multi_Verify v ts tenantID = inr t →
    (tenantID = "" ∧ up_Tenants (cf_Upstream conf) = [] ∧ authentic now (up_Auth (cf_Upstream conf)) ts t) ∨
    (∃ tc, tc ∈ up_Tenants (cf_Upstream conf) ∧ tn_ID tc = tenantID ∧ tenantID ≠ "" ∧
       authentic now (tn_Auth tc) ts t ∧ Auth.TenantID t = tenantID).
Proof.
  intros Hv Hn. destruct (NewServer_auth _ _ Hn) as (_&Hup&_). unfold upstream_auth in Hup.
  unfold upstream_verifier. destruct (Enabled _ || bool_decide _) eqn:Hon.
  2: { injection Hup as <-. split; [|done]. split; [|done]. intros _. apply orb_false_iff in Hon as [-> Hlen].
    apply bool_decide_eq_false in Hlen. split; [done|]. by destruct (up_Tenants (cf_Upstream conf)); [|simpl in Hlen; lia]. }
  apply and_then_inr in Hup as (d&Hd%wrap_inr&Hup). apply and_then_inr in Hup as (tvs&Htvs&[= Hup]). rewrite <-Hup. simpl.
  assert (auth_Load (up_Auth (cf_Upstream conf)) = inr d) as Hload.
  { unfold auth_load in Hd. destruct (auth_Load _); [done|]. by injection Hd as ->. }
  split.
  { split; [done|]. intros [Hen Hnil]. rewrite Hen, Hnil in Hon. done. }
  intros v ts tenantID t [= <-]. unfold multi_Verify. cbn [tenantVerifiers defaultVerifier NewMultiTenantVerifier default].
  destruct (decide (tenantID = "")) as [->|Hid].
  - destruct (decide (size _ ≠ 0)) as [|Hsize]; [done|]. intros Hjwt. left. split; [done|].
    apply dec_stable, map_size_empty_inv, fmap_empty_inv in Hsize. apply (load_tenants_dom _ _ _ Htvs) in Hsize.
    split; [done|]. apply verify_authentic with d; [|done|done].
    rewrite Hsize, orb_false_r in Hon. done.
  - rewrite lookup_fmap. destruct (tvs !! tenantID) as [loaded|] eqn:Hl; [|done]. simpl.
    destruct (jwt_Verify now (NewJWTVerifier loaded) ts) as [|t0] eqn:Hjwt; [done|]. intros [= <-]. right.
    destruct (load_tenants_spec _ _ _ _ _ Htvs Hl) as [Hempty|(tc&Htc&Htid&Hld)]; [by rewrite lookup_empty in Hempty|].
    destruct (Validate_tenants conf tc Hv Htc) as [Hen _].
    exists tc. split_and!; [done|done|done| |done].
    destruct (verify_authentic now (tn_Auth tc) loaded ts t0 Hen Hld Hjwt) as (?&?&?&?&?). by split_and!.
Qed.

(** A node advertises an address others can dial: the address inferred from
    a listener is a host and the listener's port, and never the unspecified
    host; the inference fails only for an address that does not split or on a
    host without a private address. *)
Theorem advertise_addr_dialable `{NodeEnv} addr host port :
  SplitHostPort (if HasPrefix addr ":" then "0.0.0.0" +:+ addr else addr) = Some (host, port) →
  (∀ ip, GetPrivateIP = inr ip → (∀ c, c = ":"%char ∨ c = "["%char ∨ c = "]"%char → Contains ip c = false) ∧ ip ≠ "0.0.0.0") →
  match advertiseAddrFromListenAddr addr with
  | inr a => ∃ host', SplitHostPort a = Some (host', port) ∧ host' ≠ "0.0.0.0" ∧ host' ≠ "::" ∧
      (host ≠ "0.0.0.0" → host ≠ "::" → host' = host)
  | inl _ => (host = "0.0.0.0" ∨ host = "::") ∧ ∀ ip, GetPrivateIP = inr ip → ip = ""
  end.
Proof.
  intros Hsplit Hip. unfold advertiseAddrFromListenAddr. rewrite Hsplit.
  destruct (decide (host = "0.0.0.0" ∨ host = "::")) as [Hun|Hun].
  - destruct GetPrivateIP as [err|ip]; [done|]. destruct (decide (ip = "")) as [->|Hne].
    { split; [done|]. by intros ip [= <-]. }
    destruct (Hip ip eq_refl) as [Hchars Hzero]. exists ip. split_and!; [|done| |by destruct Hun].
    + apply SplitHostPort_join. intros c Hc. split; [by apply Hchars|]. by eapply SplitHostPort_port.
    + intros ->. by specialize (Hchars ":"%char (or_introl eq_refl)).
  - exists host. split_and!; [done|tauto|tauto|done].
Qed.

(** Joining on start-up ends: whatever the attempts meet, it tries at most
    seven times and has decided after them; it succeeds with the nodes of the
    first attempt that succeeds, after only failures. *)
Theorem join_on_startup_bounded oob l :
  let '(waits, res) := JoinOnStartup oob l in
  (length waits ≤ 6)%nat ∧ ((7 ≤ length l)%nat → res ≠ None) ∧
  (∀ ids, res = Some (inr ids) →
     ja_result <$> l !! length waits = Some (inr ids) ∧
     ∀ j, (j < length waits)%nat → ∃ err, ja_result <$> l !! j = Some (inl err)).
Proof.
  pose proof (join_startup_loop_spec oob (New 5 Second Minute) None l 0 eq_refl eq_refl ltac:(lia)) as Hs.
  unfold JoinOnStartup. destruct (join_startup_loop _ _ _ _) as [waits res]. destruct Hs as (?&Hres&Hok&_).
  split_and!; [done|exact Hres|done].
Qed.

(** A node starts and stops in a safe order: at every point of its life,
    whatever the joins do and however often it is shut down, it is ready only
    while the admin, upstream and proxy servers and the gossip run; it serves
    only after it tried to join; and when it leaves the cluster it serves
    nothing any more. *)
Theorem lifecycle_order conf boot startup shutdowns l1 l2 :
  life conf boot startup shutdowns = (l1 ++ l2)%list → life_ok (status_after l1) = true.
Proof.
  intros Hl. apply (always_prefix life_ok new_status l1 l2). rewrite <-Hl. unfold life, Start.
  destruct (feq _ _), (decide (length boot = 0)%nat); cbn [fst].
  all: apply always_app; [by vm_compute|apply always_shutdowns; [by vm_compute|by left]].
Qed.

(** ** Witnesses *)

#[local] Instance ex_node_env : NodeEnv := {| Listen addr := inr ("[::]" +:+ addr); GetPrivateIP := inr "10.0.0.1" |}.

Lemma advertise_addr_dialable_witness :
  ∃ a host, advertiseAddrFromListenAddr "[::]:8000" = inr a ∧ SplitHostPort a = Some (host, "8000") ∧ host ≠ "::".
Proof.
  pose proof (advertise_addr_dialable "[::]:8000" "::" "8000" ltac:(by vm_compute)) as Hd.
  assert (∀ ip, GetPrivateIP = inr ip →
    (∀ c, c = ":"%char ∨ c = "["%char ∨ c = "]"%char → Contains ip c = false) ∧ ip ≠ "0.0.0.0") as Hip.
  { intros ip [= <-]. split; [|done]. by intros c [-> |[-> | ->]]. }
  specialize (Hd Hip). destruct (advertiseAddrFromListenAddr "[::]:8000") as [e|a] eqn:Ha.
  - by vm_compute in Ha.
  - destruct Hd as (host'&Hs&_&Hne&_). by exists a, host'.
Defined.

Lemma lifecycle_order_witness :
  life_ok (status_after [ServeAdmin; ListenGossip; JoinOnBoot; ServeUpstream; ServeProxy; SetReady true]) = true.
Proof.
  apply (lifecycle_order ServerConfig.Default [] None 1 _
    [JoinRetry; StopJWKS; SetReady false; CancelRebalance; ShutdownUpstream; ShutdownProxy; LeaveCluster; CloseGossip;
     ShutdownAdmin; WaitGoroutines]).
  by vm_compute.
Defined.

#[local] Existing Instance ex_jwt.
#[local] Existing Instance ex_jwt_laws.
#[local] Existing Instance ex_loader.
#[local] Existing Instance canonical_iter.
#[local] Instance ex_tls_env : TLSEnv := {|
  LoadX509KeyPair cert key := inl "no such file";
  os_ReadFile path := inl "no such file";
  AppendCertsFromPEM pem := false;
|}.

(** The default configuration with one tenant. *)
Definition ex_tenants : Config :=
  set_Upstream (λ u, mkUpstreamConfig (up_BindAddr u) (up_AdvertiseAddr u) (up_Auth u) (up_Rebalance u) (up_TLS u)
    [mkTenantConfig "acme" Auth.ex_auth]) (set_NodeID "n1" ServerConfig.Default).

Lemma node_authenticates_tenants_witness :
  ∃ n v, NewServer ex_tenants = Some (inr n) ∧ upstream_verifier 0 n = Some v ∧
    (∃ t, multi_Verify v Auth.ex_token "acme" = inr t) ∧ ∀ ts t, multi_Verify v ts "" = inr t → False.
Proof.
  destruct (NewServer ex_tenants) as [[|n]|] eqn:Hn; [by vm_compute in Hn| |by vm_compute in Hn].
  destruct (node_authenticates_tenants 0 ex_tenants n ltac:(by vm_compute) Hn) as [Hnone Hacc].
  destruct (upstream_verifier 0 n) as [v|] eqn:Hv; [|by destruct (proj1 Hnone eq_refl)].
  exists n, v. split_and!; [done|done| |].
  - assert (∀ m, Some (inr m) = NewServer ex_tenants → ∀ w, upstream_verifier 0 m = Some w →
      ∃ t, multi_Verify w Auth.ex_token "acme" = inr t) as Hgen.
    { intros m Hm w Hw. vm_compute in Hm. injection Hm as ->. injection Hw as <-. eexists. by vm_compute. }
    by apply (Hgen n).
  - intros ts t Hempty. destruct (Hacc v ts "" t eq_refl Hempty) as [(_&Hnil&_)|(tc&_&_&Hne&_)]; done.
Defined.

Lemma join_on_startup_bounded_witness :
  (JoinOnStartup (λ _, 0%Z) [mkJoinAttempt (inl "refused") (S754_zero false) false;
     mkJoinAttempt (inr ["n2"]) (S754_zero false) false]).2 = Some (inr ["n2"]) ∧
  ∃ err, ja_result <$> [mkJoinAttempt (inl "refused") (S754_zero false) false;
     mkJoinAttempt (inr ["n2"]) (S754_zero false) false] !! 0%nat = Some (inl err).
Proof.
  pose proof (join_on_startup_bounded (λ _, 0%Z) [mkJoinAttempt (inl "refused") (S754_zero false) false;
     mkJoinAttempt (inr ["n2"]) (S754_zero false) false]) as Hj.
  destruct (JoinOnStartup _ _) as [waits res] eqn:Hrun.
  assert (length waits = 1%nat ∧ res = Some (inr ["n2"])) as [Hlen ->].
  { assert (length (JoinOnStartup (λ _, 0%Z) [mkJoinAttempt (inl "refused") (S754_zero false) false;
       mkJoinAttempt (inr ["n2"]) (S754_zero false) false]).1 = 1%nat ∧
     (JoinOnStartup (λ _, 0%Z) [mkJoinAttempt (inl "refused") (S754_zero false) false;
       mkJoinAttempt (inr ["n2"]) (S754_zero false) false]).2 = Some (inr ["n2"])) as Hp by by vm_compute.
    by rewrite Hrun in Hp. }
  split; [done|]. destruct Hj as (_&_&Hok). destruct (Hok ["n2"] eq_refl) as [_ Hprev]. apply Hprev. lia.
Defined.
