(* ===== verification/TestCluster.v ===== *)
(** * pikotest/cluster and cli/test/cluster: a local cluster of nodes

    The nodes of [piko test cluster], the manager that starts and stops them,
    and the load balancer in front of them.  What a node meets when it is
    created and started (the addresses of its listeners, its random identifier,
    how its joins go) is a [node_world]; a panic is [None]. *)

From coqutil Require Import Datatypes.RecordSetters.
From S2P Require Import Prelude GoLib FloatLib NetLib GossipNode Cluster Upstream Auth UpstreamServer Transport Client ConfigLib Logging ServerConfig AgentConfig Middleware Commands ServerNode.

Local Open Scope string_scope.

(** ** pikotest/cluster/config/config.go *)

Record test_Config := mkTestConfig {
  ts_Nodes : Z;
  ts_Log : log_config;
}.

Definition test_Default : test_Config := mkTestConfig 3 (mkLogConfig "info" []).

Definition test_Validate (c : test_Config) : option error :=
  first_error [check (ts_Nodes c = 0%Z) "missing nodes"; Errorf "log" (log_Validate (ts_Log c))].

(** The default of the flag is 3, not the value of the field. *)
Definition test_RegisterFlags {S} (s : S) (c : ptr S test_Config) : list (flag S) :=
  [Var (field c ts_Nodes) "nodes" 3%Z] ++ log_RegisterFlags s (field c ts_Log).

(** ** pikotest/cluster/options.go *)

(** The logger is left out. *)
Record options := mkOptions {
  op_join : list string;
  op_authConfig : AuthConfig;
  op_tls : bool;
}.

Inductive Option :=
  | WithJoin (join : list string)
  | WithAuthConfig (config : AuthConfig)
  | WithTLS (tls : bool).

Definition apply (o : Option) (opts : options) : options :=
  match o with
  | WithJoin join => mkOptions join (op_authConfig opts) (op_tls opts)
  | WithAuthConfig config => mkOptions (op_join opts) config (op_tls opts)
  | WithTLS tls => mkOptions (op_join opts) (op_authConfig opts) tls
  end.

(** ** pikotest/cluster/node.go *)

(** What a node meets: its listeners, the identifier it generates, none when
    there is no randomness, its first join and its retries. *)
Record node_world := mkWorld {
  nw_listen : NodeEnv;
  nw_ListenUDP : string → option error;
  nw_NodeID : option string;
  nw_boot : list string;
  nw_startup : option error;
}.

(** [testutil.LocalTLSServerCert] and the temporary files: the pool, and the
    names of the files of the certificate and of its key. *)
Class TestTLS := { LocalTLSServerCert : option (string * string * string) }.

Record test_node := mkTestNode {
  te_server : node;
  te_rootCAPool : option string;
}.

Definition set_tls_files (cert key : string) (t : TLSConfig) : TLSConfig :=
  mkTLSConfig cert key (tls_ClientCAs t) (tls_Client t).

Section cluster.
Context `{TLSEnv} `{KeyLoader} `{MapIter} `{TestTLS}.

(** The configuration of a node without TLS. *)
Definition test_node_conf (nodeID : string) (o : options) : Config :=
  let auth := op_authConfig o in
  set_Proxy (λ p, mkProxyConfig "127.0.0.1:0" (px_AdvertiseAddr p) (px_Timeout p) (px_AccessLog p) auth (px_HTTP p) (px_TLS p))
    (set_Upstream (λ u, mkUpstreamConfig "127.0.0.1:0" (up_AdvertiseAddr u) auth (up_Rebalance u) (up_TLS u) (up_Tenants u))
      (set_Admin (λ d, mkAdminConfig "127.0.0.1:0" (ad_AdvertiseAddr d) auth (ad_Password d) (ad_TLS d))
        (set_Cluster (λ cl, mkClusterConfig nodeID (cl_NodeIDPrefix cl) (op_join o) (cl_JoinTimeout cl)
          (cl_AbortIfJoinFails cl)
          (mkConfig "127.0.0.1:0" (AdvertiseAddr (cl_Gossip cl)) (Millisecond * 10) (MaxPacketSize (cl_Gossip cl))))
        ServerConfig.Default))).

Definition with_tls_files (cert key : string) (c : Config) : Config :=
  let set := set_tls_files cert key in
  set_Proxy (λ p, mkProxyConfig (px_BindAddr p) (px_AdvertiseAddr p) (px_Timeout p) (px_AccessLog p) (px_Auth p) (px_HTTP p)
      (set (px_TLS p)))
    (set_Upstream (λ u, mkUpstreamConfig (up_BindAddr u) (up_AdvertiseAddr u) (up_Auth u) (up_Rebalance u) (set (up_TLS u))
        (up_Tenants u))
      (set_Admin (λ d, mkAdminConfig (ad_BindAddr d) (ad_AdvertiseAddr d) (ad_Auth d) (ad_Password d) (set (ad_TLS d))) c)).

Definition NewNode (w : node_world) (opts : list Option) : option test_node :=
  let o := foldl (λ o opt, apply opt o) (mkOptions [] zero_auth false) opts in
  nodeID ← nw_NodeID w;
  let conf := test_node_conf nodeID o in
  '(conf, rootCAPool) ←
    (if op_tls o then
       '(pool, cert, key) ← LocalTLSServerCert; Some (with_tls_files cert key conf, Some pool)
     else Some (conf, None));
  match @NewServer (nw_listen w) _ _ _ conf with
  | Some (inr server) => Some (mkTestNode server rootCAPool)
  | _ => None
  end.

Definition node_GossipAddr (n : test_node) : string := AdvertiseAddr (cl_Gossip (cf_Cluster (nd_conf (te_server n)))).
Definition node_ProxyAddr (n : test_node) : string := px_AdvertiseAddr (cf_Proxy (nd_conf (te_server n))).
Definition node_UpstreamAddr (n : test_node) : string := up_AdvertiseAddr (cf_Upstream (nd_conf (te_server n))).
Definition node_AdminAddr (n : test_node) : string := ad_AdvertiseAddr (cf_Admin (nd_conf (te_server n))).

Definition set_conf (c : Config) (n : node) : node :=
  mkNode c (nd_clusterState n) (nd_upstreams n) (nd_clientTLS n) (nd_proxyAuth n) (nd_proxyTLS n) (nd_accessLog n)
    (nd_upstreamAuth n) (nd_upstreamTLS n) (nd_adminAuth n) (nd_adminTLS n).

(** [Node.Start] *)
Definition node_Start (w : node_world) (n : test_node) : option test_node :=
  match @startGossip (nw_listen w) (nw_ListenUDP w) (nd_conf (te_server n)) with
  | Some (inr conf) =>
      match (Start conf None (nw_boot w) (nw_startup w)).2 with
      | None => Some (mkTestNode (set_conf conf (te_server n)) (te_rootCAPool n))
      | Some _ => None
      end
  | _ => None
  end.

(** ** pikotest/cluster/manager.go *)

(** The nodes, and those that were stopped, in the order they were. *)
Record test_manager := mkTestManager {
  tm_nodes : list test_node;
  tm_stopped : list test_node;
}.

Definition NewManager : test_manager := mkTestManager [] [].

Definition addNodeLocked (w : node_world) (m : test_manager) : option test_manager :=
  let gossipAddrs := node_GossipAddr <$> tm_nodes m in
  n ← NewNode w [WithJoin gossipAddrs];
  n ← node_Start w n;
  Some (mkTestManager (tm_nodes m ++ [n]) (tm_stopped m)).

(** [m.nodes[0]] panics when there is no node. *)
Definition removeNodeLocked (m : test_manager) : option test_manager :=
  match tm_nodes m with
  | [] => None
  | n :: nodes => Some (mkTestManager nodes (tm_stopped m ++ [n]))
  end.

Fixpoint add_nodes (ws : list node_world) (m : test_manager) : option test_manager :=
  match ws with
  | [] => Some m
  | w :: ws' => m ← addNodeLocked w m; add_nodes ws' m
  end.

Fixpoint remove_nodes (n : nat) (m : test_manager) : option test_manager :=
  match n with
  | O => Some m
  | S n' => m ← removeNodeLocked m; remove_nodes n' m
  end.

(** [Update]: the [i]-th node it adds meets the world [worlds i]. *)
Definition Update (worlds : nat → node_world) (c : test_Config) (m : test_manager) : option test_manager :=
  let len := Z.of_nat (length (tm_nodes m)) in
  if decide (len < ts_Nodes c)%Z then add_nodes (worlds <$> seq 0 (Z.to_nat (ts_Nodes c - len))) m
  else if decide (ts_Nodes c < len)%Z then remove_nodes (Z.to_nat (len - ts_Nodes c)) m
  else Some m.

(** [Manager.Nodes], a copy. *)
Definition manager_Nodes (m : test_manager) : list test_node := tm_nodes m.

(** [Manager.Close] *)
Definition manager_Close (m : test_manager) : option test_manager := remove_nodes (length (tm_nodes m)) m.

(** ** pikotest/cluster/proxy/loadbalancer.go *)

(** The director of a reverse proxy, for a random number: the address of one of
    the nodes; dividing by zero when there is none. *)
Definition director (addr : test_node → string) (r : Z) (m : test_manager) : option string :=
  let upstreams := addr <$> manager_Nodes m in
  if decide (length upstreams = 0)%nat then None
  else upstreams !! Z.to_nat (Z.rem r (Z.of_nat (length upstreams))).

(** The servers of [NewLoadBalancer]: where each listens, and the addresses it
    chooses from. *)
Definition NewLoadBalancer : list (string * (test_node → string)) :=
  [("127.0.0.1:8000", node_ProxyAddr); ("127.0.0.1:8001", node_UpstreamAddr); ("127.0.0.1:8002", node_AdminAddr)].

End cluster.

(** *** Serving *)

(** [reverseProxy.Serve], for what listening and serving return. *)
Definition proxy_Serve (listen : option error) (serve : option serve_error) : option error :=
  match listen with
  | Some err => Some ("listen: " +:+ err)
  | None => match serve with Some (ServeError err) => Some err | _ => None end
  end.

(** A server of the load balancer: whether its goroutine has begun to serve or
    has ended, and whether it was closed. *)
Inductive serving := NotServing | Serving | Served.

#[export] Instance serving_eq_dec : EqDecision serving.
Proof. solve_decision. Defined.

Record balanced_server := mkBalanced { bs_serving : serving; bs_closed : bool }.

(** The load balancer: its servers, how many [Close] has closed, and whether
    [Close] returned. *)
Record load_balancer := mkBalancer {
  lb_servers : list balanced_server;
  lb_closing : option nat;
  lb_returned : bool;
}.

(** [NewLoadBalancer] and the goroutines of its [serve]. *)
Definition new_balancer : load_balancer := mkBalancer ((λ _, mkBalanced NotServing false) <$> NewLoadBalancer) None false.

Definition set_server (i : nat) (b : balanced_server) (lb : load_balancer) : load_balancer :=
  mkBalancer (<[i := b]> (lb_servers lb)) (lb_closing lb) (lb_returned lb).

(** The steps of the goroutines and of [Close]; [None] is the panic of a
    goroutine whose [Serve] returned an error. *)
Inductive balancer_step : load_balancer → option load_balancer → Prop :=
  | lb_listen lb i c : lb_servers lb !! i = Some (mkBalanced NotServing c) →
      balancer_step lb (Some (set_server i (mkBalanced Serving c) lb))
  | lb_fails lb i ph c err listen serve : lb_servers lb !! i = Some (mkBalanced ph c) → ph ≠ Served →
      proxy_Serve listen serve = Some err → balancer_step lb None
  | lb_served lb i : lb_servers lb !! i = Some (mkBalanced Serving true) → proxy_Serve None (Some ErrServerClosed) = None →
      balancer_step lb (Some (set_server i (mkBalanced Served true) lb))
  | lb_Close lb : lb_closing lb = None → balancer_step lb (Some (mkBalancer (lb_servers lb) (Some 0%nat) (lb_returned lb)))
  | lb_close_server lb i ph c : lb_closing lb = Some i → lb_servers lb !! i = Some (mkBalanced ph c) →
      balancer_step lb (Some (mkBalancer (<[i := mkBalanced ph true]> (lb_servers lb)) (Some (S i)) (lb_returned lb)))
  | lb_wait lb n : lb_closing lb = Some n → n = length (lb_servers lb) → lb_returned lb = false →
      Forall (λ b, bs_serving b = Served) (lb_servers lb) → balancer_step lb (Some (mkBalancer (lb_servers lb) (Some n) true)).

Inductive balancer_reachable : load_balancer → Prop :=
  | lb_new : balancer_reachable new_balancer
  | lb_step lb lb' : balancer_reachable lb → balancer_step lb (Some lb') → balancer_reachable lb'.

(** ** cli/test/cluster/command.go *)

Record test_vars := mkTestVars {
  tv_conf : test_Config;
  tv_loadConf : load_config;
}.

Definition test_flags (s : test_vars) : list (flag test_vars) :=
  test_RegisterFlags s (field whole tv_conf) ++ load_RegisterFlags (field whole tv_loadConf).

(** [loadConfig]: the configuration is changed even when it is not valid. *)
Definition loadConfig (Getenv : string → string) (ReadFile : string → error + string)
    (Decode : string → test_Config → error + test_Config) (s : test_vars) : test_vars * option error :=
  match Load Getenv ReadFile Decode (tv_conf s) (lo_Path (tv_loadConf s)) (lo_ExpandEnv (tv_loadConf s)) with
  | inl err => (s, Some ("load: " +:+ err))
  | inr conf => (mkTestVars conf (tv_loadConf s), Errorf "validate" (test_Validate conf))
  end.

(** [PreRun] *)
Definition test_PreRun (Getenv : string → string) (ReadFile : string → error + string)
    (Decode : string → test_Config → error + test_Config) (s : test_vars) : error + test_vars :=
  let '(s, err) := loadConfig Getenv ReadFile Decode s in
  match err with
  | Some err => inl err
  | None =>
      match test_Validate (tv_conf s) with
      | Some err => inl ("config: " +:+ err)
      | None => setup_logger (ts_Log (tv_conf s)) s
      end
  end.

(** [runCluster]: a cluster that is updated at every SIGHUP, when the
    configuration file has the content the signal finds, and closed at the end.
    A configuration that does not load leaves the cluster as it is. *)
Section run_cluster.
Context `{TLSEnv} `{KeyLoader} `{MapIter} `{TestTLS}.
Context (Getenv : string → string) (Decode : string → test_Config → error + test_Config).

Definition on_hup (hup : (string → error + string) * (nat → node_world)) (sm : test_vars * test_manager) :
    option (test_vars * test_manager) :=
  let '(s, m) := sm in
  let '(s', err) := loadConfig Getenv hup.1 Decode s in
  match err with
  | Some _ => Some (s', m)
  | None => m' ← Update hup.2 (tv_conf s') m; Some (s', m')
  end.

Fixpoint on_hups (hups : list ((string → error + string) * (nat → node_world))) (sm : test_vars * test_manager) :
    option (test_vars * test_manager) :=
  match hups with
  | [] => Some sm
  | hup :: hups' => sm' ← on_hup hup sm; on_hups hups' sm'
  end.

Definition runCluster (worlds : nat → node_world) (hups : list ((string → error + string) * (nat → node_world)))
    (s : test_vars) : option test_manager :=
  m ← Update worlds (tv_conf s) NewManager;
  '(_, m') ← on_hups hups (s, m);
  manager_Close m'.

End run_cluster.

(** ** Lemmas *)

Lemma below_test {S} (s : S) (c : ptr S test_Config) : lawful c → below c (test_RegisterFlags s c).
Proof. solve_register (@test_RegisterFlags). Qed.
#[export] Hint Resolve below_test : flags.

(** The flags of [piko test cluster] store into fields of their own. *)
Lemma test_flags_ok :
  let vars := mkTestVars test_Default (mkLoadConfig "" false) in flags_ok vars (test_flags vars).
Proof.
  eapply below_flags_ok; [|first [reflexivity|apply (bool_decide_eq_true_1 _); vm_compute; reflexivity]..].
  unfold test_flags. pose proof (@lawful_whole test_vars) as Hc. solve_below.
Qed.

#[local] Close Scope string_scope.

(** A world in which a node starts: it has an identifier, it listens on the
    loopback address, and it joins. *)
Record good_world (w : node_world) : Prop := {
  gw_NodeID : nw_NodeID w ≠ None;
  gw_listen : ∃ port, @Listen (nw_listen w) "127.0.0.1:0" = inr ("127.0.0.1:" +:+ port)%string ∧
    ∀ c, c = ":"%char ∨ c = "["%char ∨ c = "]"%char → Contains port c = false;
  gw_ListenUDP addr : nw_ListenUDP w addr = None;
  gw_join : nw_startup w = None;
}.

Lemma listen_loopback (e : NodeEnv) port :
  @Listen e "127.0.0.1:0" = inr ("127.0.0.1:" +:+ port)%string →
  (∀ c, c = ":"%char ∨ c = "["%char ∨ c = "]"%char → Contains port c = false) →
  @advertiseAddrFromListenAddr e ("127.0.0.1:" +:+ port)%string = inr ("127.0.0.1:" +:+ port)%string ∧
  @listen_advertise e "127.0.0.1:0" "" = Some (inr ("127.0.0.1:" +:+ port)%string).
Proof.
  intros Hl Hp.
  assert (@advertiseAddrFromListenAddr e ("127.0.0.1:" +:+ port)%string = inr ("127.0.0.1:" +:+ port)%string) as Ha.
  { unfold advertiseAddrFromListenAddr.
    assert (SplitHostPort ("127.0.0.1:" +:+ port)%string = Some ("127.0.0.1"%string, port)) as Hs.
    { apply (SplitHostPort_join "127.0.0.1" port). intros c Hc. split; [by destruct Hc as [-> |[-> | ->]]|auto]. }
    replace (HasPrefix ("127.0.0.1:" +:+ port)%string ":") with false by done. by rewrite Hs. }
  split; [done|]. unfold listen_advertise. by rewrite Hl, Ha.
Qed.

Lemma Start_joined conf boot : (Start conf None boot None).2 = None.
Proof. unfold Start. by destruct (decide (length boot = 0)). Qed.

Section lemmas.
Context `{TLSEnv} `{KeyLoader} `{MapIter} `{TestTLS}.

Lemma NewNode_ok w join :
  good_world w →
  ∃ n, NewNode w [WithJoin join] = Some n ∧
    cl_Join (cf_Cluster (nd_conf (te_server n))) = join ∧
    cl_Gossip (cf_Cluster (nd_conf (te_server n))) = mkConfig "127.0.0.1:0" "" (Millisecond * 10) 1400.
Proof.
  intros [Hid (port&Hl&Hp) Hudp Hj]. unfold NewNode. destruct (nw_NodeID w) as [id|]; [|done]. simpl.
  destruct (listen_loopback _ _ Hl Hp) as [_ Hla].
  unfold NewServer, proxyListen, upstreamListen, adminListen. simpl. rewrite Hla. simpl. rewrite Hla. simpl.
  rewrite Hla. simpl. unfold TLS_Load. simpl. eexists. split_and!; [reflexivity|done..].
Qed.

Lemma add_ok w m :
  good_world w → ∃ n, addNodeLocked w m = Some (mkTestManager (tm_nodes m ++ [n]) (tm_stopped m)) ∧
    cl_Join (cf_Cluster (nd_conf (te_server n))) = node_GossipAddr <$> tm_nodes m ∧
    HasPrefix (node_GossipAddr n) "127.0.0.1:" = true.
Proof.
  intros Hw. destruct (NewNode_ok w (node_GossipAddr <$> tm_nodes m) Hw) as (n&Hn&Hjoin&Hg).
  destruct Hw as [_ (port&Hl&Hp) Hudp Hj]. destruct (listen_loopback _ _ Hl Hp) as [Ha _].
  unfold addNodeLocked. rewrite Hn. cbn [mbind option_bind]. unfold node_Start, startGossip. rewrite Hg.
  cbn [BindAddr AdvertiseAddr]. rewrite Hl, Hudp, decide_True, Ha, Hj, Start_joined by done. cbn [mbind option_bind].
  eexists. split_and!; [done|by rewrite <-Hjoin|]. unfold node_GossipAddr. simpl. by rewrite HasPrefix_app.
Qed.

(** The nodes from the [k]-th on joined all the nodes before them. *)
Definition joined_from (k : nat) (l : list test_node) : Prop :=
  ∀ i n, k ≤ i → l !! i = Some n →
    cl_Join (cf_Cluster (nd_conf (te_server n))) = node_GossipAddr <$> take i l ∧
    HasPrefix (node_GossipAddr n) "127.0.0.1:" = true.

Lemma add_nodes_ok ws m :
  Forall good_world ws →
  ∃ added, add_nodes ws m = Some (mkTestManager (tm_nodes m ++ added) (tm_stopped m)) ∧
    length added = length ws ∧ joined_from (length (tm_nodes m)) (tm_nodes m ++ added).
Proof.
  intros Hws. revert m. induction Hws as [|w ws Hw Hws IH]; intros m.
  - exists []. rewrite app_nil_r. simpl. split_and!; [by destruct m|done|].
    intros i n Hi Hl. apply lookup_lt_Some in Hl. lia.
  - destruct (add_ok w m Hw) as (n&Hadd&Hjoin&Hg). simpl. rewrite Hadd. simpl.
    destruct (IH (mkTestManager (tm_nodes m ++ [n]) (tm_stopped m))) as (added&Hr&Hlen&Hj). simpl in *.
    exists (n :: added). rewrite Hr, <-app_assoc in *. simpl in *. split_and!; [done|lia|].
    intros i n' Hi Hl. destruct (decide (i = length (tm_nodes m))) as [->|Hne].
    + rewrite lookup_app_r, Nat.sub_diag in Hl by lia. injection Hl as <-. by rewrite take_app_length.
    + apply Hj; [|done]. rewrite length_app. simpl. lia.
Qed.

Lemma remove_nodes_ok n m :
  n ≤ length (tm_nodes m) →
  remove_nodes n m = Some (mkTestManager (drop n (tm_nodes m)) (tm_stopped m ++ take n (tm_nodes m))).
Proof.
  revert m. induction n as [|n IH]; intros [nodes stopped] Hn; simpl in *; [by rewrite app_nil_r|].
  destruct nodes as [|n0 nodes]; simpl in *; [lia|]. rewrite IH by (simpl; lia). simpl. by rewrite <-app_assoc.
Qed.

Lemma remove_nodes_panics n m : length (tm_nodes m) < n → remove_nodes n m = None.
Proof.
  revert m. induction n as [|n IH]; intros [nodes stopped] Hn; simpl in *; [lia|].
  destruct nodes as [|n0 nodes]; simpl in *; [done|]. apply IH. simpl. lia.
Qed.

End lemmas.

(** ** Properties *)

(** The manager keeps the number of nodes it is told to, oldest out first:
    in worlds where nodes start, [Update] with a number that is not negative
    leaves exactly that many running; the nodes ever started, in their order,
    are those that were stopped followed by those that run, so it stops the
    oldest and never more than needed; and every node it adds joined the
    gossip addresses of all the nodes that ran before it.  A negative number,
    which [Validate] accepts, stops every node and panics. *)
Theorem manager_keeps_nodes `{TLSEnv} `{KeyLoader} `{MapIter} `{TestTLS} worlds c m :
  (∀ i, good_world (worlds i)) →
  if decide (ts_Nodes c < 0)%Z then Update worlds c m = None
  else ∃ m' added, Update worlds c m = Some m' ∧ Z.of_nat (length (tm_nodes m')) = ts_Nodes c ∧
    tm_stopped m' ++ tm_nodes m' = tm_stopped m ++ tm_nodes m ++ added ∧
    (added = [] ∨ tm_stopped m' = tm_stopped m) ∧ joined_from (length (tm_nodes m)) (tm_nodes m').
Proof.
  intros Hw. unfold Update. case_decide as Hneg.
  { rewrite decide_False, decide_True by lia. apply remove_nodes_panics. lia. }
  case_decide as Hlt; [|case_decide as Hgt].
  - destruct (add_nodes_ok (worlds <$> seq 0 (Z.to_nat (ts_Nodes c - Z.of_nat (length (tm_nodes m))))) m)
      as (added&Hr&Hlen&Hj).
    { apply Forall_fmap, Forall_forall. intros i _. apply Hw. }
    rewrite length_fmap, length_seq in Hlen. eexists _, added. split_and!; [exact Hr|simpl|done|by right|done].
    rewrite length_app. lia.
  - rewrite remove_nodes_ok by lia. eexists _, []. split_and!; [done|simpl..|].
    + rewrite length_drop. lia.
    + by rewrite app_nil_r, <-app_assoc, take_drop.
    + by left.
    + intros i n Hi Hl. apply lookup_lt_Some in Hl. simpl in Hl. rewrite length_drop in Hl. lia.
  - exists m, []. split_and!; [done|lia|by rewrite app_nil_r|by left|].
    intros i n Hi Hl. apply lookup_lt_Some in Hl. lia.
Qed.

(** [Close] stops every node. *)
Lemma manager_Close_all m : manager_Close m = Some (mkTestManager [] (tm_stopped m ++ tm_nodes m)).
Proof. unfold manager_Close. rewrite remove_nodes_ok by done. by rewrite drop_all, take_ge. Qed.

(** When [runCluster] returns no node runs. *)
Lemma runCluster_closes `{TLSEnv} `{KeyLoader} `{MapIter} `{TestTLS} Getenv Decode worlds hups s m :
  runCluster Getenv Decode worlds hups s = Some m → tm_nodes m = [].
Proof.
  unfold runCluster. destruct (Update _ _ _) as [m0|]; simpl; [|done].
  destruct (on_hups _ _ _ _) as [[s1 m1]|]; simpl; [|done]. rewrite manager_Close_all. by intros [= <-].
Qed.

(** The load balancer sends a request to a node of the cluster. *)
Lemma director_in_cluster addr r m :
  (0 ≤ r)%Z → tm_nodes m ≠ [] → ∃ n, n ∈ tm_nodes m ∧ director addr r m = Some (addr n).
Proof.
  intros Hr Hm. unfold director, manager_Nodes. rewrite length_fmap.
  assert (length (tm_nodes m) ≠ 0) by (by destruct (tm_nodes m)).
  rewrite decide_False by done.
  destruct (lookup_lt_is_Some_2 (tm_nodes m) (Z.to_nat (Z.rem r (Z.of_nat (length (tm_nodes m)))))) as [n Hn].
  { pose proof (Z.rem_bound_pos r (Z.of_nat (length (tm_nodes m)))). lia. }
  exists n. split; [by eapply list_elem_of_lookup_2|]. by rewrite list_lookup_fmap, Hn.
Qed.

(** *** The load balancer *)

(** Closed servers come first, and a server ends when it was closed. *)
Definition balancer_ok (lb : load_balancer) : Prop :=
  (∀ i b, lb_servers lb !! i = Some b →
    bs_closed b = match lb_closing lb with Some n => bool_decide (i < n) | None => false end ∧
    (bs_serving b = Served → bs_closed b = true)) ∧
  (∀ n, lb_closing lb = Some n → n ≤ length (lb_servers lb)) ∧
  (lb_returned lb = true → Forall (λ b, bs_serving b = Served) (lb_servers lb)).

Lemma balancer_server_ok lb i b b' :
  balancer_ok lb → lb_servers lb !! i = Some b → bs_closed b' = bs_closed b → (bs_serving b' = Served → bs_closed b' = true) →
  (bs_serving b = Served → bs_serving b' = Served) → balancer_ok (set_server i b' lb).
Proof.
  intros (Hs&Hn&Hr) Hi Hc Hd Hm. split_and!; simpl; [|by rewrite length_insert|].
  - intros j x. rewrite list_lookup_insert. case_decide as Hj; [|by apply Hs].
    destruct Hj as [-> _]. intros [= <-]. rewrite Hc in *. split; [apply (Hs j b Hi)|done].
  - intros Hret. specialize (Hr Hret). apply Forall_insert; [done|]. apply Hm. rewrite Forall_lookup in Hr. by eapply Hr.
Qed.

Lemma balancer_step_ok lb lb' : balancer_ok lb → balancer_step lb (Some lb') → balancer_ok lb'.
Proof.
  intros Hok Hst. inversion Hst as [? i c Hi|?|? i Hi|? Hcl|? i ph c Hcl Hi|? n Hcl Hlen Hret Hall]; subst; clear Hst.
  - by eapply (balancer_server_ok lb i).
  - by eapply (balancer_server_ok lb i).
  - destruct Hok as (Hs&Hn&Hr). split_and!; simpl; [|by intros n [= <-]; lia|done].
    intros i b Hi. destruct (Hs i b Hi) as [Hc Hd]. by rewrite Hcl in Hc.
  - destruct Hok as (Hs&Hn&Hr). pose proof (lookup_lt_Some _ _ _ Hi). split_and!; simpl.
    + intros j x. rewrite list_lookup_insert. case_decide as Hj.
      * destruct Hj as [-> _]. intros [= <-]. simpl. split; [|done]. by rewrite bool_decide_true by lia.
      * intros Hx. destruct (Hs j x Hx) as [Hc Hd]. split; [|done]. rewrite Hc, Hcl. apply bool_decide_ext.
        assert (i ≠ j) by (intros ->; apply Hj; split; [done|by eapply lookup_lt_Some]). lia.
    + intros n [= <-]. rewrite length_insert. lia.
    + intros Hret. specialize (Hr Hret). apply Forall_insert; [done|]. rewrite Forall_lookup in Hr. by apply (Hr i _ Hi).
  - destruct Hok as (Hs&Hn&_). split_and!; simpl; [by rewrite Hcl in Hs|by rewrite Hcl in Hn|done].
Qed.

Lemma balancer_reachable_ok lb : balancer_reachable lb → balancer_ok lb.
Proof.
  induction 1; [|by eapply balancer_step_ok]. split_and!; simpl; try done.
  intros i b Hi. by destruct i as [|[|[|i]]]; simplify_eq/=.
Qed.

(** Closing the load balancer ends: in every reachable state that [Close] was
    called in, unless it returned, with every server ended, a goroutine has a
    step left that does not panic. *)
Lemma balancer_close_ends lb :
  balancer_reachable lb → lb_closing lb ≠ None →
  (lb_returned lb = true ∧ Forall (λ b, bs_serving b = Served) (lb_servers lb)) ∨ ∃ lb', balancer_step lb (Some lb').
Proof.
  intros (Hs&Hn&Hr)%balancer_reachable_ok Hcl. destruct (lb_closing lb) as [n|] eqn:Hc; [clear Hcl|done].
  destruct (lb_returned lb) eqn:Hret; [left; auto|right].
  destruct (decide (n < length (lb_servers lb))) as [Hlt|Hge].
  { destruct (lookup_lt_is_Some_2 _ _ Hlt) as [[ph c] Hi]. eexists. by eapply lb_close_server. }
  pose proof (Hn n eq_refl). destruct (decide (Forall (λ b, bs_serving b = Served) (lb_servers lb))) as [Hall|Hex].
  { eexists. eapply lb_wait; [done|lia|done|done]. }
  apply not_Forall_Exists, Exists_exists in Hex as ([ph c]&[i Hi]%list_elem_of_lookup&Hb); [|apply _]. simpl in Hb.
  destruct (Hs i _ Hi) as [Hcl _]. simpl in Hcl. pose proof (lookup_lt_Some _ _ _ Hi).
  rewrite bool_decide_true in Hcl by lia. subst c. destruct ph; [| |done]; eexists; [by eapply lb_listen|by eapply lb_served].
Qed.

(** ** Witnesses *)

(** The [i]-th node listens on a port of its own. *)
Definition ex_world (i : nat) : node_world :=
  mkWorld {| Listen _ := inr ("127.0.0.1:" +:+ Itoa (9000 + Z.of_nat i))%string; GetPrivateIP := inr "10.0.0.1"%string |}
    (λ _, None) (Some ("n" +:+ Itoa (Z.of_nat i))%string) [] None.

Lemma ex_world_good i : (Z.of_nat i < 1000)%Z → good_world (ex_world i).
Proof.
  intros Hi. constructor; [done| |done..]. exists (Itoa (9000 + Z.of_nat i)). split; [done|]. intros c Hc.
  eapply Atoi_only; [..|apply Atoi_Itoa; unfold is_i64; lia]; try by destruct Hc as [-> |[-> | ->]].
  by destruct Hc as [-> |[-> | ->]]; apply (bool_decide_eq_false_1 _).
Qed.

(** The worlds of ten nodes, and the same again. *)
Definition ex_worlds (i : nat) : node_world := ex_world (i mod 10).

#[local] Instance ex_test_tls : TestTLS := {| LocalTLSServerCert := None |}.
#[local] Instance ex_tls_env : TLSEnv := {|
  LoadX509KeyPair cert key := inl "no such file"%string;
  os_ReadFile path := inl "no such file"%string;
  AppendCertsFromPEM pem := false;
|}.
#[local] Existing Instance Auth.ex_loader.
#[local] Existing Instance canonical_iter.

(** Three nodes, and then one. *)
Lemma manager_keeps_nodes_witness :
  ∃ m m', Update ex_worlds test_Default NewManager = Some m ∧ length (tm_nodes m) = 3 ∧
    Update ex_worlds (mkTestConfig 1 (mkLogConfig "info" [])) m = Some m' ∧ tm_nodes m' = drop 2 (tm_nodes m).
Proof.
  assert (∀ i, good_world (ex_worlds i)) as Hw.
  { intros i. apply ex_world_good. pose proof (Nat.mod_upper_bound i 10). lia. }
  pose proof (manager_keeps_nodes ex_worlds test_Default NewManager Hw) as H1.
  destruct H1 as (m&added&Hu&Hlen&_). simpl in Hlen.
  pose proof (manager_keeps_nodes ex_worlds (mkTestConfig 1 (mkLogConfig "info" [])) m Hw) as H2.
  destruct H2 as (m'&added'&Hu'&Hlen'&Hq&Hor&_). simpl in Hlen'.
  exists m, m'. split_and!; [exact Hu|lia|exact Hu'|].
  unfold Update in Hu'. simpl in Hu'. rewrite decide_False, decide_True in Hu' by lia.
  rewrite remove_nodes_ok in Hu' by lia. injection Hu' as <-. simpl. f_equal. lia.
Defined.
