(* ===== verification/NodeRun.v ===== *)
(** * server/server.go and cli/server/command.go: the goroutines of a node

    A node runs its admin, upstream and proxy servers and its rebalancing in
    goroutines of their own, while the main goroutine starts the node, waits and
    shuts it down.  Here are the interleavings of those goroutines with the
    failures of the listeners and the signals that stop the process: the fatal
    channel, the shutdown flag and the wait group.

    The actions of the main goroutine are those of [ServerNode.Start] and
    [ServerNode.Shutdown].  A step of the node is one access to what the
    goroutines share; what the servers serve is modelled elsewhere, and a call
    of [Shutdown] of an HTTP server is one step, as it returns at the latest
    when the grace period is over. *)

From stdpp Require Import functions.
From S2P Require Import Prelude GoLib FloatLib NetLib GossipNode Cluster Upstream Auth UpstreamServer Client ConfigLib Logging ServerConfig ServerNode.

(** ** The state *)

(** The functions [Start] gives to [runGoroutine]. *)
Inductive goroutine := GAdmin | GUpstream | GRebalance | GProxy.

#[global] Instance goroutine_eq_dec : EqDecision goroutine.
Proof. solve_decision. Defined.

Definition goroutines : list goroutine := [GAdmin; GUpstream; GRebalance; GProxy].

(** Where a goroutine of [runGoroutine] is: not started, in the function,
    returned from it, about to run [fatalOnce.Do], and ended. *)
Inductive stage := NotStarted | Serving | Returned | Fatal | Ended.

#[global] Instance progress_eq_dec : EqDecision stage.
Proof. solve_decision. Defined.

(** The main goroutine: it starts the node, waits, has been woken, shuts down
    and has returned.  The results are those of [Wait], none when [Shutdown] was
    called without it. *)
Inductive main :=
  | Starting (l : list action) (err : option error)
  | StartFailed (err : error)
  | Waiting
  | Woken (ok : option bool)
  | Stopping (ok : option bool) (l : list action)
  | Stopped (ok : option bool).

(** [type Server], what its goroutines share.  [nr_closed] is whether the
    server has been shut down, and for the rebalancing whether its context has
    been cancelled; [nr_fatalCh] counts the closes of the channel;
    [nr_signalled] is whether the context of [Wait] is done; and [nr_failed]
    records the servers that failed before the shutdown. *)
Record node_run := mkRun {
  nr_main : main;
  nr_at : goroutine → stage;
  nr_closed : goroutine → bool;
  nr_failed : goroutine → bool;
  nr_wg : nat;
  nr_shutdown : bool;
  nr_fatalOnce : bool;
  nr_fatalCh : nat;
  nr_signalled : bool;
}.

Definition set_main (m : main) (s : node_run) : node_run :=
  mkRun m (nr_at s) (nr_closed s) (nr_failed s) (nr_wg s) (nr_shutdown s) (nr_fatalOnce s) (nr_fatalCh s) (nr_signalled s).

Definition set_at (g : goroutine) (p : stage) (s : node_run) : node_run :=
  mkRun (nr_main s) (<[g:=p]> (nr_at s)) (nr_closed s) (nr_failed s) (nr_wg s) (nr_shutdown s) (nr_fatalOnce s)
    (nr_fatalCh s) (nr_signalled s).

Definition set_wg (n : nat) (s : node_run) : node_run :=
  mkRun (nr_main s) (nr_at s) (nr_closed s) (nr_failed s) n (nr_shutdown s) (nr_fatalOnce s) (nr_fatalCh s) (nr_signalled s).

Definition set_closed (g : goroutine) (s : node_run) : node_run :=
  mkRun (nr_main s) (nr_at s) (<[g:=true]> (nr_closed s)) (nr_failed s) (nr_wg s) (nr_shutdown s) (nr_fatalOnce s)
    (nr_fatalCh s) (nr_signalled s).

(** ** The operations *)

(** [runGoroutine]: count the goroutine and start it. *)
Definition runGoroutine (g : goroutine) (s : node_run) : node_run := set_at g Serving (set_wg (S (nr_wg s)) s).

(** [s.wg.Done()], the last a goroutine does. *)
Definition wg_Done (g : goroutine) (s : node_run) : node_run := set_at g Ended (set_wg (nr_wg s - 1) s).

(** The function has returned: [if !s.shutdown.Load()]. *)
Definition load_shutdown (g : goroutine) (s : node_run) : node_run :=
  if nr_shutdown s then wg_Done g s else set_at g Fatal s.

(** [s.fatalOnce.Do(func() { close(s.fatalCh) })] *)
Definition fatal (s : node_run) : node_run :=
  if nr_fatalOnce s then s else
  mkRun (nr_main s) (nr_at s) (nr_closed s) (nr_failed s) (nr_wg s) (nr_shutdown s) true (S (nr_fatalCh s)) (nr_signalled s).

(** The goroutine an action of the main goroutine runs. *)
Definition runs (a : action) : option goroutine :=
  match a with
  | ServeAdmin => Some GAdmin
  | ServeUpstream => Some GUpstream
  | RunRebalance => Some GRebalance
  | ServeProxy => Some GProxy
  | _ => None
  end.

(** The goroutine an action of the main goroutine asks to end: after
    [Shutdown] of an HTTP server its [Serve] returns, also when it is called
    later. *)
Definition closes (a : action) : option goroutine :=
  match a with
  | ShutdownAdmin => Some GAdmin
  | ShutdownUpstream => Some GUpstream
  | CancelRebalance => Some GRebalance
  | ShutdownProxy => Some GProxy
  | _ => None
  end.

Definition perform (a : action) (s : node_run) : node_run :=
  match runs a, closes a with
  | Some g, _ => runGoroutine g s
  | None, Some g => set_closed g s
  | None, None => s
  end.

(** [s.wg.Wait()] waits until no goroutine is left. *)
Definition may_perform (a : action) (s : node_run) : bool :=
  match a with
  | WaitGoroutines => Nat.eqb (nr_wg s) 0
  | _ => true
  end.

(** [s.shutdown.CompareAndSwap(false, true)]; the shutdown goes on whatever the
    flag was. *)
Definition set_shutdown (s : node_run) : node_run :=
  mkRun (nr_main s) (nr_at s) (nr_closed s) (nr_failed s) (nr_wg s) true (nr_fatalOnce s) (nr_fatalCh s) (nr_signalled s).

(** ** The steps *)

(** A step of the node itself. *)
Inductive node_step (s : node_run) : node_run → Prop :=
  (* the main goroutine starts the node *)
  | step_start a l err :
      nr_main s = Starting (a :: l) err → node_step s (set_main (Starting l err) (perform a s))
  | step_started :
      nr_main s = Starting [] None → node_step s (set_main Waiting s)
  | step_start_failed err :
      nr_main s = Starting [] (Some err) → node_step s (set_main (StartFailed err) s)
  (* it waits: either case of the select may be taken when both are ready *)
  | step_wait_done :
      nr_main s = Waiting → nr_signalled s = true → node_step s (set_main (Woken (Some true)) s)
  | step_wait_fatal :
      nr_main s = Waiting → nr_fatalCh s ≠ 0 → node_step s (set_main (Woken (Some false)) s)
  (* it shuts down *)
  | step_shutdown ok :
      nr_main s = Woken ok → node_step s (set_main (Stopping ok Shutdown) (set_shutdown s))
  | step_stop ok a l :
      nr_main s = Stopping ok (a :: l) → may_perform a s = true →
      node_step s (set_main (Stopping ok l) (perform a s))
  | step_stopped ok :
      nr_main s = Stopping ok [] → node_step s (set_main (Stopped ok) s)
  (* a goroutine that was asked to end returns from its function *)
  | step_closed g :
      nr_at s g = Serving → nr_closed s g = true → node_step s (set_at g Returned s)
  (* and ends, with a fatal error before the shutdown *)
  | step_load g :
      nr_at s g = Returned → node_step s (load_shutdown g s)
  | step_fatal g :
      nr_at s g = Fatal → node_step s (wg_Done g (fatal s)).

(** What happens to the node: the listener of a server fails, the process is
    signalled, or whoever runs the node shuts it down without waiting. *)
Inductive event_step (s : node_run) : node_run → Prop :=
  | event_fails g :
      nr_at s g = Serving → g ≠ GRebalance →
      event_step s (mkRun (nr_main s) (<[g:=Returned]> (nr_at s)) (nr_closed s)
        (<[g:=nr_failed s g || negb (nr_shutdown s)]> (nr_failed s)) (nr_wg s) (nr_shutdown s) (nr_fatalOnce s)
        (nr_fatalCh s) (nr_signalled s))
  | event_signal :
      event_step s (mkRun (nr_main s) (nr_at s) (nr_closed s) (nr_failed s) (nr_wg s) (nr_shutdown s) (nr_fatalOnce s)
        (nr_fatalCh s) true)
  | event_stop :
      nr_main s = Waiting → event_step s (set_main (Woken None) s).

(** A node that [NewServer] returned and that is being started: see
    [ServerNode.Start]. *)
Definition new_run (start : list action * option error) : node_run :=
  mkRun (Starting start.1 start.2) (λ _, NotStarted) (λ _, false) (λ _, false) 0 false false 0 false.

Inductive run_reachable (start : list action * option error) : node_run → Prop :=
  | run_new : run_reachable start (new_run start)
  | run_step s s' : run_reachable start s → node_step s s' → run_reachable start s'
  | run_event s s' : run_reachable start s → event_step s s' → run_reachable start s'.

(** [runServer]: the exit status of the process once the node has returned. *)
Definition exit_status (m : main) : option Z :=
  match m with
  | StartFailed _ => Some 1%Z
  | Stopped (Some true) => Some 0%Z
  | Stopped (Some false) => Some 1%Z
  | _ => None
  end.

(** ** The steps end *)

Definition weight (p : stage) : nat :=
  match p with NotStarted => 4 | Serving => 3 | Returned => 2 | Fatal => 1 | Ended => 0 end.

(** What the main goroutine has left to do. *)
Definition main_left (m : main) : nat :=
  match m with
  | Starting l _ => length l + 14
  | StartFailed _ => 0
  | Waiting => 13
  | Woken _ => 12
  | Stopping _ l => length l + 1
  | Stopped _ => 0
  end.

(** Summing over the goroutines. *)
Definition total (f : stage → nat) (at_ : goroutine → stage) : nat :=
  f (at_ GAdmin) + f (at_ GUpstream) + f (at_ GRebalance) + f (at_ GProxy).

(** Starting a goroutine makes up to three steps of work, and is a step of the
    main goroutine, which counts for five. *)
Definition steps_left (s : node_run) : nat := 5 * main_left (nr_main s) + total weight (nr_at s).

Lemma total_insert f g p at_ : total f (<[g:=p]> at_) + f (at_ g) = total f at_ + f p.
Proof. unfold total. destruct g; rewrite fn_lookup_insert; rewrite !fn_lookup_insert_ne by done; lia. Qed.

Lemma perform_left a s :
  nr_main (perform a s) = nr_main s ∧ total weight (nr_at (perform a s)) ≤ total weight (nr_at s) + 3.
Proof.
  split; [by destruct a|].
  destruct a; simpl; try (unfold perform; simpl; lia).
  all: match goal with |- total weight (<[?g:=?p]> ?at_) ≤ _ =>
    pose proof (total_insert weight g p at_); cbn [weight] in *; lia end.
Qed.

Lemma node_step_left s s' : node_step s s' → steps_left s' < steps_left s.
Proof.
  unfold steps_left. destruct 1 as [a l err Hm|Hm|err Hm|Hm ?|Hm ?|ok Hm|ok a l Hm ?|ok Hm|g Hg ?|g Hg|g Hg].
  all: try (rewrite Hm; simpl; try (destruct (perform_left a s) as [_ ?]); lia).
  - simpl. pose proof (total_insert weight g Returned (nr_at s)) as Hi. rewrite Hg in Hi. cbn [weight] in Hi. lia.
  - unfold load_shutdown. destruct (nr_shutdown s); simpl.
    + pose proof (total_insert weight g Ended (nr_at s)) as Hi. rewrite Hg in Hi. cbn [weight] in Hi. lia.
    + pose proof (total_insert weight g Fatal (nr_at s)) as Hi. rewrite Hg in Hi. cbn [weight] in Hi. lia.
  - unfold fatal. destruct (nr_fatalOnce s); simpl.
    all: pose proof (total_insert weight g Ended (nr_at s)) as Hi; rewrite Hg in Hi; cbn [weight] in Hi; lia.
Qed.

Lemma node_steps_end s : Acc (λ s' s, node_step s s') s.
Proof.
  induction s as [s IH] using (induction_ltof1 _ steps_left). constructor. intros s' Hs.
  by apply IH, node_step_left.
Qed.

(** ** What holds in every state *)

(** A goroutine that the wait group counts. *)
Definition active (p : stage) : bool :=
  match p with Serving | Returned | Fatal => true | _ => false end.

Definition counted (p : stage) : nat := if active p then 1 else 0.

(** The shutdown has not begun. *)
Definition running (m : main) : bool :=
  match m with Starting _ _ | StartFailed _ | Waiting | Woken _ => true | _ => false end.

(** The goroutines the main goroutine has still to run, the list of the
    shutdown that is left, and the result that was decided. *)
Definition to_run (m : main) : list goroutine := match m with Starting l _ => omap runs l | _ => [] end.

Definition start_error (m : main) : option error :=
  match m with Starting _ err => err | StartFailed err => Some err | _ => None end.

Definition decided (m : main) : option bool :=
  match m with Woken ok | Stopping ok _ | Stopped ok => ok | _ => None end.

Definition stopping_ok (s : node_run) : Prop :=
  match nr_main s with
  | Stopping _ l =>
      l `suffix_of` Shutdown ∧ (∀ g, g ∈ omap closes l ∨ nr_closed s g = true) ∧ (WaitGoroutines ∈ l ∨ nr_wg s = 0)
  | Stopped _ => nr_wg s = 0
  | _ => True
  end.

Section invariant.
Context (start : list action * option error).
Context (Hruns : NoDup (omap runs start.1)) (Hcloses : omap closes start.1 = []).

Record run_inv (s : node_run) : Prop := {
  ri_to_run : to_run (nr_main s) `suffix_of` omap runs start.1;
  ri_not_started g : nr_at s g = NotStarted ↔ g ∈ to_run (nr_main s) ∨ g ∉ omap runs start.1;
  ri_error : start_error (nr_main s) = start.2;
  ri_open : ∀ l err, nr_main s = Starting l err → omap closes l = [];
  ri_stopping : stopping_ok s;
  ri_wg : nr_wg s = total counted (nr_at s);
  ri_shutdown : nr_shutdown s = negb (running (nr_main s));
  ri_once : nr_fatalCh s = if nr_fatalOnce s then 1 else 0;
  ri_closed g : nr_shutdown s = false → nr_closed s g = false;
  ri_returned g : nr_shutdown s = false → nr_at s g = Returned → nr_failed s g = true;
  ri_fatal g : nr_at s g = Fatal → nr_failed s g = true;
  ri_ended g : nr_shutdown s = false → nr_at s g = Ended → nr_fatalCh s ≠ 0;
  ri_failed g : nr_failed s g = true → nr_at s g ≠ NotStarted ∧ nr_at s g ≠ Serving ∧ g ≠ GRebalance;
  ri_fatalCh : nr_fatalCh s ≠ 0 → ∃ g, nr_failed s g = true;
  ri_true : decided (nr_main s) = Some true → nr_signalled s = true;
  ri_false : decided (nr_main s) = Some false → nr_fatalCh s ≠ 0;
}.

Lemma new_run_inv : run_inv (new_run start).
Proof using Hcloses.
  clear Hruns. constructor; simpl; try done.
  - intros g. split; [|done]. intros _. destruct (decide (g ∈ omap runs start.1)); auto.
  - by intros l err [= <- <-].
Qed.

(** A step of the main goroutine that runs no goroutine and closes none. *)
Lemma main_inv m s :
  to_run (nr_main s) = [] → to_run m = [] → start_error m = start_error (nr_main s) →
  running m = running (nr_main s) → (∀ l err, m ≠ Starting l err) → stopping_ok (set_main m s) →
  (decided m = Some true → nr_signalled s = true) → (decided m = Some false → nr_fatalCh s ≠ 0) →
  run_inv s → run_inv (set_main m s).
Proof using.
  intros Hr Hr' He Hrun Hns Hst Ht Hf []. constructor; simpl; try done.
  - rewrite Hr'. apply suffix_nil.
  - by rewrite Hr', <-Hr.
  - congruence.
  - intros l err Hm. by destruct (Hns l err).
  - by rewrite Hrun.
Qed.

(** Something goes on while a goroutine is counted. *)
Lemma active_counted g at_ : active (at_ g) = true → total counted at_ ≠ 0.
Proof using.
  intros Ha. unfold total. assert (counted (at_ g) = 1) as Hc by (unfold counted; by rewrite Ha).
  destruct g; rewrite Hc; lia.
Qed.

(** A step of a goroutine. *)
Lemma goroutine_inv g p w failed s :
  run_inv s → active (nr_at s g) = true → p ≠ NotStarted → p ≠ Serving →
  w + counted (nr_at s g) = nr_wg s + counted p →
  (∀ g', nr_failed s g' = true → failed g' = true) →
  (∀ g', failed g' = true → nr_failed s g' = true ∨ g' = g ∧ g ≠ GRebalance) →
  (nr_shutdown s = false → p = Returned → failed g = true) → (p = Fatal → failed g = true) →
  (nr_shutdown s = false → p = Ended → nr_fatalCh s ≠ 0) →
  run_inv (mkRun (nr_main s) (<[g:=p]> (nr_at s)) (nr_closed s) failed w (nr_shutdown s) (nr_fatalOnce s)
    (nr_fatalCh s) (nr_signalled s)).
Proof using.
  intros [] Ha Hn Hs Hw Hf Hf' Hret Hfat Hend.
  pose proof (active_counted g (nr_at s) Ha) as Hpos.
  constructor; simpl; try done.
  - intros g'. destruct (decide (g = g')) as [<-|Hne].
    + rewrite fn_lookup_insert. split; [done|]. intros Hg. apply ri_not_started0 in Hg. by rewrite Hg in Ha.
    + by rewrite fn_lookup_insert_ne.
  - unfold stopping_ok in *; simpl. destruct (nr_main s); try done; [|lia].
    destruct ri_stopping0 as (?&?&[?|?]); [by split_and!; [| |left]|lia].
  - pose proof (total_insert counted g p (nr_at s)). lia.
  - intros g' Hsd. destruct (decide (g = g')) as [<-|Hne]; [rewrite fn_lookup_insert; auto|].
    rewrite fn_lookup_insert_ne by done. auto.
  - intros g'. destruct (decide (g = g')) as [<-|Hne]; [rewrite fn_lookup_insert; auto|].
    rewrite fn_lookup_insert_ne by done. auto.
  - intros g' Hsd. destruct (decide (g = g')) as [<-|Hne]; [rewrite fn_lookup_insert; auto|].
    rewrite fn_lookup_insert_ne by done. eauto.
  - intros g' Hg. destruct (decide (g = g')) as [<-|Hne].
    + rewrite fn_lookup_insert. split_and!; [done..|]. destruct (Hf' _ Hg) as [Hg'|[_ ?]]; [|done].
      by apply ri_failed0 in Hg' as (_&_&?).
    + rewrite fn_lookup_insert_ne by done. destruct (Hf' _ Hg) as [Hg'|[-> _]]; [auto|done].
  - intros Hc. destruct (ri_fatalCh0 Hc) as [g' Hg]. exists g'. auto.
Qed.

Lemma fatal_inv g s : run_inv s → nr_at s g = Fatal → run_inv (fatal s) ∧ nr_fatalCh (fatal s) ≠ 0.
Proof using.
  intros Hinv Hg. unfold fatal. destruct (nr_fatalOnce s) eqn:Ho.
  { split; [done|]. rewrite (ri_once _ Hinv), Ho. done. }
  split; [|done]. destruct Hinv. constructor; simpl; try done.
  - by rewrite ri_once0, Ho.
  - intros _. exists g. auto.
Qed.

(** Starting the node. *)
Lemma starting_inv a l err s :
  run_inv s → nr_main s = Starting (a :: l) err → run_inv (set_main (Starting l err) (perform a s)).
Proof using Hruns.
  intros Hinv Hm. assert (closes a = None ∧ omap closes l = []) as [Hca Hcl].
  { pose proof (ri_open _ Hinv _ _ Hm) as Ho. simpl in Ho. by destruct (closes a). }
  destruct Hinv. unfold stopping_ok in *. rewrite Hm in *. simpl in *.
  destruct (runs a) as [g|] eqn:Hra.
  - assert (nr_at s g = NotStarted) as Hg by (apply ri_not_started0; left; left).
    assert (g ∉ omap runs l) as Hgl.
    { destruct ri_to_run0 as [k Hk]. rewrite Hk in Hruns. apply NoDup_app in Hruns as (_&_&Hnd).
      by apply NoDup_cons in Hnd as [? _]. }
    assert (g ∈ omap runs start.1) as Hgs.
    { destruct ri_to_run0 as [k ->]. apply elem_of_app. right. left. }
    unfold perform. rewrite Hra. constructor; simpl; try done.
    + by apply suffix_cons_l in ri_to_run0.
    + intros g'. destruct (decide (g = g')) as [<-|Hne].
      * rewrite fn_lookup_insert. split; [done|]. by intros [?|?].
      * rewrite fn_lookup_insert_ne by done. rewrite ri_not_started0, elem_of_cons. naive_solver.
    + intros l' err' [= <- <-]. done.
    + pose proof (total_insert counted g Serving (nr_at s)) as Ht. rewrite Hg in Ht. cbn [counted active] in Ht. lia.
    + intros g' Hsd. destruct (decide (g = g')) as [<-|Hne]; [by rewrite fn_lookup_insert|].
      rewrite fn_lookup_insert_ne by done. auto.
    + intros g'. destruct (decide (g = g')) as [<-|Hne]; [by rewrite fn_lookup_insert|].
      rewrite fn_lookup_insert_ne by done. auto.
    + intros g' Hsd. destruct (decide (g = g')) as [<-|Hne]; [by rewrite fn_lookup_insert|].
      rewrite fn_lookup_insert_ne by done. eauto.
    + intros g' Hf. destruct (ri_failed0 _ Hf) as (Hns&?&?). destruct (decide (g = g')) as [<-|Hne]; [done|].
      by rewrite fn_lookup_insert_ne.
  - unfold perform. rewrite Hra, Hca. constructor; simpl; try done.
    intros l' err' [= <- <-]. done.
Qed.

(** Shutting it down. *)
Lemma stop_inv ok a l s :
  run_inv s → nr_main s = Stopping ok (a :: l) → may_perform a s = true →
  run_inv (set_main (Stopping ok l) (perform a s)).
Proof using.
  intros Hinv Hm Hmay. destruct Hinv. unfold stopping_ok in *. rewrite Hm in *. simpl in *.
  destruct ri_stopping0 as (Hsuf&Hcl&Hw).
  assert (runs a = None) as Hra.
  { destruct Hsuf as [k Hk]. assert (a ∈ Shutdown) as Ha by (rewrite Hk; set_solver-).
    repeat (apply elem_of_cons in Ha as [-> |Ha]; [done|]). by apply elem_of_nil in Ha. }
  assert (WaitGoroutines ∈ l ∨ nr_wg s = 0) as Hw'.
  { destruct Hw as [[<- |?]%elem_of_cons|?]; auto. right. by apply Nat.eqb_eq. }
  assert (l `suffix_of` Shutdown) as Hsuf' by by apply suffix_cons_l in Hsuf.
  unfold perform. rewrite Hra. destruct (closes a) as [g|] eqn:Hca.
  - constructor; simpl; try done.
    + unfold stopping_ok. simpl. split_and!; [done| |done]. intros g'. destruct (decide (g = g')) as [<-|Hne].
      * right. by rewrite fn_lookup_insert.
      * rewrite fn_lookup_insert_ne by done. destruct (Hcl g') as [[-> |?]%elem_of_cons|?]; auto.
    + intros g' Hsd. by rewrite Hsd in ri_shutdown0.
  - by constructor.
Qed.

Lemma node_step_inv s s' : run_inv s → node_step s s' → run_inv s'.
Proof using Hruns.
  intros Hinv Hs. destruct Hs as [a l err Hm|Hm|err Hm|Hm Hsig|Hm Hch|ok Hm|ok a l Hm Hmay|ok Hm|g Hg Hcl|g Hg|g Hg].
  - by apply starting_inv.
  - apply main_inv; try done; rewrite ?Hm; done.
  - apply main_inv; try done; rewrite ?Hm; done.
  - apply main_inv; try done; rewrite ?Hm; done.
  - apply main_inv; try done; rewrite ?Hm; done.
  - destruct Hinv. rewrite Hm in *. constructor; simpl; try done.
    unfold stopping_ok; simpl. split_and!; [done| |left; repeat constructor].
    intros []; left; repeat constructor.
  - by apply stop_inv.
  - destruct Hinv. unfold stopping_ok in *. rewrite Hm in *. constructor; simpl; try done.
    by destruct ri_stopping0 as (_&_&[?%elem_of_nil|?]).
  - apply (goroutine_inv g Returned (nr_wg s) (nr_failed s) s); rewrite ?Hg; try done; auto.
    intros Hsd. pose proof (ri_closed _ Hinv g Hsd). congruence.
  - pose proof (ri_wg _ Hinv) as Hw. pose proof (active_counted g (nr_at s)) as Hpos. rewrite Hg in Hpos.
    specialize (Hpos eq_refl). unfold load_shutdown. destruct (nr_shutdown s) eqn:Hsd.
    + apply (goroutine_inv g Ended (nr_wg s - 1) (nr_failed s) s); rewrite ?Hg; try done; auto.
      * unfold counted. simpl. lia.
      * congruence.
    + apply (goroutine_inv g Fatal (nr_wg s) (nr_failed s) s); rewrite ?Hg; try done; auto. intros _. by apply (ri_returned _ Hinv).
  - destruct (fatal_inv g s Hinv Hg) as [Hf Hch].
    assert (nr_at (fatal s) g = Fatal) as Hg' by (unfold fatal; by destruct (nr_fatalOnce s)).
    pose proof (ri_wg _ Hf) as Hw. pose proof (active_counted g (nr_at (fatal s))) as Hpos. rewrite Hg' in Hpos.
    specialize (Hpos eq_refl).
    apply (goroutine_inv g Ended (nr_wg (fatal s) - 1) (nr_failed (fatal s)) (fatal s)); rewrite ?Hg'; try done; auto.
    unfold counted. simpl. lia.
Qed.

Lemma event_step_inv s s' : run_inv s → event_step s s' → run_inv s'.
Proof using.
  intros Hinv [g Hg Hne| |Hm].
  - apply goroutine_inv; rewrite ?Hg; try done.
    + intros g' Hf. destruct (decide (g = g')) as [<-|?]; [by rewrite fn_lookup_insert, Hf|by rewrite fn_lookup_insert_ne].
    + intros g' Hf. destruct (decide (g = g')) as [<-|?]; [by right|left; by rewrite fn_lookup_insert_ne in Hf].
    + intros -> _. rewrite fn_lookup_insert. apply orb_true_r.
  - destruct Hinv. by constructor.
  - apply main_inv; try done; rewrite ?Hm; done.
Qed.

Lemma run_reachable_inv s : run_reachable start s → run_inv s.
Proof using Hruns Hcloses.
  induction 1; eauto using new_run_inv, node_step_inv, event_step_inv.
Qed.

(** A node that takes no step of its own has failed to start, has stopped with
    all its goroutines, or waits while everything it started serves. *)
Lemma stuck_ended s :
  run_inv s → (∀ s', ¬ node_step s s') →
  match nr_main s with
  | StartFailed err => start.2 = Some err
  | Stopped _ => ∀ g, active (nr_at s g) = false
  | Waiting => nr_signalled s = false ∧ nr_fatalCh s = 0 ∧
      ∀ g, nr_at s g = Serving ↔ g ∈ omap runs start.1
  | _ => False
  end.
Proof using.
  intros Hinv Hst.
  assert (∀ g, active (nr_at s g) = true → nr_at s g = Serving ∧ nr_closed s g = false) as Hact.
  { intros g Ha. destruct (nr_at s g) eqn:Hg; try done.
    - split; [done|]. destruct (nr_closed s g) eqn:Hc; [|done]. destruct (Hst _ (step_closed s g Hg Hc)).
    - destruct (Hst _ (step_load s g Hg)).
    - destruct (Hst _ (step_fatal s g Hg)). }
  destruct (nr_main s) as [[|a l] err|err| |ok|ok [|a l]|ok] eqn:Hm.
  - destruct err as [err|]; [destruct (Hst _ (step_start_failed s err Hm))|destruct (Hst _ (step_started s Hm))].
  - destruct (Hst _ (step_start s a l err Hm)).
  - by rewrite <-(ri_error _ Hinv), Hm.
  - destruct (nr_signalled s) eqn:Hsig; [destruct (Hst _ (step_wait_done s Hm Hsig))|].
    destruct (decide (nr_fatalCh s = 0)) as [Hch|Hch]; [|destruct (Hst _ (step_wait_fatal s Hm Hch))].
    split_and!; [done..|]. intros g. pose proof (ri_shutdown _ Hinv) as Hsd. rewrite Hm in Hsd. simpl in Hsd.
    pose proof (ri_not_started _ Hinv g) as Hns. rewrite Hm in Hns. simpl in Hns. split.
    + intros Hg. destruct (decide (g ∈ omap runs start.1)); [done|]. rewrite Hg in Hns. destruct Hns as [_ Hns].
      by specialize (Hns (or_intror n)).
    + intros Hin. destruct (nr_at s g) eqn:Hg; [|done|..].
      * destruct Hns as [Hns _]. destruct (Hns eq_refl) as [?%elem_of_nil|?]; done.
      * by destruct (Hact g) as [? _]; [rewrite Hg|congruence].
      * by destruct (Hact g) as [? _]; [rewrite Hg|congruence].
      * by destruct (ri_ended _ Hinv g Hsd Hg).
  - destruct (Hst _ (step_shutdown s ok Hm)).
  - destruct (Hst _ (step_stopped s ok Hm)).
  - destruct (may_perform a s) eqn:Hmay; [destruct (Hst _ (step_stop s ok a l Hm Hmay))|].
    destruct a; try done. simpl in Hmay. apply Nat.eqb_neq in Hmay. apply Hmay. rewrite (ri_wg _ Hinv).
    pose proof (ri_stopping _ Hinv) as Hs. unfold stopping_ok in Hs. rewrite Hm in Hs. destruct Hs as ([k Hk]&Hcl&_).
    assert (l = []) as ->.
    { do 8 (destruct k as [|? k]; [done|injection Hk as _ Hk]). destruct k as [|? k]; [by injection Hk|].
      injection Hk as _ Hk. by destruct k. }
    assert (∀ g, active (nr_at s g) = false) as Hall.
    { intros g. destruct (active (nr_at s g)) eqn:Ha; [|done]. destruct (Hact g Ha) as [_ Hc].
      destruct (Hcl g) as [?%elem_of_nil|?]; [done|congruence]. }
    unfold total, counted. by rewrite !Hall.
  - pose proof (ri_stopping _ Hinv) as Hs. unfold stopping_ok in Hs. rewrite Hm in Hs. rewrite (ri_wg _ Hinv) in Hs.
    intros g. destruct (active (nr_at s g)) eqn:Ha; [|done]. by destruct (active_counted g _ Ha).
Qed.
End invariant.

(** ** The node that [Start] starts *)

Lemma Start_runs conf gossip boot startup : NoDup (omap runs (Start conf gossip boot startup).1).
Proof.
  unfold Start. destruct gossip; [|destruct (feq _ _), (decide (length boot = 0))].
  all: by apply (bool_decide_unpack (NoDup _)).
Qed.

Lemma Start_closes conf gossip boot startup : omap closes (Start conf gossip boot startup).1 = [].
Proof. unfold Start. destruct gossip; [done|]. by destruct (feq _ _), (decide (length boot = 0)). Qed.

(** One way for a node to go on: its goroutines first. *)
Definition goroutine_next (s : node_run) (g : goroutine) : option node_run :=
  match nr_at s g with
  | Serving => if nr_closed s g then Some (set_at g Returned s) else None
  | Returned => Some (load_shutdown g s)
  | Fatal => Some (wg_Done g (fatal s))
  | _ => None
  end.

Definition main_next (s : node_run) : option node_run :=
  match nr_main s with
  | Starting (a :: l) err => Some (set_main (Starting l err) (perform a s))
  | Starting [] None => Some (set_main Waiting s)
  | Starting [] (Some err) => Some (set_main (StartFailed err) s)
  | Waiting =>
      if nr_signalled s then Some (set_main (Woken (Some true)) s)
      else if Nat.eqb (nr_fatalCh s) 0 then None else Some (set_main (Woken (Some false)) s)
  | Woken ok => Some (set_main (Stopping ok Shutdown) (set_shutdown s))
  | Stopping ok (a :: l) => if may_perform a s then Some (set_main (Stopping ok l) (perform a s)) else None
  | Stopping ok [] => Some (set_main (Stopped ok) s)
  | _ => None
  end.

Definition next (s : node_run) : option node_run :=
  match omap (goroutine_next s) goroutines with
  | s' :: _ => Some s'
  | [] => main_next s
  end.

Fixpoint run_on (n : nat) (s : node_run) : node_run :=
  match n with
  | O => s
  | S n' => match next s with Some s' => run_on n' s' | None => s end
  end.

Lemma next_step s s' : next s = Some s' → node_step s s'.
Proof.
  unfold next. destruct (omap _ _) as [|s0 l] eqn:Ho.
  - intros Hm. unfold main_next in Hm. destruct (nr_main s) as [[|a l] [err|]|err| |ok|ok [|a l]|ok] eqn:Hmain; try done.
    all: try (injection Hm as <-; by constructor).
    + destruct (nr_signalled s) eqn:?; [injection Hm as <-; by constructor|].
      destruct (Nat.eqb _ _) eqn:Hch; [done|]. injection Hm as <-. apply Nat.eqb_neq in Hch. by constructor.
    + destruct (may_perform a s) eqn:?; [|done]. injection Hm as <-. by constructor.
  - intros [= ->]. assert (s' ∈ omap (goroutine_next s) goroutines) as Hin by (rewrite Ho; left).
    apply list_elem_of_omap in Hin as (g&_&Hg). unfold goroutine_next in Hg.
    destruct (nr_at s g) eqn:Hat; try done; try (injection Hg as <-; by constructor).
    destruct (nr_closed s g) eqn:?; [|done]. injection Hg as <-. by constructor.
Qed.

Lemma run_on_reachable start n s : run_reachable start s → run_reachable start (run_on n s).
Proof.
  revert s. induction n as [|n IH]; intros s Hs; simpl; [done|].
  destruct (next s) as [s'|] eqn:Hn; [|done]. apply IH. eapply run_step; [done|by apply next_step].
Qed.

(** ** Properties *)

(** C17. A node does not hang: whatever its goroutines do and however its
    listeners fail and the process is signalled, the node's own steps run out.
    Then the start has failed with its error; or the node has been shut down and
    every goroutine has ended, so that the wait for them returned; or it waits,
    and then no signal came, no fatal error was reported, and exactly the servers
    it started still serve.  So a node of which a server failed never goes on
    waiting. *)
Theorem node_stops conf gossip boot startup s :
  let start := Start conf gossip boot startup in
  run_reachable start s →
  Acc (λ s' s, node_step s s') s ∧
  ((∀ s', ¬ node_step s s') →
    match nr_main s with
    | StartFailed err => start.2 = Some err
    | Stopped _ => ∀ g, active (nr_at s g) = false
    | Waiting => nr_signalled s = false ∧ nr_fatalCh s = 0 ∧ ∀ g, nr_at s g = Serving ↔ g ∈ omap runs start.1
    | _ => False
    end).
Proof.
  intros start Hs. split; [apply node_steps_end|]. apply stuck_ended.
  apply run_reachable_inv; [apply Start_runs|apply Start_closes|done].
Qed.

(** C18. The process ends for a reason: in every state that the goroutines, the
    failures and the signals reach, the fatal channel has been closed at most
    once, so that closing it never panics; the exit status is 0 only when the
    process was signalled, and 1 only when the start failed with an error or a
    server failed before the shutdown; a node that was shut down has no
    goroutine left; and until its shutdown begins no server is asked to end. *)
Theorem exit_reason conf gossip boot startup s :
  let start := Start conf gossip boot startup in
  run_reachable start s →
  nr_fatalCh s ≤ 1 ∧
  (exit_status (nr_main s) = Some 0%Z → nr_signalled s = true) ∧
  (exit_status (nr_main s) = Some 1%Z → start.2 ≠ None ∨ ∃ g, g ≠ GRebalance ∧ nr_failed s g = true) ∧
  (∀ ok, nr_main s = Stopped ok → ∀ g, active (nr_at s g) = false) ∧
  (nr_shutdown s = false → ∀ g, nr_closed s g = false).
Proof.
  intros start Hs. assert (run_inv start s) as Hinv.
  { apply run_reachable_inv; [apply Start_runs|apply Start_closes|done]. }
  split_and!.
  - rewrite (ri_once _ _ Hinv). destruct (nr_fatalOnce s); lia.
  - intros He. apply (ri_true _ _ Hinv). by destruct (nr_main s) as [| | | | |[[]|]].
  - intros He. destruct (nr_main s) as [|err| | | |[[]|]] eqn:Hm; try done.
    + left. by rewrite <-(ri_error _ _ Hinv), Hm.
    + right. destruct (ri_fatalCh _ _ Hinv) as [g Hg].
      { apply (ri_false _ _ Hinv). by rewrite Hm. }
      exists g. split; [|done]. by apply (ri_failed _ _ Hinv) in Hg as (_&_&?).
  - intros ok Hm g. pose proof (ri_stopping _ _ Hinv) as Hst. unfold stopping_ok in Hst. rewrite Hm in Hst.
    rewrite (ri_wg _ _ Hinv) in Hst. destruct (active (nr_at s g)) eqn:Ha; [|done]. by destruct (active_counted g _ Ha).
  - intros Hsd g. by apply (ri_closed _ _ Hinv).
Qed.

(** ** Witnesses *)

(** A node that joined n2, whose proxy listener then failed. *)
Definition ex_start : list action * option error := Start ServerConfig.Default None ["n2"%string] None.

Definition ex_waiting : node_run := run_on 20 (new_run ex_start).

Definition ex_failed : node_run :=
  mkRun (nr_main ex_waiting) (<[GProxy:=Returned]> (nr_at ex_waiting)) (nr_closed ex_waiting)
    (<[GProxy:=true]> (nr_failed ex_waiting)) (nr_wg ex_waiting) false false 0 false.

Lemma ex_failed_reachable : run_reachable ex_start ex_failed.
Proof.
  apply (run_event _ ex_waiting); [apply run_on_reachable; constructor|].
  apply (event_fails ex_waiting GProxy); [by vm_compute|done].
Qed.

Lemma node_stops_witness :
  Acc (λ s' s, node_step s s') ex_failed ∧ exit_status (nr_main (run_on 40 ex_failed)) = Some 1%Z.
Proof.
  destruct (node_stops ServerConfig.Default None ["n2"%string] None ex_failed ex_failed_reachable) as [Hacc _].
  split; [exact Hacc|]. by vm_compute.
Defined.

Lemma exit_reason_witness :
  nr_main (run_on 40 ex_failed) = Stopped (Some false) ∧ ∃ g, g ≠ GRebalance ∧ nr_failed (run_on 40 ex_failed) g = true.
Proof.
  assert (nr_main (run_on 40 ex_failed) = Stopped (Some false)) as Hm by by vm_compute.
  destruct (exit_reason ServerConfig.Default None ["n2"%string] None (run_on 40 ex_failed)) as (_&_&Hr&_).
  { apply run_on_reachable, ex_failed_reachable. }
  split; [exact Hm|]. rewrite Hm in Hr. destruct (Hr eq_refl) as [Hs|Hg]; [|exact Hg]. exfalso. apply Hs. by vm_compute.
Defined.
