(* ===== verification/Tunnel.v ===== *)
(** * Carrying connections: agent/tcpproxy, client/forwarder.go, forward/forwarder.go
      and the tunnel of server/proxy/tcpproxy.go

    Four functions join two connections with a pair of goroutines, each of
    which runs [io.Copy] and then closes the connection it writes to.  The two
    connections, what their peers send, and the progress of the goroutines are
    the state [tunnel]; [tunnel_act] is one step of a goroutine or of the outside.
    A connection closes as a whole or, when it is a stream of yamux, only
    halfway ([c_half]): what it received can still be read.  The
    server of the agent tracks the connections it serves in the step relation
    [tcp_step].  [golang.org/x/sync/errgroup] is the class [Errgroup]. *)

From Stdlib Require Import Strings.Byte.
From S2P Require Import Prelude GoLib Protocol Transport ConfigLib AgentConfig Commands.

(** ** Two connections and the goroutines between them *)

Inductive side := Down | Up.

#[export] Instance side_eq_dec : EqDecision side.
Proof. solve_decision. Defined.

Definition other (s : side) : side := match s with Down => Up | Up => Down end.

(** A connection: what its peer has sent, how much of that was read, whether
    the peer sent its last byte, whether the connection failed, whether the
    program closed it, what was written to it, and whether [Close] closes it
    only halfway: a stream of yamux is closed for writing, and what was received
    can still be read, until a read finds nothing. *)
Record conn := mkConn {
  c_sent : bytes;
  c_read : nat;
  c_eof : bool;
  c_broken : bool;
  c_closed : bool;
  c_written : bytes;
  c_half : bool;
}.

(** A goroutine [io.Copy(dst, src)] with the deferred [Close]. *)
Record copy := mkCopy {
  cp_dst : side;
  cp_src : side;
  cp_close : side;
}.

Inductive copy_end := AtEOF | ReadFailed | WriteFailed.

#[export] Instance copy_end_eq_dec : EqDecision copy_end.
Proof. solve_decision. Defined.

Inductive progress :=
  | Reading
  | Writing (buf : bytes)
  | Ended (e : copy_end).

Record tunnel := mkTunnel {
  t_down : conn;
  t_up : conn;
  t_copies : list (copy * progress);
}.

(** [forward] of agent/tcpproxy. *)
Definition agent_forward : list copy := [mkCopy Down Up Down; mkCopy Up Down Up].

(** [forward] of client/forwarder.go. *)
Definition forwarder_forward : list copy := [mkCopy Down Up Down; mkCopy Up Down Up].

(** [forwardConn] of forward/forwarder.go. *)
Definition forwardConn_copies : list copy := [mkCopy Down Up Down; mkCopy Up Down Up].

(** [TCPProxy.forward] of server/proxy/tcpproxy.go. *)
Definition TCPProxy_forward : list copy := [mkCopy Up Down Up; mkCopy Down Up Down].

Definition forwards : list (list copy) := [agent_forward; forwarder_forward; forwardConn_copies; TCPProxy_forward].

Definition t_conn (t : tunnel) (s : side) : conn := match s with Down => t_down t | Up => t_up t end.

Definition set_conn (s : side) (c : conn) (t : tunnel) : tunnel :=
  match s with
  | Down => mkTunnel c (t_up t) (t_copies t)
  | Up => mkTunnel (t_down t) c (t_copies t)
  end.

Definition set_progress (i : nat) (p : progress) (t : tunnel) : tunnel :=
  mkTunnel (t_down t) (t_up t) (alter (λ x, (x.1, p)) i (t_copies t)).

Definition c_unread (c : conn) : bytes := drop (c_read c) (c_sent c).

Definition c_send (b : bytes) (c : conn) : conn :=
  mkConn (c_sent c ++ b) (c_read c) (c_eof c) (c_broken c) (c_closed c) (c_written c) (c_half c).
Definition c_finish (c : conn) : conn :=
  mkConn (c_sent c) (c_read c) true (c_broken c) (c_closed c) (c_written c) (c_half c).
Definition c_break (c : conn) : conn :=
  mkConn (c_sent c) (c_read c) (c_eof c) true (c_closed c) (c_written c) (c_half c).
Definition c_close (c : conn) : conn :=
  mkConn (c_sent c) (c_read c) (c_eof c) (c_broken c) true (c_written c) (c_half c).
Definition c_advance (n : nat) (c : conn) : conn :=
  mkConn (c_sent c) (c_read c + n) (c_eof c) (c_broken c) (c_closed c) (c_written c) (c_half c).
Definition c_write (b : bytes) (c : conn) : conn :=
  mkConn (c_sent c) (c_read c) (c_eof c) (c_broken c) (c_closed c) (c_written c ++ b) (c_half c).

Definition update_conn (s : side) (f : conn → conn) (t : tunnel) : tunnel := set_conn s (f (t_conn t s)) t.

(** The buffer of [io.Copy]. *)
Definition copyBufferSize : Z := 32 * 1024.

(** What may happen to a tunnel: the peers send, finish or fail; something else
    closes a connection; the goroutine [i] reads [n] bytes, sees the end of its
    source, writes what it holds, or fails to after [n] bytes of it. *)
Inductive action :=
  | PeerSend (s : side) (b : bytes)
  | PeerEOF (s : side)
  | Break (s : side)
  | CloseConn (s : side)
  | CopyRead (i n : nat)
  | CopyReadEnd (i : nat) (e : copy_end)
  | CopyWrite (i : nat)
  | CopyWriteFail (i n : nat).

(** Data can be read. *)
Definition readable (c : conn) : bool := negb (c_closed c) || c_half c.

(** The error, or the end, a read of the connection may return: the end of what
    the peer sent, the failure of the connection, or the connection having been
    closed here, which a stream reports as its end once its buffer is empty. *)
Definition read_ends (c : conn) (e : copy_end) : bool :=
  match e with
  | AtEOF => readable c && c_eof c && bool_decide (c_unread c = [])
  | ReadFailed => c_broken c || c_closed c && (negb (c_half c) || bool_decide (c_unread c = []))
  | WriteFailed => false
  end.

(** The goroutine returns: its deferred [Close] runs. *)
Definition finish_copy (i : nat) (c : copy) (e : copy_end) (t : tunnel) : tunnel :=
  update_conn (cp_close c) c_close (set_progress i (Ended e) t).

Definition tunnel_act (a : action) (t : tunnel) : option tunnel :=
  match a with
  | PeerSend s b => guard (c_eof (t_conn t s) = false);; Some (update_conn s (c_send b) t)
  | PeerEOF s => Some (update_conn s c_finish t)
  | Break s => Some (update_conn s c_break t)
  | CloseConn s => Some (update_conn s c_close t)
  | CopyRead i n =>
      '(c, p) ← t_copies t !! i;
      let src := t_conn t (cp_src c) in
      match p with
      | Reading =>
          guard (readable src = true ∧ 0 < n ∧ (Z.of_nat n ≤ copyBufferSize)%Z ∧ n ≤ length (c_unread src));;
          Some (set_progress i (Writing (take n (c_unread src))) (update_conn (cp_src c) (c_advance n) t))
      | _ => None
      end
  | CopyReadEnd i e =>
      '(c, p) ← t_copies t !! i;
      match p with
      | Reading => if read_ends (t_conn t (cp_src c)) e then Some (finish_copy i c e t) else None
      | _ => None
      end
  | CopyWrite i =>
      '(c, p) ← t_copies t !! i;
      match p with
      | Writing buf =>
          guard (c_closed (t_conn t (cp_dst c)) = false);;
          Some (set_progress i Reading (update_conn (cp_dst c) (c_write buf) t))
      | _ => None
      end
  | CopyWriteFail i n =>
      '(c, p) ← t_copies t !! i;
      match p with
      | Writing buf =>
          guard ((c_closed (t_conn t (cp_dst c)) = true ∨ c_broken (t_conn t (cp_dst c)) = true) ∧ n < length buf);;
          Some (finish_copy i c WriteFailed (update_conn (cp_dst c) (c_write (take n buf)) t))
      | _ => None
      end
  end.

Fixpoint acts (l : list action) (t : tunnel) : option tunnel :=
  match l with
  | [] => Some t
  | a :: l' => t' ← tunnel_act a t; acts l' t'
  end.

(** A step of one of the goroutines. *)
Definition is_copy (a : action) : bool :=
  match a with PeerSend _ _ | PeerEOF _ | Break _ | CloseConn _ => false | _ => true end.

Definition newConn (half : bool) : conn := mkConn [] 0 false false false [] half.

(** The goroutines start on two open connections, each of which may be one that
    closes halfway. *)
Definition start (f : list copy) (half : side → bool) : tunnel :=
  mkTunnel (newConn (half Down)) (newConn (half Up)) ((λ c, (c, Reading)) <$> f).

(** [wg.Wait] has returned. *)
Definition returned (t : tunnel) : bool :=
  forallb (λ x : copy * progress, match x.2 with Ended _ => true | _ => false end) (t_copies t).

(** ** Lemmas *)

(** What the goroutine that reads from [src] has done. *)
Definition direction_ok (src dst : conn) (p : progress) : Prop :=
  c_read src ≤ length (c_sent src) ∧
  match p with
  | Reading => c_written dst = take (c_read src) (c_sent src)
  | Writing buf => c_written dst ++ buf = take (c_read src) (c_sent src) ∧ 0 < length buf
  | Ended e => c_written dst `prefix_of` take (c_read src) (c_sent src) ∧ c_closed dst = true ∧
      (e = AtEOF → c_written dst = c_sent src ∧ c_eof src = true)
  end.

Definition copies_of (f : list copy) (p : side → progress) : list (copy * progress) :=
  (λ c, (c, p (cp_src c))) <$> f.

Definition set_side (s : side) (q : progress) (p : side → progress) : side → progress :=
  λ s', if decide (s' = s) then q else p s'.

Definition tunnel_inv (f : list copy) (p : side → progress) (t : tunnel) : Prop :=
  t_copies t = copies_of f p ∧ ∀ s, direction_ok (t_conn t s) (t_conn t (other s)) (p s).

Lemma forwards_copy f i c : f ∈ forwards → f !! i = Some c → c = mkCopy (other (cp_src c)) (cp_src c) (other (cp_src c)).
Proof.
  unfold forwards. rewrite !elem_of_cons, elem_of_nil.
  intros Hf Hi. destruct_or?; subst; destruct i as [|[|i]]; simplify_eq/=; done.
Qed.

Lemma forwards_src f s : f ∈ forwards → ∃ i c, f !! i = Some c ∧ cp_src c = s.
Proof.
  unfold forwards. rewrite !elem_of_cons, elem_of_nil.
  intros Hf. destruct_or?; subst; destruct s;
    first [by exists 0; eexists|by exists 1; eexists].
Qed.

Lemma copies_of_alter f i c q p :
  f ∈ forwards → f !! i = Some c →
  alter (λ x : copy * progress, (x.1, q)) i (copies_of f p) = copies_of f (set_side (cp_src c) q p).
Proof.
  unfold forwards. rewrite !elem_of_cons, elem_of_nil.
  intros Hf Hi. destruct_or?; subst; destruct i as [|[|i]]; simplify_eq/=; done.
Qed.

Lemma t_conn_update s s' f t : t_conn (update_conn s f t) s' = if decide (s' = s) then f (t_conn t s) else t_conn t s'.
Proof. by destruct s, s'. Qed.

Lemma t_copies_update s f t : t_copies (update_conn s f t) = t_copies t.
Proof. by destruct s. Qed.

(** The goroutine [i] of a tunnel. *)
Lemma copies_lookup f p t i c q :
  f ∈ forwards → tunnel_inv f p t → t_copies t !! i = Some (c, q) →
  f !! i = Some c ∧ c = mkCopy (other (cp_src c)) (cp_src c) (other (cp_src c)) ∧ q = p (cp_src c).
Proof.
  intros Hf [Hc _] Hi. rewrite Hc in Hi. unfold copies_of in Hi. rewrite list_lookup_fmap in Hi.
  destruct (f !! i) as [c'|] eqn:Hfi; simplify_eq/=. split_and!; [done| |done]. by eapply forwards_copy.
Qed.

(** A direction depends on what its source received and on what its destination
    was given. *)
Definition later_src (c c' : conn) : Prop :=
  c_read c' = c_read c ∧ c_sent c `prefix_of` c_sent c' ∧
  (c_eof c = true → c_sent c' = c_sent c ∧ c_eof c' = true).

Definition later_dst (c c' : conn) : Prop :=
  c_written c' = c_written c ∧ (c_closed c = true → c_closed c' = true).

Lemma direction_later src src' dst dst' q :
  direction_ok src dst q → later_src src src' → later_dst dst dst' → direction_ok src' dst' q.
Proof.
  intros [Hr Hq] (Hr'&[k Hk]&He) [Hw Hcl]. unfold direction_ok. rewrite Hr', Hw.
  split; [rewrite Hk, length_app; lia|].
  destruct q as [|buf|e]; rewrite Hk, ?take_app_le by done; [done..|].
  destruct Hq as (Hp&?&Heof). split_and!; [done|auto|]. intros ->. destruct (Heof eq_refl) as [Hs Hf].
  rewrite <-Hk. destruct (He Hf) as [-> ->]. done.
Qed.

(** What a peer sends to one side, in an action and in a sequence of them. *)
Definition sent_by (s : side) (a : action) : nat :=
  match a with PeerSend s' b => if decide (s' = s) then length b else 0 | _ => 0 end.

Definition received (s : side) (l : list action) : nat := sum_list (sent_by s <$> l).

(** What an outside action leaves of a connection. *)
Definition env_conn (a : action) (s : side) (c c' : conn) : Prop :=
  c_half c' = c_half c ∧ length (c_unread c') ≤ length (c_unread c) + sent_by s a.

Lemma later_send b c : c_eof c = false → later_src c (c_send b c).
Proof. intros He. split_and!; [done|by apply prefix_app_r|]. intros ?. congruence. Qed.

Lemma later_src_frame c c' :
  c_read c' = c_read c → c_sent c' = c_sent c → (c_eof c = true → c_eof c' = true) → later_src c c'.
Proof. intros H1 H2 H3. unfold later_src. rewrite H2. auto. Qed.

(** What a step does to the two connections and to the goroutine it is of. *)
Inductive act_spec (p : side → progress) (t t' : tunnel) : action → (side → progress) → Prop :=
  | spec_env a :
      is_copy a = false →
      (∀ s, later_src (t_conn t s) (t_conn t' s) ∧ later_dst (t_conn t s) (t_conn t' s) ∧ env_conn a s (t_conn t s) (t_conn t' s)) →
      act_spec p t t' a p
  | spec_read i n s :
      p s = Reading → readable (t_conn t s) = true → 0 < n ≤ length (c_unread (t_conn t s)) →
      t_conn t' s = c_advance n (t_conn t s) → t_conn t' (other s) = t_conn t (other s) →
      act_spec p t t' (CopyRead i n) (set_side s (Writing (take n (c_unread (t_conn t s)))) p)
  | spec_read_end i e s :
      p s = Reading → read_ends (t_conn t s) e = true →
      t_conn t' s = t_conn t s → t_conn t' (other s) = c_close (t_conn t (other s)) →
      act_spec p t t' (CopyReadEnd i e) (set_side s (Ended e) p)
  | spec_write i s buf :
      p s = Writing buf → c_closed (t_conn t (other s)) = false →
      t_conn t' s = t_conn t s → t_conn t' (other s) = c_write buf (t_conn t (other s)) →
      act_spec p t t' (CopyWrite i) (set_side s Reading p)
  | spec_write_fail i n s buf :
      p s = Writing buf → n < length buf →
      t_conn t' s = t_conn t s → t_conn t' (other s) = c_close (c_write (take n buf) (t_conn t (other s))) →
      act_spec p t t' (CopyWriteFail i n) (set_side s (Ended WriteFailed) p).

Lemma act_act_spec f p t a t' :
  f ∈ forwards → tunnel_inv f p t → tunnel_act a t = Some t' →
  ∃ p', t_copies t' = copies_of f p' ∧ act_spec p t t' a p'.
Proof.
  intros Hf Ht Ha. pose proof Ht as [Hc _].
  assert (∀ i c q, t_copies t !! i = Some (c, q) →
    ∃ s, f !! i = Some c ∧ c = mkCopy (other s) s (other s) ∧ q = p s) as Hi.
  { intros i c q Hi. destruct (copies_lookup f p t i c q) as (?&?&?); eauto. }
  destruct a as [s b|s|s|s|i n|i e|i|i n]; unfold tunnel_act in Ha.
  1: case_guard as He; simpl in Ha; [|done].
  1-4: simplify_eq; exists p; split; [by rewrite t_copies_update|]; constructor; [done|]; intros s';
    rewrite t_conn_update; case_decide as Hs; subst; (split; [|split; [by split; auto|split; [done|]]]);
    try (first [by apply later_send|by apply later_src_frame]);
    unfold c_unread; simpl; rewrite ?length_drop, ?length_app; try case_decide; (done || lia).
  all: destruct (t_copies t !! i) as [[c q]|] eqn:Hl; [|done]; simpl in Ha;
    destruct (Hi i c q Hl) as (s&Hfi&->&->); simpl in Ha; destruct (p s) as [|buf|] eqn:Hp; try done.
  - case_guard as Hg; simpl in Ha; [|done]. simplify_eq. destruct Hg as (?&?&?&?).
    eexists. split; [simpl; rewrite t_copies_update, Hc; by eapply copies_of_alter|].
    econstructor; [done..|by destruct s|by destruct s].
  - destruct (read_ends _ e) eqn:He; [|done]. simplify_eq.
    eexists. split; [unfold finish_copy; rewrite t_copies_update; simpl; rewrite Hc; by eapply copies_of_alter|].
    econstructor; [done..|by destruct s|by destruct s].
  - case_guard as Hg; simpl in Ha; [|done]. simplify_eq.
    eexists. split; [simpl; rewrite t_copies_update, Hc; by eapply copies_of_alter|].
    econstructor; [done..|by destruct s|by destruct s].
  - case_guard as Hg; simpl in Ha; [|done]. simplify_eq. destruct Hg as [? ?].
    eexists. split; [unfold finish_copy; rewrite t_copies_update; simpl; rewrite t_copies_update, Hc; by eapply copies_of_alter|].
    econstructor; [done..|by destruct s|by destruct s].
Qed.

Lemma set_side_eq s q p : set_side s q p s = q.
Proof. unfold set_side. by rewrite decide_True. Qed.

Lemma set_side_other s q p : set_side s q p (other s) = p (other s).
Proof. unfold set_side. rewrite decide_False; [done|by destruct s]. Qed.

Lemma other_other s : other (other s) = s.
Proof. by destruct s. Qed.

(** The directions of a tunnel, one by one. *)
Lemma directions (P : side → Prop) s : P s → P (other s) → ∀ s', P s'.
Proof. intros Hs Ho s'. by destruct s, s'. Qed.

Lemma act_spec_inv p t t' a p' :
  act_spec p t t' a p' → (∀ s, direction_ok (t_conn t s) (t_conn t (other s)) (p s)) →
  ∀ s, direction_ok (t_conn t' s) (t_conn t' (other s)) (p' s).
Proof.
  intros Ha Hd. destruct Ha as [a _ Hl|i n s Hp Hcl Hn Hs Ho|i e s Hp He Hs Ho|i s buf Hp Hcl Hs Ho|i n s buf Hp Hn Hs Ho].
  { intros s. eapply direction_later; [apply Hd|apply Hl..]. }
  all: pose proof (Hd (other s)) as Hds; rewrite other_other in Hds.
  all: apply (directions _ s); [|rewrite set_side_other, other_other, Hs, Ho;
    eapply direction_later; [exact Hds|by apply later_src_frame|split; simpl; auto]].
  all: rewrite set_side_eq, Hs, Ho; pose proof (Hd s) as [Hr Hq]; rewrite Hp in Hq.
  - unfold c_unread in *. rewrite length_drop in Hn. split; simpl; [lia|].
    split; [rewrite Hq; apply take_take_drop|rewrite length_take, length_drop; lia].
  - split; [done|]. simpl. split_and!; [by rewrite Hq|done|]. intros ->. unfold read_ends in He.
    rewrite !andb_true_iff, bool_decide_eq_true in He. destruct He as [[_ He] Hu]. split; [|done].
    rewrite Hq. apply take_ge. unfold c_unread in Hu. apply (f_equal length) in Hu. rewrite length_drop in Hu. simpl in Hu. lia.
  - by destruct Hq.
  - destruct Hq as [Hq _]. split; [done|]. simpl. split_and!; [|done..]. rewrite <-Hq. apply prefix_app, prefix_take.
Qed.

Lemma act_inv f p t a t' :
  f ∈ forwards → tunnel_inv f p t → tunnel_act a t = Some t' → ∃ p', tunnel_inv f p' t' ∧ act_spec p t t' a p'.
Proof.
  intros Hf Ht Ha. destruct (act_act_spec f p t a t' Hf Ht Ha) as (p'&Hc&Hs).
  exists p'. split; [|done]. split; [done|]. eapply act_spec_inv; [done|apply Ht].
Qed.

Lemma start_inv_tunnel f half : tunnel_inv f (λ _, Reading) (start f half).
Proof. split; [done|]. intros s. by destruct s; split. Qed.

Lemma acts_inv f p t l t' :
  f ∈ forwards → tunnel_inv f p t → acts l t = Some t' → ∃ p', tunnel_inv f p' t'.
Proof.
  intros Hf. revert p t. induction l as [|a l IH]; intros p t Ht Ha; simplify_eq/=; [eauto|].
  destruct (tunnel_act a t) as [t1|] eqn:Ha1; [|done]. destruct (act_inv f p t a t1 Hf Ht Ha1) as (p'&Ht1&_).
  by eapply IH.
Qed.

Lemma copies_at f p t s :
  f ∈ forwards → tunnel_inv f p t →
  ∃ i, t_copies t !! i = Some (mkCopy (other s) s (other s), p s).
Proof.
  intros Hf [Hc _]. destruct (forwards_src f s Hf) as (i&c&Hi&<-). exists i.
  rewrite Hc. unfold copies_of. rewrite list_lookup_fmap, Hi. simpl.
  by rewrite (forwards_copy f i c Hf Hi) at 1.
Qed.

(** Nothing a goroutine may do. *)
Definition quiescent (t : tunnel) : Prop := ∀ a, is_copy a = true → tunnel_act a t = None.

Lemma quiescent_direction f p t s :
  f ∈ forwards → tunnel_inv f p t → quiescent t →
  match p s with
  | Reading => c_closed (t_conn t s) = false ∧ c_broken (t_conn t s) = false ∧ c_eof (t_conn t s) = false ∧
      c_written (t_conn t (other s)) = c_sent (t_conn t s)
  | Writing _ => False
  | Ended _ => c_closed (t_conn t (other s)) = true
  end.
Proof.
  intros Hf Ht Hquiet. destruct (copies_at f p t s Hf Ht) as (i&Hi).
  destruct Ht as [_ Hd]. specialize (Hd s) as [Hr Hq]. destruct (p s) as [|buf|e].
  - pose proof (Hquiet (CopyReadEnd i ReadFailed) eq_refl) as H1.
    pose proof (Hquiet (CopyReadEnd i AtEOF) eq_refl) as H2.
    pose proof (Hquiet (CopyRead i 1) eq_refl) as H3.
    simpl in H1, H2, H3. rewrite Hi in H1, H2, H3. simpl in H1, H2, H3.
    destruct (c_broken (t_conn t s)); [done|]. simpl in H1.
    assert (c_closed (t_conn t s) = false ∧ c_unread (t_conn t s) = []) as [Hcl Hu].
    { case_guard as Hg; [done|]. unfold readable in Hg.
      destruct (c_closed (t_conn t s)), (c_half (t_conn t s)), (c_unread (t_conn t s)) as [|b l]; try done;
        exfalso; apply Hg; simpl; split_and!; (done || lia || by vm_compute). }
    rewrite Hcl. unfold readable in H2. rewrite Hcl, Hu in H2. destruct (c_eof (t_conn t s)); [done|]. split_and!; [done..|]. rewrite Hq.
    apply take_ge. unfold c_unread in Hu. apply (f_equal length) in Hu. rewrite length_drop in Hu. simpl in Hu. lia.
  - destruct Hq as [_ Hb]. pose proof (Hquiet (CopyWrite i) eq_refl) as H1.
    pose proof (Hquiet (CopyWriteFail i 0) eq_refl) as H2. simpl in H1, H2. rewrite Hi in H1, H2. simpl in H1, H2.
    case_guard as Hg2; [done|]. case_guard as Hg1; [done|]. apply Hg2. split; [|done]. left.
    by destruct (c_closed _).
  - apply Hq.
Qed.

(** What is left to the goroutine that reads from [s] when that connection was
    closed here. *)
Definition rest (t : tunnel) (s : side) (q : progress) : nat :=
  let k := if c_half (t_conn t s) then length (c_unread (t_conn t s)) else 0 in
  match q with Reading => 1 + 2 * k | Writing _ => 2 + 2 * k | Ended _ => 0 end.

(** What is left to it when its peer sends nothing more. *)
Definition work (t : tunnel) (p : side → progress) (s : side) : nat :=
  match p s with
  | Reading => 1 + 2 * length (c_unread (t_conn t s))
  | Writing _ => 2 + 2 * length (c_unread (t_conn t s))
  | Ended _ => 0
  end.

Definition total_work (t : tunnel) (p : side → progress) : nat := work t p Down + work t p Up.

Lemma total_work_eq t p s : total_work t p = work t p s + work t p (other s).
Proof. destruct s; unfold total_work; simpl; lia. Qed.

Lemma act_spec_work p t t' a p' : act_spec p t t' a p' → is_copy a = true → total_work t' p' < total_work t p.
Proof.
  intros Ha Hcopy. destruct Ha as [a Hn _|i n s Hp _ Hn Hs Ho|i e s Hp _ Hs Ho|i s buf Hp _ Hs Ho|i n s buf Hp _ Hs Ho].
  { congruence. }
  all: rewrite !(total_work_eq _ _ s); unfold work; rewrite set_side_eq, set_side_other, Hp, ?Hs, ?Ho; simpl;
    unfold c_unread in *; simpl; rewrite ?length_drop in *; destruct (p (other s)); lia.
Qed.

(** Once the goroutine that reads from [s] has ended, the other goroutine finds
    its source closed: it can read nothing more, except what a stream that is
    closed halfway has received. *)
Lemma act_spec_rest p t t' a p' s e :
  act_spec p t t' a p' → (∀ s, direction_ok (t_conn t s) (t_conn t (other s)) (p s)) → p s = Ended e →
  p' s = Ended e ∧ c_half (t_conn t' (other s)) = c_half (t_conn t (other s)) ∧
  rest t' (other s) (p' (other s)) + (if is_copy a then 1 else 0) ≤
    rest t (other s) (p (other s)) + (if c_half (t_conn t (other s)) then 2 * sent_by (other s) a else 0) ∧
  (c_half (t_conn t (other s)) = false → c_read (t_conn t' (other s)) = c_read (t_conn t (other s))).
Proof.
  intros Ha Hd He.
  assert (c_closed (t_conn t (other s)) = true) as Hcl.
  { pose proof (Hd s) as [_ Hq]. rewrite He in Hq. apply Hq. }
  assert (∀ x, p x ≠ Ended e → x = other s) as Hx.
  { intros x Hx. destruct (decide (x = s)) as [->|]; [done|by destruct x, s]. }
  destruct Ha as [a Hn Hl|i n x Hp Ho Hr Hs Hs'|i e' x Hp _ Hs _|i x buf Hp _ Hs _|i n x buf Hp _ Hs _].
  { destruct (Hl (other s)) as ([Hrd _]&_&Hh&Hu). rewrite Hn. split_and!; [done|done| |done].
    unfold rest. rewrite Hh. destruct (c_half (t_conn t (other s))), (p (other s)); lia. }
  all: assert (x = other s) as -> by (apply Hx; congruence); rewrite set_side_eq, Hp;
    (split; [by destruct s|]); rewrite Hs; unfold rest; rewrite ?Hs; simpl.
  - unfold readable in Ho. rewrite Hcl in Ho. simpl in Ho. rewrite Ho. split_and!; [done| |done].
    unfold c_unread in *. simpl. rewrite length_drop in Hr. rewrite !length_drop. lia.
  - split_and!; [done| |done]. lia.
  - split_and!; [done| |done]. destruct (c_half (t_conn t (other s))); lia.
  - split_and!; [done| |done]. lia.
Qed.

Definition copy_steps (l : list action) : nat := length (filter (λ a, is_copy a = true) l).

Lemma acts_rest f p t l t' s e :
  f ∈ forwards → tunnel_inv f p t → p s = Ended e → acts l t = Some t' →
  copy_steps l ≤ rest t (other s) (p (other s)) + (if c_half (t_conn t (other s)) then 2 * received (other s) l else 0) ∧
  (c_half (t_conn t (other s)) = false → c_read (t_conn t' (other s)) = c_read (t_conn t (other s))).
Proof.
  intros Hf. revert p t. induction l as [|a l IH]; intros p t Ht He Ha.
  { simplify_eq/=. split; [unfold copy_steps; simpl; lia|done]. }
  simpl in Ha. destruct (tunnel_act a t) as [t1|] eqn:Ha1; [|done]. simpl in Ha.
  destruct (act_inv f p t a t1 Hf Ht Ha1) as (p'&Ht1&Hs).
  destruct (act_spec_rest p t t1 a p' s e Hs (proj2 Ht) He) as (He'&Hh&Hr&Hread).
  destruct (IH p' t1 Ht1 He' Ha) as [Hl Hread']. rewrite Hh in Hl, Hread'. split.
  - unfold copy_steps, received in *. rewrite filter_cons, fmap_cons. cbn [sum_list].
    destruct (c_half (t_conn t (other s))), (is_copy a) eqn:Hc; simpl; lia.
  - intros Hz. by rewrite Hread', Hread.
Qed.

(** What is written is bounded by what was read. *)
Lemma written_prefix f p t s :
  tunnel_inv f p t → c_written (t_conn t (other s)) `prefix_of` take (c_read (t_conn t s)) (c_sent (t_conn t s)).
Proof.
  intros [_ Hd]. specialize (Hd s) as [_ Hq]. destruct (p s) as [|buf|e].
  - by rewrite Hq.
  - destruct Hq as [<- _]. by apply prefix_app_r.
  - apply Hq.
Qed.

Lemma acts_work f p t l t' :
  f ∈ forwards → tunnel_inv f p t → Forall (λ a, is_copy a = true) l → acts l t = Some t' →
  length l ≤ total_work t p.
Proof.
  intros Hf. revert p t. induction l as [|a l IH]; intros p t Ht Hl Ha; [simpl; lia|].
  simpl in Ha. destruct (tunnel_act a t) as [t1|] eqn:Ha1; [|done]. simpl in Ha.
  apply Forall_cons in Hl as [Hc Hl]. destruct (act_inv f p t a t1 Hf Ht Ha1) as (p'&Ht1&Hs).
  specialize (IH p' t1 Ht1 Hl Ha). pose proof (act_spec_work _ _ _ _ _ Hs Hc). simpl. lia.
Qed.

Lemma work_bound t p s : work t p s ≤ 2 + 2 * length (c_unread (t_conn t s)).
Proof. unfold work. destruct (p s); lia. Qed.

Lemma returned_spec f p t : f ∈ forwards → tunnel_inv f p t → (∀ s, ∃ e, p s = Ended e) → returned t = true.
Proof.
  intros Hf [Hc _] Hp. unfold returned. rewrite Hc. apply List.forallb_forall.
  intros x (c&->&_)%list_elem_of_In%list_elem_of_fmap. simpl. by destruct (Hp (cp_src c)) as [e ->].
Qed.

(** ** The servers and forwarders that start tunnels *)

(** A connection served: it is closed at once when dialing its other end fails,
    and is carried otherwise. *)
Inductive carried := Dropped | Carried (t : tunnel).

Definition carry (dialed : bool) (f : list copy) (half : side → bool) : carried :=
  if dialed then Carried (start f half) else Dropped.

(** The connections that the client library accepts are streams of yamux; those
    of the network, and the client library's WebSockets, close as a whole. *)
Definition down_stream : side → bool := λ s, bool_decide (s = Down).
Definition no_stream : side → bool := λ _, false.

(** [serveConn] of agent/tcpproxy; [None] is the panic on an address that is not
    valid. *)
Definition agent_serveConn (Dial : string → bool) (conf : ListenerConfig) : option carried :=
  host ← tcp_serveConn conf; Some (carry (Dial host) agent_forward down_stream).

(** [Forwarder.forward] of client/forwarder.go. *)
Definition Forwarder_forward (DialContext : string → bool) (addr : string) : carried :=
  carry (DialContext addr) forwarder_forward down_stream.

(** [forwardConn] of forward/forwarder.go, for the dialer of the client
    library. *)
Definition forwardConn (Dial : string → bool) (endpointID : string) : carried :=
  carry (Dial endpointID) forwardConn_copies no_stream.

(** *** forward/forwarder.go *)

Inductive accept_error := AcceptClosed | AcceptError (err : string).

(** [Forward], for what [Accept] returns until it fails: the connections that
    are carried, and the result. *)
Fixpoint Forward_loop (Dial : string → bool) (endpointID : string) (l : list (accept_error + nat)) :
    list (nat * carried) * option (option string) :=
  match l with
  | [] => ([], None)
  | inl AcceptClosed :: _ => ([], Some None)
  | inl (AcceptError err) :: _ => ([], Some (Some ("accept: "%string +:+ err)))
  | inr conn :: l' =>
      let '(conns, res) := Forward_loop Dial endpointID l' in
      ((conn, forwardConn Dial endpointID) :: conns, res)
  end.

(** *** client/forwarder.go *)

(** [errgroup.Group] with the context [WithContext] derives. *)
Class Errgroup (G : Type) := {
  WithContext : G;
  group_returns : option string → G → G;
  group_Wait : G → G * option string;
  group_cancelled : G → bool;
}.

(** The documentation of errgroup: the context is cancelled the first time a
    function returns an error or the first time [Wait] returns, and [Wait]
    returns the first error. *)
Class ErrgroupLaws (G : Type) `{Errgroup G} := {
  cancelled_by_error e g : group_cancelled (group_returns (Some e) g) = true;
  cancelled_by_Wait g : group_cancelled (group_Wait g).1 = true;
  Wait_first_error l : (group_Wait (foldl (flip group_returns) WithContext l)).2 = head (omap id l);
}.

Definition ErrClosed : string := "closed"%string.

Section forwarder.
Context {G : Type} `{Errgroup G}.

(** [accept], for what the listener returns: the connections it forwards, and
    the error the goroutine returns after shutting the listener down. *)
Fixpoint Forwarder_accept (DialContext : string → bool) (addr : string) (l : list (string + nat)) :
    list (nat * carried) * option string :=
  match l with
  | [] => ([], None)
  | inl err :: _ => ([], Some err)
  | inr conn :: l' =>
      let '(conns, res) := Forwarder_accept DialContext addr l' in
      ((conn, Forwarder_forward DialContext addr) :: conns, res)
  end.

(** The goroutines of the group: the ones that forward return no error. *)
Definition newForwarder (DialContext : string → bool) (addr : string) (l : list (string + nat)) : G :=
  let '(conns, res) := Forwarder_accept DialContext addr l in
  foldl (flip group_returns) WithContext (res :: ((λ _, None) <$> conns)).

(** [Wait] *)
Definition Forwarder_Wait (g : G) : G * option string :=
  let '(g, err) := group_Wait g in
  if group_cancelled g || bool_decide (err = Some ErrClosed) then (g, None) else (g, err).

(** The context [Wait] asks was cancelled by the group's own [Wait], so the
    error that ended the forwarder is never returned. *)
Lemma forwarder_wait_hides_errors `{!ErrgroupLaws G} DialContext addr conns err :
  let g := newForwarder DialContext addr ((inr <$> conns) ++ [inl err]) in
  (group_Wait g).2 = Some err ∧ (Forwarder_Wait g).2 = None.
Proof.
  intros g. split.
  - unfold g, newForwarder.
    assert ((Forwarder_accept DialContext addr ((inr <$> conns) ++ [inl err])).2 = Some err) as Hres.
    { induction conns as [|c conns IH]; [done|]. simpl. by destruct (Forwarder_accept _ _ _). }
    destruct (Forwarder_accept _ _ _) as [cs res]. simpl in Hres. subst. by rewrite Wait_first_error.
  - unfold Forwarder_Wait. pose proof (cancelled_by_Wait g) as Hg. destruct (group_Wait g) as [g' e].
    simpl in Hg. by rewrite Hg.
Qed.

End forwarder.

(** A group that keeps its first error. *)
#[export] Instance first_error_group : Errgroup (option string * bool) := {
  WithContext := (None, false);
  group_returns e g := (match g.1 with Some _ => g.1 | None => e end, g.2 || bool_decide (e ≠ None));
  group_Wait g := ((g.1, true), g.1);
  group_cancelled := snd;
}.

#[export] Instance first_error_group_laws : ErrgroupLaws (option string * bool).
Proof.
  split; [intros e [x b]; simpl; by rewrite orb_true_r|done|]. intros l. simpl.
  assert (∀ l (g : option string * bool), (foldl (flip group_returns) g l).1 =
    match g.1 with Some e => Some e | None => head (omap id l) end) as Hl; [|by rewrite Hl].
  clear l. induction l as [|e l IH]; intros g; simpl; [by destruct g.1|]. rewrite IH. simpl.
  by destruct g as [[x|] b], e as [y|].
Qed.

(** *** agent/tcpproxy/server.go *)

(** The server: whether its listener is open ([None] before [Serve]), the
    connection [Serve] accepted and has not yet added, the connections tracked,
    those open, and the next connection. *)
Record tcp_server := mkTcpServer {
  ts_ln : option bool;
  ts_accepted : option nat;
  ts_conns : gset nat;
  ts_open : gset nat;
  ts_next : nat;
  ts_closing : bool;
}.

Definition tcp_NewServer : tcp_server := mkTcpServer None None ∅ ∅ 0 false.

Definition tcp_addConn (c : nat) (s : tcp_server) : tcp_server :=
  mkTcpServer (ts_ln s) (ts_accepted s) ({[c]} ∪ ts_conns s) (ts_open s) (ts_next s) (ts_closing s).

Definition tcp_removeConn (c : nat) (s : tcp_server) : tcp_server :=
  mkTcpServer (ts_ln s) (ts_accepted s) (ts_conns s ∖ {[c]}) (ts_open s) (ts_next s) (ts_closing s).

Definition close_conns (cs : gset nat) (s : tcp_server) : tcp_server :=
  mkTcpServer (ts_ln s) (ts_accepted s) (ts_conns s) (ts_open s ∖ cs) (ts_next s) (ts_closing s).

(** [Close]: the listener, then, with the mutex locked, the connections. *)
Definition tcp_Close_listener (s : tcp_server) : tcp_server :=
  mkTcpServer (match ts_ln s with Some _ => Some false | None => None end) (ts_accepted s) (ts_conns s) (ts_open s)
    (ts_next s) true.

Definition tcp_Close_conns (s : tcp_server) : tcp_server := close_conns (ts_conns s) s.

Definition tcp_Close (s : tcp_server) : tcp_server := tcp_Close_conns (tcp_Close_listener s).

(** The steps of [Serve], of the goroutines it starts, and of [Close]. *)
Inductive tcp_step : tcp_server → tcp_server → Prop :=
  | tcp_serve s : ts_ln s = None →
      tcp_step s (mkTcpServer (Some true) (ts_accepted s) (ts_conns s) (ts_open s) (ts_next s) (ts_closing s))
  | tcp_accept s : ts_ln s = Some true → ts_accepted s = None →
      tcp_step s (mkTcpServer (ts_ln s) (Some (ts_next s)) (ts_conns s) ({[ts_next s]} ∪ ts_open s)
        (S (ts_next s)) (ts_closing s))
  | tcp_add s c : ts_accepted s = Some c →
      tcp_step s (tcp_addConn c (mkTcpServer (ts_ln s) None (ts_conns s) (ts_open s) (ts_next s) (ts_closing s)))
  (** a goroutine closes its connection, by a copy that ended or by the deferred
      [Close] of [serveConn] *)
  | tcp_closed s c : c ∈ ts_conns s → tcp_step s (close_conns {[c]} s)
  (** [serveConn] returns: the deferred [Close], then [removeConn] *)
  | tcp_return s c : c ∈ ts_conns s → tcp_step s (tcp_removeConn c (close_conns {[c]} s))
  | tcp_close_listener s : tcp_step s (tcp_Close_listener s)
  | tcp_close_conns s : ts_closing s = true → tcp_step s (tcp_Close_conns s).

Definition tcp_reachable (s : tcp_server) : Prop := rtc tcp_step tcp_NewServer s.

(** Nothing is open that is not tracked or about to be. *)
Definition tcp_ok (s : tcp_server) : Prop :=
  (∀ c, c ∈ ts_open s → c ∈ ts_conns s ∨ ts_accepted s = Some c) ∧
  (∀ c, ts_accepted s = Some c → c ∉ ts_conns s) ∧
  (∀ c, c ∈ ts_conns s ∨ ts_accepted s = Some c → c < ts_next s).

Lemma tcp_step_ok s s' : tcp_ok s → tcp_step s s' → tcp_ok s'.
Proof.
  intros (Ho&Ha&Hn) Hs. unfold tcp_ok.
  destruct Hs as [s Hln|s Hln Hacc|s c Hacc|s c Hc|s c Hc|s|s Hcl];
    unfold tcp_Close_conns, close_conns, tcp_Close_listener, tcp_addConn, tcp_removeConn; simpl; try done.
  - split_and!.
    + intros c [->%elem_of_singleton|Hc]%elem_of_union; [by right|].
      destruct (Ho c Hc) as [?|?]; [by left|congruence].
    + intros c [= <-] Hc. specialize (Hn (ts_next s) (or_introl Hc)). lia.
    + intros c [Hc|[= <-]]; [specialize (Hn c (or_introl Hc)); lia|lia].
  - split_and!; [|done|].
    + intros x Hx. destruct (Ho x Hx) as [?|?]; [left; set_solver|simplify_eq; left; set_solver].
    + intros x [[->%elem_of_singleton|Hx]%elem_of_union|]; [auto|auto|done].
  - split_and!; [|done..]. intros x Hx. apply Ho. set_solver.
  - split_and!.
    + intros x Hx. destruct (Ho x) as [?|?]; [set_solver|left; set_solver|by right].
    + intros x Hx. specialize (Ha x Hx). set_solver.
    + intros x [Hx|Hx]; apply Hn; [left; set_solver|by right].
  - split_and!; [|done..]. intros x Hx. apply Ho. set_solver.
Qed.

Lemma tcp_reachable_ok s : tcp_reachable s → tcp_ok s.
Proof.
  assert (tcp_ok tcp_NewServer) as Hnew by (split_and!; set_solver).
  unfold tcp_reachable. intros Hr. revert Hnew. induction Hr; eauto using tcp_step_ok.
Qed.

(** A server whose listener is closed opens nothing more. *)
Lemma tcp_closed_open s s' :
  rtc tcp_step s s' → ts_ln s = Some false → ts_ln s' = Some false ∧ ts_open s' ⊆ ts_open s.
Proof.
  induction 1 as [s|s s1 s' Hs _ IH]; [done|]. intros Hln.
  assert (ts_ln s1 = Some false ∧ ts_open s1 ⊆ ts_open s) as [Hln1 Ho1].
  { destruct Hs; unfold tcp_Close_conns, close_conns, tcp_Close_listener, tcp_addConn, tcp_removeConn in *; simpl;
      try congruence; (split; [by rewrite ?Hln|set_solver]). }
  destruct (IH Hln1). split; [done|set_solver].
Qed.

(** ** Properties *)

(** C34. A tunnel carries the bytes as they are: in every state that any
    interleaving of the two goroutines, the two peers, failures and closings
    reaches, what was written to one connection is a prefix of what the peer of
    the other sent, in its order; and it is all of it once the goroutine has
    ended at the end of its source. *)
Theorem tunnel_faithful f half l t s :
  f ∈ forwards → acts l (start f half) = Some t →
  c_written (t_conn t (other s)) `prefix_of` c_sent (t_conn t s) ∧
  (∀ i c, t_copies t !! i = Some (c, Ended AtEOF) → cp_src c = s →
    c_written (t_conn t (other s)) = c_sent (t_conn t s)).
Proof.
  intros Hf Ha. destruct (acts_inv f _ _ _ _ Hf (start_inv_tunnel f half) Ha) as (p&Ht).
  split; [etrans; [by eapply written_prefix|apply prefix_take]|].
  intros i c Hi <-. destruct (copies_lookup f p t i c _ Hf Ht Hi) as (_&_&He).
  pose proof (proj2 Ht (cp_src c)) as [_ Hq]. rewrite <-He in Hq. by apply Hq.
Qed.

(** C35. A tunnel ends as a whole and otherwise delivers everything, whichever of
    its connections are streams that [Close] closes only halfway: the goroutines
    run out of steps when the peers send nothing; in a state where they have
    none left, either [wg.Wait] has returned and both connections are closed, or
    both connections are open and everything their peers sent has been written;
    and once one goroutine has ended the other makes at most two more steps,
    whatever the peers do, and two more for every byte it can still read when
    its source is such a stream: those received and not read, and those its peer
    goes on sending. *)
Theorem tunnel_ends f half l t :
  f ∈ forwards → acts l (start f half) = Some t →
  (∀ l' t', Forall (λ a, is_copy a = true) l' → acts l' t = Some t' →
    length l' ≤ 4 + 2 * (length (c_unread (t_down t)) + length (c_unread (t_up t)))) ∧
  ((∀ a, is_copy a = true → tunnel_act a t = None) →
    (returned t = true ∧ c_closed (t_down t) = true ∧ c_closed (t_up t) = true) ∨
    (∀ s, c_closed (t_conn t s) = false ∧ c_written (t_conn t (other s)) = c_sent (t_conn t s))) ∧
  (∀ i c e l' t', t_copies t !! i = Some (c, Ended e) → acts l' t = Some t' →
    let src := t_conn t (cp_dst c) in
    copy_steps l' ≤ 2 + (if c_half src then 2 * (length (c_unread src) + received (cp_dst c) l') else 0)).
Proof.
  intros Hf Ha. destruct (acts_inv f _ _ _ _ Hf (start_inv_tunnel f half) Ha) as (p&Ht). split_and!.
  - intros l' t' Hl Ha'. pose proof (acts_work f p t l' t' Hf Ht Hl Ha') as Hw.
    pose proof (work_bound t p Down). pose proof (work_bound t p Up). unfold total_work in Hw. simpl in *. lia.
  - intros Hquiet. pose proof (quiescent_direction f p t Down Hf Ht Hquiet) as Hd.
    pose proof (quiescent_direction f p t Up Hf Ht Hquiet) as Hu. simpl in Hd, Hu.
    destruct (p Down) as [|?|e1] eqn:Hp1, (p Up) as [|?|e2] eqn:Hp2; try done.
    + right. intros [|]; simpl; naive_solver.
    + exfalso. naive_solver congruence.
    + exfalso. naive_solver congruence.
    + left. split_and!; [|done..]. apply (returned_spec f p t Hf Ht). intros [|]; eauto.
  - intros i c e l' t' Hi Ha' src. destruct (copies_lookup f p t i c _ Hf Ht Hi) as (_&Hc&He).
    destruct (acts_rest f p t l' t' _ e Hf Ht (eq_sym He) Ha') as [Hr _].
    assert (cp_dst c = other (cp_src c)) as Hdst by (rewrite Hc at 1; done). subst src. rewrite Hdst. unfold rest in Hr.
    destruct (c_half _), (p (other (cp_src c))); simpl in Hr; lia.
Qed.

(** The end of what one peer sends cuts the answer of the other off: a client
    that sends its request, shuts its side down and waits, gets nothing that its
    upstream sends after that, since the goroutine that saw the end closed the
    whole other connection (or, of a stream, gets only what had arrived). *)
Theorem half_close_loses_answer f half :
  f ∈ forwards → half Up = false →
  ∃ l t, acts l (start f half) = Some t ∧ c_written (t_up t) = [x01] ∧ returned t = false ∧
    ∀ l' t', acts l' t = Some t' → c_written (t_down t') = [].
Proof.
  intros Hf Hup. destruct (forwards_src f Down Hf) as (i&c&Hi&Hs).
  set (l := [PeerSend Down [x01]; PeerEOF Down; CopyRead i 1; CopyWrite i; CopyReadEnd i AtEOF]).
  assert (∃ t, acts l (start f half) = Some t ∧ c_written (t_up t) = [x01] ∧ returned t = false ∧
    c_read (t_up t) = 0 ∧ c_half (t_up t) = false ∧ t_copies t !! i = Some (c, Ended AtEOF)) as (t&Ht&Hw&Hr&H0&Hh&He).
  { unfold start. rewrite Hup. generalize (half Down). clear - Hf Hi Hs. unfold forwards in Hf. rewrite !elem_of_cons, elem_of_nil in Hf.
    intros []; destruct_or?; subst; destruct i as [|[|i]]; simplify_eq/=; eexists; (split; [by vm_compute|]); by vm_compute. }
  exists l, t. split_and!; [done..|]. intros l' t' Hl'.
  destruct (acts_inv f _ _ _ _ Hf (start_inv_tunnel f half) Ht) as (p&Hp).
  destruct (copies_lookup f p t i c _ Hf Hp He) as (_&_&Hend). rewrite Hs in Hend.
  destruct (acts_inv f p t l' t' Hf Hp Hl') as (p'&Hp').
  destruct (acts_rest f p t l' t' Down _ Hf Hp (eq_sym Hend) Hl') as [_ Hread]. simpl in Hread. specialize (Hread Hh).
  pose proof (written_prefix f p' t' Up Hp') as Hpre. simpl in Hpre. rewrite Hread, H0 in Hpre.
  by apply prefix_nil_inv in Hpre.
Qed.

(** What [Close] leaves: of a server that is serving, only the connection
    [Serve] is about to add, so none ever after when there is none. *)
Theorem tcp_close_exact s :
  tcp_reachable s → is_Some (ts_ln s) →
  (∀ c, c ∈ ts_open (tcp_Close s) → ts_accepted s = Some c) ∧
  (ts_accepted s = None → ∀ s', rtc tcp_step (tcp_Close s) s' → ts_open s' = ∅).
Proof.
  intros (Ho&Ha&_)%tcp_reachable_ok [b Hln].
  assert (∀ c, c ∈ ts_open (tcp_Close s) → ts_accepted s = Some c) as Hc.
  { unfold tcp_Close, tcp_Close_conns, close_conns, tcp_Close_listener. simpl. intros c [Hc Hn]%elem_of_difference.
    by destruct (Ho c Hc). }
  split; [done|]. intros Hacc s' Hs'. destruct (tcp_closed_open _ _ Hs') as [_ Hsub].
  { unfold tcp_Close, tcp_Close_conns, close_conns, tcp_Close_listener. simpl. by rewrite Hln. }
  apply set_eq. intros c. split; [|set_solver]. intros Hin. apply Hsub, Hc in Hin. congruence.
Qed.

(** The connection accepted while [Close] runs stays open, and a server closed
    before it serves is not closed. *)
Theorem tcp_close_races :
  (∃ s s', tcp_reachable s ∧ rtc tcp_step (tcp_Close s) s' ∧ ts_accepted s' = None ∧ ts_open s' ≠ ∅) ∧
  (∃ s', tcp_step (tcp_Close tcp_NewServer) s' ∧ ts_ln s' = Some true).
Proof.
  split; [|eexists; split; [by apply tcp_serve|done]].
  eexists _, _. split; [|split].
  - unfold tcp_reachable. eapply rtc_l; [by apply tcp_serve|]. eapply rtc_l; [by apply tcp_accept|]. apply rtc_refl.
  - eapply rtc_l; [by apply (tcp_add _ 0)|]. apply rtc_refl.
  - split; [done|]. simpl. set_solver.
Qed.

(** ** Witnesses *)

Definition ex_acts : list action :=
  [PeerSend Down [x01; x02]; PeerSend Up [x03]; CopyRead 1 2; CopyRead 0 1; CopyWrite 1; PeerEOF Down;
   CopyReadEnd 1 AtEOF].

Definition ex_tunnel : tunnel :=
  default (start agent_forward down_stream) (acts ex_acts (start agent_forward down_stream)).

Lemma ex_forward : agent_forward ∈ forwards.
Proof. by left. Qed.

Lemma ex_tunnel_acts : acts ex_acts (start agent_forward down_stream) = Some ex_tunnel.
Proof. by vm_compute. Qed.

Lemma tunnel_faithful_witness :
  c_written (t_up ex_tunnel) `prefix_of` c_sent (t_down ex_tunnel) ∧ c_written (t_up ex_tunnel) = [x01; x02].
Proof.
  destruct (tunnel_faithful agent_forward down_stream ex_acts ex_tunnel Down ex_forward ex_tunnel_acts) as [Hp He].
  split; [exact Hp|]. exact (He 1 (mkCopy Up Down Up) eq_refl eq_refl).
Defined.

Lemma tunnel_ends_witness :
  ∃ t', acts [CopyWrite 0; CopyReadEnd 0 ReadFailed] ex_tunnel = Some t' ∧ returned t' = true ∧
    copy_steps [CopyWrite 0; CopyReadEnd 0 ReadFailed] ≤ 2.
Proof.
  destruct (tunnel_ends agent_forward down_stream ex_acts ex_tunnel ex_forward ex_tunnel_acts) as (_&_&Hr).
  eexists. split; [by vm_compute|]. split; [by vm_compute|].
  by eapply (Hr 1 (mkCopy Up Down Up) AtEOF).
Defined.
