(* ===== verification/Status.v ===== *)
(** * The status API: server/cluster/status.go, server/gossip/status.go,
      server/upstream/status.go, server/status and cli/server/status

    The routes that show the state of a node, the client that reads them, and a
    network of admin servers that forward a request to the node it names.
    gin's router is the class [Gin] with the laws [GinLaws], JSON the class
    [JSON]. *)

From coqutil Require Import Datatypes.RecordSetters.
From S2P Require Import Prelude GoLib NetLib HttpLib Auth GossipState Cluster Upstream Admin ConfigLib AgentConfig.

Local Open Scope string_scope.

(** ** path and net/url *)

(** The segments [path.Clean] keeps, last first. *)
Fixpoint clean_segments (rooted : bool) (acc : list string) (segs : list string) : list string :=
  match segs with
  | [] => acc
  | s :: segs' =>
      if decide (s = "" ∨ s = ".") then clean_segments rooted acc segs'
      else if decide (s = "..") then
        clean_segments rooted
          (match acc with
           | [] => if rooted then [] else [".."]
           | x :: acc' => if decide (x = "..") then ".." :: acc else acc'
           end) segs'
      else clean_segments rooted (s :: acc) segs'
  end.

Fixpoint join_slash (l : list string) : string :=
  match l with
  | [] => ""
  | [s] => s
  | s :: l' => s +:+ "/" +:+ join_slash l'
  end.

(** [path.Clean] *)
Definition path_Clean (s : string) : string :=
  let rooted := HasPrefix s "/" in
  let out := join_slash (rev (clean_segments rooted [] (Split s "/"))) in
  if rooted then "/" +:+ out else if decide (out = "") then "." else out.

(** [path.Join] of two elements. *)
Definition path_Join (a b : string) : string :=
  match filter (λ s, s ≠ "") [a; b] with
  | [] => ""
  | l => path_Clean (join_slash l)
  end.

Definition hex_value (c : Ascii.ascii) : nat :=
  let n := Ascii.nat_of_ascii c in
  if Nat.leb 97 n then n - 87 else if Nat.leb 65 n then n - 55 else n - 48.

(** [url.QueryUnescape] *)
Fixpoint QueryUnescape (s : string) : option string :=
  match s with
  | EmptyString => Some ""
  | String "%"%char s' =>
      match s' with
      | String a (String b s'') =>
          if is_hex a && is_hex b then
            t ← QueryUnescape s''; Some (String (Ascii.ascii_of_nat (16 * hex_value a + hex_value b)) t)
          else None
      | _ => None
      end
  | String "+"%char s' => t ← QueryUnescape s'; Some (String " " t)
  | String c s' => t ← QueryUnescape s'; Some (String c t)
  end.

(** [url.ParseQuery], a piece that does not parse being left out. *)
Definition parse_piece (p : string) : option (string * string) :=
  if Contains p ";" then None
  else if decide (p = "") then None
  else
    let '(k, v) := default (p, "") (Cut p "=") in
    k ← QueryUnescape k; v ← QueryUnescape v; Some (k, v).

Definition ParseQuery (q : string) : list (string * string) := omap parse_piece (Split q "&").

(** [gin.Context.GetQuery] *)
Definition GetQuery (q key : string) : option string := snd <$> head (filter (λ p, p.1 = key) (ParseQuery q)).

(** ** The handlers *)

Class JSON (A : Type) := {
  Marshal : A → string;
  Unmarshal : string → option A;
}.

(** gin's router: the registered pattern a path matches, and the value of the
    pattern's parameter. *)
Class Gin := gin_match : list string → string → option (string * string).

(** A pattern without a parameter and without a catch-all. *)
Definition static (p : string) : bool := negb (Contains p ":") && negb (Contains p "*").

(** A static pattern matches itself, before a pattern with a parameter; a
    parameter matches one segment. *)
Class GinLaws `{Gin} := {
  gin_static l p : p ∈ l → static p = true → gin_match l p = Some (p, "");
  gin_param l pre name v :
    (∃ p, pre = p +:+ "/") → pre +:+ ":" +:+ name ∈ l → static pre = true → static name = true → Contains name "/" = false →
    (∀ q, q ∈ l → HasPrefix q pre = true → q = pre +:+ ":" +:+ name ∨ static q = true) →
    v ≠ "" → Contains v "/" = false → (pre +:+ v ∈ l → static v = false) →
    gin_match l (pre +:+ v) = Some (pre +:+ ":" +:+ name, v);
}.

(** A handler is given [c.Param]. *)
Definition handler := string → nat * string.

Section handlers.
Context `{MapIter}.
Context `{JSON (list cnodeMetadata), JSON (option cnode), JSON (list NodeMetadata), JSON NodeState,
  JSON (gmap string Z), JSON (list ConnMetadata)}.

(** *** server/cluster/status.go *)

Definition cluster_listNodesRoute (s : State) : handler := λ _, (StatusOK, Marshal (NodesMetadata s)).

Definition getLocalNodeRoute (s : State) : handler := λ _, (StatusOK, Marshal (State_LocalNode s)).

Definition cluster_getNodeRoute (s : State) : handler := λ id,
  match State_Node s id with
  | None => (StatusNotFound, "")
  | Some node => (StatusOK, Marshal (Some node))
  end.

Definition cluster_Register (s : State) : list (string * handler) :=
  [("/nodes", cluster_listNodesRoute s); ("/nodes/local", getLocalNodeRoute s); ("/nodes/:id", cluster_getNodeRoute s)].

(** *** server/gossip/status.go *)

Definition string_le (a b : string) : Prop := String.leb a b = true.

#[export] Instance string_le_dec a b : Decision (string_le a b).
Proof. unfold string_le. apply _. Defined.

Definition gossip_listNodesRoute (g : GossipState.clusterState) : handler := λ _,
  (StatusOK, Marshal (merge_sort (λ a b, string_le (n_ID a) (n_ID b)) (GossipState.Nodes g))).

Definition gossip_getNodeRoute (g : GossipState.clusterState) : handler := λ id,
  match GossipState.Node g id with
  | None => (StatusNotFound, "")
  | Some state => (StatusOK, Marshal state)
  end.

Definition gossip_Register (g : GossipState.clusterState) : list (string * handler) :=
  [("/nodes", gossip_listNodesRoute g); ("/nodes/:id", gossip_getNodeRoute g)].

(** *** server/upstream/status.go *)

Definition listEndpointsRoute (m : manager) : handler := λ _, (StatusOK, Marshal (Endpoints m)).

Definition listEndpointUpstreamsRoute (m : manager) : handler := λ endpointID, (StatusOK, Marshal (Upstreams m endpointID)).

Definition upstream_Register (m : manager) : list (string * handler) :=
  [("/endpoints", listEndpointsRoute m); ("/endpoints/:endpointID", listEndpointUpstreamsRoute m)].

(** *** server/status/config/config.go *)

Record status_ServerConfig := mkStatusServer { ss_URL : string }.

Record status_Config := mkStatusConfig {
  st_Server : status_ServerConfig;
  st_Forward : string;
}.

Definition status_Server_Validate `{URLEnv} (c : status_ServerConfig) : option error :=
  first_error [check (ss_URL c = "") "missing url"; url_error (ss_URL c) "invalid url"].

Definition status_Validate `{URLEnv} (c : status_Config) : option error :=
  first_error [Errorf "server" (status_Server_Validate (st_Server c))].

Definition status_RegisterFlags {S} (c : ptr S status_Config) : list (flag S) :=
  [Var (field (field c st_Server) ss_URL) "server.url" "http://localhost:8002"; Var (field c st_Forward) "forward" ""].

(** ** The admin server of a node, with its status *)

Record admin_node := mkAdminNode {
  an_server : adminServer;
  an_tls : bool;
  an_cluster : State;
  an_gossip : GossipState.clusterState;
  an_upstreams : manager;
}.

(** [AddStatus] *)
Definition AddStatus (route : string) (handlers : list (string * handler)) : list (string * handler) :=
  (λ p, ("/status" +:+ route +:+ p.1, p.2)) <$> handlers.

(** The status routes of [server.NewServer]. *)
Definition status_routes (n : admin_node) : list (string * handler) :=
  AddStatus "/upstream" (upstream_Register (an_upstreams n)) ++
  AddStatus "/cluster" (cluster_Register (an_cluster n)) ++
  AddStatus "/gossip" (gossip_Register (an_gossip n)).

Context `{Gin}.

Definition status_serve (n : admin_node) (path : string) : nat * string :=
  match gin_match (status_routes n).*1 path with
  | None => (StatusNotFound, "404 page not found")
  | Some (pattern, param) =>
      match head (filter (λ p, p.1 = pattern) (status_routes n)) with
      | None => (StatusNotFound, "404 page not found")
      | Some (_, h) => h param
      end
  end.

(** *** server/admin/reverseproxy.go *)

(** The request the [Director] makes of a request: the scheme and the host. *)
Definition Director (adminAddr : string) : string * string := ("http", adminAddr).

Definition admin_errorHandler (deadlineExceeded : bool) : nat * string :=
  if deadlineExceeded then (StatusGatewayTimeout, "upstream timeout") else (StatusBadGateway, "upstream unreachable").

(** *** server/status/client/client.go *)

(** The parts of a [url.URL] the client uses, with the query as it is sent. *)
Record raw_url := mkRawURL {
  ru_Scheme : string;
  ru_Host : string;
  ru_Path : string;
  ru_RawQuery : string;
}.

Record status_client := mkStatusClient {
  sc_url : raw_url;
  sc_forward : string;
}.

Definition NewClient (u : raw_url) : status_client := mkStatusClient u "".
Definition SetURL (u : raw_url) (c : status_client) : status_client := mkStatusClient u (sc_forward c).
Definition SetForward (forward : string) (c : status_client) : status_client := mkStatusClient (sc_url c) forward.

Definition request_url (c : status_client) (path : string) : raw_url :=
  let u := sc_url c in
  let query := if decide (sc_forward c ≠ "") then "forward=" +:+ sc_forward c else ru_RawQuery u in
  mkRawURL (ru_Scheme u) (ru_Host u) (path_Join (ru_Path u) path) query.

(** [Request], over [Do] of the HTTP client: no response, or its status and
    body. *)
Definition Request (Do : raw_url → option (nat * string)) (c : status_client) (path : string) : string + string :=
  match Do (request_url c path) with
  | None => inl "request"
  | Some (status, body) =>
      if decide (status ≠ StatusOK) then inl ("request: bad status: " +:+ Itoa (Z.of_nat status)) else inr body
  end.

(** The methods of [Cluster], [Gossip] and [Upstream]: a path, and the value its
    body decodes to. *)
Definition query_json {A} `{JSON A} (Do : raw_url → option (nat * string)) (c : status_client) (path : string) :
    string + A :=
  match Request Do c path with
  | inl err => inl err
  | inr body => match Unmarshal body with None => inl "decode response" | Some a => inr a end
  end.

Definition Cluster_Nodes Do c : string + list cnodeMetadata := query_json Do c "/status/cluster/nodes".
Definition Cluster_Node Do c (nodeID : string) : string + option cnode :=
  query_json Do c ("/status/cluster/nodes/" +:+ nodeID).
Definition Gossip_Nodes Do c : string + list NodeMetadata := query_json Do c "/status/gossip/nodes".
Definition Gossip_Node Do c (nodeID : string) : string + NodeState := query_json Do c ("/status/gossip/nodes/" +:+ nodeID).
Definition Upstream_Endpoints Do c : string + gmap string Z := query_json Do c "/status/upstream/endpoints".

(** *** cli/server/status *)

(** The nodes [showClusterNodes] prints: those of the status asked for, by
    identifier. *)
Definition showClusterNodes Do c (status : NodeStatus) : string + list cnodeMetadata :=
  match Cluster_Nodes Do c with
  | inl err => inl err
  | inr nodes =>
      inr (merge_sort (λ a b, string_le (cm_ID a) (cm_ID b))
        (filter (λ n, ¬ (status ≠ "" ∧ status ≠ cm_Status n)) nodes))
  end.

Definition showGossipNodes Do c : string + list NodeMetadata :=
  match Gossip_Nodes Do c with
  | inl err => inl err
  | inr nodes => inr (merge_sort (λ a b, string_le (n_ID a) (n_ID b)) nodes)
  end.

(** ** Admin servers that forward to each other *)

(** The request of the client, which has no credential. *)
Definition status_request (u : raw_url) : admin_request :=
  mkAdminRequest (mkRequest "GET" (ru_Host u) (ru_Path u) []) (GetQuery (ru_RawQuery u) "forward") None false None.

(** The response of a node to a request, after at most [fuel] forwards; [net]
    gives the node that listens on an address.  A server that expects TLS
    answers a plain request itself. *)
Fixpoint admin_handle (HMAC : string → string → string) (net : string → option admin_node) (fuel : nat) (now : time)
    (n : admin_node) (u : raw_url) : option (nat * string) :=
  match admin_serve HMAC now None (an_server n) (status_request u) with
  | Local => Some (status_serve n (ru_Path u))
  | Status status => Some (status, "")
  | Reject resp => Some (resp_status resp, resp_error resp)
  | ForwardTo addr =>
      match fuel with
      | 0 => None
      | S fuel' =>
          let '(scheme, host) := Director addr in
          match net host with
          | None => Some (admin_errorHandler false)
          | Some n' =>
              if an_tls n' && bool_decide (scheme = "http")
              then Some (StatusBadRequest, "Client sent an HTTP request to an HTTPS server.")
              else admin_handle HMAC net fuel' now n' u
          end
      end
  | Page | Login _ | Logout _ => Some (StatusOK, "")
  end.

(** The HTTP client, which speaks the scheme of its URL. *)
Definition http_Do (HMAC : string → string → string) (net : string → option admin_node) (fuel : nat) (now : time)
    (u : raw_url) : option (nat * string) :=
  n ← net (ru_Host u);
  if an_tls n && bool_decide (ru_Scheme u = "http")
  then Some (StatusBadRequest, "Client sent an HTTP request to an HTTPS server.")
  else admin_handle HMAC net fuel now n u.

End handlers.

(** ** Lemmas *)

Lemma Split_none s sep : Contains s sep = false → Split s sep = [s].
Proof.
  intros Hs. apply Split_Cut_None. destruct (Cut s sep) eqn:Hc; [|done].
  assert (Contains s sep = true) by (apply Contains_Cut; by eexists). congruence.
Qed.

Lemma Split_sep a b sep : Contains a sep = false → Split (a +:+ String sep b) sep = a :: Split b sep.
Proof.
  intros Ha. apply Split_Cut_Some, Cut_no_sep. destruct (Cut a sep) eqn:Hc; [|done].
  assert (Contains a sep = true) by (apply Contains_Cut; by eexists). congruence.
Qed.

Lemma below_status {S} (c : ptr S status_Config) : lawful c → below c (status_RegisterFlags c).
Proof.
  intros Hc. assert (below (field c st_Server) [Var (field (field c st_Server) ss_URL) "server.url" "http://localhost:8002"])
    by solve_below.
  change (status_RegisterFlags c) with
    ([Var (field (field c st_Server) ss_URL) "server.url" "http://localhost:8002"] ++ [Var (field c st_Forward) "forward" ""])%list.
  eapply below_app; [done|solve_free|solve_below].
Qed.

(** A segment [path.Clean] keeps. *)
Definition segment_ok (s : string) : Prop := s ≠ "" ∧ s ≠ "." ∧ s ≠ ".." ∧ Contains s "/" = false.

Lemma clean_segments_ok rooted acc segs : Forall segment_ok segs → clean_segments rooted acc segs = (rev segs ++ acc)%list.
Proof.
  revert acc. induction segs as [|s segs IH]; intros acc Hs; [done|].
  apply Forall_cons in Hs as [(?&?&?&?) Hs]. simpl. rewrite !decide_False by naive_solver.
  rewrite IH by done. by rewrite <-(assoc_L app).
Qed.

Lemma Split_join segs : segs ≠ [] → Forall segment_ok segs → Split (join_slash segs) "/" = segs.
Proof.
  intros Hne Hs. induction Hs as [|s segs (?&?&?&?) Hs IH]; [done|].
  destruct segs as [|s' segs]; [by apply Split_none|].
  change (join_slash (s :: s' :: segs)) with (s +:+ String "/" (join_slash (s' :: segs))).
  rewrite Split_sep by done. by rewrite IH.
Qed.

Lemma Split_slash b : Split ("/" +:+ b) "/" = "" :: Split b "/".
Proof. by apply (Split_sep ""). Qed.

Lemma HasPrefix_slash b : HasPrefix ("/" +:+ b) "/" = true.
Proof. by destruct b. Qed.

(** Clean paths are joined as they are. *)
Lemma path_Join_clean base segs :
  base = "" ∨ base = "/" → segs ≠ [] → Forall segment_ok segs →
  path_Join base ("/" +:+ join_slash segs) = "/" +:+ join_slash segs.
Proof.
  intros Hbase Hne Hs.
  assert (path_Clean ("/" +:+ join_slash segs) = "/" +:+ join_slash segs) as Hclean.
  { unfold path_Clean. rewrite HasPrefix_slash, Split_slash, Split_join by done. simpl.
    by rewrite clean_segments_ok, app_nil_r, List.rev_involutive by done. }
  destruct Hbase as [-> | ->].
  - by change (path_Join "" ("/" +:+ join_slash segs)) with (path_Clean ("/" +:+ join_slash segs)).
  - change (path_Join "/" ("/" +:+ join_slash segs)) with (path_Clean ("/" +:+ ("/" +:+ ("/" +:+ join_slash segs)))).
    unfold path_Clean. rewrite HasPrefix_slash, !Split_slash, Split_join by done. simpl.
    by rewrite clean_segments_ok, app_nil_r, List.rev_involutive by done.
Qed.

(** *** Queries *)

(** Characters that a query value keeps as they are. *)
Definition plain_char (c : Ascii.ascii) : bool :=
  let n := Ascii.nat_of_ascii c in
  is_digit c || (Nat.leb 97 n && Nat.leb n 122) || (Nat.leb 65 n && Nat.leb n 90) ||
  bool_decide (c = "-"%char ∨ c = "_"%char ∨ c = "."%char).

Lemma plain_Contains s c : all_chars plain_char s = true → plain_char c = false → Contains s c = false.
Proof.
  intros Hs Hc. induction s as [|x s IH]; [done|]. simpl in *. apply andb_true_iff in Hs as [Hx Hs].
  rewrite IH by done. rewrite bool_decide_false; [done|]. intros ->. congruence.
Qed.

Lemma plain_unescape s : all_chars plain_char s = true → QueryUnescape s = Some s.
Proof.
  induction s as [|c s IH]; [done|]. simpl. intros [Hc Hs]%andb_true_iff. rewrite IH by done.
  destruct c as [[] [] [] [] [] [] [] []]; first [done|by vm_compute in Hc].
Qed.

Lemma GetQuery_forward f : all_chars plain_char f = true → GetQuery ("forward=" +:+ f) "forward" = Some f.
Proof.
  intros Hf. unfold GetQuery, ParseQuery.
  assert (∀ c, c = "&"%char ∨ c = ";"%char → Contains ("forward=" +:+ f) c = false) as Hc.
  { intros c Hc. pose proof (plain_Contains f c Hf) as Hp. destruct Hc as [-> | ->]; simpl; by apply Hp. }
  rewrite Split_none by (apply Hc; by left). simpl. unfold parse_piece. rewrite Hc by by right.
  rewrite decide_False by done.
  change (Cut ("forward=" +:+ f) "=") with (Some ("forward", f)). simpl. by rewrite plain_unescape.
Qed.

(** *** The routes *)

Lemma join_cluster_node id : "/status/cluster/nodes/" +:+ id = "/" +:+ join_slash ["status"; "cluster"; "nodes"; id].
Proof. done. Qed.

Lemma join_gossip_node id : "/status/gossip/nodes/" +:+ id = "/" +:+ join_slash ["status"; "gossip"; "nodes"; id].
Proof. done. Qed.

Lemma join_endpoints : "/status/upstream/endpoints" = "/" +:+ join_slash ["status"; "upstream"; "endpoints"].
Proof. done. Qed.

Lemma segments_ok_with id : segment_ok id → ∀ a b c, Forall segment_ok [a; b; c] → Forall segment_ok [a; b; c; id].
Proof. intros Hid a b c H. change [a; b; c; id] with ([a; b; c] ++ [id])%list. rewrite Forall_app. auto. Qed.

Section network.
Context `{MapIter}.
Context `{JSON (list cnodeMetadata), JSON (option cnode), JSON (list NodeMetadata), JSON NodeState,
  JSON (gmap string Z), JSON (list ConnMetadata)}.
Context `{GinLaws}.

(** The parameter of a registered pattern. *)
Lemma gin_segment l pre name v :
  (∃ p, pre = p +:+ "/") → pre +:+ ":" +:+ name ∈ l → static pre = true → static name = true → Contains name "/" = false →
  Forall (λ q, HasPrefix q pre = false ∨ q = pre +:+ ":" +:+ name ∨ static q = true ∧ q ≠ pre +:+ v) l →
  v ≠ "" → Contains v "/" = false → gin_match l (pre +:+ v) = Some (pre +:+ ":" +:+ name, v).
Proof.
  intros Hp Hin Hpre Hst Hname Hl Hv Hslash. apply gin_param; try done.
  - intros q Hq Hq'. rewrite Forall_forall in Hl. destruct (Hl q Hq) as [?|[?|[? ?]]]; [congruence|by left|by right].
  - intros Hq. rewrite Forall_forall in Hl. destruct (Hl _ Hq) as [Hq'|[Hq'|[? ?]]]; [|apply (inj (String.append pre)) in Hq'; by subst|done].
    pose proof (HasPrefix_app pre v). congruence.
Qed.

Lemma serve_cluster_node n id :
  segment_ok id → id ≠ "local" →
  status_serve n ("/status/cluster/nodes/" +:+ id) = cluster_getNodeRoute (an_cluster n) id.
Proof.
  intros (Hne&_&_&Hslash) Hlocal. unfold status_serve.
  rewrite (gin_segment _ "/status/cluster/nodes/" "id" id); [done|by exists "/status/cluster/nodes"|by apply (list_elem_of_lookup_2 _ 4)|done|done|done| |done|done].
  simpl. rewrite !Forall_cons, Forall_nil. split_and!; try (by left); [|by right; left|done].
  right; right. split; [done|]. intros Hp. by apply (inj (String.append "/status/cluster/nodes/")) in Hp.
Qed.

Lemma serve_gossip_node n id :
  segment_ok id → status_serve n ("/status/gossip/nodes/" +:+ id) = gossip_getNodeRoute (an_gossip n) id.
Proof.
  intros (Hne&_&_&Hslash). unfold status_serve.
  rewrite (gin_segment _ "/status/gossip/nodes/" "id" id); [done|by exists "/status/gossip/nodes"|by apply (list_elem_of_lookup_2 _ 6)|done|done|done| |done|done].
  simpl. rewrite !Forall_cons, Forall_nil. split_and!; try (by left); [by right; left|done].
Qed.

Lemma serve_endpoints n : status_serve n "/status/upstream/endpoints" = listEndpointsRoute (an_upstreams n) "".
Proof. unfold status_serve. rewrite gin_static; [done| |done]. by apply (list_elem_of_lookup_2 _ 0). Qed.

(** A node whose admin server asks for no credential. *)
Definition open_node (n : admin_node) : Prop :=
  verifier (an_server n) = None ∧ passwords (an_server n) = None ∧ clusterState (an_server n) = Some (an_cluster n).

(** The node a request that names [f] is about, for a node that knows where it
    listens. *)
Definition names_node (net : string → option admin_node) (n0 : admin_node) (f : string) (n : admin_node) : Prop :=
  (f = "" ∨ f = cs_localID (an_cluster n0)) ∧ n = n0 ∨
  f ≠ "" ∧ f ≠ cs_localID (an_cluster n0) ∧ f = cs_localID (an_cluster n) ∧ an_tls n = false ∧
  ∃ m, State_Node (an_cluster n0) f = Some m ∧ net (cn_AdminAddr m) = Some n.

Lemma admin_serve_status HMAC now n u r :
  open_node n → ru_Path u = "/status/" +:+ r →
  admin_serve HMAC now None (an_server n) (status_request u) = forwardInterceptor (an_cluster n) (status_request u).
Proof.
  intros (Hv&Hp&Hc) Hpath. unfold admin_serve, status_request, admin_gate. simpl.
  rewrite Hpath, Hv, Hp, Hc. rewrite !bool_decide_false by (try intros [?|?]; done). done.
Qed.

(** The forward query of a request of the client. *)
Lemma request_forward c path :
  ru_RawQuery (sc_url c) = "" → all_chars plain_char (sc_forward c) = true →
  GetQuery (ru_RawQuery (request_url c path)) "forward" = if decide (sc_forward c = "") then None else Some (sc_forward c).
Proof.
  intros Hq Hf. unfold request_url. simpl. destruct (decide (sc_forward c = "")) as [->|Hne].
  - by rewrite Hq.
  - rewrite decide_True by done. by apply GetQuery_forward.
Qed.

(** A clean path under [/status] reaches the routes of the node the client
    names. *)
Lemma request_reaches HMAC net fuel now n0 n c segs :
  net (ru_Host (sc_url c)) = Some n0 → an_tls n0 = false →
  ru_RawQuery (sc_url c) = "" → ru_Path (sc_url c) = "" ∨ ru_Path (sc_url c) = "/" →
  open_node n0 → open_node n → all_chars plain_char (sc_forward c) = true → names_node net n0 (sc_forward c) n →
  Forall segment_ok segs → segs ≠ [] → 0 < fuel →
  let path := "/" +:+ join_slash ("status" :: segs) in
  http_Do HMAC net fuel now (request_url c path) = Some (status_serve n path).
Proof.
  intros Hnet Htls Hq Hbase Hopen0 Hopen Hplain Hn Hsegs Hne Hfuel path.
  assert (ru_Path (request_url c path) = path) as Hpath.
  { unfold request_url. cbn [ru_Path]. apply path_Join_clean; [done|done|]. by constructor. }
  assert (∃ r, path = "/status/" +:+ r) as [r Hr] by (unfold path; destruct segs as [|s segs]; [done|by eexists]).
  pose proof (request_forward c path Hq Hplain) as Hfwd.
  unfold http_Do. change (ru_Host (request_url c path)) with (ru_Host (sc_url c)). rewrite Hnet. simpl. rewrite Htls. simpl.
  assert (∀ k n', open_node n' → GetQuery (ru_RawQuery (request_url c path)) "forward" = None ∨
      sc_forward c = cs_localID (an_cluster n') →
    admin_handle HMAC net k now n' (request_url c path) = Some (status_serve n' path)) as Hlocal.
  { intros k n' Ho Hf.
    assert (admin_serve HMAC now None (an_server n') (status_request (request_url c path)) = Local) as Hl.
    { rewrite (admin_serve_status _ _ _ _ r) by (done || congruence). unfold forwardInterceptor, status_request.
      cbn [ar_forward]. destruct Hf as [-> |Hf]; [done|]. rewrite Hfwd.
      destruct (decide (sc_forward c = "")); [done|]. by rewrite Hf, decide_True. }
    destruct k; cbn [admin_handle]; by rewrite Hl, Hpath. }
  destruct Hn as [[[Hf|Hf] ->]|(He&Hne0&Hid&Hs&m&Hm&Haddr)].
  - apply Hlocal; [done|]. left. rewrite Hfwd. by rewrite decide_True.
  - apply Hlocal; [done|by right].
  - destruct fuel as [|fuel]; [lia|]. cbn [admin_handle]. rewrite (admin_serve_status _ _ _ _ r) by (done || congruence).
    unfold forwardInterceptor, status_request. cbn [ar_forward]. rewrite Hfwd, !decide_False, Hm by done.
    cbn [Director]. rewrite Haddr, Hs. simpl. apply Hlocal; [done|by right].
Qed.

(** *** The answers *)

Lemma query_json_answer {A} `{JSON A} Do c path (o : option A) :
  Do (request_url c path) = Some (match o with None => (StatusNotFound, "") | Some a => (StatusOK, Marshal a) end) →
  (∀ a, o = Some a → Unmarshal (Marshal a) = Some a) →
  query_json Do c path = match o with None => inl "request: bad status: 404" | Some a => inr a end.
Proof.
  intros Hdo Ha. unfold query_json, Request. rewrite Hdo. destruct o as [a|]; simpl; [|done]. by rewrite Ha.
Qed.

(** A node that forwards to itself: the requests that name a node the cluster
    still lists at this node's own address never end. *)
Lemma stale_forward_loops HMAC net fuel now n m u r f :
  open_node n → an_tls n = false → ru_Path u = "/status/" +:+ r → GetQuery (ru_RawQuery u) "forward" = Some f →
  f ≠ cs_localID (an_cluster n) → State_Node (an_cluster n) f = Some m → net (cn_AdminAddr m) = Some n →
  admin_handle HMAC net fuel now n u = None.
Proof.
  intros Ho Ht Hp Hf Hne Hm Hnet. induction fuel as [|fuel IH]; cbn [admin_handle];
    rewrite (admin_serve_status _ _ _ _ r) by done; unfold forwardInterceptor, status_request; cbn [ar_forward];
    rewrite Hf, decide_False, Hm by done; [done|].
  cbn [Director]. rewrite Hnet, Ht. simpl. exact IH.
Qed.

(** A request is not forwarded to an admin server that uses TLS. *)
Lemma tls_forward_refused HMAC net fuel now n n' m u r f :
  open_node n → ru_Path u = "/status/" +:+ r → GetQuery (ru_RawQuery u) "forward" = Some f →
  f ≠ cs_localID (an_cluster n) → State_Node (an_cluster n) f = Some m → net (cn_AdminAddr m) = Some n' →
  an_tls n' = true →
  admin_handle HMAC net (S fuel) now n u = Some (StatusBadRequest, "Client sent an HTTP request to an HTTPS server.").
Proof.
  intros Ho Hp Hf Hne Hm Hnet Ht. cbn [admin_handle]. rewrite (admin_serve_status _ _ _ _ r) by done.
  unfold forwardInterceptor, status_request. cbn [ar_forward]. rewrite Hf, decide_False, Hm by done.
  cbn [Director]. by rewrite Hnet, Ht.
Qed.

(** C37. A status query is answered by the node it names, where the two admin
    servers ask for no credential and serve without TLS (the client sends no
    credential, and with one configured every query is refused): for a client
    whose URL has no query and no base path, a [--forward] that is empty or the
    identifier, of letters, digits, [-], [_] and [.], of a node the first one
    knows at the address that node listens on, and an identifier to look up
    that is one segment of a path and not "local", the client's request,
    through the admin server it is sent to and at most one forward, returns
    exactly what the node named knows of the identifier in the cluster and in
    the gossip, "not found" when it knows none, and the number of upstreams
    connected to it for each endpoint (each answer being one that its JSON
    decodes to). *)
Theorem status_query_answers HMAC net fuel now n0 n c id :
  net (ru_Host (sc_url c)) = Some n0 → an_tls n0 = false →
  ru_RawQuery (sc_url c) = "" → ru_Path (sc_url c) = "" ∨ ru_Path (sc_url c) = "/" →
  open_node n0 → open_node n → all_chars plain_char (sc_forward c) = true → names_node net n0 (sc_forward c) n →
  segment_ok id → id ≠ "local" → 0 < fuel →
  (∀ a, Some <$> State_Node (an_cluster n) id = Some a → Unmarshal (Marshal a) = Some a) →
  (∀ a, GossipState.Node (an_gossip n) id = Some a → Unmarshal (Marshal a) = Some a) →
  Unmarshal (Marshal (Endpoints (an_upstreams n))) = Some (Endpoints (an_upstreams n)) →
  let Do := http_Do HMAC net fuel now in
  Cluster_Node Do c id =
    match State_Node (an_cluster n) id with None => inl "request: bad status: 404" | Some a => inr (Some a) end ∧
  Gossip_Node Do c id =
    match GossipState.Node (an_gossip n) id with None => inl "request: bad status: 404" | Some a => inr a end ∧
  Upstream_Endpoints Do c = inr (Endpoints (an_upstreams n)).
Proof.
  intros Hnet Htls Hq Hbase Ho0 Ho Hplain Hn Hid Hlocal Hfuel Hj1 Hj2 Hj3 Do.
  assert (∀ segs, Forall segment_ok segs → segs ≠ [] → let path := "/" +:+ join_slash ("status" :: segs) in
    Do (request_url c path) = Some (status_serve n path)) as Hreach by (intros; by apply (request_reaches _ _ _ _ n0)).
  assert (∀ a b, segment_ok a → segment_ok b → Forall segment_ok [a; b; id]) as Hsegs
    by (intros; rewrite !Forall_cons, Forall_nil; auto).
  split_and!.
  - unfold Cluster_Node. rewrite join_cluster_node.
    rewrite (query_json_answer _ _ _ (Some <$> State_Node (an_cluster n) id)); [by destruct (State_Node _ _)| |done].
    rewrite Hreach by (done || by apply Hsegs; split_and!). rewrite <-join_cluster_node, serve_cluster_node by done.
    unfold cluster_getNodeRoute. by destruct (State_Node _ _).
  - unfold Gossip_Node. rewrite join_gossip_node.
    rewrite (query_json_answer _ _ _ (GossipState.Node (an_gossip n) id)); [done| |done].
    rewrite Hreach by (done || by apply Hsegs; split_and!). by rewrite <-join_gossip_node, serve_gossip_node by done.
  - unfold Upstream_Endpoints. rewrite join_endpoints.
    rewrite (query_json_answer _ _ _ (Some (Endpoints (an_upstreams n)))); [done| |by intros ? [= <-]].
    rewrite Hreach by (done || by rewrite !Forall_cons, Forall_nil; split_and!). by rewrite <-join_endpoints, serve_endpoints.
Qed.

End network.

(** ** Witnesses *)

Lemma static_app a b : static (a +:+ b) = static a && static b.
Proof. unfold static. rewrite !Contains_app. by destruct (Contains a ":"), (Contains b ":"), (Contains a "*"), (Contains b "*"). Qed.

(** A router: the pattern itself, or the pattern whose parameter is the last
    segment. *)
#[export] Instance ex_gin : Gin := λ l path,
  if decide (path ∈ l ∧ static path = true) then Some (path, "")
  else
    '(a, v) ← CutLast path "/";
    guard (v ≠ "");;
    q ← head (filter (λ q, fst <$> Cut q ":" = Some (a +:+ "/")) l);
    Some (q, v).

#[export] Instance ex_gin_laws : GinLaws.
Proof.
  split.
  - intros l p Hp Hc. unfold gin_match, ex_gin. by rewrite decide_True.
  - intros l pre name v [p ->] Hin Hpre Hst Hname Hl Hv Hslash Hreg. unfold gin_match, ex_gin. rewrite decide_False.
    2: { intros [Hi Hc]. specialize (Hreg Hi). rewrite static_app, andb_true_iff in Hc. destruct Hc. congruence. }
    rewrite string_app_assoc. change ("/" +:+ v) with (String "/" v). rewrite CutLast_app by done. simpl.
    rewrite option_guard_True by done. simpl.
    set (P := (p +:+ "/") +:+ ":" +:+ name) in *.
    assert (∀ q, fst <$> Cut q ":" = Some (p +:+ "/") → q ∈ l → q = P) as Hq.
    { intros q Hq Hql. destruct (Cut q ":") as [[a b]|] eqn:Hc; [|done]. simplify_eq/=.
      pose proof (Cut_Some _ _ _ _ Hc) as ->. destruct (Hl _ Hql) as [?|Hno]; [by apply HasPrefix_app|done|].
      rewrite static_app, andb_true_iff in Hno. by destruct Hno. }
    assert (P ∈ filter (λ q, fst <$> Cut q ":" = Some (p +:+ "/")) l) as HP.
    { apply list_elem_of_filter. split; [|done]. change P with ((p +:+ "/") +:+ String ":" name).
      rewrite Cut_no_sep; [done|]. destruct (Cut (p +:+ "/") ":") eqn:Hc; [|done].
      assert (Contains (p +:+ "/") ":" = true) as Hcc by (apply Contains_Cut; eauto). unfold static in Hpre. by rewrite Hcc in Hpre. }
    destruct (filter _ l) as [|q l'] eqn:Hf; [by apply not_elem_of_nil in HP|]. simpl.
    assert (q ∈ filter (λ q, fst <$> Cut q ":" = Some (p +:+ "/")) l) as [Hq1 Hq2]%list_elem_of_filter
      by (rewrite Hf; left).
    by rewrite (Hq q Hq1 Hq2).
Qed.

(** A codec that knows its answers. *)
Definition answer {A} (a : A) : JSON A := {| Marshal _ := ""; Unmarshal _ := Some a |}.

Definition ex_node2 : admin_node :=
  mkAdminNode (NewServer ex_HMAC (Some (NewState ex_remote).1) None "") false (NewState ex_remote).1
    (newClusterState "n2" "10.0.0.2:8003") (NewLoadBalancedManager (NewState ex_remote).1).

Definition ex_node1 : admin_node :=
  mkAdminNode (NewServer ex_HMAC (Some Cluster.ex_cluster) None "") false Cluster.ex_cluster
    (newClusterState "n1" "10.0.0.1:8003") (NewLoadBalancedManager Cluster.ex_cluster).

Definition ex_net (addr : string) : option admin_node :=
  if decide (addr = "10.0.0.1:8002") then Some ex_node1 else if decide (addr = "10.0.0.2:8002") then Some ex_node2 else None.

Definition ex_client : status_client := SetForward "n2" (NewClient (mkRawURL "http" "10.0.0.1:8002" "" "")).

Definition ex_gossip_answer : NodeState :=
  default (mkNodeState (mkMetadata "" "" 0%N false false 0%Z) []) (@GossipState.Node canonical_iter (an_gossip ex_node2) "n2").

Definition ex_J1 : JSON (list cnodeMetadata) := answer [].
Definition ex_J2 : JSON (option cnode) := answer (State_Node (an_cluster ex_node2) "n2").
Definition ex_J3 : JSON (list NodeMetadata) := answer [].
Definition ex_J4 : JSON NodeState := answer ex_gossip_answer.
Definition ex_J5 : JSON (gmap string Z) := answer (Endpoints (an_upstreams ex_node2)).
Definition ex_J6 : JSON (list ConnMetadata) := answer [].

Lemma status_query_answers_witness :
  ∃ node, @Cluster_Node ex_J2 (@http_Do canonical_iter ex_J1 ex_J2 ex_J3 ex_J4 ex_J5 ex_J6 ex_gin ex_HMAC ex_net 1 0)
    ex_client "n2" = inr (Some node) ∧ cn_ID node = "n2".
Proof.
  destruct (@status_query_answers canonical_iter ex_J1 ex_J2 ex_J3 ex_J4 ex_J5 ex_J6 ex_gin ex_gin_laws ex_HMAC ex_net 1 0%Z
    ex_node1 ex_node2 ex_client "n2") as [H _].
  - by vm_compute.
  - done.
  - done.
  - by left.
  - done.
  - done.
  - by vm_compute.
  - right. split_and!; [by vm_compute..|]. eexists. split; by vm_compute.
  - split_and!; by vm_compute.
  - by vm_compute.
  - lia.
  - intros a Ha. unfold ex_J2, answer. simpl. destruct (State_Node _ _); simplify_eq/=; done.
  - intros a Ha. change (Some ex_gossip_answer = Some a). unfold ex_gossip_answer. by rewrite Ha.
  - done.
  - eexists. split; [exact H|]. by vm_compute.
Defined.
