(* ===== verification/AdminRoutes.v ===== *)
(** * The routes of the admin server: server/admin/server.go, web.go and
      reverseproxy.go

    The gin engine the admin server builds: a route keeps the middleware that
    was in use when it was registered, which is how the probes, the page and the
    login stay outside the gate.  [admin_serve] of [Admin] decides what happens to
    a request; here it is shown to be what the engine does, with whatever status
    handlers have been added to it.  gin's tree of patterns is the class
    [GinTree]: which patterns can be added without a panic, and which paths it
    redirects for a slash at their end. *)

From S2P Require Import Prelude GoLib NetLib HttpLib Auth GossipState Cluster Upstream Admin ConfigLib Status Middleware.

Local Open Scope string_scope.

(** ** gin's engine *)

Inductive admin_middleware := Recovery | Authenticate | ForwardInterceptor.

(** What the routes run; a profile of net/http/pprof by its name. *)
Inductive admin_route :=
  | HealthRoute | ReadyRoute | WebRoute | LoginRoute | LogoutRoute
  | MetricsRoute
  | PprofRoute (profile : string)
  | StatusRoute (h : Status.handler).

Record route_info := mkRouteInfo {
  ri_Method : string;
  ri_Path : string;
  ri_Handlers : list admin_middleware;
  ri_Route : admin_route;
}.

(** [gin.Engine]: the middleware in use, and the routes registered. *)
Record engine := mkEngine {
  en_Handlers : list admin_middleware;
  en_Routes : list route_info;
}.

(** [gin.RouterGroup] *)
Record router_group := mkGroup {
  rg_BasePath : string;
  rg_Handlers : list admin_middleware;
}.

Definition gin_New : engine := mkEngine [] [].

Definition Use (m : admin_middleware) (e : engine) : engine := mkEngine (en_Handlers e ++ [m])%list (en_Routes e).

(** A group takes the middleware of its parent, and a route that of its group. *)
Definition engine_Group (path : string) (e : engine) : router_group := mkGroup path (en_Handlers e).

Definition group_Group (path : string) (g : router_group) : router_group := mkGroup (rg_BasePath g +:+ path) (rg_Handlers g).

(** The patterns registered for a method. *)
Definition patterns (e : engine) (method : string) : list string :=
  ri_Path <$> filter (λ i, ri_Method i = method) (en_Routes e).

(** gin's tree of the patterns of a method: whether a pattern can be added to
    those registered, or adding it panics; and whether a path is redirected to
    the one with a slash more or less at its end. *)
Class GinTree := {
  gin_add : list string → string → bool;
  gin_redirects : list string → string → bool;
}.

Section routes.
Context `{GinTree}.

(** Registering a route; [None] is gin's panic. *)
Definition group_Handle (g : router_group) (method path : string) (h : admin_route) (e : engine) : option engine :=
  guard (gin_add (patterns e method) (rg_BasePath g +:+ path) = true);;
  Some (mkEngine (en_Handlers e) (en_Routes e ++ [mkRouteInfo method (rg_BasePath g +:+ path) (rg_Handlers g) h])%list).

Definition engine_GET (path : string) (h : admin_route) (e : engine) : option engine :=
  group_Handle (engine_Group "" e) "GET" path h e.
Definition engine_POST (path : string) (h : admin_route) (e : engine) : option engine :=
  group_Handle (engine_Group "" e) "POST" path h e.

(** ** web.go *)

Definition webCSP : string :=
  "default-src 'none'; " +:+
  "script-src 'unsafe-inline'; " +:+
  "style-src 'unsafe-inline'; " +:+
  "img-src data:; " +:+
  "connect-src 'self'; " +:+
  "form-action 'none'; " +:+
  "base-uri 'none'; " +:+
  "frame-ancestors 'none'".

(** The answer of the page: its status, headers and body. *)
Definition serve_web (index : string) : nat * list (string * string) * string :=
  (StatusOK,
   [("Content-Security-Policy", webCSP); ("X-Content-Type-Options", "nosniff"); ("Referrer-Policy", "no-referrer");
    ("Cache-Control", "no-cache"); ("Content-Type", "text/html; charset=utf-8")], index).

(** [registerWeb]; [index] is the embedded page. *)
Definition registerWeb (index : option string) (e : engine) : option engine :=
  match index with
  | None => Some e
  | Some _ =>
      e ← engine_GET "/" WebRoute e;
      engine_GET "/dashboard" WebRoute e
  end.

(** ** reverseproxy.go *)

Record error_answer := mkErrorAnswer {
  ea_Status : nat;
  ea_Header : list (string * string);
  ea_Body : string;
}.

(** [errorResponse]; [Marshal] is the JSON of an error message. *)
Definition admin_errorResponse (Marshal : string → string) (statusCode : nat) (message : string) : error_answer :=
  mkErrorAnswer statusCode [("Content-Type", "application/json"); ("X-Content-Type-Options", "nosniff")] (Marshal message).

Definition forwardTimeout : Z := (15 * Second)%Z.

(** [ServeHTTP]: [exchange] sends the request the [Director] made and gives the
    response, or whether it ran out of the time it was given. *)
Definition reverse_ServeHTTP {A} (Marshal : string → string) (exchange : Z → string * string → bool + A) (adminAddr : string) :
    error_answer + A :=
  match exchange forwardTimeout (Director adminAddr) with
  | inr resp => inr resp
  | inl deadlineExceeded =>
      let '(status, message) := admin_errorHandler deadlineExceeded in
      inl (admin_errorResponse Marshal status message)
  end.

(** ** server.go *)

(** [registerRoutes] *)
Definition admin_registerRoutes (registry : bool) (e : engine) : option engine :=
  e ← (if registry then engine_GET "/metrics" MetricsRoute e else Some e);
  let pprofGroup := engine_Group "/debug/pprof" e in
  let profile method path name e := group_Handle pprofGroup method path (PprofRoute name) e in
  e ← profile "GET" "/" "index" e;
  e ← profile "GET" "/cmdline" "cmdline" e;
  e ← profile "GET" "/profile" "profile" e;
  e ← profile "POST" "/symbol" "symbol" e;
  e ← profile "GET" "/symbol" "symbol" e;
  e ← profile "GET" "/trace" "trace" e;
  e ← profile "GET" "/allocs" "allocs" e;
  e ← profile "GET" "/block" "block" e;
  e ← profile "GET" "/goroutine" "goroutine" e;
  e ← profile "GET" "/heap" "heap" e;
  e ← profile "GET" "/mutex" "mutex" e;
  profile "GET" "/threadcreate" "threadcreate" e.

(** The routes that are registered before the gate. *)
Definition public_routes (index : option string) : option engine :=
  e ← engine_GET "/health" HealthRoute (Use Recovery gin_New);
  e ← engine_GET "/ready" ReadyRoute e;
  e ← registerWeb index e;
  e ← engine_POST "/login" LoginRoute e;
  engine_POST "/logout" LogoutRoute e.

(** The router of [NewServer]. *)
Definition admin_router (index : option string) (registry : bool) (s : adminServer) : option engine :=
  e ← public_routes index;
  let e1 := match verifier s, passwords s with
            | None, None => e
            | _, _ => Use Authenticate e
            end in
  let e2 := match clusterState s with Some _ => Use ForwardInterceptor e1 | None => e1 end in
  admin_registerRoutes registry e2.

(** The [Register] of a status handler: its routes, in order. *)
Fixpoint group_Register (g : router_group) (handlers : list (string * Status.handler)) (e : engine) : option engine :=
  match handlers with
  | [] => Some e
  | (path, h) :: handlers' => e ← group_Handle g "GET" path (StatusRoute h) e; group_Register g handlers' e
  end.

(** [AddStatus] *)
Definition engine_AddStatus (route : string) (handlers : list (string * Status.handler)) (e : engine) : option engine :=
  group_Register (group_Group route (engine_Group "/status" e)) handlers e.

(** Adding status handlers in turn. *)
Fixpoint add_statuses (l : list (string * list (string * Status.handler))) (e : engine) : option engine :=
  match l with
  | [] => Some e
  | (route, handlers) :: l' => e ← engine_AddStatus route handlers e; add_statuses l' e
  end.

(** The router of a node: [server.NewServer] adds the status of the upstreams
    and of the cluster, and [startGossip], when the admin server serves already,
    that of the gossip. *)
Section node_router.
Context `{MapIter}.
Context `{JSON (list cnodeMetadata), JSON (option cnode), JSON (list NodeMetadata), JSON NodeState,
  JSON (gmap string Z), JSON (list ConnMetadata)}.

Definition node_router (index : option string) (registry : bool) (n : admin_node) : option engine :=
  e ← admin_router index registry (an_server n);
  e ← engine_AddStatus "/upstream" (upstream_Register (an_upstreams n)) e;
  engine_AddStatus "/cluster" (cluster_Register (an_cluster n)) e.

Definition started_router (index : option string) (registry : bool) (n : admin_node) : option engine :=
  e ← node_router index registry n;
  engine_AddStatus "/gossip" (gossip_Register (an_gossip n)) e.

End node_router.

(** agent/server/server.go: the server of the agent has the metrics only. *)
Definition agent_router (registry : bool) : option engine :=
  let e := Use Recovery gin_New in
  if registry then engine_GET "/metrics" MetricsRoute e else Some e.

End routes.

(** [Serve], for what net/http returned. *)
Definition admin_Serve : bool → option serve_error → option serve_error → option error := server_Serve.

Definition agent_server_Serve (Serve : option serve_error) : option error := server_Serve false None Serve.

(** *** Serving *)

Section serving.
Context `{Gin, GinTree} (HMAC : string → string → string).

(** The middleware and the route a request takes: every middleware in use when
    there is no route. *)
Definition engine_match (e : engine) (method path : string) : list admin_middleware * option (admin_route * string) :=
  match gin_match (patterns e method) path with
  | None => (en_Handlers e, None)
  | Some (pattern, param) =>
      match head (filter (λ i, ri_Method i = method ∧ ri_Path i = pattern) (en_Routes e)) with
      | None => (en_Handlers e, None)
      | Some i => (ri_Handlers i, Some (ri_Route i, param))
      end
  end.

(** The middleware in order; [Local] when all of them let the request through. *)
Fixpoint run_middleware (now : time) (s : adminServer) (hs : list admin_middleware) (r : admin_request) : admin_result :=
  match hs with
  | [] => Local
  | Recovery :: hs' => run_middleware now s hs' r
  | Authenticate :: hs' =>
      match admin_gate HMAC now s r with Some resp => Reject resp | None => run_middleware now s hs' r end
  | ForwardInterceptor :: hs' =>
      match clusterState s with
      | None => run_middleware now s hs' r
      | Some cluster => match forwardInterceptor cluster r with Local => run_middleware now s hs' r | res => res end
      end
  end.

(** What a route answers; [Local] for the routes that show the node. *)
Definition run_route (now : time) (rand : option string) (s : adminServer) (r : admin_request) (h : admin_route) : admin_result :=
  match h with
  | HealthRoute => healthRoute
  | ReadyRoute => readyRoute s
  | WebRoute => Page
  | LoginRoute => match passwords s with None => Status StatusNotFound | Some p => Login (loginRoute HMAC now rand p r) end
  | LogoutRoute => match passwords s with None => Status StatusNoContent | Some _ => Logout (Some (logoutRoute r)) end
  | MetricsRoute | PprofRoute _ | StatusRoute _ => Local
  end.

(** The result of a request, and the route that ran; [None] when gin redirects
    it, which runs no middleware. *)
Definition engine_serve (now : time) (rand : option string) (s : adminServer) (e : engine) (r : admin_request) :
    option (admin_result * option (admin_route * string)) :=
  let method := r_Method (ar_request r) in
  let path := r_Path (ar_request r) in
  if bool_decide (method ≠ "CONNECT" ∧ path ≠ "/") && gin_redirects (patterns e method) path then None
  else
    let '(hs, route) := engine_match e method path in
    Some match run_middleware now s hs r with
         | Local =>
             match route with
             | None => (Local, None)
             | Some (h, param) => (run_route now rand s r h, Some (h, param))
             end
         | res => (res, None)
         end.

End serving.

(** The patterns without conflicts: static, or with one parameter that is the
    last segment; two of them are apart when they differ and do not both have a
    parameter in the same place. *)
Definition pattern_ok (p : string) : bool :=
  HasPrefix p "/" &&
  match Cut p ":" with
  | None => static p
  | Some (pre, name) =>
      static pre && bool_decide (snd <$> CutLast pre "/" = Some "") && static name && negb (Contains name "/") &&
      bool_decide (name ≠ "")
  end.

Definition apart (p q : string) : bool :=
  bool_decide (p ≠ q) &&
  match Cut p ":", Cut q ":" with
  | Some (pre, _), Some (pre', _) => bool_decide (pre ≠ pre')
  | _, _ => true
  end.

(** gin matches a registered pattern, and a static one only itself; it redirects
    only a path it does not match; a pattern registered twice panics, and one
    that is apart from the others does not. *)
Class GinTreeLaws `{Gin, GinTree} := {
  gin_exact l path p v : gin_match l path = Some (p, v) → p ∈ l ∧ (static p = true → p = path);
  gin_unmatched l path : gin_redirects l path = true → gin_match l path = None;
  gin_duplicate l p : p ∈ l → gin_add l p = false;
  gin_apart l p : pattern_ok p = true → forallb (λ q, pattern_ok q && apart p q) l = true → gin_add l p = true;
}.

(** ** Lemmas *)

(** A route that shows the node: its metrics, profiles and status. *)
Definition protected (h : admin_route) : Prop :=
  match h with MetricsRoute | PprofRoute _ | StatusRoute _ => True | _ => False end.

(** The middleware of the gate. *)
Definition gate_middleware (s : adminServer) : list admin_middleware :=
  ([Recovery] ++ match verifier s, passwords s with None, None => [] | _, _ => [Authenticate] end ++
   match clusterState s with Some _ => [ForwardInterceptor] | None => [] end)%list.

(** A protected route behind the gate. *)
Definition behind (s : adminServer) (i : route_info) : Prop := ri_Handlers i = gate_middleware s ∧ protected (ri_Route i).

(** Whether the page is there, which is embedded. *)
Definition is_page (index : option string) : bool := match index with Some _ => true | None => false end.

(** The routes of the server itself, in the order they are registered. *)
Definition public_table (page : bool) : list (string * string * admin_route) :=
  [("GET", "/health", HealthRoute); ("GET", "/ready", ReadyRoute)] ++
  (if page then [("GET", "/", WebRoute); ("GET", "/dashboard", WebRoute)] else []) ++
  [("POST", "/login", LoginRoute); ("POST", "/logout", LogoutRoute)].

Definition private_table (registry : bool) : list (string * string * admin_route) :=
  (if registry then [("GET", "/metrics", MetricsRoute)] else []) ++
  ((λ p : string * string, (p.1, "/debug/pprof/" +:+ p.2, PprofRoute (if decide (p.2 = "") then "index" else p.2))) <$>
    [("GET", ""); ("GET", "cmdline"); ("GET", "profile"); ("POST", "symbol"); ("GET", "symbol"); ("GET", "trace");
     ("GET", "allocs"); ("GET", "block"); ("GET", "goroutine"); ("GET", "heap"); ("GET", "mutex"); ("GET", "threadcreate")]).

Definition with_handlers (hs : list admin_middleware) (p : string * string * admin_route) : route_info :=
  mkRouteInfo p.1.1 p.1.2 hs p.2.

Definition public_infos (page : bool) : list route_info := with_handlers [Recovery] <$> public_table page.

Definition own_routes (page registry : bool) (s : adminServer) : list route_info :=
  public_infos page ++ (with_handlers (gate_middleware s) <$> private_table registry).

(** An engine of the server: the public routes, then routes behind the gate. *)
Definition gated (s : adminServer) (e : engine) : Prop :=
  en_Handlers e = gate_middleware s ∧ ∃ l, en_Routes e = (public_infos true ++ l)%list ∧ Forall (behind s) l.

#[local] Close Scope string_scope.

Section registering.
Context `{GinTreeLaws}.

Lemma group_Handle_Some g method path h e e' :
  group_Handle g method path h e = Some e' →
  gin_add (patterns e method) (rg_BasePath g +:+ path) = true ∧
  e' = mkEngine (en_Handlers e) (en_Routes e ++ [mkRouteInfo method (rg_BasePath g +:+ path) (rg_Handlers g) h]).
Proof. unfold group_Handle. intros (Hadd&_&[= <-])%bind_Some. done. Qed.

(** A pattern apart from those of its method is registered. *)
Definition fresh_pattern (method p : string) (e : engine) : bool :=
  pattern_ok p && forallb (λ q, pattern_ok q && apart p q) (patterns e method).

Lemma group_Handle_fresh g method path h e :
  fresh_pattern method (rg_BasePath g +:+ path) e = true →
  group_Handle g method path h e =
    Some (mkEngine (en_Handlers e) (en_Routes e ++ [mkRouteInfo method (rg_BasePath g +:+ path) (rg_Handlers g) h])).
Proof. unfold fresh_pattern. rewrite andb_true_iff. intros [Hp Hl]. unfold group_Handle. by rewrite option_guard_True by (by apply gin_apart). Qed.

End registering.

(** Registers the next route of a chain. *)
Ltac engine_cbn :=
  cbn [mbind option_bind en_Handlers en_Routes engine_Group rg_BasePath rg_Handlers String.append app Use gin_New
       public_infos public_table with_handlers fmap list_fmap fst snd is_page group_Group group_Register
       upstream_Register cluster_Register gossip_Register].
Ltac register := rewrite group_Handle_fresh by (by vm_compute); engine_cbn.

Section registered.
Context `{GinTreeLaws}.

Lemma public_routes_own index :
  public_routes index = Some (mkEngine [Recovery] (public_infos (is_page index))).
Proof.
  unfold public_routes, engine_GET. register. register. destruct index as [page|]; simpl registerWeb.
  - unfold engine_GET, engine_POST. do 4 register. done.
  - cbn [mbind option_bind]. unfold engine_POST. do 2 register. done.
Qed.

(** [NewServer] registers its routes without a panic. *)
Lemma admin_router_own index registry s :
  admin_router index registry s =
    Some (mkEngine (gate_middleware s) (own_routes (is_page index) registry s)).
Proof.
  unfold admin_router. rewrite public_routes_own. cbn [mbind option_bind]. set (e2 := match clusterState s with Some _ => _ | None => _ end).
  assert (e2 = mkEngine (gate_middleware s) (public_infos (is_page index))) as ->.
  { subst e2. unfold gate_middleware. by destruct (clusterState s), (verifier s), (passwords s). }
  unfold own_routes. generalize (gate_middleware s). intros hs.
  unfold admin_registerRoutes, engine_GET. destruct index as [page|], registry; cbv zeta; engine_cbn; repeat register; done.
Qed.

(** Adding status handlers appends their routes, with the middleware in use. *)
Lemma AddStatus_routes route handlers e e' :
  engine_AddStatus route handlers e = Some e' →
  e' = mkEngine (en_Handlers e) (en_Routes e ++
    ((λ p, mkRouteInfo "GET" ("/status" +:+ route +:+ p.1) (en_Handlers e) (StatusRoute p.2)) <$> handlers)).
Proof using.
  clear. unfold engine_AddStatus. change (en_Handlers e) with (rg_Handlers (group_Group route (engine_Group "/status" e))) at 2.
  assert (rg_BasePath (group_Group route (engine_Group "/status" e)) = "/status" +:+ route) as Hb by done.
  generalize dependent (group_Group route (engine_Group "/status" e)). intros g Hg. revert e.
  induction handlers as [|[path h] handlers IH]; intros e; simpl; [intros [= <-]; rewrite app_nil_r; by destruct e|].
  intros (e1&He1&H')%bind_Some. apply group_Handle_Some in He1 as [_ ->]. apply IH in H' as ->. simpl.
  by rewrite Hg, <-app_assoc, string_app_assoc.
Qed.

Lemma AddStatus_gated s route handlers e e' :
  gated s e → engine_AddStatus route handlers e = Some e' → gated s e'.
Proof.
  intros (He&l&Hl&Hb) ->%AddStatus_routes. split; [done|]. simpl. rewrite Hl, He, <-app_assoc. eexists. split; [done|].
  apply Forall_app. split; [done|]. by apply Forall_fmap, Forall_true.
Qed.

Lemma add_statuses_gated s l e e' : gated s e → add_statuses l e = Some e' → gated s e' ∧ ∃ l', en_Routes e' = en_Routes e ++ l'.
Proof.
  revert e. induction l as [|[route handlers] l IH]; intros e He; simpl; [intros [= <-]; split; [done|exists []; by rewrite app_nil_r]|].
  intros (e1&He1&H')%bind_Some. pose proof (AddStatus_gated s _ _ _ _ He He1) as Hg.
  destruct (IH e1 Hg H') as [Hg' [l' Hl']]. split; [done|]. apply AddStatus_routes in He1 as ->. rewrite Hl'. simpl.
  rewrite <-app_assoc. by eexists.
Qed.

End registered.

Section gate.
Context `{Hgin : Gin, Htree : GinTree, !GinLaws, Htl : !GinTreeLaws} (HMAC : string → string → string).

(** The gate and the interceptor, as [admin_serve] has them. *)
Lemma run_gate now s r :
  run_middleware HMAC now s (gate_middleware s) r =
    match admin_gate HMAC now s r with
    | Some resp => Reject resp
    | None => match clusterState s with None => Local | Some cluster => forwardInterceptor cluster r end
    end.
Proof.
  assert (∀ c, match forwardInterceptor c r with Local => Local | res => res end = forwardInterceptor c r) as Hf.
  { intros c. by destruct (forwardInterceptor c r). }
  assert (verifier s = None → passwords s = None → admin_gate HMAC now s r = None) as Hopen.
  { intros Hv Hp. unfold admin_gate. by rewrite Hv, Hp. }
  unfold gate_middleware.
  destruct (verifier s) eqn:Hv, (passwords s) eqn:Hp, (clusterState s) eqn:Hc; simpl; rewrite ?Hopen, ?Hc, ?Hf by done;
    try done; by destruct (admin_gate HMAC now s r).
Qed.

(** The routes outside the gate. *)
Definition public_route (method path : string) : option admin_route :=
  if decide (method = "GET") then
    if decide (path = "/health") then Some HealthRoute
    else if decide (path = "/ready") then Some ReadyRoute
    else if decide (path = "/" ∨ path = "/dashboard") then Some WebRoute
    else None
  else if decide (method = "POST") then
    if decide (path = "/login") then Some LoginRoute else if decide (path = "/logout") then Some LogoutRoute else None
  else None.

Lemma admin_serve_public now rand s r :
  admin_serve HMAC now rand s r =
    match public_route (r_Method (ar_request r)) (r_Path (ar_request r)) with
    | Some h => run_route HMAC now rand s r h
    | None =>
        match admin_gate HMAC now s r with
        | Some resp => Reject resp
        | None => match clusterState s with None => Local | Some cluster => forwardInterceptor cluster r end
        end
    end.
Proof.
  unfold admin_serve, public_route. cbv zeta. set (m := r_Method _). set (path := r_Path _).
  assert (∀ P (HP : Decision P) A (x y : A), (if bool_decide P then x else y) = if decide P then x else y) as Hb.
  { intros P HP A x y. by case_bool_decide; case_decide. }
  destruct (decide (m = "GET")) as [Hm|Hm].
  - rewrite (bool_decide_true (m = "GET")), (bool_decide_false (m = "POST")) by congruence. cbn [andb]. rewrite !Hb.
    by repeat case_decide.
  - rewrite (bool_decide_false (m = "GET")) by done. cbn [andb]. destruct (decide (m = "POST")) as [Hp|Hp].
    + rewrite (bool_decide_true (m = "POST")) by done. cbn [andb]. rewrite !Hb. by repeat case_decide.
    + by rewrite (bool_decide_false (m = "POST")).
Qed.

(** The public routes of the engine are those. *)
Lemma public_infos_spec i :
  i ∈ public_infos true →
  ri_Handlers i = [Recovery] ∧ public_route (ri_Method i) (ri_Path i) = Some (ri_Route i) ∧ static (ri_Path i) = true.
Proof using.
  clear. intros Hi. simpl in Hi. repeat (apply elem_of_cons in Hi as [-> | Hi]; [done|]). by apply elem_of_nil in Hi.
Qed.

Lemma public_infos_all method path h :
  public_route method path = Some h →
  static path = true ∧ filter (λ i, ri_Method i = method ∧ ri_Path i = path) (public_infos true) = [mkRouteInfo method path [Recovery] h].
Proof using.
  clear. unfold public_route. repeat case_decide; destruct_or?; intros [= <-]; subst; by vm_compute.
Qed.

Lemma elem_of_patterns e i : i ∈ en_Routes e → ri_Path i ∈ patterns e (ri_Method i).
Proof using. clear. intros Hi. apply list_elem_of_fmap. exists i. split; [done|]. by apply list_elem_of_filter. Qed.

(** What an engine matches. *)
Lemma gated_match s e method path :
  gated s e →
  match public_route method path with
  | Some h => engine_match e method path = ([Recovery], Some (h, ""))
  | None => (engine_match e method path).1 = gate_middleware s ∧
      ∀ h param, (engine_match e method path).2 = Some (h, param) → protected h
  end.
Proof.
  intros (He&l&Hl&Hb). unfold engine_match. destruct (public_route method path) as [h|] eqn:Hp.
  - destruct (public_infos_all _ _ _ Hp) as [Hc Hf].
    assert (mkRouteInfo method path [Recovery] h ∈ en_Routes e) as Hi.
    { rewrite Hl. apply elem_of_app. left. assert (mkRouteInfo method path [Recovery] h ∈ [mkRouteInfo method path [Recovery] h]) as Hi by by left.
      rewrite <-Hf in Hi. by apply list_elem_of_filter in Hi as [_ Hi]. }
    rewrite gin_static; [|exact (elem_of_patterns _ _ Hi)|done]. by rewrite Hl, filter_app, Hf.
  - destruct (gin_match _ path) as [[p v]|] eqn:Hg; [|done]. apply gin_exact in Hg as [_ Hex].
    rewrite Hl, filter_app. destruct (filter _ (public_infos true)) as [|i l0] eqn:Hf.
    + simpl. destruct (head _) as [i|] eqn:Hh; [|done]. simpl.
      assert (i ∈ l) as Hi. { apply head_Some_elem_of, list_elem_of_filter in Hh. tauto. }
      rewrite Forall_forall in Hb. destruct (Hb i Hi) as [-> Hpr]. split; [done|]. by intros h param [= <- <-].
    + exfalso. assert (i ∈ filter (λ i, ri_Method i = method ∧ ri_Path i = p) (public_infos true)) as Hi.
      { rewrite Hf. by left. }
      apply list_elem_of_filter in Hi as [[<- <-] Hi]. destruct (public_infos_spec i Hi) as (_&Hpub&Hc).
      rewrite (Hex Hc) in Hpub. congruence.
Qed.

(** Serving: the engine does what [admin_serve] says. *)
Lemma gated_serve s e now rand r res route :
  gated s e → engine_serve HMAC now rand s e r = Some (res, route) →
  res = admin_serve HMAC now rand s r ∧
  ∀ h param, route = Some (h, param) → protected h → admin_serve HMAC now rand s r = Local.
Proof.
  intros Hg. pose proof (gated_match s e (r_Method (ar_request r)) (r_Path (ar_request r)) Hg) as Hm.
  rewrite admin_serve_public. unfold engine_serve. destruct (_ && _); [done|]. destruct (public_route _ _) as [h|].
  - rewrite Hm. simpl. intros [= <- <-]. split; [done|]. intros h' param [= <- <-]. by destruct h.
  - destruct (engine_match _ _ _) as [hs rt]. simpl in Hm. destruct Hm as [-> Hr]. rewrite run_gate. intros [= Hres].
    destruct (match admin_gate HMAC now s r with Some resp => Reject resp | None => _ end) as [| | | | | |];
      try (by injection Hres as <- <-).
    destruct rt as [[h param]|]; [specialize (Hr h param eq_refl)|]; injection Hres as <- <-; [|done]. by destruct h.
Qed.

(** A route of the server itself is the only one of its method and path. *)
Definition route_key (i : route_info) : string * string := (ri_Method i, ri_Path i).

Lemma filter_key (l : list route_info) i :
  NoDup (route_key <$> l) → i ∈ l → filter (λ j, ri_Method j = ri_Method i ∧ ri_Path j = ri_Path i) l = [i].
Proof using.
  clear. induction l as [|j l IH]; [by rewrite elem_of_nil|]. rewrite fmap_cons, NoDup_cons. intros [Hj Hnd] Hi.
  assert (∀ k, k ∈ l → ¬ (ri_Method k = ri_Method j ∧ ri_Path k = ri_Path j)) as Hne.
  { intros k Hk [Hm Hp]. apply Hj, list_elem_of_fmap. exists k. unfold route_key. by rewrite Hm, Hp. }
  apply elem_of_cons in Hi as [-> | Hi].
  - rewrite filter_cons_True by done. f_equal. destruct (filter _ l) as [|k l0] eqn:Hf; [done|]. exfalso.
    assert (k ∈ filter (λ k, ri_Method k = ri_Method j ∧ ri_Path k = ri_Path j) l) as [Hk1 Hk2]%list_elem_of_filter
      by (rewrite Hf; by left). by eapply Hne.
  - rewrite filter_cons_False; [by apply IH|]. intros [Hm Hp]. apply (Hne i Hi). by rewrite Hm, Hp.
Qed.

Lemma own_routes_keys registry s : NoDup (route_key <$> own_routes true registry s).
Proof using. clear. destruct registry; by apply (bool_decide_eq_true_1 _); vm_compute. Qed.

Lemma own_routes_static registry s i : i ∈ own_routes true registry s → static (ri_Path i) = true.
Proof using.
  clear. assert (Forall (λ j, static (ri_Path j) = true) (own_routes true registry s)) as Hf
    by by destruct registry; repeat constructor.
  rewrite Forall_forall in Hf. by apply Hf.
Qed.

(** A request for a route of the server itself takes it, and is not redirected. *)
Lemma own_route_match registry s e l' i :
  en_Routes e = own_routes true registry s ++ l' → i ∈ own_routes true registry s →
  gin_redirects (patterns e (ri_Method i)) (ri_Path i) = false ∧
  engine_match e (ri_Method i) (ri_Path i) = (ri_Handlers i, Some (ri_Route i, "")).
Proof using All.
  intros Hl Hi. assert (gin_match (patterns e (ri_Method i)) (ri_Path i) = Some (ri_Path i, "")) as Hm.
  { apply gin_static; [|by eapply own_routes_static]. apply elem_of_patterns. rewrite Hl. apply elem_of_app. by left. }
  split.
  - destruct (gin_redirects _ _) eqn:Hr; [|done]. apply gin_unmatched in Hr. congruence.
  - unfold engine_match. rewrite Hm, Hl, filter_app, filter_key by (done || apply own_routes_keys). done.
Qed.

(** The agent's server runs no other route. *)
Lemma agent_router_match registry e method path h param :
  agent_router registry = Some e → (engine_match e method path).2 = Some (h, param) →
  h = MetricsRoute ∧ registry = true ∧ method = "GET" ∧ path = "/metrics".
Proof.
  intros He. unfold engine_match. destruct (gin_match _ path) as [[p v]|] eqn:Hg; [|done]. apply gin_exact in Hg as [Hin Hex].
  destruct (head _) as [i|] eqn:Hh; [|done]. apply head_Some_elem_of, list_elem_of_filter in Hh as [[Hm Hp] Hi].
  destruct registry; simpl in He; [|injection He as <-; by apply elem_of_nil in Hi].
  apply group_Handle_Some in He as [_ ->]. apply list_elem_of_singleton in Hi as ->.
  simpl in *. intros [= <- <-]. subst. split_and!; try done. exact (eq_sym (Hex eq_refl)).
Qed.

Lemma agent_router_registers registry : is_Some (agent_router registry).
Proof. destruct registry; [|done]. simpl. unfold engine_GET. by rewrite group_Handle_fresh by (by vm_compute). Qed.

(** A started node has the routes of [status_routes], for GET. *)
Definition status_of (i : route_info) : option (string * Status.handler) :=
  match ri_Route i with StatusRoute h => Some (ri_Path i, h) | _ => None end.

Lemma status_of_added hs (l : list (string * Status.handler)) pre :
  omap status_of ((λ p, mkRouteInfo "GET" (pre p.1) hs (StatusRoute p.2)) <$> l) = (λ p, (pre p.1, p.2)) <$> l.
Proof using. clear. induction l as [|p l IH]; [done|]. csimpl. by rewrite IH. Qed.

Lemma own_routes_no_status registry s : omap status_of (own_routes true registry s) = [].
Proof using. clear. by destruct registry. Qed.

(** A node registers its routes without a panic. *)
Lemma started_router_status `{MapIter} `{JSON (list cnodeMetadata), JSON (option cnode), JSON (list NodeMetadata),
    JSON NodeState, JSON (gmap string Z), JSON (list ConnMetadata)} page registry n :
  ∃ e, started_router (Some page) registry n = Some e ∧ omap status_of (en_Routes e) = status_routes n.
Proof using Htl.
  assert (is_Some (started_router (Some page) registry n)) as [e He].
  { unfold started_router, node_router, engine_AddStatus. rewrite admin_router_own.
    change (own_routes (is_page (Some page)) registry (an_server n)) with (own_routes true registry (an_server n)).
    generalize (gate_middleware (an_server n)). intros hs. destruct registry; engine_cbn; repeat register; done. }
  exists e. split; [done|]. revert He. unfold started_router, node_router. rewrite admin_router_own. cbn [mbind option_bind].
  intros (e1&(e0&->%AddStatus_routes&->%AddStatus_routes)%bind_Some&->%AddStatus_routes)%bind_Some. cbn [en_Routes en_Handlers].
  unfold status_routes. rewrite !omap_app. change (is_page (Some page)) with true. rewrite own_routes_no_status.
  rewrite (status_of_added _ _ (λ p, "/status" +:+ "/upstream" +:+ p)), (status_of_added _ _ (λ p, "/status" +:+ "/cluster" +:+ p)),
    (status_of_added _ _ (λ p, "/status" +:+ "/gossip" +:+ p)). by rewrite <-!app_assoc.
Qed.

(** ** Properties *)

(** C23. The admin server's router keeps the gate: [NewServer] registers its own
    routes without a panic, and once any status handlers have been added, before
    it serves or between two requests, without gin panicking on a pattern it
    already has or that conflicts, the engine answers every request that gin does
    not redirect for a slash at its end as [admin_serve] says; a route that shows
    the metrics, a profile or the status of the node runs only for a request
    that was admitted and is about this node; and the request for a route of the
    server itself is not redirected, and runs that route when it passes its
    middleware. *)
Theorem admin_router_gated_serving page registry s :
  ∃ e0, admin_router (Some page) registry s = Some e0 ∧ en_Routes e0 = own_routes true registry s ∧
    ∀ added e now rand r, add_statuses added e0 = Some e →
      (∀ res route, engine_serve HMAC now rand s e r = Some (res, route) →
        res = admin_serve HMAC now rand s r ∧
        ∀ h param, route = Some (h, param) → protected h →
          admitted HMAC now s r ∧ ∀ c, clusterState s = Some c → forwardInterceptor c r = Local) ∧
      ∀ i, i ∈ own_routes true registry s →
        r_Method (ar_request r) = ri_Method i → r_Path (ar_request r) = ri_Path i →
        ∃ res route, engine_serve HMAC now rand s e r = Some (res, route) ∧
          (run_middleware HMAC now s (ri_Handlers i) r = Local → route = Some (ri_Route i, "")).
Proof using All.
  eexists. split; [apply admin_router_own|]. split; [done|]. intros added e now rand r He.
  apply (add_statuses_gated s) in He as [He [l' Hl']].
  2: { split; [done|]. eexists. split; [done|]. apply Forall_fmap, Forall_forall. intros p Hp. split; [done|].
       unfold private_table in Hp. destruct registry; simpl in Hp;
         repeat (apply elem_of_cons in Hp as [-> | Hp]; [done|]); by apply elem_of_nil in Hp. }
  split.
  - intros res route Hs. destruct (gated_serve s e now rand r res route He Hs) as [Heq Hprot]. split; [done|].
    intros h param Hh Hp. pose proof (Hprot h param Hh Hp) as Hl.
    destruct (admin_serve_behind HMAC now rand s r _ Hl) as [Ha Hf]; [by left|]. split; [done|].
    intros c Hc. by rewrite Hc in Hf.
  - intros i Hi Hm Hp. destruct (own_route_match registry s e l' i Hl' Hi) as [Hred Hmatch].
    unfold engine_serve. rewrite Hm, Hp, Hred, andb_false_r, Hmatch. eexists _, _. split; [apply f_equal, surjective_pairing|].
    by intros ->.
Qed.
End gate.

(** ** Witnesses *)

(** gin's tree: the patterns that are apart from the others can be added. *)
#[local] Instance ex_gin_tree : GinTree := {
  gin_add l p := pattern_ok p && forallb (λ q, pattern_ok q && apart p q) l;
  gin_redirects l path :=
    bool_decide (gin_match l path = None) &&
    (bool_decide (path +:+ "/" ∈ l) || match CutLast path "/" with Some (p, "") => bool_decide (p ∈ l) | _ => false end);
}.

#[local] Instance ex_gin_tree_laws : GinTreeLaws.
Proof.
  split.
  - intros l path p v. unfold gin_match, ex_gin. case_decide as Hd; [by intros [= <- <-]; destruct Hd|].
    destruct (CutLast path "/") as [[a b]|]; [|done]. simpl. case_guard; [|done]. simpl.
    destruct (filter _ l) as [|q l'] eqn:Hf; [done|]. simpl. intros [= -> ->].
    assert (p ∈ filter (λ q, fst <$> Cut q ":" = Some (a +:+ "/")) l) as [Hc Hp]%list_elem_of_filter by (rewrite Hf; by left).
    split; [done|]. destruct (Cut p ":") as [x|] eqn:Hx; [|done]. intros Hn.
    assert (Contains p ":" = true) as Hcon by (apply Contains_Cut; by eexists). unfold static in Hn. by rewrite Hcon in Hn.
  - intros l path. simpl. rewrite andb_true_iff, bool_decide_eq_true. by intros [? _].
  - intros l p Hp. simpl. apply andb_false_iff. right. apply not_true_is_false. intros Hall.
    rewrite forallb_forall in Hall. specialize (Hall p ltac:(by apply list_elem_of_In)).
    apply andb_true_iff in Hall as [_ Ha]. unfold apart in Ha. by rewrite bool_decide_false in Ha by (intros Hne; by apply Hne).
  - intros l p Hp Hl. simpl. by rewrite Hp, Hl.
Qed.

Definition ex_server : adminServer := Admin.NewServer ex_HMAC (Some Admin.ex_cluster) None "secret".

Definition ex_added : list (string * list (string * Status.handler)) := [("/node", [("/id", λ _, (StatusOK, "n1"))])].

Definition ex_router : engine :=
  default gin_New (admin_router (Some "page") true ex_server ≫= add_statuses ex_added).

Lemma admin_router_gated_serving_witness :
  engine_serve ex_HMAC ex_now None ex_server ex_router (ex_request "/metrics" None (Some ex_token) None) =
    Some (Local, Some (MetricsRoute, "")) ∧
  admitted ex_HMAC ex_now ex_server (ex_request "/metrics" None (Some ex_token) None) ∧
  engine_serve ex_HMAC ex_now None ex_server ex_router (ex_request "/metrics/" None None None) = None.
Proof.
  destruct (admin_router_gated_serving ex_HMAC "page" true ex_server) as (e0&He0&_&Hserve).
  assert (admin_router (Some "page") true ex_server ≫= add_statuses ex_added = Some ex_router) as He by by vm_compute.
  rewrite He0 in He.
  destruct (Hserve ex_added ex_router ex_now None (ex_request "/metrics" None (Some ex_token) None) He) as [Hgate Hrun].
  destruct (Hrun (with_handlers [Recovery; Authenticate; ForwardInterceptor] ("GET", "/metrics", MetricsRoute)))
    as (res&route&Hs&Hl).
  - by apply (list_elem_of_lookup_2 _ 6).
  - reflexivity.
  - reflexivity.
  - rewrite (Hl ltac:(by vm_compute)) in Hs. destruct (Hgate res _ Hs) as [Hres Hprot]. split; [|split].
    + rewrite Hs, Hres. by vm_compute.
    + by apply (Hprot _ _ eq_refl).
    + by vm_compute.
Defined.
