(* ===== verification/AgentCommands.v ===== *)
(** * The commands of the agent and the forwarder: cli/agent and cli/forward

    What is left of the commands beyond [Commands]: the flags of [agent http] and
    [agent tcp], the preparation of [forward start], the address of the agent's
    own server and the status a command exits with.  The servers are run by a
    group of github.com/oklog/run, which is not modelled. *)

From coqutil Require Import Datatypes.RecordSetters.
From S2P Require Import Prelude GoLib NetLib HttpLib ConfigLib Logging AgentConfig Middleware Commands.

(** ** The commands *)

(** The agent server of [runAgent]: the address it listens on, when it is
    enabled. *)
Definition listen_agent_server (NetListen : string → option error) (conf : agent_Config) : error + option string :=
  if sr_Enabled (ag_Server conf) then
    match NetListen (sr_BindAddr (ag_Server conf)) with
    | Some err => inl ("server listen: " +:+ sr_BindAddr (ag_Server conf) +:+ ": " +:+ err)%string
    | None => inr (Some (sr_BindAddr (ag_Server conf)))
    end
  else inr None.

(** [start] of the forwarder: the ports of the configuration file. *)
Definition forward_start_PreRun (conf : forward_Config) : error + forward_Config :=
  match setup_logger (fw_Log conf) conf with
  | inl err => inl err
  | inr conf => if decide (length (fw_Ports conf) = 0) then inl "no ports configured"%string else inr conf
  end.

(** The variables of [agent http] and [agent tcp] with their flags, after those
    of the agent. *)
Record http_vars := mkHttpVars {
  hv_conf : agent_Config;
  hv_loadConf : load_config;
  hv_accessLog : AccessLogConfig;
  hv_timeout : Z;
  hv_httpClient : ListenerHTTPClientConfig;
}.

Definition http_client_flags {S} (c : ptr S ListenerHTTPClientConfig) : list (flag S) :=
  [Var (field c KeepAliveTimeout) "http-client.keep-alive-timeout" (30 * Second)%Z;
   Var (field c IdleConnTimeout) "http-client.idle-conn-timeout" (90 * Second)%Z;
   Var (field c MaxIdleConns) "http-client.max-idle-conns" 100%Z;
   Var (field c DisableCompression) "http-client.disable-compression" false].

Definition tcp_access_flags {S} (s : S) (c : ptr S AccessLogConfig) : list (flag S) :=
  [FieldVar s c al_Level "access-log.level"; FieldVar s c Disable "access-log.disable"].

Definition http_flags (s : http_vars) : list (flag http_vars) :=
  agent_RegisterFlags s (field whole hv_conf) ++ load_RegisterFlags (field whole hv_loadConf) ++
  access_RegisterFlags s (field whole hv_accessLog) "" ++
  Var (field whole hv_timeout) "timeout" (10 * Second)%Z :: http_client_flags (field whole hv_httpClient).

Definition tcp_flags (s : http_vars) : list (flag http_vars) :=
  agent_RegisterFlags s (field whole hv_conf) ++ load_RegisterFlags (field whole hv_loadConf) ++
  tcp_access_flags s (field whole hv_accessLog) ++ [Var (field whole hv_timeout) "timeout" (10 * Second)%Z].

(** The access log before the flags are parsed. *)
Definition command_accessLog : AccessLogConfig := mkAccessLogConfig "info" (mkHeaderConfig [] []) (mkHeaderConfig [] []) false.

(** The status a command exits with, for what it returned. *)
Definition command_exit (err : option error) : nat := match err with None => 0 | Some _ => 1 end.

(** ** The flags of [agent http] and [agent tcp] *)

Lemma below_http_client {S} (c : ptr S ListenerHTTPClientConfig) : lawful c → below c (http_client_flags c).
Proof. intros Hc. unfold http_client_flags. solve_below. Qed.

Lemma below_tcp_access {S} (s : S) (c : ptr S AccessLogConfig) : lawful c → below c (tcp_access_flags s c).
Proof. intros Hc. unfold tcp_access_flags. solve_below. Qed.
#[local] Hint Resolve below_http_client below_tcp_access : flags.

Lemma below_http_flags s : below whole (http_flags s).
Proof. unfold http_flags. pose proof (@lawful_whole http_vars) as Hc. solve_below. Qed.

Lemma below_tcp_flags s : below whole (tcp_flags s).
Proof. unfold tcp_flags. pose proof (@lawful_whole http_vars) as Hc. solve_below. Qed.

(** The flags of [agent http] and [agent tcp] are well formed, together with
    those of the agent: once they are defined, the variables hold the documented
    defaults. *)
Theorem listener_flags_ok hostname :
  let client := mkHTTPClient (30 * Second) (90 * Second) 100 false in
  let vars client := mkHttpVars (agent_Default hostname) (mkLoadConfig "" false) command_accessLog (10 * Second) client in
  flags_ok (vars client) (http_flags (vars client)) ∧ flags_ok (vars zero_http_client) (tcp_flags (vars zero_http_client)) ∧
  foldl define (vars zero_http_client) (http_flags (vars zero_http_client)) = vars client.
Proof.
  split_and!; [eapply below_flags_ok; [apply below_http_flags|..]|eapply below_flags_ok; [apply below_tcp_flags|..]|].
  all: first [reflexivity|apply (bool_decide_eq_true_1 _); vm_compute; reflexivity].
Qed.
