(* ===== verification/Sessions.v ===== *)
(** * Opening sessions: the options of pkg/websocket, and the yamux sessions of
      server/upstream/server.go and client/upstream.go

    The dialer [websocket.Dial] builds from its options, the deadlines of its
    connections, the upgrader of the server, and the configuration both ends
    give yamux, which refuses some: the code panics when it does, since that
    "will not happen".  yamux is the class [Yamux] with its documented checks. *)

From S2P Require Import Prelude GoLib NetLib HttpLib Transport Client ConfigLib ServerConfig AgentConfig Middleware Commands.

Local Open Scope string_scope.

(** ** pkg/websocket: dialing *)

Definition bufferSize : Z := 64 * 1024.

(** [dialOptions]: those that make the request, the TLS configuration and the
    proxy. *)
Record dial_options := mkOptions {
  op_request : dialOptions;
  op_tlsConfig : option tls_Config;
  op_proxyURL : option string;
}.

Inductive DialOption :=
  | WithToken (token : string)
  | WithTenantID (tenantID : string)
  | WithProxyURL (url : option string)
  | WithTLSConfig (config : option tls_Config)
  | WithCompression (enabled : bool).

Definition set_request (f : dialOptions → dialOptions) (o : dial_options) : dial_options :=
  mkOptions (f (op_request o)) (op_tlsConfig o) (op_proxyURL o).

Definition apply_option (opts : dial_options) (o : DialOption) : dial_options :=
  match o with
  | WithToken token => set_request (λ r, mkDialOptions token (do_tenantID r) (do_compression r)) opts
  | WithTenantID id => set_request (λ r, mkDialOptions (do_token r) id (do_compression r)) opts
  | WithProxyURL url => mkOptions (op_request opts) (op_tlsConfig opts) url
  | WithTLSConfig c => mkOptions (op_request opts) c (op_proxyURL opts)
  | WithCompression b => set_request (λ r, mkDialOptions (do_token r) (do_tenantID r) b) opts
  end.

(** gorilla's [Dialer] and [Upgrader]. *)
Record ws_dialer := mkWsDialer {
  dl_HandshakeTimeout : Z;
  dl_ReadBufferSize : Z;
  dl_WriteBufferSize : Z;
  dl_EnableCompression : bool;
  dl_Proxy : option string;
  dl_TLSClientConfig : option tls_Config;
}.

Record ws_upgrader := mkUpgrader {
  ug_ReadBufferSize : Z;
  ug_WriteBufferSize : Z;
  ug_EnableCompression : bool;
}.

Definition NewUpgrader : ws_upgrader := mkUpgrader bufferSize bufferSize true.

(** [NewTCPProxy] of the proxy: gorilla's own sizes, and no compression. *)
Definition proxy_upgrader : ws_upgrader := mkUpgrader 0 0 false.

Definition dial_options_of (opts : list DialOption) : dial_options :=
  foldl apply_option (mkOptions (mkDialOptions "" "" false) None None) opts.

Definition dialer_of (o : dial_options) : ws_dialer :=
  mkWsDialer (60 * Second) bufferSize bufferSize (do_compression (op_request o)) (op_proxyURL o) (op_tlsConfig o).

(** [websocket.Dial] with its options: [DialContext] is the handshake of a
    dialer. *)
Definition websocket_Dial (DialContext : ws_dialer → URL → header → handshake) (u : URL) (opts : list DialOption) : dial_result :=
  let o := dial_options_of opts in
  ws_Dial (λ u h _, DialContext (dialer_of o) u h) u (op_request o).

(** *** Deadlines *)

(** gorilla's deadlines: [None] when one is set. *)
Class Deadlines (W : Type) := {
  SetReadDeadline : W → time → W * option string;
  SetWriteDeadline : W → time → W * option string;
}.

(** [Conn.SetDeadline]: the write deadline is left alone when setting the read
    deadline fails. *)
Definition ws_SetDeadline `{Deadlines W} (c : ws_conn W) (t : time) : ws_conn W * option string :=
  let '(w1, err) := SetReadDeadline (wsConn c) t in
  match err with
  | Some err => (mkWsConn w1 (reader c), Some err)
  | None => let '(w2, err) := SetWriteDeadline w1 t in (mkWsConn w2 (reader c), err)
  end.

(** ** yamux *)

(** The fields of [yamux.Config] the code sets; the others keep their defaults.
    A logger and an output are set or nil. *)
Record mux_config := mkMuxConfig {
  mc_Logger : bool;
  mc_LogOutput : bool;
  mc_MaxStreamWindowSize : Z;
}.

(** Whether opening a session with a configuration fails. *)
Class Yamux := mux_error : mux_config → option string.

(** "Only one of Logger and LogOutput", and a window of at least 256 KiB. *)
Class YamuxLaws `{Yamux} := {
  mux_valid c : mc_Logger c ≠ mc_LogOutput c → (256 * 1024 ≤ mc_MaxStreamWindowSize c)%Z → mux_error c = None;
  mux_invalid c : (mc_MaxStreamWindowSize c < 256 * 1024)%Z → mux_error c ≠ None;
}.

(** [upstreamRoute]: the configuration of the server's session, which logs
    through its logger. *)
Definition server_muxConfig (c : StreamConfig) : mux_config := mkMuxConfig true false (Z.of_N (st_MaxWindowSize c)).

(** [Upstream.connect]: that of the client, which logs through a writer. *)
Definition client_muxConfig (up : Upstream) : mux_config :=
  mkMuxConfig false true (if decide (Client.MaxWindowSize up = 0)%Z then defaultMaxWindowSize else Client.MaxWindowSize up).

(** The options [connect] dials with. *)
Definition connect_options (tls : option tls_Config) (proxy : option string) (up : Upstream) : list DialOption :=
  [WithToken (Token up); WithTenantID (TenantID up); WithTLSConfig tls; WithProxyURL proxy; WithCompression (Compression up)].

Section sessions.
Context `{Yamux}.

(** [yamux.Server] and [yamux.Client]; [None] is the panic. *)
Definition open_session (c : mux_config) : option mux_config :=
  match mux_error c with Some _ => None | None => Some c end.

Definition server_session (c : StreamConfig) : option mux_config := open_session (server_muxConfig c).
Definition client_session (up : Upstream) : option mux_config := open_session (client_muxConfig up).

End sessions.

(** The [Upstream] of the agent. *)
Definition agent_upstream (conf : agent_Config) (u : URL) : Upstream :=
  Client.mkUpstream (Some u) (cn_Token (ag_Connect conf)) (cn_TenantID (ag_Connect conf)) (ag_Name conf) 0 0
    (Z.of_N (as_MaxWindowSize (ag_Stream conf))) false.

(** *** The upstream server *)

(** [Serve], for what net/http returned, and [Shutdown], which cancels the
    upstream connections when the HTTP server is shut down. *)
Definition upstream_Serve : bool → option serve_error → option serve_error → option error := server_Serve.

Inductive upstream_shutdown := HTTPShutdown | CancelUpstreams.

Definition upstream_Shutdown (err : option error) : list upstream_shutdown * option error := ([HTTPShutdown; CancelUpstreams], err).

(** ** Lemmas *)

#[local] Close Scope string_scope.

(** The connection of a client is dialed with the request [connect_loop] makes. *)
Lemma connect_options_request tls proxy up :
  dial_options_of (connect_options tls proxy up) = mkOptions (mkDialOptions (Token up) (TenantID up) (Compression up)) tls proxy.
Proof. done. Qed.

Lemma connect_dials DialContext tls proxy up u :
  websocket_Dial DialContext u (connect_options tls proxy up) =
    ws_Dial (λ u h compression, DialContext (mkWsDialer (60 * Second) bufferSize bufferSize compression proxy tls) u h) u
      (mkDialOptions (Token up) (TenantID up) (Compression up)).
Proof. done. Qed.

Section session_lemmas.
Context `{YamuxLaws, TLSEnv, URLEnv}.

(** Sessions open: the panics on an invalid yamux configuration do not happen
    in a server and an agent whose configuration is accepted, nor in a client
    that follows the documented bound; a smaller window panics on the first
    connection. *)
Theorem sessions_open :
  (∀ c, Stream_Validate c = None → server_session c = Some (server_muxConfig c)) ∧
  (∀ conf u, agent_Stream_Validate (ag_Stream conf) = None →
    client_session (agent_upstream conf u) = Some (client_muxConfig (agent_upstream conf u))) ∧
  (∀ up, (Client.MaxWindowSize up = 0 ∨ 256 * 1024 ≤ Client.MaxWindowSize up)%Z →
    client_session up = Some (client_muxConfig up)) ∧
  (∀ up, (0 < Client.MaxWindowSize up < 256 * 1024)%Z → client_session up = None).
Proof using All.
  assert (∀ up, (Client.MaxWindowSize up = 0 ∨ 256 * 1024 ≤ Client.MaxWindowSize up)%Z →
    client_session up = Some (client_muxConfig up)) as Hclient.
  { intros up Hw. unfold client_session, open_session. rewrite mux_valid; [done|done|].
    unfold client_muxConfig, defaultMaxWindowSize. simpl. case_decide; lia. }
  split_and!.
  - intros c Hc. unfold Stream_Validate, minStreamWindowSize in Hc. apply check_None in Hc.
    unfold server_session, open_session. rewrite mux_valid; [done|done|]. simpl. lia.
  - intros conf u Hc. unfold agent_Stream_Validate in Hc. apply check_None in Hc. apply Hclient. right. simpl. lia.
  - done.
  - intros up Hw. unfold client_session, open_session. destruct (mux_error _) eqn:He; [done|].
    apply mux_invalid in He; [done|]. simpl. rewrite decide_False; lia.
Qed.

End session_lemmas.
